(* ===== verification/_CoqProject ===== *)
-Q . S2P
Prelude.v
Runtime.v
Http.v
Errors.v
Net.v
Ext.v
ErrorText.v
Dns.v
Message.v
BodyStream.v
Decoder.v
Header.v
Config.v
Multipart.v
Group.v
Tcp.v
Race.v
Timeout.v
Layers.v
Tunnel.v
Matcher.v
SystemProxy.v
Proxy.v
CookieStore.v
Jar.v
JarSpec.v
Lru.v
Pool.v
PoolSystem.v
Redirect.v
HttpClient.v
Browse.v
Io.v
Acquire.v
Retry.v
TlsSession.v
Tls.v
Trust.v
KeyLogFile.v
Connector.v
RequestBuilder.v
Client.v
Response.v
WebSocket.v
