(* ===== verification/Prelude.v ===== *)
(** * A verification library for the wreq HTTP client

    wreq is an HTTP client library.  A client is built from settings; a request
    is built with a request builder and passes through layers, each a service
    around the next one: the timeouts, the configuration layer (scheme check,
    default headers, header order), the decoding of responses, the retry layer,
    the redirect layer, and the HTTP service, which takes a connection from a
    pool or asks a connector for one, puts the request in the form the
    connection needs, adds the cookies of the cookie store and hands it to the
    HTTP engine.  A connector resolves names, races TCP connections, builds
    tunnels through proxies and makes TLS handshakes.  This library translates
    the parts of that program that are logic of the repository into definitions
    and proves what makes them correct.

    ** Files

    - [Prelude]: strings as lists of bytes with the operations of [str], UTF-8,
      machine integers, results, assignment to fields of records, programs that
      emit operations and may fail ([Prog]), sorting and list lemmas, the hint
      database [wreq] and the tactic [simpl_bool].
    - [Runtime]: [src/rt.rs], [src/rt/], [src/sync.rs]: the runtime that is
      chosen, its timers as deadlines, and the mutex and the read-write lock that
      ignore poisoning.
    - [Http]: the types of the crates [http] and [url].  Plain data are records
      of what their accessors return; operations are fields of the classes
      [HeaderValueLib], [HeaderMapLib], [HeaderNameLib], [HostLib], [UriLib] and
      [UrlLib], with documented facts as laws and a reference instance of each.
    - [Errors]: [src/error.rs] and the errors of the layers: an error is the
      list of its kinds from the outside in, with the questions a caller asks.
      [ErrorText]: the texts of errors.
    - [Net]: [std::net::IpAddr] with the grammar of its parser; the networks of
      the crate [ipnet] as a class.
    - [Ext]: [src/ext.rs], [src/into_uri.rs], [src/util.rs]: properties and
      credentials of URIs, conversions into URIs, basic credentials, merging of
      header maps, byte escapes.
    - [Dns]: [src/dns/]: resolvers, overrides, and the addresses of an URI.
    - [Message]: [src/client/body.rs], [src/config.rs]: bodies, requests and
      responses, and the configuration slots in the extensions of a request.
      [BodyStream]: the same bodies as what the engine polls, frame by frame.
    - [Decoder]: [src/client/layer/decoder.rs]: the encodings a request offers.
    - [Header]: [src/header.rs]: the order and spelling of headers.
    - [Config]: [src/client/layer/config.rs]: the configuration layer.
    - [Multipart]: [src/client/multipart.rs] and [RequestBuilder::multipart]:
      forms, their encoding and its length, and a receiver to compare with.
    - [Group]: [src/group.rs], [src/conn/descriptor.rs], [src/conn/net.rs]:
      request groups, the identity of connections, descriptors.
    - [Tcp], [Race]: [src/conn/net/tcp.rs], [src/conn/http.rs]: the options of
      sockets as programs of calls, and the race of connection attempts (happy
      eyeballs) as a state machine that is polled.
    - [Timeout]: [src/client/layer/timeout/], [src/conn/timeout.rs]: the futures
      and bodies that end with a timer.
    - [Layers]: the ends of [ConnectorBuilder::build] and [ClientBuilder::build]:
      the layers of a user, and the timeouts around them.
    - [Tunnel]: [src/conn/proxy/]: the CONNECT tunnel byte by byte, and SOCKS.
    - [Matcher], [Proxy]: [src/proxy/matcher.rs], [src/proxy.rs]: which
      destinations go through a proxy, and with which credentials.
      [SystemProxy]: [src/proxy/win.rs], [src/proxy/mac.rs]: the settings of the
      operating system, and the bypass list of Windows.
    - [CookieStore], [Jar]: [src/cookie/store.rs], [src/cookie/jar.rs],
      [src/cookie.rs]: the nested maps of the cookie store and every operation
      of the jar.  The state is [Store]; the operations [add], [remove],
      [clear] and [set_cookies] are its steps [jar_step].
      [JarSpec]: the jar as one list of cookies in the order of creation, on
      which the operations are those of RFC 6265.
    - [Lru]: the crate [lru] as a class: a cache is the list of its pairs, most
      recent first.
    - [Pool], [PoolSystem]: [src/client/layer/client/pool.rs] and the pooled
      connections of [src/client/layer/client.rs].  [PoolInner] is the state
      behind the mutex and [Pool] its methods; [PoolSystem] adds the handles
      [Connecting], [Pooled] and [Checkout] with their destructors and the
      oneshot channels, and the relation of all interleaved steps.
    - [Redirect]: [src/redirect.rs], [src/client/layer/redirect.rs] with
      [redirect/future.rs] and [redirect/policy.rs]: policies, the referrer
      policy, and the middleware as a machine that is resumed by responses and
      by late decisions.
    - [HttpClient]: [src/client/layer/client.rs], [src/conn.rs]: accepting a
      request, shaping it for its connection, cookies, resending, the race for
      a connection.
    - [Browse]: the redirect layer over the HTTP service and the shared jar: a
      request with its redirects, while others use the jar.
    - [Acquire]: the same file with [src/client/layer/client/lazy.rs]: requests
      that acquire connections as concurrent tasks over the system of
      [PoolSystem], with the attempts to connect that outlive them, and
      connections that must not be recycled.
    - [Io]: [src/conn.rs], [src/conn/verbose.rs], [src/conn/tls_info.rs],
      [src/conn/net/io.rs], [src/rt/compio/io.rs]: the streams a connection is
      wrapped in, as instances of the class [AsyncIo].
    - [Retry]: [src/retry.rs], [src/client/layer/retry.rs] with its modules:
      policies, classifiers, scopes, driven by the protocol of [tower].
    - [TlsSession]: [src/tls/session.rs]: the session cache and its runs.
    - [Tls], [Trust]: [src/tls.rs], [src/tls/conn.rs] with its modules,
      [src/tls/trust/], [src/tls/keylog.rs]: the calls that configure a TLS
      context and a handshake, certificate stores, identities, key logs.
      [KeyLogFile]: the key logs of all connections and the threads that write
      them, as a relation of interleaved steps.
    - [Connector]: [src/conn/connector.rs], [src/tls/conn/service.rs]: how a
      connection is made, directly or through a proxy, with or without TLS.
    - [RequestBuilder], [Response]: [src/client/request.rs],
      [src/client/emulate.rs], [src/client/response.rs],
      [src/client/future.rs]: requests, profiles, responses.
    - [Client]: [src/client.rs]: the settings, and the service [build] makes of
      them out of all the layers.
    - [WebSocket]: [src/client/ws.rs] with its modules, [src/client/upgrade.rs]:
      the opening handshake, its reply, messages, and the sink.

    ** Conventions

    A method that mutates its receiver is a function that returns the new
    state; a method that holds a lock for its whole body is one step.  A panic
    is [None] where the source can panic, and the theorems show which functions
    do not.  [Result] is [result].  Time is a number of nanoseconds given as an
    argument [now].  The order of hash maps is arbitrary: what depends on it is
    proved for every order.  Asynchronous code is cut at its suspension points:
    a machine that is resumed ([Redirect]) or polled ([Race], [Timeout]), a
    relation of steps ([PoolSystem], [Acquire], [KeyLogFile], [TlsSession]), or a function of the
    sequence of answers it gets ([HttpClient], [Retry], [Tunnel]).  Code that
    only calls a library (sockets, TLS) is the list of its calls.  Code outside
    the repository is a class or a parameter; every class has a reference
    instance, at which the theorems are evaluated in the modules named
    [...Examples].

    ** Theorems

    - The client as a whole: with [https_only] every request that leaves the
      layers goes to an https URI, over TLS with the verification that was
      asked for.
    - Cookies: the cookies sent are those RFC 6265 selects, in an order that
      does not depend on hash maps; every reachable jar is well formed; an
      insecure origin cannot affect secure cookies; every query after every
      history answers as the list of cookies does; along a redirect chain every
      request has the cookies for its own URI, and those of the caller only
      until the origin changes; what [add] and [remove] do
      on every branch; stored cookies are sent until their deadline; snapshots
      restore.
    - Pool: for every interleaving, an unshared connection is in one place only,
      a connection serves only the key it was made for, no waiting checkout is
      forgotten, HTTP/2 attempts exclude each other and the limits hold; what
      checkout, put and expiry do.
    - Acquiring connections: every run of concurrent requests is a run of the
      pool, so that the theorems on the pool hold of the client; a request is
      given a connection of its key and of the protocol that was agreed; a
      request whose attempt was canceled is attended to; a connection that must
      not be recycled is not used again.
    - Streams: a connection behaves as the raw stream whatever it is wrapped in,
      and the log shows what was read and written; on compio what was written is
      sent before a read is answered.
    - Connections: the result of the race of attempts, that it ends and how many
      are in flight; tunnels and their requests; what a proxy is told; the TLS
      context and handshake that options ask for; https is TLS to the host of
      the URI, also through proxies.
    - Timeouts: a total timeout covers the whole exchange; a read timeout is a
      timeout per frame; timers wake the task; the connection timeout covers the
      layers of a user; the timers of both runtimes are deadlines.
    - Locks: a panic takes a lock from nobody, and a reader sees the value whole
      write sections left, so that an operation under a lock is one step.
    - Redirects: credentials do not cross origins; the limit bounds every chain;
      method and body follow the status; schemes are checked; the history is
      the chain of URIs; the referrer policy is applied.
    - HTTP service: a request is handed to a second connection only when the
      first gave it back unsent; the form and every header of what is sent;
      which requests are refused; which requests may share a connection.
    - Requests: credentials of a URI become a header; the options of the last
      calls reach the connection; encodings and ranges; forms a receiver can
      read, with their length, and that it does not read one whose parts failed.
    - WebSockets: the opening handshake and what is accepted as its reply;
      messages are received as they were sent.
    - Bodies and texts: a body that is wrapped is polled to its own frames; a
      response can be passed on as a body; the text of an error stays on one
      line whatever a server sends.
    - Proxies: which destinations are intercepted, the bypass list, the URI of a
      proxy, and that credentials reach the proxy and nothing else; what the
      bypass list of Windows excludes.
    - Headers, retries, TLS sessions: nothing is lost by ordering headers; the
      bounds of retries; a TLS 1.3 session is used once and the cache is
      bounded; key logs hold whole lines.
    - Some theorems show behaviour that differs from what the code or its
      documentation intends, for example [pending_follow_unchecked] in
      [Redirect], [out_of_scope_retried] in [Retry], [socks_percent_password] in
      [Proxy] and [session_two_keys_reused] in [TlsSession].

    ** Bounds and fuel

    Fuel occurs in [trim_start_fuel], [trim_end_fuel] (the length of the string:
    every round removes a byte) and [decimal_fuel] (one more than the binary
    logarithm: a number has at most one digit per bit), in the receiver
    [parse_parts] (more than the length of its input), in the decoder of ALPN
    lists (the length of its input), in [received] (the number of frames), and
    in the loops of [Race] (a measure that every round decreases, proved to be
    enough).  All other recursion is structural.  Loops of the program that wait
    for the outside ([send_request], [connection_for], [drive], [browse]) recur over the
    answers they are given, and the theorems say when they stop.  Counters keep
    their width where it matters: the creation index of cookies saturates at 64
    bits (what is said of the order of cookies holds while fewer were offered), the retry counter wraps at 32 and the length of a form at 64.

    ** Not modelled

    Bytes on the wire beyond the CONNECT tunnel and the streams around it, the
    sockets of the operating system, the cryptography of TLS and certificates,
    the codecs of compression, the HTTP engine, the framing of WebSockets, the
    scheduling of tasks, serialisation and media types: all of these are other
    crates or the operating system, and appear as parameters where the code
    depends on their answers.  The macros of [src/trace.rs] and the module
    tree of [src/lib.rs] hold no operation; the [Debug] formats of types are not
    modelled, but for those the connection log prints. *)

From Stdlib Require Export ZArith Ascii Lia.
From stdpp Require Export sorting.
From stdpp Require Export base tactics gmap strings sets option numbers list.
From stdpp Require Export list_relations list_monad.

Declare Scope rust_scope.
Delimit Scope rust_scope with rust.
Global Open Scope rust_scope.

(** ** Strings

    A Rust [&str], [String], [Bytes] or [&[u8]] is the list of its bytes. *)
Abbreviation str := (list ascii).

Definition lit (s : string) : str := String.list_ascii_of_string s.
Notation "# s" := (lit s%string) (at level 8, format "# s") : rust_scope.

Definition chr (n : N) : ascii := ascii_of_N n.
Definition ord (c : ascii) : N := N_of_ascii c.
Definition CR : ascii := chr 13.
Definition LF : ascii := chr 10.
Definition CRLF : str := [CR; LF].

(** [str::starts_with], [str::ends_with], [str::strip_prefix],
    [str::strip_suffix]; a [char] pattern is a one byte string. *)
Definition starts_with (p s : str) : bool := bool_decide (p `prefix_of` s).
Definition ends_with (p s : str) : bool := bool_decide (p `suffix_of` s).
Definition strip_prefix (p s : str) : option str :=
  if starts_with p s then Some (drop (length p) s) else None.
Definition strip_suffix (p s : str) : option str :=
  if ends_with p s then Some (take (length s - length p) s) else None.

(** [str::find] and [str::rfind] of a one byte character. *)
Fixpoint find_char (c : ascii) (s : str) : option nat :=
  match s with
  | [] => None
  | x :: s' => if decide (x = c) then Some 0 else S <$> find_char c s'
  end.
Fixpoint rfind_char (c : ascii) (s : str) : option nat :=
  match s with
  | [] => None
  | x :: s' =>
    match rfind_char c s' with
    | Some i => Some (S i)
    | None => if decide (x = c) then Some 0 else None
    end
  end.

(** [str::split_once], [str::rsplit_once] and [str::split] on a character. *)
Definition split_once (c : ascii) (s : str) : option (str * str) :=
  (λ i, (take i s, drop (S i) s)) <$> find_char c s.
Definition rsplit_once (c : ascii) (s : str) : option (str * str) :=
  (λ i, (take i s, drop (S i) s)) <$> rfind_char c s.
Fixpoint split (c : ascii) (s : str) : list str :=
  match s with
  | [] => [[]]
  | x :: s' =>
    if decide (x = c) then [] :: split c s'
    else match split c s' with
         | p :: ps => (x :: p) :: ps
         | [] => [[x]]
         end
  end.

(** [<[str]>::join]. *)
Fixpoint join (sep : str) (l : list str) : str :=
  match l with
  | [] => []
  | [s] => s
  | s :: l' => s ++ sep ++ join sep l'
  end.

(** [u8::to_ascii_lowercase], [str::to_ascii_lowercase] and
    [str::eq_ignore_ascii_case]. *)
Definition lower (c : ascii) : ascii :=
  if (65 <=? ord c)%N && (ord c <=? 90)%N then chr (ord c + 32) else c.
Definition to_ascii_lowercase (s : str) : str := lower <$> s.
Definition eq_ignore_ascii_case (a b : str) : bool :=
  bool_decide (to_ascii_lowercase a = to_ascii_lowercase b).

(** [str::contains] of a string. *)
Fixpoint contains (p s : str) : bool :=
  starts_with p s || match s with [] => false | _ :: s' => contains p s' end.

(** [str::trim]: the encodings of the characters with the Unicode property
    [White_Space] are stripped at both ends. *)
Definition whitespace : list str :=
  [[chr 9]; [chr 10]; [chr 11]; [chr 12]; [chr 13]; [chr 32];
   [chr 194; chr 133]; [chr 194; chr 160]; [chr 225; chr 154; chr 128]] ++
  ((λ n, [chr 226; chr 128; chr (128 + N.of_nat n)]) <$> seq 0 11) ++
  [[chr 226; chr 128; chr 168]; [chr 226; chr 128; chr 169];
   [chr 226; chr 128; chr 175]; [chr 226; chr 129; chr 159];
   [chr 227; chr 128; chr 128]].
Fixpoint trim_start_fuel (fuel : nat) (s : str) : str :=
  match fuel with
  | 0 => s
  | S fuel =>
    match list_find (λ w, starts_with w s = true) whitespace with
    | Some (_, w) => trim_start_fuel fuel (drop (length w) s)
    | None => s
    end
  end.
Fixpoint trim_end_fuel (fuel : nat) (s : str) : str :=
  match fuel with
  | 0 => s
  | S fuel =>
    match list_find (λ w, ends_with w s = true) whitespace with
    | Some (_, w) => trim_end_fuel fuel (take (length s - length w) s)
    | None => s
    end
  end.
Definition trim (s : str) : str :=
  let s := trim_start_fuel (length s) s in trim_end_fuel (length s) s.

(** [std::str::from_utf8]: the well-formed byte sequences of UTF-8. *)
Definition cont (c : ascii) : bool := (128 <=? ord c)%N && (ord c <=? 191)%N.
Definition within (lo hi : N) (c : ascii) : bool := (lo <=? ord c)%N && (ord c <=? hi)%N.
Fixpoint utf8_valid (s : str) : bool :=
  match s with
  | [] => true
  | a :: s1 =>
    if (ord a <=? 127)%N then utf8_valid s1
    else if within 194 223 a then
      match s1 with b :: s2 => cont b && utf8_valid s2 | _ => false end
    else if within 224 239 a then
      match s1 with
      | b :: c :: s3 =>
        (if (ord a =? 224)%N then within 160 191 b
         else if (ord a =? 237)%N then within 128 159 b else cont b)
        && cont c && utf8_valid s3
      | _ => false
      end
    else if within 240 244 a then
      match s1 with
      | b :: c :: d :: s4 =>
        (if (ord a =? 240)%N then within 144 191 b
         else if (ord a =? 244)%N then within 128 143 b else cont b)
        && cont c && cont d && utf8_valid s4
      | _ => false
      end
    else false
  end.
Definition from_utf8 (s : str) : option str := if utf8_valid s then Some s else None.

(** [String::from_utf8_lossy]: each maximal prefix of a sequence that does not
    continue to a well-formed one becomes U+FFFD. *)
Definition replacement : str := [chr 239; chr 191; chr 189].
Fixpoint from_utf8_lossy (s : str) : str :=
  match s with
  | [] => []
  | a :: s1 =>
    if (ord a <=? 127)%N then a :: from_utf8_lossy s1
    else if within 194 223 a then
      match s1 with
      | b :: s2 =>
        if cont b then a :: b :: from_utf8_lossy s2 else replacement ++ from_utf8_lossy s1
      | [] => replacement
      end
    else if within 224 239 a then
      match s1 with
      | b :: s2 =>
        if (if (ord a =? 224)%N then within 160 191 b
            else if (ord a =? 237)%N then within 128 159 b else cont b)
        then match s2 with
             | c :: s3 =>
               if cont c then a :: b :: c :: from_utf8_lossy s3
               else replacement ++ from_utf8_lossy s2
             | [] => replacement
             end
        else replacement ++ from_utf8_lossy s1
      | [] => replacement
      end
    else if within 240 244 a then
      match s1 with
      | b :: s2 =>
        if (if (ord a =? 240)%N then within 144 191 b
            else if (ord a =? 244)%N then within 128 143 b else cont b)
        then match s2 with
             | c :: s3 =>
               if cont c then
                 match s3 with
                 | d :: s4 =>
                   if cont d then a :: b :: c :: d :: from_utf8_lossy s4
                   else replacement ++ from_utf8_lossy s3
                 | [] => replacement
                 end
               else replacement ++ from_utf8_lossy s2
             | [] => replacement
             end
        else replacement ++ from_utf8_lossy s1
      | [] => replacement
      end
    else replacement ++ from_utf8_lossy s1
  end.

(** [str::get] of the range from [i] on: the range must start at a character
    boundary. *)
Definition str_get_from (i : nat) (s : str) : option str :=
  if decide (length s < i) then None
  else match s !! i with
       | Some c => if cont c then None else Some (drop i s)
       | None => Some []
       end.

(** ** Machine integers *)
Definition u64_max : Z := 2 ^ 64 - 1.
Definition u64_saturating_add (a b : Z) : Z := Z.min u64_max (a + b).
Definition u64_wrapping_add (a b : Z) : Z := (a + b) mod 2 ^ 64.

(** [str::parse] at an unsigned type with maximum [max]: an optional plus sign
    and at least one decimal digit. *)
Definition digit (c : ascii) : option Z :=
  if within 48 57 c then Some (Z.of_N (ord c) - 48)%Z else None.
Fixpoint parse_digits (max acc : Z) (s : str) : option Z :=
  match s with
  | [] => Some acc
  | c :: s =>
    d ← digit c;
    let acc := (10 * acc + d)%Z in
    if (max <? acc)%Z then None else parse_digits max acc s
  end.
Definition parse_unsigned (max : Z) (s : str) : option Z :=
  match default s (strip_prefix #"+" s) with
  | [] => None
  | s => parse_digits max 0 s
  end.
Definition parse_u16 : str → option Z := parse_unsigned (2 ^ 16 - 1).

(** [ToString] of an unsigned integer; a number has at most one digit for each
    of its bits. *)
Fixpoint decimal_fuel (fuel : nat) (n : Z) : str :=
  match fuel with
  | 0 => []
  | S fuel =>
    (if (n <? 10)%Z then [] else decimal_fuel fuel (n / 10)) ++ [chr (Z.to_N (48 + n mod 10))]
  end.
Definition decimal (n : Z) : str := decimal_fuel (S (Z.to_nat (Z.log2 n))) n.

(** ** Results: [Result<A, E>] *)
Inductive result (A E : Type) : Type :=
| Ok (a : A)
| Err (e : E).
Arguments Ok {A E} a.
Arguments Err {A E} e.

Definition result_ok {A E} (r : result A E) : option A :=
  match r with Ok a => Some a | Err _ => None end.
Definition map_err {A E F} (f : E → F) (r : result A E) : result A F :=
  match r with Ok a => Ok a | Err e => Err (f e) end.

Notation "x ←? r ; k" :=
  (match r with Ok x => k | Err e => Err e end)
  (at level 20, r at level 100, k at level 200, right associativity) : rust_scope.

(** [core::task::Poll]. *)
Inductive poll (A : Type) : Type :=
| Ready (a : A)
| Pending.
Arguments Ready {A} a.
Arguments Pending {A}.

(** ** Assigning a field of a record

    [r <| p := v |>] is [r] with [v] in its field [p]. *)
Class Setter {R T : Type} (proj : R → T) := field_set : (T → T) → R → R.
Arguments field_set {R T} proj {_} _ _.
Ltac setter proj :=
  lazymatch type of proj with
  | ?R → ?T =>
    let t := constr:(ltac:(
      let f := fresh in let r := fresh in let whole := fresh in
      intros f r; pose (whole := r); destruct r;
      let c := eval unfold whole in whole in
      let v := eval cbn in (proj c) in
      lazymatch eval pattern v in c with
      | ?g _ => exact (g (f v))
      end) : (T → T) → R → R) in
    let t := eval cbv beta zeta in t in
    exact t
  end.
#[export] Hint Extern 0 (Setter ?p) => setter p : typeclass_instances.
Notation "r <| p := v |>" := (field_set p (λ _, v) r)
  (at level 12, left associativity, p at level 11, v at level 200, format "r  <| p  :=  v |>") :
  rust_scope.
Notation "r <| p ::= f |>" := (field_set p f r)
  (at level 12, left associativity, p at level 11, f at level 200, format "r  <| p  ::=  f |>") :
  rust_scope.

(** ** Programs on an outside resource

    A program performs operations on something outside (a socket, a TLS
    library, the network): it keeps the log of its operations, and it may
    fail. *)
Definition Prog (Op E A : Type) : Type := list Op → result A E * list Op.
Definition prog_ret {Op E A} (a : A) : Prog Op E A := λ log, (Ok a, log).
Definition prog_err {Op E A} (e : E) : Prog Op E A := λ log, (Err e, log).
Definition prog_bind {Op E A B} (m : Prog Op E A) (k : A → Prog Op E B) : Prog Op E B :=
  λ log, match m log with (Ok a, log) => k a log | (Err e, log) => (Err e, log) end.
(** One operation: its answer is that of the outside. *)
Definition prog_op {Op E A} (answer : Op → result A E) (op : Op) : Prog Op E A :=
  λ log, (answer op, log ++ [op]).
Definition prog_map_err {Op E F A} (f : E → F) (m : Prog Op E A) : Prog Op F A :=
  λ log, let '(r, log) := m log in (map_err f r, log).
Definition prog_lift {Op E A} (r : result A E) : Prog Op E A := λ log, (r, log).
Definition prog_option {Op E A} (o : option A) (k : A → Prog Op E unit) : Prog Op E unit :=
  match o with Some a => k a | None => prog_ret tt end.
Fixpoint prog_iter {Op E A} (f : A → Prog Op E unit) (l : list A) : Prog Op E unit :=
  match l with [] => prog_ret tt | a :: l => prog_bind (f a) (λ _, prog_iter f l) end.
Notation "m ;;; k" := (prog_bind m (λ _, k)) (at level 100, k at level 200, right associativity) :
  rust_scope.
Notation "x ←! m ; k" := (prog_bind m (λ x, k))
  (at level 20, m at level 100, k at level 200, right associativity) : rust_scope.

(** What a program that succeeds has done: [emits m R] when the new entries of
    its log are those of [R], [yields m Q] when its value and its log satisfy
    [Q], and [accepts m] when it does succeed. *)
Definition emits {Op E A} (m : Prog Op E A) (R : Op → Prop) : Prop :=
  ∀ log a log', m log = (Ok a, log') → ∀ op, op ∈ log' ↔ op ∈ log ∨ R op.
Definition yields {Op E A} (m : Prog Op E A) (Q : A → list Op → Prop) : Prop :=
  ∀ log a log', m log = (Ok a, log') → Q a log'.
Definition accepts {Op E A} (m : Prog Op E A) : Prop := ∀ log, ∃ a log', m log = (Ok a, log').

Section prog.
Context {Op E : Type}.
Implicit Types (R : Op → Prop) (op : Op).

Lemma prog_bind_inv {A B} (m : Prog Op E A) (k : A → Prog Op E B) log b log' :
  prog_bind m k log = (Ok b, log') → ∃ a log1, m log = (Ok a, log1) ∧ k a log1 = (Ok b, log').
Proof. unfold prog_bind. destruct (m log) as [[a|e] log1]; [eauto|done]. Qed.

Lemma emits_bind {A B} (m : Prog Op E A) (k : A → Prog Op E B) R1 R2 :
  emits m R1 → (∀ a, emits (k a) R2) → emits (prog_bind m k) (λ op, R1 op ∨ R2 op).
Proof.
  intros Hm Hk log b log' (a & log1 & H1 & H2)%prog_bind_inv op.
  rewrite (Hk _ _ _ _ H2), (Hm _ _ _ H1). tauto.
Qed.
Lemma emits_ret {A} (a : A) : emits (prog_ret a : Prog Op E A) (λ _, False).
Proof. intros log b log' [= <- <-] op. tauto. Qed.
Lemma emits_op {A} (answer : Op → result A E) op' : emits (prog_op answer op') (λ op, op = op').
Proof. intros log b log' [= _ <-] op. set_solver. Qed.
Lemma emits_lift {A} (r : result A E) : emits (prog_lift r : Prog Op E A) (λ _, False).
Proof. intros log b log' [= _ <-] op. tauto. Qed.
(** The value of a lifted result, and of an operation, is known. *)
Lemma emits_lift_bind {A B} (r : result A E) (k : A → Prog Op E B) (R : A → Op → Prop) :
  (∀ a, emits (k a) (R a)) →
  emits (prog_bind (prog_lift r) k) (λ op, ∃ a, r = Ok a ∧ R a op).
Proof.
  intros Hk log b log' (a & log1 & [= -> <-] & H2)%prog_bind_inv op.
  rewrite (Hk _ _ _ _ H2). split; [|intros [?|(? & [= <-] & ?)]; auto]. intros [?|?]; eauto.
Qed.
Lemma emits_op_bind {A B} (answer : Op → result A E) op' (k : A → Prog Op E B) (R : A → Op → Prop) :
  (∀ a, emits (k a) (R a)) →
  emits (prog_bind (prog_op answer op') k) (λ op, op = op' ∨ ∃ a, answer op' = Ok a ∧ R a op).
Proof.
  intros Hk log b log' (a & log1 & [= Ha <-] & H2)%prog_bind_inv op.
  rewrite (Hk _ _ _ _ H2), elem_of_app, list_elem_of_singleton. rewrite Ha.
  split; [|intros [?|[?|(? & [= <-] & ?)]]; auto]. intros [[?|?]|?]; eauto.
Qed.
Lemma emits_option {A} (o : option A) (k : A → Prog Op E unit) (R : A → Op → Prop) :
  (∀ a, emits (k a) (R a)) → emits (prog_option o k) (λ op, ∃ a, o = Some a ∧ R a op).
Proof.
  intros Hk. destruct o as [a|]; simpl; intros log b log' H op.
  - rewrite (Hk a _ _ _ H). split; [intros [?|?]; eauto|]. intros [?|(? & [= <-] & ?)]; auto.
  - rewrite (emits_ret _ _ _ _ H op). split; [tauto|]. intros [?|(? & [=] & _)]; auto.
Qed.
Lemma emits_iter {A} (f : A → Prog Op E unit) (l : list A) (R : A → Op → Prop) :
  (∀ a, emits (f a) (R a)) → emits (prog_iter f l) (λ op, ∃ a, a ∈ l ∧ R a op).
Proof.
  intros Hf. induction l as [|a l IH]; simpl.
  - intros log b log' H op. rewrite (emits_ret _ _ _ _ H op). set_solver.
  - intros log b log' (x & log1 & H1 & H2)%prog_bind_inv op.
    rewrite (IH _ _ _ H2), (Hf _ _ _ _ H1). set_solver.
Qed.
Lemma emits_if {A} (b : bool) (m n : Prog Op E A) R1 R2 :
  emits m R1 → emits n R2 →
  emits (if b then m else n) (λ op, b = true ∧ R1 op ∨ b = false ∧ R2 op).
Proof.
  intros Hm Hn log a log' H op. destruct b; [rewrite (Hm _ _ _ H)|rewrite (Hn _ _ _ H)];
    intuition congruence.
Qed.
Lemma emits_log {A} (f : list Op → A) : emits (λ log, (Ok (f log) : result A E, log)) (λ _, False).
Proof. intros log a log' [= _ <-] op. tauto. Qed.
Lemma emits_ext {A} (m : Prog Op E A) R R' : emits m R → (∀ op, R op ↔ R' op) → emits m R'.
Proof. intros Hm H log a log' Hrun op. rewrite (Hm _ _ _ Hrun). by rewrite H. Qed.
Lemma yields_bind {A B} (m : Prog Op E A) (k : A → Prog Op E B) Q :
  (∀ a, yields (k a) Q) → yields (prog_bind m k) Q.
Proof. intros Hk log b log' (a & log1 & H1 & H2)%prog_bind_inv. by eapply Hk. Qed.

Lemma yields_lift_err {A B} (e : E) (k : A → Prog Op E B) Q : yields (prog_bind (prog_lift (Err e)) k) Q.
Proof. intros log b log' [=]. Qed.
Lemma emits_yields_False {A} (m : Prog Op E A) R : yields m (λ _ _, False) → emits m R.
Proof. intros H log a log' Hrun. destruct (H _ _ _ Hrun). Qed.

Lemma accepts_bind {A B} (m : Prog Op E A) (k : A → Prog Op E B) :
  accepts m → (∀ a, accepts (k a)) → accepts (prog_bind m k).
Proof. intros Hm Hk log. unfold prog_bind. destruct (Hm log) as (a & log1 & ->). apply Hk. Qed.
Lemma accepts_op {A} (answer : Op → result A E) op a : answer op = Ok a → accepts (prog_op answer op).
Proof. intros H log. unfold prog_op. rewrite H. eauto. Qed.
Lemma accepts_ret {A} (a : A) : accepts (prog_ret a : Prog Op E A).
Proof. intros log. by eexists _, _. Qed.
Lemma accepts_lift {A} (a : A) : accepts (prog_lift (Ok a) : Prog Op E A).
Proof. intros log. by eexists _, _. Qed.
Lemma accepts_option {A} (o : option A) (k : A → Prog Op E unit) :
  (∀ a, accepts (k a)) → accepts (prog_option o k).
Proof. intros H. destruct o; [apply H|apply accepts_ret]. Qed.
Lemma accepts_iter {A} (f : A → Prog Op E unit) (l : list A) :
  (∀ a, accepts (f a)) → accepts (prog_iter f l).
Proof. intros Hf. induction l; [apply accepts_ret|]. by apply accepts_bind. Qed.
Lemma accepts_if {A} (b : bool) (m n : Prog Op E A) :
  accepts m → accepts n → accepts (if b then m else n).
Proof. by destruct b. Qed.
Lemma accepts_log {A} (f : list Op → A) : accepts (λ log, (Ok (f log) : result A E, log)).
Proof. intros log. by eexists _, _. Qed.
End prog.

Ltac emits_step :=
  first [apply emits_ret|apply emits_op|apply emits_log|apply emits_lift
        |apply emits_bind; [|intros ?]|apply emits_option; intros ?|apply emits_iter; intros ?
        |apply emits_if].
(** Opening and closing the disjunctions of such descriptions. *)
Ltac open_spec :=
  repeat match goal with
  | H : _ ∨ _ |- _ => destruct H
  | H : _ ∧ _ |- _ => destruct H
  | H : ∃ _, _ |- _ => destruct H
  | H : is_Some _ |- _ => destruct H
  | H : negb _ = true |- _ => rewrite negb_true_iff in H
  | H : negb _ = false |- _ => rewrite negb_false_iff in H
  | H : bool_decide _ = true |- _ => apply bool_decide_eq_true in H
  | H : bool_decide _ = false |- _ => apply bool_decide_eq_false in H
  end; try contradiction; try discriminate; simplify_eq.
Ltac witness :=
  match goal with
  | |- _ ∨ _ => first [left; witness|right; witness]
  | |- _ ∧ _ => split; witness
  | |- ∃ _, _ => eexists; witness
  | |- is_Some _ => eexists; witness
  | |- negb _ = true => apply negb_true_iff; witness
  | |- bool_decide _ = false => apply bool_decide_eq_false; eassumption
  | |- _ => first [eassumption|reflexivity]
  end.

(** ** Automation

    [wreq] collects the facts that close the side conditions of the
    components; [simpl_bool] turns boolean tests into propositions. *)
Create HintDb wreq.

Ltac simpl_bool :=
  repeat match goal with
  | H : _ && _ = true |- _ => apply andb_true_iff in H as [? ?]
  | H : _ || _ = false |- _ => apply orb_false_iff in H as [? ?]
  | H : negb _ = true |- _ => apply negb_true_iff in H
  | H : negb _ = false |- _ => apply negb_false_iff in H
  | H : bool_decide _ = true |- _ => apply bool_decide_eq_true_1 in H
  | H : bool_decide _ = false |- _ => apply bool_decide_eq_false_1 in H
  | H : (_ <=? _)%Z = true |- _ => apply Z.leb_le in H
  | H : (_ <=? _)%Z = false |- _ => apply Z.leb_gt in H
  | H : (_ <? _)%Z = true |- _ => apply Z.ltb_lt in H
  | H : (_ <? _)%Z = false |- _ => apply Z.ltb_ge in H
  end.

(** ** Strings *)
Section strings.
Implicit Types (c : ascii) (s p a b : str).

Lemma ord_chr n : (n < 256)%N → ord (chr n) = n.
Proof. apply N_ascii_embedding. Qed.

Lemma starts_with_true p s : starts_with p s = true ↔ ∃ k, s = p ++ k.
Proof. unfold starts_with. by rewrite bool_decide_eq_true. Qed.

Lemma ends_with_true p s : ends_with p s = true ↔ ∃ k, s = k ++ p.
Proof. unfold ends_with. by rewrite bool_decide_eq_true. Qed.

Lemma strip_prefix_None p s : starts_with p s = false → strip_prefix p s = None.
Proof. unfold strip_prefix. by intros ->. Qed.

Lemma strip_prefix_Some p s k : strip_prefix p s = Some k ↔ s = p ++ k.
Proof.
  unfold strip_prefix. destruct (starts_with p s) eqn:E; split; intros H; simplify_eq.
  - apply starts_with_true in E as [k' ->]. by rewrite drop_app_length.
  - by rewrite drop_app_length.
  - exfalso. apply not_true_iff_false in E. apply E, starts_with_true. eauto.
Qed.

Lemma strip_suffix_Some p s k : strip_suffix p s = Some k ↔ s = k ++ p.
Proof.
  unfold strip_suffix. destruct (ends_with p s) eqn:E; split; intros H; simplify_eq.
  - apply ends_with_true in E as [k' ->].
    rewrite length_app, Nat.add_sub, take_app_length. done.
  - by rewrite length_app, Nat.add_sub, take_app_length.
  - exfalso. apply not_true_iff_false in E. apply E, ends_with_true. eauto.
Qed.

Lemma find_char_Some c s i :
  find_char c s = Some i → s = take i s ++ c :: drop (S i) s ∧ c ∉ take i s.
Proof.
  revert i; induction s as [|x s IH]; intros i; simpl; [done|].
  case_decide as E; intros H; simplify_eq/=.
  - split; [done | apply not_elem_of_nil].
  - apply fmap_Some in H as (j & Hj & ->). apply IH in Hj as [Hs Hn].
    simpl. split; [by rewrite <- Hs | set_solver].
Qed.

Lemma find_char_None c s : find_char c s = None ↔ c ∉ s.
Proof.
  induction s as [|x s IH]; simpl; [split; [set_solver | done] |].
  case_decide; [set_solver |]. rewrite fmap_None, IH. set_solver.
Qed.

Lemma rfind_char_None c s : rfind_char c s = None ↔ c ∉ s.
Proof.
  induction s as [|x s IH]; simpl; [split; [set_solver | done] |].
  destruct (rfind_char c s) as [i|] eqn:E.
  - split; [done |]. intros Hn. by rewrite not_elem_of_cons, <- IH in Hn; destruct Hn.
  - destruct IH as [IH _]. specialize (IH eq_refl). case_decide; set_solver.
Qed.

Lemma rfind_char_Some c s i :
  rfind_char c s = Some i → s = take i s ++ c :: drop (S i) s ∧ c ∉ drop (S i) s.
Proof.
  revert i; induction s as [|x s IH]; intros i; simpl; [done|].
  destruct (rfind_char c s) as [j|] eqn:E.
  - intros [= <-]. destruct (IH j eq_refl) as [Hs Hn]. simpl. by rewrite <- Hs.
  - case_decide; [|done]. intros [= <-]. simpl. rewrite drop_0. subst.
    split; [done |]. by apply rfind_char_None.
Qed.

Lemma split_once_Some c s a b :
  split_once c s = Some (a, b) ↔ s = a ++ c :: b ∧ c ∉ a.
Proof.
  unfold split_once. split.
  - intros (i & Hi & [= -> ->])%fmap_Some. by apply find_char_Some in Hi.
  - intros [-> Hn]. apply fmap_Some. exists (length a).
    rewrite take_app_length, drop_app_ge by lia.
    replace (S (length a) - length a) with 1 by lia. split; [|done].
    induction a as [|x a IH]; simpl; [by rewrite decide_True by done |].
    rewrite decide_False by set_solver. rewrite IH by set_solver. done.
Qed.

Lemma rfind_char_last c a b : c ∉ b → rfind_char c (a ++ c :: b) = Some (length a).
Proof.
  intros Hn. induction a as [|x a IH]; simpl; [|by rewrite IH].
  apply rfind_char_None in Hn. by rewrite Hn, decide_True.
Qed.

Lemma rsplit_once_Some c s a b :
  rsplit_once c s = Some (a, b) ↔ s = a ++ c :: b ∧ c ∉ b.
Proof.
  unfold rsplit_once. split.
  - intros (i & Hi & [= -> ->])%fmap_Some. by apply rfind_char_Some in Hi.
  - intros [-> Hn]. rewrite rfind_char_last by done. simpl.
    rewrite take_app_length, drop_app_ge by lia.
    by replace (S (length a) - length a) with 1 by lia.
Qed.

Lemma rsplit_once_None c s : rsplit_once c s = None ↔ c ∉ s.
Proof. unfold rsplit_once. rewrite fmap_None. apply rfind_char_None. Qed.

Lemma eq_ignore_ascii_case_refl s : eq_ignore_ascii_case s s = true.
Proof. by apply bool_decide_eq_true. Qed.

Lemma eq_ignore_ascii_case_length a b :
  eq_ignore_ascii_case a b = true → length a = length b.
Proof.
  unfold eq_ignore_ascii_case, to_ascii_lowercase. intros H%bool_decide_eq_true.
  apply (f_equal length) in H. by rewrite !length_fmap in H.
Qed.

Lemma lower_idemp c : lower (lower c) = lower c.
Proof. by destruct c as [[] [] [] [] [] [] [] []]; vm_compute. Qed.

Lemma to_ascii_lowercase_idemp s :
  to_ascii_lowercase (to_ascii_lowercase s) = to_ascii_lowercase s.
Proof.
  unfold to_ascii_lowercase. rewrite <- list_fmap_compose.
  apply list_fmap_ext. intros i c _. apply lower_idemp.
Qed.

Lemma utf8_valid_ascii s : Forall (λ c, (ord c <= 127)%N) s → utf8_valid s = true.
Proof.
  induction 1 as [|c s Hc Hs IH]; simpl; [done |].
  apply N.leb_le in Hc. by rewrite Hc.
Qed.

Lemma from_utf8_lossy_valid s : utf8_valid s = true → from_utf8_lossy s = s.
Proof.
  remember (length s) as n eqn:Hn. revert s Hn.
  induction n as [n IH] using lt_wf_ind. intros [|a s1] ->; simpl; [done|].
  destruct (ord a <=? 127)%N.
  { intros H. rewrite (IH (length s1)) by (simpl; auto). done. }
  destruct (within 194 223 a).
  { destruct s1 as [|b s2]; [done|]. intros [-> H]%andb_true_iff.
    rewrite (IH (length s2)) by (simpl; auto with lia). done. }
  destruct (within 224 239 a).
  { destruct s1 as [|b [|c s3]]; [done..|]. intros [[-> ->]%andb_true_iff H]%andb_true_iff.
    rewrite (IH (length s3)) by (simpl; auto with lia). done. }
  destruct (within 240 244 a); [|done].
  destruct s1 as [|b [|c [|d s4]]]; [done..|].
  intros [[[-> ->]%andb_true_iff ->]%andb_true_iff H]%andb_true_iff.
  rewrite (IH (length s4)) by (simpl; auto with lia). done.
Qed.

Lemma str_get_from_ascii i s :
  Forall (λ c, (ord c <= 127)%N) s → i <= length s → str_get_from i s = Some (drop i s).
Proof.
  intros Ha Hi. unfold str_get_from. rewrite decide_False by lia.
  destruct (s !! i) as [c|] eqn:E.
  - rewrite Forall_lookup in Ha. apply Ha in E. unfold cont.
    destruct (N.leb_spec 128 (ord c)); [lia | done].
  - apply lookup_ge_None in E. by rewrite drop_ge.
Qed.
End strings.
#[export] Hint Resolve eq_ignore_ascii_case_refl : wreq.

(** ** Sorting

    [slice::sort_unstable_by] may reorder the elements that compare equal;
    when the comparison is antisymmetric on the elements of the slice, every
    sorted permutation is the same list. *)
Section sorted.
Context {A : Type} (R : relation A) `{!Transitive R}.

Lemma sorted_permutation_unique (l l1 l2 : list A) :
  (∀ x y, x ∈ l → y ∈ l → R x y → R y x → x = y) →
  Sorted R l1 → Sorted R l2 → l1 ≡ₚ l → l2 ≡ₚ l → l1 = l2.
Proof.
  intros Hanti H1 H2 P1 P2.
  apply (StronglySorted_unique_strong R).
  - intros x y Hx Hy. apply Hanti; [by rewrite <- P1 | by rewrite <- P2].
  - by apply Sorted_StronglySorted.
  - by apply Sorted_StronglySorted.
  - by rewrite P1, P2.
Qed.
End sorted.

(** ** Lists *)
Lemma list_bind_ext_in {A B} (f g : A → list B) (l : list A) :
  (∀ x, x ∈ l → f x = g x) → l ≫= f = l ≫= g.
Proof.
  induction l as [|x l IH]; intros H; [done|]. rewrite !bind_cons.
  rewrite (H x) by set_solver. f_equal. apply IH. set_solver.
Qed.

Lemma list_filter_all {A} (P : A → Prop) `{∀ x, Decision (P x)} (l : list A) :
  Forall P l → filter P l = l.
Proof. induction 1; [done|]. rewrite filter_cons_True by done. by f_equal. Qed.

Lemma list_filter_none {A} (P : A → Prop) `{∀ x, Decision (P x)} (l : list A) :
  Forall (λ x, ¬ P x) l → filter P l = [].
Proof. induction 1; [done|]. by rewrite filter_cons_False by done. Qed.

(** ** Maps of maps *)
Section maps.
Context {K V : Type} `{Countable K}.

Lemma elem_of_map_to_list_bind {B} (m : gmap K V) (f : K * V → list B) (y : B) :
  y ∈ (map_to_list m ≫= f) ↔ ∃ k v, m !! k = Some v ∧ y ∈ f (k, v).
Proof.
  rewrite list_elem_of_bind. split.
  - intros ([k v] & Hy & Hm%elem_of_map_to_list). eauto.
  - intros (k & v & Hm & Hy). exists (k, v). by rewrite elem_of_map_to_list.
Qed.

Lemma elem_of_map_values (m : gmap K V) (v : V) :
  v ∈ (map_to_list m).*2 ↔ ∃ k, m !! k = Some v.
Proof.
  rewrite list_elem_of_fmap. split.
  - intros ([k v'] & -> & Hm%elem_of_map_to_list). eauto.
  - intros (k & Hm). exists (k, v). by rewrite elem_of_map_to_list.
Qed.
End maps.

(** ** Runs *)
Lemma rtc_preserves {A} (P : A → Prop) (R : relation A) x y :
  (∀ x y, R x y → P x → P y) → rtc R x y → P x → P y.
Proof. intros HR. induction 1; eauto. Qed.
