(* ===== verification/Runtime.v ===== *)
(** * Runtimes and locks

    [src/rt.rs] with the timers of [src/rt/tokio.rs] and [src/rt/compio.rs],
    and the locks of [src/sync.rs].  The sleeps of the two runtimes are
    parameters.  The theorems say what the other files rely on: a timer is a
    deadline, whichever runtime drives it, and a lock runs one critical section
    after the other, also after a panic in one of them. *)

From S2P Require Import Prelude.

(** ** The default runtime *)

(** The features the crate is built with, and the blocks of [if_tokio_rt],
    [if_compio_rt], [if_all_rt] and [if_no_rt]. *)
Record Features := {
  tokio_rt : bool;
  compio_rt : bool;
}.
Inductive Runtime := Tokio | Compio.

(** [Executor::default]; [None] is the panic. *)
Definition Executor_default (f : Features) : option Runtime :=
  if tokio_rt f && negb (compio_rt f) then Some Tokio
  else if compio_rt f && negb (tokio_rt f) then Some Compio
  else if tokio_rt f && compio_rt f then Some Tokio
  else None.

(** [Time], and [Timer::default]. *)
Inductive Time :=
| TimeTimer (rt : Runtime)
| TimeEmpty.
Definition Timer_default (f : Features) : Time :=
  if tokio_rt f && negb (compio_rt f) then TimeTimer Tokio
  else if compio_rt f && negb (tokio_rt f) then TimeTimer Compio
  else if tokio_rt f && compio_rt f then TimeTimer Tokio
  else TimeEmpty.
Definition timer_is_empty (t : Time) : bool := match t with TimeEmpty => true | _ => false end.

(** The executor and the timer are of the same runtime, tokio if it is there;
    without a runtime there is no executor to be had. *)
Lemma default_runtime f :
  Timer_default f = match Executor_default f with Some rt => TimeTimer rt | None => TimeEmpty end ∧
  (tokio_rt f = true → Executor_default f = Some Tokio) ∧
  (Executor_default f = None ↔ tokio_rt f = false ∧ compio_rt f = false).
Proof. destruct f as [[] []]; naive_solver. Qed.

(** ** Timers *)

(** [tokio::time] and [compio::time]: a sleep is ready when its deadline has
    come. *)
Class TokioTime := {
  TSleep : Type;
  tk_sleep : Z → Z → TSleep;
  tk_sleep_until : Z → TSleep;
  tk_reset : Z → TSleep → TSleep;
  tk_ready : Z → TSleep → bool;
  tk_sleep_spec now d t : tk_ready t (tk_sleep now d) = (now + d <=? t)%Z;
  tk_sleep_until_spec deadline t : tk_ready t (tk_sleep_until deadline) = (deadline <=? t)%Z;
  tk_reset_spec deadline s t : tk_ready t (tk_reset deadline s) = (deadline <=? t)%Z;
}.
Class CompioTime := {
  CSleep : Type;
  cp_sleep : Z → Z → CSleep;
  cp_sleep_until : Z → CSleep;
  cp_ready : Z → CSleep → bool;
  cp_sleep_spec now d t : cp_ready t (cp_sleep now d) = (now + d <=? t)%Z;
  cp_sleep_until_spec deadline t : cp_ready t (cp_sleep_until deadline) = (deadline <=? t)%Z;
}.

Section timers.
Context `{TT : TokioTime, CC : CompioTime}.

(** [TokioSleep] and [CompioSleep], which is replaced when it is reset. *)
Inductive RtSleep :=
| TokioSleep (inner : TSleep)
| CompioSleep (fut : CSleep).

Definition timer_sleep (rt : Runtime) (now d : Z) : RtSleep :=
  match rt with Tokio => TokioSleep (tk_sleep now d) | Compio => CompioSleep (cp_sleep now d) end.
Definition timer_sleep_until (rt : Runtime) (deadline : Z) : RtSleep :=
  match rt with Tokio => TokioSleep (tk_sleep_until deadline) | Compio => CompioSleep (cp_sleep_until deadline) end.
Definition timer_reset (sleep : RtSleep) (deadline : Z) : RtSleep :=
  match sleep with
  | TokioSleep s => TokioSleep (tk_reset deadline s)
  | CompioSleep _ => CompioSleep (cp_sleep_until deadline)
  end.
Definition rt_sleep_ready (now : Z) (sleep : RtSleep) : bool :=
  match sleep with TokioSleep s => tk_ready now s | CompioSleep s => cp_ready now s end.

(** A timer as a deadline. *)
Definition is_deadline (sleep : RtSleep) (deadline : Z) : Prop :=
  ∀ t, rt_sleep_ready t sleep = (deadline <=? t)%Z.

Lemma sleep_deadline rt now d : is_deadline (timer_sleep rt now d) (now + d).
Proof. intros t. destruct rt; [apply tk_sleep_spec|apply cp_sleep_spec]. Qed.

(** Whichever runtime made a sleep, after any resets it is ready exactly from
    the last deadline it was given on. *)
Theorem timers_are_deadlines rt now d resets :
  is_deadline (foldl timer_reset (timer_sleep rt now d) resets) (default (now + d)%Z (last resets)) ∧
  ∀ deadline,
    is_deadline (foldl timer_reset (timer_sleep_until rt deadline) resets) (default deadline (last resets)).
Proof.
  assert (∀ s d0, is_deadline s d0 → is_deadline (foldl timer_reset s resets) (default d0 (last resets))) as Hr.
  { induction resets as [|x resets IH]; intros s d0 Hs; [done|]. simpl foldl.
    rewrite last_cons. assert (is_deadline (timer_reset s x) x) as Hx.
    { intros t. destruct s; [apply tk_reset_spec|apply cp_sleep_until_spec]. }
    specialize (IH _ _ Hx). by destruct (last resets). }
  split; [apply Hr, sleep_deadline|]. intros deadline. apply Hr. intros t.
  destruct rt; [apply tk_sleep_until_spec|apply cp_sleep_until_spec].
Qed.
End timers.

(** ** Locks *)
Section locks.
Context {T : Type}.

(** [std::sync::Mutex] at rest: its value, and whether a thread has panicked
    with the lock held. *)
Record StdMutex := {
  mx_value : T;
  mx_poisoned : bool;
}.
(** [std::sync::Mutex::lock]: an error carries the guard as well. *)
Definition std_lock (m : StdMutex) : result T T :=
  if mx_poisoned m then Err (mx_value m) else Ok (mx_value m).
(** [Mutex::lock]. *)
Definition mutex_lock (m : StdMutex) : T := match std_lock m with Ok g => g | Err e => e end.
Definition Mutex_new (t : T) : StdMutex := {| mx_value := t; mx_poisoned := false |}.

(** A critical section changes the value and may end with a panic, which
    poisons the lock. *)
Definition critical (m : StdMutex) (f : T → T * bool) : StdMutex :=
  let '(v, panics) := f (mutex_lock m) in
  {| mx_value := v; mx_poisoned := mx_poisoned m || panics |}.

(** The lock is never lost: the sections run one after the other on the value
    the last one left, whether or not it panicked. *)
Lemma critical_sections t fs :
  mutex_lock (foldl critical (Mutex_new t) fs) = foldl (λ v f, (f v).1) t fs.
Proof.
  assert (∀ m, mutex_lock (foldl critical m fs) = foldl (λ v f, (f v).1) (mx_value m) fs) as H.
  { induction fs as [|f fs IH]; intros m.
    - by destruct m as [? []].
    - simpl. rewrite IH. f_equal. unfold critical, mutex_lock, std_lock.
      destruct m as [v []]; simpl; by destruct (f v). }
  apply H.
Qed.
End locks.

(** *** [RwLock] *)
Section rwlock.
Context {T : Type}.

(** [std::sync::RwLock]: its value, whether a writer has panicked, and the
    guards that are out. *)
Record StdRwLock := {
  rw_value : T;
  rw_poisoned : bool;
  rw_readers : gset nat;
  rw_writer : option nat;
}.
Definition RwLock_new (t : T) : StdRwLock :=
  {| rw_value := t; rw_poisoned := false; rw_readers := ∅; rw_writer := None |}.
Implicit Types (l : StdRwLock) (g : nat).

(** [std::sync::RwLock::read] and [write]: [None] while they block; an error
    hands out the guard as well. *)
Definition std_rw_read l g : option (result StdRwLock StdRwLock) :=
  match rw_writer l with
  | Some _ => None
  | None =>
    let l' := {| rw_value := rw_value l; rw_poisoned := rw_poisoned l;
                 rw_readers := {[g]} ∪ rw_readers l; rw_writer := None |} in
    Some (if rw_poisoned l then Err l' else Ok l')
  end.
Definition std_rw_write l g : option (result StdRwLock StdRwLock) :=
  match rw_writer l with
  | Some _ => None
  | None =>
    if decide (rw_readers l = ∅) then
      let l' := {| rw_value := rw_value l; rw_poisoned := rw_poisoned l;
                   rw_readers := ∅; rw_writer := Some g |} in
      Some (if rw_poisoned l then Err l' else Ok l')
    else None
  end.
(** [RwLock::read] and [RwLock::write]. *)
Definition RwLock_read l g : option StdRwLock :=
  (λ r, match r with Ok l' => l' | Err l' => l' end) <$> std_rw_read l g.
Definition RwLock_write l g : option StdRwLock :=
  (λ r, match r with Ok l' => l' | Err l' => l' end) <$> std_rw_write l g.

(** What is done with the guards. *)
Inductive RwEvent :=
| Read (g : nat)
| ReadDeref (g : nat) (v : T)
| ReadDrop (g : nat)
| Write (g : nat)
| WriteDerefMut (g : nat) (f : T → T)
| WriteDrop (g : nat) (panicking : bool).

Inductive rw_step l : RwEvent → StdRwLock → Prop :=
| rw_step_read g l' : g ∉ rw_readers l → RwLock_read l g = Some l' → rw_step l (Read g) l'
| rw_step_deref g : g ∈ rw_readers l → rw_step l (ReadDeref g (rw_value l)) l
| rw_step_read_drop g : g ∈ rw_readers l →
    rw_step l (ReadDrop g)
      {| rw_value := rw_value l; rw_poisoned := rw_poisoned l;
         rw_readers := rw_readers l ∖ {[g]}; rw_writer := rw_writer l |}
| rw_step_write g l' : RwLock_write l g = Some l' → rw_step l (Write g) l'
| rw_step_deref_mut g f : rw_writer l = Some g →
    rw_step l (WriteDerefMut g f)
      {| rw_value := f (rw_value l); rw_poisoned := rw_poisoned l;
         rw_readers := rw_readers l; rw_writer := rw_writer l |}
| rw_step_write_drop g panicking : rw_writer l = Some g →
    rw_step l (WriteDrop g panicking)
      {| rw_value := rw_value l; rw_poisoned := rw_poisoned l || panicking;
         rw_readers := rw_readers l; rw_writer := None |}.

Inductive rw_run (t : T) : list RwEvent → StdRwLock → Prop :=
| rw_run_nil : rw_run t [] (RwLock_new t)
| rw_run_snoc tr l ev l' : rw_run t tr l → rw_step l ev l' → rw_run t (tr ++ [ev]) l'.

(** The value the finished write sections leave, and the one of the section
    that is open. *)
Definition commit (s : T * option T) (ev : RwEvent) : T * option T :=
  match ev, s with
  | Write _, (v, _) => (v, Some v)
  | WriteDerefMut _ f, (v, Some w) => (v, Some (f w))
  | WriteDrop _ _, (_, Some w) => (w, None)
  | _, s => s
  end.
Definition committed (t : T) (tr : list RwEvent) : T * option T := foldl commit (t, None) tr.

Lemma rw_read_Some l g l' :
  RwLock_read l g = Some l' →
  rw_writer l = None ∧ rw_writer l' = None ∧ rw_value l' = rw_value l ∧
  rw_readers l' = {[g]} ∪ rw_readers l.
Proof.
  unfold RwLock_read, std_rw_read. destruct (rw_writer l); [done|].
  destruct (rw_poisoned l); intros [= <-]; done.
Qed.
Lemma rw_write_Some l g l' :
  RwLock_write l g = Some l' →
  rw_writer l = None ∧ rw_readers l = ∅ ∧ rw_writer l' = Some g ∧ rw_value l' = rw_value l ∧
  rw_readers l' = ∅.
Proof.
  unfold RwLock_write, std_rw_write. destruct (rw_writer l); [done|]. case_decide; [|done].
  destruct (rw_poisoned l); intros [= <-]; done.
Qed.

(** A panic takes the lock from nobody. *)
Lemma rw_write_available l g :
  rw_writer l = None → rw_readers l = ∅ → is_Some (RwLock_write l g).
Proof. intros Hw Hr. unfold RwLock_write, std_rw_write. rewrite Hw, decide_True by done. by eexists. Qed.

Record rw_inv (t : T) (tr : list RwEvent) l : Prop := {
  rw_open : (committed t tr).2 = None ↔ rw_writer l = None;
  rw_current : rw_value l = default (committed t tr).1 (committed t tr).2;
  rw_exclusive : is_Some (rw_writer l) → rw_readers l = ∅;
}.

Lemma rw_run_inv t tr l : rw_run t tr l → rw_inv t tr l.
Proof.
  induction 1 as [|tr l ev l' _ [Ho Hc Hx] Hstep]; [split; [done|done|by intros []]|].
  assert (committed t (tr ++ [ev]) = commit (committed t tr) ev) as Hs
    by (unfold committed; by rewrite foldl_app).
  split; rewrite ?Hs; clear Hs; destruct (committed t tr) as [v o]; simpl in *.
  all: inversion Hstep as [g ? Hg Hr|g Hg|g Hg|g ? Hw|g f Hw|g b Hw]; subst; simpl.
  all: try (apply rw_read_Some in Hr as (Hr1 & Hr2 & Hr3 & Hr4)).
  all: try (apply rw_write_Some in Hw as (Hw1 & Hw2 & Hw3 & Hw4 & Hw5)).
  all: destruct o as [w|]; simpl in *; try naive_solver.
  - rewrite Hr2. by intros [].
  - intros Hw. rewrite Hx by done. set_solver.
  - intros Hw. rewrite Hx by done. set_solver.
Qed.

(** Readers see whole write sections: the value of a read guard is the one that
    the finished sections left, also when one of them ended in a panic. *)
Lemma rwlock_atomic t tr g v tr' l :
  rw_run t (tr ++ ReadDeref g v :: tr') l → committed t tr = (v, None).
Proof.
  revert l. induction tr' as [|ev tr' IH] using rev_ind; intros l Hrun.
  - inversion Hrun as [Heq|tr1 l1 ev l2 Hrun1 Hstep Heq]; [by destruct tr|].
    apply app_inj_tail in Heq as [-> ->]. destruct (rw_run_inv _ _ _ Hrun1) as [Ho Hc Hx].
    inversion Hstep; subst. destruct (committed t tr) as [v' [w|]]; simpl in *; [|by rewrite Hc].
    destruct (rw_writer l) eqn:Hw; [|naive_solver]. rewrite Hx in *; [set_solver|by eexists].
  - inversion Hrun as [Heq|tr1 l1 ev' l2 Hrun1 Hstep Heq]; [by destruct tr|].
    rewrite app_comm_cons, app_assoc in Heq. apply app_inj_tail in Heq as [-> ->]. by eapply IH.
Qed.
End rwlock.

(** Sleeps that are their deadlines. *)
Module RuntimeExamples.
#[export] Program Instance ref_tokio : TokioTime := {|
  TSleep := Z;
  tk_sleep now d := (now + d)%Z;
  tk_sleep_until d := d;
  tk_reset d _ := d;
  tk_ready t s := (s <=? t)%Z;
|}.
Solve All Obligations with done.
#[export] Program Instance ref_compio : CompioTime := {|
  CSleep := Z;
  cp_sleep now d := (now + d)%Z;
  cp_sleep_until d := d;
  cp_ready t s := (s <=? t)%Z;
|}.
Solve All Obligations with done.

Lemma reset_sleep :
  let s := timer_reset (timer_sleep Compio 5 10) 12 in
  (rt_sleep_ready 11 s, rt_sleep_ready 12 s) = (false, true).
Proof. done. Qed.
End RuntimeExamples.
