(* ===== verification/Http.v ===== *)
(** * Interfaces to the [http] and [url] crates

    wreq is written against the types of the [http] crate (URIs, header maps,
    methods, versions) and of the [url] crate (hosts).  Their code is not part
    of the repository.  The plain data those types carry are records of what
    their accessors return; every fallible or stateful operation of the crates
    is a field of a class, together with the documented facts wreq relies on.
    Each class has a reference instance, at which the theorems of the
    components are evaluated. *)

From S2P Require Import Prelude.

(** ** Schemes, authorities, URIs *)

(** [http::uri::Scheme]: the two constants, or another protocol name.
    Names compare without regard to case. *)
Inductive Scheme :=
| HTTP
| HTTPS
| OtherScheme (s : str).

Definition scheme_eqb (a b : Scheme) : bool :=
  match a, b with
  | HTTP, HTTP | HTTPS, HTTPS => true
  | OtherScheme s, OtherScheme t => eq_ignore_ascii_case s t
  | _, _ => false
  end.

Definition scheme_as_str (s : Scheme) : str :=
  match s with HTTP => #"http" | HTTPS => #"https" | OtherScheme s => s end.

(** [http::uri::Authority]: its text with the host and the port in it. *)
Record Authority := {
  auth_str : str;
  auth_host : str;
  auth_port : option Z;
}.

(** [http::uri::PathAndQuery]. *)
Record PathAndQuery := {
  pq_path : str;
  pq_query : option str;
}.

(** [http::Uri]. *)
Record Uri := {
  uri_scheme : option Scheme;
  uri_authority : option Authority;
  uri_path_and_query : option PathAndQuery;
}.

Definition uri_host (u : Uri) : option str := auth_host <$> uri_authority u.
Definition uri_port (u : Uri) : option Z := uri_authority u ≫= auth_port.
Definition uri_path (u : Uri) : str :=
  match uri_path_and_query u with Some pq => pq_path pq | None => [] end.

Definition option_scheme_eqb (a b : option Scheme) : bool :=
  match a, b with
  | Some a, Some b => scheme_eqb a b
  | None, None => true
  | _, _ => false
  end.

(** [PartialEq] of URIs: authorities compare without regard to case. *)
Definition uri_eqb (a b : Uri) : bool :=
  option_scheme_eqb (uri_scheme a) (uri_scheme b) &&
  match uri_authority a, uri_authority b with
  | Some x, Some y => eq_ignore_ascii_case (auth_str x) (auth_str y)
  | None, None => true
  | _, _ => false
  end &&
  bool_decide (uri_path a = uri_path b) &&
  bool_decide ((uri_path_and_query a ≫= pq_query) = (uri_path_and_query b ≫= pq_query)).

#[export] Instance Scheme_eq_dec : EqDecision Scheme.
Proof. solve_decision. Defined.
#[export] Instance Authority_eq_dec : EqDecision Authority.
Proof. solve_decision. Defined.
#[export] Instance PathAndQuery_eq_dec : EqDecision PathAndQuery.
Proof. solve_decision. Defined.
#[export] Instance Uri_eq_dec : EqDecision Uri.
Proof. solve_decision. Defined.

Lemma scheme_eqb_refl s : scheme_eqb s s = true.
Proof. destruct s; simpl; auto with wreq. Qed.

(** ** Methods, versions, status codes *)
Inductive Method :=
| GET | POST | PUT | DELETE | HEAD | OPTIONS | CONNECT | PATCH | TRACE
| Extension (s : str).

Inductive Version := HTTP_09 | HTTP_10 | HTTP_11 | HTTP_2 | HTTP_3.

(** [http::StatusCode] as its number. *)
Abbreviation StatusCode := Z.

#[export] Instance Method_eq_dec : EqDecision Method.
Proof. solve_decision. Defined.
#[export] Instance Version_eq_dec : EqDecision Version.
Proof. solve_decision. Defined.

(** ** Header values *)

(** [http::HeaderName] by its lower-case text. *)
Abbreviation HeaderName := str.

(** [http::HeaderValue]: bytes, and a mark that they are sensitive. *)
Record HeaderValue := {
  hv_bytes : str;
  hv_sensitive : bool;
}.

Definition set_sensitive (b : bool) (v : HeaderValue) : HeaderValue :=
  {| hv_bytes := hv_bytes v; hv_sensitive := b |}.

#[export] Instance HeaderValue_eq_dec : EqDecision HeaderValue.
Proof. solve_decision. Defined.

(** The bytes of a field value: tab, the visible characters and the opaque
    bytes above ASCII. *)
Definition field_byte (c : ascii) : bool :=
  (ord c =? 9)%N || (32 <=? ord c)%N && negb (ord c =? 127)%N.
Definition visible_byte (c : ascii) : bool :=
  (ord c =? 9)%N || (32 <=? ord c)%N && (ord c <? 127)%N.

Lemma decimal_fuel_digit fuel n c :
  (0 <= n)%Z → c ∈ decimal_fuel fuel n → (48 <= ord c <= 57)%N.
Proof.
  revert n. induction fuel as [|fuel IH]; intros n Hn; simpl; [by intros ?%elem_of_nil|].
  rewrite elem_of_app. intros [Hc|Hc].
  - destruct (n <? 10)%Z; [by apply elem_of_nil in Hc|]. eapply IH; [|done].
    by apply Z.div_pos.
  - apply list_elem_of_singleton in Hc as ->.
    pose proof (Z.mod_pos_bound n 10 ltac:(lia)) as Hm. rewrite ord_chr by lia. lia.
Qed.
Lemma decimal_fuel_visible fuel n c : (0 <= n)%Z → c ∈ decimal_fuel fuel n → visible_byte c = true.
Proof.
  intros Hn Hc. pose proof (decimal_fuel_digit _ _ _ Hn Hc). unfold visible_byte.
  apply orb_true_iff. right. apply andb_true_iff. split; [apply N.leb_le|apply N.ltb_lt]; lia.
Qed.

(** [HeaderValue::from_maybe_shared], [HeaderValue::from_str],
    [HeaderValue::to_str]. *)
Class HeaderValueLib := {
  from_maybe_shared : str → option HeaderValue;
  from_maybe_shared_Some s v :
    from_maybe_shared s = Some v → hv_bytes v = s ∧ hv_sensitive v = false;
  from_maybe_shared_valid s :
    is_Some (from_maybe_shared s) ↔ Forall (λ c, field_byte c = true) s;
  header_from_str : str → option HeaderValue;
  header_from_str_spec s :
    header_from_str s = if forallb visible_byte s
                        then Some {| hv_bytes := s; hv_sensitive := false |} else None;
  to_str : HeaderValue → option str;
  to_str_spec v :
    to_str v = if forallb visible_byte (hv_bytes v) then Some (hv_bytes v) else None;
}.

Lemma from_maybe_shared_ok `{HeaderValueLib} s :
  Forall (λ c, field_byte c = true) s →
  from_maybe_shared s = Some {| hv_bytes := s; hv_sensitive := false |}.
Proof.
  intros [v Hv]%from_maybe_shared_valid. rewrite Hv.
  apply from_maybe_shared_Some in Hv as [Hb Hs]. destruct v; naive_solver.
Qed.

Definition ref_from_maybe_shared (s : str) : option HeaderValue :=
  if decide (Forall (λ c, field_byte c = true) s)
  then Some {| hv_bytes := s; hv_sensitive := false |} else None.

#[export] Program Instance RefHeaderValue : HeaderValueLib := {|
  from_maybe_shared := ref_from_maybe_shared;
  header_from_str := λ s, if forallb visible_byte s
                          then Some {| hv_bytes := s; hv_sensitive := false |} else None;
  to_str := λ v, if forallb visible_byte (hv_bytes v) then Some (hv_bytes v) else None;
|}.
Next Obligation.
  intros s v. unfold ref_from_maybe_shared. case_decide; intros H'; by simplify_eq.
Qed.
Next Obligation.
  intros s. unfold ref_from_maybe_shared.
  by case_decide; split.
Qed.
Next Obligation. done. Qed.
Next Obligation. done. Qed.

(** ** Header maps

    [http::HeaderMap<T>] is a multimap from names to lists of values.
    [hm_groups] is the order in which its iterators visit the names, with the
    values of each; the crate leaves that order unspecified. *)
Class HeaderMapLib := {
  HeaderMap : Type → Type;
  hm_empty {V} : HeaderMap V;
  hm_get_all {V} : HeaderMap V → HeaderName → list V;
  hm_insert {V} : HeaderName → V → HeaderMap V → HeaderMap V;
  hm_append {V} : HeaderName → V → HeaderMap V → HeaderMap V;
  hm_remove {V} : HeaderName → HeaderMap V → HeaderMap V;
  hm_extend {V} : HeaderMap V → HeaderMap V → HeaderMap V;
  hm_groups {V} : HeaderMap V → list (HeaderName * list V);
  hm_get_all_empty {V} n : hm_get_all (hm_empty (V:=V)) n = [];
  hm_get_all_insert {V} (m : HeaderMap V) n v n' :
    hm_get_all (hm_insert n v m) n' = if decide (n' = n) then [v] else hm_get_all m n';
  hm_get_all_append {V} (m : HeaderMap V) n v n' :
    hm_get_all (hm_append n v m) n' =
    if decide (n' = n) then hm_get_all m n ++ [v] else hm_get_all m n';
  hm_get_all_remove {V} (m : HeaderMap V) n n' :
    hm_get_all (hm_remove n m) n' = if decide (n' = n) then [] else hm_get_all m n';
  hm_get_all_extend {V} (dst src : HeaderMap V) n :
    hm_get_all (hm_extend dst src) n =
    if decide (hm_get_all src n = []) then hm_get_all dst n else hm_get_all src n;
  hm_groups_NoDup {V} (m : HeaderMap V) : NoDup (hm_groups m).*1;
  hm_groups_spec {V} (m : HeaderMap V) n vs :
    (n, vs) ∈ hm_groups m ↔ vs = hm_get_all m n ∧ vs ≠ [];
}.

Section header_map.
Context `{HM : HeaderMapLib} {V : Type}.
Implicit Types (m : HeaderMap V) (n : HeaderName).

(** [HeaderMap::get], [contains_key], [keys], [len], [iter]. *)
Definition hm_get m n : option V := head (hm_get_all m n).
Definition hm_contains_key m n : bool := bool_decide (hm_get_all m n ≠ []).
Definition hm_keys m : list HeaderName := (hm_groups m).*1.
Definition hm_iter m : list (HeaderName * V) :=
  hm_groups m ≫= λ '(n, vs), (n,.) <$> vs.
Definition hm_len m : nat := length (hm_iter m).
(** [into_iter] and [drain]: the first value of a name comes with the name,
    the further ones without it. *)
Definition group_items (g : HeaderName * list V) : list (option HeaderName * V) :=
  match g with
  | (n, []) => []
  | (n, v :: vs) => (Some n, v) :: ((None,.) <$> vs)
  end.
Definition hm_into_iter m : list (option HeaderName * V) :=
  hm_groups m ≫= group_items.
End header_map.

(** Two maps are the same multimap when they hold the same values for every
    name; the order of the names is not part of it. *)
Definition hm_equiv `{HeaderMapLib} {V} (m1 m2 : HeaderMap V) : Prop :=
  ∀ n, hm_get_all m1 n = hm_get_all m2 n.

(** The reference header map: a finite map from names to lists of values. *)
#[export] Program Instance RefHeaderMap : HeaderMapLib := {|
  HeaderMap V := gmap str (list V);
  hm_empty V := ∅;
  hm_get_all V m n := default [] (m !! n);
  hm_insert V n v m := <[n := [v]]> m;
  hm_append V n v m := <[n := default [] (m !! n) ++ [v]]> m;
  hm_remove V n m := delete n m;
  hm_extend V dst src := filter (λ p, p.2 ≠ []) (src : gmap str (list V)) ∪ dst;
  hm_groups V m := filter (λ p, p.2 ≠ []) (map_to_list m);
|}.
Next Obligation. intros V n. simpl. by rewrite lookup_empty. Qed.
Next Obligation. intros V m n v n'. simpl. rewrite lookup_insert. repeat case_decide; naive_solver. Qed.
Next Obligation. intros V m n v n'. simpl. rewrite lookup_insert. repeat case_decide; naive_solver. Qed.
Next Obligation. intros V m n n'. simpl. rewrite lookup_delete. repeat case_decide; naive_solver. Qed.
Next Obligation.
  intros V dst src n. cbv beta. change (gmap HeaderName (list V)) in dst, src.
  rewrite lookup_union, map_lookup_filter.
  destruct (src !! n) as [[|v vs]|]; simpl; destruct (dst !! n); simpl; repeat case_guard; simpl;
    repeat case_decide; naive_solver.
Qed.
Next Obligation.
  intros V m. change (gmap HeaderName (list V)) in m.
  eapply sublist_NoDup; [apply (NoDup_fst_map_to_list m)|].
  apply fmap_sublist, sublist_filter.
Qed.
Next Obligation.
  intros V m n vs. change (gmap HeaderName (list V)) in m.
  rewrite list_elem_of_filter, elem_of_map_to_list. simpl.
  destruct (m !! n); naive_solver.
Qed.

(** [HeaderName::from_bytes]: names compare without regard to case, and are kept
    in lower case. *)
Class HeaderNameLib := {
  header_name_from_bytes : str → option HeaderName;
  header_name_lower s n : header_name_from_bytes s = Some n → n = to_ascii_lowercase s;
}.

(** The reference names: any non-empty text of visible characters. *)
Definition ref_header_name (s : str) : option HeaderName :=
  if bool_decide (s ≠ []) && forallb visible_byte s then Some (to_ascii_lowercase s) else None.

#[export] Program Instance RefHeaderName : HeaderNameLib := {|
  header_name_from_bytes := ref_header_name;
|}.
Next Obligation. intros s n. unfold ref_header_name. case_match; naive_solver. Qed.

(** ** Hosts *)

(** [url::Host<S>]: a domain name or an address literal. *)
Inductive Host :=
| Domain (d : str)
| Ipv4 (a : Z)
| Ipv6 (a : Z).

#[export] Instance Host_eq_dec : EqDecision Host.
Proof. solve_decision. Defined.
#[export] Program Instance Host_countable : Countable Host :=
  inj_countable'
    (λ h, match h with Domain d => inl d | Ipv4 a => inr (inl a) | Ipv6 a => inr (inr a) end)
    (λ x, match x with inl d => Domain d | inr (inl a) => Ipv4 a | inr (inr a) => Ipv6 a end) _.
Next Obligation. by intros []. Qed.

(** [url::Host::parse] and the text of a host ([Display]).  The text of a
    parsed host parses to that host. *)
Class HostLib := {
  host_parse : str → option Host;
  host_to_string : Host → str;
  host_parse_to_string s h : host_parse s = Some h → host_parse (host_to_string h) = Some h;
}.

(** The reference parser knows domain names only. *)
Definition ref_host_parse (s : str) : option Host :=
  match s with [] => None | _ => Some (Domain (to_ascii_lowercase s)) end.
Definition ref_host_to_string (h : Host) : str :=
  match h with Domain d => d | Ipv4 _ | Ipv6 _ => #"0" end.

#[export] Program Instance RefHost : HostLib := {|
  host_parse := ref_host_parse;
  host_to_string := ref_host_to_string;
|}.
Next Obligation.
  intros [|c s] h; [done|]. intros [= <-]. simpl. f_equal. f_equal.
  apply (to_ascii_lowercase_idemp (c :: s)).
Qed.

(** ** Building and parsing URIs *)

(** [Authority::from_maybe_shared], [Uri::from_parts], [Uri::try_from],
    [Uri::to_string] and [Scheme::from_str].  Building a URI from parts keeps
    the parts it was given, and succeeds on the combinations the crate names; the text of a URI with a scheme and an authority
    that is not over the length limit of the crate parses to that URI. *)
Definition valid_parts (p : Uri) : bool :=
  match uri_scheme p, uri_authority p, uri_path_and_query p with
  | Some _, Some _, Some _ | None, None, Some _ | None, Some _, None => true
  | _, _, _ => false
  end.
Class UriLib := {
  authority_parse : str → option Authority;
  authority_parse_Some s a : authority_parse s = Some a → auth_str a = s;
  uri_from_parts : Uri → option Uri;
  uri_from_parts_Some p u : uri_from_parts p = Some u → u = p;
  uri_from_parts_valid p : valid_parts p = true → is_Some (uri_from_parts p);
  uri_try_from : str → option Uri;
  uri_try_from_empty : uri_try_from [] = None;
  uri_to_string : Uri → str;
  uri_reparse s t p u a :
    uri_try_from s = Some p → is_Some (uri_scheme p) → authority_parse t = Some a →
    uri_from_parts {| uri_scheme := uri_scheme p; uri_authority := Some a;
                      uri_path_and_query := uri_path_and_query p |} = Some u →
    (Z.of_nat (length (uri_to_string u)) <= 65534)%Z →
    uri_try_from (uri_to_string u) = Some u;
  scheme_parse : str → option Scheme;
}.

(** [url::Url]: parsing, joining a reference, the accessors and the setters
    wreq uses; a setter that can fail returns an option. *)
Class UrlLib := {
  Url : Type;
  Url_parse : str → option Url;
  Url_join : Url → str → option Url;
  Url_as_str : Url → str;
  Url_scheme : Url → str;
  Url_host_str : Url → option str;
  Url_port_or_known_default : Url → option Z;
  Url_query : Url → option str;
  Url_set_username : str → Url → option Url;
  Url_set_password : option str → Url → option Url;
  Url_set_path : str → Url → Url;
  Url_set_query : option str → Url → Url;
  Url_set_fragment : option str → Url → Url;
}.

(** *** Reference instances

    The reference authority is [userinfo@host:port], the reference URI
    [scheme://authority/path?query] in absolute form, and the reference URL a
    URI with a fragment; joining knows absolute URLs and rooted paths. *)
Definition ref_authority (s : str) : option Authority :=
  if decide ("/"%char ∈ s) then None else
  let hp := match rsplit_once "@"%char s with Some (_, hp) => hp | None => s end in
  match split_once ":"%char hp with
  | Some (h, p) => Some {| auth_str := s; auth_host := h; auth_port := parse_u16 p |}
  | None => Some {| auth_str := s; auth_host := hp; auth_port := None |}
  end.

Definition ref_path_and_query (s : str) : PathAndQuery :=
  match split_once "?"%char s with
  | Some (p, q) => {| pq_path := p; pq_query := Some q |}
  | None => {| pq_path := s; pq_query := None |}
  end.

Definition ref_scheme (s : str) : Scheme :=
  if decide (s = #"http") then HTTP else if decide (s = #"https") then HTTPS else OtherScheme s.

Definition ref_uri (s : str) : option Uri :=
  '(sc, rest) ← split_once ":"%char s;
  rest ← strip_prefix #"//" rest;
  let '(a, pq) := match find_char "/"%char rest with
                  | Some i => (take i rest, drop i rest)
                  | None => (rest, #"/")
                  end in
  auth ← ref_authority a;
  Some {| uri_scheme := Some (ref_scheme sc); uri_authority := Some auth;
          uri_path_and_query := Some (ref_path_and_query pq) |}.

Definition ref_pq_str (pq : PathAndQuery) : str :=
  pq_path pq ++ match pq_query pq with Some q => "?"%char :: q | None => [] end.

Definition ref_uri_to_string (u : Uri) : str :=
  match uri_scheme u with Some s => scheme_as_str s ++ #"://" | None => [] end ++
  match uri_authority u with Some a => auth_str a | None => [] end ++
  match uri_path_and_query u with Some pq => ref_pq_str pq | None => [] end.

Lemma ref_authority_Some s a :
  ref_authority s = Some a → auth_str a = s ∧ "/"%char ∉ s.
Proof. unfold ref_authority. repeat case_match; naive_solver. Qed.

Lemma ref_scheme_as_str sc : scheme_as_str (ref_scheme sc) = sc.
Proof. unfold ref_scheme. repeat case_decide; by subst. Qed.

Lemma ref_pq_reparse s : ref_pq_str (ref_path_and_query s) = s.
Proof.
  unfold ref_path_and_query, ref_pq_str. destruct (split_once _ s) as [[p q]|] eqn:E; simpl.
  - by apply split_once_Some in E as [-> _].
  - by rewrite app_nil_r.
Qed.

Lemma ref_uri_reparse sc t a r :
  ":"%char ∉ sc → ref_authority t = Some a → starts_with #"/" r = true →
  ref_uri (scheme_as_str (ref_scheme sc) ++ #"://" ++ auth_str a ++ r) =
    Some {| uri_scheme := Some (ref_scheme sc); uri_authority := Some a;
            uri_path_and_query := Some (ref_path_and_query r) |}.
Proof.
  intros Hsc Ha Hr. unfold ref_uri. rewrite ref_scheme_as_str.
  assert (split_once ":"%char (sc ++ #"://" ++ auth_str a ++ r) =
          Some (sc, #"//" ++ auth_str a ++ r)) as -> by (by apply split_once_Some).
  assert (strip_prefix #"//" (#"//" ++ auth_str a ++ r) = Some (auth_str a ++ r)) as Hs
    by (by apply strip_prefix_Some).
  cbn [mbind option_bind]. rewrite Hs. cbn [mbind option_bind].
  destruct (ref_authority_Some _ _ Ha) as [-> Hn].
  apply starts_with_true in Hr as [k ->].
  assert (find_char "/"%char (t ++ #"/" ++ k) = Some (length t)) as ->.
  { clear -Hn. induction t as [|x t IH]; [done|]. simpl.
    rewrite decide_False by set_solver. simpl in IH. by rewrite IH by set_solver. }
  rewrite take_app_length, drop_app_length. by rewrite Ha.
Qed.

Lemma ref_uri_shape s u :
  ref_uri s = Some u →
  ∃ sc r, uri_scheme u = Some (ref_scheme sc) ∧ ":"%char ∉ sc ∧
    uri_path_and_query u = Some (ref_path_and_query r) ∧ starts_with #"/" r = true.
Proof.
  unfold ref_uri. destruct (split_once _ s) as [[sc rest]|] eqn:E; [|done].
  apply split_once_Some in E as [_ Hsc]. simpl.
  destruct (strip_prefix _ rest) as [rest'|]; [|done]. simpl.
  destruct (find_char _ rest') as [i|] eqn:Ef; simpl; destruct (ref_authority _) as [a|]; try done;
    intros [= <-]; simpl; eexists _, _; (split_and!; [done..|]); [|done].
  apply find_char_Some in Ef as [Hs _]. apply starts_with_true.
  exists (drop (S i) rest'). rewrite Hs at 1.
  assert (i <= length rest').
  { apply (f_equal length) in Hs. rewrite length_app, length_take in Hs. simpl in Hs.
    rewrite length_drop in Hs. lia. }
  rewrite drop_app_length'; [done|]. rewrite length_take. lia.
Qed.

#[export] Program Instance RefUri : UriLib := {|
  authority_parse := ref_authority;
  uri_from_parts := Some;
  uri_try_from := ref_uri;
  uri_to_string := ref_uri_to_string;
  scheme_parse s := Some (ref_scheme s);
|}.
Next Obligation. intros s a Ha. by apply ref_authority_Some in Ha as [? _]. Qed.
Next Obligation. naive_solver. Qed.
Next Obligation. by eexists. Qed.
Next Obligation. done. Qed.
Next Obligation.
  intros s t p u a (sc & r & Hs & Hsc & Hpq & Hr)%ref_uri_shape _ Ha [= <-] _.
  rewrite Hs, Hpq. unfold ref_uri_to_string. simpl uri_scheme. simpl uri_authority.
  simpl uri_path_and_query. cbv iota. rewrite ref_pq_reparse, <- app_assoc.
  by eapply ref_uri_reparse.
Qed.

Record RefUrlData := {
  ru_scheme : str;
  ru_user : str;
  ru_password : option str;
  ru_host : str;
  ru_port : option Z;
  ru_path : str;
  ru_query : option str;
  ru_fragment : option str;
}.

Definition ref_url_parse (s : str) : option RefUrlData :=
  let '(s, fragment) := match split_once "#"%char s with
                        | Some (s, f) => (s, Some f)
                        | None => (s, None)
                        end in
  u ← ref_uri s; sc ← uri_scheme u; a ← uri_authority u; pq ← uri_path_and_query u;
  let '(user, password) := match rsplit_once "@"%char (auth_str a) with
                           | None => ([], None)
                           | Some (ui, _) => match split_once ":"%char ui with
                                             | Some (n, p) => (n, Some p)
                                             | None => (ui, None)
                                             end
                           end in
  Some {| ru_scheme := scheme_as_str sc; ru_user := user; ru_password := password;
          ru_host := auth_host a; ru_port := auth_port a; ru_path := pq_path pq;
          ru_query := pq_query pq; ru_fragment := fragment |}.

Definition ref_url_str (u : RefUrlData) : str :=
  ru_scheme u ++ #"://" ++
  (match ru_user u, ru_password u with
   | [], None => []
   | n, None => n ++ #"@"
   | n, Some p => n ++ #":" ++ p ++ #"@"
   end) ++ ru_host u ++
  match ru_port u with Some p => ":"%char :: decimal p | None => [] end ++
  (match ru_path u with [] => #"/" | p => p end) ++
  match ru_query u with Some q => "?"%char :: q | None => [] end ++
  match ru_fragment u with Some f => "#"%char :: f | None => [] end.

Definition ref_url_join (u : RefUrlData) (r : str) : option RefUrlData :=
  if starts_with #"/" r then
    let pq := ref_path_and_query r in
    Some {| ru_scheme := ru_scheme u; ru_user := ru_user u; ru_password := ru_password u;
            ru_host := ru_host u; ru_port := ru_port u; ru_path := pq_path pq;
            ru_query := pq_query pq; ru_fragment := None |}
  else ref_url_parse r.

#[export] Instance RefUrl : UrlLib := {|
  Url := RefUrlData;
  Url_parse := ref_url_parse;
  Url_join := ref_url_join;
  Url_as_str := ref_url_str;
  Url_scheme := ru_scheme;
  Url_host_str u := Some (ru_host u);
  Url_port_or_known_default u :=
    match ru_port u with
    | Some p => Some p
    | None => if decide (ru_scheme u = #"http") then Some 80%Z
              else if decide (ru_scheme u = #"https") then Some 443%Z else None
    end;
  Url_query := ru_query;
  Url_set_username n u :=
    Some {| ru_scheme := ru_scheme u; ru_user := n; ru_password := ru_password u;
            ru_host := ru_host u; ru_port := ru_port u; ru_path := ru_path u;
            ru_query := ru_query u; ru_fragment := ru_fragment u |};
  Url_set_password p u :=
    Some {| ru_scheme := ru_scheme u; ru_user := ru_user u; ru_password := p;
            ru_host := ru_host u; ru_port := ru_port u; ru_path := ru_path u;
            ru_query := ru_query u; ru_fragment := ru_fragment u |};
  Url_set_path p u :=
    {| ru_scheme := ru_scheme u; ru_user := ru_user u; ru_password := ru_password u;
       ru_host := ru_host u; ru_port := ru_port u; ru_path := p;
       ru_query := ru_query u; ru_fragment := ru_fragment u |};
  Url_set_query q u :=
    {| ru_scheme := ru_scheme u; ru_user := ru_user u; ru_password := ru_password u;
       ru_host := ru_host u; ru_port := ru_port u; ru_path := ru_path u;
       ru_query := q; ru_fragment := ru_fragment u |};
  Url_set_fragment f u :=
    {| ru_scheme := ru_scheme u; ru_user := ru_user u; ru_password := ru_password u;
       ru_host := ru_host u; ru_port := ru_port u; ru_path := ru_path u;
       ru_query := ru_query u; ru_fragment := f |};
|}.
