(* ===== verification/Errors.v ===== *)
(** * Errors

    [src/error.rs], and where the errors of the layers become the error a user
    sees: [src/client/future.rs] and [Body::poll_frame] of
    [src/client/body.rs].

    A boxed error is the chain of its sources, outermost first: an element
    says of which type an error of the chain is, as far as the program asks for
    it with [is] and [downcast_ref].  An error without a source is a chain of
    one element. *)

From S2P Require Import Prelude Http.

(** ** Data *)

(** [ErrorKind] of the client service ([src/client/layer/client.rs]). *)
Inductive ErrorKind :=
| Canceled | ChannelClosed | KConnect | ProxyConnect | UserUnsupportedRequestMethod
| UserUnsupportedVersion | UserAbsoluteUriRequired | SendRequest.
#[export] Instance ErrorKind_eq_dec : EqDecision ErrorKind.
Proof. solve_decision. Defined.

(** [Kind]; the reason phrase of a status is kept as its bytes. *)
Inductive ErrKind :=
| KBuilder | KRequest | KTls | KRedirect
| KStatus (code : StatusCode) (reason : option str)
| KBody | KDecode | KUpgrade | KWebSocket.
#[export] Instance Kind_eq_dec : EqDecision ErrKind.
Proof. solve_decision. Defined.

(** [io::ErrorKind], as far as it is asked for. *)
Inductive IoKind := IoTimedOut | IoConnectionReset | IoNotConnected | IoInterrupted | IoOther.
#[export] Instance IoKind_eq_dec : EqDecision IoKind.
Proof. solve_decision. Defined.

(** The types of errors in a chain.  [NCore] is the error of the HTTP engine,
    with the answer of its [is_timeout]; [NClient] the error of the client
    service; [NElapsed] the error of [tower]'s timeout; [NConnect] the
    [ConnectError] of a TCP connection with its message; [NOther] any other
    type. *)
Inductive ErrNode :=
| NError (kind : ErrKind) (uri : option Uri)
| NTimedOut | NBadScheme | NProxyConnect | NDnsError
| NIo (kind : IoKind)
| NCore (timeout : bool)
| NClient (kind : ErrorKind)
| NElapsed | NTunnel | NSocks
| NConnect (msg : str)
| NOther (text : str).
Abbreviation BoxError := (list ErrNode).

(** [StdError::source]. *)
Definition err_source (e : BoxError) : BoxError := tail e.

(** ** Constructors *)
Definition new_error (kind : ErrKind) (source : BoxError) : BoxError := NError kind None :: source.
Definition Error_builder : BoxError → BoxError := new_error KBuilder.
Definition Error_body : BoxError → BoxError := new_error KBody.
Definition Error_tls : BoxError → BoxError := new_error KTls.
Definition Error_decode : BoxError → BoxError := new_error KDecode.
Definition Error_request : BoxError → BoxError := new_error KRequest.
Definition Error_upgrade : BoxError → BoxError := new_error KUpgrade.
Definition Error_websocket : BoxError → BoxError := new_error KWebSocket.

(** [with_uri] and [without_uri] change an error of the crate. *)
Definition set_error_uri (uri : option Uri) (e : BoxError) : BoxError :=
  match e with NError k _ :: e => NError k uri :: e | _ => e end.
Definition with_uri (uri : Uri) : BoxError → BoxError := set_error_uri (Some uri).
Definition without_uri : BoxError → BoxError := set_error_uri None.
Definition Error_redirect (e : BoxError) (uri : Uri) : BoxError := with_uri uri (new_error KRedirect e).
Definition Error_status_code (uri : Uri) (status : StatusCode) (reason : option str) : BoxError :=
  with_uri uri (new_error (KStatus status reason) []).
Definition uri_bad_scheme (uri : Uri) : BoxError := with_uri uri (new_error KBuilder [NBadScheme]).

Definition TimedOut : BoxError := [NTimedOut].
Definition DnsError (e : BoxError) : BoxError := NDnsError :: e.
Definition ProxyConnectError (e : BoxError) : BoxError := NProxyConnect :: e.

(** [io::Error::new]: the wrapped error itself is not part of the chain, its
    sources are. *)
Definition io_error (kind : IoKind) (inner : BoxError) : BoxError := NIo kind :: tail inner.

(** ** Questions *)
Definition error_kind (e : BoxError) : option ErrKind :=
  match e with NError k _ :: _ => Some k | _ => None end.
Definition error_uri (e : BoxError) : option Uri :=
  match e with NError _ u :: _ => u | _ => None end.
Definition is_kind (k : ErrKind) (e : BoxError) : bool := bool_decide (error_kind e = Some k).
Definition is_builder : BoxError → bool := is_kind KBuilder.
Definition is_redirect : BoxError → bool := is_kind KRedirect.
Definition is_request : BoxError → bool := is_kind KRequest.
Definition is_body : BoxError → bool := is_kind KBody.
Definition is_tls : BoxError → bool := is_kind KTls.
Definition is_decode : BoxError → bool := is_kind KDecode.
Definition is_upgrade : BoxError → bool := is_kind KUpgrade.
Definition is_websocket : BoxError → bool := is_kind KWebSocket.
Definition is_status (e : BoxError) : bool :=
  match error_kind e with Some (KStatus _ _) => true | _ => false end.
Definition error_status (e : BoxError) : option StatusCode :=
  match error_kind e with Some (KStatus code _) => Some code | _ => None end.

(** The loops over the sources of an error. *)
Fixpoint any_source (found : ErrNode → bool) (source : BoxError) : bool :=
  match source with
  | err :: source => if found err then true else any_source found source
  | [] => false
  end.
Definition is_timeout (e : BoxError) : bool :=
  any_source (λ err, match err with
                     | NTimedOut => true
                     | NCore timeout => timeout
                     | NIo kind => bool_decide (kind = IoTimedOut)
                     | _ => false
                     end) (err_source e).
Definition is_connect (e : BoxError) : bool :=
  any_source (λ err, match err with NClient k => bool_decide (k = KConnect) | _ => false end)
    (err_source e).
Definition is_proxy_connect (e : BoxError) : bool :=
  any_source (λ err, match err with NClient k => bool_decide (k = ProxyConnect) | _ => false end)
    (err_source e).
Definition is_connection_reset (e : BoxError) : bool :=
  any_source (λ err, match err with NIo k => bool_decide (k = IoConnectionReset) | _ => false end)
    (err_source e).
Definition is_dns (e : BoxError) : bool :=
  any_source (λ err, match err with NDnsError => true | _ => false end) (err_source e).

(** ** Conversions *)
Definition is_elapsed (e : BoxError) : bool :=
  match e with NElapsed :: _ => true | _ => false end.
Definition map_timeout_to_connector_error (error : BoxError) : BoxError :=
  if is_elapsed error then TimedOut else error.
Definition map_timeout_to_request_error (error : BoxError) : BoxError :=
  if is_elapsed error then Error_request TimedOut else error.

(** An error of the crate is taken out of its box, any other becomes the source
    of a request error: [err.downcast::<Error>().map_or_else(Error::request, ..)]
    in [Pending::poll] and [Body::poll_frame]. *)
Definition downcast_or_request (e : BoxError) : BoxError :=
  match e with NError _ _ :: _ => e | _ => Error_request e end.
(** The error [Pending] ends with, for a request to [uri]. *)
Definition pending_error (uri : Uri) (err : BoxError) : BoxError :=
  let err := downcast_or_request err in
  match error_uri err with None => with_uri uri err | Some _ => err end.

(** [Error::new] of the client service: the errors of proxies make it a proxy
    error. *)
Definition client_error (kind : ErrorKind) (error : BoxError) : BoxError :=
  NClient (match error with
           | NTunnel :: _ | NProxyConnect :: _ | NSocks :: _ => ProxyConnect
           | _ => kind
           end) :: error.

(** ** Facts *)
Lemma any_source_true p e : any_source p e = true ↔ ∃ n, n ∈ e ∧ p n = true.
Proof.
  induction e as [|n e IH]; cbn [any_source].
  - split; [done|]. by intros (? & ?%elem_of_nil & _).
  - destruct (p n) eqn:E; [split; eauto using list_elem_of_here|].
    rewrite IH. split; intros (m & Hm & Hp); exists m; (split; [|done]).
    + by right.
    + apply elem_of_cons in Hm as [->|?]; [congruence|done].
Qed.

Lemma downcast_shape e : ∃ k u src, downcast_or_request e = NError k u :: src.
Proof. unfold downcast_or_request, Error_request, new_error. destruct e as [|[] e]; eauto. Qed.

Lemma pending_error_uri uri err : is_Some (error_uri (pending_error uri err)).
Proof.
  unfold pending_error. destruct (downcast_shape err) as (k & u & src & ->).
  destruct u; simpl; eauto.
Qed.
