(* ===== verification/Net.v ===== *)
(** * Internet addresses

    [std::net::IpAddr] with the grammar of its [FromStr] (the parser of
    [core::net::parser], each reader restoring its input when it fails), and
    the networks of the [ipnet] crate as a class. *)

From S2P Require Import Prelude.

(** ** Addresses *)

(** [IpAddr]: an IPv4 address is a 32-bit, an IPv6 address a 128-bit number. *)
Inductive IpAddr :=
| V4 (a : Z)
| V6 (a : Z).

#[export] Instance IpAddr_eq_dec : EqDecision IpAddr.
Proof. solve_decision. Defined.

(** ** Parsing

    A reader returns what it read with the rest of its input. *)
Definition read_given_char (c : ascii) (s : str) : option str :=
  match s with
  | x :: s => if decide (x = c) then Some s else None
  | [] => None
  end.

(** [read_separator]: the separator comes before every element but the
    first. *)
Definition read_separator {A} (sep : ascii) (index : nat) (inner : str → option (A * str))
    (s : str) : option (A * str) :=
  match index with
  | 0 => inner s
  | S _ => s ← read_given_char sep s; inner s
  end.

(** [char::to_digit]. *)
Definition to_digit (radix : Z) (c : ascii) : option Z :=
  let d := if within 48 57 c then Some (Z.of_N (ord c) - 48)%Z
           else if within 97 122 c then Some (Z.of_N (ord c) - 87)%Z
           else if within 65 90 c then Some (Z.of_N (ord c) - 55)%Z
           else None in
  d ← d; if (d <? radix)%Z then Some d else None.

(** The digits of [read_number], with the checked arithmetic of an integer
    whose maximum is [max], and how many were read. *)
Fixpoint read_digits (radix max : Z) (max_digits count : nat) (acc : Z) (s : str) :
    option (Z * nat * str) :=
  match s with
  | [] => Some (acc, count, [])
  | c :: s' =>
    match to_digit radix c with
    | None => Some (acc, count, s)
    | Some d =>
      let acc := (acc * radix + d)%Z in
      if (max <? acc)%Z then None
      else if decide (max_digits < S count) then None
      else read_digits radix max max_digits (S count) acc s'
    end
  end.
Definition read_number (radix max : Z) (max_digits : nat) (allow_zero_prefix : bool) (s : str) :
    option (Z * str) :=
  '(n, count, rest) ← read_digits radix max max_digits 0 0 s;
  if decide (count = 0) then None
  else if negb allow_zero_prefix && starts_with #"0" s && bool_decide (1 < count) then None
  else Some (n, rest).

Definition read_octet (i : nat) : str → option (Z * str) :=
  read_separator "."%char i (read_number 10 255 3 false).
Definition read_ipv4_addr (s : str) : option (Z * str) :=
  '(a, s) ← read_octet 0 s; '(b, s) ← read_octet 1 s;
  '(c, s) ← read_octet 2 s; '(d, s) ← read_octet 3 s;
  Some ((((a * 256 + b) * 256 + c) * 256 + d)%Z, s).

(** [read_groups] for a slice with [limit] groups, [n] of them left: the groups
    read, whether the last two came from an embedded IPv4 address, and the
    rest of the input. *)
Fixpoint read_groups (n i : nat) (s : str) : list Z * bool * str :=
  match n with
  | 0 => ([], false, s)
  | S n' =>
    let v4 := match n' with
              | 0 => None
              | S _ => read_separator ":"%char i read_ipv4_addr s
              end in
    match v4 with
    | Some (a, s) => ([(a / 65536)%Z; (a mod 65536)%Z], true, s)
    | None =>
      match read_separator ":"%char i (read_number 16 65535 4 true) s with
      | None => ([], false, s)
      | Some (g, s) => let '(gs, v4, s) := read_groups n' (S i) s in (g :: gs, v4, s)
      end
    end
  end.

Definition of_groups (gs : list Z) : Z := foldl (λ a g, (a * 65536 + g)%Z) 0%Z gs.

Definition read_ipv6_addr (s : str) : option (Z * str) :=
  let '(head, head_ipv4, s) := read_groups 8 0 s in
  if decide (length head = 8) then Some (of_groups head, s)
  else if head_ipv4 : bool then None
  else
    s ← read_given_char ":"%char s; s ← read_given_char ":"%char s;
    let '(tail, _, s) := read_groups (8 - (length head + 1)) 0 s in
    Some (of_groups (head ++ replicate (8 - length head - length tail) 0%Z ++ tail), s).

(** [IpAddr::from_str] and [Ipv4Addr::from_str]. *)
Definition read_ip_addr (s : str) : option (IpAddr * str) :=
  match read_ipv4_addr s with
  | Some (a, s) => Some (V4 a, s)
  | None => '(a, s) ← read_ipv6_addr s; Some (V6 a, s)
  end.
Definition parse_ip_addr (s : str) : option IpAddr :=
  '(a, rest) ← read_ip_addr s; match rest with [] => Some a | _ => None end.

(** *** Dotted text *)

(** The text [Ipv4Addr] is printed as. *)
Definition dotted (a b c d : Z) : str :=
  decimal a ++ #"." ++ decimal b ++ #"." ++ decimal c ++ #"." ++ decimal d.
Definition of_octets (a b c d : Z) : Z := ((((a * 256 + b) * 256 + c) * 256) + d)%Z.

(** What holds of the numbers below a bound by evaluation. *)
Lemma below_bound (P : Z → Prop) `{∀ z, Decision (P z)} n z :
  forallb (λ z, bool_decide (P z)) (seqZ 0 n) = true → (0 ≤ z < n)%Z → P z.
Proof.
  rewrite forallb_forall. intros Hf Hz. apply (bool_decide_eq_true_1 _), Hf, list_elem_of_In, elem_of_seqZ. lia.
Qed.

Lemma read_digits_app radix max m count acc s n k rest :
  read_digits radix max m count acc s = Some (n, k, []) →
  match rest with c :: _ => to_digit radix c = None | [] => True end →
  read_digits radix max m count acc (s ++ rest) = Some (n, k, rest).
Proof.
  revert count acc. induction s as [|c s IH]; intros count acc H Hr; simpl in *.
  - simplify_eq. destruct rest; simpl; [done|]. by rewrite Hr.
  - destruct (to_digit radix c) as [d|]; [|done].
    destruct (_ <? _)%Z; [done|]. case_decide; [done|]. by apply IH.
Qed.

Lemma octet_digits o :
  (0 ≤ o ≤ 255)%Z →
  ∃ k, read_digits 10 255 3 0 0 (decimal o) = Some (o, S k, []) ∧
    starts_with #"0" (decimal o) && bool_decide (0 < k) = false.
Proof.
  intros Ho.
  pose proof (below_bound (λ o, match read_digits 10 255 3 0 0 (decimal o) with
    | Some (n, S k, []) => (n =? o)%Z && negb (starts_with #"0" (decimal o) && bool_decide (0 < k))
    | _ => false end = true) 256 o) as H. cbv beta in H.
  specialize (H ltac:(by vm_compute) ltac:(lia)).
  destruct (read_digits _ _ _ _ _ _) as [[[n [|k]] [|]]|]; try done.
  apply andb_true_iff in H as [->%Z.eqb_eq H%negb_true_iff]. by exists k.
Qed.

Lemma octet_head o : (0 ≤ o ≤ 255)%Z → decimal o ≠ [].
Proof. intros Ho. by destruct (octet_digits o Ho) as (k & H & _); destruct (decimal o). Qed.

Lemma octet_plain o : (0 ≤ o ≤ 255)%Z → Forall (λ c, is_Some (digit c)) (decimal o).
Proof.
  intros Ho. refine (below_bound (λ o, Forall (λ c, is_Some (digit c)) (decimal o)) 256 o _ _);
    [by vm_compute|lia].
Qed.

Lemma read_octet_decimal o rest :
  (0 ≤ o ≤ 255)%Z → match rest with c :: _ => to_digit 10 c = None | [] => True end →
  read_number 10 255 3 false (decimal o ++ rest) = Some (o, rest).
Proof.
  intros Ho Hr. destruct (octet_digits o Ho) as (k & Hk & Hz). unfold read_number.
  rewrite (read_digits_app _ _ _ _ _ _ _ _ _ Hk Hr). cbn [mbind option_bind negb andb].
  destruct (decide (S k = 0)) as [|_]; [done|].
  destruct (starts_with #"0" (decimal o ++ rest) && bool_decide (1 < S k)) eqn:E; [|done].
  apply andb_true_iff in E as [E E2%bool_decide_eq_true]. exfalso.
  destruct (decimal o) as [|c ds] eqn:Ed; [by apply octet_head in Ed|].
  apply starts_with_true in E as [k' E]. simpl in E. injection E as -> _.
  assert (starts_with #"0" ("0"%char :: ds) = true) as Hs by (apply starts_with_true; by exists ds).
  rewrite Hs in Hz. simpl in Hz. apply bool_decide_eq_false in Hz. lia.
Qed.

Lemma read_octet_dot i o rest :
  (0 ≤ o ≤ 255)%Z → match rest with c :: _ => to_digit 10 c = None | [] => True end →
  read_octet (S i) ("."%char :: decimal o ++ rest) = Some (o, rest).
Proof. intros Ho Hr. exact (read_octet_decimal o rest Ho Hr). Qed.

Lemma parse_dotted a b c d :
  Forall (λ o, 0 ≤ o ≤ 255)%Z [a; b; c; d] → parse_ip_addr (dotted a b c d) = Some (V4 (of_octets a b c d)).
Proof.
  intros H. decompose_Forall_hyps.
  assert (read_ipv4_addr (dotted a b c d) = Some (of_octets a b c d, [])) as Hr.
  { unfold read_ipv4_addr, dotted. rewrite <- (app_nil_r (decimal d)).
    change (read_octet 0) with (read_number 10 255 3 false).
    rewrite read_octet_decimal by done. cbn [mbind option_bind lit app String.list_ascii_of_string].
    do 3 (rewrite read_octet_dot by done; cbn [mbind option_bind]). done. }
  unfold parse_ip_addr, read_ip_addr. by rewrite Hr.
Qed.

(** ** Networks

    [ipnet::IpNet]: parsing the notation [address/prefix] and membership, of
    which the documented meaning for IPv4 is used. *)
Class IpNetLib := {
  IpNet : Type;
  ipnet_parse : str → option IpNet;
  ipnet_contains : IpNet → IpAddr → bool;
  ipnet_v4 a b c d p :
    Forall (λ o, 0 ≤ o ≤ 255)%Z [a; b; c; d] → (0 ≤ p ≤ 32)%Z →
    ∃ net, ipnet_parse (dotted a b c d ++ #"/" ++ decimal p) = Some net ∧
      ∀ ip, ipnet_contains net ip =
        match ip with
        | V4 y => (Z.shiftr (of_octets a b c d) (32 - p) =? Z.shiftr y (32 - p))%Z
        | V6 _ => false
        end;
}.

(** The reference networks: an address and the number of bits compared. *)
Definition ref_net_parse (s : str) : option (IpAddr * Z) :=
  '(a, p) ← split_once "/"%char s;
  a ← parse_ip_addr a; p ← parse_unsigned 128 p;
  match a with
  | V4 _ => if (32 <? p)%Z then None else Some (a, p)
  | V6 _ => Some (a, p)
  end.
Definition ref_net_contains (n : IpAddr * Z) (a : IpAddr) : bool :=
  match n.1, a with
  | V4 x, V4 y => (Z.shiftr x (32 - n.2) =? Z.shiftr y (32 - n.2))%Z
  | V6 x, V6 y => (Z.shiftr x (128 - n.2) =? Z.shiftr y (128 - n.2))%Z
  | _, _ => false
  end.

Lemma dotted_plain (c : ascii) x y z w :
  digit c = None → c ≠ "."%char → Forall (λ o, 0 ≤ o ≤ 255)%Z [x; y; z; w] → c ∉ dotted x y z w.
Proof.
  intros Hc Hd H. decompose_Forall_hyps. unfold dotted.
  assert (∀ o, (0 ≤ o ≤ 255)%Z → c ∉ decimal o) as Ho.
  { intros o Ho Hin. destruct (proj1 (Forall_forall _ _) (octet_plain o Ho) c Hin). congruence. }
  rewrite !elem_of_app. unfold lit. simpl. set_solver.
Qed.

#[export] Program Instance RefIpNet : IpNetLib := {|
  IpNet := IpAddr * Z;
  ipnet_parse := ref_net_parse;
  ipnet_contains := ref_net_contains;
|}.
Next Obligation.
  intros a b c d p Ho Hp. exists (V4 (of_octets a b c d), p). split; [|by intros []].
  unfold ref_net_parse.
  assert (split_once "/"%char (dotted a b c d ++ #"/" ++ decimal p) = Some (dotted a b c d, decimal p)) as ->.
  { apply split_once_Some. split; [done|]. by apply dotted_plain. }
  cbn [mbind option_bind]. rewrite parse_dotted by done. cbn [mbind option_bind].
  assert (parse_unsigned 128 (decimal p) = Some p) as ->.
  { refine (below_bound (λ p, parse_unsigned 128 (decimal p) = Some p) 33 p _ _); [by vm_compute|lia]. }
  cbn [mbind option_bind]. by destruct (Z.ltb_spec 32 p); [lia|].
Qed.

(** Texts that are addresses, and texts that are not. *)
Lemma parse_ip_addr_examples :
  parse_ip_addr #"10.124.7.8" = Some (V4 175900424) ∧
  parse_ip_addr #"::1" = Some (V6 1) ∧
  parse_ip_addr #"2001:db8::ffff:1.2.3.4" =
    Some (V6 (Z.lor (Z.shiftl 0x20010db8 96) 0xffff01020304)) ∧
  parse_ip_addr #"010.0.0.1" = None ∧ parse_ip_addr #"1:2:3:4:5:6:7:8::" = None ∧
  parse_ip_addr #"256.0.0.1" = None ∧ parse_ip_addr #"www.foo.bar" = None.
Proof. by vm_compute. Qed.
