(* ===== verification/Ext.v ===== *)
(** * URI extensions and utilities

    [src/ext.rs] (the [UriExt] trait), [src/into_uri.rs] (the [IntoUri]
    conversions) and [src/util.rs] (host literals, basic credentials, header
    merging, byte escapes). *)

From S2P Require Import Prelude Http.

(** ** [percent_encoding] *)

(** Two hexadecimal digits, in upper case for percent-encoding and in lower
    case for the [{:02x}] format. *)
Definition hex_digit (upper : bool) (n : N) : ascii :=
  if (n <? 10)%N then chr (48 + n) else chr ((if upper then 55 else 87) + n).
Definition hex2 (upper : bool) (c : ascii) : str :=
  [hex_digit upper (ord c / 16); hex_digit upper (ord c mod 16)].

(** [CONTROLS] and [NON_ALPHANUMERIC], and the encoding of one byte: the bytes
    of the set and the bytes above ASCII become [%XX]. *)
Definition CONTROLS (c : ascii) : bool := (ord c <? 32)%N || (ord c =? 127)%N.
Definition is_alphanumeric (c : ascii) : bool :=
  within 48 57 c || within 65 90 c || within 97 122 c.
Definition NON_ALPHANUMERIC (c : ascii) : bool := (ord c <=? 127)%N && negb (is_alphanumeric c).
Definition set_add (b : ascii) (set : ascii → bool) (c : ascii) : bool :=
  set c || bool_decide (c = b).
Definition set_remove (b : ascii) (set : ascii → bool) (c : ascii) : bool :=
  set c && negb (bool_decide (c = b)).
Definition pct_byte (set : ascii → bool) (c : ascii) : str :=
  if (127 <? ord c)%N || set c then "%"%char :: hex2 true c else [c].

(** Decoding: [%] and two hexadecimal digits stand for a byte, anything else
    for itself. *)
Definition hex_value (c : ascii) : option N :=
  if within 48 57 c then Some (ord c - 48)%N
  else if within 65 70 c then Some (ord c - 55)%N
  else if within 97 102 c then Some (ord c - 87)%N
  else None.
Fixpoint pct_decode (s : str) : str :=
  match s with
  | [] => []
  | c :: s' =>
    match s' with
    | h :: l :: s'' =>
      match decide (c = "%"%char), hex_value h, hex_value l with
      | left _, Some h, Some l => chr (16 * h + l) :: pct_decode s''
      | _, _, _ => c :: pct_decode s'
      end
    | _ => c :: pct_decode s'
    end
  end.

Class PercentLib := {
  utf8_percent_encode : (ascii → bool) → str → str;
  utf8_percent_encode_spec set s : utf8_percent_encode set s = s ≫= pct_byte set;
  percent_decode_str : str → str;
  percent_decode_str_spec s : percent_decode_str s = pct_decode s;
}.

#[export] Program Instance RefPercent : PercentLib := {|
  utf8_percent_encode set s := s ≫= pct_byte set;
  percent_decode_str := pct_decode;
|}.
Solve All Obligations with done.

(** ** [UriExt] *)
Definition is_http (u : Uri) : bool := option_scheme_eqb (uri_scheme u) (Some HTTP).
Definition is_https (u : Uri) : bool := option_scheme_eqb (uri_scheme u) (Some HTTPS).

Definition port_or_default (u : Uri) : Z :=
  match uri_port u with
  | Some p => p
  | None => if is_https u then 443 else 80
  end.

Definition non_empty (s : str) : option str :=
  match s with [] => None | _ => Some s end.

Definition userinfo (u : Uri) : option str * option str :=
  match uri_authority u ≫= λ auth, rsplit_once "@"%char (auth_str auth) with
  | None => (None, None)
  | Some (info, _) =>
    match split_once ":"%char info with
    | Some (u, p) => (non_empty u, non_empty p)
    | None => (Some info, None)
    end
  end.

Definition FRAGMENT : ascii → bool :=
  set_add "`" (set_add ">" (set_add "<" (set_add (chr 34) (set_add " " CONTROLS)))).
Definition PATH : ascii → bool :=
  set_add "}" (set_add "{" (set_add "?" (set_add "#" FRAGMENT))).
Definition USERINFO : ascii → bool :=
  set_add "|" (set_add "^" (set_add "]" (set_add "\" (set_add "[" (set_add "@"
    (set_add "=" (set_add ";" (set_add ":" (set_add "/" PATH))))))))).

Definition set_authority (a : Authority) (u : Uri) : Uri :=
  {| uri_scheme := uri_scheme u; uri_authority := Some a;
     uri_path_and_query := uri_path_and_query u |}.

Definition host_and_port (auth : Authority) : str :=
  match rsplit_once "@"%char (auth_str auth) with
  | Some (_, host) => host
  | None => auth_str auth
  end.

Section userinfo.
Context `{PL : PercentLib, UL : UriLib}.

Definition userinfo_authority (auth : Authority) (username : str) (password : option str) : str :=
  let hp := host_and_port auth in
  match username, password with
  | [], None => hp
  | [], Some password => #":" ++ utf8_percent_encode USERINFO password ++ #"@" ++ hp
  | _, Some password =>
    utf8_percent_encode USERINFO username ++ #":" ++
    utf8_percent_encode USERINFO password ++ #"@" ++ hp
  | _, None => utf8_percent_encode USERINFO username ++ #"@" ++ hp
  end.

Definition set_userinfo (username : str) (password : option str) (self : Uri) : Uri :=
  match uri_authority self with
  | None => self
  | Some auth =>
    match authority_parse (userinfo_authority auth username password) with
    | None => self
    | Some authority => default self (uri_from_parts (set_authority authority self))
    end
  end.
End userinfo.

(** ** [IntoUri]

    The error of a conversion: the URI lacks a scheme or an authority
    ([Error::uri_bad_scheme]), or the text is not a URI. *)
Inductive UriError :=
| UriBadScheme (u : Uri)
| UriDecode
| UriBuilder.

Class IntoUri (U : Type) := into_uri : U → result Uri UriError.

#[export] Instance Uri_IntoUri : IntoUri Uri := λ self,
  match uri_scheme self, uri_authority self with
  | Some _, Some _ => Ok self
  | _, _ => Err (UriBadScheme self)
  end.

Section into_uri.
Context `{UL : UriLib, UR : UrlLib}.

Inductive Kind := KBytes (b : str) | KStr (s : str).

Definition internal_parse (s : Kind) : result Uri UriError :=
  s ←? (match s with
        | KBytes b => match from_utf8 b with Some s => Ok s | None => Err UriDecode end
        | KStr s => Ok s
        end);
  match Url_as_str <$> Url_parse s with
  | None => Err UriBuilder
  | Some s => match uri_try_from s with Some u => Ok u | None => Err UriBuilder end
  end.

Definition bytes_into_uri (b : str) : result Uri UriError :=
  u ←? (match uri_try_from b with Some u => Ok u | None => internal_parse (KBytes b) end);
  into_uri u.

Definition str_into_uri (s : str) : result Uri UriError :=
  u ←? (match uri_try_from s with Some u => Ok u | None => internal_parse (KStr s) end);
  into_uri u.
End into_uri.

(** ** [util.rs] *)
Definition strip_ipv6_brackets (host : str) : str :=
  default host (strip_prefix #"[" host ≫= strip_suffix #"]").

(** The base64 encoder of the TLS library, whose output is made of letters,
    digits and [+/=]. *)
Class Base64Lib := {
  encode_block : str → str;
  encode_block_alphabet s c : c ∈ encode_block s → visible_byte c = true;
}.

(** The reference encoder: three bytes become four sextets, with padding. *)
Definition sextet (n : N) : ascii :=
  if (n <? 26)%N then chr (65 + n) else if (n <? 52)%N then chr (71 + n)
  else if (n <? 62)%N then chr (n - 4) else if (n =? 62)%N then "+"%char else "/"%char.
Fixpoint ref_base64 (s : str) : str :=
  match s with
  | [] => []
  | [a] => [sextet (ord a / 4); sextet (ord a mod 4 * 16); "="%char; "="%char]
  | [a; b] => [sextet (ord a / 4); sextet (ord a mod 4 * 16 + ord b / 16);
               sextet (ord b mod 16 * 4); "="%char]
  | a :: b :: c :: s =>
    [sextet (ord a / 4); sextet (ord a mod 4 * 16 + ord b / 16);
     sextet (ord b mod 16 * 4 + ord c / 64); sextet (ord c mod 64)] ++ ref_base64 s
  end.

Lemma sextet_visible n : visible_byte (sextet n) = true.
Proof.
  unfold sextet. destruct (N.ltb_spec n 62) as [Hn|Hn].
  - destruct (N.ltb_spec n 26), (N.ltb_spec n 52); try lia; unfold visible_byte;
      rewrite ord_chr by lia; apply orb_true_iff; right; apply andb_true_iff;
      split; [apply N.leb_le | apply N.ltb_lt | apply N.leb_le | apply N.ltb_lt
             | apply N.leb_le | apply N.ltb_lt]; lia.
  - destruct (N.ltb_spec n 26), (N.ltb_spec n 52); try lia. by destruct (n =? 62)%N.
Qed.

Lemma ref_base64_visible s c : c ∈ ref_base64 s → visible_byte c = true.
Proof.
  remember (length s) as n eqn:Hn. revert s Hn.
  induction n as [n IH] using lt_wf_ind. intros [|x [|y [|z s]]] -> Hc; cbn [ref_base64 app] in Hc;
    repeat (apply elem_of_cons in Hc as [->|Hc]; [first [done | apply sextet_visible]|]);
    try by apply elem_of_nil in Hc.
  eapply (IH (length s)); [simpl; lia | done..].
Qed.

#[export] Instance RefBase64 : Base64Lib := {|
  encode_block := ref_base64;
  encode_block_alphabet := ref_base64_visible;
|}.

Section util.
Context `{B64 : Base64Lib, HV : HeaderValueLib, HM : HeaderMapLib}.

(** [basic_auth]; [None] is the panic of its [expect]. *)
Definition basic_auth (username : str) (password : option str) : option HeaderValue :=
  let buf_str := username ++ #":" ++ default [] password in
  set_sensitive true <$> from_maybe_shared (#"Basic " ++ encode_block buf_str).

(** [replace_headers]: [prev] is the entry the previous item was stored at;
    the first item has a name, so an item without one has a previous entry. *)
Definition replace_step {V} (st : HeaderMap V * option HeaderName)
    (item : option HeaderName * V) : HeaderMap V * option HeaderName :=
  match item.1 with
  | Some key => (hm_insert key item.2 st.1, Some key)
  | None =>
    match st.2 with
    | Some prev => (hm_append prev item.2 st.1, Some prev)
    | None => st
    end
  end.
Definition replace_headers {V} (dst src : HeaderMap V) : HeaderMap V :=
  (foldl replace_step (dst, None) (hm_into_iter src)).1.
End util.

(** [fast_random]: the hash of a counter of the thread, with the random state of
    the hasher. *)
Definition fast_random {K} (hash_u64 : K → Z → Z) (key : K) (counter : Z) : Z * Z :=
  let n := u64_wrapping_add counter 1 in (hash_u64 key n, n).

(** [Escape]: the [Display] of a byte string. *)
Definition escape_byte (c : ascii) : str :=
  if (ord c =? 10)%N then #"\n"
  else if (ord c =? 13)%N then #"\r"
  else if (ord c =? 9)%N then #"\t"
  else if (ord c =? 92)%N || (ord c =? 34)%N then ["\"%char; c]
  else if (ord c =? 0)%N then #"\0"
  else if (32 <=? ord c)%N && (ord c <? 127)%N then [c]
  else #"\x" ++ hex2 false c.
Definition escape (b : str) : str := b ≫= escape_byte.

(** ** Facts *)

Lemma is_http_not_https u : is_http u = true → is_https u = false.
Proof. unfold is_http, is_https. by destruct (uri_scheme u) as [[]|]. Qed.
#[export] Hint Resolve is_http_not_https : wreq.

Lemma into_uri_Ok (u u' : Uri) :
  into_uri u = Ok u' ↔ u' = u ∧ is_Some (uri_scheme u) ∧ is_Some (uri_authority u).
Proof.
  unfold into_uri, Uri_IntoUri.
  destruct (uri_scheme u), (uri_authority u); split; naive_solver.
Qed.

Lemma visible_field c : visible_byte c = true → field_byte c = true.
Proof. by destruct c as [[] [] [] [] [] [] [] []]. Qed.

(** [basic_auth] does not panic. *)
Lemma basic_auth_ok `{B64 : Base64Lib, HV : HeaderValueLib} username password :
  basic_auth username password =
    Some {| hv_bytes := #"Basic " ++ encode_block (username ++ #":" ++ default [] password);
            hv_sensitive := true |}.
Proof.
  unfold basic_auth. rewrite from_maybe_shared_ok; [done|].
  apply Forall_app. split; [by repeat constructor|].
  apply Forall_forall. intros c Hc. eapply visible_field, encode_block_alphabet, Hc.
Qed.

Section replace.
Context `{HM : HeaderMapLib} {V : Type}.
Implicit Types (m dst src : HeaderMap V).

Lemma append_values m n (vs : list V) :
  let '(m', prev) := foldl replace_step (m, Some n) ((None,.) <$> vs) in
  prev = Some n ∧
  ∀ n', hm_get_all m' n' = if decide (n' = n) then hm_get_all m n ++ vs else hm_get_all m n'.
Proof.
  revert m. induction vs as [|v vs IH]; intros m; simpl.
  - split; [done|]. intros n'. case_decide; subst; by rewrite ?app_nil_r.
  - specialize (IH (hm_append n v m)). cbn.
    destruct (foldl _ _ _) as [m' prev]. destruct IH as [-> IH]. split; [done|].
    intros n'. rewrite IH, !hm_get_all_append.
    repeat case_decide; simplify_eq; by rewrite <- ?app_assoc.
Qed.

Lemma replace_group m prev n (vs : list V) :
  vs ≠ [] →
  let '(m', _) := foldl replace_step (m, prev) (group_items (n, vs)) in
  ∀ n', hm_get_all m' n' = if decide (n' = n) then vs else hm_get_all m n'.
Proof.
  destruct vs as [|v vs]; [done|]. intros _. simpl.
  pose proof (append_values (hm_insert n v m) n vs) as Hv. cbn in *.
  destruct (foldl _ _ _) as [m' prev']. destruct Hv as [_ Hv].
  intros n'. rewrite Hv, !hm_get_all_insert. by repeat case_decide; simplify_eq.
Qed.

Lemma replace_groups (gs : list (HeaderName * list V)) m prev :
  NoDup gs.*1 → (∀ n vs, (n, vs) ∈ gs → vs ≠ []) →
  ∀ n, hm_get_all (foldl replace_step (m, prev) (gs ≫= group_items)).1 n =
       match list_find (λ g, g.1 = n) gs with
       | Some (_, (_, vs)) => vs
       | None => hm_get_all m n
       end.
Proof.
  revert m prev. induction gs as [|[n0 vs0] gs IH]; intros m prev Hnd Hne n; [done|].
  rewrite bind_cons, foldl_app.
  pose proof (replace_group m prev n0 vs0 ltac:(set_solver)) as Hg.
  destruct (foldl _ _ (group_items _)) as [m' prev'].
  apply NoDup_cons in Hnd as [Hn0 Hnd]. rewrite IH by set_solver. simpl.
  destruct (decide (n0 = n)) as [->|Hneq].
  - destruct (list_find _ gs) as [[i [n' vs']]|] eqn:Hf.
    + apply list_find_Some in Hf as (Hi & Heq & _). simpl in Heq. subst n'.
      destruct Hn0. apply list_elem_of_fmap. exists (n, vs').
      split; [done|]. by eapply list_elem_of_lookup_2.
    + by rewrite Hg, decide_True.
  - destruct (list_find _ gs) as [[i [n' vs']]|]; simpl; [done|].
    by rewrite Hg, decide_False.
Qed.

(** The header map after a merge: a name that the source has takes the
    values of the source, any other name keeps the values of the
    destination. *)
Lemma replace_headers_get_all dst src n :
  hm_get_all (replace_headers dst src) n =
  if decide (hm_get_all src n = []) then hm_get_all dst n else hm_get_all src n.
Proof.
  unfold replace_headers, hm_into_iter. rewrite replace_groups.
  - destruct (list_find _ _) as [[i [n' vs]]|] eqn:Hf.
    + apply list_find_Some in Hf as (Hi & Heq & _). simpl in Heq. subst n'.
      apply list_elem_of_lookup_2, hm_groups_spec in Hi as [-> Hne]. by rewrite decide_False.
    + apply list_find_None in Hf. case_decide as Hd; [done|].
      rewrite Forall_forall in Hf. destruct (Hf (n, hm_get_all src n)); [|done].
      by apply hm_groups_spec.
  - apply hm_groups_NoDup.
  - intros n' vs Hin. by apply hm_groups_spec in Hin as [_ ?].
Qed.
End replace.

Lemma pct_decode_plain c s : c ≠ "%"%char → pct_decode (c :: s) = c :: pct_decode s.
Proof. intros Hc. simpl. destruct (decide (c = "%"%char)); [done|]. by repeat case_match. Qed.

Lemma pct_decode_hex2 c s : pct_decode ("%"%char :: hex2 true c ++ s) = c :: pct_decode s.
Proof. by destruct c as [[] [] [] [] [] [] [] []]. Qed.

Lemma pct_decode_encode `{PL : PercentLib} set s :
  set "%"%char = true ∨ "%"%char ∉ s →
  percent_decode_str (utf8_percent_encode set s) = s.
Proof.
  rewrite percent_decode_str_spec, utf8_percent_encode_spec. intros Hs.
  induction s as [|c s IH]; [done|]. rewrite bind_cons.
  unfold pct_byte at 1. destruct (_ || _) eqn:E; cbn [app].
  - rewrite pct_decode_hex2, IH; set_solver.
  - rewrite pct_decode_plain, IH; [done | set_solver |].
    intros ->. apply orb_false_iff in E as [_ E]. destruct Hs as [Hs|Hs]; [congruence|set_solver].
Qed.

Section userinfo_facts.
Context `{PL : PercentLib, UL : UriLib}.

Lemma pct_byte_userinfo c : forallb (λ x, negb (bool_decide (x = "@"%char ∨ x = ":"%char)))
  (pct_byte USERINFO c) = true.
Proof. by destruct c as [[] [] [] [] [] [] [] []]. Qed.

Lemma encoded_userinfo_plain s x :
  x ∈ utf8_percent_encode USERINFO s → x ≠ "@"%char ∧ x ≠ ":"%char.
Proof.
  rewrite utf8_percent_encode_spec, list_elem_of_bind. intros (c & Hx & _).
  pose proof (pct_byte_userinfo c) as Hc. rewrite forallb_forall in Hc.
  apply list_elem_of_In, Hc, negb_true_iff, bool_decide_eq_false in Hx. tauto.
Qed.

Lemma encode_nil set : utf8_percent_encode set [] = [].
Proof. by rewrite utf8_percent_encode_spec. Qed.

Lemma encode_cons_ne set c s : utf8_percent_encode set (c :: s) ≠ [].
Proof. rewrite utf8_percent_encode_spec. simpl. unfold pct_byte. by case_match. Qed.

Lemma host_and_port_plain auth : "@"%char ∉ host_and_port auth.
Proof.
  unfold host_and_port. destruct (rsplit_once _ _) as [[? h]|] eqn:E.
  - by apply rsplit_once_Some in E as [_ ?].
  - by apply rsplit_once_None.
Qed.

(** The text of the new authority splits back into the encoded credentials
    and the old host and port. *)
Lemma userinfo_authority_split auth username password :
  rsplit_once "@"%char (userinfo_authority auth username password) =
  match username, password with
  | [], None => None
  | _, None => Some (utf8_percent_encode USERINFO username, host_and_port auth)
  | _, Some p =>
    Some (utf8_percent_encode USERINFO username ++ ":"%char ::
            utf8_percent_encode USERINFO p, host_and_port auth)
  end.
Proof.
  pose proof (host_and_port_plain auth) as Hh. unfold userinfo_authority.
  destruct username as [|c u], password as [p|].
  - apply rsplit_once_Some. rewrite encode_nil. by rewrite <- app_assoc.
  - by apply rsplit_once_None.
  - apply rsplit_once_Some. by rewrite <- !app_assoc.
  - apply rsplit_once_Some. done.
Qed.

Lemma split_userinfo u p :
  split_once ":"%char (utf8_percent_encode USERINFO u ++ ":"%char ::
                       utf8_percent_encode USERINFO p) =
  Some (utf8_percent_encode USERINFO u, utf8_percent_encode USERINFO p).
Proof. apply split_once_Some. split; [done|]. by intros [_ ?]%encoded_userinfo_plain. Qed.

Lemma split_username u : split_once ":"%char (utf8_percent_encode USERINFO u) = None.
Proof.
  unfold split_once. apply fmap_None, find_char_None. by intros [_ ?]%encoded_userinfo_plain.
Qed.

Lemma userinfo_set_authority auth username password a self :
  auth_str a = userinfo_authority auth username password →
  userinfo (set_authority a self) =
    (non_empty (utf8_percent_encode USERINFO username),
     password ≫= λ p, non_empty (utf8_percent_encode USERINFO p)) ∧
  host_and_port a = host_and_port auth.
Proof.
  intros Ha. unfold userinfo, set_authority. simpl.
  unfold host_and_port at 1. rewrite Ha, userinfo_authority_split.
  destruct username as [|c u], password as [p|]; rewrite ?split_userinfo, ?encode_nil; simpl.
  - done.
  - by unfold userinfo_authority.
  - done.
  - rewrite split_username. unfold non_empty.
    destruct (utf8_percent_encode _ _) eqn:E; [by apply encode_cons_ne in E | done].
Qed.
End userinfo_facts.
