(* ===== verification/ErrorText.v ===== *)
(** * The text of errors

    The [Display] of the errors of [src/error.rs] and of the client service
    ([src/client/layer/client.rs]): what a log or a user reads of a chain of
    errors.  The reason phrase in it is chosen by a server. *)

From S2P Require Import Prelude Http Errors Net Ext.

(** [StatusCode::is_client_error] and [is_server_error]. *)
Definition is_client_error (status : StatusCode) : bool := (400 <=? status)%Z && (status <? 500)%Z.
Definition is_server_error (status : StatusCode) : bool := (500 <=? status)%Z && (status <? 600)%Z.

(** The [Debug] of [ErrorKind]. *)
Definition ErrorKind_debug (k : ErrorKind) : str :=
  match k with
  | Canceled => #"Canceled"
  | ChannelClosed => #"ChannelClosed"
  | KConnect => #"Connect"
  | ProxyConnect => #"ProxyConnect"
  | UserUnsupportedRequestMethod => #"UserUnsupportedRequestMethod"
  | UserUnsupportedVersion => #"UserUnsupportedVersion"
  | UserAbsoluteUriRequired => #"UserAbsoluteUriRequired"
  | SendRequest => #"SendRequest"
  end.

Section text.
Context `{UL : UriLib}.
(** The reason phrases the [http] crate knows, and the text of an error of
    another crate with the errors below it. *)
Context (canonical_reason : StatusCode → option str) (foreign_text : ErrNode → BoxError → str).

Definition status_text (code : StatusCode) : str :=
  decimal code ++ #" " ++ default #"<unknown status code>" (canonical_reason code).
Definition kind_text (k : ErrKind) : str :=
  match k with
  | KBuilder => #"builder error"
  | KRequest => #"error sending request"
  | KBody => #"request or response body error"
  | KTls => #"tls error"
  | KDecode => #"error decoding response body"
  | KRedirect => #"error following redirect"
  | KUpgrade => #"error upgrading connection"
  | KWebSocket => #"websocket error"
  | KStatus code reason =>
    let prefix := if is_client_error code then #"HTTP status client error"
                  else #"HTTP status server error" in
    match reason with
    | Some reason => prefix ++ #" (" ++ decimal code ++ #" " ++ escape reason ++ #")"
    | None => prefix ++ #" (" ++ status_text code ++ #")"
    end
  end.
Fixpoint error_text (e : BoxError) : str :=
  match e with
  | [] => []
  | NError kind uri :: source =>
    kind_text kind ++
    match uri with Some uri => #" for uri (" ++ uri_to_string uri ++ #")" | None => [] end ++
    match source with [] => [] | _ => #": " ++ error_text source end
  | NTimedOut :: _ => #"operation timed out"
  | NBadScheme :: _ => #"URI scheme is not allowed"
  | NProxyConnect :: source => #"proxy connect error: " ++ error_text source
  | NDnsError :: source => #"dns resolution error: " ++ error_text source
  | NClient kind :: _ => #"client error (" ++ ErrorKind_debug kind ++ #")"
  | err :: source => foreign_text err source
  end.

(** ** Facts *)
Definition printable (c : ascii) : bool := (32 <=? ord c)%N && (ord c <? 127)%N.

Lemma escape_printable b : forallb printable (escape b) = true.
Proof.
  unfold escape. induction b as [|c b IH]; [done|]. cbn [mbind list_bind]. rewrite forallb_app, IH.
  rewrite andb_true_r. clear. destruct c as [[] [] [] [] [] [] [] []]; vm_compute; reflexivity.
Qed.
Lemma decimal_printable n : (0 <= n)%Z → forallb printable (decimal n) = true.
Proof.
  intros Hn. apply forallb_forall. intros c Hc. apply list_elem_of_In in Hc.
  pose proof (decimal_fuel_digit _ _ _ Hn Hc). unfold printable.
  apply andb_true_iff. split; [apply N.leb_le|apply N.ltb_lt]; lia.
Qed.

(** The errors of other crates and the URIs of a chain are printed without
    control characters, and statuses are numbers. *)
Definition node_printable (err : ErrNode) (source : BoxError) : Prop :=
  match err with
  | NError kind uri =>
    match kind with
    | KStatus code _ => (0 <= code)%Z ∧ forallb printable (default [] (canonical_reason code)) = true
    | _ => True
    end ∧ match uri with Some u => forallb printable (uri_to_string u) = true | None => True end
  | NTimedOut | NBadScheme | NProxyConnect | NDnsError | NClient _ => True
  | _ => forallb printable (foreign_text err source) = true
  end.
Fixpoint chain_printable (e : BoxError) : Prop :=
  match e with [] => True | err :: e => node_printable err e ∧ chain_printable e end.

Lemma kind_text_printable k uri source :
  node_printable (NError k uri) source → forallb printable (kind_text k) = true.
Proof.
  destruct k as [| | | |code reason| | | |]; try done. intros [[Hc Hr] _]. cbn [kind_text].
  assert (forallb printable (if is_client_error code then #"HTTP status client error"
                             else #"HTTP status server error") = true) as Hp by by destruct is_client_error.
  destruct reason as [reason|]; unfold status_text;
    repeat (rewrite forallb_app, andb_true_iff; split); try done; try by apply decimal_printable.
  - apply escape_printable.
  - by destruct (canonical_reason code).
Qed.

(** Whatever reason phrase a server sent, the text of an error has no control
    character: it stays on one line. *)
Theorem error_text_one_line e : chain_printable e → forallb printable (error_text e) = true.
Proof.
  induction e as [|err e IH]; [done|]. intros [Hn Hc]. specialize (IH Hc).
  destruct err as [k uri| | | | | | |k| | | | |]; try done; cbn [error_text].
  - rewrite !forallb_app, !andb_true_iff. split_and!.
    + by eapply kind_text_printable.
    + destruct uri as [u|]; [|done]. destruct Hn as [_ Hu]. rewrite !forallb_app, Hu. done.
    + by destruct e.
  - by destruct k.
Qed.
(** Without its URI, the text of an error does not tell it. *)
Lemma without_uri_text e uri uri' :
  error_text (without_uri (set_error_uri uri e)) = error_text (without_uri (set_error_uri uri' e)).
Proof. by destruct e as [|[]]. Qed.
End text.

Module ErrorTextExamples.
Definition forged : str := [chr 79; chr 107; chr 10] ++ #"INFO done".
Definition uri : Uri := {| uri_scheme := Some HTTP; uri_authority := None; uri_path_and_query := None |}.
Lemma forged_reason :
  error_text (λ _, None) (λ _ _, []) (without_uri (Error_status_code uri 404 (Some forged))) =
    #"HTTP status client error (404 Ok\nINFO done)".
Proof. vm_compute. reflexivity. Qed.
End ErrorTextExamples.
