(* ===== verification/Dns.v ===== *)
(** * Names and addresses

    [src/dns.rs], [src/dns/resolve.rs] and the use the HTTP connector of
    [src/conn/http.rs] makes of them: socket addresses, their split into two
    families, name overrides, and the addresses a URI leads to.  What a resolver
    answers for a name is a parameter. *)

From S2P Require Import Prelude Http Errors Net Ext.

(** ** Data *)

(** [SocketAddr]; the flow information and the scope are those of
    [SocketAddrV6]. *)
Record SocketAddr := {
  sa_ip : IpAddr;
  sa_port : Z;
  sa_flowinfo : Z;
  sa_scope_id : Z;
}.
#[export] Instance SocketAddr_eq_dec : EqDecision SocketAddr.
Proof. solve_decision. Defined.

Definition is_ipv6 (a : SocketAddr) : bool := match sa_ip a with V6 _ => true | V4 _ => false end.
Definition is_ipv4 (a : SocketAddr) : bool := negb (is_ipv6 a).
Definition addr_set_port (port : Z) (a : SocketAddr) : SocketAddr :=
  {| sa_ip := sa_ip a; sa_port := port; sa_flowinfo := sa_flowinfo a; sa_scope_id := sa_scope_id a |}.

(** [SocketAddrs] is the list of addresses that are left. *)
Abbreviation SocketAddrs := (list SocketAddr).

(** ** Operations *)

(** [Ipv4Addr::from_str] and [Ipv6Addr::from_str]. *)
Definition parse_ipv4 (s : str) : option Z :=
  '(a, rest) ← read_ipv4_addr s; match rest with [] => Some a | _ => None end.
Definition parse_ipv6 (s : str) : option Z :=
  '(a, rest) ← read_ipv6_addr s; match rest with [] => Some a | _ => None end.

Definition try_parse (host : str) (port : Z) : option SocketAddrs :=
  match parse_ipv4 host with
  | Some a => Some [{| sa_ip := V4 a; sa_port := port; sa_flowinfo := 0; sa_scope_id := 0 |}]
  | None =>
    match parse_ipv6 host with
    | Some a => Some [{| sa_ip := V6 a; sa_port := port; sa_flowinfo := 0; sa_scope_id := 0 |}]
    | None => None
    end
  end.

Definition split_by_preference (self : SocketAddrs) (local_addr_ipv4 local_addr_ipv6 : option Z) :
    SocketAddrs * SocketAddrs :=
  match local_addr_ipv4, local_addr_ipv6 with
  | Some _, None => (filter (λ a, is_ipv4 a = true) self, [])
  | None, Some _ => (filter (λ a, is_ipv6 a = true) self, [])
  | _, _ =>
    let preferring_v6 := default false (is_ipv6 <$> head self) in
    (filter (λ a, is_ipv6 a = preferring_v6) self,
     filter (λ a, is_ipv6 a ≠ preferring_v6) self)
  end.

(** ** Resolvers *)

(** [Resolve]: what a name resolves to. *)
Definition Resolve : Type := str → result SocketAddrs BoxError.

(** [DynResolver::call]. *)
Definition dyn_resolve (resolver : Resolve) : Resolve := λ name, map_err DnsError (resolver name).

(** [DnsResolverWithOverrides]. *)
Definition with_overrides (dns_resolver : Resolve) (overrides : gmap str SocketAddrs) : Resolve :=
  λ name, match overrides !! name with
          | Some dest => Ok dest
          | None => dns_resolver name
          end.

(** *** The resolver of the system

    A task on the pool of blocking threads asks [getaddrinfo], for port 0.
    [joined] is how the task ends. *)
Inductive Joined :=
| JoinOk (r : result SocketAddrs BoxError)
| JoinCancelled (e : BoxError)
| JoinPanicked (e : BoxError).

Definition gai_panicked : BoxError :=
  io_error IoOther [NOther #"DNS resolution blocked task panicked"].
(** [GaiFuture::poll] of tokio and of compio, when the task has ended. *)
Definition gai_poll (joined : Joined) : result SocketAddrs BoxError :=
  match joined with
  | JoinOk (Ok addrs) => Ok addrs
  | JoinOk (Err err) => Err err
  | JoinCancelled join_err => Err (io_error IoInterrupted join_err)
  | JoinPanicked _ => Err gai_panicked
  end.
Definition gai_poll_compio (joined : Joined) : result SocketAddrs BoxError :=
  match joined with
  | JoinOk (Ok addrs) => Ok addrs
  | JoinOk (Err err) => Err err
  | JoinCancelled _ | JoinPanicked _ => Err gai_panicked
  end.
Definition GaiResolver (poll : Joined → result SocketAddrs BoxError) (joined : str → Z → Joined) : Resolve :=
  λ name, poll (joined name 0%Z).

(** *** Hickory *)

(** The configuration the shared resolver is made with: that of the system, or
    the default; both families are looked up. *)
Inductive HickoryConfig := SystemConf | GoogleUdpAndTcp.
Inductive LookupIpStrategy := Ipv4AndIpv6.
Definition hickory_config (system : result unit BoxError) : HickoryConfig * LookupIpStrategy :=
  (match system with Ok _ => SystemConf | Err _ => GoogleUdpAndTcp end, Ipv4AndIpv6).
(** [SocketAddr::new]. *)
Definition SocketAddr_new (ip : IpAddr) (port : Z) : SocketAddr :=
  {| sa_ip := ip; sa_port := port; sa_flowinfo := 0; sa_scope_id := 0 |}.
Definition HickoryDnsResolver (lookup_ip : str → result (list IpAddr) BoxError) : Resolve :=
  λ name,
    lookup ←? lookup_ip name ;
    Ok ((λ ip_addr, SocketAddr_new ip_addr 0) <$> lookup).

(** ** The HTTP connector *)

(** [ConnectError] of [src/conn/net/tcp.rs], and the error it is when it is
    boxed. *)
Record ConnectError := {
  ce_msg : str;
  ce_addr : option SocketAddr;
  ce_cause : BoxError;
}.
Definition ConnectError_new (msg : str) (cause : BoxError) : ConnectError :=
  {| ce_msg := msg; ce_addr := None; ce_cause := cause |}.
Definition ConnectError_tcp : BoxError → ConnectError := ConnectError_new #"tcp connect error".
Definition ConnectError_dns : BoxError → ConnectError := ConnectError_new #"dns error".
Definition network_unreachable : ConnectError :=
  ConnectError_tcp (io_error IoNotConnected [NOther #"Network unreachable"]).
Definition with_addr (addr : SocketAddr) (e : ConnectError) : ConnectError :=
  {| ce_msg := ce_msg e; ce_addr := Some addr; ce_cause := ce_cause e |}.
Definition boxed_connect (e : ConnectError) : BoxError := NConnect (ce_msg e) :: ce_cause e.

Definition INVALID_NOT_HTTP : str := #"invalid URI, scheme is not http".
Definition INVALID_MISSING_SCHEME : str := #"invalid URI, scheme is missing".
Definition INVALID_MISSING_HOST : str := #"invalid URI, host is missing".

Definition get_host_port (enforce_http : bool) (dst : Uri) : result (str * Z) ConnectError :=
  let bad :=
    if enforce_http then
      if negb (option_scheme_eqb (uri_scheme dst) (Some HTTP)) then Some INVALID_NOT_HTTP else None
    else match uri_scheme dst with None => Some INVALID_MISSING_SCHEME | Some _ => None end in
  match bad with
  | Some msg => Err (ConnectError_new msg [])
  | None =>
    match uri_host dst with
    | None => Err (ConnectError_new INVALID_MISSING_HOST [])
    | Some host =>
      Ok (host, match uri_port dst with
                | Some port => port
                | None => if option_scheme_eqb (uri_scheme dst) (Some HTTPS) then 443%Z else 80%Z
                end)
    end
  end.

Definition set_port (host_port : Z) (explicit : bool) (addr : SocketAddr) : SocketAddr :=
  if explicit || (sa_port addr =? 0)%Z then addr_set_port host_port addr else addr.

(** The addresses [HttpConnector::call] connects to. *)
Definition connector_addrs (enforce_http : bool) (resolver : Resolve) (dst : Uri) :
    result SocketAddrs ConnectError :=
  hp ←? get_host_port enforce_http dst;
  let '(host, port) := hp in
  let host := strip_ipv6_brackets host in
  match try_parse host port with
  | Some addrs => Ok addrs
  | None =>
    addrs ←? map_err ConnectError_dns (resolver host);
    Ok (set_port port (bool_decide (is_Some (uri_port dst))) <$> addrs)
  end.

(** ** Facts *)

(** Splitting keeps the order within each half and loses no address, unless the
    local address of one family alone is given. *)
Lemma split_elem self v4 v6 a :
  (v4 = None ↔ v6 = None) →
  let '(pref, fb) := split_by_preference self v4 v6 in a ∈ self ↔ a ∈ pref ++ fb.
Proof.
  intros Hv. unfold split_by_preference.
  destruct v4, v6; try (exfalso; naive_solver); cbn zeta;
    set (p := default false _); clearbody p; rewrite elem_of_app, !list_elem_of_filter;
    destruct (decide (is_ipv6 a = p)); tauto.
Qed.

Lemma split_length self v4 v6 :
  let '(pref, fb) := split_by_preference self v4 v6 in
  length pref + length fb ≤ length self.
Proof.
  unfold split_by_preference. destruct v4, v6; cbn zeta; rewrite ?Nat.add_0_r;
    try apply length_filter.
  all: set (p := default false _); clearbody p;
    induction self as [|x l IH]; [done|]; rewrite !filter_cons;
    repeat case_decide; simpl; try lia; tauto.
Qed.

(** The port of every address the connector tries. *)
Lemma connector_addrs_ports enforce_http resolver dst addrs :
  connector_addrs enforce_http resolver dst = Ok addrs →
  Forall (λ a, match uri_port dst with
               | Some port => sa_port a = port
               | None => sa_port a ≠ 0%Z
               end) addrs.
Proof.
  unfold connector_addrs, get_host_port.
  set (bad := if enforce_http then _ else _). clearbody bad.
  destruct bad; [done|]. destruct (uri_host dst) as [host|]; [|done]. cbn zeta.
  set (port := match uri_port dst with Some p => p | None => _ end).
  assert (match uri_port dst with Some p => port = p | None => port ≠ 0%Z end) as Hport.
  { unfold port. destruct (uri_port dst); [done|]. by case_match. }
  clearbody port. set (h := strip_ipv6_brackets host).
  destruct (try_parse h port) as [l|] eqn:Hp.
  - intros [= <-]. unfold try_parse in Hp.
    destruct (parse_ipv4 h), (parse_ipv6 h); simplify_eq; by repeat constructor.
  - destruct (resolver h) as [l|]; [|done]. intros [= <-]. apply Forall_fmap, Forall_forall.
    intros a _. cbn. unfold set_port. destruct (uri_port dst) as [p|]; simpl.
    + done.
    + destruct (Z.eqb_spec (sa_port a) 0); done.
Qed.

(** A resolver that knows no ports, as those of the system and of hickory:
    every address the connector tries has the port of the URI, or else that of
    its scheme. *)
Definition portless (resolver : Resolve) : Prop :=
  ∀ name addrs, resolver name = Ok addrs → Forall (λ a, sa_port a = 0%Z) addrs.

Lemma gai_portless poll joined :
  poll = gai_poll ∨ poll = gai_poll_compio →
  (∀ name addrs, joined name 0%Z = JoinOk (Ok addrs) → Forall (λ a, sa_port a = 0%Z) addrs) →
  portless (GaiResolver poll joined).
Proof.
  intros [-> | ->] Hj name addrs; unfold GaiResolver;
    destruct (joined name 0%Z) as [[l|e]|e|e] eqn:E; intros [= <-]; by eapply Hj.
Qed.

Lemma hickory_portless lookup_ip : portless (HickoryDnsResolver lookup_ip).
Proof.
  intros name addrs. unfold HickoryDnsResolver. destruct (lookup_ip name) as [l|]; [|done].
  intros [= <-]. apply Forall_fmap, Forall_forall. done.
Qed.

Lemma portless_addrs enforce_http resolver dst addrs :
  portless resolver → connector_addrs enforce_http resolver dst = Ok addrs →
  Forall (λ a, sa_port a = match uri_port dst with
                           | Some port => port
                           | None => if option_scheme_eqb (uri_scheme dst) (Some HTTPS) then 443%Z else 80%Z
                           end) addrs.
Proof.
  intros Hr. unfold connector_addrs, get_host_port.
  set (bad := if enforce_http then _ else _). clearbody bad.
  destruct bad; [done|]. destruct (uri_host dst) as [host|]; [|done]. cbn zeta.
  set (port := match uri_port dst with Some p => p | None => _ end).
  set (h := strip_ipv6_brackets host). destruct (try_parse h port) as [l|] eqn:Hp.
  - intros [= <-]. unfold try_parse in Hp.
    destruct (parse_ipv4 h), (parse_ipv6 h); simplify_eq; by repeat constructor.
  - destruct (resolver h) as [l|] eqn:Hl; [|done]. intros [= <-]. apply Hr in Hl.
    apply Forall_fmap. eapply Forall_impl; [exact Hl|]. intros a Ha. cbn. unfold set_port.
    by rewrite Ha, orb_true_r.
Qed.
