(* ===== verification/Message.v ===== *)
(** * Requests, bodies and request-scoped configuration

    The request and response of the [http] crate as records, the body of
    [src/client/body.rs] and the configuration slots of [src/config.rs]. *)

From S2P Require Import Prelude Http.

(** ** Bodies *)

(** [Body]: a chunk that can be sent again, or a boxed stream, known here by an
    identity and the exact length it announces. *)
Inductive Body :=
| Reusable (chunk : str)
| Boxed (stream : nat) (exact : option Z).

Definition Body_empty : Body := Reusable [].
Definition try_clone (b : Body) : option Body :=
  match b with Reusable chunk => Some (Reusable chunk) | Boxed _ _ => None end.
(** [content_length] and [size_hint().exact()]. *)
Definition content_length (b : Body) : option Z :=
  match b with Reusable chunk => Some (Z.of_nat (length chunk)) | Boxed _ exact => exact end.

#[export] Instance Body_eq_dec : EqDecision Body.
Proof. solve_decision. Defined.

(** ** Request-scoped configuration

    [http::Extensions] holds at most one value of each type.  A [Slot] is the
    place of one such type in the extensions of a request. *)
Record Slot (E V : Type) := {
  sl_get : E → option V;
  sl_set : option V → E → E;
  sl_get_set v e : sl_get (sl_set v e) = v;
}.
Arguments sl_get {E V}.
Arguments sl_set {E V}.
Arguments sl_get_set {E V}.

Section config.
Context {E V : Type}.

(** [RequestConfig<T>] is an optional value, of the client or stored in the
    extensions of a request. *)
Definition RequestConfig : Type := option V.
Context (slot : Slot E RequestConfig).
Implicit Types (self : RequestConfig) (ext : E).

Definition fetch self ext : option V :=
  match sl_get slot ext with
  | Some (Some v) => Some v
  | _ => self
  end.

Definition config_remove ext : option V * E := (mjoin (sl_get slot ext), sl_set slot None ext).

(** The configuration after [load]; it is also what [load] returns. *)
Definition load self ext : RequestConfig * E :=
  let '(value, ext) := config_remove ext in
  (match value with Some v => Some v | None => self end, ext).

Definition take_config self ext : option V * E :=
  (default self (sl_get slot ext), sl_set slot None ext).

Definition config_get ext : option V := mjoin (sl_get slot ext).

(** [get_mut], with the change made through the reference. *)
Definition config_get_mut (f : option V → option V) ext : E :=
  sl_set slot (Some (f (default None (sl_get slot ext)))) ext.

(** Each reading of a request's configuration prefers the request and falls
    back to the client, and consuming it leaves nothing behind. *)
Lemma load_fetch self ext :
  (load self ext).1 = fetch self ext ∧ sl_get slot (load self ext).2 = None.
Proof.
  unfold load, fetch, config_remove. simpl. rewrite sl_get_set.
  by destruct (sl_get slot ext) as [[]|].
Qed.

Lemma fetch_get_mut self ext v : fetch self (config_get_mut (λ _, Some v) ext) = Some v.
Proof. unfold fetch, config_get_mut. by rewrite sl_get_set. Qed.
End config.
Arguments RequestConfig V : clear implicits.

(** ** Messages *)

Section messages.
Context `{HM : HeaderMapLib}.

Record Request (E B : Type) := {
  req_method : Method;
  req_uri : Uri;
  req_version : Version;
  req_headers : HeaderMap HeaderValue;
  req_ext : E;
  req_body : B;
}.

Record Response (X B : Type) := {
  res_status : StatusCode;
  res_version : Version;
  res_headers : HeaderMap HeaderValue;
  res_ext : X;
  res_body : B;
}.
End messages.
Arguments req_method {HM E B}.
Arguments req_uri {HM E B}.
Arguments req_version {HM E B}.
Arguments req_headers {HM E B}.
Arguments req_ext {HM E B}.
Arguments req_body {HM E B}.
Arguments Request {HM}.
Arguments Response {HM}.
Arguments res_status {HM X B}.
Arguments res_version {HM X B}.
Arguments res_headers {HM X B}.
Arguments res_ext {HM X B}.
Arguments res_body {HM X B}.

Section setters.
Context `{HM : HeaderMapLib} {E B : Type}.
Implicit Types (r : Request E B).

Definition set_method m r : Request E B :=
  {| req_method := m; req_uri := req_uri r; req_version := req_version r;
     req_headers := req_headers r; req_ext := req_ext r; req_body := req_body r |}.
Definition set_uri u r : Request E B :=
  {| req_method := req_method r; req_uri := u; req_version := req_version r;
     req_headers := req_headers r; req_ext := req_ext r; req_body := req_body r |}.
Definition set_headers h r : Request E B :=
  {| req_method := req_method r; req_uri := req_uri r; req_version := req_version r;
     req_headers := h; req_ext := req_ext r; req_body := req_body r |}.
Definition set_ext e r : Request E B :=
  {| req_method := req_method r; req_uri := req_uri r; req_version := req_version r;
     req_headers := req_headers r; req_ext := e; req_body := req_body r |}.
Definition set_version v r : Request E B :=
  {| req_method := req_method r; req_uri := req_uri r; req_version := v;
     req_headers := req_headers r; req_ext := req_ext r; req_body := req_body r |}.
Definition with_body {B'} (b : B') r : Request E B' :=
  {| req_method := req_method r; req_uri := req_uri r; req_version := req_version r;
     req_headers := req_headers r; req_ext := req_ext r; req_body := b |}.
End setters.

(** Header names. *)
Definition AUTHORIZATION : HeaderName := #"authorization".
Definition COOKIE : HeaderName := #"cookie".
Definition COOKIE2 : HeaderName := #"cookie2".
Definition PROXY_AUTHORIZATION : HeaderName := #"proxy-authorization".
Definition WWW_AUTHENTICATE : HeaderName := #"www-authenticate".
Definition CONTENT_TYPE : HeaderName := #"content-type".
Definition CONTENT_LENGTH : HeaderName := #"content-length".
Definition CONTENT_ENCODING : HeaderName := #"content-encoding".
Definition TRANSFER_ENCODING : HeaderName := #"transfer-encoding".
Definition LOCATION : HeaderName := #"location".
Definition REFERER : HeaderName := #"referer".
Definition REFERRER_POLICY : HeaderName := #"referrer-policy".
Definition HOST : HeaderName := #"host".
Definition SET_COOKIE : HeaderName := #"set-cookie".
Definition USER_AGENT : HeaderName := #"user-agent".

(** Removing several names. *)
Definition remove_headers `{HeaderMapLib} (ns : list HeaderName) (h : HeaderMap HeaderValue) :
    HeaderMap HeaderValue :=
  foldl (λ h n, hm_remove n h) h ns.

Lemma get_all_remove_headers `{HeaderMapLib} ns h n :
  hm_get_all (remove_headers ns h) n = if decide (n ∈ ns) then [] else hm_get_all h n.
Proof.
  unfold remove_headers. revert h. induction ns as [|n' ns IH]; intros h; simpl; [done|].
  rewrite IH, hm_get_all_remove. repeat case_decide; set_solver.
Qed.
