(* ===== verification/BodyStream.v ===== *)
(** * The frames of bodies

    [src/client/body.rs] as something that is polled: a chunk, a body of
    another type that is wrapped, or a stream of chunks, and what the HTTP
    engine sees of it.  [Message] knows the same bodies by their length and by
    whether they can be sent again. *)

From S2P Require Import Prelude Http Errors Message.

Section frames.
(** Trailers are the headers of the [http] crate. *)
Context {Trailers : Type}.

Inductive Frame (D : Type) :=
| Data (data : D)
| Trailer (headers : Trailers).
Arguments Data {D}.
Arguments Trailer {D}.

Definition map_data {D D'} (f : D → D') (frame : Frame D) : Frame D' :=
  match frame with Data d => Data (f d) | Trailer h => Trailer h end.

(** [http_body::Body]: frames of data [D], errors [E], the exact size if it is
    known, and whether the end was reached. *)
Abbreviation Polled D E := (poll (option (result (Frame D) E))).
Class BodyLike (B D E : Type) := {
  body_poll : B → Polled D E * B;
  body_exact : B → option Z;
  body_end : B → bool;
}.

Definition map_frame {D D' E E'} (f : D → D') (g : E → E') (a : Polled D E) : Polled D' E' :=
  match a with
  | Ready (Some (Ok frame)) => Ready (Some (Ok (map_data f frame)))
  | Ready (Some (Err e)) => Ready (Some (Err (g e)))
  | Ready None => Ready None
  | Pending => Pending
  end.

Lemma map_frame_compose {D D' D'' E E' E''} (f : D → D') (f' : D' → D'') (g : E → E') (g' : E' → E'')
    (a : Polled D E) :
  map_frame f' g' (map_frame f g a) = map_frame (f' ∘ f) (g' ∘ g) a.
Proof. by destruct a as [[[[]|]|]|]. Qed.

Fixpoint body_polls `{BodyLike B D E} (n : nat) (b : B) : list (Polled D E) :=
  match n with
  | 0 => []
  | S n => let '(a, b) := body_poll b in a :: body_polls n b
  end.

(** ** The kinds of bodies *)

(** [Full], with the chunk that is still to be sent. *)
Record Full := { full_data : option str }.
Definition Full_new (data : str) : Full := {| full_data := match data with [] => None | _ => Some data end |}.
#[export] Instance Full_BodyLike : BodyLike Full str BoxError := {|
  body_poll self := (Ready ((λ d, Ok (Data d)) <$> full_data self), {| full_data := None |});
  body_exact self := Some (match full_data self with Some d => Z.of_nat (length d) | None => 0%Z end);
  body_end self := match full_data self with Some _ => false | None => true end;
|}.

(** [IntoBytesBody], and [BodyExt::map_err]. *)
Record IntoBytesBody (B : Type) := { ib_inner : B }.
Arguments ib_inner {B}.
Definition into_bytes_poll {B D E} `{!BodyLike B D E} (into : D → str) (self : IntoBytesBody B) :
    Polled str E * IntoBytesBody B :=
  let '(a, inner) := body_poll (ib_inner self) in
  (match a with
   | Pending => Pending
   | Ready (Some (Ok f)) => Ready (Some (Ok (map_data into f)))
   | Ready (Some (Err e)) => Ready (Some (Err e))
   | Ready None => Ready None
   end, {| ib_inner := inner |}).
Definition IntoBytes_BodyLike {B D E} `{!BodyLike B D E} (into : D → str) : BodyLike (IntoBytesBody B) str E := {|
  body_poll := into_bytes_poll into;
  body_exact self := body_exact (ib_inner self);
  body_end self := body_end (ib_inner self);
|}.
Definition MapErr_BodyLike {B D E E'} `{HB : !BodyLike B D E} (f : E → E') : BodyLike B D E' := {|
  body_poll b := let '(a, b) := body_poll b in (map_frame id f a, b);
  body_exact := body_exact;
  body_end := body_end;
|}.

(** [StreamBody] over a stream of chunks: every item is a frame of data. *)
Definition Stream_BodyLike {S D E} (next : S → poll (option (result D E)) * S) (bytes_from : D → str)
    (into : E → BoxError) : BodyLike S str BoxError := {|
  body_poll s :=
    let '(a, s) := next s in
    (match a with
     | Pending => Pending
     | Ready (Some (Ok d)) => Ready (Some (Ok (Data (bytes_from d))))
     | Ready (Some (Err e)) => Ready (Some (Err (into e)))
     | Ready None => Ready None
     end, s);
  body_exact _ := None;
  body_end _ := false;
|}.

(** [Body], over the boxed bodies [B]. *)
Section body.
Context {B : Type} `{BB : !BodyLike B str BoxError}.
Inductive WBody :=
| BLeft (full : Full)
| BRight (boxed : B).

Definition Body_reusable (chunk : str) : WBody := BLeft (Full_new chunk).
Definition WBody_empty : WBody := Body_reusable [].
Definition WBody_try_clone (self : WBody) : option WBody :=
  match self with BLeft chunk => Some (BLeft chunk) | BRight _ => None end.
Definition WBody_poll_frame (self : WBody) : Polled str BoxError * WBody :=
  let '(a, self) := match self with
                    | BLeft b => let '(a, b) := body_poll b in (a, BLeft b)
                    | BRight b => let '(a, b) := body_poll b in (a, BRight b)
                    end in
  (map_frame id downcast_or_request a, self).
#[export] Instance WBody_BodyLike : BodyLike WBody str BoxError := {|
  body_poll := WBody_poll_frame;
  body_exact self := match self with BLeft b => body_exact b | BRight b => body_exact b end;
  body_end self := match self with BLeft b => body_end b | BRight b => body_end b end;
|}.
End body.
Arguments WBody B : clear implicits.

(** [Body::wrap] of a body [B] and [Body::stream]. *)
Definition wrap_boxed {B D E} `{!BodyLike B D E} (data_into : D → str) (err_into : E → BoxError) :
    BodyLike (IntoBytesBody B) str BoxError :=
  MapErr_BodyLike (HB:=IntoBytes_BodyLike data_into) err_into.
Definition body_wrap {B} (inner : B) : WBody (IntoBytesBody B) := BRight {| ib_inner := inner |}.

(** ** What the engine sees *)
Lemma downcast_idemp e : downcast_or_request (downcast_or_request e) = downcast_or_request e.
Proof. by destruct e as [|[] ]. Qed.

(** A body that is wrapped gives the frames it gives by itself, in the same
    polls, with its data as bytes and its errors as errors of the crate; its
    size and its end are its own.  Wrapping a body of the crate changes
    nothing. *)
Theorem wrapped_body_polls {B D E} `{HB : !BodyLike B D E} (data_into : D → str) (err_into : E → BoxError)
    (b : B) n :
  let BB := wrap_boxed data_into err_into in
  body_polls n (body_wrap b) =
    map_frame data_into (downcast_or_request ∘ err_into) <$> body_polls (H:=HB) n b ∧
  body_exact (body_wrap b) = body_exact b ∧ body_end (body_wrap b) = body_end b.
Proof.
  intros BB. split; [|done]. revert b. induction n as [|n IH]; intros b; [done|].
  cbn [body_polls body_poll WBody_BodyLike BB wrap_boxed MapErr_BodyLike IntoBytes_BodyLike body_wrap].
  unfold WBody_poll_frame, into_bytes_poll.
  cbn [body_poll BB wrap_boxed MapErr_BodyLike IntoBytes_BodyLike body_wrap]. unfold into_bytes_poll.
  cbn [ib_inner]. destruct (body_poll b) as [a b'].
  change (BRight {| ib_inner := b' |}) with (body_wrap b'). rewrite IH.
  rewrite fmap_cons. f_equal. by destruct a as [[[[]|]|]|].
Qed.

Lemma wrap_again {B} `{BB : !BodyLike B str BoxError} (w : WBody B) n :
  body_polls (H:=WBody_BodyLike (BB:=wrap_boxed (B:=WBody B) id id)) n (body_wrap w) = body_polls n w.
Proof.
  etrans; [exact (proj1 (wrapped_body_polls id id w n))|].
  revert w. induction n as [|n IH]; intros w; [done|]. cbn [body_polls].
  destruct (body_poll w) as [a w'] eqn:Hp. rewrite fmap_cons, IH. f_equal.
  simpl in Hp. unfold WBody_poll_frame in Hp.
  destruct w as [f|b]; [|destruct (body_poll b) as [x ?]]; simplify_eq/=.
  - by destruct (full_data f).
  - destruct x as [[[[]|]|]|]; simpl; try done. by rewrite downcast_idemp.
Qed.

(** A chunk is one frame, which is all of it; no frame if it is empty. *)
Lemma chunk_polls {B} `{BB : !BodyLike B str BoxError} (chunk : str) n :
  body_polls (S n) (Body_reusable chunk : WBody B) =
    (match chunk with [] => Ready None | _ => Ready (Some (Ok (Data chunk))) end) :: replicate n (Ready None).
Proof.
  assert (∀ n, body_polls n (BLeft {| full_data := None |} : WBody B) = replicate n (Ready None)) as Hn.
  { clear n. induction n as [|n IH]; [done|]. simpl. by rewrite IH. }
  by destruct chunk; simpl; rewrite Hn.
Qed.
End frames.
Arguments Data {Trailers D}.
Arguments Trailer {Trailers D}.
Arguments ib_inner {B}.
Arguments WBody B : clear implicits.
