(* ===== verification/Decoder.v ===== *)
(** * Response decoding

    [src/client/layer/decoder.rs]: which content encodings a request announces
    and its response is decoded from.  The decompression service of
    [tower-http] is known by the encodings it is set to accept; it is not in
    the repository. *)

From S2P Require Import Prelude Http Message.

Definition ACCEPT_ENCODING : HeaderName := #"accept-encoding".
Definition RANGE : HeaderName := #"range".

(** [AcceptEncoding]; it is also the configuration of the service of
    [tower-http]. *)
Record AcceptEncoding := {
  ae_gzip : bool;
  ae_brotli : bool;
  ae_zstd : bool;
  ae_deflate : bool;
}.
#[export] Instance AcceptEncoding_eq_dec : EqDecision AcceptEncoding.
Proof. solve_decision. Defined.

Definition AcceptEncoding_default : AcceptEncoding :=
  {| ae_gzip := true; ae_brotli := true; ae_zstd := true; ae_deflate := true |}.

Definition ae_is_enabled (self : AcceptEncoding) : bool :=
  if ae_gzip self then true
  else if ae_deflate self then true
  else if ae_brotli self then true
  else ae_zstd self.

(** [Decompression]: the service, taken out while it is replaced, and whether
    the client decodes anything. *)
Record Decompression := {
  dc_decoder : option AcceptEncoding;
  dc_enabled : bool;
}.

(** [accept_in_place], with the setters of [tower-http]. *)
Definition accept_in_place (decoder accept : AcceptEncoding) : AcceptEncoding :=
  let decoder := decoder <| ae_gzip := ae_gzip accept |> in
  let decoder := decoder <| ae_deflate := ae_deflate accept |> in
  let decoder := decoder <| ae_brotli := ae_brotli accept |> in
  decoder <| ae_zstd := ae_zstd accept |>.

(** The service of the layer: [Decompression::new], with every encoding turned
    off first. *)
Definition decompression_layer (new accept : AcceptEncoding) : Decompression :=
  let decoder := new <| ae_brotli := false |> <| ae_deflate := false |>
                     <| ae_gzip := false |> <| ae_zstd := false |> in
  {| dc_decoder := Some (accept_in_place decoder accept); dc_enabled := ae_is_enabled accept |}.

Section decoder.
Context `{HM : HeaderMapLib} {E B : Type}.
Context (slot : Slot E (RequestConfig AcceptEncoding)).

Definition identity_value : HeaderValue := {| hv_bytes := #"identity"; hv_sensitive := false |}.

(** A range is asked of the identity representation. *)
Definition range_identity (enabled : bool) (req : Request E B) : Request E B :=
  if enabled && hm_contains_key (req_headers req) RANGE
  then set_headers (hm_insert ACCEPT_ENCODING identity_value (req_headers req)) req
  else req.

(** [call]: the service after the call, with the encodings of the service of
    [tower-http] and the request that service is called with. *)
Definition decompression_call (self : Decompression) (req : Request E B) :
    option (Decompression * (AcceptEncoding * Request E B)) :=
  let '(self, enabled) :=
    match config_get slot (req_ext req) with
    | Some accept =>
      (self <| dc_decoder := (λ decoder, accept_in_place decoder accept) <$> dc_decoder self |>,
       ae_is_enabled accept)
    | None => (self, dc_enabled self)
    end in
  let req := range_identity enabled req in
  decoder ← dc_decoder self; Some (self, (decoder, req)).

(** The calls of one service, one after another. *)
Fixpoint decompression_calls (self : Decompression) (reqs : list (Request E B)) :
    option (list (AcceptEncoding * Request E B)) :=
  match reqs with
  | [] => Some []
  | req :: reqs =>
    '(self, call) ← decompression_call self req;
    calls ← decompression_calls self reqs; Some (call :: calls)
  end.

(** ** What a request announces and is decoded from *)

(** The settings that hold for the requests: those of the latest request with
    settings of its own. *)
Fixpoint settings (accept : AcceptEncoding) (reqs : list (Request E B)) : list AcceptEncoding :=
  match reqs with
  | [] => []
  | req :: reqs =>
    let accept := default accept (config_get slot (req_ext req)) in
    accept :: settings accept reqs
  end.

(** The request [req'] is [req], except that it asks for the identity
    representation when decoding is [enabled] and it asks for a range. *)
Record range_safe (enabled : bool) (req req' : Request E B) : Prop := {
  rs_rest : set_headers (req_headers req) req' = req;
  rs_headers n : hm_get_all (req_headers req') n =
    if bool_decide (n = ACCEPT_ENCODING ∧ enabled = true ∧ hm_get_all (req_headers req) RANGE ≠ [])
    then [identity_value] else hm_get_all (req_headers req) n;
}.

Lemma accept_in_place_eq decoder accept : accept_in_place decoder accept = accept.
Proof. by destruct decoder, accept. Qed.

Lemma range_identity_safe enabled req : range_safe enabled req (range_identity enabled req).
Proof.
  unfold range_identity, hm_contains_key. split.
  - by destruct req, (enabled && _).
  - intros n. destruct enabled; cbn [andb]; [|by rewrite bool_decide_eq_false_2 by naive_solver].
    case_bool_decide as Hr; cbn [req_headers set_headers]; rewrite ?hm_get_all_insert;
      repeat case_decide; case_bool_decide; naive_solver.
Qed.

Lemma decompression_call_uri self req self' enc req' :
  decompression_call self req = Some (self', (enc, req')) → req_uri req' = req_uri req.
Proof.
  assert (∀ b, req_uri (range_identity b req) = req_uri req) as Hr
    by (intros b; unfold range_identity; by case_match).
  unfold decompression_call.
  destruct self as [[decoder|] enabled], (config_get slot (req_ext req)); cbn; try done;
    by intros [= _ _ <-].
Qed.

Lemma decompression_call_eq a enabled req :
  let own := config_get slot (req_ext req) in
  decompression_call {| dc_decoder := Some a; dc_enabled := enabled |} req =
  Some ({| dc_decoder := Some (default a own); dc_enabled := enabled |},
        (default a own, range_identity (from_option ae_is_enabled enabled own) req)).
Proof.
  unfold decompression_call. cbn zeta.
  destruct (config_get slot (req_ext req)) as [accept|]; [|done].
  cbn. by rewrite accept_in_place_eq.
Qed.

Lemma decompression_calls_eq a enabled reqs :
  decompression_calls {| dc_decoder := Some a; dc_enabled := enabled |} reqs =
  Some (zip (settings a reqs)
            ((λ req, range_identity
                (from_option ae_is_enabled enabled (config_get slot (req_ext req))) req) <$> reqs)).
Proof.
  revert a. induction reqs as [|req reqs IH]; intros a; [done|].
  cbn [decompression_calls settings fmap list_fmap zip_with].
  rewrite decompression_call_eq. cbn [mbind option_bind]. by rewrite IH.
Qed.

(** Decoding responses.  For every client configuration and every sequence
    of requests given to one service, no call panics; the response of a request
    is decoded from exactly the encodings of its own settings, or of the latest
    earlier request of this service that had some, or of the client; and the
    request goes on unchanged, except that a request for a range, while its own
    settings or those of the client enable an encoding, asks for the identity
    representation instead of whatever it accepted. *)
Theorem decoding_spec new accept reqs i req :
  reqs !! i = Some req →
  ∃ calls enc req',
    decompression_calls (decompression_layer new accept) reqs = Some calls ∧
    calls !! i = Some (enc, req') ∧
    last (settings accept (take (S i) reqs)) = Some enc ∧
    range_safe (ae_is_enabled (default accept (config_get slot (req_ext req)))) req req'.
Proof.
  intros Hi. unfold decompression_layer. rewrite accept_in_place_eq, decompression_calls_eq.
  assert (is_Some (settings accept reqs !! i) ∧
          last (settings accept (take (S i) reqs)) = settings accept reqs !! i) as [[enc He] Hl].
  { clear new. revert accept i Hi. induction reqs as [|r reqs IH]; intros accept [|i] Hi; simplify_eq/=.
    - by eauto.
    - destruct (IH (default accept (config_get slot (req_ext r))) i Hi) as [[enc He] Hl].
      cbn [take settings]. rewrite He in *. split; [by eexists|].
      rewrite last_cons. cbn zeta. by rewrite Hl. }
  eexists _, enc, _. split; [done|]. rewrite Hl, He. split_and!; [|done|].
  - apply lookup_zip_with_Some. eexists enc, _.
    rewrite list_lookup_fmap, Hi. by split_and!.
  - destruct (config_get slot (req_ext req)); apply range_identity_safe.
Qed.
End decoder.

(** ** Examples *)
Module DecoderExamples.
Definition Ext : Type := option (RequestConfig AcceptEncoding).
Definition own_slot : Slot Ext (RequestConfig AcceptEncoding) :=
  {| sl_get e := e; sl_set v _ := v; sl_get_set v e := eq_refl |}.
Definition download (own : Ext) : Request Ext unit :=
  {| req_method := GET;
     req_uri := {| uri_scheme := Some HTTPS; uri_authority := None; uri_path_and_query := None |};
     req_version := HTTP_11;
     req_headers := hm_insert RANGE {| hv_bytes := #"bytes=0-9"; hv_sensitive := false |} hm_empty;
     req_ext := own; req_body := tt |}.
Definition plain_only : AcceptEncoding :=
  {| ae_gzip := false; ae_brotli := false; ae_zstd := false; ae_deflate := false |}.

(** The settings of the first request are still those of the second. *)
Lemma decoding_spec_witness :
  ∃ calls enc req',
    decompression_calls own_slot (decompression_layer plain_only AcceptEncoding_default)
      [download (Some (Some plain_only)); download None] = Some calls ∧
    calls !! 1 = Some (enc, req') ∧ enc = plain_only ∧
    hm_get_all (req_headers req') ACCEPT_ENCODING = [identity_value].
Proof.
  destruct (decoding_spec own_slot plain_only AcceptEncoding_default
    [download (Some (Some plain_only)); download None] 1 (download None) eq_refl)
    as (calls & enc & req' & Hc & Hi & Hl & Hr).
  exists calls, enc, req'. split_and!; [done|done|by simplify_eq/=|].
  rewrite (rs_headers _ _ _ Hr). reflexivity.
Defined.
End DecoderExamples.
