(* ===== verification/Header.v ===== *)
(** * Header order and spelling

    [src/header.rs]: the map of original header names, and the two callbacks
    that put the headers of a request in its order ([call], for HTTP/2) or
    write them with its spelling ([call_visit], for HTTP/1). *)

From S2P Require Import Prelude Http Ext Message.

Section header.
Context `{HM : HeaderMapLib, HN : HeaderNameLib}.

(** ** Data *)

(** [HeaderCaseName] with its [Repr]. *)
Inductive HeaderCaseName :=
| Cased (bytes : str)
| Standard (name : HeaderName).

Definition case_as_ref (c : HeaderCaseName) : str :=
  match c with Cased orig => orig | Standard name => name end.

Definition OrigHeaderMap : Type := HeaderMap HeaderCaseName.
Implicit Types (self : OrigHeaderMap) (headers : HeaderMap HeaderValue).

(** ** Operations *)
Definition OrigHeaderMap_new : OrigHeaderMap := hm_empty.

(** [HeaderMap::append] also says whether the name was present. *)
Definition orig_append (n : HeaderName) (c : HeaderCaseName) self : bool * OrigHeaderMap :=
  (hm_contains_key self n, hm_append n c self).

Definition orig_insert (orig : HeaderCaseName) self : bool * OrigHeaderMap :=
  match orig with
  | Cased bytes =>
    match header_name_from_bytes bytes with
    | Some header_name => orig_append header_name orig self
    | None => (false, self)
    end
  | Standard header_name => orig_append header_name orig self
  end.

Definition orig_extend self (iter : OrigHeaderMap) : OrigHeaderMap := hm_extend self iter.
Definition orig_is_empty self : bool := bool_decide (hm_len self = 0).

(** [call]: the two loops over the ordered names and over what is left. *)
Definition sort_step (st : HeaderMap HeaderValue * HeaderMap HeaderValue) (name : HeaderName) :
    HeaderMap HeaderValue * HeaderMap HeaderValue :=
  (foldl (λ sorted value, hm_append name value sorted) st.1 (hm_get_all st.2 name),
   hm_remove name st.2).
Definition call self headers : HeaderMap HeaderValue :=
  if bool_decide (hm_len headers <= 1) || orig_is_empty self then headers
  else
    let '(sorted_headers, headers) := foldl sort_step (hm_empty, headers) (hm_keys self) in
    (foldl replace_step (sorted_headers, None) (hm_into_iter headers)).1.

(** [call_visit]: the calls of [dst] in order, and the headers left. *)
Abbreviation line := (str * HeaderValue)%type.
Definition visit_step (st : list line * HeaderMap HeaderValue) (e : HeaderName * HeaderCaseName) :
    list line * HeaderMap HeaderValue :=
  (st.1 ++ ((case_as_ref e.2,.) <$> hm_get_all st.2 e.1), hm_remove e.1 st.2).
Definition drain_step (st : list line * option HeaderCaseName) (item : option HeaderName * HeaderValue) :
    list line * option HeaderCaseName :=
  match item.1, st.2 with
  | Some name, _ => (st.1 ++ [(name, item.2)], Some (Standard name))
  | None, Some prev_name => (st.1 ++ [(case_as_ref prev_name, item.2)], st.2)
  | None, None => st
  end.
Definition call_visit self headers : list line :=
  let '(out, headers) := foldl visit_step ([], headers) (hm_iter self) in
  (foldl drain_step (out, None) (hm_into_iter headers)).1.

(** ** Facts *)

(** Every spelling is stored under its name. *)
Definition orig_wf self : Prop :=
  ∀ n c, c ∈ hm_get_all self n → to_ascii_lowercase (case_as_ref c) = n.
Definition case_wf (c : HeaderCaseName) : Prop :=
  match c with Cased _ => True | Standard n => to_ascii_lowercase n = n end.

Lemma orig_insert_wf c self : orig_wf self → case_wf c → orig_wf (orig_insert c self).2.
Proof.
  intros Hwf Hc. unfold orig_insert, orig_append.
  assert (∀ n, to_ascii_lowercase (case_as_ref c) = n → orig_wf (hm_append n c self)) as Happ.
  { intros n Hn n' c'. rewrite hm_get_all_append. case_decide; subst; [|by apply Hwf].
    rewrite elem_of_app. intros [?|?%list_elem_of_singleton]; [by apply Hwf | by subst]. }
  destruct c as [b|n]; simpl; [|by apply Happ].
  destruct (header_name_from_bytes b) as [n|] eqn:E; [|done].
  apply Happ. simpl. by apply header_name_lower in E as ->.
Qed.

Lemma orig_extend_wf self iter : orig_wf self → orig_wf iter → orig_wf (orig_extend self iter).
Proof.
  intros H1 H2 n c. unfold orig_extend. rewrite hm_get_all_extend.
  case_decide; [apply H1 | apply H2].
Qed.

Lemma get_all_append_list name (vs : list HeaderValue) m n :
  hm_get_all (foldl (λ m v, hm_append name v m) m vs) n =
  if decide (n = name) then hm_get_all m name ++ vs else hm_get_all m n.
Proof.
  revert m. induction vs as [|v vs IH]; intros m; simpl.
  - case_decide; subst; by rewrite ?app_nil_r.
  - rewrite IH, !hm_get_all_append. repeat case_decide; simplify_eq; by rewrite <- ?app_assoc.
Qed.

Lemma sort_steps names sorted headers n :
  NoDup names →
  let '(sorted', headers') := foldl sort_step (sorted, headers) names in
  hm_get_all sorted' n = hm_get_all sorted n ++ (if decide (n ∈ names) then hm_get_all headers n else []) ∧
  hm_get_all headers' n = if decide (n ∈ names) then [] else hm_get_all headers n.
Proof.
  revert sorted headers. induction names as [|name names IH]; intros sorted headers Hnd.
  { simpl. by rewrite app_nil_r. }
  apply NoDup_cons in Hnd as [Hn Hnd]. cbn [foldl].
  pose proof (IH (foldl (λ s v, hm_append name v s) sorted (hm_get_all headers name))
    (hm_remove name headers) Hnd) as H. unfold sort_step at 2. simpl fst; simpl snd.
  destruct (foldl sort_step _ names) as [sorted' headers']. destruct H as [-> ->].
  rewrite get_all_append_list, hm_get_all_remove.
  destruct (decide (n = name)) as [->|Hne].
  - rewrite !(decide_False (P:=name ∈ names)) by done.
    rewrite !(decide_True (P:=name ∈ name :: names)) by set_solver. by rewrite app_nil_r.
  - destruct (decide (n ∈ names)).
    + by rewrite !(decide_True (P:=n ∈ name :: names)) by set_solver.
    + by rewrite !(decide_False (P:=n ∈ name :: names)) by set_solver.
Qed.

Lemma call_get_all self headers n : hm_get_all (call self headers) n = hm_get_all headers n.
Proof.
  unfold call. destruct (_ || _); [done|].
  pose proof (sort_steps (hm_keys self) hm_empty headers n (hm_groups_NoDup self)) as H.
  destruct (foldl sort_step _ _) as [sorted headers'] eqn:E. destruct H as [Hs Hh].
  rewrite hm_get_all_empty in Hs. simpl in Hs.
  change (foldl replace_step (sorted, None) (hm_into_iter headers')).1
    with (replace_headers sorted headers').
  rewrite replace_headers_get_all, Hs, Hh. repeat case_decide; congruence.
Qed.

(** *** Writing the headers *)

(** The lines written for a group of spellings, and for a group of values. *)
Definition spelled headers (g : HeaderName * list HeaderCaseName) : list line :=
  match g.2 with [] => [] | c :: _ => (case_as_ref c,.) <$> hm_get_all headers g.1 end.
Definition plain (g : HeaderName * list HeaderValue) : list line := (g.1,.) <$> g.2.

Lemma visit_absent out headers n cs :
  hm_get_all headers n = [] →
  let '(out', headers') := foldl visit_step (out, headers) ((n,.) <$> cs) in
  out' = out ∧ ∀ m, hm_get_all headers' m = hm_get_all headers m.
Proof.
  revert headers. induction cs as [|c cs IH]; intros headers Hn; simpl; [done|].
  pose proof (IH (hm_remove n headers)) as H. unfold visit_step at 2. simpl. rewrite Hn. simpl.
  rewrite app_nil_r. destruct (foldl visit_step _ _) as [out' headers'].
  destruct H as [-> H]; [by rewrite hm_get_all_remove, decide_True|]. split; [done|].
  intros m. rewrite H, hm_get_all_remove. case_decide; congruence.
Qed.

Lemma visit_group out headers n cs :
  cs ≠ [] →
  let '(out', headers') := foldl visit_step (out, headers) ((n,.) <$> cs) in
  out' = out ++ spelled headers (n, cs) ∧
  ∀ m, hm_get_all headers' m = if decide (m = n) then [] else hm_get_all headers m.
Proof.
  destruct cs as [|c cs]; [done|]. intros _. cbn [fmap list_fmap foldl].
  pose proof (visit_absent (out ++ spelled headers (n, c :: cs)) (hm_remove n headers) n cs) as H.
  change (visit_step (out, headers) (n, c))
    with (out ++ spelled headers (n, c :: cs), hm_remove n headers).
  destruct (foldl visit_step _ _) as [out' headers'].
  destruct H as [-> H]; [by rewrite hm_get_all_remove, decide_True|]. split; [done|].
  intros m. by rewrite H, hm_get_all_remove.
Qed.

Lemma visit_groups (gs : list (HeaderName * list HeaderCaseName)) out headers :
  NoDup gs.*1 → Forall (λ g, g.2 ≠ []) gs →
  let '(out', headers') := foldl visit_step (out, headers) (gs ≫= λ '(n, cs), (n,.) <$> cs) in
  out' = out ++ (gs ≫= spelled headers) ∧
  ∀ m, hm_get_all headers' m = if decide (m ∈ gs.*1) then [] else hm_get_all headers m.
Proof.
  revert out headers. induction gs as [|[n cs] gs IH]; intros out headers Hnd Hne.
  { simpl. by rewrite app_nil_r. }
  apply NoDup_cons in Hnd as [Hn Hnd]. apply Forall_cons in Hne as [Hcs Hne].
  rewrite !bind_cons, foldl_app. pose proof (visit_group out headers n cs Hcs) as H1.
  destruct (foldl visit_step (out, headers) _) as [out1 headers1]. destruct H1 as [-> H1].
  pose proof (IH (out ++ spelled headers (n, cs)) headers1 Hnd Hne) as H2.
  destruct (foldl visit_step _ _) as [out2 headers2]. destruct H2 as [-> H2]. split.
  - rewrite <- app_assoc. do 2 f_equal. apply list_bind_ext_in.
    intros [m cs'] Hm. unfold spelled. simpl. destruct cs' as [|c cs']; [done|].
    rewrite H1, decide_False; [done|]. intros ->. destruct Hn. apply list_elem_of_fmap.
    by exists (n, c :: cs').
  - intros m. rewrite H2, H1. cbn [fmap list_fmap fst]. repeat case_decide; set_solver.
Qed.

Lemma drain_groups (gs : list (HeaderName * list HeaderValue)) out prev :
  Forall (λ g, g.2 ≠ []) gs →
  (foldl drain_step (out, prev) (gs ≫= group_items)).1 = out ++ (gs ≫= plain).
Proof.
  assert (∀ n vs out, foldl drain_step (out, Some (Standard n)) ((None,.) <$> vs) =
    (out ++ plain (n, vs), Some (Standard n))) as Hvs.
  { intros n vs. induction vs as [|v vs IH]; intros out'; simpl; [by rewrite app_nil_r|].
    unfold drain_step at 2. simpl. rewrite IH. unfold plain. simpl. by rewrite <- app_assoc. }
  revert out prev. induction gs as [|[n vs] gs IH]; intros out prev Hne.
  { simpl. by rewrite app_nil_r. }
  apply Forall_cons in Hne as [Hv Hne]. rewrite !bind_cons, foldl_app.
  destruct vs as [|v vs]; [done|]. cbn [group_items foldl].
  unfold drain_step at 3. simpl fst; simpl snd. rewrite Hvs, IH by done.
  unfold plain at 2 3. simpl. by rewrite <- !app_assoc.
Qed.

Lemma call_visit_groups self headers :
  ∃ left_over, (∀ n, hm_get_all left_over n =
                 if decide (n ∈ hm_keys self) then [] else hm_get_all headers n) ∧
  call_visit self headers =
    (hm_groups self ≫= spelled headers) ++ (hm_groups left_over ≫= plain).
Proof.
  assert (∀ V (m : HeaderMap V), Forall (λ g, g.2 ≠ []) (hm_groups m)) as Hne.
  { intros V m. apply Forall_forall. intros [n vs] [_ Hg]%hm_groups_spec. done. }
  unfold call_visit. pose proof (visit_groups (hm_groups self) [] headers
    (hm_groups_NoDup self) (Hne _ _)) as H. fold (hm_iter self) in H.
  destruct (foldl visit_step _ _) as [out headers'] eqn:E. destruct H as [-> H].
  exists headers'. split; [done|]. unfold hm_into_iter. by rewrite drain_groups.
Qed.

(** In a list of groups with distinct names, the lines of one name are the
    lines of its group. *)
Lemma filter_groups {X} (f : HeaderName * X → list line) gs n :
  NoDup gs.*1 → (∀ g l, g ∈ gs → l ∈ f g → to_ascii_lowercase l.1 = g.1) →
  filter (λ l, to_ascii_lowercase l.1 = n) (gs ≫= f) =
  match list_find (λ g, g.1 = n) gs with Some (_, g) => f g | None => [] end.
Proof.
  induction gs as [|g gs IH]; intros Hnd Hf; [done|].
  apply NoDup_cons in Hnd as [Hn Hnd]. rewrite bind_cons, filter_app.
  rewrite IH by set_solver. simpl. destruct (decide (g.1 = n)) as [<-|Hne].
  - rewrite list_filter_all by (apply Forall_forall; intros l Hl; apply Hf; set_solver).
    assert (list_find (λ g', g'.1 = g.1) gs = None) as ->; [|by rewrite app_nil_r].
    apply list_find_None, Forall_forall. intros g' Hg' Heq. destruct Hn.
    rewrite <- Heq. by apply list_elem_of_fmap_2.
  - rewrite list_filter_none; [by destruct (list_find _ gs) as [[]|]|].
    apply Forall_forall. intros l Hl Heq. destruct Hne. rewrite <- Heq.
    symmetry. apply Hf; set_solver.
Qed.

Lemma find_group {V} (m : HeaderMap V) n :
  match list_find (λ g, g.1 = n) (hm_groups m) with
  | Some (_, g) => g = (n, hm_get_all m n) ∧ hm_get_all m n ≠ []
  | None => hm_get_all m n = []
  end.
Proof.
  destruct (list_find _ _) as [[i [n' vs]]|] eqn:Hf.
  - apply list_find_Some in Hf as (Hi & Heq & _). simpl in Heq. subst n'.
    by apply list_elem_of_lookup_2, hm_groups_spec in Hi as [-> ?].
  - apply list_find_None in Hf. destruct (decide (hm_get_all m n = [])) as [|Hne]; [done|].
    rewrite Forall_forall in Hf. destruct (Hf (n, hm_get_all m n)); [|done].
    by apply hm_groups_spec.
Qed.

(** C37: putting the headers of a request in the configured order and spelling
    loses, repeats and changes none of them.  The map [call] builds holds the
    same values for every name, in the same order.  [call_visit] writes first
    the lines of the configured names, in the configured order and with the
    first spelling given for each, and then the lines of the other names; for
    every name, the lines written under any spelling of it carry exactly the
    values the request has for it, in their order. *)
Theorem header_order_complete self headers :
  orig_wf self → (∀ n, hm_get_all headers n ≠ [] → to_ascii_lowercase n = n) →
  hm_equiv (call self headers) headers ∧
  (∃ rest, call_visit self headers = (hm_groups self ≫= spelled headers) ++ rest ∧
     ∀ l, l ∈ rest → l.1 ∉ hm_keys self) ∧
  ∀ n, (filter (λ l, to_ascii_lowercase l.1 = n) (call_visit self headers)).*2 =
       hm_get_all headers n.
Proof.
  intros Hwf Hlow. split; [intros n; apply call_get_all|].
  destruct (call_visit_groups self headers) as (left_over & Hl & Hv). rewrite Hv.
  assert (∀ g l, g ∈ hm_groups left_over → l ∈ plain g →
    l.1 = g.1 ∧ g.1 ∉ hm_keys self ∧ to_ascii_lowercase g.1 = g.1) as Hplain.
  { intros [n vs] l [-> Hne]%hm_groups_spec (v & -> & Hin)%list_elem_of_fmap.
    rewrite Hl in Hne. case_decide; [done|]. split_and!; [done..|]. by apply Hlow. }
  split; [exists (hm_groups left_over ≫= plain); split; [done|]|].
  { intros l (g & Hin & Hg)%list_elem_of_bind. by destruct (Hplain g l) as (-> & ? & _). }
  intros n. rewrite filter_app, !filter_groups; try apply hm_groups_NoDup.
  - pose proof (find_group self n) as H1. pose proof (find_group left_over n) as H2.
    assert (n ∈ hm_keys self ↔ hm_get_all self n ≠ []) as Hk.
    { unfold hm_keys. rewrite list_elem_of_fmap. split.
      - intros ([n' vs] & -> & [-> ?]%hm_groups_spec). done.
      - intros Hne. exists (n, hm_get_all self n). split; [done|]. by apply hm_groups_spec. }
    rewrite Hl in H2. rewrite fmap_app.
    destruct (list_find _ (hm_groups self)) as [[i g1]|], (list_find _ (hm_groups left_over)) as [[j g2]|];
      repeat match goal with H : _ ∧ _ |- _ => destruct H end; simplify_eq/=;
      case_decide; try tauto; unfold spelled, plain; simpl; rewrite ?Hl, ?decide_False by tauto;
      rewrite ?app_nil_r; try done.
    + destruct (hm_get_all self n); [done|]. by rewrite <- list_fmap_compose, list_fmap_id.
    + by rewrite <- list_fmap_compose, list_fmap_id.
  - intros g l Hg Hin. by destruct (Hplain g l) as (-> & _ & ?).
  - intros [n' cs] l [-> Hne]%hm_groups_spec Hin. unfold spelled in Hin. simpl in Hin.
    destruct (hm_get_all self n') as [|c cs'] eqn:Ec; [done|].
    apply list_elem_of_fmap in Hin as (v & -> & _). simpl. apply Hwf. rewrite Ec. set_solver.
Qed.
End header.

Module HeaderExamples.
Definition value (s : str) : HeaderValue := {| hv_bytes := s; hv_sensitive := false |}.
Definition order : OrigHeaderMap :=
  (orig_insert (Cased #"User-Agent") (orig_insert (Cased #"Cookie") OrigHeaderMap_new).2).2.
Definition headers : HeaderMap HeaderValue :=
  hm_append #"cookie" (value #"b=2") (hm_append #"host" (value #"example.com")
    (hm_append #"cookie" (value #"a=1") hm_empty)).

Lemma header_order_complete_witness :
  (filter (λ l, to_ascii_lowercase l.1 = #"cookie") (call_visit order headers)).*2 =
    [value #"a=1"; value #"b=2"].
Proof.
  destruct (header_order_complete order headers) as (_ & _ & Hn).
  - apply orig_insert_wf; [apply orig_insert_wf|]; [|exact I..].
    intros n c. unfold OrigHeaderMap_new. rewrite hm_get_all_empty. by intros ?%elem_of_nil.
  - intros n. unfold headers. rewrite !hm_get_all_append, hm_get_all_empty.
    repeat case_decide; by subst.
  - rewrite Hn. reflexivity.
Defined.

Lemma call_visit_example :
  (λ l, l.1) <$> call_visit order headers = [ #"Cookie"; #"Cookie"; #"host"].
Proof. by vm_compute. Qed.
End HeaderExamples.
