(* ===== verification/Config.v ===== *)
(** * The configuration layer

    [src/client/layer/config.rs]: the outermost layer of a client.  It refuses
    requests whose scheme the client does not serve, merges the default headers
    of the client under the headers of the request, and hands the configured
    header order to the HTTP engine. *)

From S2P Require Import Prelude Http Ext Message Header.

Section config.
Context `{HM : HeaderMapLib, HN : HeaderNameLib} {E B : Type}.

(** The slots of the two settings a request can override, and
    [netty::ext::on_preserve_header], which records the order in the
    extensions of the request. *)
Context (orig_slot : Slot E (RequestConfig OrigHeaderMap)).
Context (default_slot : Slot E (RequestConfig bool)).
Context (on_preserve_header : OrigHeaderMap → E → E).

Record Config := {
  cfg_https_only : bool;
  cfg_headers : HeaderMap HeaderValue;
  cfg_orig_headers : RequestConfig OrigHeaderMap;
  cfg_default_headers : RequestConfig bool;
}.

(** [Error::uri_bad_scheme]. *)
Inductive ConfigError := BadScheme (u : Uri).

Definition ConfigServiceLayer_new (https_only : bool) (headers : HeaderMap HeaderValue)
    (orig_headers : OrigHeaderMap) : Config :=
  {| cfg_https_only := https_only; cfg_headers := headers;
     cfg_orig_headers := if orig_is_empty orig_headers then None else Some orig_headers;
     cfg_default_headers := Some true |}.

(** The call of the service: an error, or the request given to the service
    below. *)
Definition config_call (self : Config) (req : Request E B) : result (Request E B) ConfigError :=
  let uri := req_uri req in
  if negb (is_http uri || is_https uri) || (cfg_https_only self && negb (is_https uri))
  then Err (BadScheme uri)
  else
    let req :=
      if default false (fetch default_slot (cfg_default_headers self) (req_ext req))
      then set_headers (replace_headers (cfg_headers self) (req_headers req)) req
      else req in
    let '(orig_headers, ext) := take_config orig_slot (cfg_orig_headers self) (req_ext req) in
    Ok (set_ext (match orig_headers with
                 | Some orig_headers => on_preserve_header orig_headers ext
                 | None => ext
                 end) req).

(** The configuration layer.  A request is refused exactly when its scheme
    is neither HTTP nor HTTPS, or is not HTTPS in a client restricted to it.
    Otherwise the request goes on with its method, URI, version and body; its
    own header values win over the defaults of the client name by name, a name
    it does not have takes the defaults, and a request that opts out of the
    defaults keeps exactly its own headers; the header order of the request,
    or else that of the client, is handed on once. *)
Theorem config_call_spec self req :
  match config_call self req with
  | Err e =>
    e = BadScheme (req_uri req) ∧
    (is_http (req_uri req) = false ∧ is_https (req_uri req) = false ∨
     cfg_https_only self = true ∧ is_https (req_uri req) = false)
  | Ok req' =>
    (is_https (req_uri req) = true ∨ is_http (req_uri req) = true ∧ cfg_https_only self = false) ∧
    req_uri req' = req_uri req ∧ req_method req' = req_method req ∧
    req_version req' = req_version req ∧ req_body req' = req_body req ∧
    (∀ n, hm_get_all (req_headers req') n =
       if default false (fetch default_slot (cfg_default_headers self) (req_ext req))
       then if decide (hm_get_all (req_headers req) n = [])
            then hm_get_all (cfg_headers self) n else hm_get_all (req_headers req) n
       else hm_get_all (req_headers req) n) ∧
    req_ext req' =
      match default (cfg_orig_headers self) (sl_get orig_slot (req_ext req)) with
      | Some order => on_preserve_header order (sl_set orig_slot None (req_ext req))
      | None => sl_set orig_slot None (req_ext req)
      end
  end.
Proof.
  unfold config_call.
  destruct (is_http (req_uri req)) eqn:Hh, (is_https (req_uri req)) eqn:Hs,
    (cfg_https_only self) eqn:Ho; cbn [negb orb andb]; try (split; [done|]; auto; fail);
    destruct (default false _) eqn:Hd; simpl; split_and!; auto;
    intros n; by rewrite ?replace_headers_get_all.
Qed.
End config.
