(* ===== verification/Multipart.v ===== *)
(** * Multipart forms

    [src/client/multipart.rs]: the encoding of a form, its predicted length and
    its boundary, and [RequestBuilder::multipart] of [src/client/request.rs].
    The data of a part is the sequence of chunks and errors its body yields.
    [form_roundtrip] compares the encoding with a receiver, [parse_form], that
    follows RFC 2046. *)

From S2P Require Import Prelude Http Errors Ext Message.

(** ** Data *)
Section multipart.
Context `{HM : HeaderMapLib, HV : HeaderValueLib, PL : PercentLib}.

(** [mime_guess::Mime] is known by its text. *)
Record PartMetadata := {
  pm_mime : option str;
  pm_file_name : option str;
  pm_headers : HeaderMap HeaderValue;
}.
Record Part := {
  part_meta : PartMetadata;
  part_value : Body;
  part_body_length : option Z;
}.
Inductive PercentEncoding := PathSegment | AttrChar | NoOp.
Record Form := {
  form_boundary : str;
  computed_headers : list str;
  form_fields : list (str * Part);
  percent_encoding : PercentEncoding;
}.

(** ** Building *)
Definition with_boundary (boundary : str) : Form :=
  {| form_boundary := boundary; computed_headers := []; form_fields := [];
     percent_encoding := PathSegment |}.
Definition add_part (name : str) (part : Part) (self : Form) : Form :=
  {| form_boundary := form_boundary self; computed_headers := computed_headers self;
     form_fields := form_fields self ++ [(name, part)];
     percent_encoding := percent_encoding self |}.
Definition set_encoding (e : PercentEncoding) (self : Form) : Form :=
  {| form_boundary := form_boundary self; computed_headers := computed_headers self;
     form_fields := form_fields self; percent_encoding := e |}.

Definition PartMetadata_new : PartMetadata :=
  {| pm_mime := None; pm_file_name := None; pm_headers := hm_empty |}.
Definition Part_new (value : Body) (body_length : option Z) : Part :=
  {| part_meta := PartMetadata_new; part_value := value; part_body_length := body_length |}.
Definition Part_text (value : str) : Part := Part_new (Reusable value) None.
Definition Part_bytes (value : str) : Part := Part_new (Reusable value) None.
Definition Part_stream (value : Body) : Part := Part_new value None.
Definition Part_stream_with_length (value : Body) (length : Z) : Part := Part_new value (Some length).
Definition form_text (name value : str) : Form → Form := add_part name (Part_text value).

Definition with_inner (func : PartMetadata → PartMetadata) (self : Part) : Part :=
  {| part_meta := func (part_meta self); part_value := part_value self;
     part_body_length := part_body_length self |}.
Definition part_mime (mime : str) : Part → Part :=
  with_inner (λ m, {| pm_mime := Some mime; pm_file_name := pm_file_name m;
                      pm_headers := pm_headers m |}).
Definition part_file_name (filename : str) : Part → Part :=
  with_inner (λ m, {| pm_mime := pm_mime m; pm_file_name := Some filename;
                      pm_headers := pm_headers m |}).
Definition part_headers (headers : HeaderMap HeaderValue) : Part → Part :=
  with_inner (λ m, {| pm_mime := pm_mime m; pm_file_name := pm_file_name m;
                      pm_headers := headers |}).

(** [mime_str], with the parser of media types. *)
Definition part_mime_str (parse : str → result str BoxError) (mime : str) (self : Part) :
    result Part BoxError :=
  mime ←? map_err Error_builder (parse mime) ; Ok (part_mime mime self).

(** [Path::extension], of the file name of a path: what follows its last dot,
    unless the name starts with that dot. *)
Definition path_extension (file_name : str) : option str :=
  if decide (file_name = #"..") then None
  else match rsplit_once "."%char file_name with
       | Some (_ :: _, ext) => Some ext
       | _ => None
       end.
(** [Part::file] and [Form::file]: a path by its last component, with the
    guesses of [mime_guess] and what opening the file and asking for its length
    gives. *)
Definition Part_file (mime_from_ext : str → str) (file_name : option str) (file : result Body BoxError)
    (metadata : result Z BoxError) : result Part BoxError :=
  let ext := default [] (name ← file_name; ext ← path_extension name; from_utf8 ext) in
  let mime := mime_from_ext ext in
  file ←? file ;
  let field := part_mime mime (match metadata with
                               | Ok len => Part_stream_with_length file len
                               | Err _ => Part_stream file
                               end) in
  Ok (match file_name with
      | Some file_name => part_file_name (from_utf8_lossy file_name) field
      | None => field
      end).
Definition form_file (mime_from_ext : str → str) (name : str) (file_name : option str)
    (file : result Body BoxError) (metadata : result Z BoxError) (self : Form) : result Form BoxError :=
  part ←? Part_file mime_from_ext file_name file metadata ; Ok (add_part name part self).

Definition value_len (self : Part) : option Z :=
  match part_body_length self with Some l => Some l | None => content_length (part_value self) end.

(** ** Encoding *)
Definition FRAGMENT_ENCODE_SET : ascii → bool :=
  set_add "`" (set_add ">" (set_add "<" (set_add (chr 34) (set_add " " CONTROLS)))).
Definition PATH_ENCODE_SET : ascii → bool :=
  set_add "}" (set_add "{" (set_add "?" (set_add "#" FRAGMENT_ENCODE_SET))).
Definition PATH_SEGMENT_ENCODE_SET : ascii → bool := set_add "%" (set_add "/" PATH_ENCODE_SET).
Definition ATTR_CHAR_ENCODE_SET : ascii → bool :=
  foldl (λ set c, set_remove c set) NON_ALPHANUMERIC
    ["!"%char; "#"%char; "$"%char; "&"%char; "+"%char; "-"%char; "."%char; "^"%char; "_"%char;
     "`"%char; "|"%char; "~"%char].

(** Whether the crate returns an encoded text in a new string
    ([Cow::Owned]). *)
Context (owned : (ascii → bool) → str → bool).

Definition percent_encode (self : PercentEncoding) (value : str) : bool * str :=
  match self with
  | PathSegment => (owned PATH_SEGMENT_ENCODE_SET value,
                    utf8_percent_encode PATH_SEGMENT_ENCODE_SET value)
  | AttrChar => (owned ATTR_CHAR_ENCODE_SET value, utf8_percent_encode ATTR_CHAR_ENCODE_SET value)
  | NoOp => (false, value)
  end.

(** [str::replace] of a character. *)
Definition replace_char (c : ascii) (by_ s : str) : str :=
  s ≫= λ x, if decide (x = c) then by_ else [x].
Definition QUOTE : ascii := chr 34.
Definition BACKSLASH : ascii := chr 92.

Definition legal_filename (filename : str) : str :=
  replace_char LF [BACKSLASH; LF] (replace_char CR [BACKSLASH; CR]
    (replace_char QUOTE [BACKSLASH; QUOTE] (replace_char BACKSLASH [BACKSLASH; BACKSLASH] filename))).

(** The first line of the headers of a part, and the further ones. *)
Definition disposition (self : PercentEncoding) (name : str) (field : PartMetadata) : str :=
  #"Content-Disposition: form-data; " ++
  (match percent_encode self name with
   | (false, value) => #"name=" ++ [QUOTE] ++ value ++ [QUOTE]
   | (true, value) => #"name*=utf-8''" ++ value
   end) ++
  match pm_file_name field with
  | Some filename => #"; filename=" ++ [QUOTE] ++ legal_filename filename ++ [QUOTE]
  | None => []
  end.
Definition header_lines (field : PartMetadata) : list str :=
  (match pm_mime field with Some mime => [ #"Content-Type: " ++ mime] | None => [] end) ++
  ((λ '(k, v), k ++ #": " ++ hv_bytes v) <$> hm_iter (pm_headers field)).
Definition encode_headers (self : PercentEncoding) (name : str) (field : PartMetadata) : str :=
  disposition self name field ++ (header_lines field ≫= λ l, CRLF ++ l).

(** The items a body yields. *)
Abbreviation Items := (list (result str BoxError)).
Context (data_stream : Body → Items).

Definition part_stream (self : Form) (name : str) (part : Part) : Items :=
  [Ok (#"--" ++ form_boundary self ++ CRLF);
   Ok (encode_headers (percent_encoding self) name (part_meta part) ++ CRLF ++ CRLF)] ++
  data_stream (part_value part) ++ [Ok CRLF].

Definition into_stream (self : Form) : Items :=
  match form_fields self with
  | [] => []
  | (name, part) :: fields =>
    foldl (λ memo '(name, part), memo ++ part_stream self name part)
      (part_stream self name part) fields ++
    [Ok (#"--" ++ form_boundary self ++ #"--" ++ CRLF)]
  end.

(** [Form::stream]: the items of the body of the request. *)
Definition form_stream (self : Form) : Items :=
  match form_fields self with [] => [] | _ => into_stream self end.

(** [compute_length]; the additions are those of [u64].  The headers it caches
    are the second component. *)
Definition u64_add (a b : Z) : Z := u64_wrapping_add a b.
Definition field_length (self : Form) (name : str) (field : Part) (value_length : Z) : Z :=
  let header := encode_headers (percent_encoding self) name (part_meta field) in
  u64_add (u64_add (u64_add (u64_add (u64_add (u64_add 2 (Z.of_nat (length (form_boundary self)))) 2)
    (Z.of_nat (length header))) 4) value_length) 2.
Fixpoint fields_length (self : Form) (fields : list (str * Part)) (len : Z) (headers : list str) :
    option Z * list str :=
  match fields with
  | [] => (Some len, headers)
  | (name, field) :: fields =>
    match value_len field with
    | Some value_length =>
      fields_length self fields (u64_add len (field_length self name field value_length))
        (headers ++ [encode_headers (percent_encoding self) name (part_meta field)])
    | None => (None, headers)
    end
  end.
Definition compute_length (self : Form) : option Z * Form :=
  let '(len, headers) := fields_length self (form_fields self) 0 (computed_headers self) in
  ((λ len, match form_fields self with
           | [] => len
           | _ => u64_add len (u64_add (u64_add 2 (Z.of_nat (length (form_boundary self)))) 4)
           end) <$> len,
   {| form_boundary := form_boundary self; computed_headers := headers;
      form_fields := form_fields self; percent_encoding := percent_encoding self |}).

(** ** [RequestBuilder::multipart]

    The body of a request is known by its items. *)
Inductive BuilderError := InvalidHeaderValue | EarlierError.
Definition or_insert (n : HeaderName) (v : HeaderValue) (h : HeaderMap HeaderValue) :
    HeaderMap HeaderValue :=
  if hm_contains_key h n then h else hm_insert n v h.
Definition content_type_of (self : Form) : str :=
  #"multipart/form-data; boundary=" ++ form_boundary self.
Definition multipart {E} (form : Form) (request : BuilderError + Request E (option Items)) :
    BuilderError + Request E (option Items) :=
  match request with
  | inl err => inl err
  | inr req =>
    match from_maybe_shared (content_type_of form) with
    | Some content_type =>
      let headers := or_insert CONTENT_TYPE content_type (req_headers req) in
      let '(length, form) := compute_length form in
      let headers :=
        match length with
        | Some length =>
          or_insert CONTENT_LENGTH {| hv_bytes := decimal length; hv_sensitive := false |} headers
        | None => headers
        end in
      inr (with_body (Some (form_stream form)) (set_headers headers req))
    | None => inl InvalidHeaderValue
    end
  end.
End multipart.
Abbreviation Items := (list (result str BoxError)).

(** ** Boundaries

    [gen_boundary], from the two random numbers it draws.  An index out of the
    table and the final assertion panic. *)
Definition ALPHA_NUMERIC_ENCODING_MAP : str :=
  ((λ n, chr (65 + N.of_nat n)) <$> seq 0 26) ++ ((λ n, chr (97 + N.of_nat n)) <$> seq 0 26) ++
  ((λ n, chr (48 + N.of_nat n)) <$> seq 0 10) ++ ["A"%char; "B"%char].
Fixpoint boundary_chars (n : nat) (randomness : Z) (boundary : str) : option str :=
  match n with
  | 0 => Some boundary
  | S n =>
    c ← ALPHA_NUMERIC_ENCODING_MAP !! Z.to_nat (Z.land randomness 63);
    boundary_chars n (Z.shiftr randomness 6) (boundary ++ [c])
  end.
Definition gen_boundary (r1 r2 : Z) : option str :=
  boundary ← boundary_chars 8 r1 #"----WebKitFormBoundary";
  boundary ← boundary_chars 8 r2 boundary;
  if decide (length boundary = 38) then Some boundary else None.

(** ** The receiver

    A receiver of [multipart/form-data] (RFC 2046, section 5.1.1): the text
    between two delimiters is a part, whose headers end at the first empty
    line. *)
Fixpoint split_at (sep s : str) : option (str * str) :=
  match strip_prefix sep s with
  | Some rest => Some ([], rest)
  | None =>
    match s with
    | [] => None
    | c :: s => '(a, b) ← split_at sep s; Some (c :: a, b)
    end
  end.
Definition delimiter (boundary : str) : str := CRLF ++ #"--" ++ boundary.
Fixpoint parse_parts (fuel : nat) (boundary s : str) : option (list (str * str)) :=
  match fuel with
  | 0 => None
  | S fuel =>
    match strip_prefix #"--" s with
    | Some _ => Some []
    | None =>
      s ← strip_prefix CRLF s;
      '(text, rest) ← split_at (delimiter boundary) s;
      part ← split_at (CRLF ++ CRLF) text;
      parts ← parse_parts fuel boundary rest;
      Some (part :: parts)
    end
  end.
Definition parse_form (boundary s : str) : option (list (str * str)) :=
  s ← strip_prefix (#"--" ++ boundary) s;
  parse_parts (S (length s)) boundary s.

(** ** Splitting *)
Lemma strip_prefix_app p s : strip_prefix p (p ++ s) = Some s.
Proof. by apply strip_prefix_Some. Qed.

Lemma strip_prefix_ne c d p s : c ≠ d → strip_prefix (c :: p) (d :: s) = None.
Proof.
  intros Hne. apply eq_None_not_Some. intros [k Hk%strip_prefix_Some]. naive_solver.
Qed.

Lemma contains_cons p c s : contains p (c :: s) = false → contains p s = false.
Proof. cbn [contains]. by intros [_ ?]%orb_false_iff. Qed.

Lemma contains_prefix p s k : contains p s = false → s ≠ p ++ k.
Proof.
  intros Hc ->. destruct (p ++ k) eqn:E; cbn [contains] in Hc;
    apply orb_false_iff in Hc as [Hc _]; rewrite <-E in Hc;
    apply not_true_iff_false in Hc; apply Hc, starts_with_true; eauto.
Qed.

(** A separator whose first byte does not come again in it is found where it
    was put. *)
Lemma split_at_app c p text rest :
  c ∉ p → contains (c :: p) text = false →
  split_at (c :: p) (text ++ (c :: p) ++ rest) = Some (text, rest).
Proof.
  intros Hc. induction text as [|x text IH]; intros Ht.
  - change ([] ++ ?l) with l. destruct ((c :: p) ++ rest) eqn:E; [done|].
    cbn [split_at]. by rewrite <-E, strip_prefix_app.
  - change ((x :: text) ++ ?l) with (x :: text ++ l). cbn [split_at].
    destruct (strip_prefix _ _) as [k|] eqn:E.
    + apply strip_prefix_Some in E. exfalso.
      change (x :: text ++ (c :: p) ++ rest) with ((x :: text) ++ (c :: p) ++ rest) in E.
      apply app_eq_app in E as [l [[E1 E2]|[E1 E2]]].
      * by eapply contains_prefix in E1.
      * destruct l as [|y l]; [apply (contains_prefix _ _ [] Ht); by rewrite !app_nil_r in *|].
        simplify_list_eq. apply Hc. rewrite elem_of_app. right. left.
    + by rewrite IH by eauto using contains_cons.
Qed.

(** Inside a line without [CRLF] no empty line begins. *)
Lemma no_blank_in_line x l rest :
  contains CRLF (x :: l) = false →
  strip_prefix (CRLF ++ CRLF) ((x :: l) ++ CRLF ++ rest) = None.
Proof.
  intros Hl. apply eq_None_not_Some. intros [k Hk%strip_prefix_Some].
  destruct l as [|y l]; simpl in Hk; [by simplify_eq|].
  injection Hk as -> -> _. by apply (contains_prefix CRLF _ l) in Hl.
Qed.

Lemma split_blank_last l data :
  contains CRLF l = false →
  split_at (CRLF ++ CRLF) (l ++ CRLF ++ CRLF ++ data) = Some (l, data).
Proof.
  induction l as [|x l IH]; intros Hl.
  - change ([] ++ ?s) with s. rewrite app_assoc.
    destruct ((CRLF ++ CRLF) ++ data) eqn:E; [done|].
    cbn [split_at]. by rewrite <-E, strip_prefix_app.
  - pose proof (no_blank_in_line x l (CRLF ++ data) Hl) as Hn.
    change ((x :: l) ++ ?s) with (x :: l ++ s) in *. cbn [split_at]. rewrite Hn.
    by rewrite IH by eauto using contains_cons.
Qed.

Lemma split_blank_line l rest :
  contains CRLF l = false → starts_with CRLF rest = false →
  split_at (CRLF ++ CRLF) (l ++ CRLF ++ rest) =
  '(a, b) ← split_at (CRLF ++ CRLF) rest; Some (l ++ CRLF ++ a, b).
Proof.
  intros Hl Hr. induction l as [|x l IH].
  - change ([] ++ ?s) with s. change (CRLF ++ rest) with (CR :: LF :: rest). cbn [split_at].
    replace (strip_prefix (CRLF ++ CRLF) (CR :: LF :: rest)) with (@None str).
    2: { symmetry. apply eq_None_not_Some. intros [k Hk%strip_prefix_Some].
         apply not_true_iff_false in Hr. apply Hr, starts_with_true. exists k.
         by injection Hk. }
    replace (strip_prefix (CRLF ++ CRLF) (LF :: rest)) with (@None str)
      by (symmetry; by apply (strip_prefix_ne CR LF)).
    by destruct (split_at _ rest) as [[]|].
  - pose proof (no_blank_in_line x l rest Hl) as Hn.
    change ((x :: l) ++ ?s) with (x :: l ++ s) in *. cbn [split_at]. rewrite Hn.
    rewrite IH by eauto using contains_cons. by destruct (split_at _ rest) as [[]|].
Qed.

Lemma line_not_crlf l rest :
  l ≠ [] → contains CRLF l = false → starts_with CRLF (l ++ CRLF ++ rest) = false.
Proof.
  intros Hne Hl. apply not_true_iff_false. intros [k Hk]%starts_with_true.
  destruct l as [|x [|y l]]; [done|by simplify_eq/=|].
  simpl in Hk. injection Hk as -> -> _. by apply (contains_prefix CRLF _ l) in Hl.
Qed.

(** Lines that are not empty and hold no [CRLF] end where the empty line
    follows. *)
Lemma split_headers l ls data :
  contains CRLF l = false → Forall (λ l, l ≠ [] ∧ contains CRLF l = false) ls →
  split_at (CRLF ++ CRLF) ((l ++ (ls ≫= λ l, CRLF ++ l)) ++ CRLF ++ CRLF ++ data) =
  Some (l ++ (ls ≫= λ l, CRLF ++ l), data).
Proof.
  intros Hl Hls. revert l Hl. induction Hls as [|l' ls [Hne Hl'] Hls IH]; intros l Hl.
  - cbn [mbind list_bind]. rewrite app_nil_r. by apply split_blank_last.
  - change (((l' :: ls) ≫= λ l, CRLF ++ l)) with ((CRLF ++ l') ++ (ls ≫= λ l, CRLF ++ l)).
    specialize (IH l' Hl').
    rewrite <-!(assoc_L (++)) in *. rewrite split_blank_line; [by rewrite IH|done|].
    destruct ls as [|l2 ls]; by apply line_not_crlf.
Qed.

(** ** What the headers of a part hold *)
Lemma contains_crlf_app a b :
  contains CRLF a = false → contains CRLF b = false → head b ≠ Some LF →
  contains CRLF (a ++ b) = false.
Proof.
  intros Ha Hb Hh. induction a as [|x a IH]; [done|].
  change ((x :: a) ++ b) with (x :: a ++ b). cbn [contains]. apply orb_false_iff. split.
  - apply not_true_iff_false. intros [k Hk]%starts_with_true.
    destruct a as [|y a]; simpl in Hk.
    + injection Hk as -> ->. by apply Hh.
    + injection Hk as -> -> _. by apply (contains_prefix CRLF _ a) in Ha.
  - apply IH. by eapply contains_cons.
Qed.

Lemma contains_crlf_no_cr s : CR ∉ s → contains CRLF s = false.
Proof.
  induction s as [|x s IH]; [done|]. intros [Hx Hs]%not_elem_of_cons. cbn [contains].
  rewrite IH by done. rewrite orb_false_r. apply not_true_iff_false.
  intros [k Hk]%starts_with_true. injection Hk as -> _. by apply Hx.
Qed.

Lemma replace_lf_crlf s :
  contains CRLF (replace_char LF [BACKSLASH; LF] s) = false ∧
  head (replace_char LF [BACKSLASH; LF] s) ≠ Some LF.
Proof.
  induction s as [|x s [IH1 IH2]]; [done|].
  change (replace_char LF [BACKSLASH; LF] (x :: s)) with
    ((if decide (x = LF) then [BACKSLASH; LF] else [x]) ++ replace_char LF [BACKSLASH; LF] s).
  split.
  - apply contains_crlf_app; [|done..]. case_decide; [done|].
    cbn [contains]. apply not_true_iff_false. intros [[k Hk]%starts_with_true|Hk]%orb_true_iff; done.
  - case_decide; [done|simpl; congruence].
Qed.

Section properties.
Context `{HM : HeaderMapLib, HV : HeaderValueLib, PL : PercentLib}.
Context (owned : (ascii → bool) → str → bool) (data_stream : Body → Items).
Implicit Types (f : Form) (e : PercentEncoding) (m : PartMetadata).

(** What the types of the values promise: a media type is one line, a header
    name and a header value hold no control byte; a name that is not encoded
    must be one line, any other name and any file name is free. *)
Definition metadata_ok e (name : str) m : Prop :=
  (e = NoOp → CR ∉ name) ∧ (∀ mime, pm_mime m = Some mime → CR ∉ mime) ∧
  Forall (λ '(k, v), CR ∉ k ∧ CR ∉ hv_bytes v) (hm_iter (pm_headers m)).

Lemma hex2_not_cr c : forallb (λ x, negb (bool_decide (x = CR))) ("%"%char :: hex2 true c) = true.
Proof. by destruct c as [[] [] [] [] [] [] [] []]. Qed.

Lemma pct_byte_not_cr set c : set CR = true → CR ∉ pct_byte set c.
Proof.
  intros Hset Hin. unfold pct_byte in Hin. destruct (_ || _) eqn:E.
  - pose proof (hex2_not_cr c) as Hc. rewrite forallb_forall in Hc.
    by apply list_elem_of_In, Hc, negb_true_iff, bool_decide_eq_false in Hin.
  - apply orb_false_iff in E as [_ E]. apply list_elem_of_singleton in Hin. congruence.
Qed.

Lemma percent_encode_not_cr e name :
  (e = NoOp → CR ∉ name) → CR ∉ (percent_encode owned e name).2.
Proof.
  destruct e; simpl; [| |by eauto]; intros _; rewrite utf8_percent_encode_spec, list_elem_of_bind;
    intros (c & Hc & _); revert Hc; by apply pct_byte_not_cr.
Qed.

Lemma disposition_one_line e name m :
  metadata_ok e name m → contains CRLF (disposition owned e name m) = false.
Proof.
  intros (Hname & _ & _). apply percent_encode_not_cr in Hname. unfold disposition.
  destruct (percent_encode owned e name) as [o value]. simpl in Hname.
  apply contains_crlf_app; [done| |by destruct o].
  apply contains_crlf_app.
  - apply contains_crlf_no_cr. destruct o; set_solver by done.
  - destruct (pm_file_name m) as [fn|]; [|done]. unfold legal_filename.
    set (t := replace_char CR _ _). destruct (replace_lf_crlf t) as [H1 H2].
    apply contains_crlf_app; [done| |done]. apply contains_crlf_app; [done| |].
    + by apply contains_crlf_app.
    + destruct (replace_char LF _ t); [done|]. simpl in *. congruence.
  - by destruct (pm_file_name m).
Qed.

Lemma header_lines_ok e name m :
  metadata_ok e name m →
  Forall (λ l, l ≠ [] ∧ contains CRLF l = false) (header_lines m).
Proof.
  intros (_ & Hmime & Hh). unfold header_lines. apply Forall_app. split.
  - destruct (pm_mime m) as [mime|]; [|constructor]. repeat constructor; [done|].
    apply contains_crlf_no_cr. specialize (Hmime _ eq_refl). set_solver.
  - apply Forall_fmap. eapply Forall_impl; [exact Hh|]. intros [k v] [Hk Hv]. simpl. split.
    + by destruct k.
    + apply contains_crlf_no_cr. set_solver.
Qed.

(** ** The encoding, as a text *)
(** The data among some items, and what is sent of them: the data before the
    first error, and the error. *)
Fixpoint text_of (items : Items) : str :=
  match items with
  | [] => []
  | Ok data :: items => data ++ text_of items
  | Err _ :: items => text_of items
  end.
Fixpoint wire (items : Items) : str * option BoxError :=
  match items with
  | [] => ([], None)
  | Ok data :: items => let '(text, e) := wire items in (data ++ text, e)
  | Err e :: _ => ([], Some e)
  end.
Definition part_data (part : Part) : str := text_of (data_stream (part_value part)).
Definition part_header f (name : str) (part : Part) : str :=
  encode_headers owned (percent_encoding f) name (part_meta part).
Definition part_text f (name : str) (part : Part) : str :=
  part_header f name part ++ CRLF ++ CRLF ++ part_data part.
Fixpoint after_boundary f (fields : list (str * Part)) : str :=
  match fields with
  | [] => #"--" ++ CRLF
  | (name, part) :: fields =>
    CRLF ++ part_text f name part ++ delimiter (form_boundary f) ++ after_boundary f fields
  end.

Lemma text_of_app (l k : Items) : text_of (l ++ k) = text_of l ++ text_of k.
Proof.
  induction l as [|[x|e] l IH]; [done| |done]. cbn [app text_of]. by rewrite IH, (assoc_L (++)).
Qed.

Lemma part_stream_text f name part :
  text_of (part_stream owned data_stream f name part) =
  #"--" ++ form_boundary f ++ CRLF ++ part_text f name part ++ CRLF.
Proof.
  unfold part_stream, part_text, part_data. rewrite !text_of_app.
  cbn [text_of].
  by rewrite !app_nil_r, <-!(assoc_L (++)).
Qed.

Lemma fold_parts_text f fields memo :
  text_of (foldl (λ memo '(name, part), memo ++ part_stream owned data_stream f name part) memo fields) ++
    #"--" ++ form_boundary f ++ #"--" ++ CRLF =
  text_of memo ++ #"--" ++ form_boundary f ++ after_boundary f fields.
Proof.
  revert memo. induction fields as [|[name part] fields IH]; intros memo; [done|].
  cbn [foldl]. rewrite IH, text_of_app, part_stream_text. cbn [after_boundary]. unfold delimiter.
  by rewrite <-!(assoc_L (++)).
Qed.

Lemma stream_text f :
  form_fields f ≠ [] →
  text_of (form_stream owned data_stream f) =
  #"--" ++ form_boundary f ++ after_boundary f (form_fields f).
Proof.
  unfold form_stream, into_stream. destruct (form_fields f) as [|[name part] fields]; [done|].
  intros _. rewrite text_of_app. cbn [text_of]. rewrite app_nil_r, fold_parts_text.
  rewrite part_stream_text. cbn [after_boundary]. unfold delimiter. by rewrite <-!(assoc_L (++)).
Qed.

Lemma part_text_split f name part :
  metadata_ok (percent_encoding f) name (part_meta part) →
  split_at (CRLF ++ CRLF) (part_text f name part) = Some (part_header f name part, part_data part).
Proof.
  intros Hm. apply split_headers; [by apply disposition_one_line | by eapply header_lines_ok].
Qed.

Definition fields_ok f : Prop :=
  Forall (λ '(name, part),
    metadata_ok (percent_encoding f) name (part_meta part) ∧
    contains (delimiter (form_boundary f)) (part_text f name part) = false) (form_fields f).

Lemma after_length f fields : length fields ≤ length (after_boundary f fields).
Proof.
  induction fields as [|[name part] fields IH]; [simpl; lia|].
  cbn [after_boundary]. rewrite !length_app. simpl. lia.
Qed.

(** ** What is sent *)

(** What is sent after a form's first delimiter, up to an error. *)
Fixpoint after_wire f (fields : list (str * Part)) : str * option BoxError :=
  match fields with
  | [] => (#"--" ++ CRLF, None)
  | (name, part) :: fields =>
    let head := CRLF ++ part_header f name part ++ CRLF ++ CRLF in
    match wire (data_stream (part_value part)) with
    | (data, Some e) => (head ++ data, Some e)
    | (data, None) =>
      let '(text, e) := after_wire f fields in
      (head ++ data ++ delimiter (form_boundary f) ++ text, e)
    end
  end.
Definition after_boundary_wire f fields : str * option BoxError :=
  prod_map (app (#"--" ++ form_boundary f)) id (after_wire f fields).

(** One stream after another. *)
Definition wire_then (a b : str * option BoxError) : str * option BoxError :=
  match a with (text, Some e) => (text, Some e) | (text, None) => prod_map (app text) id b end.

Lemma wire_app a b : wire (a ++ b) = wire_then (wire a) (wire b).
Proof.
  induction a as [|[data|e] a IH]; cbn [app wire]; [by destruct (wire b)| |done]. rewrite IH.
  destruct (wire a) as [t [e|]]; [done|]. destruct (wire b) as [t' e']. cbn. by rewrite (assoc_L (++)).
Qed.
Lemma wire_then_assoc a b c : wire_then (wire_then a b) c = wire_then a (wire_then b c).
Proof.
  destruct a as [ta [ea|]]; [done|]. destruct b as [tb [eb|]]; [done|]. destruct c as [tc ec].
  cbn. by rewrite (assoc_L (++)).
Qed.
Lemma wire_text_of items text : wire items = (text, None) → text_of items = text.
Proof.
  revert text. induction items as [|[data|e] items IH]; intros text; cbn; [by intros [= <-]| |done].
  destruct (wire items) as [t e]. intros [= <- ->]. by rewrite (IH t).
Qed.
Lemma wire_text_prefix items text (e : option BoxError) : wire items = (text, e) → text `prefix_of` text_of items.
Proof.
  revert text. induction items as [|[data|e'] items IH]; intros text; cbn.
  - by intros [= <- <-].
  - destruct (wire items) as [t e']. intros [= <- ->]. by apply prefix_app, IH.
  - intros [= <- <-]. apply prefix_nil.
Qed.

Lemma part_stream_wire f name part fields :
  wire_then (wire (part_stream owned data_stream f name part)) (after_boundary_wire f fields) =
  after_boundary_wire f ((name, part) :: fields).
Proof.
  unfold part_stream, after_boundary_wire, part_header, delimiter. cbn [app wire after_wire].
  rewrite wire_app. destruct (wire (data_stream _)) as [data [e|]]; cbn [wire wire_then prod_map fst snd id].
  - by rewrite <-!(assoc_L (++)).
  - destruct (after_wire f fields) as [text e]. cbn [prod_map fst snd id].
    by rewrite app_nil_r, <-!(assoc_L (++)).
Qed.
Lemma fold_parts_wire f fields memo :
  wire (foldl (λ memo '(name, part), memo ++ part_stream owned data_stream f name part) memo fields ++
        [Ok (#"--" ++ form_boundary f ++ #"--" ++ CRLF)]) =
  wire_then (wire memo) (after_boundary_wire f fields).
Proof.
  revert memo. induction fields as [|[name part] fields IH]; intros memo; cbn [foldl].
  - rewrite wire_app. unfold after_boundary_wire. cbn [wire after_wire wire_then prod_map fst snd id].
    by rewrite app_nil_r, <-!(assoc_L (++)).
  - rewrite IH, wire_app, wire_then_assoc. by rewrite part_stream_wire.
Qed.
Lemma stream_wire f :
  form_fields f ≠ [] → wire (form_stream owned data_stream f) = after_boundary_wire f (form_fields f).
Proof.
  unfold form_stream, into_stream. destruct (form_fields f) as [|[name part] fields]; [done|].
  intros _. by rewrite fold_parts_wire, part_stream_wire.
Qed.

Lemma contains_app_l p a b : contains p (a ++ b) = false → contains p a = false.
Proof.
  revert b. induction a as [|c a IH]; intros b Hc.
  - destruct p as [|x p]; [by destruct b|]. by cbn [contains].
  - cbn [app contains] in *. apply orb_false_iff in Hc as [Hs Hc]. rewrite (IH _ Hc), orb_false_r.
    apply not_true_iff_false. intros Ha. apply not_true_iff_false in Hs. apply Hs.
    apply starts_with_true in Ha as [k Hk]. apply starts_with_true. exists (k ++ b).
    change (c :: a ++ b) with ((c :: a) ++ b). by rewrite Hk, <-(assoc_L (++)).
Qed.
Lemma split_at_none p s : contains p s = false → split_at p s = None.
Proof.
  induction s as [|c s IH]; intros Hc; cbn [split_at].
  - destruct (strip_prefix p []) as [k|] eqn:E; [|done].
    apply strip_prefix_Some in E. by apply contains_prefix with (k:=k) in Hc.
  - destruct (strip_prefix p (c :: s)) as [k|] eqn:E.
    + apply strip_prefix_Some in E. by apply contains_prefix with (k:=k) in Hc.
    + by rewrite IH by eauto using contains_cons.
Qed.

(** The parts up to the first that fails are read; what is sent of that one is
    not taken for a part. *)
Lemma parse_after_wire f fields fuel :
  CR ∉ form_boundary f → length fields < fuel →
  Forall (λ '(name, part),
    metadata_ok (percent_encoding f) name (part_meta part) ∧
    contains (delimiter (form_boundary f)) (part_text f name part) = false) fields →
  parse_parts fuel (form_boundary f) (after_wire f fields).1 =
  match (after_wire f fields).2 with
  | None => Some ((λ '(name, part), (part_header f name part, part_data part)) <$> fields)
  | Some _ => None
  end.
Proof.
  intros Hb Hlen Hok. revert fuel Hlen.
  induction Hok as [|[name part] fields [Hm Hc] Hok IH]; intros [|fuel] Hlen; simpl in Hlen; try lia.
  { cbn [parse_parts after_wire fst snd]. by rewrite strip_prefix_app. }
  assert (∀ text, strip_prefix #"--" (CRLF ++ text) = None) as Hopen
    by (intros text; by apply (strip_prefix_ne "-"%char CR)).
  cbn [parse_parts after_wire]. destruct (wire (data_stream _)) as [data [e|]] eqn:Hw; cbn [fst snd].
  - rewrite <-(assoc_L (++) CRLF), Hopen, strip_prefix_app. cbn [mbind option_bind].
    rewrite split_at_none; [done|]. destruct (wire_text_prefix _ _ _ Hw) as [k Hk].
    apply contains_app_l with (b:=k). unfold part_text, part_data in Hc. rewrite Hk in Hc.
    by rewrite <-!(assoc_L (++)).
  - destruct (after_wire f fields) as [text e] eqn:Hf. cbn [fst snd] in *.
    rewrite <-(assoc_L (++) CRLF), Hopen, strip_prefix_app. cbn [mbind option_bind].
    apply wire_text_of in Hw.
    replace ((part_header f name part ++ CRLF ++ CRLF) ++ data ++ delimiter (form_boundary f) ++ text)
      with (part_text f name part ++ delimiter (form_boundary f) ++ text)
      by (unfold part_text, part_data; by rewrite Hw, <-!(assoc_L (++))).
    change (delimiter (form_boundary f)) with (CR :: LF :: #"--" ++ form_boundary f) in *.
    rewrite split_at_app; [|set_solver|done]. cbn [mbind option_bind].
    rewrite part_text_split by done. cbn [mbind option_bind]. rewrite IH by lia. by destruct e.
Qed.
Lemma after_wire_length f fields :
  (after_wire f fields).2 = None → length fields ≤ length (after_wire f fields).1.
Proof.
  induction fields as [|[name part] fields IH]; [simpl; lia|]. cbn [after_wire].
  destruct (wire (data_stream _)) as [data [e|]]; [done|].
  destruct (after_wire f fields) as [text e]. cbn [fst snd] in *. intros He. specialize (IH He).
  rewrite !length_app. simpl. lia.
Qed.

Lemma wire_error items text (e : BoxError) : wire items = (text, Some e) → Err e ∈ items.
Proof.
  revert text. induction items as [|[data|e'] items IH]; intros text; cbn; [done| |].
  - destruct (wire items) as [t e']. intros [= _ ->]. right. by eapply IH.
  - intros [= _ ->]. left.
Qed.
Lemma after_wire_error f fields (e : BoxError) :
  (after_wire f fields).2 = Some e →
  ∃ name part, (name, part) ∈ fields ∧ Err e ∈ data_stream (part_value part).
Proof.
  induction fields as [|[name part] fields IH]; [done|]. cbn [after_wire].
  destruct (wire (data_stream _)) as [data [e'|]] eqn:Hw.
  - intros [= ->]. exists name, part. split; [left|by eapply wire_error].
  - destruct (after_wire f fields) as [text e']. intros He. destruct (IH He) as (n & q & Hin & ?).
    exists n, q. split; [by right|done].
Qed.

(** The fuel of the receiver is enough for every part it reads. *)
Lemma parse_parts_more fuel fuel' b s :
  fuel ≤ fuel' → is_Some (parse_parts fuel b s) → parse_parts fuel' b s = parse_parts fuel b s.
Proof.
  revert fuel' s. induction fuel as [|fuel IH]; intros [|fuel'] s Hf; try lia; [by intros []..|].
  cbn [parse_parts]. destruct (strip_prefix #"--" s); [done|].
  destruct (strip_prefix CRLF s) as [s'|]; [|done]. cbn [mbind option_bind].
  destruct (split_at (delimiter b) s') as [[text rest]|]; [|done]. cbn [mbind option_bind].
  destruct (split_at (CRLF ++ CRLF) text) as [part|]; [|done]. cbn [mbind option_bind].
  intros Hs. rewrite (IH fuel'); [done|lia|]. by destruct (parse_parts fuel b rest).
Qed.
Lemma parse_sent f fields :
  CR ∉ form_boundary f →
  Forall (λ '(name, part),
    metadata_ok (percent_encoding f) name (part_meta part) ∧
    contains (delimiter (form_boundary f)) (part_text f name part) = false) fields →
  parse_form (form_boundary f) ((#"--" ++ form_boundary f) ++ (after_wire f fields).1) =
  match (after_wire f fields).2 with
  | None => Some ((λ '(name, part), (part_header f name part, part_data part)) <$> fields)
  | Some _ => None
  end.
Proof.
  intros Hb Hok. unfold parse_form. rewrite strip_prefix_app. cbn [mbind option_bind].
  set (s := (after_wire f fields).1).
  destruct (after_wire f fields).2 as [e|] eqn:He.
  - apply eq_None_not_Some. intros Hsome.
    set (n := S (length s)) in *.
    assert (parse_parts (n + S (length fields)) (form_boundary f) s = None) as Hnone.
    { unfold s. rewrite parse_after_wire by (done || lia). by rewrite He. }
    rewrite (parse_parts_more n) in Hnone by (lia || done). destruct Hsome as [? Hs]. congruence.
  - unfold s. rewrite parse_after_wire; [by rewrite He|done| |done].
    pose proof (after_wire_length f fields He). lia.
Qed.

(** ** The predicted length *)
Lemma u64_add_mod a b : u64_add (a mod 2 ^ 64) (b mod 2 ^ 64) = ((a + b) mod 2 ^ 64)%Z.
Proof. unfold u64_add, u64_wrapping_add. by rewrite <-Z.add_mod. Qed.

Lemma u64_add_l a b : u64_add (a mod 2 ^ 64) b = ((a + b) mod 2 ^ 64)%Z.
Proof. unfold u64_add, u64_wrapping_add. by rewrite Z.add_mod_idemp_l. Qed.

Lemma field_length_text f name part :
  field_length owned f name part (Z.of_nat (length (part_data part))) =
  (Z.of_nat (length (CRLF ++ part_text f name part ++ delimiter (form_boundary f))) mod 2 ^ 64)%Z.
Proof.
  unfold field_length, part_text, delimiter, part_header. unfold u64_add at 6, u64_wrapping_add.
  rewrite !u64_add_l, !length_app. f_equal. simpl. lia.
Qed.

(** The declared length of a part, where there is one, is that of its data. *)
Definition lengths_exact (fields : list (str * Part)) : Prop :=
  Forall (λ '(_, part), ∀ l, value_len part = Some l → l = Z.of_nat (length (part_data part))) fields.
Definition lengths_known (fields : list (str * Part)) : bool :=
  forallb (λ '(_, part), bool_decide (is_Some (value_len part))) fields.

Lemma fields_length_text f fields a hs :
  lengths_exact fields →
  (fields_length owned f fields (a mod 2 ^ 64) hs).1 =
  if lengths_known fields
  then Some ((a + (Z.of_nat (length (after_boundary f fields)) - 4)) mod 2 ^ 64)%Z else None.
Proof.
  intros Hex. revert a hs. induction Hex as [|[name part] fields Hp Hex IH]; intros a hs.
  - simpl. by rewrite Z.add_0_r.
  - cbn [fields_length lengths_known forallb]. destruct (value_len part) as [l|] eqn:E.
    + rewrite (Hp l eq_refl), field_length_text, u64_add_mod, IH.
      rewrite bool_decide_eq_true_2 by eauto. cbn [andb]. fold (lengths_known fields).
      destruct (lengths_known fields); [|done]. do 2 f_equal.
      cbn [after_boundary]. rewrite !length_app. lia.
    + by rewrite bool_decide_eq_false_2 by (by intros []).
Qed.

Lemma compute_length_text f :
  lengths_exact (form_fields f) →
  (Z.of_nat (length (text_of (form_stream owned data_stream f))) < 2 ^ 64)%Z →
  (compute_length owned f).1 =
  if lengths_known (form_fields f)
  then Some (Z.of_nat (length (text_of (form_stream owned data_stream f)))) else None.
Proof.
  intros Hex Hlt. pose proof (fields_length_text f (form_fields f) 0 (computed_headers f) Hex) as Hf.
  rewrite Z.mod_0_l in Hf by done. unfold compute_length.
  destruct (fields_length _ _ _ _ _) as [len hs]. cbn [fst] in *. subst len.
  destruct (lengths_known _); [|done]. cbn [fmap option_fmap option_map]. f_equal.
  destruct (form_fields f) as [|x fields] eqn:Hfs.
  - unfold form_stream. by rewrite Hfs.
  - rewrite stream_text, Hfs in * by (by rewrite Hfs). rewrite !length_app in *.
    unfold u64_add at 3, u64_wrapping_add. rewrite !u64_add_l, Z.add_mod_idemp_r by done.
    change (length #"--") with 2 in *. pose proof (after_length f (x :: fields)) as Hl.
    rewrite Z.mod_small; lia.
Qed.

Lemma compute_length_stream f :
  form_stream owned data_stream (compute_length owned f).2 = form_stream owned data_stream f.
Proof. unfold compute_length. by destruct (fields_length _ _ _ _ _). Qed.

(** ** The request *)
Lemma multipart_inr {E} f (req req' : Request E (option Items)) :
  multipart owned data_stream f (inr req) = inr req' →
  CR ∉ form_boundary f ∧ req_body req' = Some (form_stream owned data_stream f) ∧
  ∃ v, from_maybe_shared (content_type_of f) = Some v ∧
  req_headers req' =
    match (compute_length owned f).1 with
    | Some length =>
      or_insert CONTENT_LENGTH {| hv_bytes := decimal length; hv_sensitive := false |}
        (or_insert CONTENT_TYPE v (req_headers req))
    | None => or_insert CONTENT_TYPE v (req_headers req)
    end.
Proof.
  unfold multipart. destruct (from_maybe_shared _) as [v|] eqn:Hv; [|done].
  rewrite <-(compute_length_stream f). destruct (compute_length owned f) as [len f'].
  intros [= <-]. split; [|naive_solver].
  assert (Forall (λ c, field_byte c = true) (content_type_of f)) as Hb
    by (apply from_maybe_shared_valid; eauto).
  apply Forall_app in Hb as [_ Hb]. rewrite Forall_forall in Hb. by intros ?%Hb.
Qed.

Lemma get_all_or_insert n v (h : HeaderMap HeaderValue) n' :
  hm_get_all (or_insert n v h) n' =
  match hm_get_all h n' with [] => if decide (n' = n) then [v] else [] | vs => vs end.
Proof.
  unfold or_insert, hm_contains_key. case_bool_decide as Hn.
  - destruct (hm_get_all h n') eqn:E; [|done]. case_decide; congruence.
  - rewrite hm_get_all_insert. case_decide as Heq.
    + by rewrite Heq, Hn.
    + by destruct (hm_get_all h n').
Qed.


(** The headers [multipart] adds.  The request announces the boundary of
    the form, and, when every part has a known length, exactly the number of
    bytes of its body; a part of unknown length leaves the length out.  Headers
    that were there before stay. *)
Theorem multipart_headers {E} f (req req' : Request E (option Items)) :
  multipart owned data_stream f (inr req) = inr req' →
  lengths_exact (form_fields f) →
  (Z.of_nat (length (text_of (form_stream owned data_stream f))) < 2 ^ 64)%Z →
  ∀ n, hm_get_all (req_headers req') n =
    match hm_get_all (req_headers req) n with
    | [] =>
      if decide (n = CONTENT_TYPE) then [{| hv_bytes := content_type_of f; hv_sensitive := false |}]
      else if decide (n = CONTENT_LENGTH ∧ lengths_known (form_fields f) = true) then
        [{| hv_bytes := decimal (Z.of_nat (length (text_of (default [] (req_body req')))));
            hv_sensitive := false |}]
      else []
    | vs => vs
    end.
Proof.
  intros (_ & -> & v & Hv & ->)%multipart_inr Hex Hlt n.
  apply from_maybe_shared_Some in Hv as Hv'. destruct v as [bytes sens]. simpl in Hv'.
  destruct Hv' as [-> ->]. rewrite compute_length_text by done. cbn [default].
  destruct (lengths_known _); rewrite !get_all_or_insert;
    destruct (hm_get_all (req_headers req) n); try done;
    destruct (decide (n = CONTENT_TYPE)); try done; repeat case_decide; intuition congruence.
Qed.
End properties.

(** ** Generated boundaries *)
Lemma encoding_map_lookup i :
  i < 64 → ∃ c, ALPHA_NUMERIC_ENCODING_MAP !! i = Some c ∧ is_alphanumeric c = true.
Proof.
  intros Hi. assert (length ALPHA_NUMERIC_ENCODING_MAP = 64) as Hl by reflexivity.
  destruct (lookup_lt_is_Some_2 ALPHA_NUMERIC_ENCODING_MAP i) as [c Hc]; [lia|].
  exists c. split; [done|]. apply list_elem_of_lookup_2, list_elem_of_In in Hc.
  revert c Hc. by apply forallb_forall.
Qed.

Lemma boundary_chars_ok n r b :
  ∃ s, boundary_chars n r b = Some (b ++ s) ∧ length s = n ∧ forallb is_alphanumeric s = true.
Proof.
  revert r b. induction n as [|n IH]; intros r b.
  - exists []. by rewrite app_nil_r.
  - cbn [boundary_chars].
    pose proof (Z.land_ones r 6 ltac:(done)) as Hl. change (Z.ones 6) with 63%Z in Hl.
    pose proof (Z.mod_pos_bound r (2 ^ 6) ltac:(done)).
    destruct (encoding_map_lookup (Z.to_nat (Z.land r 63))) as (c & -> & Hc); [lia|].
    cbn [mbind option_bind]. destruct (IH (Z.shiftr r 6) (b ++ [c])) as (s & -> & Hlen & Hs).
    exists (c :: s). rewrite <-(assoc_L (++)). simpl. by rewrite Hc, Hlen.
Qed.

(** Generating a boundary never panics: it is the prefix and sixteen letters or
    digits, for any two random numbers. *)
Lemma gen_boundary_ok r1 r2 :
  ∃ s, gen_boundary r1 r2 = Some (#"----WebKitFormBoundary" ++ s) ∧
    length s = 16 ∧ forallb is_alphanumeric s = true.
Proof.
  unfold gen_boundary.
  destruct (boundary_chars_ok 8 r1 #"----WebKitFormBoundary") as (s1 & -> & H1 & A1).
  cbn [mbind option_bind].
  destruct (boundary_chars_ok 8 r2 (#"----WebKitFormBoundary" ++ s1)) as (s2 & -> & H2 & A2).
  cbn [mbind option_bind]. exists (s1 ++ s2). rewrite <-(assoc_L (++)), !length_app, H1, H2.
  by rewrite forallb_app, A1, A2.
Qed.

(** ** Examples *)
Module MultipartExamples.
Definition data_stream (b : Body) : Items :=
  match b with
  | Reusable chunk => [Ok chunk]
  | Boxed 0 _ => [Ok #"ab"; Ok #"cd"]
  | Boxed _ _ => [Ok #"ab"; Err [NIo IoOther]; Ok #"cd"]
  end.
Definition owned (set : ascii → bool) (s : str) : bool :=
  bool_decide (utf8_percent_encode set s ≠ s).
Definition photo : Part :=
  part_mime #"image/png" (part_file_name ([QUOTE] ++ #"x" ++ CRLF ++ CRLF ++ #"y.png")
    (Part_stream_with_length (Boxed 0 None) 4)).
Definition form : Form :=
  add_part #"a photo" photo (form_text #"title" #"hello" (with_boundary #"XyZ")).
Definition uri : Uri :=
  {| uri_scheme := Some HTTPS;
     uri_authority := Some {| auth_str := #"example.com"; auth_host := #"example.com";
                              auth_port := None |};
     uri_path_and_query := Some {| pq_path := #"/up"; pq_query := None |} |}.
Definition upload : Request unit (option Items) :=
  {| req_method := POST; req_uri := uri; req_version := HTTP_11; req_headers := hm_empty;
     req_ext := tt; req_body := None |}.
Definition sent : Request unit (option Items) :=
  match multipart owned data_stream form (inr upload) with inr r => r | inl _ => upload end.

Lemma form_sent : multipart owned data_stream form (inr upload) = inr sent.
Proof. reflexivity. Qed.

Lemma form_ok : fields_ok owned data_stream form.
Proof.
  repeat constructor; try reflexivity; try done; intros mime [= <-]; apply (bool_decide_unpack _);
    reflexivity.
Qed.


(** A stream that fails after its first chunk. *)
Lemma failed_form_not_read :
  let items := form_stream owned data_stream
                 (add_part #"file" (Part_stream (Boxed 1 None)) (form_text #"title" #"hello" (with_boundary #"XyZ"))) in
  (wire items).2 = Some [NIo IoOther] ∧ parse_form #"XyZ" (wire items).1 = None.
Proof. by vm_compute. Qed.

(** The media type of a file is guessed by its last extension; a name that only
    starts with a dot has none. *)
Definition guess (ext : str) : str := if decide (ext = #"gz") then #"application/gzip" else #"application/octet-stream".
Lemma file_mime :
  (pm_mime ∘ part_meta <$> result_ok (Part_file guess (Some #"a.tar.gz") (Ok (Boxed 0 None)) (Ok 3%Z))) =
    Some (Some #"application/gzip") ∧
  (pm_mime ∘ part_meta <$> result_ok (Part_file guess (Some #".gz") (Ok (Boxed 0 None)) (Ok 3%Z))) =
    Some (Some #"application/octet-stream").
Proof. by vm_compute. Qed.

Lemma multipart_headers_witness :
  hm_get_all (req_headers sent) CONTENT_LENGTH =
  [{| hv_bytes := #"196"; hv_sensitive := false |}].
Proof.
  rewrite (multipart_headers owned data_stream form upload sent form_sent);
    [reflexivity| |reflexivity].
  repeat constructor; by intros l [= <-].
Defined.
End MultipartExamples.
