(* ===== verification/Group.v ===== *)
(** * Request groups and the identity of connections

    [src/group.rs] and [src/conn/descriptor.rs]: the criteria that keep
    requests apart, the key under which the pool stores a connection, and the
    blueprint a connection is made from.  [SocketBindOptions] comes from
    [src/conn/net.rs]. *)

From S2P Require Import Prelude Http Net.

(** ** Data *)
Inductive GroupKey := KRequest | KEmulate | KNamed | KUri | KVersion | KProxy | KSocketBind.
#[export] Instance GroupKey_eq_dec : EqDecision GroupKey.
Proof. solve_decision. Defined.

(** The derived order of the keys is the order of their declaration. *)
Definition rank (k : GroupKey) : nat :=
  match k with
  | KRequest => 0 | KEmulate => 1 | KNamed => 2 | KUri => 3 | KVersion => 4 | KProxy => 5
  | KSocketBind => 6
  end.

Inductive GroupId :=
| Borrowed (s : str)
| Owned (s : str)
| Number (n : Z).
#[export] Instance GroupId_eq_dec : EqDecision GroupId.
Proof. solve_decision. Defined.

Record SocketBindOptions := {
  interface : option str;
  ipv4_address : option Z;
  ipv6_address : option Z;
}.
#[export] Instance SocketBindOptions_eq_dec : EqDecision SocketBindOptions.
Proof. solve_decision. Defined.

Definition SocketBindOptions_default : SocketBindOptions :=
  {| interface := None; ipv4_address := None; ipv6_address := None |}.
Definition set_interface (i : str) (self : SocketBindOptions) : SocketBindOptions :=
  {| interface := Some i; ipv4_address := ipv4_address self; ipv6_address := ipv6_address self |}.
Definition set_local_address (a : option IpAddr) (self : SocketBindOptions) : SocketBindOptions :=
  match a with
  | Some (V4 a) =>
    {| interface := interface self; ipv4_address := Some a; ipv6_address := ipv6_address self |}
  | Some (V6 a) =>
    {| interface := interface self; ipv4_address := ipv4_address self; ipv6_address := Some a |}
  | None => self
  end.
Definition set_local_addresses (v4 v6 : option Z) (self : SocketBindOptions) : SocketBindOptions :=
  {| interface := interface self;
     ipv4_address := match v4 with Some a => Some a | None => ipv4_address self end;
     ipv6_address := match v6 with Some a => Some a | None => ipv6_address self end |}.

Section group.
(** The proxy matchers [P], compared with their [PartialEq]. *)
Context {P : Type} (proxy_eqb : P → P → bool).

(** [Group] is a [BTreeMap]: its entries in the order of their keys. *)
Inductive Group :=
| MkGroup (entries : list (GroupKey * GroupVariant))
with GroupVariant :=
| VRequest (g : Group)
| VEmulate (g : Group)
| VNamed (id : GroupId)
| VUri (u : Uri)
| VVersion (v : Version)
| VProxy (p : P)
| VSocketBind (o : option SocketBindOptions).

Definition entries (g : Group) : list (GroupKey * GroupVariant) :=
  match g with MkGroup l => l end.

(** The derived [PartialEq]: the entries are compared pairwise. *)
Fixpoint Group_eqb (a b : Group) {struct a} : bool :=
  let fix go (l1 l2 : list (GroupKey * GroupVariant)) {struct l1} : bool :=
    match l1, l2 with
    | [], [] => true
    | (k1, v1) :: l1, (k2, v2) :: l2 =>
      bool_decide (k1 = k2) && Variant_eqb v1 v2 && go l1 l2
    | _, _ => false
    end in
  match a, b with MkGroup l1, MkGroup l2 => go l1 l2 end
with Variant_eqb (v w : GroupVariant) {struct v} : bool :=
  match v, w with
  | VRequest g, VRequest h | VEmulate g, VEmulate h => Group_eqb g h
  | VNamed i, VNamed j => bool_decide (i = j)
  | VUri u, VUri u' => uri_eqb u u'
  | VVersion v, VVersion v' => bool_decide (v = v')
  | VProxy p, VProxy p' => proxy_eqb p p'
  | VSocketBind o, VSocketBind o' => bool_decide (o = o')
  | _, _ => false
  end.

(** ** Operations *)

(** [BTreeMap::insert]. *)
Fixpoint bt_insert (k : GroupKey) (v : GroupVariant) (l : list (GroupKey * GroupVariant)) :
    list (GroupKey * GroupVariant) :=
  match l with
  | [] => [(k, v)]
  | (k', v') :: l' =>
    if decide (k = k') then (k, v) :: l'
    else if decide (rank k < rank k') then (k, v) :: l
    else (k', v') :: bt_insert k v l'
  end.

Definition Group_default : Group := MkGroup [].
Definition Group_new (name : GroupId) : Group := MkGroup [(KNamed, VNamed name)].

Definition extend (id : GroupKey) (entry : option GroupVariant) (self : Group) : Group :=
  match entry with
  | Some entry => MkGroup (bt_insert id entry (entries self))
  | None => self
  end.
Definition group_uri (uri : Uri) : Group → Group := extend KUri (Some (VUri uri)).
Definition group_version (version : option Version) : Group → Group :=
  extend KVersion (VVersion <$> version).
Definition group_proxy (proxy : option P) : Group → Group := extend KProxy (VProxy <$> proxy).
Definition group_socket_bind (opts : option SocketBindOptions) : Group → Group :=
  extend KSocketBind (Some (VSocketBind opts)).
Definition group_request (group : Group) : Group → Group := extend KRequest (Some (VRequest group)).
Definition group_emulate (group : Group) : Group → Group := extend KEmulate (Some (VEmulate group)).

(** ** Descriptors *)

(** [ConnectionId]: the group, and the hash once it is known (zero before). *)
Record ConnectionId := {
  id_group : Group;
  id_hash : Z;
}.
Definition ConnectionId_eqb (a b : ConnectionId) : bool := Group_eqb (id_group a) (id_group b).

(** [TlsOptions] are carried along. *)
Context {T : Type}.
Record ConnectionDescriptor := {
  cd_uri : Uri;
  cd_version : option Version;
  cd_proxy : option P;
  cd_tls_options : option T;
  cd_socket_bind : option SocketBindOptions;
  cd_connection_id : ConnectionId;
}.

Definition ConnectionDescriptor_new (uri : Uri) (group : Group) (proxy : option P)
    (version : option Version) (tls_options : option T) (socket_bind : option SocketBindOptions) :
    ConnectionDescriptor :=
  let group := group_socket_bind socket_bind
                 (group_proxy proxy (group_version version (group_uri uri group))) in
  {| cd_uri := uri; cd_version := version; cd_proxy := proxy; cd_tls_options := tls_options;
     cd_socket_bind := socket_bind; cd_connection_id := {| id_group := group; id_hash := 0 |} |}.

(** [Hash for ConnectionId]: the value written to the hasher, and the identity
    with its hash stored.  [hash_one] is the hasher of the process. *)
Context (hash_one : Group → Z).
Definition ConnectionId_hash (self : ConnectionId) : Z * ConnectionId :=
  let hash := id_hash self in
  if decide (hash ≠ 0%Z) then (hash, self)
  else
    let computed_hash := if decide (hash_one (id_group self) = 0%Z) then 1%Z
                         else hash_one (id_group self) in
    (computed_hash, {| id_group := id_group self; id_hash := computed_hash |}).

(** ** Facts *)
Fixpoint lget (k : GroupKey) (l : list (GroupKey * GroupVariant)) : option GroupVariant :=
  match l with
  | [] => None
  | (k', v) :: l => if decide (k' = k) then Some v else lget k l
  end.
Definition get (k : GroupKey) (g : Group) : option GroupVariant := lget k (entries g).

Definition option_variant_eqb (a b : option GroupVariant) : bool :=
  match a, b with
  | Some a, Some b => Variant_eqb a b
  | None, None => true
  | _, _ => false
  end.

Abbreviation before := (λ e f : GroupKey * GroupVariant, rank e.1 < rank f.1).
Definition sorted (g : Group) : Prop := StronglySorted before (entries g).

Fixpoint entries_eqb (l1 l2 : list (GroupKey * GroupVariant)) : bool :=
  match l1, l2 with
  | [], [] => true
  | (k1, v1) :: l1, (k2, v2) :: l2 =>
    bool_decide (k1 = k2) && Variant_eqb v1 v2 && entries_eqb l1 l2
  | _, _ => false
  end.

Lemma Group_eqb_entries g h : Group_eqb g h = entries_eqb (entries g) (entries h).
Proof. by destruct g, h. Qed.

Lemma rank_inj k k' : rank k = rank k' → k = k'.
Proof. by destruct k, k'. Qed.

Lemma lget_insert k v k' l :
  lget k' (bt_insert k v l) = if decide (k' = k) then Some v else lget k' l.
Proof.
  induction l as [|[k1 v1] l IH]; simpl; [repeat case_decide; naive_solver|].
  repeat (case_decide; simplify_eq/=); try done; rewrite ?IH; repeat case_decide; naive_solver.
Qed.

Lemma get_extend id entry g k :
  get k (extend id entry g) =
  match entry with
  | Some e => if decide (k = id) then Some e else get k g
  | None => get k g
  end.
Proof. unfold get, extend. destruct entry; simpl; [apply lget_insert | done]. Qed.

Lemma bt_insert_above k v l e :
  rank e < rank k → Forall (λ f : _ * GroupVariant, rank e < rank f.1) l →
  Forall (λ f, rank e < rank f.1) (bt_insert k v l).
Proof.
  intros He. induction 1 as [|[k' v'] l Hk' Hl IH]; simpl; [by repeat constructor|].
  repeat case_decide; by repeat constructor.
Qed.

Lemma sorted_extend id entry g : sorted g → sorted (extend id entry g).
Proof.
  unfold sorted, extend. destruct entry as [v|]; [|done]. cbn [entries].
  induction 1 as [|[k' v'] l Hs IH Hl]; simpl; [by repeat constructor|].
  case_decide as Hk; [subst; by constructor|]. case_decide as Hr.
  - constructor; [by constructor|]. constructor; [done|].
    eapply Forall_impl; [done|]. simpl in *. lia.
  - constructor; [done|]. apply bt_insert_above; [|done].
    assert (rank id ≠ rank k') by (intros ?%rank_inj; congruence). simpl. lia.
Qed.

Lemma lget_above k l : Forall (λ e : _ * GroupVariant, rank k < rank e.1) l → lget k l = None.
Proof.
  induction 1 as [|[k' v'] l Hk Hl IH]; simpl; [done|].
  rewrite decide_False; [done|]. intros ->. simpl in Hk. lia.
Qed.

(** Groups are equal exactly when they agree on every key. *)
Lemma Group_eqb_get g h :
  sorted g → sorted h →
  Group_eqb g h = true ↔ ∀ k, option_variant_eqb (get k g) (get k h) = true.
Proof.
  rewrite Group_eqb_entries. unfold sorted, get. generalize (entries g) (entries h). clear g h.
  intros l1 l2 H1. revert l2. induction H1 as [|[k1 v1] l1 Hs1 IH Hl1]; intros l2 H2.
  { destruct H2 as [|[k2 v2] l2 Hs2 Hl2]; simpl; [done|]. split; [done|].
    intros H. specialize (H k2). by rewrite decide_True in H. }
  destruct H2 as [|[k2 v2] l2 Hs2 Hl2]; simpl.
  { split; [done|]. intros H. specialize (H k1). by rewrite decide_True in H. }
  rewrite !andb_true_iff, bool_decide_eq_true, (IH l2) by done.
  assert (∀ k v l, Forall (before (k, v)) l → lget k l = None) as Habove.
  { intros k v l Hl. by apply lget_above. }
  split.
  - intros [[-> Hv] Hr] k. case_decide; [done | by apply Hr].
  - intros H. assert (k1 = k2) as <-.
    { pose proof (H k1) as Ha. pose proof (H k2) as Hb.
      rewrite decide_True in Ha by done. rewrite (decide_True (P:=k2 = k2)) in Hb by done.
      destruct (decide (k2 = k1)) as [|Hne]; [done|]. exfalso.
      rewrite decide_False in Hb by congruence.
      destruct (decide (rank k1 < rank k2)).
      - rewrite lget_above in Ha; [done|]. eapply Forall_impl; [done|]. simpl. lia.
      - rewrite lget_above in Hb; [done|]. eapply Forall_impl; [done|]. simpl.
        assert (rank k1 ≠ rank k2) by (intros ?%rank_inj; congruence). lia. }
    split_and!; [done| |].
    + specialize (H k1). by rewrite !decide_True in H.
    + intros k. specialize (H k). destruct (decide (k1 = k)) as [<-|]; [|done].
      by rewrite !(Habove k1 _ _ Hl1), (Habove k1 _ _ Hl2).
Qed.

(** *** Hashing *)
Definition hash_value (g : Group) : Z :=
  if decide (hash_one g = 0%Z) then 1%Z else hash_one g.
(** The stored hash is absent or right. *)
Definition hash_wf (id : ConnectionId) : Prop := id_hash id = 0%Z ∨ id_hash id = hash_value (id_group id).

Lemma ConnectionId_hash_spec id :
  hash_wf id →
  (ConnectionId_hash id).1 = hash_value (id_group id) ∧
  hash_wf (ConnectionId_hash id).2 ∧ id_group (ConnectionId_hash id).2 = id_group id.
Proof.
  intros Hwf. unfold ConnectionId_hash, hash_wf, hash_value in *.
  repeat case_decide; simpl; naive_solver.
Qed.

(** What keeps the connections of two requests apart. *)
Definition plain_group (g : Group) : Prop :=
  sorted g ∧ get KUri g = None ∧ get KVersion g = None ∧ get KProxy g = None ∧
  get KSocketBind g = None.

Definition option_proxy_eqb (p q : option P) : bool :=
  match p, q with Some p, Some q => proxy_eqb p q | None, None => true | _, _ => false end.

Lemma descriptor_get k uri g proxy version bind :
  get k (extend KSocketBind (Some (VSocketBind bind)) (extend KProxy (VProxy <$> proxy)
    (extend KVersion (VVersion <$> version) (extend KUri (Some (VUri uri)) g)))) =
  match k with
  | KSocketBind => Some (VSocketBind bind)
  | KProxy => match proxy with Some p => Some (VProxy p) | None => get KProxy g end
  | KVersion => match version with Some v => Some (VVersion v) | None => get KVersion g end
  | KUri => Some (VUri uri)
  | k => get k g
  end.
Proof.
  rewrite !get_extend. by destruct k, proxy, version; simpl; rewrite ?get_extend.
Qed.

(** C31: which requests may share a connection.  The pool keys of two requests
    are equal exactly when they ask for the same URI, HTTP version, proxy and
    socket binding and agree on the groups they were put in by the user, by
    the emulation and by name.  Hashing a key again, before or after its hash
    was stored, gives the same value, and equal keys have equal hashes
    whenever equal groups do. *)
Theorem connection_id_spec uri1 uri2 g1 g2 proxy1 proxy2 version1 version2 tls1 tls2 bind1 bind2 :
  plain_group g1 → plain_group g2 →
  let id1 := cd_connection_id (ConnectionDescriptor_new uri1 g1 proxy1 version1 tls1 bind1) in
  let id2 := cd_connection_id (ConnectionDescriptor_new uri2 g2 proxy2 version2 tls2 bind2) in
  (ConnectionId_eqb id1 id2 = true ↔
     uri_eqb uri1 uri2 = true ∧ version1 = version2 ∧ option_proxy_eqb proxy1 proxy2 = true ∧
     bind1 = bind2 ∧
     ∀ k, k ∈ [KRequest; KEmulate; KNamed] → option_variant_eqb (get k g1) (get k g2) = true) ∧
  (ConnectionId_hash (ConnectionId_hash id1).2).1 = (ConnectionId_hash id1).1 ∧
  ((∀ g h, Group_eqb g h = true → hash_one g = hash_one h) →
   ConnectionId_eqb id1 id2 = true → (ConnectionId_hash id1).1 = (ConnectionId_hash id2).1).
Proof.
  intros (Hs1 & Hu1 & Hv1 & Hp1 & Hb1) (Hs2 & Hu2 & Hv2 & Hp2 & Hb2) id1 id2. split_and!.
  - unfold ConnectionId_eqb. rewrite Group_eqb_get by (repeat apply sorted_extend; done).
    unfold id1, id2, ConnectionDescriptor_new, group_socket_bind, group_proxy, group_version, group_uri.
    cbn [cd_connection_id id_group].
    setoid_rewrite descriptor_get. rewrite Hv1, Hv2, Hp1, Hp2. split.
    + intros H. pose proof (H KUri) as Hu. pose proof (H KVersion) as Hv.
      pose proof (H KProxy) as Hp. pose proof (H KSocketBind) as Hb. simpl in Hb. simpl_bool.
      split_and!; [done| | |done|].
      * destruct version1, version2; simpl in Hv; simpl_bool; by subst.
      * by destruct proxy1, proxy2.
      * intros k Hk. specialize (H k). set_unfold in Hk. naive_solver.
    + intros (Hu & -> & Hp & -> & Hk) [].
      4: done.
      1-3: apply Hk; set_solver.
      * destruct version2; [by apply bool_decide_eq_true | done].
      * by destruct proxy1, proxy2.
      * by apply bool_decide_eq_true.
  - assert (hash_wf id1) as Hwf by (by left).
    destruct (ConnectionId_hash_spec id1 Hwf) as (-> & Hwf' & Hg).
    destruct (ConnectionId_hash_spec _ Hwf') as (-> & _ & _). by rewrite Hg.
  - intros Hh Heq. unfold ConnectionId_eqb in Heq. apply Hh in Heq.
    destruct (ConnectionId_hash_spec id1) as (-> & _ & _); [by left|].
    destruct (ConnectionId_hash_spec id2) as (-> & _ & _); [by left|].
    unfold hash_value. by rewrite Heq.
Qed.
End group.

Module GroupExamples.
Definition uri (host : str) : Uri :=
  {| uri_scheme := Some HTTPS;
     uri_authority := Some {| auth_str := host; auth_host := host; auth_port := None |};
     uri_path_and_query := Some {| pq_path := #"/"; pq_query := None |} |}.
Definition grouped (name : GroupId) : Group := group_request (Group_new name) (@Group_default unit).
Definition descriptor (host : str) (name : GroupId) : ConnectionDescriptor (T:=unit) :=
  ConnectionDescriptor_new (uri host) (grouped name) (Some ()) (Some HTTP_2) None None.
Definition same_key (a b : ConnectionDescriptor (T:=unit)) : bool :=
  ConnectionId_eqb (λ _ _ : unit, true) (cd_connection_id a) (cd_connection_id b).

Lemma connection_id_spec_witness :
  same_key (descriptor #"a.test" (Number 1)) (descriptor #"A.TEST" (Number 1)) = true ∧
  same_key (descriptor #"a.test" (Number 1)) (descriptor #"a.test" (Number 2)) = false.
Proof.
  assert (∀ n, plain_group (grouped n)) as Hp.
  { intros n. split; [|done]. apply sorted_extend. constructor. }
  split.
  - apply (connection_id_spec (T:=unit) (λ _ _ : unit, true) (λ _, 7%Z)
      (uri #"a.test") (uri #"A.TEST") (grouped (Number 1)) (grouped (Number 1))
      (Some ()) (Some ()) (Some HTTP_2) (Some HTTP_2) None None None None (Hp _) (Hp _)).
    split_and!; try reflexivity. intros k _. by destruct k.
  - apply not_true_iff_false. intros Heq.
    apply (connection_id_spec (T:=unit) (λ _ _ : unit, true) (λ _, 7%Z)
      (uri #"a.test") (uri #"a.test") (grouped (Number 1)) (grouped (Number 2))
      (Some ()) (Some ()) (Some HTTP_2) (Some HTTP_2) None None None None (Hp _) (Hp _)) in Heq
      as (_ & _ & _ & _ & Hk).
    by specialize (Hk KRequest ltac:(set_solver)).
Defined.

(** The same name given as a literal and as a [String] makes two groups. *)
Lemma borrowed_owned_differ :
  Group_eqb (λ _ _ : unit, true) (grouped (Borrowed #"a")) (grouped (Owned #"a")) = false.
Proof. by vm_compute. Qed.
End GroupExamples.
