(* ===== verification/Tcp.v ===== *)
(** * TCP connections

    [src/conn/net/tcp.rs]: preparing a socket, trying addresses one after the
    other, and the race of staggered attempts (Happy Eyeballs).

    The operating system is a parameter: [os] gives the error of a socket
    operation.  Time is a number of nanoseconds; a [Sleep] is its deadline.  The
    asynchronous code is a machine that is polled: a poll gives the time and
    what every connection attempt, named by its launch order, answers to its
    own poll. *)

From S2P Require Import Prelude Http Errors Net Ext Group Dns.

(** ** Options *)
Record TcpKeepaliveOptions := {
  ka_time : option Z;
  ka_interval : option Z;
  ka_retries : option Z;
}.
Record TcpOptions := {
  to_enforce_http : bool;
  to_connect_timeout : option Z;
  to_happy_eyeballs_timeout : option Z;
  to_nodelay : bool;
  to_reuse_address : bool;
  to_linger : option Z;
  to_send_buffer_size : option Z;
  to_recv_buffer_size : option Z;
  to_tcp_user_timeout : option Z;
  to_tcp_keepalive : TcpKeepaliveOptions;
  to_socket_bind : SocketBindOptions;
}.

(** [HttpConnector::new] and the setters of [HttpConnect] in
    [src/conn/http.rs]; durations are in nanoseconds. *)
Definition HttpConnector_new : TcpOptions :=
  {| to_enforce_http := true; to_connect_timeout := None;
     to_happy_eyeballs_timeout := Some 300000000%Z; to_nodelay := false; to_reuse_address := false;
     to_linger := None; to_send_buffer_size := None; to_recv_buffer_size := None;
     to_tcp_user_timeout := None;
     to_tcp_keepalive := {| ka_time := None; ka_interval := None; ka_retries := None |};
     to_socket_bind := SocketBindOptions_default |}.
Definition http_enforce_http (b : bool) (o : TcpOptions) : TcpOptions := o <| to_enforce_http := b |>.
Definition http_set_nodelay (b : bool) (o : TcpOptions) : TcpOptions := o <| to_nodelay := b |>.
Definition http_set_send_buffer_size (n : option Z) (o : TcpOptions) : TcpOptions :=
  o <| to_send_buffer_size := n |>.
Definition http_set_recv_buffer_size (n : option Z) (o : TcpOptions) : TcpOptions :=
  o <| to_recv_buffer_size := n |>.
Definition http_set_reuse_address (b : bool) (o : TcpOptions) : TcpOptions :=
  o <| to_reuse_address := b |>.
Definition http_set_linger (d : option Z) (o : TcpOptions) : TcpOptions := o <| to_linger := d |>.
Definition http_set_tcp_user_timeout (d : option Z) (o : TcpOptions) : TcpOptions :=
  o <| to_tcp_user_timeout := d |>.
Definition http_set_connect_timeout (d : option Z) (o : TcpOptions) : TcpOptions :=
  o <| to_connect_timeout := d |>.
Definition http_set_happy_eyeballs_timeout (d : option Z) (o : TcpOptions) : TcpOptions :=
  o <| to_happy_eyeballs_timeout := d |>.
Definition http_set_keepalive (d : option Z) (o : TcpOptions) : TcpOptions :=
  o <| to_tcp_keepalive ::= λ k, k <| ka_time := d |> |>.
Definition http_set_keepalive_interval (d : option Z) (o : TcpOptions) : TcpOptions :=
  o <| to_tcp_keepalive ::= λ k, k <| ka_interval := d |> |>.
Definition http_set_keepalive_retries (n : option Z) (o : TcpOptions) : TcpOptions :=
  o <| to_tcp_keepalive ::= λ k, k <| ka_retries := n |> |>.
Definition http_set_interface (i : str) (o : TcpOptions) : TcpOptions :=
  o <| to_socket_bind ::= set_interface i |>.
Definition http_set_local_addresses (v4 v6 : option Z) (o : TcpOptions) : TcpOptions :=
  o <| to_socket_bind ::= set_local_addresses v4 v6 |>.

(** [into_tcpkeepalive]: the options for the socket, when there is any. *)
Definition into_tcpkeepalive (self : TcpKeepaliveOptions) : option TcpKeepaliveOptions :=
  let dirty := bool_decide (is_Some (ka_time self)) || bool_decide (is_Some (ka_interval self)) ||
               bool_decide (is_Some (ka_retries self)) in
  if dirty then Some self else None.

(** ** Sockets

    The operations on a socket ([socket2], on Linux). *)
Inductive SockOp :=
| SocketNew (v6 : bool)
| SetNonblocking
| SetKeepalive (ka : TcpKeepaliveOptions)
| BindDevice (interface : str)
| SetUserTimeout (time : Z)
| SocketBind (local : IpAddr)
| SetReuseAddress
| SetLinger (time : Z)
| SetSendBufferSize (size : Z)
| SetRecvBufferSize (size : Z)
| SetNodelay (nodelay : bool).

Abbreviation SockM := (Prog SockOp ConnectError).

Section socket.
(** The error of an operation on the socket of the attempt. *)
Context (os : SockOp → option BoxError).

(** An operation whose error ends the attempt, and one whose error is only
    logged. *)
Definition sock_try (op : SockOp) (msg : str) : SockM unit :=
  prog_op (λ op, match os op with Some e => Err (ConnectError_new msg e) | None => Ok tt end) op.
Definition sock_warn (op : SockOp) : SockM unit := prog_op (λ _, Ok tt) op.
Definition bind_local_address (dst_addr : SocketAddr) (local_addr_ipv4 local_addr_ipv6 : option Z) :
    SockM unit :=
  match sa_ip dst_addr, local_addr_ipv4, local_addr_ipv6 with
  | V4 _, Some addr, _ => sock_try (SocketBind (V4 addr)) #"tcp bind local error"
  | V6 _, _, Some addr => sock_try (SocketBind (V6 addr)) #"tcp bind local error"
  | _, _, _ => prog_ret tt
  end.

Definition tcp_connect (addr : SocketAddr) (config : TcpOptions) : SockM unit :=
  sock_try (SocketNew (is_ipv6 addr)) #"tcp open error" ;;;
  sock_try SetNonblocking #"tcp set_nonblocking error" ;;;
  prog_option (into_tcpkeepalive (to_tcp_keepalive config)) (λ ka, sock_warn (SetKeepalive ka)) ;;;
  prog_option (interface (to_socket_bind config))
    (λ i, sock_try (BindDevice i) #"tcp bind interface error") ;;;
  prog_option (to_tcp_user_timeout config) (λ t, sock_warn (SetUserTimeout t)) ;;;
  bind_local_address addr (ipv4_address (to_socket_bind config))
    (ipv6_address (to_socket_bind config)) ;;;
  (if to_reuse_address config then sock_warn SetReuseAddress else prog_ret tt) ;;;
  prog_option (to_linger config) (λ t, sock_warn (SetLinger t)) ;;;
  prog_option (to_send_buffer_size config) (λ n, sock_warn (SetSendBufferSize n)) ;;;
  prog_option (to_recv_buffer_size config) (λ n, sock_warn (SetRecvBufferSize n)) ;;;
  sock_warn (SetNodelay (to_nodelay config)).
End socket.
