(* ===== verification/Race.v ===== *)
(** * The race of TCP connection attempts

    The second half of [src/conn/net/tcp.rs]: [ConnectingTcp] with its
    sequential path and its race of staggered attempts.  A Happy Eyeballs race
    alternates address families, keeps at most six attempts in flight and ends
    with the first connection or with the earliest error. *)

From S2P Require Import Prelude Http Errors Net Ext Group Dns Tcp.

Definition MAX_PARALLEL_CONNECT_ATTEMPTS : nat := 6.

Section race.
(** The connections, the options, and the error of preparing the socket of an
    attempt, which is named by its launch order. *)
Context {C : Type} (config : TcpOptions) (os : Z → SockOp → option BoxError).

Definition setup (order : Z) (addr : SocketAddr) : result unit ConnectError :=
  (tcp_connect (os order) addr config []).1.

(** ** Data *)
Record TcpAttempt := {
  at_addr : SocketAddr;
  at_order : Z;
}.
Record RaceState := {
  rs_preferred : SocketAddrs;
  rs_fallback : option SocketAddrs;
  rs_initial_delay : option Z;
  rs_next_fallback : bool;
  rs_happy_eyeballs_timeout : option Z;
  rs_attempts : list TcpAttempt;
  rs_next_attempt_order : Z;
  rs_first_error : option (Z * ConnectError);
}.
Implicit Types (st : RaceState).

Inductive TcpEvent :=
| Connected (c : C)
| AllAttemptsFailed
| DelayElapsed.

(** [ConnectingTcp]: the preferred addresses, and the fallback with the
    deadline of its delay. *)
Record ConnectingTcp := {
  ct_preferred : SocketAddrs;
  ct_fallback : option (Z * SocketAddrs);
}.

Definition ConnectingTcp_new (now : Z) (remote_addrs : SocketAddrs) : ConnectingTcp :=
  match to_happy_eyeballs_timeout config with
  | Some fallback_timeout =>
    let '(preferred_addrs, fallback_addrs) :=
      split_by_preference remote_addrs (ipv4_address (to_socket_bind config))
        (ipv6_address (to_socket_bind config)) in
    match fallback_addrs with
    | [] => {| ct_preferred := preferred_addrs; ct_fallback := None |}
    | _ => {| ct_preferred := preferred_addrs;
              ct_fallback := Some ((now + fallback_timeout)%Z, fallback_addrs) |}
    end
  | None => {| ct_preferred := remote_addrs; ct_fallback := None |}
  end.

Definition RaceState_new (connecting : ConnectingTcp) : RaceState :=
  {| rs_preferred := ct_preferred connecting;
     rs_fallback := snd <$> ct_fallback connecting;
     rs_initial_delay := fst <$> ct_fallback connecting;
     rs_next_fallback := false;
     rs_happy_eyeballs_timeout := to_happy_eyeballs_timeout config;
     rs_attempts := []; rs_next_attempt_order := 0; rs_first_error := None |}.

(** ** Setters *)
Definition set_attempts (l : list TcpAttempt) st : RaceState :=
  {| rs_preferred := rs_preferred st; rs_fallback := rs_fallback st;
     rs_initial_delay := rs_initial_delay st; rs_next_fallback := rs_next_fallback st;
     rs_happy_eyeballs_timeout := rs_happy_eyeballs_timeout st; rs_attempts := l;
     rs_next_attempt_order := rs_next_attempt_order st; rs_first_error := rs_first_error st |}.
Definition set_first_error (e : option (Z * ConnectError)) st : RaceState :=
  {| rs_preferred := rs_preferred st; rs_fallback := rs_fallback st;
     rs_initial_delay := rs_initial_delay st; rs_next_fallback := rs_next_fallback st;
     rs_happy_eyeballs_timeout := rs_happy_eyeballs_timeout st; rs_attempts := rs_attempts st;
     rs_next_attempt_order := rs_next_attempt_order st; rs_first_error := e |}.
Definition set_initial_delay (d : option Z) st : RaceState :=
  {| rs_preferred := rs_preferred st; rs_fallback := rs_fallback st;
     rs_initial_delay := d; rs_next_fallback := rs_next_fallback st;
     rs_happy_eyeballs_timeout := rs_happy_eyeballs_timeout st; rs_attempts := rs_attempts st;
     rs_next_attempt_order := rs_next_attempt_order st; rs_first_error := rs_first_error st |}.
Definition set_next_order (o : Z) st : RaceState :=
  {| rs_preferred := rs_preferred st; rs_fallback := rs_fallback st;
     rs_initial_delay := rs_initial_delay st; rs_next_fallback := rs_next_fallback st;
     rs_happy_eyeballs_timeout := rs_happy_eyeballs_timeout st; rs_attempts := rs_attempts st;
     rs_next_attempt_order := o; rs_first_error := rs_first_error st |}.
(** The remote lists and the side the next attempt takes. *)
Definition set_remotes (preferred : SocketAddrs) (fallback : option SocketAddrs) (next : bool) st :
    RaceState :=
  {| rs_preferred := preferred; rs_fallback := fallback;
     rs_initial_delay := rs_initial_delay st; rs_next_fallback := next;
     rs_happy_eyeballs_timeout := rs_happy_eyeballs_timeout st; rs_attempts := rs_attempts st;
     rs_next_attempt_order := rs_next_attempt_order st; rs_first_error := rs_first_error st |}.

(** ** Operations *)
Definition fallback_addrs st : SocketAddrs := default [] (rs_fallback st).
Definition has_remaining_addrs st : bool :=
  negb (bool_decide (rs_preferred st = [])) || negb (bool_decide (fallback_addrs st = [])).

(** [next_remote]: whether the fallback list is next, with the updated side. *)
Definition next_remote st : option (bool * RaceState) :=
  let has_preferred := negb (bool_decide (rs_preferred st = [])) in
  let has_fallback := negb (bool_decide (fallback_addrs st = [])) in
  match rs_next_fallback st, has_preferred, has_fallback with
  | _, false, false => None
  | true, _, true | _, false, true =>
    Some (true, set_remotes (rs_preferred st) (rs_fallback st) false st)
  | _, _, _ => Some (false, set_remotes (rs_preferred st) (rs_fallback st) true st)
  end.
(** [addrs.next()] of the chosen list. *)
Definition connect_next (use_fallback : bool) st : option (SocketAddr * RaceState) :=
  if use_fallback then
    match rs_fallback st with
    | Some (a :: l) => Some (a, set_remotes (rs_preferred st) (Some l) (rs_next_fallback st) st)
    | _ => None
    end
  else
    match rs_preferred st with
    | a :: l => Some (a, set_remotes l (rs_fallback st) (rs_next_fallback st) st)
    | [] => None
    end.

Definition record_error (order : Z) (error : ConnectError) st : RaceState :=
  match rs_first_error st with
  | Some (first_order, _) =>
    if (first_order <=? order)%Z then st else set_first_error (Some (order, error)) st
  | None => set_first_error (Some (order, error)) st
  end.

(** The loop of [launch_next]; every round takes an address. *)
Fixpoint launch_loop (fuel : nat) st : bool * RaceState :=
  match fuel with
  | 0 => (false, st)
  | S fuel =>
    match next_remote st with
    | None => (false, st)
    | Some (use_fallback, st) =>
      match connect_next use_fallback st with
      | None => launch_loop fuel st
      | Some (addr, st) =>
        let order := rs_next_attempt_order st in
        let st := set_next_order (u64_saturating_add order 1) st in
        match setup order addr with
        | Ok _ =>
          let st := if negb (order =? 0)%Z then set_initial_delay None st else st in
          (true, set_attempts (rs_attempts st ++ [{| at_addr := addr; at_order := order |}]) st)
        | Err error => launch_loop fuel (record_error order (with_addr addr error) st)
        end
      end
    end
  end.
Definition remaining st : nat := length (rs_preferred st) + length (fallback_addrs st).
Definition launch_next st : bool * RaceState := launch_loop (S (remaining st)) st.

(** [poll_attempts]: the attempts before the index, those from it on, and
    whether one has failed.  [answer] is the result of polling an attempt. *)
Fixpoint poll_loop (answer : Z → poll (result C BoxError)) (polled todo : list TcpAttempt)
    (failed : bool) st : poll TcpEvent * RaceState :=
  match todo with
  | [] =>
    let st := set_attempts polled st in
    (if failed && bool_decide (polled = []) then Ready AllAttemptsFailed else Pending, st)
  | attempt :: todo =>
    match answer (at_order attempt) with
    | Pending => poll_loop answer (polled ++ [attempt]) todo failed st
    | Ready (Ok connection) => (Ready (Connected connection), set_attempts (polled ++ todo) st)
    | Ready (Err error) =>
      poll_loop answer polled todo true
        (record_error (at_order attempt)
           (with_addr (at_addr attempt) (ConnectError_tcp error)) st)
    end
  end.
Definition poll_attempts (answer : Z → poll (result C BoxError)) st : poll TcpEvent * RaceState :=
  poll_loop answer [] (rs_attempts st) false st.

Definition make_room_for_next_attempt st : RaceState :=
  if decide (length (rs_attempts st) < MAX_PARALLEL_CONNECT_ATTEMPTS) then st
  else set_attempts (tail (rs_attempts st)) st.
Definition take_error st : ConnectError :=
  default network_unreachable (snd <$> rs_first_error st).

(** ** [connect_inner] of the race

    The future waits for an event, with the deadline of its delay when it has
    one, or it has a result. *)
Inductive Racing :=
| Waiting (st : RaceState) (sleep : option Z)
| Finished (r : result C ConnectError).

(** From the head of the loop to the point where it waits. *)
Definition race_head (now : Z) st : Racing :=
  let '(active, st) :=
    match rs_attempts st with [] => launch_next st | _ => (true, st) end in
  if negb active then Finished (Err (take_error st))
  else
    match rs_happy_eyeballs_timeout st, has_remaining_addrs st with
    | Some delay, true =>
      Waiting (set_initial_delay None st) (Some (default (now + delay)%Z (rs_initial_delay st)))
    | _, _ => Waiting st None
    end.

(** One poll of the event it waits for. *)
Definition poll_event (now : Z) (answer : Z → poll (result C BoxError)) st (sleep : option Z) :
    poll TcpEvent * RaceState :=
  match poll_attempts answer st with
  | (Ready event, st) => (Ready event, st)
  | (Pending, st) =>
    (match sleep with
     | Some deadline => if (deadline <=? now)%Z then Ready DelayElapsed else Pending
     | None => Pending
     end, st)
  end.

(** One poll of the future: it goes on until it has to wait. *)
Fixpoint race_poll (fuel : nat) (now : Z) (answer : Z → poll (result C BoxError)) (r : Racing) :
    Racing :=
  match fuel with
  | 0 => r
  | S fuel =>
    match r with
    | Finished _ => r
    | Waiting st sleep =>
      match poll_event now answer st sleep with
      | (Pending, st) => Waiting st sleep
      | (Ready (Connected connection), _) => Finished (Ok connection)
      | (Ready AllAttemptsFailed, st) =>
        race_poll fuel now answer (race_head now (launch_next st).2)
      | (Ready DelayElapsed, st) =>
        race_poll fuel now answer
          (race_head now (launch_next (make_room_for_next_attempt st)).2)
      end
    end
  end.
Definition race_fuel (r : Racing) : nat :=
  match r with Waiting st _ => S (S (remaining st)) | Finished _ => 1 end.

(** [connect_with_timeout]: the connection is polled before the deadline. *)
Definition connect_timed_out : ConnectError :=
  ConnectError_tcp (io_error IoTimedOut [NOther #"connect timeout"]).
Definition poll_with_timeout (deadline : option Z) (now : Z) (r : Racing) : Racing :=
  match r, deadline with
  | Waiting _ _, Some d => if (d <=? now)%Z then Finished (Err connect_timed_out) else r
  | _, _ => r
  end.
Definition connect_poll (deadline : option Z) (r : Racing)
    (p : Z * (Z → poll (result C BoxError))) : Racing :=
  poll_with_timeout deadline p.1 (race_poll (race_fuel r) p.1 p.2 r).
(** A run: the race starts at [now] and is polled. *)
Definition race_run (now : Z) (remote_addrs : SocketAddrs)
    (polls : list (Z * (Z → poll (result C BoxError)))) : Racing :=
  foldl (connect_poll ((λ d, (now + d)%Z) <$> to_connect_timeout config))
    (race_head now (RaceState_new (ConnectingTcp_new now remote_addrs))) polls.

(** ** The sequential path

    [ConnectingTcpRemote::connect_inner]: the addresses that are left with the
    order of the next one, the attempt it waits for, or the result. *)
Inductive Sequential :=
| SeqStart (addrs : SocketAddrs)
| SeqWaiting (attempt : TcpAttempt) (addrs : SocketAddrs) (first_error : option ConnectError)
| SeqFinished (r : result C ConnectError).

Definition keep_first (first_error : option ConnectError) (error : ConnectError) :
    option ConnectError :=
  match first_error with None => Some error | Some _ => first_error end.

Fixpoint seq_loop (answer : Z → poll (result C BoxError)) (addrs : SocketAddrs) (order : Z)
    (first_error : option ConnectError) : Sequential :=
  match addrs with
  | [] => SeqFinished (Err (default network_unreachable first_error))
  | addr :: addrs =>
    match setup order addr with
    | Err error =>
      seq_loop answer addrs (order + 1) (keep_first first_error (with_addr addr error))
    | Ok _ =>
      match answer order with
      | Pending => SeqWaiting {| at_addr := addr; at_order := order |} addrs first_error
      | Ready (Ok connection) => SeqFinished (Ok connection)
      | Ready (Err error) =>
        seq_loop answer addrs (order + 1)
          (keep_first first_error (with_addr addr (ConnectError_tcp error)))
      end
    end
  end.
Definition seq_poll (answer : Z → poll (result C BoxError)) (s : Sequential) : Sequential :=
  match s with
  | SeqStart addrs => seq_loop answer addrs 0 None
  | SeqWaiting attempt addrs first_error =>
    match answer (at_order attempt) with
    | Pending => s
    | Ready (Ok connection) => SeqFinished (Ok connection)
    | Ready (Err error) =>
      seq_loop answer addrs (at_order attempt + 1)
        (keep_first first_error (with_addr (at_addr attempt) (ConnectError_tcp error)))
    end
  | SeqFinished _ => s
  end.
Definition seq_connect_poll (deadline : option Z) (s : Sequential)
    (p : Z * (Z → poll (result C BoxError))) : Sequential :=
  match seq_poll p.2 s, deadline with
  | SeqFinished r, _ => SeqFinished r
  | s, Some d => if (d <=? p.1)%Z then SeqFinished (Err connect_timed_out) else s
  | s, None => s
  end.

(** [ConnectingTcp::connect]: which path is taken. *)
Definition takes_sequential (self : ConnectingTcp) : bool :=
  bool_decide (ct_fallback self = None) &&
  (bool_decide (to_happy_eyeballs_timeout config = None) ||
   bool_decide (length (ct_preferred self) ≤ 1)).
Inductive Connecting :=
| InSequence (s : Sequential)
| InRace (r : Racing).
Definition tcp_run (now : Z) (remote_addrs : SocketAddrs)
    (polls : list (Z * (Z → poll (result C BoxError)))) : Connecting :=
  let connecting := ConnectingTcp_new now remote_addrs in
  if takes_sequential connecting then
    InSequence (foldl (seq_connect_poll ((λ d, (now + d)%Z) <$> to_connect_timeout config))
      (SeqStart (ct_preferred connecting)) polls)
  else InRace (race_run now remote_addrs polls).

(** ** The schedule

    The addresses that are left, in the order in which they will be tried: the
    two families alternate while both have addresses. *)
Fixpoint alternate (a b : SocketAddrs) : SocketAddrs :=
  match a, b with
  | x :: a, y :: b => x :: y :: alternate a b
  | [], b => b
  | a, [] => a
  end.
Definition schedule st : SocketAddrs :=
  if rs_next_fallback st then alternate (fallback_addrs st) (rs_preferred st)
  else alternate (rs_preferred st) (fallback_addrs st).

Lemma alternate_nil_r a : alternate a [] = a.
Proof. by destruct a. Qed.

Lemma alternate_nil_l b : alternate [] b = b.
Proof. by destruct b. Qed.

Lemma alternate_cons x a b : alternate (x :: a) b = x :: alternate b a.
Proof.
  revert x a. induction b as [|y b IH]; intros x a; [done|].
  destruct a as [|z a]; [done|]. cbn [alternate]. by rewrite <-IH.
Qed.

Lemma alternate_length a b : length (alternate a b) = length a + length b.
Proof.
  revert b. induction a as [|x a IH]; intros [|y b]; simpl; rewrite ?IH; lia.
Qed.

Lemma schedule_length st : length (schedule st) = remaining st.
Proof. unfold schedule, remaining. case_match; rewrite alternate_length; lia. Qed.

Local Arguments alternate : simpl never.

(** The fields that choosing an address leaves alone. *)
Definition same_race st st' : Prop :=
  rs_attempts st' = rs_attempts st ∧ rs_next_attempt_order st' = rs_next_attempt_order st ∧
  rs_first_error st' = rs_first_error st ∧
  rs_happy_eyeballs_timeout st' = rs_happy_eyeballs_timeout st.

Lemma next_remote_None st : next_remote st = None → schedule st = [].
Proof.
  unfold next_remote, schedule. intros H.
  destruct (rs_next_fallback st), (rs_preferred st), (fallback_addrs st); done.
Qed.

(** Choosing a side and taking its next address takes the head of the
    schedule. *)
Lemma next_remote_Some st side st1 :
  next_remote st = Some (side, st1) →
  ∃ a st2, connect_next side st1 = Some (a, st2) ∧ schedule st = a :: schedule st2 ∧ same_race st st2.
Proof.
  unfold next_remote, schedule, connect_next, fallback_addrs, same_race. intros H.
  destruct (rs_next_fallback st), (rs_preferred st) as [|x l], (rs_fallback st) as [[|y k]|];
    simpl in H; simplify_eq; simpl; eexists _, _; (split; [reflexivity|]);
    unfold fallback_addrs; simpl;
    by rewrite ?alternate_cons, ?alternate_nil_r, ?alternate_nil_l.
Qed.

(** ** The invariant

    [sched] is the schedule the race started with, [P] the polls so far.  The
    attempts in flight are given apart from the state, because polling takes
    them out of it one by one. *)
Section invariant.
Context (sched : SocketAddrs) (Hmax : (Z.of_nat (length sched) ≤ u64_max)%Z).
Abbreviation Polls := (list (Z * (Z → poll (result C BoxError)))).

(** Attempt [o] failed with [e]: while its socket was prepared, or when it was
    polled. *)
Definition failed (P : Polls) (o : Z) (e : ConnectError) : Prop :=
  ∃ a, sched !! Z.to_nat o = Some a ∧
    ((∃ e0, setup o a = Err e0 ∧ e = with_addr a e0) ∨
     (∃ now answer e0, (now, answer) ∈ P ∧ answer o = Ready (Err e0) ∧
        e = with_addr a (ConnectError_tcp e0))).
Definition started (a : TcpAttempt) : Prop :=
  sched !! Z.to_nat (at_order a) = Some (at_addr a) ∧ setup (at_order a) (at_addr a) = Ok tt.

Record race_inv (P : Polls) (live : list TcpAttempt) st : Prop := {
  ri_next : (0 ≤ rs_next_attempt_order st ≤ Z.of_nat (length sched))%Z;
  ri_sched : schedule st = drop (Z.to_nat (rs_next_attempt_order st)) sched;
  ri_live : Forall (λ a, (0 ≤ at_order a < rs_next_attempt_order st)%Z ∧ started a) live;
  ri_sorted : StronglySorted (λ a b, (at_order a < at_order b)%Z) live;
  ri_len : length live ≤ MAX_PARALLEL_CONNECT_ATTEMPTS;
  ri_err o e : rs_first_error st = Some (o, e) →
    (0 ≤ o < rs_next_attempt_order st)%Z ∧ failed P o e;
  ri_acc o : (0 ≤ o < rs_next_attempt_order st)%Z →
    o ∈ at_order <$> live ∨ (∃ o1 e, rs_first_error st = Some (o1, e) ∧ (o1 ≤ o)%Z) ∨
    (o + 6 ≤ rs_next_attempt_order st)%Z;
  ri_he : rs_happy_eyeballs_timeout st = to_happy_eyeballs_timeout config;
}.

Lemma failed_mono P P' o e : P ⊆ P' → failed P o e → failed P' o e.
Proof. intros HP (a & Ha & [H|(now & answer & e0 & Hp & H)]); exists a; naive_solver. Qed.

Lemma race_inv_mono P P' live st : P ⊆ P' → race_inv P live st → race_inv P' live st.
Proof.
  intros HP []. split; try done. intros o e Ho. destruct (ri_err0 o e Ho). eauto using failed_mono.
Qed.

(** Sorted attempts below a bound leave room for one another. *)
Lemma sorted_room a live n :
  StronglySorted (λ a b, (at_order a < at_order b)%Z) (a :: live) →
  Forall (λ a, (at_order a < n)%Z) (a :: live) → (at_order a + Z.of_nat (length (a :: live)) ≤ n)%Z.
Proof.
  revert a. induction live as [|b live IH]; intros a Hs Hn.
  - apply Forall_cons in Hn as [? _]. simpl. lia.
  - apply StronglySorted_inv in Hs as [Hs Ha]. apply Forall_cons in Hn as [? Hn].
    specialize (IH b Hs Hn). apply Forall_cons in Ha as [? _]. simpl in *. lia.
Qed.

Lemma sorted_remove {A} (R : A → A → Prop) l1 a l2 :
  StronglySorted R (l1 ++ a :: l2) → StronglySorted R (l1 ++ l2).
Proof.
  induction l1 as [|x l1 IH]; simpl; intros Hs; apply StronglySorted_inv in Hs as [Hs Hx]; [done|].
  constructor; [by apply IH|]. rewrite Forall_app, Forall_cons in Hx. apply Forall_app. tauto.
Qed.

(** Recording the error of an attempt that is no longer in flight. *)
Lemma record_error_order o e st :
  ∃ o1 e1, rs_first_error (record_error o e st) = Some (o1, e1) ∧ (o1 ≤ o)%Z ∧
    ((o1 = o ∧ e1 = e) ∨ rs_first_error st = Some (o1, e1)) ∧
    (∀ o2 e2, rs_first_error st = Some (o2, e2) → (o1 ≤ o2)%Z).
Proof.
  unfold record_error. destruct (rs_first_error st) as [[o2 e2]|] eqn:E.
  - destruct (Z.leb_spec o2 o).
    + exists o2, e2. rewrite E. naive_solver lia.
    + exists o, e. simpl. naive_solver lia.
  - exists o, e. simpl. naive_solver lia.
Qed.

Lemma record_error_same o e st :
  let st' := record_error o e st in
  rs_attempts st' = rs_attempts st ∧ rs_next_attempt_order st' = rs_next_attempt_order st ∧
  schedule st' = schedule st ∧ rs_happy_eyeballs_timeout st' = rs_happy_eyeballs_timeout st.
Proof. unfold record_error. by repeat case_match. Qed.

Lemma race_inv_record P a l1 l2 e st :
  race_inv P (l1 ++ a :: l2) st → failed P (at_order a) e →
  race_inv P (l1 ++ l2) (record_error (at_order a) e st).
Proof.
  intros [Hn Hs Hl Hso Hlen He Hacc Hhe] Hf.
  destruct (record_error_same (at_order a) e st) as (_ & Hn' & Hs' & Hh').
  destruct (record_error_order (at_order a) e st) as (o1 & e1 & Ho & Hle & Hor & Hmin).
  apply Forall_app in Hl as [Hl1 [Ha Hl2]%Forall_cons].
  split; rewrite ?Hn', ?Hs', ?Hh'; try done.
  - by apply Forall_app.
  - by eapply sorted_remove.
  - rewrite length_app in *. simpl in *. lia.
  - intros o e2. rewrite Ho. intros [= <- <-]. destruct Hor as [[-> ->]|Hor]; [tauto|eauto].
  - intros o Hlt. specialize (Hacc o Hlt). rewrite fmap_app, elem_of_app in *.
    rewrite fmap_cons, elem_of_cons in Hacc.
    destruct Hacc as [[H|[->|H]]|[(o2 & e2 & H & Hle2)|H]]; [by auto|right; left; by eauto|by auto| |by auto].
    right. left. exists o1, e1. specialize (Hmin _ _ H). split; [done|lia].
Qed.

(** ** Steps *)

(** [st'] is [st] after its next address [a] was taken. *)
Record took (a : SocketAddr) st st' : Prop := {
  tk_next : rs_next_attempt_order st' = (rs_next_attempt_order st + 1)%Z;
  tk_addr : sched !! Z.to_nat (rs_next_attempt_order st) = Some a;
  tk_sched : schedule st = a :: schedule st';
  tk_err : rs_first_error st' = rs_first_error st;
  tk_he : rs_happy_eyeballs_timeout st' = rs_happy_eyeballs_timeout st;
}.

Lemma took_next P live st side st1 a st2 :
  race_inv P live st → next_remote st = Some (side, st1) → connect_next side st1 = Some (a, st2) →
  let st' := set_next_order (u64_saturating_add (rs_next_attempt_order st2) 1) st2 in
  took a st st' ∧ rs_attempts st' = rs_attempts st ∧
  rs_next_attempt_order st2 = rs_next_attempt_order st ∧
  rs_happy_eyeballs_timeout st' = rs_happy_eyeballs_timeout st.
Proof.
  intros [Hn Hsc _ _ _ _ _ _] Hr Hc.
  destruct (next_remote_Some _ _ _ Hr) as (a' & st2' & Hc' & Hs & Hat & Hno & Hfe & Hhe).
  rewrite Hc in Hc'. simplify_eq. cbn zeta. rewrite Hno.
  set (o := rs_next_attempt_order st) in *. split_and!; [|done..].
  assert (sched !! Z.to_nat o = Some a') as Ha.
  { rewrite <-(Nat.add_0_r (Z.to_nat o)), <-lookup_drop, <-Hsc, Hs. done. }
  split; [|done..]. simpl. unfold u64_saturating_add. apply lookup_lt_Some in Ha. fold o. lia.
Qed.

Lemma took_frame P live st st' a :
  race_inv P live st → took a st st' →
  (0 ≤ rs_next_attempt_order st' ≤ Z.of_nat (length sched))%Z ∧
  schedule st' = drop (Z.to_nat (rs_next_attempt_order st')) sched ∧
  Forall (λ a, (0 ≤ at_order a < rs_next_attempt_order st')%Z ∧ started a) live.
Proof.
  intros [Hn Hsc Hl _ _ _ _ _] [Hn' Ha Hs _ _]. rewrite Hn'. split_and!.
  - lia.
  - apply lookup_lt_Some in Ha. lia.
  - replace (Z.to_nat (rs_next_attempt_order st + 1)) with (S (Z.to_nat (rs_next_attempt_order st)))
      by lia.
    rewrite Hsc in Hs. erewrite drop_S in Hs by done. by simplify_eq.
  - eapply Forall_impl; [exact Hl|]. simpl. intros ? [? ?]. split; [lia|done].
Qed.

(** The address is tried. *)
Lemma race_inv_started P live st st' a :
  race_inv P live st → took a st st' → setup (rs_next_attempt_order st) a = Ok tt →
  length live < MAX_PARALLEL_CONNECT_ATTEMPTS →
  race_inv P (live ++ [{| at_addr := a; at_order := rs_next_attempt_order st |}]) st'.
Proof.
  intros Hinv Ht Hok Hroom. destruct (took_frame _ _ _ _ _ Hinv Ht) as (Hn' & Hs' & Hl').
  destruct Hinv as [Hn Hsc Hl Hso Hlen He Hacc Hhe], Ht as [Hnx Ha Hs Hfe Hth].
  split; rewrite ?Hth; try done.
  - apply Forall_app. split; [done|]. repeat constructor; simpl; [lia..|done|done].
  - apply StronglySorted_app_2; [|done|repeat constructor].
    intros x y Hx ->%list_elem_of_singleton. rewrite Forall_forall in Hl. apply Hl in Hx. simpl. lia.
  - rewrite length_app. simpl. unfold MAX_PARALLEL_CONNECT_ATTEMPTS in *. lia.
  - rewrite Hfe, Hnx. intros o e Ho. destruct (He o e Ho). split; [lia|done].
  - rewrite Hfe, Hnx. intros o Ho. rewrite fmap_app, elem_of_app.
    destruct (decide (o = rs_next_attempt_order st)) as [->|]; [left; right; left|].
    destruct (Hacc o) as [?|[?|?]]; [lia|auto|auto|]. right. right. lia.
Qed.

(** Its socket cannot be prepared. *)
Lemma race_inv_refused P live st st' a e :
  race_inv P live st → took a st st' → setup (rs_next_attempt_order st) a = Err e →
  race_inv P live (record_error (rs_next_attempt_order st) (with_addr a e) st').
Proof.
  intros Hinv Ht Herr. destruct (took_frame _ _ _ _ _ Hinv Ht) as (Hn' & Hs' & Hl').
  destruct Hinv as [Hn Hsc Hl Hso Hlen He Hacc Hhe], Ht as [Hnx Ha Hs Hfe Hth].
  set (o := rs_next_attempt_order st) in *. set (e' := with_addr a e).
  destruct (record_error_same o e' st') as (_ & Hrn & Hrs & Hrh).
  destruct (record_error_order o e' st') as (o1 & e1 & Ho & Hle & Hor & Hmin).
  split; rewrite ?Hrn, ?Hrs, ?Hrh, ?Hth; try done.
  - intros o2 e2. rewrite Ho. intros [= <- <-]. destruct Hor as [[-> ->]|Hor].
    + split; [lia|]. exists a. eauto.
    + rewrite Hfe in Hor. destruct (He _ _ Hor). split; [lia|done].
  - intros o2 Ho2. destruct (decide (o1 ≤ o2)%Z); [right; left; eauto|].
    destruct (Hacc o2) as [?|[(o3 & e3 & H3 & ?)|?]]; [lia|by auto| |right; right; lia].
    rewrite <-Hfe in H3. specialize (Hmin _ _ H3). lia.
Qed.

(** Launching with room for one more attempt: an attempt is added, or the
    schedule is exhausted. *)
Lemma launch_loop_inv P fuel st :
  race_inv P (rs_attempts st) st → length (rs_attempts st) < MAX_PARALLEL_CONNECT_ATTEMPTS →
  length (schedule st) < fuel →
  let '(launched, st') := launch_loop fuel st in
  race_inv P (rs_attempts st') st' ∧
  rs_happy_eyeballs_timeout st' = rs_happy_eyeballs_timeout st ∧
  if launched then rs_attempts st' ≠ [] ∧ length (schedule st') < length (schedule st)
  else rs_attempts st' = rs_attempts st ∧ schedule st' = [].
Proof.
  revert st. induction fuel as [|fuel IH]; intros st Hinv Hroom Hfuel; [lia|]. cbn [launch_loop].
  destruct (next_remote st) as [[side st1]|] eqn:Hr; [|by apply next_remote_None in Hr].
  destruct (next_remote_Some _ _ _ Hr) as (a & st2 & Hc & _). rewrite Hc.
  destruct (took_next _ _ _ _ _ _ _ Hinv Hr Hc) as (Ht & Hat & Hno & Hhe).
  set (st3 := set_next_order _ st2) in *. rewrite Hno. pose proof (tk_sched _ _ _ Ht) as Hs.
  destruct (setup _ a) as [[]|e] eqn:Hset.
  - set (st4 := if negb _ then _ else st3).
    assert (rs_attempts st4 = rs_attempts st ∧ schedule st4 = schedule st3 ∧
            rs_happy_eyeballs_timeout st4 = rs_happy_eyeballs_timeout st ∧ took a st st4)
      as (H1 & H2 & H3 & H4).
    { unfold st4. case_match; [|done]. split_and!; [done..|]. by destruct Ht. }
    cbn. rewrite H1. split_and!; [|done|by destruct (rs_attempts st)|].
    + by destruct (race_inv_started _ _ _ _ _ Hinv H4 Hset Hroom).
    + change (schedule (set_attempts _ st4)) with (schedule st4). rewrite H2, Hs. simpl. lia.
  - pose proof (race_inv_refused _ _ _ _ _ _ Hinv Ht Hset) as Hinv'.
    set (st4 := record_error _ _ st3) in *.
    destruct (record_error_same (rs_next_attempt_order st) (with_addr a e) st3) as (H1 & _ & H2 & H3).
    fold st4 in H1, H2, H3. rewrite Hs in *. simpl in Hfuel.
    specialize (IH st4). rewrite H1, H2, H3, Hat, Hhe in IH.
    specialize (IH Hinv' Hroom ltac:(lia)). destruct (launch_loop fuel st4) as [[] st5].
    + destruct IH as (? & ? & ? & ?). split_and!; [done..|simpl; lia].
    + done.
Qed.

Lemma launch_next_inv P st :
  race_inv P (rs_attempts st) st → length (rs_attempts st) < MAX_PARALLEL_CONNECT_ATTEMPTS →
  let '(launched, st') := launch_next st in
  race_inv P (rs_attempts st') st' ∧
  rs_happy_eyeballs_timeout st' = rs_happy_eyeballs_timeout st ∧
  if launched then rs_attempts st' ≠ [] ∧ length (schedule st') < length (schedule st)
  else rs_attempts st' = rs_attempts st ∧ schedule st' = [].
Proof. intros ??. apply launch_loop_inv; [done..|]. rewrite schedule_length. lia. Qed.

(** Polling the attempts: the failed ones are recorded and dropped. *)
Lemma poll_loop_inv P now answer polled todo fl st :
  (now, answer) ∈ P → race_inv P (polled ++ todo) st →
  Forall (λ a, answer (at_order a) = Pending) polled →
  let '(event, st') := poll_loop answer polled todo fl st in
  match event with
  | Ready (Connected c) => ∃ a, started a ∧ answer (at_order a) = Ready (Ok c)
  | Ready DelayElapsed => False
  | Ready AllAttemptsFailed => rs_attempts st' = []
  | Pending => rs_attempts st' = [] → fl = false ∧ polled ++ todo = []
  end ∧
  (match event with Ready (Connected _) => True | _ => race_inv P (rs_attempts st') st' end) ∧
  (event = Pending → Forall (λ a, answer (at_order a) = Pending) (rs_attempts st')) ∧
  schedule st' = schedule st ∧ rs_happy_eyeballs_timeout st' = rs_happy_eyeballs_timeout st.
Proof.
  intros HP. revert polled fl st.
  induction todo as [|a todo IH]; intros polled fl st Hinv Hpend; cbn [poll_loop].
  - rewrite app_nil_r in *. assert (race_inv P polled (set_attempts polled st)) by (by destruct Hinv).
    destruct fl, polled as [|b polled]; by split_and!.
  - destruct (answer (at_order a)) as [[c|e]|] eqn:Ha.
    + split_and!; [|done..]. exists a. split; [|done].
      destruct Hinv as [_ _ Hl _ _ _ _ _]. apply Forall_app in Hl as [_ [[_ ?] _]%Forall_cons]. done.
    + set (e' := with_addr _ _).
      assert (failed P (at_order a) e') as Hf.
      { destruct Hinv as [_ _ Hl _ _ _ _ _]. apply Forall_app in Hl as [_ [[_ [? _]] _]%Forall_cons].
        exists (at_addr a). split; [done|]. right. by exists now, answer, e. }
      pose proof (race_inv_record _ _ _ _ _ _ Hinv Hf) as Hinv'.
      specialize (IH polled true _ Hinv' Hpend).
      destruct (record_error_same (at_order a) e' st) as (_ & _ & Hs & Hh). rewrite Hs, Hh in IH.
      destruct (poll_loop _ _ _ _ _) as [[[]|] st']; [done..|].
      destruct IH as (H1 & ?). split; [|done]. intros [??]%H1. done.
    + specialize (IH (polled ++ [a]) fl st). rewrite <-(assoc_L (++)) in IH. apply IH; [done|].
      apply Forall_app. by repeat constructor.
Qed.

Lemma poll_loop_pending answer polled todo st :
  Forall (λ a, answer (at_order a) = Pending) todo →
  poll_loop answer polled todo false st = (Pending, set_attempts (polled ++ todo) st).
Proof.
  intros Ht. revert polled. induction Ht as [|a todo Ha Ht IH]; intros polled; cbn [poll_loop].
  - by rewrite app_nil_r.
  - rewrite Ha, IH. by rewrite <-(assoc_L (++)).
Qed.

Lemma poll_loop_all answer polled todo fl st :
  (∀ o, answer o ≠ Pending) → fl = true ∨ todo ≠ [] → polled = [] →
  (poll_loop answer polled todo fl st).1 ≠ Pending.
Proof.
  intros Hall. revert polled fl st. induction todo as [|a todo IH]; intros polled fl st Hor ->.
  - by destruct Hor as [->|].
  - cbn [poll_loop]. destruct (answer (at_order a)) as [[c|e]|] eqn:Ha; [done| |by apply Hall in Ha].
    apply IH; [by left|done].
Qed.

Lemma make_room_inv P st :
  race_inv P (rs_attempts st) st →
  let st' := make_room_for_next_attempt st in
  race_inv P (rs_attempts st') st' ∧ length (rs_attempts st') < MAX_PARALLEL_CONNECT_ATTEMPTS ∧
  schedule st' = schedule st ∧ rs_happy_eyeballs_timeout st' = rs_happy_eyeballs_timeout st.
Proof.
  intros Hinv. unfold make_room_for_next_attempt. case_decide as Hd; [done|].
  destruct Hinv as [Hn Hs Hl Hso Hlen He Hacc Hhe].
  destruct (rs_attempts st) as [|a l] eqn:Ea; [simpl in Hd; unfold MAX_PARALLEL_CONNECT_ATTEMPTS in Hd; lia|].
  cbn. split_and!; [|simpl in Hlen; lia|done|done].
  assert (at_order a + 6 ≤ rs_next_attempt_order st)%Z as Hroom.
  { enough (at_order a + Z.of_nat (length (a :: l)) ≤ rs_next_attempt_order st)%Z.
    { unfold MAX_PARALLEL_CONNECT_ATTEMPTS in *. lia. }
    apply sorted_room; [done|]. eapply Forall_impl; [exact Hl|]. simpl. lia. }
  split; cbn; try done.
  - by apply Forall_cons in Hl as [_ ?].
  - by apply StronglySorted_inv in Hso as [? _].
  - simpl in Hlen. lia.
  - intros o Ho. destruct (Hacc o Ho) as [H|[H|H]]; [|by auto..].
    rewrite fmap_cons, elem_of_cons in H. destruct H as [->|H]; [|by auto]. by auto.
Qed.

(** ** Results *)

(** Every address was tried: the error is the one of the earliest attempt that
    was not given up for six later ones. *)
Definition exhausted (P : Polls) (e : ConnectError) : Prop :=
  (sched = [] ∧ e = network_unreachable) ∨
  ∃ o, (0 ≤ o < Z.of_nat (length sched))%Z ∧ failed P o e ∧
    ∀ o', (0 ≤ o' < o)%Z → (o' + 6 ≤ Z.of_nat (length sched))%Z.
Definition connected (P : Polls) (c : C) : Prop :=
  ∃ now answer a, (now, answer) ∈ P ∧ started a ∧ answer (at_order a) = Ready (Ok c).

Lemma take_error_exhausted P st :
  race_inv P [] st → schedule st = [] → exhausted P (take_error st).
Proof.
  intros [Hn Hs _ _ _ He Hacc _] Hnil. rewrite Hs in Hnil.
  assert (rs_next_attempt_order st = Z.of_nat (length sched)) as Hall.
  { apply (f_equal length) in Hnil. rewrite length_drop in Hnil. simpl in Hnil. lia. }
  unfold take_error. destruct (rs_first_error st) as [[o e]|] eqn:E; simpl.
  - right. destruct (He o e eq_refl) as [Ho Hf]. exists o. split_and!; [lia|lia|done|].
    intros o' Ho'. destruct (Hacc o') as [H|[(o1 & e1 & [= <- <-] & H)|H]]; [lia|by apply elem_of_nil in H|lia|lia].
  - left. split; [|done]. destruct sched as [|a l] eqn:Es; [done|]. exfalso.
    destruct (Hacc (rs_next_attempt_order st - 1)%Z) as [H|[(o1 & e1 & [=] & _)|H]];
      [simpl in Hall; lia|by apply elem_of_nil in H|lia].
Qed.

(** The deadline of the race has passed. *)
Context (deadline : option Z).
Definition timed_out (P : Polls) (e : ConnectError) : Prop :=
  ∃ d now answer, deadline = Some d ∧ (now, answer) ∈ P ∧ (d ≤ now)%Z ∧ e = connect_timed_out.

(** While the race goes on, an attempt is in flight, and the next address has
    its delay when there is one. *)
Definition racing_ok (P : Polls) (r : Racing) : Prop :=
  match r with
  | Waiting st sleep =>
    race_inv P (rs_attempts st) st ∧ rs_attempts st ≠ [] ∧
    (is_Some sleep ↔ is_Some (to_happy_eyeballs_timeout config) ∧ schedule st ≠ [])
  | Finished (Ok c) => connected P c
  | Finished (Err e) => timed_out P e ∨ exhausted P e
  end.

Lemma has_remaining_schedule st : has_remaining_addrs st = true ↔ schedule st ≠ [].
Proof.
  assert (schedule st = [] ↔ remaining st = 0) as ->.
  { rewrite <-schedule_length. by destruct (schedule st). }
  unfold has_remaining_addrs, remaining.
  destruct (rs_preferred st), (fallback_addrs st); simpl; split; try done; lia.
Qed.

Lemma race_head_ok P now st :
  race_inv P (rs_attempts st) st →
  racing_ok P (race_head now st) ∧
  match race_head now st with
  | Waiting st' _ => length (schedule st') ≤ length (schedule st) ∧
      (rs_attempts st = [] → length (schedule st') < length (schedule st))
  | Finished _ => True
  end.
Proof.
  intros Hinv. unfold race_head. set (x := match rs_attempts st with [] => _ | _ => _ end).
  assert (let '(active, st') := x in
    race_inv P (rs_attempts st') st' ∧
    if active then rs_attempts st' ≠ [] ∧ length (schedule st') ≤ length (schedule st) ∧
      (rs_attempts st = [] → length (schedule st') < length (schedule st))
    else rs_attempts st' = [] ∧ schedule st' = []) as Hx.
  { unfold x. destruct (rs_attempts st) eqn:Ea.
    - pose proof (launch_next_inv P st) as Hln. rewrite Ea in Hln.
      specialize (Hln Hinv ltac:(unfold MAX_PARALLEL_CONNECT_ATTEMPTS; simpl; lia)).
      destruct (launch_next st) as [[] st']; [|tauto]. destruct Hln as (? & _ & ? & ?).
      split_and!; [done|done|lia|lia].
    - rewrite Ea. split_and!; [done|done|lia|done]. }
  clearbody x. destruct x as [[] st']; cbn.
  - destruct Hx as (Hi & Hne & Hle & Hlt). pose proof (ri_he _ _ _ Hi) as Hhe.
    pose proof (has_remaining_schedule st') as Hrem.
    destruct (rs_happy_eyeballs_timeout st') as [d|]; [destruct (has_remaining_addrs st')|];
      cbn; rewrite <-Hhe; (split; [split_and!|by split]); try done.
    + by destruct Hi.
    + split; [|done]. intros _. split; [done|]. by apply Hrem.
    + split; [by intros []|]. intros [_ H]. by apply Hrem in H.
    + split; [by intros []|]. by intros [[] _].
  - destruct Hx as (Hi & Ha & Hs). split; [|done]. right. rewrite Ha in Hi. by apply take_error_exhausted.
Qed.

(** ** Polls *)
Lemma set_attempts_same st : set_attempts (rs_attempts st) st = st.
Proof. by destruct st. Qed.

(** The future has nothing to do before the time or an answer changes. *)
Definition stable (now : Z) (answer : Z → poll (result C BoxError)) (r : Racing) : Prop :=
  match r with
  | Waiting st sleep => poll_event now answer st sleep = (Pending, st)
  | Finished _ => True
  end.

(** After an event the future has a result, or fewer addresses are left. *)
Lemma next_round P now st st0 :
  race_inv P (rs_attempts st) st → length (rs_attempts st) < MAX_PARALLEL_CONNECT_ATTEMPTS →
  (rs_attempts st = [] ∨ schedule st ≠ []) → length (schedule st) ≤ length (schedule st0) →
  let r := race_head now (launch_next st).2 in
  racing_ok P r ∧
  match r with Waiting st' _ => length (schedule st') < length (schedule st0) | Finished _ => True end.
Proof.
  intros Hinv Hroom Hor Hle. pose proof (launch_next_inv P st Hinv Hroom) as Hln.
  destruct (launch_next st) as [launched st1]. destruct Hln as (Hi1 & _ & Hl). cbn [snd].
  destruct (race_head_ok P now st1 Hi1) as [Hok Hlt]. split; [done|].
  destruct (race_head now st1) as [st' ?|]; [|done]. destruct Hlt as [Hlt1 Hlt2].
  destruct launched; [lia|]. destruct Hl as [Ha Hs]. rewrite Hs in *. simpl in *.
  destruct Hor as [Hnil|Hne]; [rewrite Hnil in Ha; specialize (Hlt2 Ha); lia|].
  destruct (schedule st); [done|]. simpl in *. lia.
Qed.

Lemma poll_event_ok P now answer st sleep :
  (now, answer) ∈ P → racing_ok P (Waiting st sleep) →
  let '(event, st') := poll_event now answer st sleep in
  schedule st' = schedule st ∧
  match event with
  | Ready (Connected c) => connected P c
  | Ready AllAttemptsFailed => race_inv P (rs_attempts st') st' ∧ rs_attempts st' = []
  | Ready DelayElapsed => race_inv P (rs_attempts st') st' ∧ schedule st ≠ []
  | Pending => racing_ok P (Waiting st' sleep) ∧ stable now answer (Waiting st' sleep)
  end.
Proof.
  intros HP (Hinv & Hne & Hsl). unfold poll_event, poll_attempts.
  pose proof (poll_loop_inv P now answer [] (rs_attempts st) false st HP Hinv ltac:(constructor)) as H.
  destruct (poll_loop _ _ _ _ _) as [[[c| |]|] st']; destruct H as (Hev & Hi & Hpend & Hs & Hh).
  - destruct Hev as (a & ? & ?). split; [done|]. by exists now, answer, a.
  - done.
  - done.
  - specialize (Hpend eq_refl). split; [done|].
    assert (rs_attempts st' ≠ []) as Hne' by (intros [_ ?]%Hev; done).
    destruct sleep as [d|].
    + destruct (d <=? now)%Z eqn:Hd; [split; [done|by apply Hsl]|].
      split; [split_and!; [done|done|by rewrite Hs]|]. cbn [stable]. unfold poll_event, poll_attempts.
      rewrite poll_loop_pending by done. cbn [app]. by rewrite set_attempts_same, Hd.
    + split; [split_and!; [done|done|by rewrite Hs]|]. cbn [stable]. unfold poll_event, poll_attempts.
      rewrite poll_loop_pending by done. cbn [app]. by rewrite set_attempts_same.
Qed.

Definition race_measure (r : Racing) : nat :=
  match r with Waiting st _ => S (length (schedule st)) | Finished _ => 0 end.

Lemma race_poll_ok P fuel now answer r :
  (now, answer) ∈ P → racing_ok P r → race_measure r < fuel →
  racing_ok P (race_poll fuel now answer r) ∧ stable now answer (race_poll fuel now answer r).
Proof.
  intros HP. revert r. induction fuel as [|fuel IH]; intros r Hok Hm; [lia|].
  destruct r as [st sleep|res]; cbn [race_poll]; [|done].
  pose proof (poll_event_ok P now answer st sleep HP Hok) as He.
  destruct (poll_event _ _ _ _) as [[[c| |]|] st'] eqn:Ev; destruct He as [Hs He]; [done| | |done].
  - destruct He as [Hi Ha].
    destruct (next_round P now st' st Hi) as [Hok' Hlt];
      [rewrite Ha; unfold MAX_PARALLEL_CONNECT_ATTEMPTS; simpl; lia|by left|by rewrite Hs|].
    apply IH; [done|]. destruct (race_head _ _); simpl in *; lia.
  - destruct He as [Hi Hne]. destruct (make_room_inv P st' Hi) as (Hi' & Hroom & Hs' & _).
    destruct (next_round P now (make_room_for_next_attempt st') st Hi' Hroom) as [Hok' Hlt];
      [right; by rewrite Hs', Hs|by rewrite Hs', Hs|].
    apply IH; [done|]. destruct (race_head _ _); simpl in *; lia.
Qed.

Lemma race_fuel_enough r : race_measure r < race_fuel r.
Proof. destruct r; simpl; [rewrite schedule_length|]; lia. Qed.

Lemma racing_ok_mono P P' r : P ⊆ P' → racing_ok P r → racing_ok P' r.
Proof.
  intros HP. destruct r as [st sleep|[c|e]]; simpl.
  - intros (? & ? & ?). split_and!; [by eapply race_inv_mono|done|done].
  - intros (now & answer & a & ? & ?). exists now, answer, a. split; [by apply HP|done].
  - intros [(d & now & answer & ? & ? & ?)|[?|(o & ? & Hf & ?)]].
    + left. exists d, now, answer. split_and!; [done|by apply HP|tauto|tauto].
    + right. by left.
    + right. right. exists o. split_and!; [lia|lia|by eapply failed_mono|done].
Qed.

Lemma connect_poll_ok P r p :
  racing_ok P r → racing_ok (P ++ [p]) (connect_poll deadline r p).
Proof.
  intros Hok. destruct p as [now answer]. unfold connect_poll. cbn [fst snd].
  destruct (race_poll_ok (P ++ [(now, answer)]) (race_fuel r) now answer r) as [H _];
    [set_solver|eapply racing_ok_mono; [|done]; set_solver|apply race_fuel_enough|].
  unfold poll_with_timeout. destruct (race_poll _ _ _ _), deadline as [d|] eqn:Ed; try done.
  destruct (d <=? now)%Z eqn:Hd; [|done]. left. exists d, now, answer.
  split_and!; [done|set_solver|by apply Z.leb_le|done].
Qed.

(** One poll takes every event there is; at the deadline, or when every attempt
    answers, the race has its result. *)
Lemma connect_poll_finishes P r now answer :
  racing_ok P r →
  stable now answer (connect_poll deadline r (now, answer)) ∧
  ((∃ d, deadline = Some d ∧ (d ≤ now)%Z) ∨ (∀ o, answer o ≠ Pending) →
   ∃ res, connect_poll deadline r (now, answer) = Finished res).
Proof.
  intros Hok. unfold connect_poll. cbn [fst snd].
  destruct (race_poll_ok (P ++ [(now, answer)]) (race_fuel r) now answer r) as [H Hst];
    [set_solver|eapply racing_ok_mono; [|done]; set_solver|apply race_fuel_enough|].
  destruct (race_poll _ _ _ _) as [st sleep|res]; [|by destruct deadline; eauto].
  split.
  - unfold poll_with_timeout. destruct deadline as [d|]; [|done]. by destruct (d <=? now)%Z.
  - intros [(d & -> & Hd)|Hall]; [cbn; apply Z.leb_le in Hd; rewrite Hd; eauto|]. exfalso.
    destruct H as (_ & Hne & _). cbn [stable] in Hst. unfold poll_event, poll_attempts in Hst.
    destruct (rs_attempts st) as [|a l] eqn:Ea; [done|].
    pose proof (poll_loop_all answer [] (a :: l) false st Hall ltac:(by right) eq_refl) as Hpl.
    by destruct (poll_loop _ _ _ _ _) as [[[c| |]|] st'].
Qed.

(** ** The sequential path

    [tried] addresses failed, the first of them with the error that is kept. *)
Definition first_failure (P : Polls) (tried : nat) (fe : option ConnectError) : Prop :=
  (∀ i, i < tried → ∃ e, failed P (Z.of_nat i) e) ∧
  match fe with Some e => 0 < tried ∧ failed P 0 e | None => tried = 0 end.
Definition seq_ok (P : Polls) (s : Sequential) : Prop :=
  match s with
  | SeqStart addrs => addrs = sched
  | SeqWaiting a addrs fe =>
    (0 ≤ at_order a)%Z ∧ started a ∧ addrs = drop (S (Z.to_nat (at_order a))) sched ∧
    first_failure P (Z.to_nat (at_order a)) fe
  | SeqFinished (Ok c) =>
    ∃ now answer a, (now, answer) ∈ P ∧ started a ∧ (0 ≤ at_order a)%Z ∧
      answer (at_order a) = Ready (Ok c) ∧ ∀ o, (0 ≤ o < at_order a)%Z → ∃ e, failed P o e
  | SeqFinished (Err e) =>
    timed_out P e ∨
    ((sched = [] ∧ e = network_unreachable) ∨ failed P 0 e) ∧
    ∀ o, (0 ≤ o < Z.of_nat (length sched))%Z → ∃ e, failed P o e
  end.

Lemma first_failure_next P n fe e :
  first_failure P n fe → failed P (Z.of_nat n) e → first_failure P (S n) (keep_first fe e).
Proof.
  clear Hmax.
  intros [Hall Hfe] He. split.
  - intros i Hi. destruct (decide (i = n)) as [->|]; [eauto|]. apply Hall. lia.
  - destruct fe; simpl; [destruct Hfe; split; [lia|done]|]. subst n. split; [lia|done].
Qed.

Lemma first_failure_all P n fe o :
  first_failure P n fe → (0 ≤ o < Z.of_nat n)%Z → ∃ e, failed P o e.
Proof. intros [Hall _] Ho. rewrite <-(Z2Nat.id o) by lia. apply Hall. lia. Qed.

Lemma seq_loop_ok P now answer n addrs fe :
  (now, answer) ∈ P → addrs = drop n sched → n ≤ length sched → first_failure P n fe →
  seq_ok P (seq_loop answer addrs (Z.of_nat n) fe).
Proof.
  clear Hmax.
  intros HP. revert n fe. induction addrs as [|a addrs IH]; intros n fe Hd Hle Hf; cbn [seq_loop].
  - right. assert (n = length sched) as ->.
    { apply (f_equal length) in Hd. rewrite length_drop in Hd. simpl in Hd. lia. }
    split; [|eauto using first_failure_all]. destruct Hf as [_ Hf]. destruct fe; simpl; [tauto|].
    left. split; [by apply length_zero_iff_nil|done].
  - assert (sched !! n = Some a) as Ha
      by (rewrite <-(Nat.add_0_r n), <-lookup_drop, <-Hd; done).
    assert (addrs = drop (S n) sched) as Hd' by (erewrite drop_S in Hd by done; by simplify_eq).
    apply lookup_lt_Some in Ha as Hlt. replace (Z.of_nat n + 1)%Z with (Z.of_nat (S n)) by lia.
    assert (∀ e, failed P (Z.of_nat n) e → seq_ok P (seq_loop answer addrs (Z.of_nat (S n)) (keep_first fe e)))
      as Hnext by (intros e He; apply IH; [done|lia|by apply first_failure_next]).
    destruct (setup (Z.of_nat n) a) as [[]|e] eqn:Hs.
    + assert (started {| at_addr := a; at_order := Z.of_nat n |}) as Hst
        by (split; [simpl; by rewrite Nat2Z.id|done]).
      destruct (answer (Z.of_nat n)) as [[c|e]|] eqn:Hans.
      * exists now, answer, {| at_addr := a; at_order := Z.of_nat n |}.
        split; [done|]. split; [done|]. split; [simpl; lia|]. split; [done|].
        intros o Ho. by eapply first_failure_all.
      * apply Hnext. exists a. rewrite Nat2Z.id. split; [done|]. right. by exists now, answer, e.
      * cbn [seq_ok at_order]. rewrite Nat2Z.id. split; [lia|]. by split; [|split].
    + apply Hnext. exists a. rewrite Nat2Z.id. split; [done|]. left. eauto.
Qed.

Lemma first_failure_mono P P' n fe : P ⊆ P' → first_failure P n fe → first_failure P' n fe.
Proof.
  clear Hmax.
  intros HP [Hall Hfe]. split.
  - intros i Hi. destruct (Hall i Hi) as [e He]. eauto using failed_mono.
  - destruct fe; [|done]. destruct Hfe. eauto using failed_mono.
Qed.

Lemma seq_connect_poll_ok P s p :
  seq_ok P s → (∃ a fe, s = SeqWaiting a (drop (S (Z.to_nat (at_order a))) sched) fe) ∨
                s = SeqStart sched →
  seq_ok (P ++ [p]) (seq_connect_poll deadline s p).
Proof.
  clear Hmax.
  intros Hok Hs. destruct p as [now answer]. set (P' := P ++ [(now, answer)]).
  assert ((now, answer) ∈ P') as HP by (unfold P'; set_solver).
  assert (P ⊆ P') as Hsub by (unfold P'; set_solver).
  assert (seq_ok P' (seq_poll answer s)) as Hp.
  { destruct Hs as [(a & fe & ->)| ->]; cbn [seq_poll].
    - destruct Hok as (H0 & Hst & _ & Hff). apply (first_failure_mono _ P') in Hff; [|done].
      destruct (answer (at_order a)) as [[c|e]|] eqn:Ha; [| |by split_and!].
      + exists now, answer, a. split; [done|]. split; [done|]. split; [done|]. split; [done|].
        intros o Ho. eapply first_failure_all; [done|lia].
      + destruct Hst as [Hl Hset]. replace (at_order a + 1)%Z with (Z.of_nat (S (Z.to_nat (at_order a)))) by lia.
        apply lookup_lt_Some in Hl as Hlt.
        eapply (seq_loop_ok _ now); [done|done|lia|]. apply first_failure_next; [done|].
        rewrite Z2Nat.id by done. exists (at_addr a). split; [done|]. right. by exists now, answer, e.
    - apply (seq_loop_ok P' now answer 0); [done|done|lia|]. split; [lia|done]. }
  unfold seq_connect_poll. cbn [fst snd]. destruct (seq_poll answer s) as [| |res]; try done.
  all: destruct deadline as [d|] eqn:Ed; [|done]; destruct (d <=? now)%Z eqn:Hd; [|done].
  all: left; exists d, now, answer; split_and!; [done|done|by apply Z.leb_le|done].
Qed.

Lemma seq_run_ok polls s P :
  seq_ok P s → seq_ok (P ++ polls) (foldl (seq_connect_poll deadline) s polls).
Proof.
  clear Hmax.
  revert P s. induction polls as [|p polls IH]; intros P s Hok; [by rewrite app_nil_r|].
  cbn [foldl]. rewrite cons_middle, (assoc_L (++)). apply IH.
  destruct s as [addrs|a addrs fe|res].
  - cbn in Hok. subst addrs. by apply seq_connect_poll_ok; [|right].
  - apply seq_connect_poll_ok; [done|]. left. exists a, fe. by destruct Hok as (_ & _ & -> & _).
  - unfold seq_connect_poll. cbn [seq_poll]. destruct res as [c|e].
    + destruct Hok as (now & answer & a & ? & ? & ? & ? & Hall). exists now, answer, a.
      split_and!; [set_solver|by destruct H0..|done|done|].
      intros o Ho. destruct (Hall o Ho) as [e He]. exists e. eapply failed_mono; [|done]. set_solver.
    + destruct Hok as [(d & now & answer & ? & ? & ?)|[Hor Hall]].
      * left. exists d, now, answer. split_and!; [done|set_solver|tauto|tauto].
      * right. split; [destruct Hor as [?|Hf]; [by left|right; eapply failed_mono; [|done]; set_solver]|].
        intros o Ho. destruct (Hall o Ho) as [e' He]. exists e'. eapply failed_mono; [|done]. set_solver.
Qed.
End invariant.

(** ** Runs *)
Definition race_schedule (now : Z) (addrs : SocketAddrs) : SocketAddrs :=
  schedule (RaceState_new (ConnectingTcp_new now addrs)).
Definition race_deadline (now : Z) : option Z := (λ d, (now + d)%Z) <$> to_connect_timeout config.

Lemma race_schedule_eq now addrs :
  race_schedule now addrs =
  match to_happy_eyeballs_timeout config with
  | Some _ =>
    let '(preferred, fallback) :=
      split_by_preference addrs (ipv4_address (to_socket_bind config))
        (ipv6_address (to_socket_bind config)) in
    alternate preferred fallback
  | None => addrs
  end.
Proof.
  unfold race_schedule, schedule, ConnectingTcp_new, fallback_addrs.
  destruct (to_happy_eyeballs_timeout config); simpl; [|by rewrite alternate_nil_r].
  destruct (split_by_preference _ _ _) as [pref [|y fb]]; simpl; [|done]. by rewrite alternate_nil_r.
Qed.

Lemma race_schedule_length now addrs : length (race_schedule now addrs) ≤ length addrs.
Proof.
  rewrite race_schedule_eq. destruct (to_happy_eyeballs_timeout config); [|done].
  pose proof (split_length addrs (ipv4_address (to_socket_bind config))
    (ipv6_address (to_socket_bind config))) as H.
  destruct (split_by_preference _ _ _). by rewrite alternate_length.
Qed.

Lemma race_run_ok now addrs polls :
  (Z.of_nat (length addrs) ≤ u64_max)%Z →
  racing_ok (race_schedule now addrs) (race_deadline now) polls (race_run now addrs polls).
Proof.
  intros Hmax. pose proof (race_schedule_length now addrs) as Hlen.
  assert (Z.of_nat (length (race_schedule now addrs)) ≤ u64_max)%Z as Hmax' by lia.
  unfold race_run. set (r0 := race_head _ _).
  assert (racing_ok (race_schedule now addrs) (race_deadline now) [] r0) as H0.
  { apply race_head_ok; [done|]. split; cbn [RaceState_new rs_attempts rs_next_attempt_order];
      first [done|constructor|intros ?; lia|lia|idtac]; unfold MAX_PARALLEL_CONNECT_ATTEMPTS; simpl; lia. }
  clearbody r0. fold (race_deadline now).
  change polls with ([] ++ polls) at 1. revert H0. generalize ([] : list (Z * (Z → poll (result C BoxError)))).
  revert r0. induction polls as [|p polls IH]; intros r0 P H0; [by rewrite app_nil_r|].
  cbn [foldl]. rewrite cons_middle, (assoc_L (++)). apply IH. by apply connect_poll_ok.
Qed.

(** The race of connection attempts, for every list of addresses, every
    sequence of polls and every behaviour of the sockets.  While it goes on,
    between one and six attempts are in flight.  The attempts take the
    addresses of the schedule, in which the families alternate, in order and
    each once: an attempt is at the address its launch order names, and what
    is left is the rest of the schedule.  When addresses are left, the delay
    of the next one is running. *)
Theorem race_in_flight now addrs polls st sleep :
  (Z.of_nat (length addrs) ≤ u64_max)%Z → race_run now addrs polls = Waiting st sleep →
  let sched := race_schedule now addrs in
  let next := rs_next_attempt_order st in
  1 ≤ length (rs_attempts st) ≤ MAX_PARALLEL_CONNECT_ATTEMPTS ∧
  (0 ≤ next ≤ Z.of_nat (length sched))%Z ∧ schedule st = drop (Z.to_nat next) sched ∧
  StronglySorted (λ a b, (at_order a < at_order b)%Z) (rs_attempts st) ∧
  Forall (λ a, (0 ≤ at_order a < next)%Z ∧
               sched !! Z.to_nat (at_order a) = Some (at_addr a)) (rs_attempts st) ∧
  (is_Some sleep ↔ is_Some (to_happy_eyeballs_timeout config) ∧ schedule st ≠ []).
Proof.
  intros Hmax Hrun. pose proof (race_run_ok now addrs polls Hmax) as Hok. rewrite Hrun in Hok.
  destruct Hok as ([Hn Hs Hl Hso Hlen _ _ _] & Hne & Hsl). split_and!; try done; try lia.
  - destruct (rs_attempts st); [done|simpl; lia].
  - eapply Forall_impl; [exact Hl|]. simpl. intros a (? & ? & ?). done.
Qed.


(** C20: The race ends.  One poll takes every event that has happened: polled
    again at the same time with the same answers, a race that goes on has
    nothing to do.  A poll at or after the deadline, and a poll in which every
    attempt answers, end the race. *)
Theorem race_terminates now addrs polls t answer :
  (Z.of_nat (length addrs) ≤ u64_max)%Z →
  stable t answer (race_run now addrs (polls ++ [(t, answer)])) ∧
  ((∃ d, to_connect_timeout config = Some d ∧ (now + d ≤ t)%Z) ∨ (∀ o, answer o ≠ Pending) →
   ∃ res, race_run now addrs (polls ++ [(t, answer)]) = Finished res).
Proof.
  intros Hmax. pose proof (race_run_ok now addrs polls Hmax) as Hok.
  pose proof (race_schedule_length now addrs) as Hlen.
  unfold race_run in *. rewrite foldl_app. cbn [foldl]. fold (race_deadline now) in *.
  destruct (connect_poll_finishes (race_schedule now addrs) ltac:(lia) (race_deadline now) polls _ t answer Hok)
    as [Hst Hfin].
  split; [done|]. intros Hor. apply Hfin. destruct Hor as [(d & Hd & ?)|?]; [left|by right].
  unfold race_deadline. rewrite Hd. simpl. eauto.
Qed.

Lemma sequential_schedule now addrs :
  takes_sequential (ConnectingTcp_new now addrs) = true →
  ct_preferred (ConnectingTcp_new now addrs) = race_schedule now addrs.
Proof.
  unfold takes_sequential, race_schedule, schedule, RaceState_new, fallback_addrs. simpl.
  destruct (ct_fallback _); [done|]. simpl. by rewrite alternate_nil_r.
Qed.

(** Without a race, the addresses are tried one after the other: a connection
    is the first one that succeeds, after all earlier addresses have failed;
    otherwise the error is the one of the first address, after every address
    has failed, or a timeout after the deadline. *)
Theorem sequential_result now addrs polls res :
  tcp_run now addrs polls = InSequence (SeqFinished res) →
  let sched := race_schedule now addrs in
  match res with
  | Ok c => ∃ t answer o a, (t, answer) ∈ polls ∧ sched !! Z.to_nat o = Some a ∧ (0 ≤ o)%Z ∧
      answer o = Ready (Ok c) ∧ ∀ o', (0 ≤ o' < o)%Z → ∃ e, failed sched polls o' e
  | Err e =>
    (∃ d t answer, to_connect_timeout config = Some d ∧ (t, answer) ∈ polls ∧ (now + d ≤ t)%Z ∧
       e = connect_timed_out) ∨
    ((sched = [] ∧ e = network_unreachable) ∨ failed sched polls 0 e) ∧
    ∀ o, (0 ≤ o < Z.of_nat (length sched))%Z → ∃ e, failed sched polls o e
  end.
Proof.
  unfold tcp_run. intros Hrun. destruct (takes_sequential _) eqn:Hs; [|done]. injection Hrun as Hrun.
  rewrite (sequential_schedule _ _ Hs) in Hrun. fold (race_deadline now) in Hrun.
  pose proof (seq_run_ok (race_schedule now addrs) (race_deadline now) polls
    (SeqStart (race_schedule now addrs)) [] eq_refl) as Hok.
  simpl app in Hok. rewrite Hrun in Hok. destruct res as [c|e]; cbn in Hok.
  - destruct Hok as (t & answer & a & ? & [? _] & ? & ? & ?). by exists t, answer, (at_order a), (at_addr a).
  - destruct Hok as [(d & t & answer & Hd & ? & ? & ->)|Hex]; [left|by right].
    unfold race_deadline in Hd. destruct (to_connect_timeout config) as [d'|]; [|done].
    simpl in Hd. injection Hd as <-. by exists d', t, answer.
Qed.
End race.

(** ** Examples *)
Module RaceExamples.
Definition addr4 (n : Z) : SocketAddr :=
  {| sa_ip := V4 n; sa_port := 443; sa_flowinfo := 0; sa_scope_id := 0 |}.
Definition addr6 (n : Z) : SocketAddr :=
  {| sa_ip := V6 n; sa_port := 443; sa_flowinfo := 0; sa_scope_id := 0 |}.
Definition options (he : option Z) : TcpOptions :=
  {| to_enforce_http := false; to_connect_timeout := Some 1000%Z; to_happy_eyeballs_timeout := he;
     to_nodelay := true; to_reuse_address := false; to_linger := None;
     to_send_buffer_size := None; to_recv_buffer_size := None; to_tcp_user_timeout := None;
     to_tcp_keepalive := {| ka_time := None; ka_interval := None; ka_retries := None |};
     to_socket_bind := SocketBindOptions_default |}.
Definition os_ok (o : Z) (op : SockOp) : option BoxError := None.
(** Two addresses of each family; the resolver prefers IPv6. *)
Definition dual : SocketAddrs := [addr6 1; addr6 2; addr4 1; addr4 2].
Definition refused : BoxError := io_error IoOther [NOther #"refused"].
Definition silent (o : Z) : poll (result nat BoxError) := Pending.
Definition all_refused (o : Z) : poll (result nat BoxError) := Ready (Err refused).
Definition second_connects (o : Z) : poll (result nat BoxError) :=
  if (o =? 1)%Z then Ready (Ok 7) else Pending.

Lemma race_in_flight_witness :
  ∃ st sleep,
    race_run (options (Some 200%Z)) os_ok 0 dual [(100%Z, silent); (200%Z, silent)] =
      Waiting st sleep ∧
    1 ≤ length (rs_attempts st) ≤ 6 ∧ at_addr <$> rs_attempts st = [addr6 1; addr4 1].
Proof.
  eexists _, _. split; [vm_compute; reflexivity|]. split; [|reflexivity].
  apply (race_in_flight (options (Some 200%Z)) os_ok 0 dual [(100%Z, silent); (200%Z, silent)] _ (Some 400%Z));
    [done|vm_compute; reflexivity].
Defined.


Lemma race_terminates_witness :
  ∃ res, race_run (options (Some 200%Z)) os_ok 0 dual ([(200%Z, silent)] ++ [(1000%Z, silent)]) =
    Finished res.
Proof.
  apply (race_terminates (options (Some 200%Z)) os_ok 0 dual [(200%Z, silent)] 1000 silent); [done|].
  left. exists 1000%Z. done.
Defined.

Lemma sequential_result_witness :
  tcp_run (options None) os_ok 0 dual [(10%Z, all_refused)] =
    InSequence (SeqFinished (Err (with_addr (addr6 1) (ConnectError_tcp refused)))) ∧
  ∃ t answer o a, (t, answer) ∈ [(10%Z, λ o, if (o =? 0)%Z then all_refused o else second_connects o)] ∧
    race_schedule (options None) 0 dual !! Z.to_nat o = Some a ∧ (0 ≤ o)%Z ∧
    answer o = Ready (Ok 7) ∧
    ∀ o', (0 ≤ o' < o)%Z → ∃ e, failed (options None) os_ok (race_schedule (options None) 0 dual)
      [(10%Z, λ o, if (o =? 0)%Z then all_refused o else second_connects o)] o' e.
Proof.
  split; [vm_compute; reflexivity|].
  apply (sequential_result (options None) os_ok 0 dual
    [(10%Z, λ o, if (o =? 0)%Z then all_refused o else second_connects o)] (Ok 7)).
  vm_compute; reflexivity.
Defined.
End RaceExamples.
