(* ===== verification/Timeout.v ===== *)
(** * Timeouts

    [src/client/layer/timeout.rs] with its [future] and [body] modules: the
    total and the read timeout of a request, and [src/conn/timeout.rs]: the
    timeout of a connection.

    Futures and bodies are machines that are polled.  A poll has the time, in
    nanoseconds; it gives an answer, the times for which it has registered to
    be woken, and the machine after it.  A [Sleep] is its deadline: it is ready
    from then on, and a poll of it before registers a wake-up at the deadline. *)

From S2P Require Import Prelude Http Errors Ext Message.

(** ** Machines *)
Definition Polled (A S : Type) : Type := poll A * list Z * S.
(** The machine is replaced, with wake-ups registered before. *)
Definition polled_in {A S S'} (wakes : list Z) (put : S → S') (p : Polled A S) : Polled A S' :=
  let '(a, w, s) := p in (a, wakes ++ w, put s).

(** An optional sleep: whether it is ready, and the wake-up it registers. *)
Definition sleep_ready (now : Z) (sleep : option Z) : bool :=
  match sleep with Some deadline => (deadline <=? now)%Z | None => false end.
Definition sleep_wakes (sleep : option Z) : list Z :=
  match sleep with Some deadline => [deadline] | None => [] end.

(** The [Body] trait of [http_body], with [F] the frames. *)
Class HttpBody (B F : Type) := {
  poll_frame : Z → B → Polled (option (result F BoxError)) B;
}.

(** ** The connection timeout *)
Section connect.
Context {Fut T : Type} (poll_fut : Z → Fut → Polled (result T BoxError) Fut).

Record TimeoutFuture := {
  tf_future : Fut;
  tf_sleep : option Z;
}.
Definition timeout_connector_call (now : Z) (timeout : option Z) (fut : Fut) : TimeoutFuture :=
  {| tf_future := fut; tf_sleep := (λ d, (now + d)%Z) <$> timeout |}.
Definition timeout_future_poll (now : Z) (self : TimeoutFuture) :
    Polled (result T BoxError) TimeoutFuture :=
  let '(answer, wakes, fut) := poll_fut now (tf_future self) in
  let self := {| tf_future := fut; tf_sleep := tf_sleep self |} in
  match answer with
  | Ready result => (Ready result, wakes, self)
  | Pending =>
    if sleep_ready now (tf_sleep self) then (Ready (Err TimedOut), wakes, self)
    else (Pending, wakes ++ sleep_wakes (tf_sleep self), self)
  end.
End connect.
Arguments TimeoutFuture : clear implicits.

(** ** Options *)
Record TimeoutOptions := {
  read_timeout : option Z;
  total_timeout : option Z;
}.
Definition TimeoutOptions_default : TimeoutOptions := {| read_timeout := None; total_timeout := None |}.
Definition set_read_timeout (d : Z) (self : TimeoutOptions) : TimeoutOptions :=
  {| read_timeout := Some d; total_timeout := total_timeout self |}.
Definition set_total_timeout (d : Z) (self : TimeoutOptions) : TimeoutOptions :=
  {| read_timeout := read_timeout self; total_timeout := Some d |}.

Definition fetch_timeout_options {E} (slot : Slot E (RequestConfig TimeoutOptions))
    (opts : RequestConfig TimeoutOptions) (extensions : E) : option Z * option Z :=
  match opts, fetch slot opts extensions with
  | Some opts, Some request_opts =>
    (match total_timeout request_opts with Some d => Some d | None => total_timeout opts end,
     match read_timeout request_opts with Some d => Some d | None => read_timeout opts end)
  | Some opts, None => (total_timeout opts, read_timeout opts)
  | None, Some opts => (total_timeout opts, read_timeout opts)
  | None, None => (None, None)
  end.

(** ** Bodies *)
Section body.
Context {B F : Type} `{HB : HttpBody B F}.

Definition poll_and_map_body (now : Z) (body : B) : Polled (option (result F BoxError)) B :=
  match poll_frame now body with
  | (Ready opt, wakes, body) => (Ready (map_err Error_decode <$> opt), wakes, body)
  | (Pending, wakes, body) => (Pending, wakes, body)
  end.
End body.

Record TotalTimeoutBody (B : Type) := TotalTimeoutBody_new {
  tb_body : B;
  tb_timeout : Z;
}.
Arguments TotalTimeoutBody_new {B}.
Arguments tb_body {B}.
Arguments tb_timeout {B}.

Record ReadTimeoutBody (B : Type) := ReadTimeoutBody_new {
  rb_body : B;
  rb_sleep : option Z;
  rb_armed : bool;
  rb_timeout : Z;
}.
Arguments ReadTimeoutBody_new {B}.
Arguments rb_body {B}.
Arguments rb_sleep {B}.
Arguments rb_armed {B}.
Arguments rb_timeout {B}.

Section bodies.
Context {B F : Type} `{HB : HttpBody B F}.

Definition body_timed_out : poll (option (result F BoxError)) :=
  Ready (Some (Err (Error_body TimedOut))).

Definition total_poll_frame (now : Z) (self : TotalTimeoutBody B) :
    Polled (option (result F BoxError)) (TotalTimeoutBody B) :=
  if (tb_timeout self <=? now)%Z then (body_timed_out, [], self)
  else
    polled_in [tb_timeout self] (λ body, TotalTimeoutBody_new body (tb_timeout self))
      (poll_and_map_body now (tb_body self)).

(** The deadline is set when a read begins. *)
Definition arm (now : Z) (self : ReadTimeoutBody B) : ReadTimeoutBody B :=
  if rb_armed self then self
  else ReadTimeoutBody_new (rb_body self) (Some (now + rb_timeout self)%Z) true (rb_timeout self).
Definition read_poll_frame (now : Z) (self : ReadTimeoutBody B) :
    Polled (option (result F BoxError)) (ReadTimeoutBody B) :=
  let self := arm now self in
  if sleep_ready now (rb_sleep self) then (body_timed_out, [], self)
  else
    polled_in (sleep_wakes (rb_sleep self)) id
      (match poll_frame now (rb_body self) with
       | (Pending, wakes, body) =>
         (Pending, wakes, ReadTimeoutBody_new body (rb_sleep self) (rb_armed self) (rb_timeout self))
       | (Ready frame, wakes, body) =>
         (Ready frame, wakes, ReadTimeoutBody_new body (rb_sleep self) false (rb_timeout self))
       end).
End bodies.

#[export] Instance total_body `{HttpBody B F} : HttpBody (TotalTimeoutBody B) F :=
  {| poll_frame := total_poll_frame |}.
#[export] Instance read_body `{HttpBody B F} : HttpBody (ReadTimeoutBody B) F :=
  {| poll_frame := read_poll_frame |}.

Inductive TimeoutBody (B : Type) :=
| Plain (body : B)
| TotalTimeout (body : TotalTimeoutBody B)
| ReadTimeout (body : ReadTimeoutBody B)
| CombinedTimeout (body : TotalTimeoutBody (ReadTimeoutBody B)).
Arguments Plain {B}.
Arguments TotalTimeout {B}.
Arguments ReadTimeout {B}.
Arguments CombinedTimeout {B}.

Definition TimeoutBody_new {B} (body : B) (read_timeout total_timeout : option Z) : TimeoutBody B :=
  match total_timeout, read_timeout with
  | Some total_timeout, Some read_timeout =>
    CombinedTimeout
      (TotalTimeoutBody_new (ReadTimeoutBody_new body None false read_timeout) total_timeout)
  | Some timeout, None => TotalTimeout (TotalTimeoutBody_new body timeout)
  | None, Some timeout => ReadTimeout (ReadTimeoutBody_new body None false timeout)
  | None, None => Plain body
  end.

Definition timeout_poll_frame `{HttpBody B F} (now : Z) (self : TimeoutBody B) :
    Polled (option (result F BoxError)) (TimeoutBody B) :=
  match self with
  | TotalTimeout body => polled_in [] TotalTimeout (poll_frame now body)
  | ReadTimeout body => polled_in [] ReadTimeout (poll_frame now body)
  | CombinedTimeout body => polled_in [] CombinedTimeout (poll_frame now body)
  | Plain body => polled_in [] Plain (poll_and_map_body now body)
  end.
#[export] Instance timeout_body `{HttpBody B F} : HttpBody (TimeoutBody B) F :=
  {| poll_frame := timeout_poll_frame |}.

(** [poll_frame] of the crate's [Body], in which the response body is boxed. *)
Definition body_poll_frame `{HttpBody B F} (now : Z) (body : B) :
    Polled (option (result F BoxError)) B :=
  match poll_frame now body with
  | (Ready opt, wakes, body) => (Ready (map_err downcast_or_request <$> opt), wakes, body)
  | (Pending, wakes, body) => (Pending, wakes, body)
  end.

(** ** The response future *)
Section response.
(** The head of a response, and the future of the service below. *)
Context {B F P Fut : Type} `{HB : HttpBody B F}.
Context (poll_fut : Z → Fut → Polled (result (P * B) BoxError) Fut).

Record ResponseFuture := {
  rf_fut : Fut;
  rf_read_timeout : option Z;
  rf_read_timeout_fut : option Z;
  rf_total_timeout_fut : option Z;
}.

Definition timeout_call {E} (slot : Slot E (RequestConfig TimeoutOptions))
    (timeout : RequestConfig TimeoutOptions) (now : Z) (extensions : E) (fut : Fut) :
    ResponseFuture :=
  let '(total_timeout, read_timeout) := fetch_timeout_options slot timeout extensions in
  {| rf_fut := fut; rf_read_timeout := read_timeout;
     rf_read_timeout_fut := (λ d, (now + d)%Z) <$> read_timeout;
     rf_total_timeout_fut := (λ d, (now + d)%Z) <$> total_timeout |}.

Definition request_timed_out : poll (result (P * TimeoutBody B) BoxError) :=
  Ready (Err (Error_request TimedOut)).
Definition response_poll (now : Z) (self : ResponseFuture) :
    Polled (result (P * TimeoutBody B) BoxError) ResponseFuture :=
  if sleep_ready now (rf_total_timeout_fut self) then (request_timed_out, [], self)
  else if sleep_ready now (rf_read_timeout_fut self) then
    (request_timed_out, sleep_wakes (rf_total_timeout_fut self), self)
  else
    let '(answer, wakes, fut) := poll_fut now (rf_fut self) in
    let wakes := sleep_wakes (rf_total_timeout_fut self) ++
                 sleep_wakes (rf_read_timeout_fut self) ++ wakes in
    let put total :=
      {| rf_fut := fut; rf_read_timeout := rf_read_timeout self;
         rf_read_timeout_fut := rf_read_timeout_fut self; rf_total_timeout_fut := total |} in
    match answer with
    | Pending => (Pending, wakes, put (rf_total_timeout_fut self))
    | Ready (Err e) => (Ready (Err e), wakes, put (rf_total_timeout_fut self))
    | Ready (Ok (head, body)) =>
      (Ready (Ok (head, TimeoutBody_new body (rf_read_timeout self) (rf_total_timeout_fut self))),
       wakes, put None)
    end.

(** ** A whole exchange

    The future is polled until it has the response, and the body is polled
    after it. *)
Context (uri : Uri).
Inductive Exchange :=
| InFuture (fut : ResponseFuture)
| InBody (body : TimeoutBody B)
| Closed.
Inductive Seen :=
| SeenPending
| SeenResponse (head : P)
| SeenFrame (frame : F)
| SeenEnd
| SeenError (e : BoxError)
| SeenNothing.
Definition exchange_poll (now : Z) (x : Exchange) : Seen * list Z * Exchange :=
  match x with
  | InFuture fut =>
    match response_poll now fut with
    | (Pending, wakes, fut) => (SeenPending, wakes, InFuture fut)
    | (Ready (Err e), wakes, _) => (SeenError (pending_error uri e), wakes, Closed)
    | (Ready (Ok (head, body)), wakes, _) => (SeenResponse head, wakes, InBody body)
    end
  | InBody body =>
    let '(answer, wakes, body) := body_poll_frame now body in
    (match answer with
     | Pending => SeenPending
     | Ready None => SeenEnd
     | Ready (Some (Ok frame)) => SeenFrame frame
     | Ready (Some (Err e)) => SeenError e
     end, wakes, InBody body)
  | Closed => (SeenNothing, [], Closed)
  end.
Fixpoint exchange_run (times : list Z) (x : Exchange) : list (Z * Seen) * Exchange :=
  match times with
  | [] => ([], x)
  | now :: times =>
    let '(seen, _, x) := exchange_poll now x in
    let '(log, x) := exchange_run times x in
    ((now, seen) :: log, x)
  end.

(** ** Deadlines *)
Definition body_total (b : TimeoutBody B) : option Z :=
  match b with
  | TotalTimeout b => Some (tb_timeout b)
  | CombinedTimeout b => Some (tb_timeout b)
  | _ => None
  end.
Definition read_part (b : TimeoutBody B) : option (ReadTimeoutBody B) :=
  match b with
  | ReadTimeout b => Some b
  | CombinedTimeout b => Some (tb_body b)
  | _ => None
  end.
Definition inner_body (b : TimeoutBody B) : B :=
  match b with
  | Plain b => b
  | TotalTimeout b => tb_body b
  | ReadTimeout b => rb_body b
  | CombinedTimeout b => rb_body (tb_body b)
  end.
(** The deadline of the read that goes on. *)
Definition armed_deadline (b : ReadTimeoutBody B) : option Z :=
  if rb_armed b then rb_sleep b else None.
(** Whether a poll at [now] is too late. *)
Definition body_expired (now : Z) (b : TimeoutBody B) : bool :=
  sleep_ready now (body_total b) ||
  match read_part b with Some r => sleep_ready now (rb_sleep (arm now r)) | None => false end.

Definition exchange_total (x : Exchange) : option Z :=
  match x with
  | InFuture fut => rf_total_timeout_fut fut
  | InBody body => body_total body
  | Closed => None
  end.
Definition exchange_read (x : Exchange) : option Z :=
  match x with
  | InFuture fut => rf_read_timeout_fut fut
  | InBody body => r ← read_part body; armed_deadline r
  | Closed => None
  end.

Lemma TimeoutBody_new_total (body : B) rt tt : body_total (TimeoutBody_new body rt tt) = tt.
Proof. by destruct tt, rt. Qed.

Lemma arm_body now (r : ReadTimeoutBody B) : rb_body (arm now r) = rb_body r.
Proof. unfold arm. by destruct (rb_armed r). Qed.
Lemma arm_armed now (r : ReadTimeoutBody B) : rb_armed (arm now r) = true.
Proof. unfold arm. by destruct (rb_armed r) eqn:E. Qed.
Lemma arm_timeout now (r : ReadTimeoutBody B) : rb_timeout (arm now r) = rb_timeout r.
Proof. unfold arm. by destruct (rb_armed r). Qed.

(** One poll of a body with a read timeout. *)
Lemma read_poll_spec now (r : ReadTimeoutBody B) :
  read_poll_frame now r =
  if sleep_ready now (rb_sleep (arm now r)) then (body_timed_out, [], arm now r)
  else
    let '(inner, w, body) := poll_frame now (rb_body r) in
    (inner, sleep_wakes (rb_sleep (arm now r)) ++ w,
     ReadTimeoutBody_new body (rb_sleep (arm now r))
       (match inner with Pending => true | Ready _ => false end) (rb_timeout r)).
Proof.
  unfold read_poll_frame. rewrite arm_body, arm_armed, arm_timeout.
  destruct (sleep_ready _ _); [done|].
  by destruct (poll_frame now (rb_body r)) as [[[f|] w] body].
Qed.

Lemma timeout_body_step now (b : TimeoutBody B) :
  let '(answer, _, b') := timeout_poll_frame now b in
  body_total b' = body_total b ∧
  if body_expired now b then
    inner_body b' = inner_body b ∧
    ∃ e, answer = Ready (Some (Err e)) ∧ is_timeout e = true
  else
    let '(inner, _, body') := poll_frame now (inner_body b) in
    inner_body b' = body' ∧
    match inner, answer with
    | Pending, Pending | Ready None, Ready None => True
    | Ready (Some (Ok frame)), Ready (Some (Ok frame')) => frame' = frame
    | Ready (Some (Err e)), Ready (Some (Err e')) =>
      e' = if bool_decide (body_total b = None ∧ is_Some (read_part b)) then e else Error_decode e
    | _, _ => False
    end.
Proof.
  destruct b as [body|[body t]|r|[r t]];
    cbn [timeout_poll_frame poll_frame total_body read_body body_total read_part inner_body tb_body];
    unfold body_expired, total_poll_frame, poll_and_map_body;
    cbn [body_total read_part sleep_ready orb poll_frame read_body tb_timeout tb_body];
    rewrite ?read_poll_spec, ?orb_false_r;
    repeat (case_match; simplify_eq; cbn in *; rewrite ?arm_body);
    first [done|split_and!; eauto; done|by rewrite bool_decide_false by (intros [[=] _] || intros [_ []])|idtac].
  unfold body_timed_out in *. simplify_eq. cbn. eauto.
Qed.

Lemma downcast_timeout (e : BoxError) : is_timeout e = true → is_timeout (downcast_or_request e) = true.
Proof.
  intros H. unfold downcast_or_request, Error_request, new_error. destruct e as [|n e]; [done|].
  assert (is_timeout (NError KRequest None :: n :: e) = true) as H'; [|by destruct n].
  unfold is_timeout in *. cbn [err_source tail] in *. apply any_source_true in H as (m & Hm & Hp).
  apply any_source_true. exists m. by split; [right|].
Qed.

Lemma pending_error_timeout (e : BoxError) u : is_timeout e = true → is_timeout (pending_error u e) = true.
Proof.
  intros H%downcast_timeout. unfold pending_error.
  by destruct (downcast_or_request e) as [|[? []| | | | | | | | | | | |] ?].
Qed.

(** One poll of a response body under the timeouts.  A poll after a deadline,
    of the whole exchange or of the read that goes on, does not touch the body
    and answers with a timeout.  Any other poll polls the body once and answers
    what it answers: the same frames and the same end; an error of the body
    becomes a decoding error, unless there is only a read timeout. *)
Theorem timeout_body_spec now (b : TimeoutBody B) :
  let '(answer, _, b') := timeout_poll_frame now b in
  body_total b' = body_total b ∧
  if body_expired now b then
    inner_body b' = inner_body b ∧
    ∃ e, answer = Ready (Some (Err e)) ∧ is_timeout e = true
  else
    let '(inner, _, body') := poll_frame now (inner_body b) in
    inner_body b' = body' ∧
    match inner, answer with
    | Pending, Pending | Ready None, Ready None => True
    | Ready (Some (Ok frame)), Ready (Some (Ok frame')) => frame' = frame
    | Ready (Some (Err e)), Ready (Some (Err e')) =>
      e' = if bool_decide (body_total b = None ∧ is_Some (read_part b)) then e else Error_decode e
    | _, _ => False
    end.
Proof. apply timeout_body_step. Qed.

(** ** The total timeout *)
Lemma body_poll_total now (b : TimeoutBody B) :
  body_total (body_poll_frame now b).2 = body_total b.
Proof.
  unfold body_poll_frame. cbn [poll_frame timeout_body].
  pose proof (timeout_body_step now b) as H.
  by destruct (timeout_poll_frame now b) as [[[o|] w] b'], H.
Qed.

Lemma body_poll_expired now (b : TimeoutBody B) :
  sleep_ready now (body_total b) = true →
  ∃ e, (body_poll_frame now b).1.1 = Ready (Some (Err e)) ∧ is_timeout e = true.
Proof.
  intros Hr. unfold body_poll_frame. cbn [poll_frame timeout_body].
  pose proof (timeout_body_step now b) as H. unfold body_expired in H. rewrite Hr in H. cbn [orb] in H.
  destruct (timeout_poll_frame now b) as [[answer w] b'], H as (_ & _ & e & -> & He).
  cbn. eexists. split; [done|]. by apply downcast_timeout.
Qed.

Lemma exchange_total_step now x :
  (exchange_poll now x).2 = Closed ∨ exchange_total (exchange_poll now x).2 = exchange_total x.
Proof.
  destruct x as [fut|body|]; cbn [exchange_poll exchange_total]; [|right|by left].
  - unfold response_poll. repeat (case_match; simplify_eq; cbn; auto).
    right. apply TimeoutBody_new_total.
  - rewrite <-(body_poll_total now body). by destruct (body_poll_frame now body) as [[? ?] ?].
Qed.

Lemma exchange_expired now x :
  sleep_ready now (exchange_total x) = true →
  ∃ e, (exchange_poll now x).1.1 = SeenError e ∧ is_timeout e = true.
Proof.
  destruct x as [fut|body|]; cbn [exchange_poll exchange_total]; intros Hr; [| |done].
  - unfold response_poll. rewrite Hr. cbn. by eexists.
  - destruct (body_poll_expired now body Hr) as (e & He & ?).
    destruct (body_poll_frame now body) as [[? ?] ?]. cbn in *. subst. eauto.
Qed.

Lemma exchange_run_expired times x d :
  x = Closed ∨ exchange_total x = Some d →
  Forall (λ '(t, seen), (d ≤ t)%Z →
    seen = SeenNothing ∨ ∃ e, seen = SeenError e ∧ is_timeout e = true) (exchange_run times x).1.
Proof.
  revert x. induction times as [|t times IH]; intros x Hx; cbn; [done|].
  pose proof (exchange_total_step t x) as Hstep. pose proof (exchange_expired t x) as Hexp.
  assert (x = Closed → exchange_poll t x = (SeenNothing, [], Closed)) as Hclosed by (by intros ->).
  destruct (exchange_poll t x) as [[seen w] x'] eqn:E. cbn [fst snd] in Hstep, Hexp.
  specialize (IH x'). destruct (exchange_run times x') as [log x2]. cbn [fst] in *. constructor.
  - intros Ht. destruct Hx as [->|Hx]; [left; by specialize (Hclosed eq_refl); simplify_eq|].
    right. apply Hexp. unfold sleep_ready. rewrite Hx. by apply Z.leb_le.
  - apply IH. destruct Hx as [->|Hx]; [left; by specialize (Hclosed eq_refl); simplify_eq|].
    destruct Hstep as [->| ->]; auto.
Qed.

(** C17: The total timeout covers the whole exchange: whatever the service below
    and the body do, and whenever they are polled, no poll at or after the
    deadline, counted from the call, gives a response, a frame or an end of
    the body, nor does it wait: it gives an error that reports a timeout, until
    the future has failed. *)
Theorem total_timeout_covers_exchange {E} (slot : Slot E (RequestConfig TimeoutOptions))
    opts (ext : E) start fut d times t seen :
  (fetch_timeout_options slot opts ext).1 = Some d →
  (t, seen) ∈ (exchange_run times (InFuture (timeout_call slot opts start ext fut))).1 →
  (start + d ≤ t)%Z →
  seen = SeenNothing ∨ ∃ e, seen = SeenError e ∧ is_timeout e = true.
Proof.
  intros Hd Hin Ht.
  pose proof (exchange_run_expired times (InFuture (timeout_call slot opts start ext fut)) (start + d)) as H.
  rewrite Forall_forall in H. refine (H _ (t, seen) Hin Ht). right. cbn. unfold timeout_call.
  destruct (fetch_timeout_options slot opts ext) as [total rt]. cbn in Hd. by subst.
Qed.

(** ** Wake-ups *)
Lemma sleep_ready_false now s d : sleep_ready now s = false → s = Some d → (now < d)%Z.
Proof. intros H ->. cbn in H. lia. Qed.
Lemma elem_sleep_wakes (d : Z) s : s = Some d → d ∈ sleep_wakes s.
Proof. intros ->. set_solver. Qed.

Lemma body_pending_wakes now (b : TimeoutBody B) w b' :
  timeout_poll_frame now b = (Pending, w, b') →
  ∀ d, body_total b' = Some d ∨ (r ← read_part b'; armed_deadline r) = Some d →
  (now < d)%Z ∧ d ∈ w.
Proof.
  destruct b as [body|[body t]|r|[r t]]; cbn [timeout_poll_frame poll_frame total_body read_body];
    unfold total_poll_frame, poll_and_map_body;
    cbn [poll_frame read_body tb_timeout tb_body]; rewrite ?read_poll_spec;
    repeat (case_match; simplify_eq; cbn in *);
    intros ?; simplify_eq; cbn in *; intros d [Hd|Hd]; simplify_eq; cbn in *;
    first [done|split; [lia|set_solver]
          |split; [by eapply sleep_ready_false|apply elem_of_app; left; by apply elem_sleep_wakes]|idtac].
  split; [by eapply sleep_ready_false|]. apply elem_sleep_wakes in Hd. set_solver.
Qed.

(** An exchange that waits will be woken: a poll that gives no answer has
    registered a wake-up for every deadline that is running, the total one and
    the one of the read that goes on, and none of them has passed. *)
Theorem timeouts_wake now x w x' d :
  exchange_poll now x = (SeenPending, w, x') →
  exchange_total x' = Some d ∨ exchange_read x' = Some d →
  (now < d)%Z ∧ d ∈ w.
Proof.
  destruct x as [fut|body|]; cbn [exchange_poll]; [| |done].
  - unfold response_poll. destruct (sleep_ready now (rf_total_timeout_fut fut)) eqn:Ht; [done|].
    destruct (sleep_ready now (rf_read_timeout_fut fut)) eqn:Hr; [done|].
    destruct (poll_fut now (rf_fut fut)) as [[[[[head body]|e]|] w1] fut']; [done..|].
    intros [= <- <-] [Hd|Hd]; cbn in Hd;
      (split; [by eauto using sleep_ready_false|apply elem_sleep_wakes in Hd; set_solver]).
  - unfold body_poll_frame. cbn [poll_frame timeout_body].
    destruct (timeout_poll_frame now body) as [[[o|] w1] b'] eqn:E.
    + by destruct o as [[]|].
    + intros [= <- <-]. apply (body_pending_wakes _ _ _ _ E).
Qed.

(** ** The read timeout *)

(** What the read timeout promises: a read begins with its first poll and ends
    when the body answers; it fails once it has taken the timeout. *)
Record ReadSpec := {
  sp_body : B;
  sp_began : option Z;
}.
Definition spec_poll (timeout now : Z) (s : ReadSpec) : poll (option (result F BoxError)) * ReadSpec :=
  let began := default now (sp_began s) in
  if (began + timeout <=? now)%Z
  then (body_timed_out, {| sp_body := sp_body s; sp_began := Some began |})
  else
    match poll_frame now (sp_body s) with
    | (Pending, _, body) => (Pending, {| sp_body := body; sp_began := Some began |})
    | (Ready frame, _, body) => (Ready frame, {| sp_body := body; sp_began := None |})
    end.
Fixpoint polls {S A} (step : Z → S → A * S) (times : list Z) (s : S) : list A :=
  match times with
  | [] => []
  | now :: times => let '(a, s) := step now s in a :: polls step times s
  end.
Definition code_poll (now : Z) (r : ReadTimeoutBody B) :
    poll (option (result F BoxError)) * ReadTimeoutBody B :=
  let '(answer, _, r) := read_poll_frame now r in (answer, r).

(** The simulation relation. *)
Definition implements (timeout : Z) (r : ReadTimeoutBody B) (s : ReadSpec) : Prop :=
  rb_body r = sp_body s ∧ rb_timeout r = timeout ∧
  match sp_began s with
  | Some began => rb_armed r = true ∧ rb_sleep r = Some (began + timeout)%Z
  | None => rb_armed r = false
  end.

Lemma implements_arm timeout now r s :
  implements timeout r s →
  rb_sleep (arm now r) = Some (default now (sp_began s) + timeout)%Z ∧ rb_body r = sp_body s ∧
  rb_timeout r = timeout.
Proof.
  intros (? & ? & Hb). unfold arm. destruct (sp_began s) as [b|].
  - destruct Hb as [-> ->]. done.
  - rewrite Hb. cbn. by subst.
Qed.

Lemma implements_poll timeout now r s :
  implements timeout r s →
  (code_poll now r).1 = (spec_poll timeout now s).1 ∧
  implements timeout (code_poll now r).2 (spec_poll timeout now s).2.
Proof.
  intros H. destruct (implements_arm timeout now r s H) as (Hs & Hb & Ht).
  unfold code_poll, spec_poll. rewrite read_poll_spec, Hs, Hb, Ht. cbn [sleep_ready].
  destruct (default now (sp_began s) + timeout <=? now)%Z.
  - cbn. split; [done|]. unfold implements. cbn. by rewrite arm_body, arm_timeout, arm_armed.
  - by destruct (poll_frame now (sp_body s)) as [[[o|] w] body].
Qed.

(** C19: The read timeout implements its promise, for every body and every
    sequence of polls: the deadline of a read counts from the first poll of
    that read, whatever the reads before it and the time between reads. *)
Theorem read_timeout_refines timeout body times :
  polls code_poll times (ReadTimeoutBody_new body None false timeout) =
  polls (spec_poll timeout) times {| sp_body := body; sp_began := None |}.
Proof.
  assert (implements timeout (ReadTimeoutBody_new body None false timeout)
    {| sp_body := body; sp_began := None |}) as H by done.
  revert H. generalize (ReadTimeoutBody_new body None false timeout).
  generalize {| sp_body := body; sp_began := None |}.
  induction times as [|t times IH]; intros s r H; [done|]. cbn [polls].
  destruct (implements_poll timeout t r s H) as [Ha Hi].
  destruct (code_poll t r) as [a r'], (spec_poll timeout t s) as [a' s']. cbn in *.
  rewrite Ha. f_equal. by apply IH.
Qed.
End response.

(** ** The connection timeout

    A connection that is there wins over the deadline; one that is not fails
    from the deadline on. *)
Lemma timeout_future_spec {Fut T} (poll_fut : Z → Fut → Polled (result T BoxError) Fut) now self :
  (timeout_future_poll poll_fut now self).1.1 =
  match (poll_fut now (tf_future self)).1.1 with
  | Ready r => Ready r
  | Pending => if sleep_ready now (tf_sleep self) then Ready (Err TimedOut) else Pending
  end.
Proof.
  unfold timeout_future_poll. destruct (poll_fut _ _) as [[[] ?] ?]; [done|]. cbn.
  by destruct (sleep_ready _ _).
Qed.

(** ** Examples *)
Module TimeoutExamples.
(** A body that gives the frames of a list, each when its time has come. *)
Definition slow_body : HttpBody (list (Z * nat)) nat :=
  {| poll_frame now b :=
       match b with
       | [] => (Ready None, [], [])
       | (t, frame) :: rest =>
         if (t <=? now)%Z then (Ready (Some (Ok frame)), [], rest) else (Pending, [t], b)
       end |}.
Definition slot : Slot (option (RequestConfig TimeoutOptions)) (RequestConfig TimeoutOptions) :=
  {| sl_get e := e; sl_set v _ := v; sl_get_set v e := eq_refl |}.
Definition opts : RequestConfig TimeoutOptions :=
  Some {| read_timeout := Some 30%Z; total_timeout := Some 100%Z |}.
(** A service that responds at time 20. *)
Definition respond (now : Z) (fut : unit) :
    Polled (result (nat * list (Z * nat)) BoxError) unit :=
  if (20 <=? now)%Z then (Ready (Ok (200, [(40%Z, 1); (70%Z, 2); (300%Z, 3)])), [], tt)
  else (Pending, [20%Z], tt).
Definition uri : Uri :=
  {| uri_scheme := Some HTTP;
     uri_authority := Some {| auth_str := #"example.com"; auth_host := #"example.com";
                              auth_port := None |};
     uri_path_and_query := Some {| pq_path := #"/"; pq_query := None |} |}.
Definition start := InFuture (timeout_call slot opts 0 None tt) : @Exchange (list (Z * nat)) unit.
Definition times : list Z := [0; 20; 40; 41; 70; 100; 120]%Z.

Lemma total_timeout_covers_exchange_witness :
  (120%Z, SeenError (Error_body TimedOut)) ∈
    (exchange_run (HB := slow_body) respond uri times start).1 ∧
  ∃ seen, (120%Z, seen) ∈ (exchange_run (HB := slow_body) respond uri times start).1 ∧
    (seen = SeenNothing ∨ ∃ e, seen = SeenError e ∧ is_timeout e = true).
Proof.
  assert ((120%Z, SeenError (Error_body TimedOut)) ∈
    (exchange_run (HB := slow_body) respond uri times start).1) as Hin.
  { vm_compute. repeat first [left|right]. }
  split; [done|]. eexists. split; [exact Hin|].
  eapply (total_timeout_covers_exchange (HB := slow_body) respond uri slot opts None 0 tt 100 times 120);
    [reflexivity|exact Hin|lia].
Defined.

Lemma timeouts_wake_witness :
  (40 < 70)%Z ∧ 70%Z ∈ [100%Z; 70%Z; 70%Z].
Proof.
  apply (timeouts_wake (HB := slow_body) respond uri 40
    (InBody (TimeoutBody_new [(70%Z, 2)] (Some 30%Z) (Some 100%Z)))
    [100%Z; 70%Z; 70%Z]
    (InBody (CombinedTimeout (TotalTimeoutBody_new
      (ReadTimeoutBody_new [(70%Z, 2)] (Some 70%Z) true 30) 100))) 70);
    [vm_compute; reflexivity|right; reflexivity].
Defined.

(** Frames arrive between the deadlines, the pause between the reads at 41 and
    70 is not counted, and the third read takes too long. *)
Example exchange_log :
  (exchange_run (HB := slow_body) respond uri [0; 20; 40; 41; 70; 99; 120]%Z start).1 =
  [(0%Z, SeenPending); (20%Z, SeenResponse 200); (40%Z, SeenFrame 1); (41%Z, SeenPending);
   (70%Z, SeenFrame 2); (99%Z, SeenPending); (120%Z, SeenError (Error_body TimedOut))].
Proof. vm_compute. reflexivity. Qed.
End TimeoutExamples.
