(* ===== verification/Layers.v ===== *)
(** * The layers of a user

    The ends of [ConnectorBuilder::build] ([src/conn/connector.rs]) and of
    [ClientBuilder::build] ([src/client.rs]): the layers a user adds are
    wrapped around the connector and around the client, and the timeouts of the
    crate are wrapped around them.

    A layer is any function between services.  The services between layers are
    boxed, so that they have one type of futures [Fut]. *)

From S2P Require Import Prelude Http Errors Message Timeout.

(** A service makes a future of a request, at a time. *)
Definition Service (Req Fut : Type) : Type := Z → Req → Fut.
Definition ServiceLayer (Req Fut : Type) : Type := Service Req Fut → Service Req Fut.

(** [layers.into_iter().fold(service, |service, layer| layer(service))]. *)
Definition fold_layers {Req Fut} (layers : list (ServiceLayer Req Fut)) (service : Service Req Fut) :
    Service Req Fut := foldl (λ service layer, layer service) service layers.

(** [map_err] on the answer of a poll. *)
Definition polled_map_err {A S} (f : BoxError → BoxError) (p : Polled (result A BoxError) S) :
    Polled (result A BoxError) S :=
  let '(a, w, s) := p in
  (match a with Ready r => Ready (map_err f r) | Pending => Pending end, w, s).

(** ** The connector *)
Section connector.
Context {Req Fut T : Type} (poll_fut : Z → Fut → Polled (result T BoxError) Fut).

(** [Either], of the connector without layers and the one with them. *)
Inductive ConnectFuture :=
| ConnectLeft (fut : TimeoutFuture Fut)
| ConnectRight (fut : TimeoutFuture Fut).

Definition connector_call (timeout : option Z) (layers : list (ServiceLayer Req Fut))
    (transport : Service Req Fut) : Service Req ConnectFuture := λ now req,
  match layers with
  | [] => ConnectLeft (timeout_connector_call now timeout (transport now req))
  | _ => ConnectRight (timeout_connector_call now timeout (fold_layers layers transport now req))
  end.
Definition connector_poll (now : Z) (self : ConnectFuture) : Polled (result T BoxError) ConnectFuture :=
  match self with
  | ConnectLeft fut => polled_in [] ConnectLeft (timeout_future_poll poll_fut now fut)
  | ConnectRight fut =>
    polled_in [] ConnectRight
      (polled_map_err map_timeout_to_connector_error (timeout_future_poll poll_fut now fut))
  end.

(** The polls of a future at some times; it is not polled again when it is
    ready. *)
Fixpoint run {S A} (poll_s : Z → S → Polled A S) (times : list Z) (s : S) : list (poll A * list Z) :=
  match times with
  | [] => []
  | now :: times =>
    let '(a, w, s) := poll_s now s in
    (a, w) :: match a with Pending => run poll_s times s | Ready _ => [] end
  end.

(** What a user sees of an error of the connector. *)
Definition shown_error (layers : list (ServiceLayer Req Fut)) : BoxError → BoxError :=
  match layers with [] => id | _ => map_timeout_to_connector_error end.

(** One poll, told by the future inside. *)
Definition covered (shown : BoxError → BoxError) (deadline t : Z) (inner : option (poll (result T BoxError)))
    (seen : poll (result T BoxError) * list Z) : Prop :=
  match seen with
  | (Pending, wakes) => inner = Some Pending ∧ (t < deadline)%Z ∧ deadline ∈ wakes
  | (Ready r, _) =>
    (∃ r', inner = Some (Ready r') ∧ r = map_err shown r') ∨
    inner = Some Pending ∧ (deadline <= t)%Z ∧ r = Err TimedOut
  end.

Definition run_ok (shown : BoxError → BoxError) (deadline : Z) (times : list Z)
    (inner seen : list (poll (result T BoxError) * list Z)) : Prop :=
  (∀ i t x, times !! i = Some t → seen !! i = Some x → covered shown deadline t (fst <$> inner !! i) x) ∧
  (∀ t, t ∈ times → (deadline <= t)%Z → ∃ r w, last seen = Some (Ready r, w)).

Lemma run_ok_cons shown deadline t times x y inner seen :
  covered shown deadline t (Some (fst x)) y →
  match fst y with
  | Ready _ => seen = []
  | Pending => run_ok shown deadline times inner seen
  end →
  run_ok shown deadline (t :: times) (x :: inner) (y :: seen).
Proof.
  intros Hc Hrest. split.
  - intros [|i] t' z; cbn; [by intros [= <-] [= <-]|].
    intros Ht Hz. destruct y as [[r|] w]; cbn in Hrest; [by subst|]. by eapply (proj1 Hrest).
  - intros t' Ht' Hd. destruct y as [[r|] w]; cbn in Hrest; [subst; by eexists _, _|].
    destruct Hc as (_ & Hlt & _). apply elem_of_cons in Ht' as [->|Ht']; [lia|].
    destruct (proj2 Hrest t' Ht' Hd) as (r & w' & Hl). exists r, w'. by destruct seen.
Qed.

(** A poll of the timeout around a future. *)
Lemma timeout_poll_cases now deadline fut :
  let '(a, w, f') := poll_fut now fut in
  ∃ w', timeout_future_poll poll_fut now {| tf_future := fut; tf_sleep := Some deadline |} =
    (match a with
     | Ready r => Ready r
     | Pending => if (deadline <=? now)%Z then Ready (Err TimedOut) else Pending
     end, w', {| tf_future := f'; tf_sleep := Some deadline |}) ∧
    (a = Pending → (now < deadline)%Z → deadline ∈ w').
Proof.
  unfold timeout_future_poll. cbn [tf_future tf_sleep]. destruct (poll_fut now fut) as [[a w] f']. cbn.
  destruct a; [eexists; by split|]. destruct (Z.leb_spec deadline now); eexists; split; try done.
  - intros _ ?. lia.
  - intros _ _. apply elem_of_app. right. by left.
Qed.

Lemma connect_run_ok (put : TimeoutFuture Fut → ConnectFuture) shown deadline times fut :
  (∀ now f, connector_poll now (put f) =
     polled_in [] put (polled_map_err shown (timeout_future_poll poll_fut now f))) →
  shown TimedOut = TimedOut →
  run_ok shown deadline times (run poll_fut times fut)
    (run connector_poll times (put {| tf_future := fut; tf_sleep := Some deadline |})).
Proof.
  intros Hput Hs. revert fut. induction times as [|now times IH]; intros fut.
  { split; [intros [] ? ?; done|]. by intros t ?%elem_of_nil. }
  pose proof (timeout_poll_cases now deadline fut) as Hcase. cbn [run]. rewrite Hput.
  destruct (poll_fut now fut) as [[a w] f']. destruct Hcase as (w' & -> & Hw).
  cbn [polled_map_err polled_in app].
  destruct a as [r|]; [apply run_ok_cons; [left; eauto|done]|].
  destruct (Z.leb_spec deadline now); apply run_ok_cons; cbn.
  - right. by rewrite Hs.
  - done.
  - split_and!; auto.
  - apply IH.
Qed.

(** C18: The connection timeout covers the layers of a user.  Whatever layers are
    around the connector, in each poll of a connection the user sees what the
    layered connector answers.  While there is no answer, the connection is
    pending only before the deadline, with a wake-up registered for it; from
    the deadline on it fails with a timeout, and no polling at or after the
    deadline leaves it without a result.  A timeout of [tower] among the layers
    is seen as a timeout of the crate. *)
Theorem connect_timeout_covers_layers timeout layers (transport : Service Req Fut) start req times :
  let inner := fold_layers layers transport start req in
  let seen := run connector_poll times (connector_call (Some timeout) layers transport start req) in
  run_ok (shown_error layers) (start + timeout) times (run poll_fut times inner) seen ∧
  (layers ≠ [] → ∀ e w, (Ready (Err e), w) ∈ seen → is_elapsed e = false).
Proof.
  intros inner seen. destruct layers as [|l layers].
  { split; [|done]. apply (connect_run_ok ConnectLeft); [|done]. intros now f. cbn.
    by destruct (timeout_future_poll _ _ _) as [[[[]|] ?] ?]. }
  split; [by apply (connect_run_ok ConnectRight)|]. intros _ e w.
  unfold seen, connector_call. generalize (timeout_connector_call start (Some timeout)
    (fold_layers (l :: layers) transport start req)).
  clear. induction times as [|now times IH]; intros f; [by intros ?%elem_of_nil|]. cbn [run connector_poll].
  destruct (timeout_future_poll poll_fut now f) as [[a w'] f']. cbn [polled_map_err polled_in].
  destruct a as [[x|e']|]; rewrite elem_of_cons; intros [Heq|Hin]; try done; try by apply elem_of_nil in Hin.
  - injection Heq as -> _. unfold map_timeout_to_connector_error. by destruct (is_elapsed e') eqn:He.
  - by apply (IH f').
Qed.
End connector.

(** ** The client *)
Section client.
Context {Req Fut B F P E : Type} `{HB : HttpBody B F}.
Context (poll_fut : Z → Fut → Polled (result (P * B) BoxError) Fut).
Context (slot : Slot E (RequestConfig TimeoutOptions)) (options : RequestConfig TimeoutOptions).

Inductive ClientFuture :=
| ClientLeft (fut : @ResponseFuture Fut)
| ClientRight (fut : @ResponseFuture Fut).

(** [ext] are the extensions of the request. *)
Definition layered_client_call (layers : list (ServiceLayer Req Fut)) (service : Service Req Fut) (ext : E) :
    Service Req ClientFuture := λ now req,
  match layers with
  | [] => ClientLeft (timeout_call slot options now ext (service now req))
  | _ => ClientRight (timeout_call slot options now ext (fold_layers layers service now req))
  end.
Definition layered_client_poll (now : Z) (self : ClientFuture) :
    Polled (result (P * TimeoutBody B) BoxError) ClientFuture :=
  match self with
  | ClientLeft fut => polled_in [] ClientLeft (response_poll poll_fut now fut)
  | ClientRight fut =>
    polled_in [] ClientRight (polled_map_err map_timeout_to_request_error (response_poll poll_fut now fut))
  end.

(** ** Facts

    A layer that is added later is around those before it. *)
Lemma fold_layers_snoc (layers : list (ServiceLayer Req Fut)) layer service :
  fold_layers (layers ++ [layer]) service = layer (fold_layers layers service).
Proof. unfold fold_layers. by rewrite foldl_snoc. Qed.

Lemma layered_client_total layers service ext start req total :
  (fetch_timeout_options slot options ext).1 = Some total →
  ∃ fut, (layered_client_call layers service ext start req = ClientLeft fut ∨
          layered_client_call layers service ext start req = ClientRight fut) ∧
    rf_total_timeout_fut fut = Some (start + total)%Z.
Proof.
  unfold layered_client_call, timeout_call. destruct (fetch_timeout_options _ _ _) as [t r]. cbn. intros ->.
  destruct layers; eauto.
Qed.

(** The total timeout is around the layers of a user: from its deadline on the
    first poll of the exchange ends it, whatever the layers do. *)
Lemma client_total_deadline layers service ext start req total now :
  (fetch_timeout_options slot options ext).1 = Some total → (start + total <= now)%Z →
  (layered_client_poll now (layered_client_call layers service ext start req)).1.1 = Ready (Err (Error_request TimedOut)).
Proof.
  intros Ht Hn. destruct (layered_client_total layers service ext start req total Ht) as (fut & Hc & Hf).
  assert (sleep_ready now (rf_total_timeout_fut fut) = true) as Hr by (rewrite Hf; by apply Z.leb_le).
  destruct Hc as [-> | ->]; cbn; unfold response_poll; by rewrite Hr.
Qed.

(** A timeout of [tower] among the layers is a timeout for the user. *)
Lemma client_elapsed now (fut : @ResponseFuture Fut) uri source w f' :
  sleep_ready now (rf_total_timeout_fut fut) = false →
  sleep_ready now (rf_read_timeout_fut fut) = false →
  poll_fut now (rf_fut fut) = (Ready (Err (NElapsed :: source)), w, f') →
  ∃ e, (layered_client_poll now (ClientRight fut)).1.1 = Ready (Err e) ∧ is_timeout (pending_error uri e) = true.
Proof.
  intros Ht Hr Hp. cbn. unfold response_poll. rewrite Ht, Hr, Hp. cbn. eauto.
Qed.
End client.

(** ** Examples *)
Module LayersExamples.
(** A connection that is there at a time, and a layer that waits before it. *)
Definition poll_at (now fut : Z) : Polled (result Z BoxError) Z :=
  if (fut <=? now)%Z then (Ready (Ok fut), [], fut) else (Pending, [fut], fut).
Definition transport : Service unit Z := λ now _, (now + 10)%Z.
Definition slow (d : Z) : ServiceLayer unit Z := λ inner now req, inner (now + d)%Z req.
Lemma slow_layer_times_out :
  (fst <$> run (connector_poll poll_at) [0; 50; 100; 120]%Z
             (connector_call (Some 100%Z) [slow 30%Z; slow 80%Z] transport 0%Z tt)) =
  [Pending; Pending; Ready (Err TimedOut)].
Proof. reflexivity. Qed.
Lemma fast_layer_connects :
  (fst <$> run (connector_poll poll_at) [0; 50; 100; 120]%Z
             (connector_call (Some 100%Z) [slow 30%Z] transport 0%Z tt)) =
  [Pending; Ready (Ok 40%Z)].
Proof. reflexivity. Qed.
End LayersExamples.
