(* ===== verification/Tunnel.v ===== *)
(** * Tunnels

    [src/conn/proxy/tunnel.rs] and [src/conn/proxy/socks.rs]: a connection to a
    proxy becomes a connection to the destination by a [CONNECT] request or by a
    SOCKS handshake.

    What a peer sends is the list of what the reads of the connection give, an
    empty chunk being the end of the stream.  The parser of responses
    ([httparse]) and the SOCKS client ([tokio_socks]) are parameters. *)

From S2P Require Import Prelude Http Errors Net Ext Dns Message.

(** ** Errors *)
Inductive TunnelError :=
| TConnectFailed (e : BoxError)
| TIo (e : BoxError)
| TParse (e : BoxError)
| TMissingHost
| ProxyAuthRequired
| TunnelUnexpectedEof
| TunnelUnsuccessful.
(** The boxed error, with its [source]. *)
Definition boxed_tunnel (e : TunnelError) : BoxError :=
  NTunnel :: match e with
             | TConnectFailed e | TIo e | TParse e => e
             | _ => []
             end.

Inductive SocksError :=
| SConnectFailed (e : BoxError)
| SDnsResolveFailure (e : BoxError)
| SSocks (e : BoxError)
| SIo (e : BoxError)
| SUtf8
| SDnsFailure
| SMissingHost.
(** [SocksError] has no [source]. *)
Definition boxed_socks (e : SocksError) : BoxError := [NSocks].

(** ** The [CONNECT] tunnel *)
Abbreviation Reads := (list (result str BoxError)).
Section tunnel.
Context `{HM : HeaderMapLib}.

Inductive Headers :=
| HEmpty
| HAuth (auth : HeaderValue)
| HExtra (extra : HeaderMap HeaderValue).

Definition set_sensitive (v : HeaderValue) : HeaderValue :=
  {| hv_bytes := hv_bytes v; hv_sensitive := true |}.
Definition tunnel_with_auth (auth : HeaderValue) (headers : Headers) : Headers :=
  let auth := set_sensitive auth in
  match headers with
  | HEmpty | HAuth _ => HAuth auth
  | HExtra extra => HExtra (hm_insert PROXY_AUTHORIZATION auth extra)
  end.
Definition tunnel_with_headers (new : HeaderMap HeaderValue) (headers : Headers) : Headers :=
  match headers with
  | HEmpty => HExtra new
  | HAuth auth =>
    HExtra (if hm_contains_key new PROXY_AUTHORIZATION then new
            else hm_insert PROXY_AUTHORIZATION auth new)
  | HExtra extra => HExtra (hm_extend extra new)
  end.

(** The request, as it is written to the proxy. *)
Definition connect_line (host : str) (port : Z) : str :=
  #"CONNECT " ++ host ++ #":" ++ decimal port ++ #" HTTP/1.1".
Definition host_line (host : str) (port : Z) : str := #"Host: " ++ host ++ #":" ++ decimal port.
Definition header_line (name : HeaderName) (value : HeaderValue) : str :=
  name ++ #": " ++ hv_bytes value.
Definition connect_request (host : str) (port : Z) (headers : Headers) : str :=
  connect_line host port ++ CRLF ++ host_line host port ++ CRLF ++
  match headers with
  | HAuth auth => #"Proxy-Authorization: " ++ hv_bytes auth ++ CRLF
  | HExtra extra => hm_iter extra ≫= λ '(name, value), header_line name value ++ CRLF
  | HEmpty => []
  end ++ CRLF.

(** The lines of a message head. *)
Fixpoint crlf_lines (s : str) : list str :=
  match s with
  | [] => [[]]
  | c :: s' =>
    match s' with
    | d :: rest =>
      if decide (c = CR ∧ d = LF) then [] :: crlf_lines rest
      else match crlf_lines s' with l :: ls => (c :: l) :: ls | [] => [[c]] end
    | [] => [[c]]
    end
  end.
Definition clean (s : str) : Prop := Forall (λ c, c ≠ CR ∧ c ≠ LF) s.

Lemma crlf_lines_ne s : crlf_lines s ≠ [].
Proof. destruct s as [|c [|d s]]; cbn; [done..|]. case_decide; [done|]. by case_match. Qed.

Lemma crlf_lines_line l rest : clean l → crlf_lines (l ++ CRLF ++ rest) = l :: crlf_lines rest.
Proof.
  induction l as [|c l IH]; intros Hl.
  - cbn. by rewrite decide_True.
  - apply Forall_cons in Hl as [[Hc _] Hl]. specialize (IH Hl).
    change ((c :: l) ++ CRLF ++ rest) with (c :: (l ++ CRLF ++ rest)).
    destruct (l ++ CRLF ++ rest) as [|d s] eqn:E; [by destruct l|].
    cbn [crlf_lines]. rewrite decide_False by tauto. cbn [crlf_lines] in IH. by rewrite IH.
Qed.

Lemma clean_app a b : clean (a ++ b) ↔ clean a ∧ clean b.
Proof. apply Forall_app. Qed.
Lemma clean_field s : Forall (λ c, field_byte c = true) s → clean s.
Proof. intros H. eapply Forall_impl; [exact H|]. intros c Hc. split; intros ->; done. Qed.
Lemma clean_visible s : forallb visible_byte s = true → clean s.
Proof.
  intros H. apply Forall_forall. intros c Hc. rewrite forallb_forall in H.
  apply list_elem_of_In, H in Hc. split; intros ->; done.
Qed.
Lemma clean_decimal n : (0 ≤ n)%Z → clean (decimal n).
Proof.
  intros Hn. apply Forall_forall. intros c Hc. apply decimal_fuel_visible in Hc; [|done].
  split; intros ->; done.
Qed.

(** Header names and values are made of the bytes their types allow. *)
Definition valid_headers (headers : Headers) : Prop :=
  match headers with
  | HEmpty => True
  | HAuth auth => Forall (λ c, field_byte c = true) (hv_bytes auth)
  | HExtra extra => Forall (λ '(n, v), forallb visible_byte n = true ∧
                              Forall (λ c, field_byte c = true) (hv_bytes v)) (hm_iter extra)
  end.
Definition header_lines (headers : Headers) : list str :=
  match headers with
  | HEmpty => []
  | HAuth auth => [header_line #"Proxy-Authorization" auth]
  | HExtra extra => (λ '(n, v), header_line n v) <$> hm_iter extra
  end.

Lemma crlf_lines_join ls rest :
  Forall clean ls → crlf_lines ((ls ≫= λ l, l ++ CRLF) ++ rest) = ls ++ crlf_lines rest.
Proof.
  induction ls as [|l ls IH]; intros Hl; [done|]. apply Forall_cons in Hl as [Hc Hl].
  cbn [mbind list_bind]. rewrite <-!(assoc_L (++)). rewrite crlf_lines_line by done.
  by rewrite IH.
Qed.

Lemma connect_request_eq host port headers :
  connect_request host port headers =
  ((connect_line host port :: host_line host port :: header_lines headers) ≫= λ l, l ++ CRLF) ++ CRLF.
Proof.
  unfold connect_request. cbn [mbind list_bind]. rewrite <-!(assoc_L (++)). do 4 f_equal.
  destruct headers as [|auth|extra]; cbn [header_lines]; [done| |].
  - cbn [mbind list_bind]. unfold header_line. by rewrite <-!(assoc_L (++)).
  - f_equal. generalize (hm_iter extra). intros l. induction l as [|[n v] l IH]; [done|].
    cbn [fmap list_fmap mbind list_bind]. by rewrite <-IH.
Qed.

(** The [CONNECT] request has exactly the lines it is meant to have: the
    request line, the [Host] line, one line for every header, and the empty
    line that ends it.  Neither the destination nor a header can add a line. *)
Theorem connect_request_lines host port headers :
  forallb visible_byte host = true → (0 ≤ port)%Z → valid_headers headers →
  crlf_lines (connect_request host port headers) =
  connect_line host port :: host_line host port :: header_lines headers ++ [[]; []].
Proof.
  intros Hh Hp Hv. rewrite connect_request_eq.
  assert (Forall clean (connect_line host port :: host_line host port :: header_lines headers)) as Hc.
  { apply clean_visible in Hh. pose proof (clean_decimal port Hp).
    constructor; [|constructor].
    - unfold connect_line. rewrite !clean_app. split_and!; try done; by apply clean_visible.
    - unfold host_line. rewrite !clean_app. split_and!; try done; by apply clean_visible.
    - destruct headers as [|auth|extra]; cbn [header_lines valid_headers] in *; unfold header_line.
      + constructor.
      + constructor; [|constructor]. rewrite !clean_app.
        split_and!; [by apply clean_visible..|by apply clean_field].
      + apply Forall_fmap. eapply Forall_impl; [exact Hv|]. intros [n v] [Hn Hb].
        cbn [compose]. unfold compose, header_line. rewrite !clean_app.
        split_and!; [by apply clean_visible..|by apply clean_field]. }
  rewrite crlf_lines_join by done. cbn. by rewrite decide_True.
Qed.

End tunnel.

Section response.
Context `{HM : HeaderMapLib}.
(** [httparse::Response::parse]: an error, a response that is not complete yet,
    or the length of the head and the status code. *)
Context (parse : str → result (option (nat * option Z)) BoxError).

(** The loop that reads the response.  The result is what the connection gives
    to its next reader. *)
Fixpoint tunnel_read (reads : Reads) (buf : str) : poll (result Reads TunnelError) :=
  match reads with
  | [] => Pending
  | Err e :: _ => Ready (Err (TIo e))
  | Ok [] :: _ => Ready (Err TunnelUnexpectedEof)
  | Ok chunk :: reads =>
    let buf := buf ++ chunk in
    match parse buf with
    | Err e => Ready (Err (TParse e))
    | Ok None => tunnel_read reads buf
    | Ok (Some (_, code)) =>
      Ready (if decide (code = Some 200%Z) then Ok reads
             else if decide (code = Some 407%Z) then Err ProxyAuthRequired
             else Err TunnelUnsuccessful)
    end
  end.
(** [tunnel]: [written] is the error of writing or flushing the request. *)
Definition tunnel (written : option BoxError) (reads : Reads) : poll (result Reads TunnelError) :=
  match written with
  | Some e => Ready (Err (TIo e))
  | None => tunnel_read reads []
  end.

(** [TunnelConnector::call] on a connection to the proxy: the request that is
    sent, and the answer. *)
Definition tunnel_call (headers : Headers) (connected : result Reads BoxError)
    (written : option BoxError) (dst : Uri) : option str * poll (result Reads TunnelError) :=
  match connected with
  | Err e => (None, Ready (Err (TConnectFailed e)))
  | Ok reads =>
    match uri_host dst with
    | None => (None, Ready (Err TMissingHost))
    | Some host =>
      (Some (connect_request host (port_or_default dst) headers), tunnel written reads)
    end
  end.

(** The response that is read. *)
Lemma tunnel_read_ok reads buf rest :
  tunnel_read reads buf = Ready (Ok rest) ↔
  ∃ chunks n, reads = (Ok <$> chunks) ++ rest ∧ chunks ≠ [] ∧ Forall (λ c, c ≠ []) chunks ∧
    parse (buf ++ concat chunks) = Ok (Some (n, Some 200%Z)) ∧
    ∀ i, 0 < i < length chunks → parse (buf ++ concat (take i chunks)) = Ok None.
Proof.
  revert buf. induction reads as [|[[|c chunk]|e] reads IH]; intros buf; cbn [tunnel_read].
  - split; [done|]. intros ([|c chunks] & n & Heq & Hne & _); done.
  - split; [done|]. intros ([|c chunks] & n & Heq & Hne & Hc & _); [done|].
    injection Heq as <- _. by apply Forall_cons in Hc as [[] _].
  - assert (c :: chunk ≠ []) as Hch by done. revert Hch. generalize (c :: chunk) as ch. intros ch Hch.
    split.
    + destruct (parse (buf ++ ch)) as [[[n code]|]|e] eqn:Hp; [| |done].
      * case_decide; subst; [|by case_decide]. intros [= <-]. exists [ch], n.
        cbn [concat app]. rewrite app_nil_r. split_and!; try done; [by repeat constructor|].
        intros i Hi. cbn in Hi. lia.
      * intros (chunks & n & -> & Hne & Hc & Hf & Hpart)%IH. exists (ch :: chunks), n.
        cbn [concat]. rewrite (assoc_L (++)). split_and!; try done; [by constructor|].
        intros [|i] Hi; [lia|]. cbn [take concat length] in *.
        destruct i as [|i]; [by rewrite app_nil_r|]. rewrite (assoc_L (++)). apply Hpart. lia.
    + intros ([|c' chunks] & n & Heq & Hne & Hc & Hf & Hpart); [done|]. cbn in Heq. injection Heq as <- Heq.
      cbn [concat length] in *. destruct chunks as [|c2 chunks].
      * cbn in Hf, Heq. rewrite app_nil_r in Hf. rewrite Hf. rewrite decide_True by done. by subst.
      * assert (parse (buf ++ ch) = Ok None) as ->.
        { specialize (Hpart 1). cbn [take concat length] in Hpart. rewrite app_nil_r in Hpart.
          apply Hpart. lia. }
        apply IH. exists (c2 :: chunks), n. rewrite <-(assoc_L (++)). apply Forall_cons in Hc as [_ Hc].
        split_and!; try done. intros i Hi. rewrite <-(assoc_L (++)). apply (Hpart (S i)). cbn [length] in *. lia.
  - split; [done|]. intros ([|c chunks] & n & Heq & Hne & _); done.
Qed.

(** C26: A tunnel is established exactly when the request was written and the
    first response the proxy completes has the status 200, however its bytes
    are split over reads.  What the connection gives afterwards is what follows
    the read that completed it. *)
Theorem tunnel_established written reads rest :
  tunnel written reads = Ready (Ok rest) ↔
  written = None ∧ ∃ chunks n, reads = (Ok <$> chunks) ++ rest ∧ chunks ≠ [] ∧
    Forall (λ c, c ≠ []) chunks ∧ parse (concat chunks) = Ok (Some (n, Some 200%Z)) ∧
    ∀ i, 0 < i < length chunks → parse (concat (take i chunks)) = Ok None.
Proof.
  unfold tunnel. destruct written as [e|]; [by split; [|intros [[=] _]]|].
  rewrite (tunnel_read_ok reads [] rest). cbn [app]. tauto.
Qed.
End response.

(** ** SOCKS *)
Section socks.
Inductive SocksVersion := SocksV4 | SocksV5.
Inductive DnsMode := DnsLocal | DnsRemote.
(** [tokio_socks::TargetAddr]. *)
Inductive TargetAddr :=
| TargetIp (addr : SocketAddr)
| TargetDomain (host : str) (port : Z).
(** A handshake of [tokio_socks], which ends with an error or without one. *)
Inductive SocksOp :=
| Socks4 (target : TargetAddr)
| Socks5 (target : TargetAddr)
| Socks5Password (target : TargetAddr) (username password : str).
Context (handshake : SocksOp → option BoxError) (resolver : Resolve).

Record SocksConnector := {
  sc_auth : option (str * str);
  sc_version : SocksVersion;
  sc_dns_resolve : DnsMode;
}.
Definition SocksConnector_new : SocksConnector :=
  {| sc_auth := None; sc_version := SocksV5; sc_dns_resolve := DnsLocal |}.
Definition set_auth (auth : option (str * str)) (self : SocksConnector) : SocksConnector :=
  {| sc_auth := auth; sc_version := sc_version self; sc_dns_resolve := sc_dns_resolve self |}.
Definition set_socks_version (version : SocksVersion) (self : SocksConnector) : SocksConnector :=
  {| sc_auth := sc_auth self; sc_version := version; sc_dns_resolve := sc_dns_resolve self |}.
Definition set_dns_mode (dns : DnsMode) (self : SocksConnector) : SocksConnector :=
  {| sc_auth := sc_auth self; sc_version := sc_version self; sc_dns_resolve := dns |}.

Definition socks_target (self : SocksConnector) (host : str) (port : Z) :
    result TargetAddr SocksError :=
  match sc_dns_resolve self with
  | DnsLocal =>
    match resolver host with
    | Ok [] => Err SDnsFailure
    | Ok (socket_addr :: _) => Ok (TargetIp (addr_set_port port socket_addr))
    | Err e => Err (SDnsResolveFailure e)
    end
  | DnsRemote => Ok (TargetDomain host port)
  end.
Definition socks_op (self : SocksConnector) (target : TargetAddr) : result SocksOp SocksError :=
  match sc_version self with
  | SocksV4 => Ok (Socks4 target)
  | SocksV5 =>
    match sc_auth self with
    | Some (username, password) =>
      match from_utf8 username, from_utf8 password with
      | Some username, Some password => Ok (Socks5Password target username password)
      | _, _ => Err SUtf8
      end
    | None => Ok (Socks5 target)
    end
  end.
(** [SocksConnector::call], on a connection to the proxy: the handshake that is
    made. *)
Definition socks_call (self : SocksConnector) (connected : result unit BoxError) (dst : Uri) :
    result SocksOp SocksError :=
  match uri_host dst with
  | None => Err SMissingHost
  | Some host =>
    _ ←? map_err SConnectFailed connected ;
    target ←? socks_target self (strip_ipv6_brackets host) (port_or_default dst) ;
    op ←? socks_op self target ;
    match handshake op with
    | Some e => Err (SSocks e)
    | None => Ok op
    end
  end.

(** ** Facts *)
Definition socks_op_target (op : SocksOp) : TargetAddr :=
  match op with Socks4 t | Socks5 t | Socks5Password t _ _ => t end.

(** What a SOCKS proxy is asked.  The target is the destination: with local
    resolution the first address of the host with the port of the destination,
    with remote resolution the host itself, which is then not resolved here; the
    brackets of an IPv6 literal are removed.  Credentials are sent only in
    version 5, and only when they are text. *)
Theorem socks_call_spec self connected dst op :
  socks_call self connected dst = Ok op →
  ∃ host, uri_host dst = Some host ∧ connected = Ok tt ∧ handshake op = None ∧
    match sc_dns_resolve self with
    | DnsRemote => socks_op_target op = TargetDomain (strip_ipv6_brackets host) (port_or_default dst)
    | DnsLocal => ∃ addr rest, resolver (strip_ipv6_brackets host) = Ok (addr :: rest) ∧
        socks_op_target op = TargetIp (addr_set_port (port_or_default dst) addr)
    end ∧
    match op with
    | Socks4 _ => sc_version self = SocksV4
    | Socks5 _ => sc_version self = SocksV5 ∧ sc_auth self = None
    | Socks5Password _ u p =>
      sc_version self = SocksV5 ∧ sc_auth self = Some (u, p) ∧
      utf8_valid u = true ∧ utf8_valid p = true
    end.
Proof.
  unfold socks_call. destruct (uri_host dst) as [host|]; [|done].
  destruct connected as [[]|e]; [|done]. cbn [map_err]. intros H. exists host.
  destruct (socks_target self _ _) as [target|e] eqn:Ht; [|done].
  destruct (socks_op self target) as [op'|e] eqn:Ho; [|done].
  destruct (handshake op') eqn:Hh; [done|]. injection H as ->. split_and!; try done.
  - assert (socks_op_target op = target) as ->.
    { unfold socks_op, from_utf8 in Ho. repeat case_match; by simplify_eq. }
    unfold socks_target in Ht. repeat case_match; simplify_eq; eauto.
  - unfold socks_op, from_utf8 in Ho. repeat case_match; simplify_eq; by repeat split.
Qed.
End socks.

(** ** Examples *)
Module TunnelExamples.
(** A parser of responses: the head ends with an empty line, and the code is
    the number after the version. *)
Definition ref_parse (s : str) : result (option (nat * option Z)) BoxError :=
  if ends_with (CRLF ++ CRLF) s
  then Ok (Some (length s, parse_unsigned 999 (take 3 (drop 9 s))))
  else Ok None.
Definition auth : HeaderValue := {| hv_bytes := #"Basic dTpw"; hv_sensitive := true |}.

Lemma connect_request_lines_witness :
  crlf_lines (connect_request #"example.com" 443 (HAuth auth)) =
  [ #"CONNECT example.com:443 HTTP/1.1"; #"Host: example.com:443";
    #"Proxy-Authorization: Basic dTpw"; []; []].
Proof.
  apply (connect_request_lines #"example.com" 443 (HAuth auth)); [reflexivity|lia|].
  repeat constructor.
Defined.

Definition reads : list (result str BoxError) :=
  [Ok #"HTTP/1.1 2"; Ok ( #"00 OK" ++ CRLF ++ CRLF); Ok #"hello"].
Example tunnel_example : tunnel ref_parse None reads = Ready (Ok [Ok #"hello"]).
Proof. vm_compute. reflexivity. Qed.
Example tunnel_refused :
  tunnel ref_parse None [Ok ( #"HTTP/1.1 407 No" ++ CRLF ++ CRLF)] = Ready (Err ProxyAuthRequired).
Proof. vm_compute. reflexivity. Qed.

Definition addr : SocketAddr := {| sa_ip := V4 1; sa_port := 0; sa_flowinfo := 0; sa_scope_id := 0 |}.
Definition dst : Uri :=
  {| uri_scheme := Some HTTPS;
     uri_authority := Some {| auth_str := #"example.com"; auth_host := #"example.com";
                              auth_port := None |};
     uri_path_and_query := Some {| pq_path := #"/"; pq_query := None |} |}.
Definition connector : SocksConnector :=
  set_auth (Some ( #"u", #"p")) (set_dns_mode DnsLocal SocksConnector_new).
Lemma socks_call_spec_witness :
  ∃ host, uri_host dst = Some host ∧ @Ok unit BoxError tt = Ok tt ∧ @None BoxError = None ∧
    (∃ a rest, Ok [addr] = @Ok _ BoxError (a :: rest) ∧
       TargetIp (addr_set_port 443 addr) = TargetIp (addr_set_port 443 a)) ∧
    SocksV5 = SocksV5 ∧ Some ( #"u", #"p") = Some ( #"u", #"p") ∧ true = true ∧ true = true.
Proof.
  apply (socks_call_spec (λ _, None) (λ _, Ok [addr]) connector (Ok tt) dst
    (Socks5Password (TargetIp (addr_set_port 443 addr)) #"u" #"p")). vm_compute. reflexivity.
Defined.
End TunnelExamples.
