(* ===== verification/Matcher.v ===== *)
(** * Proxy matchers

    [src/proxy/matcher.rs]: which destinations are intercepted by a proxy, how
    the URI of a proxy is read from a configuration or an environment
    variable, and the list of destinations that bypass the proxy.  [Extra] and
    [Intercepted] come from [src/proxy.rs]. *)

From S2P Require Import Prelude Http Net Ext.

Section matcher.
Context `{HV : HeaderValueLib, HM : HeaderMapLib, UL : UriLib, PL : PercentLib}.
Context `{B64 : Base64Lib, NL : IpNetLib}.

(** ** Data *)
Record Extra := {
  ex_auth : option HeaderValue;
  ex_misc : option (HeaderMap HeaderValue);
}.
Definition Extra_default : Extra := {| ex_auth := None; ex_misc := None |}.

Inductive Auth :=
| AuthEmpty
| AuthBasic (v : HeaderValue)
| AuthRaw (user pass : str).

Record Intercept := {
  ic_uri : Uri;
  ic_auth : Auth;
  ic_extra : Extra;
}.

(** A Unix socket is known by its path. *)
Inductive Intercepted :=
| InterceptedProxy (i : Intercept)
| InterceptedUnix (path : str).

Inductive Ip :=
| Address (a : IpAddr)
| Network (n : IpNet).

Record NoProxy := {
  np_ips : list Ip;
  np_domains : list str;
}.

Record Matcher := {
  m_http : option Intercept;
  m_https : option Intercept;
  m_no : NoProxy;
  m_unix : option str;
}.

Record Builder := {
  b_is_cgi : bool;
  b_all : str;
  b_http : str;
  b_https : str;
  b_no : str;
  b_unix : option str;
}.

(** ** Bypassing the proxy *)
Definition NoProxy_empty : NoProxy := {| np_ips := []; np_domains := [] |}.

Definition no_proxy_part (acc : NoProxy) (part : str) : NoProxy :=
  match ipnet_parse part with
  | Some ip => {| np_ips := np_ips acc ++ [Network ip]; np_domains := np_domains acc |}
  | None =>
    match parse_ip_addr part with
    | Some addr => {| np_ips := np_ips acc ++ [Address addr]; np_domains := np_domains acc |}
    | None =>
      match trim part with
      | [] => acc
      | _ => {| np_ips := np_ips acc; np_domains := np_domains acc ++ [part] |}
      end
    end
  end.
Definition no_proxy_parts (no_proxy_list : str) : list str :=
  trim <$> split ","%char no_proxy_list.
Definition NoProxy_from_string (no_proxy_list : str) : NoProxy :=
  foldl no_proxy_part NoProxy_empty (no_proxy_parts no_proxy_list).

Definition ip_entry_contains (addr : IpAddr) (ip : Ip) : bool :=
  match ip with
  | Address address => bool_decide (addr = address)
  | Network net => ipnet_contains net addr
  end.
Definition IpMatcher_contains (ips : list Ip) (addr : IpAddr) : bool :=
  existsb (ip_entry_contains addr) ips.

(** One turn of the loop over the domains: whether it returns [true]. *)
Definition domain_entry_contains (domain d : str) : bool :=
  if eq_ignore_ascii_case d domain ||
     match strip_prefix #"." d with Some s => eq_ignore_ascii_case s domain | None => false end
  then true
  else if match str_get_from (length domain - length d) domain with
          | Some s => eq_ignore_ascii_case s d
          | None => false
          end
  then starts_with #"." d ||
       bool_decide (domain !! (length domain - (length d + 1)) = Some "."%char)
  else bool_decide (d = #"*").
Definition DomainMatcher_contains (domains : list str) (domain : str) : bool :=
  existsb (domain_entry_contains domain) domains.

Definition NoProxy_contains (self : NoProxy) (host : str) : bool :=
  let host := strip_ipv6_brackets host in
  match parse_ip_addr host with
  | Some ip => IpMatcher_contains (np_ips self) ip
  | None => DomainMatcher_contains (np_domains self) host
  end.

(** ** Interception *)
Definition intercept (self : Matcher) (dst : Uri) : option Intercepted :=
  match m_unix self with
  | Some unix => Some (InterceptedUnix unix)
  | None =>
    host ← uri_host dst;
    if NoProxy_contains (m_no self) host then None
    else if is_http dst then InterceptedProxy <$> m_http self
    else if is_https dst then InterceptedProxy <$> m_https self
    else None
  end.

Definition Intercept_basic_auth (self : Intercept) : option HeaderValue :=
  match ex_auth (ic_extra self) with
  | Some val => Some val
  | None => match ic_auth self with AuthBasic val => Some val | _ => None end
  end.
Definition custom_headers (self : Intercept) : option (HeaderMap HeaderValue) :=
  ex_misc (ic_extra self).
Definition raw_auth (self : Intercept) : option (str * str) :=
  match ic_auth self with AuthRaw u p => Some (u, p) | _ => None end.

(** ** Reading the URI of a proxy *)

(** The scheme of the proxy, and whether it is one of the SOCKS protocols
    rather than HTTP. *)
Definition proxy_scheme (uri : Uri) : option (Scheme * bool) :=
  match uri_scheme uri with
  | Some s =>
    if scheme_eqb s HTTP || scheme_eqb s HTTPS then Some (s, false)
    else if bool_decide (scheme_as_str s ∈ [ #"socks4"; #"socks4a"; #"socks5"; #"socks5h"])
    then Some (s, true)
    else None
  | None => Some (HTTP, false)
  end.

Definition proxy_authority (uri : Uri) (is_socks : bool) : option Authority :=
  authority ← uri_authority uri;
  if is_socks && bool_decide (auth_port authority = None)
  then authority_parse (auth_str authority ++ #":1080")
  else Some authority.

(** The credentials in an authority; [None] is the panic of [basic_auth]. *)
Definition proxy_auth (userinfo : str) (is_socks : bool) : option Auth :=
  let '(user, pass) := match split_once ":"%char userinfo with
                       | Some (user, pass) => (user, Some pass)
                       | None => (userinfo, None)
                       end in
  let decode s := from_utf8_lossy (percent_decode_str s) in
  let user := decode user in
  let pass := decode <$> pass in
  if is_socks then Some (AuthRaw user (default [] pass))
  else AuthBasic <$> basic_auth user pass.

Definition proxy_uri (scheme : Scheme) (authority : Authority) : option Uri :=
  uri_from_parts {| uri_scheme := Some scheme; uri_authority := Some authority;
                    uri_path_and_query := Some {| pq_path := #"/"; pq_query := None |} |}.

(** [parse_env_uri]; the outer [None] is a panic. *)
Definition parse_env_uri (val : str) : option (option Intercept) :=
  match uri ← uri_try_from val;
        '(scheme, is_socks) ← proxy_scheme uri;
        authority ← proxy_authority uri is_socks;
        Some (scheme, is_socks : bool, authority) with
  | None => Some None
  | Some (scheme, is_socks, authority) =>
    '(auth, authority) ←
      match rsplit_once "@"%char (auth_str authority) with
      | Some (userinfo, host_port) =>
        auth ← proxy_auth userinfo is_socks; Some (auth, authority_parse host_port)
      | None => Some (AuthEmpty, Some authority)
      end;
    Some (uri ← (authority ≫= proxy_uri scheme);
          Some {| ic_uri := uri; ic_auth := auth; ic_extra := Extra_default |})
  end.

(** ** Building a matcher *)
Definition with_extra (extra : Extra) (i : Intercept) : Intercept :=
  {| ic_uri := ic_uri i; ic_auth := ic_auth i; ic_extra := extra |}.

Definition is_none {A} (a : option A) : bool :=
  match a with Some _ => false | None => true end.
Definition or_else {A} (a b : option A) : option A :=
  match a with Some a => Some a | None => b end.

Definition Builder_build (self : Builder) (extra : Extra) : option Matcher :=
  if b_is_cgi self then
    Some {| m_http := None; m_https := None; m_no := NoProxy_empty; m_unix := None |}
  else
    all ← parse_env_uri (b_all self);
    http ← parse_env_uri (b_http self);
    https ← parse_env_uri (b_https self);
    let http := with_extra extra <$> http in
    let https := with_extra extra <$> https in
    let all := if is_none http || is_none https
               then with_extra extra <$> all else all in
    Some {| m_http := or_else http all; m_https := or_else https all;
            m_no := NoProxy_from_string (b_no self); m_unix := b_unix self |}.

Definition Builder_default : Builder :=
  {| b_is_cgi := false; b_all := []; b_http := []; b_https := []; b_no := []; b_unix := None |}.
Definition set_all (val : str) (b : Builder) : Builder :=
  {| b_is_cgi := b_is_cgi b; b_all := val; b_http := b_http b; b_https := b_https b;
     b_no := b_no b; b_unix := b_unix b |}.
Definition set_http (val : str) (b : Builder) : Builder :=
  {| b_is_cgi := b_is_cgi b; b_all := b_all b; b_http := val; b_https := b_https b;
     b_no := b_no b; b_unix := b_unix b |}.
Definition set_https (val : str) (b : Builder) : Builder :=
  {| b_is_cgi := b_is_cgi b; b_all := b_all b; b_http := b_http b; b_https := val;
     b_no := b_no b; b_unix := b_unix b |}.
Definition set_no (val : str) (b : Builder) : Builder :=
  {| b_is_cgi := b_is_cgi b; b_all := b_all b; b_http := b_http b; b_https := b_https b;
     b_no := val; b_unix := b_unix b |}.
Definition set_unix (val : str) (b : Builder) : Builder :=
  {| b_is_cgi := b_is_cgi b; b_all := b_all b; b_http := b_http b; b_https := b_https b;
     b_no := b_no b; b_unix := Some val |}.

(** The environment gives the bytes of the variables that are set;
    [std::env::var] also fails on a value that is not Unicode. *)
Definition env_var (env : str → option str) (name : str) : option str := env name ≫= from_utf8.
Fixpoint get_first_env (env : str → option str) (names : list str) : str :=
  match names with
  | [] => []
  | name :: names =>
    match env_var env name with Some val => val | None => get_first_env env names end
  end.
Definition from_env (env : str → option str) : Builder :=
  {| b_is_cgi := bool_decide (is_Some (env #"REQUEST_METHOD"));
     b_all := get_first_env env [ #"ALL_PROXY"; #"all_proxy"];
     b_http := get_first_env env [ #"HTTP_PROXY"; #"http_proxy"];
     b_https := get_first_env env [ #"HTTPS_PROXY"; #"https_proxy"];
     b_no := get_first_env env [ #"NO_PROXY"; #"no_proxy"];
     b_unix := None |}.
(** [from_system], on a platform without settings of its own. *)
Definition from_system (env : str → option str) : option Matcher :=
  Builder_build (from_env env) Extra_default.
End matcher.

(** ** The bypass list *)

(** What an entry [d] promises for a host name: the domain itself and its
    subdomains match, without regard to case and to a leading dot of the
    entry; an asterisk matches every name but those that end in one. *)
Definition domain_matches (d host : str) : Prop :=
  let h := to_ascii_lowercase host in
  let d' := to_ascii_lowercase (default d (strip_prefix #"." d)) in
  h = d' ∨ (#"." ++ d') `suffix_of` h ∨ (d = #"*" ∧ ¬ #"*" `suffix_of` h).

Section domains.
Implicit Types (d host : str).

Lemma length_lower s : length (to_ascii_lowercase s) = length s.
Proof. apply length_fmap. Qed.

Lemma lower_cons c s : to_ascii_lowercase (c :: s) = lower c :: to_ascii_lowercase s.
Proof. done. Qed.

Lemma lower_dot c : lower c = "."%char ↔ c = "."%char.
Proof. by destruct c as [[] [] [] [] [] [] [] []]; vm_compute. Qed.

(** The comparison of the end of the host with the entry. *)
Lemma entry_suffix d host :
  Forall (λ c, (ord c <= 127)%N) host →
  match str_get_from (length host - length d) host with
  | Some s => eq_ignore_ascii_case s d
  | None => false
  end = bool_decide (to_ascii_lowercase d `suffix_of` to_ascii_lowercase host).
Proof.
  intros Ha. rewrite str_get_from_ascii by (done || lia).
  unfold eq_ignore_ascii_case. apply bool_decide_ext.
  unfold to_ascii_lowercase. rewrite fmap_drop. split.
  - intros <-. by apply suffix_drop.
  - intros [k Hk]. rewrite Hk, drop_app_length'; [done|].
    apply (f_equal length) in Hk. rewrite length_app, !length_fmap in Hk. lia.
Qed.

(** The byte before that end. *)
Lemma entry_prior d host :
  to_ascii_lowercase d `suffix_of` to_ascii_lowercase host →
  to_ascii_lowercase d ≠ to_ascii_lowercase host →
  host !! (length host - (length d + 1)) = Some "."%char ↔
  ("."%char :: to_ascii_lowercase d) `suffix_of` to_ascii_lowercase host.
Proof.
  intros [k Hk] Hne.
  assert (∃ k' c, k = k' ++ [c]) as (k' & c & ->).
  { destruct k as [|c k] using rev_ind; [by rewrite Hk in Hne | eauto]. }
  assert (length host - (length d + 1) = length k') as ->.
  { apply (f_equal length) in Hk. rewrite !length_app, !length_lower in Hk. simpl in Hk. lia. }
  assert (lower <$> host !! length k' = Some c) as Hc.
  { rewrite <- list_lookup_fmap. fold (to_ascii_lowercase host).
    rewrite Hk, <- app_assoc. by apply list_lookup_middle. }
  rewrite Hk. apply fmap_Some in Hc as (x & Hx & ->). rewrite Hx.
  rewrite <- app_assoc. simpl. split.
  - intros [= ->]. by exists k'.
  - intros [j Hj]. apply app_inj_2 in Hj as [_ [= Hx']]; [|done].
    by apply lower_dot in Hx' as ->.
Qed.

Lemma lower_strip_dot d d' :
  strip_prefix #"." d = Some d' → to_ascii_lowercase d = "."%char :: to_ascii_lowercase d'.
Proof. intros ->%strip_prefix_Some. done. Qed.

Lemma domain_entry_spec d host :
  Forall (λ c, (ord c <= 127)%N) host →
  domain_entry_contains host d = true ↔ domain_matches d host.
Proof.
  intros Ha. unfold domain_entry_contains, domain_matches. rewrite entry_suffix by done.
  unfold eq_ignore_ascii_case. destruct (strip_prefix #"." d) as [d'|] eqn:Hd; cbn [default].
  - assert (starts_with #"." d = true) as ->.
    { apply starts_with_true. exists d'. by apply strip_prefix_Some. }
    pose proof (lower_strip_dot _ _ Hd) as Hl. apply strip_prefix_Some in Hd as ->.
    rewrite Hl. destruct (bool_decide_reflect (to_ascii_lowercase d' = to_ascii_lowercase host)) as [He|He].
    { rewrite orb_true_r. naive_solver. }
    destruct (bool_decide_reflect ("."%char :: to_ascii_lowercase d' = to_ascii_lowercase host)) as [He2|He2]; simpl.
    { split; [|done]. intros _. right; left. rewrite <- He2. done. }
    case_bool_decide; [naive_solver|]. naive_solver.
  - assert (starts_with #"." d = false) as ->.
    { unfold strip_prefix in Hd. by destruct (starts_with _ _). }
    rewrite orb_false_r. case_bool_decide as He; [naive_solver|]. simpl.
    case_bool_decide as Hs.
    + rewrite bool_decide_eq_true, (entry_prior _ _ Hs He). split; [naive_solver|].
      intros [?|[?|[-> Hn]]]; [done..|]. by destruct Hn.
    + rewrite bool_decide_eq_true. split; [intros ->; naive_solver|].
      intros [?|[Hd'|[? _]]]; [done| |done]. destruct Hs.
      etrans; [|exact Hd']. by apply suffix_cons_r.
Qed.
End domains.

Section bypass.
Context `{NL : IpNetLib}.

Lemma no_proxy_fold parts acc :
  np_ips (foldl no_proxy_part acc parts) =
    np_ips acc ++ omap (λ p, match ipnet_parse p with
                             | Some n => Some (Network n)
                             | None => Address <$> parse_ip_addr p
                             end) parts ∧
  np_domains (foldl no_proxy_part acc parts) =
    np_domains acc ++ filter (λ p, ipnet_parse p = None ∧ parse_ip_addr p = None ∧ trim p ≠ []) parts.
Proof.
  revert acc. induction parts as [|p ps IH]; intros acc; csimpl; [by rewrite !app_nil_r|].
  destruct (IH (no_proxy_part acc p)) as [-> ->]. unfold no_proxy_part.
  rewrite filter_cons. destruct (ipnet_parse p) as [n|] eqn:?;
    [|destruct (parse_ip_addr p) as [a|] eqn:?; [|destruct (trim p) as [|c w] eqn:?]];
    case_decide; simpl; rewrite <- ?app_assoc; naive_solver.
Qed.

End bypass.

(** ** The URI of a proxy *)
Section proxy_uris.
Context `{HV : HeaderValueLib, HM : HeaderMapLib, UL : UriLib, PL : PercentLib}.
Context `{B64 : Base64Lib}.

Lemma proxy_auth_ok ui is_socks : ∃ auth, proxy_auth ui is_socks = Some auth.
Proof.
  unfold proxy_auth. destruct (split_once _ _) as [[u p]|]; destruct is_socks; eauto;
    rewrite basic_auth_ok; simpl; eauto.
Qed.

Lemma rsplit_once_app c s t :
  c ∉ t → rsplit_once c (s ++ t) = (λ '(a, b), (a, b ++ t)) <$> rsplit_once c s.
Proof.
  intros Ht. destruct (rsplit_once c s) as [[a b]|] eqn:E.
  - apply rsplit_once_Some in E as [-> Hb]. apply rsplit_once_Some.
    rewrite <- app_assoc. simpl. split; [done | set_solver].
  - apply rsplit_once_None in E. apply rsplit_once_None. set_solver.
Qed.

(** The port that is added to the authority of a SOCKS proxy. *)
Definition default_port (a : Authority) (is_socks : bool) : str :=
  if is_socks && bool_decide (auth_port a = None) then #":1080" else [].

Lemma proxy_authority_str uri is_socks a a' :
  uri_authority uri = Some a → proxy_authority uri is_socks = Some a' →
  auth_str a' = auth_str a ++ default_port a is_socks.
Proof.
  unfold proxy_authority, default_port. intros ->. simpl.
  destruct (_ && _); intros H; [by apply authority_parse_Some in H|].
  simplify_eq. by rewrite app_nil_r.
Qed.

Lemma default_port_plain a is_socks : "@"%char ∉ default_port a is_socks.
Proof. unfold default_port. destruct (_ && _); set_solver. Qed.

Lemma split_default_port a is_socks :
  rsplit_once "@"%char (auth_str a ++ default_port a is_socks) =
    (λ '(ui, hp), (ui, hp ++ default_port a is_socks)) <$> rsplit_once "@"%char (auth_str a).
Proof. apply rsplit_once_app, default_port_plain. Qed.

(** What is read from a text that names a proxy. *)
Lemma parse_env_uri_inv val :
  ∃ r, parse_env_uri val = Some r ∧ ∀ i, r = Some i →
  ∃ uri a scheme is_socks host_port,
    uri_try_from val = Some uri ∧ uri_authority uri = Some a ∧
    proxy_scheme uri = Some (scheme, is_socks) ∧
    ic_uri i = {| uri_scheme := Some scheme; uri_authority := Some host_port;
                  uri_path_and_query := Some {| pq_path := #"/"; pq_query := None |} |} ∧
    auth_str host_port = host_and_port a ++ default_port a is_socks ∧
    Some (ic_auth i) = match rsplit_once "@"%char (auth_str a) with
                       | Some (userinfo, _) => proxy_auth userinfo is_socks
                       | None => Some AuthEmpty
                       end.
Proof.
  unfold parse_env_uri.
  destruct (uri_try_from val) as [uri|] eqn:Hu; [simpl | by eexists].
  destruct (proxy_scheme uri) as [[scheme is_socks]|] eqn:Hs; [simpl | by eexists].
  destruct (proxy_authority uri is_socks) as [a'|] eqn:Ha'; [simpl | by eexists].
  assert (∃ a, uri_authority uri = Some a) as [a Ha].
  { unfold proxy_authority in Ha'. destruct (uri_authority uri); eauto. }
  pose proof (proxy_authority_str _ _ _ _ Ha Ha') as Hstr.
  rewrite Hstr, split_default_port.
  destruct (rsplit_once _ (auth_str a)) as [[ui hp]|] eqn:E; simpl.
  - destruct (proxy_auth_ok ui is_socks) as [auth Hauth]. rewrite Hauth. simpl.
    eexists; split; [done|]. intros i.
    destruct (authority_parse _) as [b|] eqn:Hb; [|done]. cbn [mbind option_bind].
    destruct (proxy_uri scheme b) as [u|] eqn:Hp; [|done]. intros [= <-].
    apply uri_from_parts_Some in Hp. apply authority_parse_Some in Hb.
    exists uri, a, scheme, is_socks, b. split_and!; cbn [ic_uri ic_auth]; [done|done|done|exact Hp| |by rewrite E].
    unfold host_and_port. by rewrite E.
  - eexists; split; [done|]. intros i.
    destruct (proxy_uri scheme a') as [u|] eqn:Hp; [|done]. intros [= <-].
    apply uri_from_parts_Some in Hp.
    exists uri, a, scheme, is_socks, a'. split_and!; cbn [ic_uri ic_auth]; [done|done|done|exact Hp| |by rewrite E].
    unfold host_and_port. by rewrite E.
Qed.

Lemma proxy_scheme_inv uri scheme is_socks :
  proxy_scheme uri = Some (scheme, is_socks) →
  scheme = default HTTP (uri_scheme uri) ∧
  if is_socks then scheme_as_str scheme ∈ [ #"socks4"; #"socks4a"; #"socks5"; #"socks5h"]
  else scheme = HTTP ∨ scheme = HTTPS.
Proof.
  unfold proxy_scheme. destruct (uri_scheme uri) as [[| |s]|]; simpl; try naive_solver.
  case_bool_decide; naive_solver.
Qed.

(** Reading the URI of a proxy from a setting or an environment variable
    never panics, and when it names a proxy: the scheme is HTTP, HTTPS or one
    of the four SOCKS protocols (HTTP when none is given); the URI that will
    be connected to carries no credentials, no path and no query; its
    authority is the host and port given, with port 1080 added for a SOCKS
    proxy that names none; and credentials are kept exactly when the text has
    some, as a sensitive [Basic] value for an HTTP proxy and as the decoded
    pair for a SOCKS proxy. *)
Theorem proxy_uri_spec (val : str) :
  ∃ r, parse_env_uri val = Some r ∧ ∀ i, r = Some i →
  ∃ uri a scheme is_socks host_port,
    uri_try_from val = Some uri ∧ uri_authority uri = Some a ∧
    scheme = default HTTP (uri_scheme uri) ∧
    (if is_socks : bool
     then scheme_as_str scheme ∈ [ #"socks4"; #"socks4a"; #"socks5"; #"socks5h"]
     else scheme = HTTP ∨ scheme = HTTPS) ∧
    ic_uri i = {| uri_scheme := Some scheme; uri_authority := Some host_port;
                  uri_path_and_query := Some {| pq_path := #"/"; pq_query := None |} |} ∧
    "@"%char ∉ auth_str host_port ∧
    auth_str host_port = host_and_port a ++ default_port a is_socks ∧
    match rsplit_once "@"%char (auth_str a), ic_auth i with
    | None, AuthEmpty => True
    | Some _, AuthBasic v => is_socks = false ∧ hv_sensitive v = true
    | Some (info, _), AuthRaw user pass =>
      is_socks = true ∧
      user = from_utf8_lossy (percent_decode_str (default info (fst <$> split_once ":"%char info))) ∧
      pass = from_utf8_lossy (percent_decode_str (default [] (snd <$> split_once ":"%char info)))
    | _, _ => False
    end.
Proof.
  destruct (parse_env_uri_inv val) as (r & Hr & Hi). exists r. split; [done|].
  intros i ->. destruct (Hi i eq_refl) as (uri & a & scheme & is_socks & hp & ? & ? & Hs & ? & Hhp & Hau).
  exists uri, a, scheme, is_socks, hp. destruct (proxy_scheme_inv _ _ _ Hs) as [-> Hk].
  split_and!; try done.
  - rewrite Hhp. intros [Hin|Hin]%elem_of_app;
      [by apply host_and_port_plain in Hin | by apply default_port_plain in Hin].
  - destruct (rsplit_once _ _) as [[info ?]|]; [|by injection Hau as ->].
    unfold proxy_auth in Hau.
    destruct (split_once _ info) as [[user pass]|]; destruct is_socks; simpl in *;
      rewrite ?basic_auth_ok in Hau; injection Hau as ->; try done.
    rewrite (percent_decode_str_spec []). by split_and!.
Qed.
End proxy_uris.

Module MatcherExamples.
Definition list : str := #".foo.bar, bar.baz,10.42.1.1/24,::1,10.124.7.8,2001::/17".


Lemma no_proxy_examples :
  let no := NoProxy_from_string list in
  forallb (NoProxy_contains no)
    [ #"foo.bar"; #"www.bar.baz"; #"10.42.1.100"; #"[::1]"; #"10.124.7.8"; #"[2001:db8::1]"] = true ∧
  existsb (NoProxy_contains no)
    [ #"hyper.rs"; #"notfoo.bar"; #"notbar.baz"; #"10.43.1.1"; #"[ffff:db8::1]"] = false.
Proof. by vm_compute. Qed.
End MatcherExamples.
