(* ===== verification/SystemProxy.v ===== *)
(** * Proxy settings of the operating system

    [src/proxy/win.rs] and [src/proxy/mac.rs]: what [Builder::from_system] of
    [src/proxy/matcher.rs] adds to the environment on the two systems that have
    settings of their own.  The registry and the dynamic store are parameters:
    lookups that may fail. *)

From S2P Require Import Prelude Http Net Ext Matcher.

(** ** Windows *)

(** [i32::from_str] and its [Display]. *)
Fixpoint parse_negative (acc : Z) (s : str) : option Z :=
  match s with
  | [] => Some acc
  | c :: s =>
    d ← digit c;
    let acc := (10 * acc - d)%Z in
    if (acc <? - 2 ^ 31)%Z then None else parse_negative acc s
  end.
Definition parse_i32 (s : str) : option Z :=
  match s with
  | [] => None
  | c :: digits =>
    if decide (c = "-"%char) then
      match digits with [] => None | _ => parse_negative 0 digits end
    else parse_unsigned (2 ^ 31 - 1) s
  end.
Definition i32_to_string (z : Z) : str :=
  if (z <? 0)%Z then #"-" ++ decimal (- z) else decimal z.

(** The octets are of type [i32], the integer type of a literal without
    context. *)
Definition wildcard_octets (value : str) : option (list Z) :=
  let parts := split "."%char value in
  '(wildcard, _) ← list_find (λ part, part = #"*") parts;
  if decide (wildcard = 0) then None
  else if decide (3 < wildcard) then None
  else if existsb (λ part, negb (bool_decide (part = #"*"))) (drop wildcard parts) then None
  else mapM parse_i32 (take wildcard parts).

Definition ipv4_wildcard_to_cidr (value : str) : option str :=
  octets ← wildcard_octets value;
  let octet i := i32_to_string (default 0%Z (octets !! i)) in
  Some (octet 0 ++ #"." ++ octet 1 ++ #"." ++ octet 2 ++ #"." ++ octet 3 ++ #"/" ++
        decimal (Z.of_nat (length octets) * 8)).

(** [str::replace] of an asterisk and a dot by nothing. *)
Fixpoint remove_star_dot (s : str) : str :=
  match s with
  | [] => []
  | c :: s' =>
    match s' with
    | c' :: s'' =>
      if decide (c = "*"%char ∧ c' = "."%char) then remove_star_dot s'' else c :: remove_star_dot s'
    | [] => [c]
    end
  end.

Definition override_entry (entry : str) : str :=
  let entry := trim entry in default entry (ipv4_wildcard_to_cidr entry).
Definition normalize_proxy_override (value : str) : str :=
  remove_star_dot (join #"," (override_entry <$> split ";"%char value)).

(** [get_u32] and [get_string] of an open key of the registry. *)
Record Registry := {
  get_u32 : str → option Z;
  get_string : str → option str;
}.

Definition is_empty (s : str) : bool := match s with [] => true | _ => false end.

Section with_system.
Context `{NL : IpNetLib}.

Definition win_with_system (settings : option Registry) (builder : Builder) : Builder :=
  match settings with
  | None => builder
  | Some settings =>
    if (default 0 (get_u32 settings #"ProxyEnable") =? 0)%Z then builder
    else
      let builder :=
        match get_string settings #"ProxyServer" with
        | Some val =>
          let builder := if is_empty (b_http builder) then set_http val builder else builder in
          if is_empty (b_https builder) then set_https val builder else builder
        | None => builder
        end in
      if is_empty (b_no builder) then
        match get_string settings #"ProxyOverride" with
        | Some val => set_no (normalize_proxy_override val) builder
        | None => builder
        end
      else builder
  end.

(** ** macOS *)

(** The values of the dictionary of proxies; [to_i32] fails on a number that
    does not fit. *)
Inductive CFType :=
| CFNumber (to_i32 : option Z)
| CFString (s : str)
| CFOther.

Definition as_number (v : CFType) : option Z :=
  match v with CFNumber n => n | _ => None end.
Definition as_string (v : CFType) : option str :=
  match v with CFString s => Some s | _ => None end.

Section mac.
(** The names of the settings, constants of the system. *)
Variables HTTPEnable HTTPProxy HTTPPort HTTPSEnable HTTPSProxy HTTPSPort : str.

Definition parse_setting_from_dynamic_store (proxies_map : str → option CFType)
    (enabled_key host_key port_key : str) : option str :=
  let proxy_enabled := (default 0 (proxies_map enabled_key ≫= as_number) =? 1)%Z in
  if proxy_enabled then
    match proxies_map host_key ≫= as_string, proxies_map port_key ≫= as_number with
    | Some proxy_host, Some proxy_port => Some (proxy_host ++ #":" ++ i32_to_string proxy_port)
    | Some proxy_host, None => Some proxy_host
    | None, _ => None
    end
  else None.

Definition mac_with_system (proxies_map : option (str → option CFType)) (builder : Builder) : Builder :=
  match proxies_map with
  | None => builder
  | Some proxies_map =>
    let builder :=
      if is_empty (b_http builder) then
        match parse_setting_from_dynamic_store proxies_map HTTPEnable HTTPProxy HTTPPort with
        | Some http => set_http http builder
        | None => builder
        end
      else builder in
    if is_empty (b_https builder) then
      match parse_setting_from_dynamic_store proxies_map HTTPSEnable HTTPSProxy HTTPSPort with
      | Some https => set_https https builder
      | None => builder
      end
    else builder
  end.
End mac.

(** The environment comes first: a variable that is set is never replaced, and
    the settings add nothing else. *)
Definition fills (b b' : Builder) : Prop :=
  b_is_cgi b' = b_is_cgi b ∧ b_all b' = b_all b ∧ b_unix b' = b_unix b ∧
  (b_http b ≠ [] → b_http b' = b_http b) ∧ (b_https b ≠ [] → b_https b' = b_https b) ∧
  (b_no b ≠ [] → b_no b' = b_no b).

Lemma win_fills settings b : fills b (win_with_system settings b).
Proof.
  unfold fills, win_with_system. destruct settings as [settings|]; [|done].
  destruct (_ =? 0)%Z; [done|].
  destruct (get_string settings #"ProxyServer"), (get_string settings #"ProxyOverride");
    destruct b as [? ? [] [] [] ?]; naive_solver.
Qed.

Lemma mac_fills k1 k2 k3 k4 k5 k6 m b : fills b (mac_with_system k1 k2 k3 k4 k5 k6 m b).
Proof.
  unfold fills, mac_with_system. destruct m as [m|]; [|done].
  destruct b as [? ? [] [] ? ?]; cbn [is_empty b_http b_https];
    repeat destruct (parse_setting_from_dynamic_store _ _ _ _); naive_solver.
Qed.

Lemma fills_complete b b' :
  fills b b' → b_http b ≠ [] → b_https b ≠ [] → b_no b ≠ [] → b' = b.
Proof. destruct b, b'. unfold fills. naive_solver. Qed.

(** [from_system] on a platform with settings of its own.  A client whose
    environment names all proxies ignores them. *)
Context `{HV : HeaderValueLib, HM : HeaderMapLib, UL : UriLib, PL : PercentLib, B64 : Base64Lib}.

Definition from_system_on (with_system : Builder → Builder) (env : str → option str) : option Matcher :=
  Builder_build (with_system (from_env env)) Extra_default.

Lemma from_system_env_first with_system env :
  (∀ b, fills b (with_system b)) →
  b_http (from_env env) ≠ [] → b_https (from_env env) ≠ [] → b_no (from_env env) ≠ [] →
  from_system_on with_system env = from_system env.
Proof.
  intros Hf H1 H2 H3. unfold from_system_on, from_system. by rewrite (fills_complete _ _ (Hf _) H1 H2 H3).
Qed.
End with_system.

(** ** Windows bypass lists *)

(** An entry such as [10.1.*] or [10.*.*.*], with the octets it gives. *)
Definition is_wildcard (entry : str) (octets : list Z) : Prop :=
  ∃ texts n, split "."%char entry = texts ++ replicate (S n) #"*" ∧
    1 ≤ length texts ≤ 3 ∧ Forall2 (λ t o, parse_i32 t = Some o) texts octets.
Definition in_range (octets : list Z) : Prop := Forall (λ o, 0 ≤ o ≤ 255)%Z octets.

Definition octets_of (a : Z) : list Z :=
  [Z.shiftr a 24; (Z.shiftr a 16 mod 256)%Z; (Z.shiftr a 8 mod 256)%Z; (a mod 256)%Z].

Lemma parse_star : parse_i32 #"*" = None.
Proof. done. Qed.

Lemma wildcard_octets_spec value octets :
  wildcard_octets value = Some octets ↔ is_wildcard value octets.
Proof.
  unfold wildcard_octets, is_wildcard. split.
  - destruct (list_find _ _) as [[i x]|] eqn:Hf; [|done]. cbn [mbind option_bind].
    destruct (decide (i = 0)); [done|]. destruct (decide (3 < i)); [done|].
    destruct (existsb _ _) eqn:He; [done|]. intros Ho%mapM_Some_1.
    apply list_find_Some in Hf as (Hi & -> & _). exists (take i (split "."%char value)).
    pose proof (lookup_lt_Some _ _ _ Hi) as Hlt.
    exists (length (split "."%char value) - S i). split_and!; [|rewrite length_take; lia..|done].
    rewrite <- (take_drop i (split "."%char value)) at 1. f_equal. symmetry. apply replicate_as_Forall.
    rewrite length_drop. split; [lia|]. apply Forall_forall. intros y Hy.
    destruct (decide (y = #"*")) as [|Hn]; [done|].
    assert (existsb (λ part, negb (bool_decide (part = #"*"))) (drop i (split "."%char value)) = true) as He'.
    { apply existsb_exists. exists y. split; [by apply list_elem_of_In|].
      by rewrite bool_decide_eq_false_2. }
    congruence.
  - intros (texts & n & Hs & Hl & Ho). rewrite Hs.
    assert (list_find (λ part, part = #"*") (texts ++ replicate (S n) #"*") = Some (length texts, #"*")) as ->.
    { apply list_find_Some. split_and!; [by apply list_lookup_middle|done|].
      intros j y Hj Hlt. rewrite lookup_app_l in Hj by done.
      destruct (Forall2_lookup_l _ _ _ _ _ Ho Hj) as (o & _ & Hy). intros ->. by rewrite parse_star in Hy. }
    cbn [mbind option_bind]. destruct (decide (length texts = 0)); [lia|].
    destruct (decide (3 < length texts)); [lia|].
    rewrite drop_app_length, take_app_length. destruct (existsb _ _) eqn:He.
    + apply existsb_exists in He as (y & Hy%list_elem_of_In & Hn).
      apply elem_of_replicate in Hy as [-> _]. by rewrite bool_decide_eq_true_2 in Hn.
    + by apply mapM_Some_2.
Qed.

(** *** The text of the list *)
Lemma remove_star_dot_cons c c' s :
  remove_star_dot (c :: c' :: s) =
    if decide (c = "*"%char ∧ c' = "."%char) then remove_star_dot s else c :: remove_star_dot (c' :: s).
Proof. done. Qed.

Lemma remove_star_dot_app (a b : str) (c : ascii) :
  c ≠ "."%char → c ≠ "*"%char →
  remove_star_dot (a ++ c :: b) = remove_star_dot a ++ c :: remove_star_dot b.
Proof.
  intros Hd Hs. remember (length a) as n eqn:Hn. revert a Hn.
  induction (lt_wf n) as [n _ IH].
  assert (remove_star_dot (c :: b) = c :: remove_star_dot b) as Hb.
  { destruct b; [done|]. by rewrite remove_star_dot_cons, decide_False by naive_solver. }
  intros [|x [|y a]] ->; cbn [app].
  - done.
  - rewrite remove_star_dot_cons, decide_False by naive_solver. by rewrite Hb.
  - rewrite !remove_star_dot_cons. case_decide; [apply (IH (length a)); simpl; lia|].
    cbn [app]. f_equal. by apply (IH (length (y :: a)) ltac:(simpl; lia) (y :: a)).
Qed.

Lemma remove_star_dot_join l :
  remove_star_dot (join #"," l) = join #"," (remove_star_dot <$> l).
Proof.
  induction l as [|s [|s' l] IH]; [done..|].
  change (join #"," (s :: s' :: l)) with (s ++ ","%char :: join #"," (s' :: l)).
  rewrite remove_star_dot_app, IH by done. done.
Qed.

Lemma remove_star_dot_id s : "*"%char ∉ s → remove_star_dot s = s.
Proof.
  induction s as [|c [|c' s] IH]; intros Hs; [done..|].
  rewrite remove_star_dot_cons, decide_False by set_solver. by rewrite IH by set_solver.
Qed.

Lemma split_nonempty c s : split c s ≠ [].
Proof. destruct s; simpl; [done|]. case_decide; [done|]. by destruct (split c s). Qed.

Lemma split_app c a b : split c (a ++ c :: b) = split c a ++ split c b.
Proof.
  induction a as [|x a IH]; simpl; [by rewrite decide_True by done|].
  rewrite IH. case_decide; [done|]. by destruct (split c a) eqn:E; [apply split_nonempty in E|].
Qed.

Lemma split_join c l :
  l ≠ [] → split c (join [c] l) = mjoin (split c <$> l).
Proof.
  induction l as [|s [|s' l] IH]; intros Hl; [done|by simpl; rewrite app_nil_r|].
  change (join [c] (s :: s' :: l)) with (s ++ c :: join [c] (s' :: l)).
  rewrite split_app, IH by done. done.
Qed.

Lemma split_plain c s : c ∉ s → split c s = [s].
Proof.
  induction s as [|x s IH]; intros Hs; simpl; [done|].
  rewrite decide_False by set_solver. by rewrite IH by set_solver.
Qed.

(** Text that starts and ends with a digit is not trimmed. *)
Lemma digit_not_space c w : is_Some (digit c) → w ∈ whitespace → w ≠ [] ∧ head w ≠ Some c ∧ last w ≠ Some c.
Proof.
  intros Hd Hw. apply (bool_decide_unpack _).
  assert (forallb (λ w, bool_decide (w ≠ [] ∧ head w ≠ Some c ∧ last w ≠ Some c)) whitespace = true) as H.
  { destruct c as [[] [] [] [] [] [] [] []]; try (by vm_compute); by destruct Hd. }
  rewrite forallb_forall in H. rewrite H by by apply list_elem_of_In. done.
Qed.

Lemma trim_digits c c' s :
  head s = Some c → last s = Some c' → is_Some (digit c) → is_Some (digit c') → trim s = s.
Proof.
  intros Hh Hl Hc Hc'. unfold trim.
  assert (∀ n, trim_start_fuel n s = s) as ->.
  { intros [|n]; [done|]. cbn [trim_start_fuel]. destruct (list_find _ _) as [[i w]|] eqn:E; [|done].
    apply list_find_Some in E as (Hw%list_elem_of_lookup_2 & [k ->]%starts_with_true & _).
    destruct (digit_not_space c w Hc Hw) as (Hne & Hn & _). by destruct w. }
  destruct (length s) as [|n]; [done|]. cbn [trim_end_fuel].
  destruct (list_find _ _) as [[i w]|] eqn:E; [|done].
  apply list_find_Some in E as (Hw%list_elem_of_lookup_2 & [k ->]%ends_with_true & _).
  destruct (digit_not_space c' w Hc' Hw) as (Hne & _ & Hn). rewrite last_app in Hl.
  destruct (last w) eqn:Hlw; [congruence|by apply last_None in Hlw].
Qed.

Lemma octet_ends o :
  (0 ≤ o ≤ 255)%Z →
  ∃ c c', head (decimal o) = Some c ∧ last (decimal o) = Some c' ∧ is_Some (digit c) ∧ is_Some (digit c').
Proof.
  intros Ho. pose proof (octet_plain o Ho) as Hp. pose proof (octet_head o Ho) as Hn.
  destruct (last (decimal o)) as [c'|] eqn:Hl; [|by apply last_None in Hl].
  destruct (decimal o) as [|c ds]; [done|]. exists c, c'. split_and!; [done..| |].
  - by decompose_Forall_hyps.
  - by eapply Forall_forall in Hp; [|apply last_Some_elem_of].
Qed.

Section bypass.
Context `{NL : IpNetLib}.

Definition bypassed (no_proxy_list host : str) : bool :=
  NoProxy_contains (NoProxy_from_string no_proxy_list) host.

Lemma bypassed_parts (l1 l2 : list str) host :
  NoProxy_contains (foldl no_proxy_part NoProxy_empty (l1 ++ l2)) host =
    NoProxy_contains (foldl no_proxy_part NoProxy_empty l1) host ||
    NoProxy_contains (foldl no_proxy_part NoProxy_empty l2) host.
Proof.
  unfold NoProxy_contains, IpMatcher_contains, DomainMatcher_contains.
  repeat match goal with
  | |- context [foldl no_proxy_part NoProxy_empty ?l] =>
    destruct (no_proxy_fold l NoProxy_empty) as [Hi Hd];
    destruct (foldl no_proxy_part NoProxy_empty l) as [? ?]; simpl in Hi, Hd; subst; cbn [np_ips np_domains]
  end.
  destruct (parse_ip_addr _); by rewrite ?omap_app, ?filter_app, existsb_app.
Qed.

Lemma bypassed_join l host :
  l ≠ [] → bypassed (join #"," l) host = existsb (λ s, bypassed s host) l.
Proof.
  intros Hl. unfold bypassed, NoProxy_from_string, no_proxy_parts.
  change #"," with [","%char]. rewrite split_join by done. clear Hl.
  induction l as [|s l IH].
  - unfold NoProxy_contains. simpl. by destruct (parse_ip_addr _).
  - change (mjoin (split ","%char <$> s :: l)) with (split ","%char s ++ mjoin (split ","%char <$> l)).
    cbn [existsb]. rewrite fmap_app, bypassed_parts. by rewrite IH.
Qed.

(** A wildcard becomes the network of the addresses that match it. *)
Lemma cidr_text value octets :
  wildcard_octets value = Some octets → in_range octets →
  ∃ a b c d, ipv4_wildcard_to_cidr value =
      Some (dotted a b c d ++ #"/" ++ decimal (Z.of_nat (length octets) * 8)) ∧
    in_range [a; b; c; d] ∧ 1 ≤ length octets ≤ 3 ∧
    [a; b; c; d] = octets ++ replicate (4 - length octets) 0%Z.
Proof.
  intros Hv Hr. unfold ipv4_wildcard_to_cidr. rewrite Hv. cbn [mbind option_bind].
  apply wildcard_octets_spec in Hv as (texts & n & _ & Hl & Hf%Forall2_length). rewrite Hf in Hl.
  assert (∀ o, (0 ≤ o ≤ 255)%Z → i32_to_string o = decimal o) as Hs.
  { intros o Ho. unfold i32_to_string. by destruct (Z.ltb_spec o 0); [lia|]. }
  assert (0 ≤ 0 ≤ 255)%Z as H0 by lia.
  destruct octets as [|a [|b [|c [|]]]]; simpl in Hl; try lia; unfold in_range in Hr; decompose_Forall_hyps;
    [exists a, 0%Z, 0%Z, 0%Z|exists a, b, 0%Z, 0%Z|exists a, b, c, 0%Z];
    (split; [|split; [by unfold in_range; rewrite !Forall_cons, Forall_nil|split; [simpl; lia|done]]]);
    cbn [lookup list_lookup default id]; rewrite !Hs by done; unfold dotted; by rewrite <- !app_assoc.
Qed.

Lemma prefix_cons_eq {A} (x y : A) k l : x :: k `prefix_of` y :: l ↔ x = y ∧ k `prefix_of` l.
Proof.
  split; [|intros [-> ?]; by apply prefix_cons].
  intros H. split; [by eapply prefix_cons_inv_1|by eapply prefix_cons_inv_2].
Qed.

Lemma shiftr_octets a b c d y octets :
  in_range [a; b; c; d] → 1 ≤ length octets ≤ 3 →
  [a; b; c; d] = octets ++ replicate (4 - length octets) 0%Z →
  let p := (32 - Z.of_nat (length octets) * 8)%Z in
  Z.shiftr (of_octets a b c d) p = Z.shiftr y p ↔ octets `prefix_of` octets_of y.
Proof.
  unfold in_range, octets_of, of_octets. intros Hr Hn He. decompose_Forall_hyps.
  assert (∀ z, Z.shiftr z 24 = z / 16777216 ∧ Z.shiftr z 16 = z / 65536 ∧ Z.shiftr z 8 = z / 256)%Z as Hz
    by (intros z; by rewrite !Z.shiftr_div_pow2).
  destruct octets as [|? [|? [|? [|]]]]; simpl in Hn; try lia; simpl in He; simplify_eq;
    cbn [length];
    [change (32 - Z.of_nat 1 * 8)%Z with 24%Z|change (32 - Z.of_nat 2 * 8)%Z with 16%Z
    |change (32 - Z.of_nat 3 * 8)%Z with 8%Z]; rewrite !prefix_cons_eq;
    repeat match goal with |- context [Z.shiftr ?z ?n] =>
      first [rewrite (proj1 (Hz z))|rewrite (proj1 (proj2 (Hz z)))|rewrite (proj2 (proj2 (Hz z)))] end;
    clear Hz; (split; [intros; split_and!; try apply prefix_nil|intros; destruct_and?]);
    Z.to_euclidean_division_equations; lia.
Qed.

Lemma wildcard_bypass value octets host :
  wildcard_octets value = Some octets → in_range octets →
  ∃ text, ipv4_wildcard_to_cidr value = Some text ∧ ("*"%char ∉ text) ∧
    (bypassed text host = true ↔
     ∃ a, parse_ip_addr (strip_ipv6_brackets host) = Some (V4 a) ∧ (octets `prefix_of` octets_of a)).
Proof.
  intros Hv Hr. destruct (cidr_text _ _ Hv Hr) as (a & b & c & d & Ht & Habcd & Hl & He).
  set (text := dotted a b c d ++ _) in Ht. exists text. split; [done|].
  set (p := (Z.of_nat (length octets) * 8)%Z) in *.
  assert (0 ≤ p ≤ 255)%Z as Hp by lia.
  assert (∀ x, digit x = None → x ≠ "."%char → x ≠ "/"%char → x ∉ text) as Hplain.
  { intros x ? ? ?. unfold text. rewrite !elem_of_app. unfold lit; simpl.
    pose proof (dotted_plain x a b c d). pose proof (proj1 (Forall_forall _ _) (octet_plain p Hp) x).
    assert (¬ is_Some (digit x)) by (intros []; congruence). set_solver. }
  split; [by apply Hplain|].
  assert (trim text = text) as Htrim.
  { unfold in_range in Habcd. decompose_Forall_hyps.
    destruct (octet_ends a) as (x & _ & Hx & _ & Hdx & _); [done|].
    destruct (octet_ends p) as (_ & y & _ & Hy & _ & Hdy); [done|].
    apply (trim_digits x y); [|unfold text; by rewrite last_app, last_cons, Hy|done..].
    unfold text, dotted. by destruct (decimal a). }
  destruct (ipnet_v4 a b c d p Habcd ltac:(lia)) as (net & Hnet & Hc).
  unfold bypassed, NoProxy_from_string, no_proxy_parts. rewrite split_plain by by apply Hplain.
  cbn [fmap list_fmap foldl]. rewrite Htrim. unfold no_proxy_part. fold text in Hnet. rewrite Hnet.
  unfold NoProxy_contains. cbn [np_ips np_domains NoProxy_empty app].
  destruct (parse_ip_addr (strip_ipv6_brackets host)) as [[y|y]|]; simpl;
    [|split; [|naive_solver]; by rewrite ?Hc..|naive_solver].
  rewrite Hc, orb_false_r, Z.eqb_eq. pose proof (shiftr_octets a b c d y octets Habcd Hl He) as Hsh.
  cbv zeta in Hsh. fold p in Hsh. rewrite Hsh. naive_solver.
Qed.

End bypass.

Module SystemProxyExamples.
(** The lists the tests of the matcher use. *)
Lemma windows_lists :
  let list := normalize_proxy_override #"127.*; 10.*.*.*; 192.168.*; 192.168.1.*; *.example.com" in
  list = #"127.0.0.0/8,10.0.0.0/8,192.168.0.0/16,192.168.1.0/24,example.com" ∧
  forallb (bypassed list)
    [ #"127.0.0.1"; #"10.12.34.56"; #"192.168.42.1"; #"192.168.1.42"; #"www.example.com"] = true ∧
  existsb (bypassed list) [ #"128.0.0.1"; #"192.169.42.1"] = false.
Proof. by vm_compute. Qed.

(** What is not a wildcard loses every asterisk before a dot, and an octet is
    an [i32]. *)
Lemma windows_odd_entries :
  normalize_proxy_override #"10.*.5.*;300.*;-1.*" = #"10.5.*,300.0.0.0/8,-1.0.0.0/8".
Proof. by vm_compute. Qed.

Definition registry : Registry :=
  {| get_u32 _ := Some 1%Z;
     get_string name := if decide (name = #"ProxyServer") then Some #"proxy:8080" else None |}.
Lemma windows_server :
  let b := win_with_system (Some registry) Builder_default in
  (b_http b, b_https b, b_no b) = (#"proxy:8080", #"proxy:8080", []).
Proof. by vm_compute. Qed.

Lemma mac_server :
  let settings k :=
    if decide (k = #"HTTPEnable") then Some (CFNumber (Some 1%Z))
    else if decide (k = #"HTTPProxy") then Some (CFString #"proxy")
    else if decide (k = #"HTTPPort") then Some (CFNumber (Some 8080%Z)) else None in
  let b := mac_with_system #"HTTPEnable" #"HTTPProxy" #"HTTPPort" #"HTTPSEnable" #"HTTPSProxy" #"HTTPSPort"
             (Some settings) Builder_default in
  (b_http b, b_https b) = (#"proxy:8080", []).
Proof. by vm_compute. Qed.
End SystemProxyExamples.
