(* ===== verification/Proxy.v ===== *)
(** * Proxies

    [src/proxy.rs]: the proxy a user configures, with its credentials, extra
    headers and bypass list, and its conversion into a matcher. *)

From S2P Require Import Prelude Http Net Ext Matcher.

Section proxy.
Context `{HV : HeaderValueLib, HM : HeaderMapLib, UL : UriLib, PL : PercentLib}.
Context `{B64 : Base64Lib, NL : IpNetLib}.

(** ** Data *)
Inductive ProxyScheme :=
| SchemeAll (uri : Uri)
| SchemeHttp (uri : Uri)
| SchemeHttps (uri : Uri)
| SchemeUnix (path : str).

(** [NoProxy] of [proxy.rs] keeps the text of the list. *)
Record NoProxyList := { inner : str }.

Record Proxy := {
  p_extra : Extra;
  p_scheme : ProxyScheme;
  p_no_proxy : option NoProxyList;
}.

(** ** Construction *)
Definition Proxy_new (scheme : ProxyScheme) : Proxy :=
  {| p_extra := {| ex_auth := None; ex_misc := None |}; p_scheme := scheme; p_no_proxy := None |}.
Definition result_map {A B E} (f : A → B) (r : result A E) : result B E :=
  match r with Ok a => Ok (f a) | Err e => Err e end.
Definition Proxy_http {U} `{IntoUri U} (uri : U) : result Proxy UriError :=
  result_map (λ u, Proxy_new (SchemeHttp u)) (into_uri uri).
Definition Proxy_https {U} `{IntoUri U} (uri : U) : result Proxy UriError :=
  result_map (λ u, Proxy_new (SchemeHttps u)) (into_uri uri).
Definition Proxy_all {U} `{IntoUri U} (uri : U) : result Proxy UriError :=
  result_map (λ u, Proxy_new (SchemeAll u)) (into_uri uri).
Definition Proxy_unix (unix : str) : Proxy := Proxy_new (SchemeUnix unix).

Definition set_scheme (s : ProxyScheme) (self : Proxy) : Proxy :=
  {| p_extra := p_extra self; p_scheme := s; p_no_proxy := p_no_proxy self |}.
Definition set_extra (e : Extra) (self : Proxy) : Proxy :=
  {| p_extra := e; p_scheme := p_scheme self; p_no_proxy := p_no_proxy self |}.

Definition map_scheme_uri (f : Uri → Uri) (s : ProxyScheme) : ProxyScheme :=
  match s with
  | SchemeAll uri => SchemeAll (f uri)
  | SchemeHttp uri => SchemeHttp (f uri)
  | SchemeHttps uri => SchemeHttps (f uri)
  | SchemeUnix path => SchemeUnix path
  end.

(** [Proxy::basic_auth]; [None] is the panic of the helper of the same
    name. *)
Definition Proxy_basic_auth (username password : str) (self : Proxy) : option Proxy :=
  match p_scheme self with
  | SchemeUnix _ => Some self
  | scheme =>
    header ← basic_auth username (Some password);
    Some (set_extra {| ex_auth := Some header; ex_misc := ex_misc (p_extra self) |}
           (set_scheme (map_scheme_uri (set_userinfo username (Some password)) scheme) self))
  end.

Definition custom_http_auth (header_value : HeaderValue) (self : Proxy) : Proxy :=
  set_extra {| ex_auth := Some header_value; ex_misc := ex_misc (p_extra self) |} self.

Definition custom_http_headers (headers : HeaderMap HeaderValue) (self : Proxy) : Proxy :=
  match p_scheme self with
  | SchemeUnix _ => self
  | _ => set_extra {| ex_auth := ex_auth (p_extra self); ex_misc := Some headers |} self
  end.

Definition no_proxy (np : option NoProxyList) (self : Proxy) : Proxy :=
  {| p_extra := p_extra self; p_scheme := p_scheme self; p_no_proxy := np |}.

(** ** The bypass list *)
Definition NoProxyList_from_string (no_proxy_list : str) : option NoProxyList :=
  Some {| inner := no_proxy_list |}.
Definition NoProxyList_from_env (env : str → option str) : option NoProxyList :=
  raw ← or_else (env_var env #"NO_PROXY") (env_var env #"no_proxy");
  Some (default {| inner := [] |} (NoProxyList_from_string raw)).

(** ** Conversion *)
Definition bypass (self : Proxy) : str :=
  match p_no_proxy self with Some n => inner n | None => [] end.

Definition into_matcher (self : Proxy) : option Matcher :=
  let no_proxy := bypass self in
  match p_scheme self with
  | SchemeAll uri =>
    Builder_build (set_no no_proxy (set_all (uri_to_string uri) Builder_default)) (p_extra self)
  | SchemeHttp uri =>
    Builder_build (set_no no_proxy (set_http (uri_to_string uri) Builder_default)) (p_extra self)
  | SchemeHttps uri =>
    Builder_build (set_no no_proxy (set_https (uri_to_string uri) Builder_default)) (p_extra self)
  | SchemeUnix unix =>
    Builder_build (set_no no_proxy (set_unix unix Builder_default)) (p_extra self)
  end.

(** ** Specification *)

(** The URI of a proxy and the destinations it is for. *)
Definition scheme_uri (s : ProxyScheme) : option Uri :=
  match s with
  | SchemeAll uri | SchemeHttp uri | SchemeHttps uri => Some uri
  | SchemeUnix _ => None
  end.
Definition applies (s : ProxyScheme) (dst : Uri) : bool :=
  match s with
  | SchemeAll _ => is_http dst || is_https dst
  | SchemeHttp _ => is_http dst
  | SchemeHttps _ => is_https dst
  | SchemeUnix _ => true
  end.

Lemma parse_env_uri_empty : parse_env_uri [] = Some None.
Proof. unfold parse_env_uri. by rewrite uri_try_from_empty. Qed.

Lemma into_matcher_intercept p :
  ∃ m, into_matcher p = Some m ∧ ∀ dst,
  intercept m dst =
    match p_scheme p with
    | SchemeUnix path => Some (InterceptedUnix path)
    | scheme =>
      host ← uri_host dst; uri ← scheme_uri scheme;
      if NoProxy_contains (NoProxy_from_string (bypass p)) host then None
      else if applies scheme dst
      then InterceptedProxy ∘ with_extra (p_extra p) <$> mjoin (parse_env_uri (uri_to_string uri))
      else None
    end.
Proof.
  unfold into_matcher. destruct (p_scheme p) as [uri|uri|uri|path];
    unfold Builder_build; simpl; rewrite ?parse_env_uri_empty; simpl.
  1-3: destruct (parse_env_uri_inv (uri_to_string uri)) as (r & -> & _); simpl;
    eexists; (split; [done|]); intros dst; unfold intercept; simpl;
    destruct (uri_host dst) as [host|]; [simpl|done];
    destruct (NoProxy_contains _ _); [done|]; destruct r as [i|]; simpl;
    (destruct (is_http dst) eqn:Hh;
     [rewrite ?(is_http_not_https _ Hh) | destruct (is_https dst)]); done.
  eexists. split; [done|]. intros dst. done.
Qed.

(** Which requests a configured proxy takes.  Converting a [Proxy] into a
    matcher never panics.  A Unix socket takes every destination.  Any other
    proxy takes a destination with a host that its bypass list does not
    contain and whose scheme it was configured for, and nothing else; the
    proxy that is then used is the one its URI names, with exactly the
    credentials header and the extra headers it was configured with. *)
Theorem proxy_intercepts (p : Proxy) :
  ∃ m, into_matcher p = Some m ∧ ∀ dst,
  match p_scheme p with
  | SchemeUnix path => intercept m dst = Some (InterceptedUnix path)
  | scheme =>
    ∃ uri read, scheme_uri scheme = Some uri ∧ parse_env_uri (uri_to_string uri) = Some read ∧
    ∀ r, intercept m dst = Some r ↔
      ∃ host i, uri_host dst = Some host ∧
        NoProxy_contains (NoProxy_from_string (bypass p)) host = false ∧
        applies scheme dst = true ∧ read = Some i ∧
        r = InterceptedProxy {| ic_uri := ic_uri i; ic_auth := ic_auth i; ic_extra := p_extra p |}
  end.
Proof.
  destruct (into_matcher_intercept p) as (m & Hm & Hi). exists m. split; [done|].
  intros dst. specialize (Hi dst).
  destruct (p_scheme p) as [uri|uri|uri|path]; [..|done];
    destruct (parse_env_uri_inv (uri_to_string uri)) as (read & Hr & _);
    exists uri, read; (split_and!; [done..|]); intros r; rewrite Hi;
    cbn [scheme_uri mbind option_bind]; rewrite Hr; cbn [mjoin option_join];
    (destruct (uri_host dst) as [host|]; cbn [mbind option_bind]; [|naive_solver]);
    (destruct (NoProxy_contains _ host) eqn:?;
     [split; [done|]; intros (h & i & [= <-] & ? & _); congruence|]);
    destruct (applies _ _) eqn:?, read as [i|]; simpl; unfold with_extra; naive_solver.
Qed.

(** The authority that carries the credentials is read back to them. *)
Lemma socks_credentials_read val u a username password scheme i :
  uri_try_from val = Some u → (∃ b, uri_authority u = Some b ∧
    auth_str b = userinfo_authority a username (Some password)) →
  proxy_scheme u = Some (scheme, true) →
  "%"%char ∉ username → "%"%char ∉ password →
  utf8_valid username = true → utf8_valid password = true →
  parse_env_uri val = Some (Some i) → raw_auth i = Some (username, password).
Proof.
  intros Hv (b & Hb & Hstr) Hs Hn1 Hn2 Hu1 Hu2 Hp.
  destruct (parse_env_uri_inv val) as (r & Hr & Hi). simplify_eq.
  destruct (Hi i ltac:(congruence)) as (uri & a' & sc & is_socks & hp & ? & ? & ? & _ & _ & Hau).
  simplify_eq. rewrite Hstr, userinfo_authority_split in Hau.
  assert (Some (ic_auth i) = proxy_auth (utf8_percent_encode USERINFO username ++ ":"%char ::
            utf8_percent_encode USERINFO password) true) as Hau' by (by destruct username).
  unfold proxy_auth in Hau'. rewrite split_userinfo in Hau'. simpl in Hau'.
  injection Hau' as Hau'. unfold raw_auth. rewrite Hau'.
  rewrite !pct_decode_encode by auto. by rewrite !from_utf8_lossy_valid.
Qed.

Lemma intercept_proxy_inv p m dst i :
  into_matcher p = Some m → intercept m dst = Some (InterceptedProxy i) →
  ∃ uri i0, scheme_uri (p_scheme p) = Some uri ∧
    parse_env_uri (uri_to_string uri) = Some (Some i0) ∧ i = with_extra (p_extra p) i0.
Proof.
  destruct (into_matcher_intercept p) as (m' & Hm' & Hi). intros Hm. simplify_eq. rewrite Hi.
  destruct (p_scheme p) as [uri|uri|uri|path]; [..|done];
    (destruct (uri_host dst); [cbn [mbind option_bind scheme_uri]|done]);
    (destruct (NoProxy_contains _ _); [done|]);
    (destruct (applies _ _); [|done]); intros (i0 & Hp & [= ->])%fmap_Some;
    exists uri, i0; destruct (parse_env_uri _) as [[]|]; by simplify_eq/=.
Qed.

Lemma basic_auth_scheme username password p p' uri :
  scheme_uri (p_scheme p) = Some uri → Proxy_basic_auth username password p = Some p' →
  scheme_uri (p_scheme p') = Some (set_userinfo username (Some password) uri) ∧
  ex_auth (p_extra p') = basic_auth username (Some password).
Proof.
  intros Hu. unfold Proxy_basic_auth. rewrite basic_auth_ok.
  destruct (p_scheme p); naive_solver.
Qed.

(** The credentials given to [Proxy::basic_auth] are the ones the proxy
    gets.  Whenever a request is intercepted by a proxy configured with a user
    name and a password, an HTTP proxy is sent exactly their [Basic] value,
    marked sensitive; a SOCKS proxy is authenticated to with exactly this pair
    when neither holds a percent sign; and they do not appear in the URI that
    is connected to. *)
Theorem proxy_credentials s uri a a' u' username password scheme is_socks p p' m dst i :
  uri_try_from s = Some uri → uri_authority uri = Some a →
  scheme_uri (p_scheme p) = Some uri → proxy_scheme uri = Some (scheme, is_socks) →
  is_Some (uri_scheme uri) →
  authority_parse (userinfo_authority a username (Some password)) = Some a' →
  uri_from_parts (set_authority a' uri) = Some u' →
  (Z.of_nat (length (uri_to_string u')) <= 65534)%Z →
  utf8_valid username = true → utf8_valid password = true →
  Proxy_basic_auth username password p = Some p' → into_matcher p' = Some m →
  intercept m dst = Some (InterceptedProxy i) →
  Intercept_basic_auth i =
    Some {| hv_bytes := #"Basic " ++ encode_block (username ++ #":" ++ password);
            hv_sensitive := true |} ∧
  (is_socks = true → "%"%char ∉ username → "%"%char ∉ password →
   raw_auth i = Some (username, password)) ∧
  "@"%char ∉ from_option auth_str [] (uri_authority (ic_uri i)).
Proof.
  intros Hs Ha Hp Hsch Hsome Ha' Hu' Hlen Hv1 Hv2 Hauth Hm Hi.
  destruct (basic_auth_scheme _ _ _ _ _ Hp Hauth) as [Hscheme Hex].
  destruct (intercept_proxy_inv _ _ _ _ Hm Hi) as (uri' & i0 & Huri & Hread & ->).
  assert (set_userinfo username (Some password) uri = u') as Hset.
  { unfold set_userinfo. by rewrite Ha, Ha', Hu'. }
  rewrite Hset in Hscheme. simplify_eq.
  pose proof (uri_reparse _ _ _ _ _ Hs Hsome Ha' Hu' Hlen) as Hre.
  apply uri_from_parts_Some in Hu' as Hu''. split_and!.
  - unfold Intercept_basic_auth. cbn [with_extra ic_extra]. rewrite Hex, basic_auth_ok. done.
  - intros -> Hn1 Hn2. eapply (socks_credentials_read _ _ a _ _ scheme i0 Hre); [| |done..].
    + exists a'. rewrite Hu''. split; [done|]. by apply authority_parse_Some.
    + rewrite Hu''. done.
  - destruct (parse_env_uri_inv (uri_to_string (set_userinfo username (Some password) uri))) as (r & Hr & Hinv). simplify_eq.
    destruct (Hinv i0) as (? & b & ? & ? & hp & _ & _ & _ & Hic & Hstr & _); [congruence|].
    simpl. rewrite Hic. simpl. rewrite Hstr. intros [Hin|Hin]%elem_of_app;
      [by apply host_and_port_plain in Hin | by apply default_port_plain in Hin].
Qed.
End proxy.

Module ProxyExamples.
Definition proxy_text : str := #"socks5://proxy.test:1081".
Definition dst : Uri :=
  {| uri_scheme := Some HTTPS;
     uri_authority := Some {| auth_str := #"example.com"; auth_host := #"example.com";
                              auth_port := None |};
     uri_path_and_query := Some {| pq_path := #"/"; pq_query := None |} |}.
Definition proxy_of (uri : Uri) : Proxy := Proxy_new (SchemeAll uri).

(** The whole way from the configured proxy to the credentials of the SOCKS
    handshake. *)
Definition handshake (text username password : str) : option (str * str) :=
  uri ← uri_try_from text;
  p ← Proxy_basic_auth username password (proxy_of uri);
  m ← into_matcher p;
  match intercept m dst with
  | Some (InterceptedProxy i) => raw_auth i
  | _ => None
  end.

Definition socks_uri : Uri :=
  {| uri_scheme := Some (OtherScheme #"socks5");
     uri_authority := Some {| auth_str := #"proxy.test:1081"; auth_host := #"proxy.test";
                              auth_port := Some 1081%Z |};
     uri_path_and_query := Some {| pq_path := #"/"; pq_query := None |} |}.

Lemma proxy_credentials_witness :
  ∃ p m i, Proxy_basic_auth #"user" #"pa:ss@word" (proxy_of socks_uri) = Some p ∧
    into_matcher p = Some m ∧ intercept m dst = Some (InterceptedProxy i) ∧
    raw_auth i = Some (#"user", #"pa:ss@word").
Proof.
  assert (handshake proxy_text #"user" #"pa:ss@word" ≠ None) as H by (by vm_compute).
  assert (uri_try_from proxy_text = Some socks_uri) as Hu by (by vm_compute).
  unfold handshake in H. rewrite Hu in H. cbn [mbind option_bind] in H.
  destruct (Proxy_basic_auth _ _ _) as [p|] eqn:Hp; [|done]. cbn [mbind option_bind] in H.
  destruct (into_matcher p) as [m|] eqn:Hm; [|done]. cbn [mbind option_bind] in H.
  destruct (intercept m dst) as [[i|]|] eqn:Hi; [|done..].
  exists p, m, i. split_and!; [done..|].
  refine (proj1 (proj2 (proxy_credentials proxy_text socks_uri _ _ _ #"user" #"pa:ss@word" _ true
    (proxy_of socks_uri) p m dst i Hu eq_refl eq_refl eq_refl (ex_intro _ _ eq_refl)
    eq_refl eq_refl _ eq_refl eq_refl Hp Hm Hi)) eq_refl _ _).
  - by vm_compute.
  - apply (bool_decide_unpack _); by vm_compute.
  - apply (bool_decide_unpack _); by vm_compute.
Defined.

(** A password with a percent sign does not reach a SOCKS proxy.  The set
    of characters that [set_userinfo] encodes does not contain the percent
    sign, and [parse_env_uri] decodes: the proxy is given another password. *)
Theorem socks_percent_password :
  handshake proxy_text #"user" #"100%25" = Some (#"user", #"100%").
Proof. by vm_compute. Qed.
End ProxyExamples.
