(* ===== verification/CookieStore.v ===== *)
(** * Cookie storage

    [src/cookie/store.rs]: cookies by domain, path, host-only scope and name;
    domain matching, path matching and expiration of RFC 6265. *)

From S2P Require Import Prelude Http Ext.

(** ** Cookies of the [cookie] crate *)

Inductive Expiration := DateTime (t : Z) | Session.
Inductive SameSite := Strict | Lax | SameSiteNone.

(** [cookie::Cookie] by the values of its attributes.  Times are nanoseconds
    since the epoch, durations nanoseconds. *)
Record RawCookie := {
  c_name : str;
  c_value : str;
  c_expires : option Expiration;
  c_max_age : option Z;
  c_domain_attr : option str;
  c_path : option str;
  c_secure : option bool;
  c_http_only : option bool;
  c_same_site : option SameSite;
}.

(** [Cookie::domain] drops a leading dot of the attribute. *)
Definition c_domain (c : RawCookie) : option str :=
  (λ d, default d (strip_prefix #"." d)) <$> c_domain_attr c.

Definition expires_datetime (c : RawCookie) : option Z :=
  match c_expires c with Some (DateTime t) => Some t | _ => None end.

Definition set_domain (d : str) (c : RawCookie) : RawCookie :=
  {| c_name := c_name c; c_value := c_value c; c_expires := c_expires c;
     c_max_age := c_max_age c; c_domain_attr := Some d; c_path := c_path c;
     c_secure := c_secure c; c_http_only := c_http_only c; c_same_site := c_same_site c |}.
Definition set_path (p : str) (c : RawCookie) : RawCookie :=
  {| c_name := c_name c; c_value := c_value c; c_expires := c_expires c;
     c_max_age := c_max_age c; c_domain_attr := c_domain_attr c; c_path := Some p;
     c_secure := c_secure c; c_http_only := c_http_only c; c_same_site := c_same_site c |}.
(** [set_max_age(None)] followed by [set_expires(t)]. *)
Definition set_deadline (t : Z) (c : RawCookie) : RawCookie :=
  {| c_name := c_name c; c_value := c_value c; c_expires := Some (DateTime t);
     c_max_age := None; c_domain_attr := c_domain_attr c; c_path := c_path c;
     c_secure := c_secure c; c_http_only := c_http_only c; c_same_site := c_same_site c |}.

#[export] Instance Expiration_eq_dec : EqDecision Expiration.
Proof. solve_decision. Defined.
#[export] Instance SameSite_eq_dec : EqDecision SameSite.
Proof. solve_decision. Defined.
#[export] Instance RawCookie_eq_dec : EqDecision RawCookie.
Proof. solve_decision. Defined.

(** ** Matching *)

Definition DEFAULT_PATH : str := #"/".

Definition cookie_is_expired (c : RawCookie) (now : Z) : bool :=
  match c_max_age c with Some d => (d <=? 0)%Z | None => false end ||
  match expires_datetime c with Some t => (t <=? now)%Z | None => false end.

(** [domain_match]; the index is in range because the host is longer. *)
Definition domain_match (host domain : Host) : bool :=
  bool_decide (host = domain) ||
  match host, domain with
  | Domain host, Domain domain =>
    (length domain <? length host) &&
    bool_decide (host !! (length host - length domain - 1) = Some "."%char) &&
    ends_with domain host
  | _, _ => false
  end.

Definition path_match (request_path cookie_path : str) : bool :=
  bool_decide (request_path = cookie_path) ||
  starts_with cookie_path request_path &&
  (ends_with DEFAULT_PATH cookie_path ||
   starts_with DEFAULT_PATH (drop (length cookie_path) request_path)).

Definition canonical_host `{HL : HostLib} (host : str) : option Host :=
  host_parse (default host (strip_prefix #"." host)).

Definition normalize_path (path : str) : str :=
  if negb (starts_with DEFAULT_PATH path) then DEFAULT_PATH
  else match rfind_char "/"%char path with
       | Some 0 => DEFAULT_PATH
       | Some pos => take pos path
       | None => DEFAULT_PATH
       end.

Definition request_matches_cookie (uri : Uri) (request_host cookie_domain : Host)
    (cookie_path : str) (cookie : RawCookie) (now : Z) : bool :=
  if negb (is_http uri || is_https uri)
     || negb (domain_match request_host cookie_domain)
     || bool_decide (c_domain cookie = None) && negb (bool_decide (request_host = cookie_domain))
     || negb (path_match (uri_path uri) cookie_path)
     || bool_decide (c_secure cookie = Some true) && is_http uri
  then false
  else negb (cookie_is_expired cookie now).

(** ** The store *)

Record CookieEntry := {
  cookie : RawCookie;
  creation_index : Z;
}.

Record CookieScopeMap := {
  host_only : gmap str CookieEntry;
  domain : gmap str CookieEntry;
}.

Record Store := {
  cookies : gmap Host (gmap str CookieScopeMap);
  next_creation_index : Z;
}.

Definition empty_scope : CookieScopeMap := {| host_only := ∅; domain := ∅ |}.
Definition empty_store : Store := {| cookies := ∅; next_creation_index := 0 |}.

(** *** [CookieScopeMap] *)
Definition scope_get_mut (m : CookieScopeMap) (name : str) (ho : bool) : option CookieEntry :=
  if ho then host_only m !! name else domain m !! name.

Definition scope_entries (m : CookieScopeMap) (name : str) : list CookieEntry :=
  option_list (host_only m !! name) ++ option_list (domain m !! name).

Definition scope_insert (m : CookieScopeMap) (name : str) (ho : bool) (e : CookieEntry) :
    CookieScopeMap :=
  if ho then {| host_only := <[name := e]> (host_only m); domain := domain m |}
  else {| host_only := host_only m; domain := <[name := e]> (domain m) |}.

Definition scope_remove (m : CookieScopeMap) (name : str) (ho : bool) : CookieScopeMap :=
  if ho then {| host_only := delete name (host_only m); domain := domain m |}
  else {| host_only := host_only m; domain := delete name (domain m) |}.

Definition scope_remove_all (m : CookieScopeMap) (name : str) : CookieScopeMap :=
  {| host_only := delete name (host_only m); domain := delete name (domain m) |}.

Definition scope_values (m : CookieScopeMap) : list CookieEntry :=
  (map_to_list (host_only m)).*2 ++ (map_to_list (domain m)).*2.

Definition scope_is_empty (m : CookieScopeMap) : bool :=
  bool_decide (host_only m = ∅) && bool_decide (domain m = ∅).

(** *** [Store] *)

(** The entry that [insert_stored_cookie] finds through its [get_mut] chain. *)
Definition find_entry (m : gmap Host (gmap str CookieScopeMap)) (d : Host) (p name : str)
    (ho : bool) : option CookieEntry :=
  pm ← m !! d; sc ← pm !! p; scope_get_mut sc name ho.

(** Writing an entry: [entry(..).or_default()] at both levels and
    [CookieScopeMap::insert]. *)
Definition put_entry (m : gmap Host (gmap str CookieScopeMap)) (d : Host) (p name : str)
    (ho : bool) (e : CookieEntry) : gmap Host (gmap str CookieScopeMap) :=
  let pm := default ∅ (m !! d) in
  let sc := default empty_scope (pm !! p) in
  <[d := <[p := scope_insert sc name ho e]> pm]> m.

Definition insert_stored_cookie (st : Store) (d : Host) (p : str) (c : RawCookie) : Store :=
  let ho := bool_decide (c_domain c = None) in
  let next := next_creation_index st in
  match find_entry (cookies st) d p (c_name c) ho with
  | Some e =>
    if decide (c_value (cookie e) = c_value c) then
      {| cookies := put_entry (cookies st) d p (c_name c) ho
           {| cookie := c; creation_index := creation_index e |};
         next_creation_index := next |}
    else
      {| cookies := put_entry (cookies st) d p (c_name c) ho
           {| cookie := c; creation_index := next |};
         next_creation_index := u64_saturating_add next 1 |}
  | None =>
    {| cookies := put_entry (cookies st) d p (c_name c) ho
         {| cookie := c; creation_index := next |};
       next_creation_index := u64_saturating_add next 1 |}
  end.

Definition remove_stored_cookie_inner (st : Store) (d : Host) (p name : str)
    (ho : option bool) : Store :=
  match cookies st !! d with
  | None => st
  | Some pm =>
    let pm' :=
      match pm !! p with
      | None => pm
      | Some sc =>
        let sc' := match ho with
                   | Some ho => scope_remove sc name ho
                   | None => scope_remove_all sc name
                   end in
        if scope_is_empty sc' then delete p pm else <[p := sc']> pm
      end in
    {| cookies := if decide (pm' = ∅) then delete d (cookies st) else <[d := pm']> (cookies st);
       next_creation_index := next_creation_index st |}
  end.

Definition remove_stored_cookie (st : Store) (d : Host) (p name : str) (ho : bool) : Store :=
  remove_stored_cookie_inner st d p name (Some ho).
Definition remove_stored_cookies (st : Store) (d : Host) (p name : str) : Store :=
  remove_stored_cookie_inner st d p name None.

Definition matching_cookies (st : Store) (uri : Uri) (request_host : Host) (now : Z) :
    list (Host * str * CookieEntry) :=
  map_to_list (cookies st) ≫= λ '(d, pm),
  map_to_list pm ≫= λ '(p, sc),
  omap (λ e, if request_matches_cookie uri request_host d p (cookie e) now
             then Some (d, p, e) else None) (scope_values sc).

Definition would_overlay_secure_cookie (st : Store) (name : str) (d : Host) (p : str)
    (now : Z) : bool :=
  existsb (λ '(stored_domain, pm),
    (domain_match stored_domain d || domain_match d stored_domain) &&
    existsb (λ '(stored_path, sc),
      path_match p stored_path &&
      existsb (λ e, bool_decide (c_secure (cookie e) = Some true)
                    && negb (cookie_is_expired (cookie e) now))
        (scope_entries sc name))
      (map_to_list pm))
    (map_to_list (cookies st)).

(** ** Matching, declaratively *)

(** RFC 6265 section 5.1.3: the host is the domain, or ends with a dot and the
    domain. *)
Lemma domain_match_iff (h d : Host) :
  domain_match h d = true ↔
  h = d ∨ ∃ hs ds pre, h = Domain hs ∧ d = Domain ds ∧ hs = pre ++ "."%char :: ds.
Proof.
  unfold domain_match. rewrite orb_true_iff, bool_decide_eq_true. split.
  - intros [?|H]; [by left|]. right. destruct h as [hs| |], d as [ds| |]; try done.
    simpl_bool.
    match goal with H : ends_with _ _ = true |- _ => apply ends_with_true in H as [k ->] end.
    match goal with H : (_ <? _) = true |- _ => apply Nat.ltb_lt in H; rewrite length_app in H end.
    destruct k as [|x k _] using rev_ind; simpl in *; [lia|].
    rewrite !length_app in *. simpl in *.
    match goal with H : _ !! _ = Some _ |- _ =>
      rewrite <- app_assoc, lookup_app_r in H by lia;
      replace (length k + 1 + length ds - length ds - 1 - length k) with 0 in H by lia end.
    simplify_eq/=. exists ((k ++ ["."%char]) ++ ds), ds, k. by rewrite <- app_assoc.
  - intros [->|(hs & ds & pre & -> & -> & ->)]; [by left|]. right.
    rewrite !andb_true_iff. repeat split.
    + apply Nat.ltb_lt. rewrite length_app. simpl. lia.
    + apply bool_decide_eq_true. rewrite length_app. simpl.
      rewrite lookup_app_r by lia.
      by replace (length pre + S (length ds) - length ds - 1 - length pre) with 0 by lia.
    + apply ends_with_true. exists (pre ++ ["."%char]). by rewrite <- app_assoc.
Qed.

(** RFC 6265 section 5.1.4: the paths are the same, or the cookie path is a
    prefix that ends at a slash of the request path. *)
Lemma path_match_iff (r c : str) :
  path_match r c = true ↔
  r = c ∨ ∃ rest, r = c ++ rest ∧
    ((∃ k, c = k ++ ["/"%char]) ∨ (∃ k, rest = "/"%char :: k)).
Proof.
  unfold path_match. rewrite orb_true_iff, andb_true_iff, orb_true_iff, bool_decide_eq_true.
  rewrite (starts_with_true c r), ends_with_true, (starts_with_true DEFAULT_PATH). split.
  - intros [?|[[k ->] [[k' Hk]|[k' Hk]]]]; [by left|right..].
    + exists k. split; [done|]. left. by exists k'.
    + rewrite drop_app_length in Hk. exists k. split; [done|]. right. by exists k'.
  - intros [?|(rest & -> & [[k ->]|[k ->]])]; [by left|right..].
    + split; [by eexists|]. left. by exists k.
    + split; [by eexists|]. right. exists k. by rewrite drop_app_length.
Qed.

(** RFC 6265 section 5.1.4: the default path is the request path up to its
    last slash, or a single slash. *)
Lemma normalize_path_spec (path : str) :
  normalize_path path = DEFAULT_PATH ∨
  ∃ rest, path = normalize_path path ++ "/"%char :: rest ∧ ("/"%char ∉ rest) ∧
          starts_with DEFAULT_PATH (normalize_path path) = true.
Proof.
  unfold normalize_path. destruct (starts_with DEFAULT_PATH path) eqn:Hs; simpl; [|by left].
  destruct (rfind_char "/" path) as [[|pos]|] eqn:Hf; [by left| |by left].
  right. pose proof (rfind_char_Some _ _ _ Hf) as [Hp Hn].
  exists (drop (S (S pos)) path). split_and!; [done..|].
  apply starts_with_true in Hs as [k ->]. apply starts_with_true. by exists (take pos k).
Qed.

Lemma normalize_path_rooted (path : str) : starts_with DEFAULT_PATH (normalize_path path) = true.
Proof. destruct (normalize_path_spec path) as [->|(? & _ & _ & ?)]; done. Qed.
#[export] Hint Resolve normalize_path_rooted : wreq.

Lemma domain_match_refl d : domain_match d d = true.
Proof. apply domain_match_iff. by left. Qed.
Lemma path_match_refl p : path_match p p = true.
Proof. apply path_match_iff. by left. Qed.
#[export] Hint Resolve domain_match_refl path_match_refl : wreq.

(** ** The flat view of the store

    [find_entry] reads the nested maps as one map keyed by domain, path, name
    and host-only flag: the identity of a cookie in RFC 6265bis.  The
    operations of the store are updates of that flat map. *)
Section flat.
Implicit Types (m : gmap Host (gmap str CookieScopeMap)) (d : Host) (p n : str) (ho : bool).

Lemma get_mut_insert sc n ho e n' ho' :
  scope_get_mut (scope_insert sc n ho e) n' ho' =
  if decide (n' = n ∧ ho' = ho) then Some e else scope_get_mut sc n' ho'.
Proof.
  destruct sc, ho, ho'; simpl; rewrite ?lookup_insert; repeat case_decide; naive_solver.
Qed.

Lemma get_mut_remove sc n ho n' ho' :
  scope_get_mut (scope_remove sc n ho) n' ho' =
  if decide (n' = n ∧ ho' = ho) then None else scope_get_mut sc n' ho'.
Proof.
  destruct sc, ho, ho'; simpl; rewrite ?lookup_delete; repeat case_decide; naive_solver.
Qed.

Lemma get_mut_remove_all sc n n' ho' :
  scope_get_mut (scope_remove_all sc n) n' ho' =
  if decide (n' = n) then None else scope_get_mut sc n' ho'.
Proof.
  destruct sc, ho'; simpl; rewrite lookup_delete; repeat case_decide; naive_solver.
Qed.

Lemma get_mut_empty n ho : scope_get_mut empty_scope n ho = None.
Proof. by destruct ho. Qed.

Lemma is_empty_get_mut sc : scope_is_empty sc = true → ∀ n ho, scope_get_mut sc n ho = None.
Proof.
  unfold scope_is_empty. intros H n ho. simpl_bool. destruct sc, ho; simpl in *; by subst.
Qed.

Lemma find_entry_put m d p n ho e d' p' n' ho' :
  find_entry (put_entry m d p n ho e) d' p' n' ho' =
  if decide (d' = d ∧ p' = p ∧ n' = n ∧ ho' = ho) then Some e else find_entry m d' p' n' ho'.
Proof.
  unfold find_entry, put_entry. destruct (decide (d' = d)) as [->|Hd].
  - rewrite lookup_insert_eq. simpl. destruct (decide (p' = p)) as [->|Hp].
    + rewrite lookup_insert_eq. simpl. rewrite get_mut_insert.
      destruct (m !! d) as [pm|]; simpl; [destruct (pm !! p); simpl|];
        rewrite ?lookup_empty; simpl; repeat case_decide; rewrite ?get_mut_empty; naive_solver.
    + rewrite lookup_insert_ne by done.
      rewrite (decide_False (P := _ ∧ _)) by naive_solver. by destruct (m !! d).
  - rewrite lookup_insert_ne, decide_False by naive_solver. done.
Qed.

(** The entries that a removal with flag [ho] selects. *)
Definition selects (ho : option bool) (ho' : bool) : Prop := ho = None ∨ ho = Some ho'.
#[export] Instance selects_dec (ho : option bool) ho' : Decision (selects ho ho').
Proof. unfold selects. apply _. Defined.

Lemma get_mut_remove_sel sc n (ho : option bool) n' ho' :
  scope_get_mut (match ho with Some ho => scope_remove sc n ho
                          | None => scope_remove_all sc n end) n' ho' =
  if decide (n' = n ∧ selects ho ho') then None else scope_get_mut sc n' ho'.
Proof.
  unfold selects. destruct ho as [ho|]; rewrite ?get_mut_remove, ?get_mut_remove_all;
    repeat case_decide; naive_solver.
Qed.

Lemma find_entry_map m d (pm' : gmap str CookieScopeMap) d' p' n' ho' :
  find_entry (if decide (pm' = ∅) then delete d m else <[d := pm']> m) d' p' n' ho' =
  if decide (d' = d) then (sc ← pm' !! p'; scope_get_mut sc n' ho')
  else find_entry m d' p' n' ho'.
Proof.
  unfold find_entry. destruct (decide (d' = d)) as [->|Hd].
  - destruct (decide (pm' = ∅)) as [->|He].
    + by rewrite lookup_delete_eq, lookup_empty.
    + by rewrite lookup_insert_eq.
  - case_decide; [by rewrite lookup_delete_ne | by rewrite lookup_insert_ne].
Qed.

Lemma find_entry_remove st d p n (ho : option bool) d' p' n' ho' :
  find_entry (cookies (remove_stored_cookie_inner st d p n ho)) d' p' n' ho' =
  if decide (d' = d ∧ p' = p ∧ n' = n ∧ selects ho ho') then None
  else find_entry (cookies st) d' p' n' ho'.
Proof.
  unfold remove_stored_cookie_inner. destruct (cookies st !! d) as [pm|] eqn:Hd; simpl.
  2: { case_decide as Hc; [|done]. destruct Hc as (-> & _). unfold find_entry. by rewrite Hd. }
  rewrite find_entry_map. destruct (decide (d' = d)) as [->|Hne].
  2: { by rewrite decide_False by naive_solver. }
  unfold find_entry. rewrite Hd. simpl. destruct (pm !! p) as [sc|] eqn:Hp.
  - destruct (decide (p' = p)) as [->|Hpne].
    + rewrite Hp. simpl.
      rewrite (decide_ext _ (n' = n ∧ selects ho ho')) by naive_solver.
      rewrite <- get_mut_remove_sel.
      destruct (scope_is_empty _) eqn:He.
      * rewrite lookup_delete_eq. simpl. by rewrite is_empty_get_mut.
      * by rewrite lookup_insert_eq.
    + rewrite (decide_False (P := _ ∧ _)) by naive_solver.
      case_match; [by rewrite lookup_delete_ne | by rewrite lookup_insert_ne].
  - case_decide as Hc; [|done]. destruct Hc as (_ & -> & _). by rewrite Hp.
Qed.
End flat.

(** The entry that [insert_stored_cookie] leaves at the key of the cookie:
    a replacement with the same value keeps the creation index, anything else
    takes the next one. *)
Definition inserted_entry (old : option CookieEntry) (next : Z) (c : RawCookie) : CookieEntry :=
  {| cookie := c;
     creation_index := match old with
                       | Some e => if decide (c_value (cookie e) = c_value c)
                                   then creation_index e else next
                       | None => next
                       end |}.

Definition is_host_only (c : RawCookie) : bool := bool_decide (c_domain c = None).

Lemma insert_stored_cookie_eq st d p c :
  let old := find_entry (cookies st) d p (c_name c) (is_host_only c) in
  cookies (insert_stored_cookie st d p c) =
    put_entry (cookies st) d p (c_name c) (is_host_only c)
      (inserted_entry old (next_creation_index st) c) ∧
  next_creation_index (insert_stored_cookie st d p c) =
    match old with
    | Some e => if decide (c_value (cookie e) = c_value c) then next_creation_index st
                else u64_saturating_add (next_creation_index st) 1
    | None => u64_saturating_add (next_creation_index st) 1
    end.
Proof.
  unfold insert_stored_cookie, inserted_entry, is_host_only. simpl.
  repeat case_match; done.
Qed.

Lemma find_entry_insert st d p c d' p' n' ho' :
  find_entry (cookies (insert_stored_cookie st d p c)) d' p' n' ho' =
  if decide (d' = d ∧ p' = p ∧ n' = c_name c ∧ ho' = is_host_only c)
  then Some (inserted_entry (find_entry (cookies st) d p (c_name c) (is_host_only c))
               (next_creation_index st) c)
  else find_entry (cookies st) d' p' n' ho'.
Proof.
  destruct (insert_stored_cookie_eq st d p c) as [-> _]. apply find_entry_put.
Qed.

(** ** Well-formed stores *)

(** What the key of an entry says of the cookie: its name, its effective path,
    whether it has a [Domain], and that it expires by an absolute deadline
    only. *)
Record entry_wf (p n : str) (ho : bool) (e : CookieEntry) : Prop := {
  ew_name : c_name (cookie e) = n;
  ew_scope : is_host_only (cookie e) = ho;
  ew_path : c_path (cookie e) = Some p;
  ew_rooted : starts_with DEFAULT_PATH p = true;
  ew_max_age : c_max_age (cookie e) = None;
}.

Record store_wf (st : Store) : Prop := {
  wf_domain d pm : cookies st !! d = Some pm → pm ≠ ∅;
  wf_scope d pm p sc :
    cookies st !! d = Some pm → pm !! p = Some sc → scope_is_empty sc = false;
  wf_entry d p n ho e : find_entry (cookies st) d p n ho = Some e → entry_wf p n ho e;
  wf_next : (0 <= next_creation_index st <= u64_max)%Z;
  wf_index d p n ho e :
    find_entry (cookies st) d p n ho = Some e →
    (0 <= creation_index e)%Z ∧
    ((creation_index e < next_creation_index st)%Z ∨
     creation_index e = u64_max ∧ next_creation_index st = u64_max);
  wf_unique d p n ho e d' p' n' ho' e' :
    find_entry (cookies st) d p n ho = Some e →
    find_entry (cookies st) d' p' n' ho' = Some e' →
    creation_index e = creation_index e' →
    (d, p, n, ho) = (d', p', n', ho') ∨ creation_index e = u64_max;
}.

Lemma empty_store_wf : store_wf empty_store.
Proof.
  split; simpl.
  - intros d pm. by rewrite lookup_empty.
  - intros d pm p sc. by rewrite lookup_empty.
  - intros d p n ho e. unfold find_entry. by rewrite lookup_empty.
  - by vm_compute.
  - intros d p n ho e. unfold find_entry. by rewrite lookup_empty.
  - intros d p n ho e d' p' n' ho' e'. unfold find_entry. by rewrite lookup_empty.
Qed.

Lemma saturating_add_1 n :
  (0 <= n <= u64_max)%Z → u64_saturating_add n 1 = n ∧ n = u64_max ∨
  u64_saturating_add n 1 = (n + 1)%Z ∧ (n < u64_max)%Z.
Proof. unfold u64_saturating_add. lia. Qed.

Lemma is_empty_insert sc n ho e : scope_is_empty (scope_insert sc n ho e) = false.
Proof.
  unfold scope_is_empty, scope_insert. destruct ho; simpl; apply andb_false_iff.
  - left. apply bool_decide_eq_false, insert_non_empty.
  - right. apply bool_decide_eq_false, insert_non_empty.
Qed.

Section wf_insert.
Context (st : Store) (d : Host) (p : str) (c : RawCookie).
Context (Hwf : store_wf st).

Let old := find_entry (cookies st) d p (c_name c) (is_host_only c).
Let st' := insert_stored_cookie st d p c.

Lemma insert_next :
  (next_creation_index st <= next_creation_index st' <= u64_max)%Z ∧
  (next_creation_index st' = next_creation_index st →
   creation_index (inserted_entry old (next_creation_index st) c) = u64_max ∧
   next_creation_index st = u64_max ∨
   ∃ e, old = Some e ∧
     creation_index (inserted_entry old (next_creation_index st) c) = creation_index e) ∧
  (next_creation_index st' ≠ next_creation_index st →
   creation_index (inserted_entry old (next_creation_index st) c) = next_creation_index st ∧
   next_creation_index st' = (next_creation_index st + 1)%Z).
Proof.
  pose proof (wf_next _ Hwf) as Hn. destruct (saturating_add_1 _ Hn) as [[Hs He]|[Hs He]].
  all: destruct (insert_stored_cookie_eq st d p c) as [_ Hx]; fold st' old in Hx.
  all: unfold inserted_entry; destruct old as [e|]; simpl in *; [case_decide|];
    rewrite Hx, ?Hs in *; split_and!; try lia; intros ?; try lia; eauto.
Qed.

(** A stored entry with the index of the new one is the entry it replaces, or
    the indices have run out. *)
Lemma insert_index_fresh d' p' n' ho' e' :
  find_entry (cookies st) d' p' n' ho' = Some e' →
  creation_index e' = creation_index (inserted_entry old (next_creation_index st) c) →
  (d', p', n', ho') = (d, p, c_name c, is_host_only c) ∨ creation_index e' = u64_max.
Proof.
  destruct insert_next as (Hle & Hsame & Hnew). intros Hf Hi.
  destruct (decide (next_creation_index (insert_stored_cookie st d p c) =
                    next_creation_index st)) as [He|He].
  - destruct (Hsame He) as [[Heq _]|(e & Hold & Heq)]; [right; congruence|].
    rewrite Heq in Hi. by eapply (wf_unique _ Hwf).
  - destruct (Hnew He) as [Heq _]. apply (wf_index _ Hwf) in Hf. lia.
Qed.

Lemma insert_wf :
  c_path c = Some p → starts_with DEFAULT_PATH p = true → c_max_age c = None →
  store_wf st'.
Proof.
  intros Hp Hr Hm. destruct insert_next as (Hle & Hsame & Hnew).
  destruct (insert_stored_cookie_eq st d p c) as [Hc _]. fold st' in Hc.
  split.
  - intros d' pm. rewrite Hc. unfold put_entry. rewrite lookup_insert. case_decide.
    + intros [= <-]. apply insert_non_empty.
    + apply (wf_domain _ Hwf).
  - intros d' pm p' sc. rewrite Hc. unfold put_entry. rewrite lookup_insert. case_decide.
    + intros [= <-]. rewrite lookup_insert. case_decide.
      * intros [= <-]. apply is_empty_insert.
      * destruct (cookies st !! d) as [pm|] eqn:Hd; simpl; [|by rewrite lookup_empty].
        by apply (wf_scope _ Hwf d).
    + apply (wf_scope _ Hwf).
  - intros d' p' n' ho' e. subst st'. rewrite find_entry_insert. case_decide as Hk.
    + destruct Hk as (-> & -> & -> & ->). intros [= <-]. by split.
    + apply (wf_entry _ Hwf).
  - pose proof (wf_next _ Hwf). lia.
  - intros d' p' n' ho' e. subst st'. rewrite find_entry_insert. fold old. case_decide as Hk.
    + intros [= <-]. pose proof (wf_next _ Hwf).
      destruct (decide (next_creation_index (insert_stored_cookie st d p c) =
                        next_creation_index st)) as [He|He].
      * destruct (Hsame He) as [[-> ?]|(e & Hold & ->)]; [unfold u64_max in *; lia|].
        rewrite He. by apply (wf_index _ Hwf) in Hold.
      * destruct (Hnew He) as [-> ?]. lia.
    + intros Hf. apply (wf_index _ Hwf) in Hf. lia.
  - intros d1 p1 n1 ho1 e1 d2 p2 n2 ho2 e2. pose proof insert_index_fresh as Haux.
    subst st'. rewrite !find_entry_insert. fold old.
    do 2 case_decide; intros H1 H2 Hi; simplify_eq.
    + left. naive_solver.
    + symmetry in Hi. destruct (Haux _ _ _ _ _ H2 Hi) as [?|?]; [left|right; congruence].
      naive_solver.
    + destruct (Haux _ _ _ _ _ H1 Hi) as [?|?]; [left|by right]. naive_solver.
    + by eapply (wf_unique _ Hwf).
Qed.
End wf_insert.

Lemma remove_next st d p n ho :
  next_creation_index (remove_stored_cookie_inner st d p n ho) = next_creation_index st.
Proof. unfold remove_stored_cookie_inner. by repeat case_match. Qed.

Lemma remove_wf st d p n (ho : option bool) :
  store_wf st → store_wf (remove_stored_cookie_inner st d p n ho).
Proof.
  intros Hwf.
  assert (∀ d' p' n' ho' e,
    find_entry (cookies (remove_stored_cookie_inner st d p n ho)) d' p' n' ho' = Some e →
    find_entry (cookies st) d' p' n' ho' = Some e) as Hsub.
  { intros d' p' n' ho' e. rewrite find_entry_remove. by case_decide. }
  split; rewrite ?remove_next.
  - intros d' pm. unfold remove_stored_cookie_inner.
    destruct (cookies st !! d) as [pm0|] eqn:Hd; [|apply (wf_domain _ Hwf)]. simpl.
    case_decide as He; [|rewrite lookup_insert; case_decide; [naive_solver|apply (wf_domain _ Hwf)]].
    rewrite lookup_delete. case_decide; [done|apply (wf_domain _ Hwf)].
  - intros d' pm p' sc. unfold remove_stored_cookie_inner.
    destruct (cookies st !! d) as [pm0|] eqn:Hd; [|apply (wf_scope _ Hwf)]. simpl.
    case_decide as He.
    { rewrite lookup_delete. case_decide; [done|apply (wf_scope _ Hwf)]. }
    rewrite lookup_insert. case_decide as Heq; [|apply (wf_scope _ Hwf)].
    intros [= <-]. destruct (pm0 !! p) as [sc0|] eqn:Hp; [|by apply (wf_scope _ Hwf d)].
    destruct (scope_is_empty _) eqn:Hempty.
    + rewrite lookup_delete. case_decide; [done|]. by apply (wf_scope _ Hwf d).
    + rewrite lookup_insert. case_decide; [naive_solver|]. by apply (wf_scope _ Hwf d).
  - intros d' p' n' ho' e Hf. by apply (wf_entry _ Hwf d'), Hsub.
  - apply (wf_next _ Hwf).
  - intros d' p' n' ho' e Hf. by eapply (wf_index _ Hwf), Hsub.
  - intros d1 p1 n1 ho1 e1 d2 p2 n2 ho2 e2 H1%Hsub H2%Hsub. by apply (wf_unique _ Hwf).
Qed.

(** ** Selection *)

Lemma elem_of_values sc e :
  e ∈ scope_values sc ↔ ∃ n ho, scope_get_mut sc n ho = Some e.
Proof.
  unfold scope_values. rewrite elem_of_app, !elem_of_map_values. split.
  - intros [[n H]|[n H]]; [by exists n, true | by exists n, false].
  - intros (n & [] & H); [left|right]; by exists n.
Qed.

Lemma elem_of_option_list {A} (mx : option A) x : x ∈ option_list mx ↔ mx = Some x.
Proof. destruct mx; simpl; set_solver. Qed.

Lemma elem_of_entries sc n e :
  e ∈ scope_entries sc n ↔ ∃ ho, scope_get_mut sc n ho = Some e.
Proof.
  unfold scope_entries. rewrite elem_of_app, !elem_of_option_list. split.
  - intros [H|H]; [by exists true | by exists false].
  - intros ([] & H); [by left | by right].
Qed.

Lemma find_entry_Some m d p n ho e :
  find_entry m d p n ho = Some e ↔
  ∃ pm sc, m !! d = Some pm ∧ pm !! p = Some sc ∧ scope_get_mut sc n ho = Some e.
Proof.
  unfold find_entry. rewrite bind_Some. setoid_rewrite bind_Some. naive_solver.
Qed.

(** The cookies selected for a request are the stored entries that match it. *)
Lemma elem_of_matching st uri rh now d p e :
  (d, p, e) ∈ matching_cookies st uri rh now ↔
  (∃ n ho, find_entry (cookies st) d p n ho = Some e) ∧
  request_matches_cookie uri rh d p (cookie e) now = true.
Proof.
  unfold matching_cookies. rewrite elem_of_map_to_list_bind. split.
  - intros (d' & pm & Hd & Hx). rewrite elem_of_map_to_list_bind in Hx.
    destruct Hx as (p' & sc & Hp & Hx). rewrite list_elem_of_omap in Hx.
    destruct Hx as (e' & He & Hx). case_match; simplify_eq. split; [|done].
    apply elem_of_values in He as (n & ho & He). exists n, ho.
    apply find_entry_Some. eauto.
  - intros [(n & ho & (pm & sc & Hd & Hp & He)%find_entry_Some) Hm]. exists d, pm.
    split; [done|]. rewrite elem_of_map_to_list_bind. exists p, sc. split; [done|].
    rewrite list_elem_of_omap. exists e. rewrite Hm. split; [|done].
    apply elem_of_values. eauto.
Qed.

Lemma existsb_elem_of {A} (f : A → bool) (l : list A) :
  existsb f l = true ↔ ∃ x, x ∈ l ∧ f x = true.
Proof. rewrite existsb_exists. by setoid_rewrite list_elem_of_In. Qed.

(** An insecure cookie would overlay an unexpired [Secure] cookie of the same
    name whose domain is related to its own and whose path its own path
    matches. *)
Lemma would_overlay_iff st n d p now :
  would_overlay_secure_cookie st n d p now = true ↔
  ∃ sd sp ho e, find_entry (cookies st) sd sp n ho = Some e ∧
    (domain_match sd d = true ∨ domain_match d sd = true) ∧ path_match p sp = true ∧
    c_secure (cookie e) = Some true ∧ cookie_is_expired (cookie e) now = false.
Proof.
  unfold would_overlay_secure_cookie. rewrite existsb_elem_of. split.
  - intros ([sd pm] & Hd%elem_of_map_to_list & H). apply andb_true_iff in H as [Hdm H].
    apply existsb_elem_of in H as ([sp sc] & Hp%elem_of_map_to_list & H). simpl_bool.
    rename H into Hpm. match goal with H : existsb _ _ = true |- _ =>
      apply existsb_elem_of in H as (e & He & H) end. simpl_bool.
    apply elem_of_entries in He as [ho He]. exists sd, sp, ho, e.
    rewrite find_entry_Some. split_and!; eauto. by apply orb_true_iff.
  - intros (sd & sp & ho & e & (pm & sc & Hd & Hp & He)%find_entry_Some & Hdm & Hpm & Hs & Hx).
    exists (sd, pm). split; [by apply elem_of_map_to_list|].
    apply andb_true_iff. split; [by apply orb_true_iff|].
    apply existsb_elem_of. exists (sp, sc). split; [by apply elem_of_map_to_list|].
    rewrite Hpm. apply existsb_elem_of. exists e. split; [apply elem_of_entries; eauto|].
    rewrite bool_decide_eq_true_2, Hx by done. done.
Qed.
