(* ===== verification/Jar.v ===== *)
(** * The cookie jar

    [src/cookie.rs] and [src/cookie/jar.rs]: the public cookie type, the
    operations of [Jar] and its [CookieStore] implementation.  The state of a
    jar is its [Store]; every operation takes the lock once, so an operation
    is a function on stores.  The clock is an argument. *)

From S2P Require Import Prelude Http Ext CookieStore.

(** ** Interfaces to the [cookie] and [time] crates *)

(** [OffsetDateTime::saturating_add] clamps at the largest representable
    time. *)
Class TimeLib := {
  dt_max : Z;
  dt_saturating_add : Z → Z → Z;
  dt_saturating_add_pos t d :
    (0 <= d)%Z → dt_saturating_add t d = Z.min dt_max (t + d)%Z;
}.

(** The last nanosecond of the year 9999. *)
#[export] Program Instance RefTime : TimeLib := {|
  dt_max := 253402300799999999999;
  dt_saturating_add t d := Z.min 253402300799999999999 (t + d);
|}.
Next Obligation. done. Qed.

(** [cookie::Cookie::parse]. *)
Class CookieLib := cookie_parse : str → option RawCookie.

(** ** [cookie.rs] *)

Record Cookie := {
  inner : RawCookie;
  ck_host : option Host;
}.

Definition Cookie_parse `{CookieLib} (value : HeaderValue) : option Cookie :=
  s ← from_utf8 (hv_bytes value);
  c ← cookie_parse s;
  Some {| inner := c; ck_host := None |}.

Definition with_host (self : Cookie) (h : Host) : Cookie :=
  {| inner := inner self; ck_host := Some h |}.

Definition http_only (self : Cookie) : bool := default false (c_http_only (inner self)).
Definition secure (self : Cookie) : bool := default false (c_secure (inner self)).
Definition same_site_lax (self : Cookie) : bool :=
  bool_decide (c_same_site (inner self) = Some Lax).
Definition same_site_strict (self : Cookie) : bool :=
  bool_decide (c_same_site (inner self) = Some Strict).
(** Conversion to the standard library's duration fails on negative values. *)
Definition max_age (self : Cookie) : option Z :=
  c_max_age (inner self) ≫= λ d, if (0 <=? d)%Z then Some d else None.
Definition expires (self : Cookie) : option Z :=
  match c_expires (inner self) with
  | Some (DateTime t) => Some t
  | None | Some Session => None
  end.

Definition Cookie_from (c : RawCookie) : Cookie := {| inner := c; ck_host := None |}.

Inductive Cookies :=
| Compressed (v : HeaderValue)
| Uncompressed (vs : list HeaderValue)
| Empty.

Class IntoCookie (C : Type) := into_cookie : C → option Cookie.
#[export] Instance Cookie_IntoCookie : IntoCookie Cookie := λ self, Some self.
#[export] Instance RawCookie_IntoCookie : IntoCookie RawCookie := λ self, Some (Cookie_from self).
#[export] Instance str_IntoCookie `{CookieLib} : IntoCookie str := λ self,
  Cookie_from <$> cookie_parse self.

(** ** [jar.rs] *)

(** [Iterator::min_by_key]: the first of the least elements. *)
Definition min_by_key {A} (f : A → Z) (l : list A) : option A :=
  foldl (λ acc x, match acc with
                  | None => Some x
                  | Some y => if (f x <? f y)%Z then Some x else Some y
                  end) None l.

(** The order of the [Cookie] header: longer paths first, then older
    cookies. *)
Definition by_index (x y : Z * Cookie) : Prop := (x.1 <= y.1)%Z.
Definition cookie_order (x y : Host * str * CookieEntry) : Prop :=
  length y.1.2 < length x.1.2 ∨
  length x.1.2 = length y.1.2 ∧ (creation_index x.2 <= creation_index y.2)%Z.
#[export] Instance by_index_dec x y : Decision (by_index x y).
Proof. unfold by_index, cookie_order; apply _. Defined.
#[export] Instance cookie_order_dec x y : Decision (cookie_order x y).
Proof. unfold by_index, cookie_order; apply _. Defined.

(** [name=value]. *)
Definition pair_str (c : RawCookie) : str := c_name c ++ "="%char :: c_value c.

(** The accumulator of the HTTP/1 branch of [cookies]. *)
Definition push_cookie (acc : str) (c : RawCookie) : str :=
  (match acc with [] => [] | _ => acc ++ #"; " end) ++ pair_str c.

Section jar.
Context `{HL : HostLib, UL : UriLib, HV : HeaderValueLib, TL : TimeLib, CL : CookieLib}.

Definition get `{IntoUri U} (st : Store) (name : str) (uri : U) (now : Z) : option Cookie :=
  uri ← result_ok (into_uri uri);
  h ← uri_host uri; host ← canonical_host h;
  pm ← cookies st !! host;
  sc ← pm !! uri_path uri;
  entry ← min_by_key creation_index
            (filter (λ e, cookie_is_expired (cookie e) now = false) (scope_entries sc name));
  Some (with_host (Cookie_from (cookie entry)) host).

Definition contains `{IntoUri U} (st : Store) (name : str) (uri : U) (now : Z) : bool :=
  match into_uri uri with
  | Err _ => false
  | Ok uri =>
    match uri_host uri ≫= canonical_host with
    | None => false
    | Some host =>
      match cookies st !! host ≫= λ pm, pm !! uri_path uri with
      | Some sc => existsb (λ e, negb (cookie_is_expired (cookie e) now)) (scope_entries sc name)
      | None => false
      end
    end
  end.

(** Every stored entry with its domain, in the order of the hash maps. *)
Definition all_entries (st : Store) : list (Host * CookieEntry) :=
  map_to_list (cookies st) ≫= λ '(host, pm),
  map_to_list pm ≫= λ '(_, sc), (host,.) <$> scope_values sc.

Definition get_all (st : Store) (now : Z) : list Cookie :=
  snd <$> merge_sort by_index
    (omap (λ '(host, entry),
       if cookie_is_expired (cookie entry) now then None
       else Some (creation_index entry, with_host (Cookie_from (cookie entry)) host))
       (all_entries st)).

Definition len (st : Store) (now : Z) : nat :=
  length (filter (λ x, cookie_is_expired (cookie x.2) now = false) (all_entries st)).

Definition is_empty (st : Store) (now : Z) : bool :=
  negb (existsb (λ x, negb (cookie_is_expired (cookie x.2) now)) (all_entries st)).

Definition matches `{IntoUri U} (st : Store) (uri : U) (now : Z) : list Cookie :=
  match into_uri uri with
  | Err _ => []
  | Ok uri =>
    match uri_host uri ≫= canonical_host with
    | None => []
    | Some host =>
      (λ '(d, _, e), with_host (Cookie_from (cookie e)) d) <$> matching_cookies st uri host now
    end
  end.

(** The domain step of [add]: the storage domain and the cookie with its
    attribute rewritten. *)
Definition add_domain (c : RawCookie) (host : Host) : option (Host * RawCookie) :=
  match c_domain c with
  | Some raw_domain =>
    d ← canonical_host raw_domain;
    if negb (domain_match host d) then None else Some (d, set_domain (host_to_string d) c)
  | None => Some (host, c)
  end.

(** The expiration step of [add]. *)
Definition add_expiry (c : RawCookie) (now : Z) : bool * RawCookie :=
  match c_max_age c with
  | Some m =>
    if (m <=? 0)%Z then (true, c) else (false, set_deadline (dt_saturating_add now m) c)
  | None =>
    (match expires_datetime c with Some t => (t <=? now)%Z | None => false end, c)
  end.

(** The path step of [add]. *)
Definition add_path (c : RawCookie) (uri : Uri) : str :=
  match c_path c with
  | Some p => if starts_with DEFAULT_PATH p then p else normalize_path (uri_path uri)
  | None => normalize_path (uri_path uri)
  end.

Definition add `{IntoCookie C, IntoUri U} (st : Store) (cookie : C) (uri : U) (now : Z) :
    Store :=
  match into_cookie cookie with
  | None => st
  | Some cookie =>
    match into_uri uri with
    | Err _ => st
    | Ok uri =>
      let cookie := inner cookie in
      let secure_origin := is_https uri in
      if bool_decide (c_secure cookie = Some true) && negb secure_origin then st else
      match uri_host uri ≫= canonical_host with
      | None => st
      | Some host =>
        let host_only := bool_decide (c_domain cookie = None) in
        match add_domain cookie host with
        | None => st
        | Some (d, cookie) =>
          let '(expired, cookie) := add_expiry cookie now in
          let path := add_path cookie uri in
          if negb secure_origin
             && would_overlay_secure_cookie st (c_name cookie) d path now
          then st
          else if expired then remove_stored_cookie st d path (c_name cookie) host_only
          else insert_stored_cookie st d path (set_path path cookie)
        end
      end
    end
  end.

Definition remove `{IntoUri U} (st : Store) (cookie : RawCookie) (uri : U) : Store :=
  match into_uri uri with
  | Err _ => st
  | Ok uri =>
    match uri_host uri with
    | None => st
    | Some host =>
      match canonical_host host with
      | None => st
      | Some host => remove_stored_cookies st host (uri_path uri) (c_name cookie)
      end
    end
  end.

Definition clear (st : Store) : Store := empty_store.

(** The fields with the times at which their cookies are stored. *)
Definition set_cookies (st : Store) (cookie_headers : list (HeaderValue * Z)) (uri : Uri) :
    Store :=
  foldl (λ st '(c, now), add st c uri now) st
    (omap (λ '(v, now), (λ c, (inner c, now)) <$> Cookie_parse v) cookie_headers).

(** The cookies of a request in the order they are sent. *)
Definition ordered_cookies (st : Store) (uri : Uri) (host : Host) (now : Z) : list RawCookie :=
  (λ '(_, _, e), cookie e) <$> merge_sort cookie_order (matching_cookies st uri host now).

Definition cookies_for (st : Store) (uri : Uri) (version : Version) (now : Z) : Cookies :=
  match uri_host uri with
  | None => Empty
  | Some host =>
    match canonical_host host with
    | None => Empty
    | Some host =>
      let iter := ordered_cookies st uri host now in
      match version with
      | HTTP_2 | HTTP_3 => Uncompressed (omap (λ c, from_maybe_shared (pair_str c)) iter)
      | _ =>
        match foldl push_cookie [] iter with
        | [] => Empty
        | cs => match from_maybe_shared cs with Some v => Compressed v | None => Empty end
        end
      end
    end
  end.
End jar.

(** ** Reachable jars *)
Section steps.
Context `{HL : HostLib, UL : UriLib, HV : HeaderValueLib, TL : TimeLib, CL : CookieLib}.

(** One operation that takes the write lock. *)
Inductive jar_step (st : Store) : Store → Prop :=
| step_add {C} `{IntoCookie C} {U} `{IntoUri U} (c : C) (u : U) now :
    jar_step st (add st c u now)
| step_remove {U} `{IntoUri U} c (u : U) : jar_step st (remove st c u)
| step_clear : jar_step st (clear st)
| step_set_cookies hs uri : jar_step st (set_cookies st hs uri).

(** What [add] does, in one of three ways. *)
Lemma add_cases `{IntoCookie C, IntoUri U} st (c : C) (u : U) now :
  add st c u now = st ∨
  ∃ ck uri h d c1 c2 expired,
    into_cookie c = Some ck ∧ into_uri u = Ok uri ∧
    (c_secure (inner ck) = Some true → is_https uri = true) ∧
    uri_host uri ≫= canonical_host = Some h ∧
    add_domain (inner ck) h = Some (d, c1) ∧ add_expiry c1 now = (expired, c2) ∧
    (is_https uri = true ∨
     would_overlay_secure_cookie st (c_name c2) d (add_path c2 uri) now = false) ∧
    add st c u now =
      if expired
      then remove_stored_cookie st d (add_path c2 uri) (c_name c2)
             (bool_decide (c_domain (inner ck) = None))
      else insert_stored_cookie st d (add_path c2 uri) (set_path (add_path c2 uri) c2).
Proof.
  unfold add. destruct (into_cookie c) as [ck|] eqn:?; [|by left].
  destruct (into_uri u) as [uri|] eqn:?; [|by left].
  destruct (_ && _) eqn:Hs; [by left|].
  destruct (_ ≫= canonical_host) as [h|] eqn:?; [|by left].
  destruct (add_domain _ _) as [[d c1]|] eqn:?; [|by left].
  destruct (add_expiry c1 now) as [expired c2] eqn:?.
  destruct (negb _ && _) eqn:Ho; [by left|]. right.
  exists ck, uri, h, d, c1, c2, expired. split_and!; try done.
  - intros Hsec. rewrite bool_decide_eq_true_2 in Hs by done. by destruct (is_https uri).
  - destruct (is_https uri); auto.
Qed.

Lemma add_path_rooted c uri : starts_with DEFAULT_PATH (add_path c uri) = true.
Proof.
  unfold add_path. destruct (c_path c) as [p|]; [|apply normalize_path_rooted].
  destruct (starts_with DEFAULT_PATH p) eqn:?; [done|apply normalize_path_rooted].
Qed.

Lemma add_expiry_max_age c now c' :
  add_expiry c now = (false, c') → c_max_age c' = None.
Proof. unfold add_expiry. repeat case_match; naive_solver. Qed.

Lemma add_wf `{IntoCookie C, IntoUri U} st (c : C) (u : U) now :
  store_wf st → store_wf (add st c u now).
Proof.
  intros Hwf. destruct (add_cases st c u now) as
    [->|(ck & uri & h & d & c1 & c2 & expired & _ & _ & _ & _ & _ & He & _ & ->)]; [done|].
  destruct expired; [by apply remove_wf|].
  apply insert_wf; [done|done|apply add_path_rooted|]. by apply (add_expiry_max_age c1 now c2).
Qed.

Lemma set_cookies_wf st hs uri : store_wf st → store_wf (set_cookies st hs uri).
Proof.
  unfold set_cookies. generalize (omap (λ '(v, now), (λ c, (inner c, now)) <$> Cookie_parse v) hs).
  intros l. revert st. induction l as [|[c now] l IH]; intros st Hwf; [done|].
  simpl. by apply IH, add_wf.
Qed.

Lemma remove_jar_wf `{IntoUri U} st c (u : U) : store_wf st → store_wf (remove st c u).
Proof. intros Hwf. unfold remove. repeat case_match; try done. by apply remove_wf. Qed.

Lemma reachable_wf st : rtc jar_step empty_store st → store_wf st.
Proof.
  intros Hr. revert Hr. apply (rtc_ind_r store_wf).
  - apply empty_store_wf.
  - intros st1 st2 _ Hs Hwf. destruct Hs.
    + by apply add_wf.
    + by apply remove_jar_wf.
    + apply empty_store_wf.
    + by apply set_cookies_wf.
Qed.
End steps.

(** ** The order of the [Cookie] header *)

#[export] Instance cookie_order_trans : Transitive cookie_order.
Proof. intros x y z. unfold cookie_order. lia. Qed.
#[export] Instance cookie_order_total : Total cookie_order.
Proof. intros x y. unfold cookie_order. lia. Qed.
#[export] Instance by_index_trans : Transitive by_index.
Proof. intros x y z. unfold by_index. lia. Qed.
#[export] Instance by_index_total : Total by_index.
Proof. intros x y. unfold by_index. lia. Qed.

Lemma matching_order_unique st uri h now x y :
  store_wf st → (next_creation_index st < u64_max)%Z →
  x ∈ matching_cookies st uri h now → y ∈ matching_cookies st uri h now →
  cookie_order x y → cookie_order y x → x = y.
Proof.
  destruct x as [[d p] e], y as [[d' p'] e']. intros Hwf Hlt.
  rewrite !elem_of_matching. intros [(n & ho & Hf) _] [(n' & ho' & Hf') _].
  unfold cookie_order; simpl. intros H1 H2.
  assert (creation_index e = creation_index e') as Hi by lia.
  destruct (wf_unique _ Hwf _ _ _ _ _ _ _ _ _ _ Hf Hf' Hi) as [[= -> -> -> ->]|Hm].
  - by rewrite Hf in Hf'; simplify_eq.
  - destruct (wf_index _ Hwf _ _ _ _ _ Hf) as [_ [|[]]]; lia.
Qed.

Lemma foldl_push_cookie acc l :
  acc ≠ [] → foldl push_cookie acc l = join #"; " (acc :: (pair_str <$> l)).
Proof.
  revert acc. induction l as [|c l IH]; intros acc Hacc; [done|]. simpl.
  rewrite IH; [|destruct acc; naive_solver]. unfold push_cookie. destruct acc as [|a acc]; [done|].
  simpl. destruct l as [|c' l]; simpl; by rewrite <- ?app_assoc.
Qed.

(** The HTTP/1 loop joins the pairs. *)
Lemma foldl_push_join l : foldl push_cookie [] l = join #"; " (pair_str <$> l).
Proof.
  destruct l as [|c l]; [done|]. simpl. rewrite foldl_push_cookie; [done|].
  unfold push_cookie, pair_str. by destruct (c_name c).
Qed.

(** ** RFC 6265, declaratively *)

(** Section 5.1.3. *)
Definition rfc_domain_match (h d : Host) : Prop :=
  h = d ∨ ∃ hs ds pre, h = Domain hs ∧ d = Domain ds ∧ hs = pre ++ "."%char :: ds.

(** Section 5.1.4. *)
Definition rfc_path_match (r c : str) : Prop :=
  r = c ∨ ∃ rest, r = c ++ rest ∧
    ((∃ k, c = k ++ ["/"%char]) ∨ (∃ k, rest = "/"%char :: k)).

(** Section 5.4: the cookies of the request header.  [ho] is the host-only
    flag; a cookie whose deadline is not in the future has expired. *)
Record rfc_selected (uri : Uri) (h d : Host) (p : str) (ho : bool) (c : RawCookie) (now : Z) :
    Prop := {
  sel_scheme : is_http uri = true ∨ is_https uri = true;
  sel_domain : rfc_domain_match h d;
  sel_host_only : ho = true → h = d;
  sel_path : rfc_path_match (uri_path uri) p;
  sel_secure : c_secure c = Some true → is_https uri = true;
  sel_expiry : ∀ t, c_expires c = Some (DateTime t) → (now < t)%Z;
}.

Lemma not_expired_iff c now :
  c_max_age c = None →
  cookie_is_expired c now = false ↔ ∀ t, c_expires c = Some (DateTime t) → (now < t)%Z.
Proof.
  intros Hm. unfold cookie_is_expired, expires_datetime. rewrite Hm. simpl.
  destruct (c_expires c) as [[t|]|]; [|naive_solver..].
  rewrite Z.leb_gt. naive_solver.
Qed.

Lemma request_matches_iff uri h d p n ho e now :
  entry_wf p n ho e →
  request_matches_cookie uri h d p (cookie e) now = true ↔
  rfc_selected uri h d p ho (cookie e) now.
Proof.
  intros [_ Hscope _ _ Hma]. unfold request_matches_cookie, is_host_only in *.
  rewrite <- Hscope. clear Hscope.
  split.
  - intros H. destruct (_ || _) eqn:Hc in H; [done|]. apply negb_true_iff in H.
    rewrite !orb_false_iff in Hc. destruct Hc as [[[[Hsch Hd] Hho] Hp] Hs].
    apply negb_false_iff in Hsch, Hd, Hp. apply orb_true_iff in Hsch. split.
    + done.
    + by apply domain_match_iff.
    + intros Hn. rewrite Hn in Hho. by simpl in Hho; simpl_bool.
    + by apply path_match_iff.
    + intros Hsec. rewrite bool_decide_eq_true_2 in Hs by done. simpl in Hs.
      destruct Hsch; congruence.
    + by apply not_expired_iff.
  - intros [Hsch Hd Hho Hp Hs Hx]. apply domain_match_iff in Hd. apply path_match_iff in Hp.
    apply not_expired_iff in Hx; [|done]. apply orb_true_iff in Hsch.
    rewrite Hd, Hp, Hx, Hsch. simpl.
    assert (bool_decide (c_domain (cookie e) = None) && negb (bool_decide (h = d)) = false) as ->.
    { destruct (bool_decide (c_domain (cookie e) = None)); [|done]. simpl.
      by rewrite (bool_decide_eq_true_2 _ (Hho eq_refl)). }
    simpl. destruct (bool_decide_reflect (c_secure (cookie e) = Some true)) as [Hs'|]; [|done].
    apply Hs in Hs'. destruct (is_http uri) eqn:Hh; [|done].
    apply is_http_not_https in Hh. congruence.
Qed.

Lemma omap_pairs `{HV : HeaderValueLib} l :
  Forall (λ c, Forall (λ b, field_byte b = true) (pair_str c)) l →
  omap (λ c, from_maybe_shared (pair_str c)) l =
  (λ c, {| hv_bytes := pair_str c; hv_sensitive := false |}) <$> l.
Proof.
  induction 1 as [|c l Hc _ IH]; [done|]. csimpl. rewrite from_maybe_shared_ok by done.
  by rewrite IH.
Qed.

Lemma join_field_bytes sep l :
  Forall (λ b, field_byte b = true) sep → Forall (Forall (λ b, field_byte b = true)) l →
  Forall (λ b, field_byte b = true) (join sep l).
Proof.
  intros Hsep. induction 1 as [|s l Hs Hl IH]; [done|]. simpl. destruct l; [done|].
  rewrite !Forall_app. done.
Qed.

Section header.
Context `{HL : HostLib, UL : UriLib, HV : HeaderValueLib, TL : TimeLib, CL : CookieLib}.


(** Longer paths come first and older cookies come first among equally
    long paths, and nothing else matters: every order in which the hash maps
    may be walked, sorted by any sorting routine, gives the same header. *)
Theorem cookies_order_deterministic st uri hs h now l :
  rtc jar_step empty_store st → (next_creation_index st < u64_max)%Z →
  uri_host uri = Some hs → canonical_host hs = Some h →
  l ≡ₚ matching_cookies st uri h now → Sorted cookie_order l →
  cookies_for st uri HTTP_2 now =
    Uncompressed (omap (λ '(_, _, e), from_maybe_shared (pair_str (cookie e))) l).
Proof.
  intros Hwf%reachable_wf Hlt Hh Hc Hp Hs. unfold cookies_for, ordered_cookies. rewrite Hh, Hc. f_equal.
  assert (merge_sort cookie_order (matching_cookies st uri h now) = l) as ->.
  { apply (sorted_permutation_unique cookie_order (matching_cookies st uri h now)).
    - intros x y. by apply matching_order_unique.
    - apply Sorted_merge_sort, _.
    - done.
    - apply merge_sort_Permutation.
    - done. }
  clear. induction l as [|[[d p] e] l IH]; [done|]. csimpl. by rewrite IH.
Qed.

(** When the names and values are valid field bytes, an HTTP/2 request
    carries every selected cookie in a field of its own, and an HTTP/1
    request carries the same pairs in the same order in one field, separated
    by a semicolon and a space; it has no field when nothing is selected. *)
Theorem cookies_by_version st uri hs h now :
  uri_host uri = Some hs → canonical_host hs = Some h →
  let l := ordered_cookies st uri h now in
  Forall (λ c, Forall (λ b, field_byte b = true) (pair_str c)) l →
  cookies_for st uri HTTP_2 now =
    Uncompressed ((λ c, {| hv_bytes := pair_str c; hv_sensitive := false |}) <$> l) ∧
  cookies_for st uri HTTP_11 now =
    if decide (l = []) then Empty
    else Compressed {| hv_bytes := join #"; " (pair_str <$> l); hv_sensitive := false |}.
Proof.
  intros Hh Hc l Hok. unfold cookies_for. rewrite Hh, Hc. fold l.
  rewrite foldl_push_join, omap_pairs by done. split; [done|].
  assert (from_maybe_shared (join #"; " (pair_str <$> l)) =
          Some {| hv_bytes := join #"; " (pair_str <$> l); hv_sensitive := false |}) as Hv.
  { apply from_maybe_shared_ok, join_field_bytes; [by repeat constructor|].
    by apply Forall_fmap. }
  destruct l as [|c l']; [done|]. case_decide; [done|].
  destruct (join _ _) as [|b v] eqn:Hj; [|by rewrite Hv].
  apply (f_equal length) in Hj. simpl in Hj. exfalso. revert Hj.
  unfold pair_str. destruct (c_name c), l'; simpl; rewrite ?length_app; simpl; lia.
Qed.
End header.

(** ** Storing cookies *)
Section adding.
Context `{HL : HostLib, UL : UriLib, HV : HeaderValueLib, TL : TimeLib, CL : CookieLib}.

(** The domain a cookie received from [h] is stored under: the host itself,
    or the [Domain] attribute when the host domain-matches it. *)
Definition storage_domain (c : RawCookie) (h d : Host) : Prop :=
  match c_domain c with
  | None => d = h
  | Some raw => canonical_host raw = Some d ∧ rfc_domain_match h d
  end.

(** The cookie's deadline on arrival: [Max-Age] wins over [Expires]. *)
Definition deadline (c : RawCookie) (now : Z) : option Z :=
  match c_max_age c with
  | Some m => Some (if decide (m <= 0)%Z then now else Z.min dt_max (now + m))
  | None => expires_datetime c
  end.
Definition arrives_expired (c : RawCookie) (now : Z) : bool :=
  match c_max_age c with
  | Some m => bool_decide (m <= 0)%Z
  | None => match expires_datetime c with Some t => bool_decide (t <= now)%Z | None => false end
  end.

(** The cookie as it is stored. *)
Definition stored_form (c : RawCookie) (d : Host) (p : str) (now : Z) : RawCookie :=
  {| c_name := c_name c; c_value := c_value c;
     c_expires := if c_max_age c is Some _ then DateTime <$> deadline c now else c_expires c;
     c_max_age := None;
     c_domain_attr := if c_domain_attr c is Some _ then Some (host_to_string d) else None;
     c_path := Some p; c_secure := c_secure c; c_http_only := c_http_only c;
     c_same_site := c_same_site c |}.

(** The conditions under which [add] does not ignore a cookie. *)
Record accepted (st : Store) (c : RawCookie) (uri : Uri) (h d : Host) (now : Z) : Prop := {
  acc_host : uri_host uri ≫= canonical_host = Some h;
  acc_secure : c_secure c = Some true → is_https uri = true;
  acc_domain : storage_domain c h d;
  acc_overlay : is_https uri = true ∨
    would_overlay_secure_cookie st (c_name c) d (add_path c uri) now = false;
}.

Lemma add_domain_storage c h d c1 :
  add_domain c h = Some (d, c1) ↔
  storage_domain c h d ∧ c1 = match c_domain_attr c with
                              | Some _ => set_domain (host_to_string d) c
                              | None => c
                              end.
Proof.
  unfold add_domain, storage_domain, c_domain.
  destruct (c_domain_attr c) as [raw|]; simpl; [|naive_solver].
  destruct (canonical_host _) as [d'|]; simpl; [|naive_solver].
  destruct (domain_match h d') eqn:Hd; simpl.
  - apply domain_match_iff in Hd. naive_solver.
  - split; [done|]. intros [[[= ->] Hm%domain_match_iff] _]. congruence.
Qed.

Lemma add_expiry_stored c h d c1 p now :
  add_domain c h = Some (d, c1) →
  (add_expiry c1 now).1 = arrives_expired c now ∧
  c_name (add_expiry c1 now).2 = c_name c ∧ c_path (add_expiry c1 now).2 = c_path c ∧
  (arrives_expired c now = false →
   set_path p (add_expiry c1 now).2 = stored_form c d p now).
Proof.
  intros [_ ->]%add_domain_storage.
  destruct c as [n v ex ma dom pa se hto sa].
  unfold add_expiry, arrives_expired, stored_form, deadline, expires_datetime.
  destruct dom, ma as [m|]; simpl.
  1,3: destruct (Z.leb_spec m 0); simpl;
    [rewrite bool_decide_eq_true_2 by done; naive_solver|].
  1,2: rewrite bool_decide_eq_false_2, decide_False, dt_saturating_add_pos by lia; done.
  all: destruct ex as [[t|]|]; simpl; [|naive_solver..].
  all: destruct (Z.leb_spec t now); simpl;
    [rewrite bool_decide_eq_true_2 by done|rewrite bool_decide_eq_false_2 by lia]; naive_solver.
Qed.

Lemma add_accepted `{IntoCookie C, IntoUri U} st (c : C) ck (u : U) uri h d now :
  into_cookie c = Some ck → into_uri u = Ok uri → accepted st (inner ck) uri h d now →
  let p := add_path (inner ck) uri in
  add st c u now =
    if arrives_expired (inner ck) now
    then remove_stored_cookie st d p (c_name (inner ck)) (is_host_only (inner ck))
    else insert_stored_cookie st d p (stored_form (inner ck) d p now).
Proof.
  intros Hc Hu [Hh Hs Hd Ho] p. fold p in Ho. unfold add. rewrite Hc, Hu.
  destruct (bool_decide_reflect (c_secure (inner ck) = Some true)) as [Hs'|_];
    [rewrite (Hs Hs')|]; simpl; rewrite Hh.
  all: destruct (add_domain (inner ck) h) as [[d1 c1]|] eqn:Hadd;
    [|by rewrite (proj2 (add_domain_storage _ h d _) (conj Hd eq_refl)) in Hadd].
  all: pose proof (proj2 (add_domain_storage _ h d _) (conj Hd eq_refl)) as Hadd';
    rewrite Hadd in Hadd'; injection Hadd' as -> _.
  all: destruct (add_expiry_stored _ _ _ _ p now Hadd) as (Hx & Hn & Hpa & Hst).
  all: destruct (add_expiry c1 now) as [ex c2]; simpl in *; subst ex.
  all: assert (add_path c2 uri = p) as -> by (unfold p, add_path; by rewrite Hpa).
  all: rewrite Hn.
  - by destruct (arrives_expired _ _); [|rewrite Hst].
  - destruct (negb _ && _) eqn:Hv;
      [simpl_bool; destruct Ho; congruence|].
    by destruct (arrives_expired _ _); [|rewrite Hst].
Qed.

Lemma stored_form_host_only c d p now : is_host_only (stored_form c d p now) = is_host_only c.
Proof.
  unfold is_host_only, c_domain. simpl. apply bool_decide_ext.
  by destruct (c_domain_attr c).
Qed.

(** An accepted cookie replaces the one with its domain, path, name and
    host-only flag, and no other.  It is stored with its effective path, its
    canonical domain and an absolute deadline; it keeps the creation index of
    a cookie with the same value and takes the next one otherwise.  A cookie
    that arrives expired removes the cookie it would replace. *)
Theorem add_spec `{IntoCookie C, IntoUri U} st (c : C) ck (u : U) uri h d now d' p' n' ho' :
  into_cookie c = Some ck → into_uri u = Ok uri → accepted st (inner ck) uri h d now →
  let p := add_path (inner ck) uri in
  let n := c_name (inner ck) in
  let ho := is_host_only (inner ck) in
  find_entry (cookies (add st c u now)) d' p' n' ho' =
    if decide (d' = d ∧ p' = p ∧ n' = n ∧ ho' = ho) then
      if arrives_expired (inner ck) now then None
      else Some (inserted_entry (find_entry (cookies st) d p n ho) (next_creation_index st)
                   (stored_form (inner ck) d p now))
    else find_entry (cookies st) d' p' n' ho'.
Proof.
  intros Hc Hu Hacc p n ho. rewrite (add_accepted _ _ _ _ _ _ _ _ Hc Hu Hacc). fold p n ho.
  destruct (arrives_expired _ _).
  - unfold remove_stored_cookie. rewrite find_entry_remove.
    clearbody p n ho. unfold selects. repeat case_decide; naive_solver.
  - rewrite find_entry_insert, stored_form_host_only. by apply decide_ext.
Qed.

(** A cookie is ignored, and the jar left as it is, when it or its URI
    does not parse, when a [Secure] cookie comes from an insecure origin,
    when the URI has no canonical host, or when its [Domain] is invalid or
    not matched by that host. *)
Theorem add_rejects `{IntoCookie C, IntoUri U} st (c : C) (u : U) now :
  (∀ ck uri h d, into_cookie c = Some ck → into_uri u = Ok uri →
     (c_secure (inner ck) = Some true → is_https uri = true) →
     uri_host uri ≫= canonical_host = Some h → ¬ storage_domain (inner ck) h d) →
  add st c u now = st.
Proof.
  intros Hno. destruct (add_cases st c u now) as
    [->|(ck & uri & h & d & c1 & c2 & expired & Hc & Hu & Hs & Hh & Hd & _)]; [done|].
  apply add_domain_storage in Hd as [Hd _]. by destruct (Hno ck uri h d).
Qed.

(** C29: An insecure origin cannot touch [Secure] cookies: it stores none, it
    changes and removes no unexpired one, and no cookie it writes has the
    name of an unexpired [Secure] cookie with a related domain and a path
    the written cookie's path matches. *)
Theorem add_insecure_origin `{IntoCookie C, IntoUri U} st (c : C) (u : U) uri now d p n ho :
  into_uri u = Ok uri → is_https uri = false →
  find_entry (cookies (add st c u now)) d p n ho ≠ find_entry (cookies st) d p n ho →
  (∀ e, find_entry (cookies (add st c u now)) d p n ho = Some e →
        c_secure (cookie e) ≠ Some true) ∧
  (∀ sd sp ho' e, find_entry (cookies st) sd sp n ho' = Some e →
     c_secure (cookie e) = Some true → cookie_is_expired (cookie e) now = false →
     rfc_path_match p sp → ¬ (rfc_domain_match sd d ∨ rfc_domain_match d sd)).
Proof.
  intros Hu Hi Hne. destruct (add_cases st c u now) as
    [Heq|(ck & uri' & h & d0 & c1 & c2 & expired & Hc & Hu' & Hs & Hh & Hd & Hx & Ho & Heq)];
    [by rewrite Heq in Hne|].
  rewrite Hu in Hu'. injection Hu' as <-. destruct Ho as [|Ho]; [congruence|].
  rewrite Heq in *. clear Heq.
  assert (d = d0 ∧ p = add_path c2 uri ∧ n = c_name c2) as (-> & -> & ->).
  { destruct expired.
    - unfold remove_stored_cookie in Hne. rewrite find_entry_remove in Hne.
      case_decide; naive_solver.
    - rewrite find_entry_insert in Hne. case_decide; naive_solver. }
  split.
  - intros e. destruct expired.
    + unfold remove_stored_cookie in *. rewrite find_entry_remove in *. by case_decide.
    + rewrite find_entry_insert in *. case_decide; [|done]. intros [= <-]. simpl.
      pose proof (add_expiry_stored _ _ _ _ (add_path c2 uri) now Hd) as (Hx1 & _ & _ & Hst).
      rewrite Hx in *. simpl in *. apply (f_equal c_secure) in Hst; [|done]. simpl in Hst.
      rewrite Hst. intros Hsec. by rewrite (Hs Hsec) in Hi.
  - intros sd sp ho' e Hf Hsec Hexp Hpm Hdm.
    assert (would_overlay_secure_cookie st (c_name c2) d0 (add_path c2 uri) now = true);
      [|congruence].
    apply would_overlay_iff. exists sd, sp, ho', e. rewrite !domain_match_iff, path_match_iff.
    done.
Qed.

Lemma stored_form_wf c uri d now old next :
  entry_wf (add_path c uri) (c_name c) (is_host_only c)
    (inserted_entry old next (stored_form c d (add_path c uri) now)).
Proof.
  split; simpl; try done; [apply stored_form_host_only|apply add_path_rooted].
Qed.

Lemma default_path_matches path :
  starts_with DEFAULT_PATH path = true → rfc_path_match path (normalize_path path).
Proof.
  intros [k ->]%starts_with_true.
  destruct (normalize_path_spec (DEFAULT_PATH ++ k)) as [->|(rest & Hr & _)].
  - right. exists k. split; [done|]. left. by exists [].
  - right. eexists. split; [exact Hr|]. right. eauto.
Qed.

(** A cookie without a [Path] comes back: after a response from an HTTP
    or HTTPS URI stored it, a request to the same URI before its deadline
    carries it. *)
Theorem stored_cookie_is_sent `{IntoCookie C, IntoUri U} st (c : C) ck (u : U) uri h d now now' :
  into_cookie c = Some ck → into_uri u = Ok uri → accepted st (inner ck) uri h d now →
  arrives_expired (inner ck) now = false → c_path (inner ck) = None →
  is_http uri = true ∨ is_https uri = true → starts_with DEFAULT_PATH (uri_path uri) = true →
  (∀ t, deadline (inner ck) now = Some t → (now' < t)%Z) →
  stored_form (inner ck) d (normalize_path (uri_path uri)) now ∈
    ordered_cookies (add st c u now) uri h now'.
Proof.
  intros Hc Hu Hacc Hx Hpa Hsch Hroot Hdl.
  pose proof (add_accepted _ _ _ _ _ _ _ _ Hc Hu Hacc) as Hadd. simpl in Hadd.
  rewrite Hx in Hadd.
  assert (add_path (inner ck) uri = normalize_path (uri_path uri)) as Hp
    by (unfold add_path; by rewrite Hpa).
  rewrite <- Hp. destruct Hacc as [Hh Hs Hd _].
  unfold ordered_cookies. apply list_elem_of_fmap.
  eexists (d, add_path (inner ck) uri, _). split; [|rewrite merge_sort_Permutation].
  2: apply elem_of_matching; split.
  2: { eexists _, (is_host_only (inner ck)). rewrite Hadd, find_entry_insert.
       rewrite stored_form_host_only. by rewrite decide_True. }
  - done.
  - eapply request_matches_iff; [apply stored_form_wf|]. rewrite Hp. simpl.
    unfold storage_domain, is_host_only in *. split; simpl; try done.
    + destruct (c_domain (inner ck)); [naive_solver|]. subst. by left.
    + intros Hho%bool_decide_eq_true_1. by rewrite Hho in Hd.
    + by apply default_path_matches.
    + intros t. unfold deadline, expires_datetime in *.
      destruct (c_max_age (inner ck)); simpl; [naive_solver|].
      destruct (c_expires (inner ck)) as [[]|]; naive_solver.
Qed.

(** C28: [remove] deletes the host-only and the domain cookie with the name,
    in the domain and at the path of the URI, and nothing else. *)
Theorem remove_spec `{IntoUri U} st c (u : U) uri h d p n ho :
  into_uri u = Ok uri → uri_host uri ≫= canonical_host = Some h →
  find_entry (cookies (remove st c u)) d p n ho =
    if decide (d = h ∧ p = uri_path uri ∧ n = c_name c) then None
    else find_entry (cookies st) d p n ho.
Proof.
  intros Hu Hh. unfold remove. rewrite Hu. destruct (uri_host uri); simpl in Hh; [|done].
  rewrite Hh. unfold remove_stored_cookies. rewrite find_entry_remove. unfold selects.
  repeat case_decide; naive_solver.
Qed.
End adding.

(** ** Invariants of the jar *)
Section invariants.
Context `{HL : HostLib, UL : UriLib, HV : HeaderValueLib, TL : TimeLib, CL : CookieLib}.

(** A cookie in the domain scope carries the text of its storage domain. *)
Definition domain_attr_wf (st : Store) : Prop :=
  ∀ d p n e, find_entry (cookies st) d p n false = Some e →
    c_domain_attr (cookie e) = Some (host_to_string d) ∧ ∃ s, host_parse s = Some d.

Lemma add_domain_attr `{IntoCookie C, IntoUri U} st (c : C) (u : U) now :
  domain_attr_wf st → domain_attr_wf (add st c u now).
Proof.
  intros Hwf. destruct (add_cases st c u now) as
    [->|(ck & uri & h & d & c1 & c2 & expired & _ & _ & _ & _ & Hd & He & _ & ->)]; [done|].
  intros d' p' n' e. destruct expired.
  { unfold remove_stored_cookie. rewrite find_entry_remove. case_decide; [done|apply Hwf]. }
  rewrite find_entry_insert. case_decide as Hk; [|apply Hwf].
  intros [= <-]. destruct Hk as (-> & _ & _ & Hho).
  pose proof (add_expiry_stored _ _ _ _ (add_path c2 uri) now Hd) as (Hx & _ & _ & Hst).
  rewrite He in Hx, Hst. specialize (Hst (eq_sym Hx)). simpl in Hst. rewrite Hst in *.
  rewrite stored_form_host_only in Hho. simpl.
  apply add_domain_storage in Hd as [Hd _].
  unfold is_host_only, storage_domain, c_domain, canonical_host in *.
  destruct (c_domain_attr (inner ck)); simpl in *; [naive_solver|done].
Qed.

Lemma reachable_domain_attr st : rtc jar_step empty_store st → domain_attr_wf st.
Proof.
  assert (domain_attr_wf empty_store) as Hempty.
  { intros d p n e. unfold find_entry. simpl. by rewrite lookup_empty. }
  intros Hr. revert Hr. apply (rtc_ind_r domain_attr_wf); [done|].
  intros st1 st2 _ Hs Hwf. destruct Hs.
  - by apply add_domain_attr.
  - unfold remove. repeat case_match; try done. intros d' p' n' e.
    unfold remove_stored_cookies. rewrite find_entry_remove. case_decide; [done|apply Hwf].
  - done.
  - unfold set_cookies.
    generalize (omap (λ '(v, now), (λ c, (inner c, now)) <$> Cookie_parse v) hs).
    intros l. revert st1 Hwf. induction l as [|[c now] l IH]; intros st1 Hwf; [done|].
    simpl. by apply IH, add_domain_attr.
Qed.

(** C9: In every jar reached by any sequence of [add], [remove], [clear] and
    [set_cookies], no inner map is empty, every entry is filed under its own
    name, path and host-only flag with a rooted path and without a relative
    [Max-Age], a domain cookie carries the text of its storage domain, and
    creation indices are smaller than the next one and pairwise distinct
    until the counter saturates. *)
Theorem jar_invariant st :
  rtc jar_step empty_store st → store_wf st ∧ domain_attr_wf st.
Proof. split; [by apply reachable_wf|by apply reachable_domain_attr]. Qed.

Lemma elem_of_all_entries st d e :
  (d, e) ∈ all_entries st ↔ ∃ p n ho, find_entry (cookies st) d p n ho = Some e.
Proof.
  unfold all_entries. rewrite elem_of_map_to_list_bind.
  setoid_rewrite elem_of_map_to_list_bind. setoid_rewrite list_elem_of_fmap.
  setoid_rewrite elem_of_values. setoid_rewrite find_entry_Some. naive_solver.
Qed.

Lemma elem_of_get_all st now ck :
  ck ∈ get_all st now ↔
  ∃ d e p n ho, find_entry (cookies st) d p n ho = Some e ∧
    cookie_is_expired (cookie e) now = false ∧ ck = with_host (Cookie_from (cookie e)) d.
Proof.
  unfold get_all. rewrite list_elem_of_fmap. setoid_rewrite merge_sort_Permutation.
  setoid_rewrite list_elem_of_omap. split.
  - intros ([i ck'] & -> & ([d e] & (p & n & ho & Hf)%elem_of_all_entries & Hx)).
    destruct (cookie_is_expired _ _) eqn:?; naive_solver.
  - intros (d & e & p & n & ho & Hf & Hx & ->). eexists (creation_index e, _).
    split; [done|]. exists (d, e). rewrite elem_of_all_entries, Hx. naive_solver.
Qed.

(** A stored cookie is accepted again from its own host. *)
Lemma snapshot_accepted st d p n ho e uri now :
  rtc jar_step empty_store st → find_entry (cookies st) d p n ho = Some e →
  starts_with #"." (host_to_string d) = false →
  uri_host uri ≫= canonical_host = Some d →
  (c_secure (cookie e) = Some true → is_https uri = true) →
  accepted empty_store (cookie e) uri d d now.
Proof.
  intros Hr Hf Hdot Hh Hs. split; [done..| |by right].
  destruct (wf_entry _ (reachable_wf _ Hr) _ _ _ _ _ Hf) as [_ Hsc _ _ _].
  unfold storage_domain. destruct ho.
  - apply bool_decide_eq_true_1 in Hsc. by rewrite Hsc.
  - apply (reachable_domain_attr _ Hr) in Hf as [Ha [s Hps]].
    assert (c_domain (cookie e) = Some (host_to_string d)) as ->.
    { unfold c_domain. rewrite Ha. unfold fmap, option_fmap, option_map.
      by rewrite (strip_prefix_None _ _ Hdot). }
    unfold canonical_host. rewrite (strip_prefix_None _ _ Hdot).
    split; [by eapply host_parse_to_string|by left].
Qed.

(** Storing it again changes nothing of it. *)
Lemma snapshot_stored_form st d p n ho e uri now :
  rtc jar_step empty_store st → find_entry (cookies st) d p n ho = Some e →
  cookie_is_expired (cookie e) now = false →
  arrives_expired (cookie e) now = false ∧ add_path (cookie e) uri = p ∧
  stored_form (cookie e) d p now = cookie e.
Proof.
  intros Hr Hf Hx.
  destruct (wf_entry _ (reachable_wf _ Hr) _ _ _ _ _ Hf) as [_ Hsc Hp Hroot Hma].
  split_and!.
  - unfold arrives_expired. unfold cookie_is_expired in Hx. rewrite Hma in *. simpl in Hx.
    destruct (expires_datetime _); [|done]. apply Z.leb_gt in Hx. apply bool_decide_eq_false. lia.
  - unfold add_path. by rewrite Hp, Hroot.
  - unfold stored_form. rewrite Hma, <- Hp.
    assert ((if c_domain_attr (cookie e) is Some _ then Some (host_to_string d) else None) =
            c_domain_attr (cookie e)) as ->.
    { destruct ho.
      - apply bool_decide_eq_true_1 in Hsc. unfold c_domain in Hsc.
        by destruct (c_domain_attr (cookie e)).
      - by apply (reachable_domain_attr _ Hr) in Hf as [-> _]. }
    rewrite <- Hma. by destruct (cookie e).
Qed.

Lemma get_all_single d p c now :
  cookie_is_expired c now = false →
  get_all (insert_stored_cookie empty_store d p c) now = [with_host (Cookie_from c) d].
Proof.
  intros Hx. unfold get_all, all_entries, insert_stored_cookie, find_entry. simpl.
  rewrite lookup_empty. simpl. unfold put_entry. rewrite lookup_empty. simpl.
  rewrite lookup_empty. simpl. rewrite !insert_empty, !map_to_list_singleton. simpl.
  rewrite map_to_list_singleton. simpl. unfold scope_values, scope_insert.
  destruct (bool_decide _); simpl; rewrite insert_empty, map_to_list_singleton, map_to_list_empty;
    simpl; by rewrite Hx.
Qed.

(** Exporting and importing: a snapshot taken with [get_all], added to
    an empty jar at a URI of its host (with HTTPS if it is [Secure]), gives a
    jar whose [get_all] is that snapshot alone. *)
Theorem snapshot_restore `{IntoUri U} st ck (u : U) uri d now :
  rtc jar_step empty_store st → ck ∈ get_all st now → ck_host ck = Some d →
  starts_with #"." (host_to_string d) = false →
  into_uri u = Ok uri → uri_host uri ≫= canonical_host = Some d →
  (secure ck = true → is_https uri = true) →
  get_all (add empty_store ck u now) now = [ck].
Proof.
  intros Hr Hck Hd Hdot Hu Hh Hs.
  apply elem_of_get_all in Hck as (d' & e & p & n & ho & Hf & Hx & ->).
  simpl in Hd. injection Hd as ->.
  assert (c_secure (cookie e) = Some true → is_https uri = true) as Hs'.
  { intros Hsec. apply Hs. unfold secure. simpl. by rewrite Hsec. }
  pose proof (snapshot_accepted _ _ _ _ _ _ _ now Hr Hf Hdot Hh Hs') as Hacc.
  destruct (snapshot_stored_form _ _ _ _ _ _ uri now Hr Hf Hx) as (Hax & Hp & Hst).
  rewrite (add_accepted empty_store (with_host (Cookie_from (cookie e)) d)
             (with_host (Cookie_from (cookie e)) d) u uri d d now); [|done..]. simpl.
  rewrite Hax, Hp, Hst. by apply get_all_single.
Qed.

Lemma filter_expired_omap st now :
  length (filter (λ x, cookie_is_expired (cookie x.2) now = false) (all_entries st)) =
  length (get_all st now).
Proof.
  unfold get_all. rewrite length_fmap, merge_sort_Permutation.
  induction (all_entries st) as [|[d e] l IH]; [done|]. csimpl.
  rewrite filter_cons. simpl. destruct (cookie_is_expired _ _); simpl; by rewrite IH.
Qed.

Lemma min_by_key_Some {A} (f : A → Z) (l : list A) : l ≠ [] → is_Some (min_by_key f l).
Proof.
  unfold min_by_key. destruct l as [|x l]; [done|]. intros _. simpl. revert x.
  induction l as [|y l IH]; intros x; simpl; [by eexists|]. destruct (_ <? _)%Z; apply IH.
Qed.

(** The queries of the jar agree: [contains] is whether [get] finds a
    cookie, [len] counts the cookies [get_all] returns, and [is_empty] is
    whether there are none. *)
Theorem queries_agree `{IntoUri U} st name (u : U) now :
  contains st name u now = bool_decide (is_Some (get st name u now)) ∧
  len st now = length (get_all st now) ∧
  is_empty st now = bool_decide (get_all st now = []).
Proof.
  split_and!.
  - unfold contains, get. destruct (into_uri u) as [uri|]; simpl; [|done].
    destruct (uri_host uri) as [h|]; simpl; [|done].
    destruct (canonical_host h) as [host|]; simpl; [|done].
    destruct (cookies st !! host) as [pm|]; simpl; [|done].
    destruct (pm !! uri_path uri) as [sc|]; simpl; [|done].
    induction (scope_entries sc name) as [|e l IH]; simpl; [done|].
    rewrite filter_cons. destruct (cookie_is_expired (cookie e) now); simpl; [exact IH|].
    destruct (min_by_key_Some creation_index (e :: filter
      (λ e, cookie_is_expired (cookie e) now = false) l)) as [x Hx]; [done|].
    by rewrite Hx.
  - apply filter_expired_omap.
  - unfold is_empty.
    transitivity (bool_decide (length (get_all st now) = 0));
      [|apply bool_decide_ext; by rewrite length_zero_iff_nil].
    rewrite <- filter_expired_omap. induction (all_entries st) as [|[d e] l IH]; [done|].
    rewrite filter_cons. simpl. by destruct (cookie_is_expired _ _); simpl; [rewrite IH|].
Qed.
End invariants.

(** ** Examples *)

(** A parser of [name=value], enough for the examples. *)
#[export] Instance RefCookie : CookieLib := λ s,
  '(n, v) ← split_once "="%char s;
  Some {| c_name := n; c_value := v; c_expires := None; c_max_age := None;
          c_domain_attr := None; c_path := None; c_secure := None; c_http_only := None;
          c_same_site := None |}.

Module JarExamples.
Definition site (s : Scheme) (host path : str) : Uri :=
  {| uri_scheme := Some s;
     uri_authority := Some {| auth_str := host; auth_host := host; auth_port := None |};
     uri_path_and_query := Some {| pq_path := path; pq_query := None |} |}.

Definition simple (name value : str) (dom path : option str) (sec : option bool)
    (age : option Z) : RawCookie :=
  {| c_name := name; c_value := value; c_expires := None; c_max_age := age;
     c_domain_attr := dom; c_path := path; c_secure := sec; c_http_only := None;
     c_same_site := None |}.

Definition shop := site HTTPS #"shop.example.com" #"/cart/view".
Definition plain := site HTTP #"shop.example.com" #"/cart/view".
Definition www := Domain #"shop.example.com".

Definition sid := simple #"sid" #"1" None None (Some true) (Some 100%Z).
Definition lang := simple #"lang" #"en" (Some #".example.com") (Some #"/") None None.
Definition one := add empty_store sid shop 0.
Definition two := add one lang shop 5.

Lemma one_reachable : rtc jar_step empty_store one.
Proof. apply rtc_once. apply (step_add empty_store sid shop 0). Qed.
Lemma two_reachable : rtc jar_step empty_store two.
Proof. eapply rtc_r; [apply one_reachable|]. apply (step_add one lang shop 5). Qed.

(** At work: both cookies are sent to the site that set them, the one with
    the longer path first. *)
Lemma two_header :
  cookies_for two shop HTTP_11 6 =
    Compressed {| hv_bytes := #"sid=1; lang=en"; hv_sensitive := false |}.
Proof. by vm_compute. Qed.


Lemma cookies_order_deterministic_witness :
  let l := merge_sort cookie_order (matching_cookies two shop www 6) in
  cookies_for two shop HTTP_2 6 =
    Uncompressed (omap (λ '(_, _, e), from_maybe_shared (pair_str (cookie e))) l).
Proof.
  apply (cookies_order_deterministic two shop #"shop.example.com" www 6).
  - apply two_reachable.
  - by vm_compute.
  - reflexivity.
  - reflexivity.
  - apply merge_sort_Permutation.
  - apply Sorted_merge_sort, _.
Defined.

Lemma cookies_by_version_witness :
  let l := ordered_cookies two shop www 6 in
  cookies_for two shop HTTP_2 6 =
    Uncompressed ((λ c, {| hv_bytes := pair_str c; hv_sensitive := false |}) <$> l) ∧
  cookies_for two shop HTTP_11 6 =
    if decide (l = []) then Empty
    else Compressed {| hv_bytes := join #"; " (pair_str <$> l); hv_sensitive := false |}.
Proof.
  apply (cookies_by_version two shop #"shop.example.com" www 6); [reflexivity..|].
  vm_compute. repeat constructor.
Defined.

Lemma one_accepts_lang : accepted one lang shop www (Domain #"example.com") 5.
Proof.
  split; [reflexivity|done| |by left]. split; [reflexivity|]. right.
  exists #"shop.example.com", #"example.com", #"shop". done.
Qed.

Lemma add_spec_witness :
  find_entry (cookies (add one lang shop 5)) (Domain #"example.com") #"/" #"lang" false =
  Some {| cookie := simple #"lang" #"en" (Some #"example.com") (Some #"/") None None;
          creation_index := 1 |}.
Proof.
  rewrite (add_spec one lang (Cookie_from lang) shop shop www (Domain #"example.com") 5
             (Domain #"example.com") #"/" #"lang" false);
    [by vm_compute|reflexivity|reflexivity|apply one_accepts_lang].
Defined.

Lemma add_rejects_witness : add empty_store sid plain 0 = empty_store.
Proof.
  apply add_rejects. intros ck uri h d Hc Hu Hs _ _.
  injection Hc as <-. injection Hu as <-. by specialize (Hs eq_refl).
Defined.

(** Over HTTP a cookie in another path is stored, the [Secure] cookie is not
    overlaid. *)
Definition mine := simple #"sid" #"2" None (Some #"/other") None None.

Lemma add_insecure_origin_witness :
  (∀ e, find_entry (cookies (add one mine plain 1)) www #"/other" #"sid" true = Some e →
        c_secure (cookie e) ≠ Some true) ∧
  (∀ sd sp ho' e, find_entry (cookies one) sd sp #"sid" ho' = Some e →
     c_secure (cookie e) = Some true → cookie_is_expired (cookie e) 1 = false →
     rfc_path_match #"/other" sp → ¬ (rfc_domain_match sd www ∨ rfc_domain_match www sd)).
Proof.
  apply (add_insecure_origin one mine plain plain 1 www #"/other" #"sid" true);
    [reflexivity|reflexivity|by vm_compute].
Defined.

Lemma stored_cookie_is_sent_witness :
  stored_form sid www #"/cart" 0 ∈ ordered_cookies (add empty_store sid shop 0) shop www 99.
Proof.
  apply (stored_cookie_is_sent empty_store sid (Cookie_from sid) shop shop www www 0 99);
    try reflexivity.
  - split; [reflexivity|done|done|by left].
  - by right.
  - by intros t [= <-].
Defined.

Lemma remove_spec_witness :
  find_entry (cookies (remove one sid (site HTTPS #"shop.example.com" #"/cart")))
    www #"/cart" #"sid" true = None.
Proof.
  rewrite (remove_spec one sid _ (site HTTPS #"shop.example.com" #"/cart") www
             www #"/cart" #"sid" true); [by vm_compute|reflexivity..].
Defined.

Lemma jar_invariant_witness : store_wf two ∧ domain_attr_wf two.
Proof. apply jar_invariant, two_reachable. Defined.

Lemma snapshot_restore_witness :
  get_all (add empty_store
    (with_host (Cookie_from (simple #"lang" #"en" (Some #"example.com") (Some #"/") None None))
       (Domain #"example.com")) (site HTTP #"example.com" #"/") 6) 6 =
  [with_host (Cookie_from (simple #"lang" #"en" (Some #"example.com") (Some #"/") None None))
     (Domain #"example.com")].
Proof.
  apply (snapshot_restore two _ _ (site HTTP #"example.com" #"/") (Domain #"example.com") 6);
    try reflexivity.
  - apply two_reachable.
  - apply elem_of_get_all. exists (Domain #"example.com").
    exists {| cookie := simple #"lang" #"en" (Some #"example.com") (Some #"/") None None;
              creation_index := 1 |}.
    exists #"/", #"lang", false. split; [by vm_compute|done].
  - done.
Defined.
End JarExamples.
