(* ===== verification/JarSpec.v ===== *)
(** * The cookie jar as a list of cookies

    [cookie/jar.rs] keeps its cookies in hash maps nested by domain, path and
    scope, and orders them by a creation counter.  This file states what that
    structure stands for: one list of cookies, oldest first, each under its
    domain, path, name and host-only flag.  [sp_add], [sp_remove] and the
    queries below are written on that list with the words of RFC 6265, with
    no index and no nesting.

    - [Key]: the identity of a cookie; [sp_put]: storing one in the list.
    - [JarOp], [jar_run], [sp_run]: a history of a jar, run by the jar of the
      program and by the list.
    - [lists], [represents]: the simulation relation, and the lemmas that each
      operation keeps it.
    - [answers_as]: the two sides give the same answer to every query. *)

From S2P Require Import Prelude Http Errors Ext CookieStore Jar.

(** The identity of a cookie: domain, path, name and host-only flag. *)
Definition Key : Type := Host * str * str * bool.

(** ** The decisions of RFC 6265 *)

#[export] Instance rfc_domain_match_dec h d : Decision (rfc_domain_match h d).
Proof.
  refine (cast_if (decide (domain_match h d = true)));
    unfold rfc_domain_match; by rewrite <- domain_match_iff.
Defined.

#[export] Instance rfc_path_match_dec r c : Decision (rfc_path_match r c).
Proof.
  refine (cast_if (decide (path_match r c = true)));
    unfold rfc_path_match; by rewrite <- path_match_iff.
Defined.

(** A cookie lives until its deadline, and for the session without one. *)
Definition live (c : RawCookie) (now : Z) : Prop :=
  ∀ t, c_expires c = Some (DateTime t) → (now < t)%Z.
#[export] Instance live_dec c now : Decision (live c now).
Proof.
  unfold live. destruct (c_expires c) as [[t|]|]; [|by left..].
  destruct (decide (now < t)%Z); [left|right]; naive_solver.
Defined.

#[export] Instance rfc_selected_dec uri h d p ho c now :
  Decision (rfc_selected uri h d p ho c now).
Proof.
  refine (cast_if (decide
    ((is_http uri = true ∨ is_https uri = true) ∧ rfc_domain_match h d ∧ (ho = true → h = d) ∧
     rfc_path_match (uri_path uri) p ∧ (c_secure c = Some true → is_https uri = true) ∧
     live c now))).
  - by split; naive_solver.
  - by intros []; naive_solver.
Defined.

(** ** Stable sorting, largest first *)
Section place.
Context {A : Type} (f : A → nat).

Fixpoint place (x : A) (l : list A) : list A :=
  match l with
  | [] => [x]
  | y :: l' => if decide (f y <= f x) then x :: l else y :: place x l'
  end.

Lemma place_perm x l : place x l ≡ₚ x :: l.
Proof. induction l as [|y l IH]; simpl; [done|]. case_decide; [done|]. rewrite IH. constructor. Qed.

Lemma foldr_place_perm l : foldr place [] l ≡ₚ l.
Proof. induction l as [|x l IH]; simpl; [done|]. by rewrite place_perm, IH. Qed.

Context (R : relation A).
Definition then_by (x y : A) : Prop := f y < f x ∨ f x = f y ∧ R x y.

Lemma place_sorted x l :
  Forall (R x) l → StronglySorted then_by l → StronglySorted then_by (place x l).
Proof.
  induction l as [|y l IH]; intros HR Hs; simpl; [by repeat constructor|].
  apply StronglySorted_inv in Hs as [Hs Hy]. apply Forall_cons in HR as [Hxy HR]. case_decide.
  - constructor; [by constructor|]. unfold then_by in *.
    constructor; [destruct (decide (f x = f y)); [by right|left; lia]|].
    rewrite Forall_forall in *. intros z Hz. specialize (Hy z Hz). specialize (HR z Hz).
    destruct (decide (f x = f z)); [by right|left]. destruct Hy as [?|[? _]]; lia.
  - constructor; [by apply IH|]. rewrite place_perm. constructor; [|done]. left. lia.
Qed.

Lemma foldr_place_sorted l : StronglySorted R l → StronglySorted then_by (foldr place [] l).
Proof.
  induction 1 as [|x l Hl IH Hx]; simpl; [constructor|]. apply place_sorted; [|done].
  by rewrite foldr_place_perm.
Qed.
End place.

Lemma foldr_place_fmap {A B} (f : B → nat) (g : A → B) l :
  foldr (place f) [] (g <$> l) = g <$> foldr (place (f ∘ g)) [] l.
Proof.
  assert (∀ x k, place f (g x) (g <$> k) = g <$> place (f ∘ g) x k) as Hp.
  { intros x k. induction k as [|y k IH]; simpl; [done|]. case_decide; csimpl; by rewrite ?IH. }
  induction l as [|x l IH]; [done|]. rewrite fmap_cons. cbn [foldr]. by rewrite IH, Hp.
Qed.

(** ** The specification *)
Section spec.
Context `{HL : HostLib, UL : UriLib, HV : HeaderValueLib, TL : TimeLib, CL : CookieLib}.
Implicit Types (l : list (Key * RawCookie)) (c : RawCookie) (k : Key).

(** A cookie with the key and the value of a stored one takes its place; one
    with another value takes the place of a new cookie. *)
Fixpoint sp_put k c l : list (Key * RawCookie) :=
  match l with
  | [] => [(k, c)]
  | (k', c') :: l' =>
    if decide (k' = k) then
      if decide (c_value c' = c_value c) then (k, c) :: l' else l' ++ [(k, c)]
    else (k', c') :: sp_put k c l'
  end.

(** The domain a cookie from [h] belongs to, if [h] may set it. *)
Definition sp_domain c (h : Host) : option Host :=
  match c_domain c with
  | None => Some h
  | Some raw => d ← canonical_host raw; if decide (rfc_domain_match h d) then Some d else None
  end.

(** A live [Secure] cookie of that name for a related domain and a path that
    covers [p]. *)
Definition sp_shadowed l (n : str) (d : Host) (p : str) (now : Z) : Prop :=
  Exists (λ '((d', p', n', _), c), n' = n ∧ (rfc_domain_match d' d ∨ rfc_domain_match d d') ∧
            rfc_path_match p p' ∧ c_secure c = Some true ∧ live c now) l.
#[export] Instance sp_shadowed_dec l n d p now : Decision (sp_shadowed l n d p now).
Proof. unfold sp_shadowed. apply Exists_dec. intros [[[[??]?]?]?]. apply _. Defined.

Definition sp_add l c (uri : Uri) (now : Z) : list (Key * RawCookie) :=
  match uri_host uri ≫= canonical_host with
  | None => l
  | Some h =>
    match sp_domain c h with
    | None => l
    | Some d =>
      let p := add_path c uri in
      let k : Key := (d, p, c_name c, is_host_only c) in
      if decide (is_https uri = true ∨
                 (c_secure c ≠ Some true ∧ ¬ sp_shadowed l (c_name c) d p now)) then
        if arrives_expired c now then filter (λ x, x.1 ≠ k) l
        else sp_put k (stored_form c d p now) l
      else l
    end
  end.

Definition sp_remove l (n : str) (uri : Uri) : list (Key * RawCookie) :=
  match uri_host uri ≫= canonical_host with
  | None => l
  | Some h => filter (λ x, x.1.1 ≠ (h, uri_path uri, n)) l
  end.

(** Longer paths first; among equally long ones the list's own order. *)
Definition sp_order l : list (Key * RawCookie) :=
  foldr (place (λ x, length x.1.1.1.2)) [] l.

Definition sp_selected l (uri : Uri) (h : Host) (now : Z) : list (Key * RawCookie) :=
  filter (λ x, rfc_selected uri h x.1.1.1.1 x.1.1.1.2 x.1.2 x.2 now) l.

Definition sp_cookies l (uri : Uri) (version : Version) (now : Z) : Cookies :=
  match uri_host uri ≫= canonical_host with
  | None => Empty
  | Some h =>
    let pairs := (λ x, pair_str x.2) <$> sp_order (sp_selected l uri h now) in
    match version with
    | HTTP_2 | HTTP_3 => Uncompressed (omap from_maybe_shared pairs)
    | _ => if decide (pairs = []) then Empty
           else if from_maybe_shared (join #"; " pairs) is Some v then Compressed v else Empty
    end
  end.

Definition sp_live l (now : Z) : list (Key * RawCookie) := filter (λ x, live x.2 now) l.
Definition sp_view (x : Key * RawCookie) : Cookie := with_host (Cookie_from x.2) x.1.1.1.1.

Definition sp_get l (name : str) (uri : Uri) (now : Z) : option Cookie :=
  h ← uri_host uri ≫= canonical_host;
  sp_view <$> head (filter (λ x, x.1.1 = (h, uri_path uri, name)) (sp_live l now)).

(** ** Histories *)

(** The operations that write the jar. *)
Inductive JarOp :=
| OpAdd {C} {HC : IntoCookie C} {U} {HU : IntoUri U} (c : C) (u : U) (now : Z)
| OpRemove {U} {HU : IntoUri U} (c : RawCookie) (u : U)
| OpClear
| OpSetCookies (hs : list (HeaderValue * Z)) (uri : Uri).

Definition jar_apply (st : Store) (o : JarOp) : Store :=
  match o with
  | OpAdd c u now => add st c u now
  | OpRemove c u => remove st c u
  | OpClear => clear st
  | OpSetCookies hs uri => set_cookies st hs uri
  end.
Definition jar_run : list JarOp → Store := foldl jar_apply empty_store.

(** A cookie and a URI that both parse. *)
Definition sp_offer l (ck : option Cookie) (uri : result Uri UriError) (now : Z) :
    list (Key * RawCookie) :=
  match ck, uri with
  | Some ck, Ok uri => sp_add l (inner ck) uri now
  | _, _ => l
  end.

Definition sp_apply l (o : JarOp) : list (Key * RawCookie) :=
  match o with
  | OpAdd c u now => sp_offer l (into_cookie c) (into_uri u) now
  | OpRemove c u => if into_uri u is Ok uri then sp_remove l (c_name c) uri else l
  | OpClear => []
  | OpSetCookies hs uri =>
    foldl (λ l '(v, now), sp_offer l (Cookie_parse v) (into_uri uri) now) l hs
  end.
Definition sp_run : list JarOp → list (Key * RawCookie) := foldl sp_apply [].

(** How many cookies a history offers to the jar. *)
Definition offered_by (o : JarOp) : nat :=
  match o with OpAdd _ _ _ => 1 | OpSetCookies hs _ => length hs | _ => 0 end.
Definition offers (ops : list JarOp) : nat := sum_list_with offered_by ops.

(** Every query answered as by the list. *)
Record answers_as (st : Store) l : Prop := {
  as_cookies uri version now : cookies_for st uri version now = sp_cookies l uri version now;
  as_get_all now : get_all st now = sp_view <$> sp_live l now;
  as_get {U} `{IntoUri U} name (u : U) now :
    get st name u now = (uri ← result_ok (into_uri u); sp_get l name uri now);
  as_contains {U} `{IntoUri U} name (u : U) now :
    contains st name u now =
      bool_decide (is_Some (uri ← result_ok (into_uri u); sp_get l name uri now));
  as_len now : len st now = length (sp_live l now);
  as_is_empty now : is_empty st now = bool_decide (sp_live l now = []);
  as_matches {U} `{IntoUri U} (u : U) uri h now :
    into_uri u = Ok uri → uri_host uri ≫= canonical_host = Some h →
    matches st u now ≡ₚ sp_view <$> sp_selected l uri h now;
}.
End spec.

(** ** The simulation relation *)

(** The entries of a store, in the order of the hash maps. *)
Definition nested (st : Store) : list (Key * CookieEntry) :=
  map_to_list (cookies st) ≫= λ '(d, pm),
  map_to_list pm ≫= λ '(p, sc),
    ((λ '(n, e), ((d, p, n, true), e)) <$> map_to_list (host_only sc)) ++
    ((λ '(n, e), ((d, p, n, false), e)) <$> map_to_list (domain sc)).

Definition find_key (st : Store) (k : Key) : option CookieEntry :=
  find_entry (cookies st) k.1.1.1 k.1.1.2 k.1.2 k.2.

(** A list of exactly the entries of a store. *)
Definition lists (st : Store) (es : list (Key * CookieEntry)) : Prop :=
  NoDup es.*1 ∧ ∀ k e, (k, e) ∈ es ↔ find_key st k = Some e.

Definition older (x y : Key * CookieEntry) : Prop :=
  (creation_index x.2 < creation_index y.2)%Z.
Definition strip (x : Key * CookieEntry) : Key * RawCookie := (x.1, cookie x.2).

(** The list [l] is the store's entries in the order of their creation. *)
Definition represents (st : Store) (l : list (Key * RawCookie)) : Prop :=
  ∃ es, lists st es ∧ StronglySorted older es ∧ l = strip <$> es.

Lemma elem_of_nested st k e : (k, e) ∈ nested st ↔ find_key st k = Some e.
Proof.
  destruct k as [[[d p] n] ho]. unfold nested, find_key. simpl. rewrite find_entry_Some.
  rewrite elem_of_map_to_list_bind. setoid_rewrite elem_of_map_to_list_bind.
  setoid_rewrite elem_of_app. setoid_rewrite list_elem_of_fmap. split.
  - intros (d' & pm & Hd & p' & sc & Hp & [([n' e'] & Hx & Hn%elem_of_map_to_list)|
                                           ([n' e'] & Hx & Hn%elem_of_map_to_list)]);
      simplify_eq; eauto.
  - intros (pm & sc & Hd & Hp & Hn). exists d, pm. split; [done|]. exists p, sc. split; [done|].
    destruct ho; [left|right]; exists (n, e); by rewrite elem_of_map_to_list.
Qed.

(** A bind over the entries of a map keyed apart has no duplicates. *)
Lemma NoDup_map_bind `{Countable K} {A B} (m : gmap K A) (f : K * A → list B) (key : B → K) :
  (∀ i x, m !! i = Some x → NoDup (f (i, x))) → (∀ i x y, y ∈ f (i, x) → key y = i) →
  NoDup (map_to_list m ≫= f).
Proof.
  intros Hf Hkey. apply NoDup_bind.
  - intros [i x] [j x'] y Hi%elem_of_map_to_list Hj%elem_of_map_to_list Hy%Hkey Hy'%Hkey.
    simplify_eq. done.
  - intros [i x] Hi%elem_of_map_to_list. by apply Hf.
  - apply NoDup_map_to_list.
Qed.

Lemma nested_NoDup st : NoDup (nested st).
Proof.
  unfold nested. apply (NoDup_map_bind _ _ (λ x, x.1.1.1.1)).
  - intros d pm _. apply (NoDup_map_bind _ _ (λ x, x.1.1.1.2)).
    + intros p sc _. apply NoDup_app. split_and!.
      * apply NoDup_fmap; [intros [??] [??]; naive_solver|apply NoDup_map_to_list].
      * intros x Hx Hx'. apply list_elem_of_fmap in Hx as ([??] & -> & _).
        by apply list_elem_of_fmap in Hx' as ([??] & ? & _).
      * apply NoDup_fmap; [intros [??] [??]; naive_solver|apply NoDup_map_to_list].
    + intros p sc y. rewrite elem_of_app, !list_elem_of_fmap.
      by intros [([??] & -> & _)|([??] & -> & _)].
  - intros d pm y. rewrite elem_of_map_to_list_bind.
    setoid_rewrite elem_of_app. setoid_rewrite list_elem_of_fmap.
    by intros (? & ? & _ & [([??] & -> & _)|([??] & -> & _)]).
Qed.

Lemma lists_perm st es : lists st es → es ≡ₚ nested st.
Proof.
  intros [Hnd Hes]. apply NoDup_Permutation.
  - by eapply NoDup_fmap_1.
  - apply nested_NoDup.
  - intros [k e]. by rewrite Hes, elem_of_nested.
Qed.

Lemma lists_perm_lists st es es' : es ≡ₚ es' → lists st es → lists st es'.
Proof.
  intros Hp [Hnd Hes]. split; [by rewrite <- Hp|]. intros k e. by rewrite <- Hp.
Qed.

Lemma lists_ext st st' es :
  (∀ k, find_key st' k = find_key st k) → lists st es → lists st' es.
Proof. intros Hk [? Hes]. split; [done|]. intros k e. by rewrite Hes, Hk. Qed.

(** *** Removing *)

Lemma filter_strip (P : Key * RawCookie → Prop) `{!∀ x, Decision (P x)}
    (es : list (Key * CookieEntry)) :
  filter P (strip <$> es) = strip <$> filter (λ x, P (strip x)) es.
Proof.
  induction es as [|x es IH]; [done|]. rewrite fmap_cons, !filter_cons, IH.
  by case_decide.
Qed.

Lemma StronglySorted_filter {A} (R : relation A) (P : A → Prop) `{!∀ x, Decision (P x)} (l : list A) :
  StronglySorted R l → StronglySorted R (filter P l).
Proof.
  induction 1 as [|x l Hl IH Hx]; [constructor|]. rewrite filter_cons.
  case_decide; [|done]. constructor; [done|]. rewrite Forall_forall in *.
  intros y [_ Hy]%list_elem_of_filter. by apply Hx.
Qed.

Lemma represents_remove st st' l (P : Key → Prop) `{!∀ k, Decision (P k)}
    (Q : Key * RawCookie → Prop) `{!∀ x, Decision (Q x)} :
  represents st l → (∀ x, Q x ↔ P x.1) →
  (∀ k, find_key st' k = if decide (P k) then find_key st k else None) →
  represents st' (filter Q l).
Proof.
  intros (es & [Hnd Hes] & Hs & ->) HQ Hk. rewrite (list_filter_iff _ (λ x, P x.1)) by done.
  exists (filter (λ x, P x.1) es). split_and!.
  - split.
    + clear -Hnd. induction es as [|x es IH]; [constructor|].
      apply NoDup_cons in Hnd as [Hx Hnd]. rewrite filter_cons. case_decide; [|by apply IH].
      apply NoDup_cons. split; [|by apply IH]. intros Hin. apply Hx.
      apply list_elem_of_fmap in Hin as (y & -> & Hy). apply list_elem_of_fmap.
      exists y. by apply list_elem_of_filter in Hy as [_ ?].
    + intros k e. rewrite list_elem_of_filter, Hes, Hk. simpl. case_decide; naive_solver.
  - by apply StronglySorted_filter.
  - exact (filter_strip (λ x, P x.1) es).
Qed.

(** *** Storing *)

Lemma sp_put_at k c c' l1 l2 :
  k ∉ l1.*1 →
  sp_put k c (l1 ++ (k, c') :: l2) =
    if decide (c_value c' = c_value c) then l1 ++ (k, c) :: l2 else l1 ++ l2 ++ [(k, c)].
Proof.
  induction l1 as [|[k1 c1] l1 IH]; intros Hk; simpl in *.
  - rewrite decide_True by done. by case_decide.
  - apply not_elem_of_cons in Hk as [? Hk]. rewrite decide_False, IH by done. by case_decide.
Qed.

Lemma sp_put_new k c l : k ∉ l.*1 → sp_put k c l = l ++ [(k, c)].
Proof.
  induction l as [|[k1 c1] l IH]; intros Hk; [done|]. simpl in *.
  apply not_elem_of_cons in Hk as [? Hk]. by rewrite decide_False, IH.
Qed.

Lemma strip_keys es : (strip <$> es).*1 = es.*1.
Proof. by rewrite <- list_fmap_compose. Qed.

Lemma StronglySorted_snoc {A} (R : relation A) l x :
  StronglySorted R l → Forall (λ y, R y x) l → StronglySorted R (l ++ [x]).
Proof.
  induction 1 as [|y l Hl IH Hy]; intros Hx; simpl; [by repeat constructor|].
  apply Forall_cons in Hx as [? Hx]. constructor; [by apply IH|].
  apply Forall_app. by split; [|constructor].
Qed.

Lemma StronglySorted_skip {A} (R : relation A) l1 x l2 :
  StronglySorted R (l1 ++ x :: l2) → StronglySorted R (l1 ++ l2).
Proof.
  induction l1 as [|y l1 IH]; simpl; intros Hs; apply StronglySorted_inv in Hs as [Hs Hy].
  - done.
  - constructor; [by apply IH|]. apply Forall_app in Hy as [? [_ ?]%Forall_cons].
    by apply Forall_app.
Qed.

(** An entry keeps its place when its index stays. *)
Lemma sorted_same_index es1 k e e' es2 :
  creation_index e' = creation_index e →
  StronglySorted older (es1 ++ (k, e) :: es2) → StronglySorted older (es1 ++ (k, e') :: es2).
Proof.
  intros Hi. induction es1 as [|y es1 IH]; simpl; intros Hs;
    apply StronglySorted_inv in Hs as [Hs Hy]; constructor; auto.
  - eapply Forall_impl; [exact Hy|]. unfold older. simpl. by rewrite Hi.
  - apply Forall_app in Hy as [? [Hy ?]%Forall_cons]. apply Forall_app. split; [done|].
    constructor; [|done]. unfold older in *. simpl in *. by rewrite Hi.
Qed.

Section put.
Context (st st' : Store) (k : Key) (e : CookieEntry).
Hypothesis Hput : ∀ k', find_key st' k' = if decide (k' = k) then Some e else find_key st k'.

Lemma lists_replace old es1 es2 :
  lists st (es1 ++ (k, old) :: es2) → lists st' (es1 ++ (k, e) :: es2).
Proof.
  intros [Hnd Hes]. split.
  - by rewrite fmap_app, fmap_cons in *.
  - rewrite fmap_app, fmap_cons in Hnd. simpl in Hnd.
    apply NoDup_app in Hnd as (_ & Hd1 & [Hd2 _]%NoDup_cons).
    assert (∀ e', (k, e') ∉ es1 ∧ (k, e') ∉ es2) as Hk.
    { intros e'. split; intros Hin; apply (list_elem_of_fmap_2 fst) in Hin; simpl in Hin.
      - apply (Hd1 _ Hin). by left.
      - done. }
    intros k' e'. rewrite Hput. specialize (Hes k' e').
    rewrite elem_of_app, elem_of_cons in *. case_decide; naive_solver.
Qed.

Lemma lists_new es : find_key st k = None → lists st es → lists st' (es ++ [(k, e)]).
Proof.
  intros Hk [Hnd Hes].
  assert (k ∉ es.*1) as Hnew.
  { intros ([k' e'] & -> & Hin)%list_elem_of_fmap. apply Hes in Hin. simpl in *. congruence. }
  apply (lists_perm_lists _ ((k, e) :: es)); [by rewrite Permutation_app_comm|]. split.
  - by apply NoDup_cons.
  - intros k' e'. rewrite elem_of_cons, Hes, Hput. case_decide; naive_solver.
Qed.
End put.

Lemma find_key_insert st d p c k :
  find_key (insert_stored_cookie st d p c) k =
  if decide (k = (d, p, c_name c, is_host_only c))
  then Some (inserted_entry (find_key st (d, p, c_name c, is_host_only c))
               (next_creation_index st) c)
  else find_key st k.
Proof.
  destruct k as [[[d' p'] n'] ho']. unfold find_key. simpl. rewrite find_entry_insert.
  by apply decide_ext; naive_solver.
Qed.

(** New indices are larger than all the others. *)
Lemma older_next st es k c :
  store_wf st → (next_creation_index st < u64_max)%Z → lists st es →
  Forall (λ y, older y (k, {| cookie := c; creation_index := next_creation_index st |})) es.
Proof.
  intros Hwf Hlt [_ Hes]. apply Forall_forall. intros [k' e] Hin%Hes. unfold older. simpl.
  destruct (wf_index _ Hwf _ _ _ _ _ Hin) as [_ [?|[]]]; lia.
Qed.

Lemma represents_put st d p c l :
  store_wf st → (next_creation_index st < u64_max)%Z → represents st l →
  represents (insert_stored_cookie st d p c) (sp_put (d, p, c_name c, is_host_only c) c l).
Proof.
  intros Hwf Hlt (es & Hl & Hs & ->).
  pose proof (find_key_insert st d p c) as Hput. revert Hput.
  generalize (insert_stored_cookie st d p c) as st'. intros st'.
  generalize (d, p, c_name c, is_host_only c) as k. intros k Hput.
  unfold inserted_entry in Hput. destruct (find_key st k) as [old|] eqn:Hk.
  - apply (proj2 Hl) in Hk as (es1 & es2 & ->)%list_elem_of_split.
    assert (k ∉ (strip <$> es1).*1) as Hk1.
    { rewrite strip_keys. destruct Hl as [Hnd _]. rewrite fmap_app, fmap_cons in Hnd.
      apply NoDup_app in Hnd as (_ & Hd & _). intros Hin. apply (Hd _ Hin). by left. }
    rewrite fmap_app, fmap_cons. unfold strip at 2. simpl. rewrite sp_put_at by done.
    case_decide.
    + eexists (_ ++ (k, _) :: _). split_and!; [by eapply lists_replace| |by rewrite fmap_app].
      by eapply sorted_same_index; [|exact Hs].
    + eexists ((es1 ++ es2) ++ [(k, _)]). split_and!.
      * apply (lists_replace _ _ _ _ Hput) in Hl. eapply lists_perm_lists; [|exact Hl].
        rewrite <- app_assoc. apply Permutation_app_head, Permutation_cons_append.
      * apply StronglySorted_snoc; [by eapply StronglySorted_skip|].
        apply (older_next _ _ k c Hwf Hlt) in Hl.
        apply Forall_app in Hl as [? [_ ?]%Forall_cons]. by apply Forall_app.
      * by rewrite !fmap_app, <- app_assoc.
  - exists (es ++ [(k, {| cookie := c; creation_index := next_creation_index st |})]). split_and!.
    + by eapply lists_new.
    + by apply StronglySorted_snoc, older_next.
    + rewrite sp_put_new; [by rewrite fmap_app|]. rewrite strip_keys.
      intros ([k' e'] & -> & Hin)%list_elem_of_fmap. apply (proj2 Hl) in Hin.
      simpl in *. congruence.
Qed.

(** ** The operations keep the relation *)
Section simulation.
Context `{HL : HostLib, UL : UriLib, HV : HeaderValueLib, TL : TimeLib, CL : CookieLib}.

Lemma elem_of_represents st l k c :
  represents st l → (k, c) ∈ l ↔ ∃ e, find_key st k = Some e ∧ cookie e = c.
Proof.
  intros (es & [_ Hes] & _ & ->). rewrite list_elem_of_fmap. setoid_rewrite <- Hes.
  split; [intros ([k' e] & [= -> ->] & ?); eauto|].
  intros (e & Hin & <-). by exists (k, e).
Qed.

Lemma live_expired st k e now :
  store_wf st → find_key st k = Some e → cookie_is_expired (cookie e) now = false ↔ live (cookie e) now.
Proof. intros Hwf Hk. apply not_expired_iff. by destruct (wf_entry _ Hwf _ _ _ _ _ Hk). Qed.

Lemma shadowed_iff st l n d p now :
  store_wf st → represents st l →
  would_overlay_secure_cookie st n d p now = true ↔ sp_shadowed l n d p now.
Proof.
  intros Hwf Hr. rewrite would_overlay_iff. unfold sp_shadowed. rewrite Exists_exists.
  setoid_rewrite domain_match_iff. setoid_rewrite path_match_iff. split.
  - intros (sd & sp & ho & e & Hf & Hd & Hp & Hs & Hx). exists ((sd, sp, n, ho), cookie e).
    split; [apply (elem_of_represents _ _ _ _ Hr); by exists e|].
    split_and!; try done. by apply (live_expired st (sd, sp, n, ho)).
  - intros ([[[[sd sp] n'] ho] c] & Hin & -> & Hd & Hp & Hs & Hx).
    apply (elem_of_represents _ _ _ _ Hr) in Hin as (e & Hf & <-). exists sd, sp, ho, e.
    split_and!; try done. by apply (live_expired st (sd, sp, n, ho)).
Qed.

Lemma sp_domain_Some c h d : sp_domain c h = Some d ↔ storage_domain c h d.
Proof.
  unfold sp_domain, storage_domain. destruct (c_domain c); [|naive_solver].
  destruct (canonical_host _); simpl; [|naive_solver]. case_decide; naive_solver.
Qed.

Lemma add_not_accepted `{IntoCookie C, IntoUri U} st (c : C) ck (u : U) uri now :
  into_cookie c = Some ck → into_uri u = Ok uri →
  (∀ h d, ¬ accepted st (inner ck) uri h d now) → add st c u now = st.
Proof.
  intros Hc Hu Hno. destruct (add_cases st c u now) as
    [->|(ck' & uri' & h & d & c1 & c2 & expired & Hc' & Hu' & Hs & Hh & Hd & Hx & Ho & _)];
    [done|]. rewrite Hc in Hc'. rewrite Hu in Hu'. simplify_eq. destruct (Hno h d).
  destruct (add_expiry_stored _ _ _ _ [] now Hd) as (_ & Hn & Hp & _). rewrite Hx in *.
  simpl in *. apply add_domain_storage in Hd as [Hd _]. split; try done.
  unfold add_path in *. by rewrite Hn, Hp in Ho.
Qed.

Lemma find_key_remove st d p n (ho : option bool) k :
  find_key (remove_stored_cookie_inner st d p n ho) k =
  if decide (¬ (k.1 = (d, p, n) ∧ selects ho k.2)) then find_key st k else None.
Proof.
  destruct k as [[[d' p'] n'] ho']. unfold find_key. simpl. rewrite find_entry_remove.
  repeat case_decide; naive_solver.
Qed.

Lemma add_represents `{IntoCookie C, IntoUri U} st l (c : C) ck (u : U) uri now :
  store_wf st → (next_creation_index st < u64_max)%Z → represents st l →
  into_cookie c = Some ck → into_uri u = Ok uri →
  represents (add st c u now) (sp_add l (inner ck) uri now).
Proof.
  intros Hwf Hlt Hr Hc Hu. unfold sp_add.
  destruct (_ ≫= canonical_host) as [h|] eqn:Hh;
    [|rewrite (add_not_accepted _ _ _ _ _ _ Hc Hu); [done|intros ?? []; congruence]].
  destruct (sp_domain _ _) as [d|] eqn:Hd.
  2: { rewrite (add_not_accepted _ _ _ _ _ _ Hc Hu); [done|].
       intros h' d' [Hh' _ Hd'%sp_domain_Some _]. congruence. }
  pose proof Hd as Hsd%sp_domain_Some.
  pose proof (shadowed_iff _ _ (c_name (inner ck)) d (add_path (inner ck) uri) now Hwf Hr) as Hov.
  case_decide as Hok.
  - rewrite (add_accepted _ _ _ _ _ h d now Hc Hu).
    2: { split; [done|destruct (is_https uri); naive_solver|done|].
         rewrite <- Hov in Hok. destruct Hok as [|[_ Ho]]; [by left|right].
         by apply not_true_iff_false. }
    destruct (arrives_expired _ _).
    + eapply (represents_remove st); [done| |intros k; apply find_key_remove].
      intros [[[[??]?]?]?]. unfold selects. naive_solver.
    + rewrite <- (stored_form_host_only _ d (add_path (inner ck) uri) now).
      by apply (represents_put st d _ (stored_form (inner ck) d _ now)).
  - rewrite (add_not_accepted _ _ _ _ _ _ Hc Hu); [done|].
    intros h' d' [Hh' Hs' Hd'%sp_domain_Some Ho']. assert (h' = h) as -> by congruence.
    assert (d' = d) as -> by congruence. apply Hok. destruct Ho' as [|Ho']; [by left|].
    destruct (decide (is_https uri = true)); [by left|right]. rewrite <- Hov. split; [naive_solver|congruence].
Qed.
(** Storing a cookie takes at most one index. *)
Lemma add_next `{IntoCookie C, IntoUri U} st (c : C) (u : U) now :
  store_wf st → (next_creation_index (add st c u now) <= next_creation_index st + 1)%Z.
Proof.
  intros Hwf. destruct (add_cases st c u now) as
    [->|(? & ? & ? & d & ? & c2 & [] & _ & _ & _ & _ & _ & _ & _ & ->)]; [lia|..].
  - unfold remove_stored_cookie. rewrite remove_next. lia.
  - match goal with |- context [insert_stored_cookie st ?d ?p ?c] =>
      rewrite (proj2 (insert_stored_cookie_eq st d p c)) end.
    destruct (saturating_add_1 _ (wf_next _ Hwf)) as [[-> _]|[-> _]]; repeat case_match; lia.
Qed.

(** The jar and the list after at most [n] cookies were offered. *)
Record sim (st : Store) (l : list (Key * RawCookie)) (n : nat) : Prop := {
  sim_wf : store_wf st;
  sim_next : (next_creation_index st <= Z.of_nat n)%Z;
  sim_rep : represents st l;
}.

Lemma sim_empty n : sim empty_store [] n.
Proof.
  split; [apply empty_store_wf|simpl; lia|]. exists []. split_and!; [|constructor|done].
  split; [constructor|]. intros k e. unfold find_key, find_entry, empty_store. cbn [cookies].
  rewrite lookup_empty. split; [by intros ?%elem_of_nil|done].
Qed.

Lemma sim_le st l n m : n <= m → sim st l n → sim st l m.
Proof. intros ? [???]. split; [done|lia|done]. Qed.

Lemma sim_add `{IntoCookie C, IntoUri U} st l n (c : C) (u : U) now :
  (Z.of_nat (S n) < u64_max)%Z → sim st l n →
  sim (add st c u now) (sp_offer l (into_cookie c) (into_uri u) now) (S n).
Proof.
  intros Hn [Hwf Hnext Hrep]. split; [by apply add_wf| |].
  - pose proof (add_next st c u now Hwf). lia.
  - destruct (into_cookie c) as [ck|] eqn:Hc; [destruct (into_uri u) as [uri|] eqn:Hu|].
    + apply add_represents; [done|lia|done..].
    + unfold add. by rewrite Hc, Hu.
    + unfold add. by rewrite Hc.
Qed.

Lemma sim_set_cookies st l n hs uri :
  (Z.of_nat (n + length hs) < u64_max)%Z → sim st l n →
  sim (set_cookies st hs uri) (sp_apply l (OpSetCookies hs uri)) (n + length hs).
Proof.
  revert st l n. unfold set_cookies. simpl.
  induction hs as [|[v now] hs IH]; intros st l n Hn Hs; csimpl in *; [by rewrite Nat.add_0_r|].
  destruct (Cookie_parse v) as [ck|]; simpl.
  - rewrite Nat.add_succ_r. apply (IH _ _ (S n)); [lia|].
    assert (Z.of_nat (S n) < u64_max)%Z as Hlt by lia.
    exact (sim_add st l n (inner ck) uri now Hlt Hs).
  - eapply sim_le; [|apply IH; [|exact Hs]]; lia.
Qed.

Lemma sim_remove `{IntoUri U} st l n c (u : U) :
  sim st l n → sim (remove st c u) (if into_uri u is Ok uri then sp_remove l (c_name c) uri else l) n.
Proof.
  intros [Hwf Hn Hr]. unfold remove, sp_remove. destruct (into_uri u) as [uri|]; [|done].
  destruct (uri_host uri) as [h|]; [|done]. simpl. destruct (canonical_host h) as [d|]; [|done].
  unfold remove_stored_cookies. split; [by apply remove_wf|by rewrite remove_next|].
  eapply (represents_remove st); [done| |intros k; apply find_key_remove].
  intros [[[[??]?]?]?]. unfold selects. naive_solver.
Qed.

Lemma sim_apply st l n o :
  (Z.of_nat (n + offered_by o) < u64_max)%Z → sim st l n →
  sim (jar_apply st o) (sp_apply l o) (n + offered_by o).
Proof.
  intros Hn Hs. destruct o as [C HC U HU c u now|U HU c u| |hs uri]; cbn [jar_apply offered_by] in *.
  - rewrite Nat.add_1_r. apply sim_add; [lia|done].
  - rewrite Nat.add_0_r. by apply sim_remove.
  - apply sim_empty.
  - by apply sim_set_cookies.
Qed.

Lemma sim_run_from ops st l n :
  (Z.of_nat (n + offers ops) < u64_max)%Z → sim st l n →
  sim (foldl jar_apply st ops) (foldl sp_apply l ops) (n + offers ops).
Proof.
  unfold offers. revert st l n.
  induction ops as [|o ops IH]; intros st l n Hn Hs; simpl in *; [by rewrite Nat.add_0_r|].
  rewrite Nat.add_assoc in *. apply IH; [lia|]. apply sim_apply; [lia|done].
Qed.

Lemma sim_run ops :
  (Z.of_nat (offers ops) < u64_max)%Z → sim (jar_run ops) (sp_run ops) (offers ops).
Proof. intros Hn. by apply (sim_run_from ops _ _ 0), sim_empty. Qed.
End simulation.

(** ** The queries *)

Lemma omap_bind {A B C} (f : B → option C) (g : A → list B) l :
  omap f (l ≫= g) = l ≫= λ x, omap f (g x).
Proof. induction l as [|x l IH]; [done|]. csimpl. by rewrite omap_app, IH. Qed.
Lemma omap_fmap {A B C} (f : B → option C) (g : A → B) (l : list A) :
  omap f (g <$> l) = omap (λ x, f (g x)) l.
Proof. induction l as [|x l IH]; [done|]. csimpl. by rewrite IH. Qed.

Lemma fmap_of_bind {A B C} (f : B → C) (g : A → list B) l :
  f <$> (l ≫= g) = l ≫= λ x, f <$> g x.
Proof. induction l as [|x l IH]; [done|]. csimpl. by rewrite fmap_app, IH. Qed.

(** The entries that match a request and all entries, as views of the list. *)
Lemma matching_nested st uri h now :
  matching_cookies st uri h now =
  omap (λ x, if request_matches_cookie uri h x.1.1.1.1 x.1.1.1.2 (cookie x.2) now
             then Some (x.1.1.1.1, x.1.1.1.2, x.2) else None) (nested st).
Proof.
  unfold matching_cookies, nested. rewrite omap_bind. apply list_bind_ext; [|done].
  intros [d pm]. rewrite omap_bind. apply list_bind_ext; [|done]. intros [p sc].
  unfold scope_values. rewrite !omap_app, !omap_fmap.
  f_equal; apply list_omap_ext, Forall_Forall2_diag, Forall_forall; by intros [n e].
Qed.

Lemma all_entries_nested st : all_entries st = (λ x, (x.1.1.1.1, x.2)) <$> nested st.
Proof.
  unfold all_entries, nested. rewrite fmap_of_bind. apply list_bind_ext; [|done].
  intros [d pm]. simpl. rewrite fmap_of_bind. apply list_bind_ext; [|done]. intros [p sc].
  unfold scope_values. simpl. rewrite !fmap_app, <- !list_fmap_compose. f_equal;
    apply list_fmap_ext; by intros ? [n e].
Qed.

Lemma omap_filter {A B} (b : A → bool) (f : A → B) (P : A → Prop) `{!∀ x, Decision (P x)} (l : list A) :
  (∀ x, x ∈ l → b x = true ↔ P x) →
  omap (λ x, if b x then Some (f x) else None) l = f <$> filter P l.
Proof.
  induction l as [|x l IH]; intros Hb; [done|]. csimpl. rewrite filter_cons.
  specialize (IH (λ y Hy, Hb y (list_elem_of_further _ _ _ Hy))).
  specialize (Hb x (list_elem_of_here _ _)).
  destruct (b x); case_decide; csimpl; rewrite ?IH; naive_solver.
Qed.

(** The least element is found whatever the order. *)
Lemma min_by_key_least {A} (f : A → Z) (l : list A) x :
  x ∈ l → (∀ y, y ∈ l → y = x ∨ (f x < f y)%Z) → min_by_key f l = Some x.
Proof.
  unfold min_by_key. intros Hx Hmin.
  assert (∀ acc, (acc = None ∧ x ∈ l ∨ acc = Some x ∨
                  ∃ y, acc = Some y ∧ (f x < f y)%Z ∧ x ∈ l) →
    foldl (λ acc x, match acc with
                    | None => Some x
                    | Some y => if (f x <? f y)%Z then Some x else Some y end) acc l = Some x)
    as Hgen; [|by apply Hgen; left].
  clear Hx. induction l as [|z l IH]; intros acc Hacc; simpl.
  - destruct Hacc as [[_ ?%elem_of_nil]|[->|(? & _ & _ & ?%elem_of_nil)]]; done.
  - apply IH; [intros y Hy; apply Hmin; by right|].
    assert (z = x ∨ (f x < f z)%Z) as Hz by (apply Hmin; by left).
    destruct Hacc as [[-> Hin]|[->|(y & -> & Hy & Hin)]].
    + apply elem_of_cons in Hin. naive_solver.
    + right. left. destruct (Z.ltb_spec (f z) (f x)); naive_solver lia.
    + apply elem_of_cons in Hin. destruct (Z.ltb_spec (f z) (f y)); naive_solver lia.
Qed.

Section queries.
Context `{HL : HostLib, UL : UriLib, HV : HeaderValueLib, TL : TimeLib, CL : CookieLib}.
Context (st : Store) (es : list (Key * CookieEntry)).
Hypothesis Hwf : store_wf st.
Hypothesis Hlt : (next_creation_index st < u64_max)%Z.
Hypothesis Hl : lists st es.
Hypothesis Hs : StronglySorted older es.

Lemma matching_es uri h now :
  matching_cookies st uri h now ≡ₚ
  (λ x, (x.1.1.1.1, x.1.1.1.2, x.2)) <$> filter (λ x,
     rfc_selected uri h x.1.1.1.1 x.1.1.1.2 x.1.2 (cookie x.2) now) es.
Proof.
  rewrite matching_nested, <- (lists_perm _ _ Hl).
  erewrite (omap_filter _ (λ x, (x.1.1.1.1, x.1.1.1.2, x.2))); [done|].
  intros [[[[d p] n] ho] e] Hin%(proj2 Hl). eapply request_matches_iff.
  by apply (wf_entry _ Hwf _ _ _ _ _ Hin).
Qed.

Lemma ordered_spec uri h now :
  ordered_cookies st uri h now = snd <$> sp_order (sp_selected (strip <$> es) uri h now).
Proof.
  unfold ordered_cookies, sp_order, sp_selected. rewrite filter_strip. cbn [strip fst snd].
  rewrite foldr_place_fmap, <- list_fmap_compose.
  set (sel := filter _ es).
  rewrite (sorted_permutation_unique cookie_order (matching_cookies st uri h now) _
    ((λ x, (x.1.1.1.1, x.1.1.1.2, x.2)) <$> foldr (place (λ x, length x.1.1.1.2)) [] sel)).
  - rewrite <- list_fmap_compose. done.
  - intros x y. by apply matching_order_unique.
  - apply Sorted_merge_sort, _.
  - apply StronglySorted_Sorted.
    assert (StronglySorted (then_by (λ x, length x.1.1.1.2) older)
      (foldr (place (λ x, length x.1.1.1.2)) [] sel)) as Hss
      by apply foldr_place_sorted, StronglySorted_filter, Hs.
    induction Hss as [|x k Hk IH Hx]; csimpl; constructor; [done|].
    apply Forall_fmap. eapply Forall_impl; [exact Hx|]. intros y.
    unfold then_by, older. intros [?|[??]]; [by left|right]. by split; [|apply Z.lt_le_incl].
  - apply merge_sort_Permutation.
  - by rewrite foldr_place_perm, matching_es.
Qed.

Lemma join_pairs_nil (l : list RawCookie) : join #"; " (pair_str <$> l) = [] → l = [].
Proof.
  destruct l as [|c [|c' l]]; [done|..]; csimpl; unfold pair_str at 1; by destruct (c_name c).
Qed.

Lemma cookies_for_spec uri version now :
  cookies_for st uri version now = sp_cookies (strip <$> es) uri version now.
Proof.
  unfold cookies_for, sp_cookies. destruct (uri_host uri) as [hs|]; simpl; [|done].
  destruct (canonical_host hs) as [h|]; [|done].
  rewrite ordered_spec, foldl_push_join. set (sel := sp_order _).
  rewrite <- (omap_fmap from_maybe_shared pair_str).
  rewrite (list_fmap_compose snd pair_str sel : (λ x, pair_str x.2) <$> sel = _).
  assert (∀ v : Cookies, match join #"; " (pair_str <$> sel.*2) with [] => Empty | _ => v end =
    if decide (pair_str <$> sel.*2 = []) then Empty else v) as Hj.
  { intros v. case_decide as Hn; [by rewrite Hn|].
    destruct (join _ _) eqn:Hjoin; [|done]. apply join_pairs_nil in Hjoin. by rewrite Hjoin in Hn. }
  destruct version; try done; by rewrite <- Hj; destruct (join _ _).
Qed.

(** The live entries in the order of their indices. *)
Lemma get_all_spec now : get_all st now = sp_view <$> sp_live (strip <$> es) now.
Proof.
  unfold get_all, sp_live. rewrite filter_strip. cbn [strip snd].
  set (sel := filter _ es). rewrite <- list_fmap_compose.
  set (g := λ x : Key * CookieEntry, (creation_index x.2, with_host (Cookie_from (cookie x.2)) x.1.1.1.1)).
  set (raw := omap _ (all_entries st)).
  assert (raw ≡ₚ g <$> sel) as Hraw.
  { unfold raw, sel. rewrite all_entries_nested, <- (lists_perm _ _ Hl), omap_fmap.
    rewrite <- (omap_filter (λ x, negb (cookie_is_expired (cookie x.2) now))).
    - erewrite list_omap_ext; [done|]. apply Forall_Forall2_diag, Forall_forall.
      intros x _. by destruct (cookie_is_expired _ _).
    - intros [k e] Hin%(proj2 Hl). rewrite negb_true_iff. by eapply live_expired. }
  rewrite (sorted_permutation_unique by_index raw _ (g <$> sel)).
  - by rewrite <- list_fmap_compose.
  - intros x y. rewrite Hraw, !list_elem_of_fmap.
    intros ([[[[d p] n] ho] e] & -> & [_ Hx]%list_elem_of_filter)
           ([[[[d' p'] n'] ho'] e'] & -> & [_ Hy]%list_elem_of_filter).
    apply (proj2 Hl) in Hx, Hy. unfold by_index, find_key in *. simpl in *. intros H1 H2.
    assert (creation_index e = creation_index e') as Hi by lia.
    destruct (wf_unique _ Hwf _ _ _ _ _ _ _ _ _ _ Hx Hy Hi) as [[= -> -> -> ->]|Hm].
    + rewrite Hx in Hy. by simplify_eq.
    + destruct (wf_index _ Hwf _ _ _ _ _ Hx) as [_ [|[]]]; lia.
  - apply Sorted_merge_sort, _.
  - apply StronglySorted_Sorted.
    pose proof (StronglySorted_filter older (λ x, live (cookie x.2) now) es Hs) as Hss.
    fold sel in Hss. clear Hraw. induction Hss as [|x k Hk IH Hx]; csimpl; constructor; [done|].
    apply Forall_fmap. eapply Forall_impl; [exact Hx|]. intros y. unfold older, by_index. simpl. lia.
  - apply merge_sort_Permutation.
  - by symmetry.
Qed.

(** The entries [get] and [contains] look at. *)
Definition entries_at (h : Host) (p n : str) : list CookieEntry :=
  match cookies st !! h ≫= (.!! p) with Some sc => scope_entries sc n | None => [] end.

Lemma elem_of_entries_at h p n e :
  e ∈ entries_at h p n ↔ ∃ ho, find_key st (h, p, n, ho) = Some e.
Proof.
  unfold entries_at, find_key, find_entry. simpl. destruct (cookies st !! h) as [pm|]; simpl.
  - destruct (pm !! p) as [sc|]; simpl; [apply elem_of_entries|]. set_solver.
  - set_solver.
Qed.

(** The least index is the first of the list. *)
Lemma first_entry h p n now :
  min_by_key creation_index
    (filter (λ e, cookie_is_expired (cookie e) now = false) (entries_at h p n)) =
  snd <$> head (filter (λ x, x.1.1 = (h, p, n) ∧ live (cookie x.2) now) es).
Proof.
  assert (∀ e, e ∈ filter (λ e, cookie_is_expired (cookie e) now = false) (entries_at h p n) ↔
    ∃ ho, ((h, p, n, ho), e) ∈ filter (λ x, x.1.1 = (h, p, n) ∧ live (cookie x.2) now) es) as Hin.
  { intros e. setoid_rewrite list_elem_of_filter. rewrite elem_of_entries_at.
    setoid_rewrite (proj2 Hl). split.
    - intros [Hx (ho & Hf)]. exists ho. split; [|done]. split; [done|]. by eapply live_expired.
    - intros (ho & [_ Hx] & Hf). split; [by eapply live_expired|eauto]. }
  assert (StronglySorted older (filter (λ x, x.1.1 = (h, p, n) ∧ live (cookie x.2) now) es))
    as Hss by by apply StronglySorted_filter.
  destruct (filter (λ x, x.1.1 = (h, p, n) ∧ live (cookie x.2) now) es) as [|[k e] r] eqn:Hf.
  - destruct (filter _ (entries_at h p n)) as [|e l]; [done|].
    destruct (proj1 (Hin e) (list_elem_of_here _ _)) as (ho & ?%elem_of_nil). done.
  - assert (k.1 = (h, p, n)) as Hk.
    { assert ((k, e) ∈ (k, e) :: r) as Hke by left. rewrite <- Hf in Hke.
      by apply list_elem_of_filter in Hke as [[? _] _]. }
    destruct k as [k ho]. simpl in Hk. subst k. simpl. apply min_by_key_least.
    + apply Hin. exists ho. by left.
    + intros y [ho' [[= _ ->]|Hy]%elem_of_cons]%Hin; [by left|right].
      apply StronglySorted_inv in Hss as [_ Hss]. rewrite Forall_forall in Hss.
      by apply (Hss _ Hy).
Qed.

Lemma get_spec `{IntoUri U} name (u : U) now :
  get st name u now = (uri ← result_ok (into_uri u); sp_get (strip <$> es) name uri now).
Proof.
  unfold get, sp_get, sp_live. destruct (into_uri u) as [uri|]; simpl; [|done].
  destruct (uri_host uri) as [hs|]; simpl; [|done].
  destruct (canonical_host hs) as [h|]; simpl; [|done].
  transitivity (e ← min_by_key creation_index (filter (λ e, cookie_is_expired (cookie e) now = false)
                      (entries_at h (uri_path uri) name));
                Some (with_host (Cookie_from (cookie e)) h)).
  { unfold entries_at. destruct (cookies st !! h) as [pm|]; simpl; [|done].
    by destruct (pm !! uri_path uri). }
  rewrite first_entry, list_filter_filter, filter_strip. cbn [strip fst snd].
  set (sel := filter _ es).
  destruct sel as [|[[[[d p] n] ho] e] r] eqn:Hsel; [done|]. simpl.
  assert (((d, p, n, ho), e) ∈ sel) as Hin by (rewrite Hsel; left).
  apply list_elem_of_filter in Hin as [[[= -> -> ->] _] _]. done.
Qed.

Lemma answers_spec : answers_as st (strip <$> es).
Proof.
  split.
  - apply cookies_for_spec.
  - apply get_all_spec.
  - intros U HU. apply get_spec.
  - intros U HU name u now. destruct (queries_agree st name u now) as (-> & _). by rewrite get_spec.
  - intros now. rewrite <- (length_fmap sp_view), <- get_all_spec. apply filter_expired_omap.
  - intros now. destruct (queries_agree st []
      {| uri_scheme := None; uri_authority := None; uri_path_and_query := None |} now) as (_ & _ & ->).
    rewrite get_all_spec. apply bool_decide_ext. by destruct (sp_live _ _).
  - intros U HU u uri h now Hu Hh. unfold matches. rewrite Hu, Hh, matching_es.
    unfold sp_selected. rewrite filter_strip, <- !list_fmap_compose. done.
Qed.
End queries.

Section claim.
Context `{HL : HostLib, UL : UriLib, HV : HeaderValueLib, TL : TimeLib, CL : CookieLib}.

(** The [Cookie] fields after a history. *)
Lemma run_cookies ops uri version now :
  (Z.of_nat (offers ops) < u64_max)%Z →
  cookies_for (jar_run ops) uri version now = sp_cookies (sp_run ops) uri version now.
Proof.
  intros Hn. destruct (sim_run ops Hn) as [Hwf Hnext (es & Hl & Hs & ->)].
  by apply cookies_for_spec; [|lia|..].
Qed.

Lemma offers_app ops ops' : offers (ops ++ ops') = offers ops + offers ops'.
Proof. unfold offers. induction ops; simpl; lia. Qed.

(** C3: The jar is a list of cookies in the order of their creation.  After
    any history of additions, [Set-Cookie] fields, removals and clears, every
    query ([Cookie] fields of every HTTP version, [get_all], [get],
    [contains], [len], [is_empty], [matches]) answers as the list does on
    which each operation acts as RFC 6265 says: a cookie that may be set
    takes the place of its predecessor, or a new place when its value
    changed; the header is the selected part of the list, longer paths
    first.  The nested hash maps and the creation counter do not show, as
    long as fewer cookies than the counter counts were offered. *)
Theorem jar_refines_list ops :
  (Z.of_nat (offers ops) < u64_max)%Z → answers_as (jar_run ops) (sp_run ops).
Proof.
  intros Hn. destruct (sim_run ops Hn) as [Hwf Hnext (es & Hl & Hs & ->)].
  by apply answers_spec; [|lia|..].
Qed.
End claim.

(** ** Examples *)
Module JarSpecExamples.
Import JarExamples.

(** Two cookies; the first one comes again with its value and keeps its
    place, then the second one with another value; an expired third one. *)
Definition track := simple #"t" #"9" None (Some #"/cart") None (Some 50%Z).
Definition history : list JarOp := [
  OpAdd sid shop 0; OpAdd lang shop 5; OpAdd track shop 6; OpAdd sid shop 7;
  OpAdd (simple #"lang" #"fr" (Some #".example.com") (Some #"/") None None) shop 8;
  OpAdd (simple #"t" #"9" None (Some #"/cart") None (Some 0%Z)) shop 9;
  OpSetCookies [({| hv_bytes := #"late=1"; hv_sensitive := false |}, 10%Z)] shop ].

(** At work: the list, and the header of the list. *)
Lemma history_list : (λ x, pair_str x.2) <$> sp_run history =
  [ #"sid=1"; #"lang=fr"; #"late=1" ].
Proof. by vm_compute. Qed.

Lemma jar_refines_list_witness :
  answers_as (jar_run history) (sp_run history) ∧
  cookies_for (jar_run history) shop HTTP_11 11 =
    Compressed {| hv_bytes := #"sid=1; late=1; lang=fr"; hv_sensitive := false |}.
Proof.
  assert (answers_as (jar_run history) (sp_run history)) as Ha
    by (apply (jar_refines_list history); by vm_compute).
  split; [exact Ha|]. rewrite (as_cookies _ _ Ha). by vm_compute.
Defined.
End JarSpecExamples.
