(* ===== verification/Lru.v ===== *)
(** * Interface to the [lru] crate

    [lru::LruCache] keeps key-value pairs in the order of their last use and
    evicts the least recently used pair when it is full.  Its operations are
    described by their effect on that list, most recent pair first.  The
    connection pool and the TLS session cache are written against it. *)

From S2P Require Import Prelude.

(** ** Association lists *)

Section assoc.
Context {K V : Type} `{EqDecision K}.
Implicit Types (k : K) (v : V) (l : list (K * V)).

Definition assoc k l : option V := snd <$> head (filter (λ p, p.1 = k) l).
Definition without k l : list (K * V) := filter (λ p, p.1 ≠ k) l.

Lemma assoc_cons k k' v l :
  assoc k ((k', v) :: l) = if decide (k' = k) then Some v else assoc k l.
Proof. unfold assoc. rewrite filter_cons. simpl. by case_decide. Qed.

Lemma assoc_None k l : assoc k l = None ↔ k ∉ l.*1.
Proof.
  induction l as [|[k' v] l IH]; [split; [set_solver|done]|].
  rewrite assoc_cons. simpl. rewrite not_elem_of_cons. case_decide; naive_solver.
Qed.

Lemma assoc_elem_of k v l : assoc k l = Some v → (k, v) ∈ l.
Proof.
  induction l as [|[k' v'] l IH]; [done|]. rewrite assoc_cons.
  case_decide; intros; simplify_eq; set_solver.
Qed.

Lemma elem_of_assoc k v l : NoDup l.*1 → (k, v) ∈ l ↔ assoc k l = Some v.
Proof.
  intros Hnd. split; [|apply assoc_elem_of].
  induction l as [|[k' v'] l IH]; [set_solver|]. csimpl in *.
  apply NoDup_cons in Hnd as [Hk Hnd]. rewrite assoc_cons, elem_of_cons.
  intros [[= -> ->]|Hin]; [by rewrite decide_True|].
  rewrite decide_False; [by apply IH|]. intros ->. apply Hk, list_elem_of_fmap. by exists (k, v).
Qed.

Lemma elem_of_without k p l : p ∈ without k l ↔ p ∈ l ∧ p.1 ≠ k.
Proof. unfold without. rewrite list_elem_of_filter. naive_solver. Qed.

Lemma assoc_without k k' l :
  assoc k' (without k l) = if decide (k' = k) then None else assoc k' l.
Proof.
  unfold without. induction l as [|[k0 v] l IH]; [by case_decide|].
  rewrite filter_cons, (assoc_cons k'). destruct (decide (k0 = k)) as [->|Hne].
  - rewrite decide_False by (simpl; naive_solver). rewrite IH. repeat case_decide; congruence.
  - rewrite decide_True by done. rewrite assoc_cons, IH. repeat case_decide; congruence.
Qed.

Lemma without_absent k l : assoc k l = None → without k l = l.
Proof.
  rewrite assoc_None. induction l as [|[k' v] l IH]; [done|]. simpl.
  intros Hk. unfold without in *. rewrite filter_cons, decide_True by set_solver.
  rewrite IH; set_solver.
Qed.

Lemma NoDup_without k l : NoDup l.*1 → NoDup (without k l).*1.
Proof. intros H. eapply sublist_NoDup; [exact H|]. apply fmap_sublist, sublist_filter. Qed.
End assoc.

(** ** The cache *)

Class LruLib (K : Type) `{EqDecision K} := {
  LruCache : Type → Type;
  lru_cap {V} : LruCache V → option nat;
  lru_entries {V} : LruCache V → list (K * V);
  (** [LruCache::unbounded], and [LruCache::new] at a capacity that is not
      zero. *)
  lru_new {V} : option nat → LruCache V;
  lru_peek {V} : K → LruCache V → option V;
  (** [get_mut] and [get_or_insert_mut], with the change made through the
      reference they return. *)
  lru_get_mut {V} : (V → V) → K → LruCache V → LruCache V;
  lru_get_or_insert_mut {V} : V → (V → V) → K → LruCache V → LruCache V;
  (** [iter_mut], with the change made to each value. *)
  lru_iter_mut {V} : (V → V) → LruCache V → LruCache V;
  lru_pop {V} : K → LruCache V → LruCache V;

  lru_new_spec {V} n : lru_entries (lru_new (V:=V) n) = [] ∧ lru_cap (lru_new (V:=V) n) = n;
  lru_NoDup {V} (c : LruCache V) : NoDup (lru_entries c).*1;
  lru_peek_spec {V} k (c : LruCache V) : lru_peek k c = assoc k (lru_entries c);
  lru_get_mut_spec {V} f k (c : LruCache V) :
    lru_entries (lru_get_mut f k c) =
      (match assoc k (lru_entries c) with
       | Some v => (k, f v) :: without k (lru_entries c)
       | None => lru_entries c
       end) ∧ lru_cap (lru_get_mut f k c) = lru_cap c;
  lru_get_or_insert_mut_spec {V} v0 f k (c : LruCache V) :
    lru_entries (lru_get_or_insert_mut v0 f k c) =
      (match assoc k (lru_entries c) with
       | Some v => (k, f v) :: without k (lru_entries c)
       | None => (k, f v0) :: match lru_cap c with
                              | Some n => take (n - 1) (lru_entries c)
                              | None => lru_entries c
                              end
       end) ∧ lru_cap (lru_get_or_insert_mut v0 f k c) = lru_cap c;
  lru_iter_mut_spec {V} f (c : LruCache V) :
    lru_entries (lru_iter_mut f c) = prod_map id f <$> lru_entries c ∧
    lru_cap (lru_iter_mut f c) = lru_cap c;
  lru_pop_spec {V} k (c : LruCache V) :
    lru_entries (lru_pop k c) = without k (lru_entries c) ∧ lru_cap (lru_pop k c) = lru_cap c;
}.

(** *** The reference cache: a list of pairs with distinct keys *)
Section ref.
Context {K : Type} `{EqDecision K}.

Record RefLruCache (V : Type) := {
  ref_cap : option nat;
  ref_entries : list (K * V);
  ref_NoDup : NoDup ref_entries.*1;
}.
Arguments ref_cap {V}.
Arguments ref_entries {V}.
Arguments ref_NoDup {V}.

Definition touch_entries {V} (f : V → V) (k : K) (l : list (K * V)) : list (K * V) :=
  match assoc k l with Some v => (k, f v) :: without k l | None => l end.
Definition insert_entries {V} (cap : option nat) (v0 : V) (f : V → V) (k : K)
    (l : list (K * V)) : list (K * V) :=
  match assoc k l with
  | Some v => (k, f v) :: without k l
  | None => (k, f v0) :: match cap with Some n => take (n - 1) l | None => l end
  end.

Lemma not_in_without {V} k (l : list (K * V)) : k ∉ (without k l).*1.
Proof. rewrite list_elem_of_fmap. intros ([k' v] & -> & [_ H]%elem_of_without). done. Qed.

Lemma touch_NoDup {V} f k (l : list (K * V)) : NoDup l.*1 → NoDup (touch_entries f k l).*1.
Proof.
  intros H. unfold touch_entries. destruct (assoc k l); [|done]. csimpl.
  apply NoDup_cons. split; [apply not_in_without|by apply NoDup_without].
Qed.

Lemma insert_NoDup {V} cap v0 f k (l : list (K * V)) :
  NoDup l.*1 → NoDup (insert_entries cap v0 f k l).*1.
Proof.
  intros H. unfold insert_entries. destruct (assoc k l) eqn:Hk; csimpl; apply NoDup_cons.
  - split; [apply not_in_without|by apply NoDup_without].
  - apply assoc_None in Hk. destruct cap as [n|]; [|done]. rewrite fmap_take. split.
    + intros Hin. apply Hk. eapply elem_of_sublist; [exact Hin|apply sublist_take].
    + eapply sublist_NoDup; [exact H|apply sublist_take].
Qed.

Lemma iter_NoDup {V} (f : V → V) (l : list (K * V)) :
  NoDup l.*1 → NoDup (prod_map id f <$> l).*1.
Proof. intros H. by rewrite <- list_fmap_compose. Qed.

#[export] Program Instance RefLru : LruLib K := {|
  LruCache := RefLruCache;
  lru_cap V := ref_cap;
  lru_entries V := ref_entries;
  lru_new V n := {| ref_cap := n; ref_entries := []; ref_NoDup := NoDup_nil_2 |};
  lru_peek V k c := assoc k (ref_entries c);
  lru_get_mut V f k c :=
    {| ref_cap := ref_cap c; ref_entries := touch_entries f k (ref_entries c);
       ref_NoDup := touch_NoDup f k _ (ref_NoDup c) |};
  lru_get_or_insert_mut V v0 f k c :=
    {| ref_cap := ref_cap c; ref_entries := insert_entries (ref_cap c) v0 f k (ref_entries c);
       ref_NoDup := insert_NoDup (ref_cap c) v0 f k _ (ref_NoDup c) |};
  lru_iter_mut V f c :=
    {| ref_cap := ref_cap c; ref_entries := prod_map id f <$> ref_entries c;
       ref_NoDup := iter_NoDup f _ (ref_NoDup c) |};
  lru_pop V k c :=
    {| ref_cap := ref_cap c; ref_entries := without k (ref_entries c);
       ref_NoDup := NoDup_without k _ (ref_NoDup c) |};
|}.
Solve Obligations with (intros; first [apply ref_NoDup|done]).
End ref.

(** [len], [peek_lru] and [pop_lru]: the least recently used pair is the last
    one. *)
Section least_recent.
Context {K : Type} `{EqDecision K} `{LL : !LruLib K} {V : Type}.

Definition lru_len (c : LruCache V) : nat := length (lru_entries c).
Definition lru_peek_lru (c : LruCache V) : option (K * V) := last (lru_entries c).
Definition lru_pop_lru (c : LruCache V) : option (K * V) * LruCache V :=
  match lru_peek_lru c with
  | Some (k, v) => (Some (k, v), lru_pop k c)
  | None => (None, c)
  end.
End least_recent.

(** ** Reading after writing *)
Section peek.
Context {K : Type} `{EqDecision K} `{LL : !LruLib K} {V : Type}.
Implicit Types (c : LruCache V) (k : K).

Lemma peek_new n k : lru_peek k (lru_new (V:=V) n) = None.
Proof. rewrite lru_peek_spec. by destruct (lru_new_spec (V:=V) n) as [-> _]. Qed.

Lemma peek_get_mut f k c k' :
  lru_peek k' (lru_get_mut f k c) = if decide (k' = k) then f <$> lru_peek k c else lru_peek k' c.
Proof.
  rewrite !lru_peek_spec. destruct (lru_get_mut_spec f k c) as [-> _].
  destruct (assoc k (lru_entries c)) eqn:Hk.
  - rewrite assoc_cons, assoc_without. repeat case_decide; naive_solver.
  - case_decide; naive_solver.
Qed.

Lemma peek_pop k c k' :
  lru_peek k' (lru_pop k c) = if decide (k' = k) then None else lru_peek k' c.
Proof.
  rewrite !lru_peek_spec. destruct (lru_pop_spec k c) as [-> _]. apply assoc_without.
Qed.

Lemma peek_iter_mut f c k : lru_peek k (lru_iter_mut f c) = f <$> lru_peek k c.
Proof.
  rewrite !lru_peek_spec. destruct (lru_iter_mut_spec f c) as [-> _].
  induction (lru_entries c) as [|[k' v] l IH]; [done|]. csimpl.
  rewrite !assoc_cons, IH. by case_decide.
Qed.

Lemma assoc_take k n (l : list (K * V)) v : assoc k (take n l) = Some v → assoc k l = Some v.
Proof.
  revert n. induction l as [|[k' v'] l IH]; intros [|n]; try done. simpl.
  rewrite !assoc_cons. case_decide; [done|apply IH].
Qed.

(** The key itself is there afterwards; another key may have been evicted. *)
Lemma peek_get_or_insert_mut v0 f k c :
  lru_peek k (lru_get_or_insert_mut v0 f k c) = Some (f (default v0 (lru_peek k c))).
Proof.
  rewrite !lru_peek_spec. destruct (lru_get_or_insert_mut_spec v0 f k c) as [-> _].
  destruct (assoc k (lru_entries c)); by rewrite assoc_cons, decide_True.
Qed.

Lemma peek_get_or_insert_mut_ne v0 f k c k' v :
  k' ≠ k → lru_peek k' (lru_get_or_insert_mut v0 f k c) = Some v → lru_peek k' c = Some v.
Proof.
  intros Hne. rewrite !lru_peek_spec. destruct (lru_get_or_insert_mut_spec v0 f k c) as [-> _].
  destruct (assoc k (lru_entries c)); rewrite assoc_cons, decide_False by done.
  - by rewrite assoc_without, decide_False.
  - destruct (lru_cap c); [apply assoc_take|done].
Qed.

(** The pairs of the cache after an insertion are the new pair and pairs that
    were there. *)
Lemma insert_entries_sublist v0 f k c :
  ∃ l, lru_entries (lru_get_or_insert_mut v0 f k c) = (k, f (default v0 (lru_peek k c))) :: l ∧
       l `sublist_of` without k (lru_entries c).
Proof.
  rewrite lru_peek_spec. destruct (lru_get_or_insert_mut_spec v0 f k c) as [-> _].
  destruct (assoc k (lru_entries c)) eqn:Hk; eexists; split; try done.
  rewrite without_absent by done. destruct (lru_cap c); [apply sublist_take|done].
Qed.

(** A bounded cache never holds more pairs than its capacity. *)
Definition lru_bounded c : Prop :=
  match lru_cap c with Some n => length (lru_entries c) <= n | None => True end.

Lemma length_without k (l : list (K * V)) : length (without k l) <= length l.
Proof. apply sublist_length, sublist_filter. Qed.

Lemma length_without_lt k v (l : list (K * V)) :
  assoc k l = Some v → S (length (without k l)) <= length l.
Proof.
  induction l as [|[k' v'] l IH]; [done|]. rewrite assoc_cons. unfold without in *.
  rewrite filter_cons. case_decide as Hk; simpl.
  - intros _. rewrite decide_False by naive_solver. pose proof (length_without k l).
    unfold without in *. lia.
  - rewrite decide_True by done. intros H%IH. simpl. lia.
Qed.

Lemma bounded_get_or_insert_mut v0 f k c :
  lru_cap c ≠ Some 0 → lru_bounded c → lru_bounded (lru_get_or_insert_mut v0 f k c).
Proof.
  unfold lru_bounded. destruct (lru_get_or_insert_mut_spec v0 f k c) as [-> ->].
  destruct (lru_cap c) as [n|]; [|done]. intros Hn Hb.
  destruct (assoc k (lru_entries c)) eqn:Hk; simpl.
  - apply length_without_lt in Hk. lia.
  - rewrite length_take. assert (n ≠ 0) by congruence. lia.
Qed.

Lemma bounded_get_mut f k c : lru_bounded c → lru_bounded (lru_get_mut f k c).
Proof.
  unfold lru_bounded. destruct (lru_get_mut_spec f k c) as [-> ->].
  destruct (lru_cap c) as [n|]; [|done]. intros Hb.
  destruct (assoc k (lru_entries c)) eqn:Hk; simpl; [|done]. apply length_without_lt in Hk. lia.
Qed.

Lemma bounded_pop k c : lru_bounded c → lru_bounded (lru_pop k c).
Proof.
  unfold lru_bounded. destruct (lru_pop_spec k c) as [-> ->].
  destruct (lru_cap c) as [n|]; [|done]. intros Hb. pose proof (length_without k (lru_entries c)). lia.
Qed.

Lemma bounded_iter_mut f c : lru_bounded c → lru_bounded (lru_iter_mut f c).
Proof.
  unfold lru_bounded. destruct (lru_iter_mut_spec f c) as [-> ->]. by rewrite length_fmap.
Qed.
End peek.
