(* ===== verification/Pool.v ===== *)
(** * The connection pool: its data and its operations

    [src/client/layer/client/pool.rs].  The state behind the pool's mutex is
    [PoolInner]; a method that takes the lock is a function on it.  Instants
    and durations are nanoseconds.  Whether a connection is open is a fact
    about the world at the time of the call, so the methods take it as an
    argument; so are the answers of the oneshot channels.  A failed [expect]
    is [None]. *)

From S2P Require Import Prelude Lru.

(** ** Poolable values *)

Inductive Ver := Auto | Http2.

Inductive Reservation (T : Type) :=
| Shared (to_insert to_return : T)
| Unique (value : T).
Arguments Shared {T}.
Arguments Unique {T}.

(** A shared reservation is two handles of the same connection. *)
Class Poolable (T : Type) := {
  reserve : T → Reservation T;
  can_share : T → bool;
  reserve_spec x : reserve x = if can_share x then Shared x x else Unique x;
}.

(** [PoolClient] of [client.rs]; handles to the same connection are equal. *)
Inductive PoolTx (H1 H2 : Type) :=
| TxHttp1 (tx : H1)
| TxHttp2 (tx : H2).
Arguments TxHttp1 {H1 H2}.
Arguments TxHttp2 {H1 H2}.

Record PoolClient (C H1 H2 : Type) := {
  conn_info : C;
  tx : PoolTx H1 H2;
}.
Arguments conn_info {C H1 H2}.
Arguments tx {C H1 H2}.

Definition is_http2 {C H1 H2} (self : PoolClient C H1 H2) : bool :=
  match tx self with TxHttp1 _ => false | TxHttp2 _ => true end.
Definition is_http1 {C H1 H2} (self : PoolClient C H1 H2) : bool := negb (is_http2 self).

Definition PoolClient_reserve {C H1 H2} (self : PoolClient C H1 H2) :
    Reservation (PoolClient C H1 H2) :=
  match tx self with
  | TxHttp1 t => Unique {| conn_info := conn_info self; tx := TxHttp1 t |}
  | TxHttp2 t =>
    let b := {| conn_info := conn_info self; tx := TxHttp2 t |} in
    let a := {| conn_info := conn_info self; tx := TxHttp2 t |} in
    Shared a b
  end.

#[export] Program Instance PoolClient_Poolable C H1 H2 : Poolable (PoolClient C H1 H2) := {|
  reserve := PoolClient_reserve;
  can_share := is_http2;
|}.
Next Obligation. intros C H1 H2 [c []]; done. Qed.

(** ** The pool *)

Record Idle (T : Type) := {
  idle_at : Z;
  value : T;
}.
Arguments idle_at {T}.
Arguments value {T}.

Record Config := {
  idle_timeout : option Z;
  cfg_max_idle_per_host : nat;
  max_pool_size : option nat;
}.

Definition Config_is_enabled (c : Config) : bool := 0 <? cfg_max_idle_per_host c.

(** [Expiration::expires]: [saturating_duration_since] is never negative. *)
Definition expires (timeout : option Z) (instant now : Z) : bool :=
  match timeout with
  | Some timeout => (timeout <? Z.max 0 (now - instant))%Z
  | None => false
  end.

(** [MIN_CHECK]: 90 ms. *)
Definition MIN_CHECK : Z := 90 * 1000000.

Section pool.
Context {T K : Type} `{Countable K, LL : !LruLib K, PT : Poolable T}.

(** A waiting sender is the number of its channel.  [idle_interval_ref]
    records whether the interval task has been spawned; [timer_is_empty] is
    what the timer answers. *)
Record PoolInner := {
  connecting : gset K;
  idle : LruCache (list (Idle T));
  max_idle_per_host : nat;
  waiters : gmap K (list nat);
  idle_interval_ref : bool;
  timer_is_empty : bool;
  timeout : option Z;
}.

Definition set_idle (i : LruCache (list (Idle T))) (p : PoolInner) : PoolInner :=
  {| connecting := connecting p; idle := i; max_idle_per_host := max_idle_per_host p;
     waiters := waiters p; idle_interval_ref := idle_interval_ref p;
     timer_is_empty := timer_is_empty p; timeout := timeout p |}.
Definition set_waiters (w : gmap K (list nat)) (p : PoolInner) : PoolInner :=
  {| connecting := connecting p; idle := idle p; max_idle_per_host := max_idle_per_host p;
     waiters := w; idle_interval_ref := idle_interval_ref p;
     timer_is_empty := timer_is_empty p; timeout := timeout p |}.
Definition set_connecting (s : gset K) (p : PoolInner) : PoolInner :=
  {| connecting := s; idle := idle p; max_idle_per_host := max_idle_per_host p;
     waiters := waiters p; idle_interval_ref := idle_interval_ref p;
     timer_is_empty := timer_is_empty p; timeout := timeout p |}.

(** [Pool::new]; a disabled pool has no inner state. *)
Definition Pool_new (config : Config) (timer_empty : bool) : option PoolInner :=
  if Config_is_enabled config then
    Some {| connecting := ∅; idle := lru_new (max_pool_size config);
            max_idle_per_host := cfg_max_idle_per_host config; waiters := ∅;
            idle_interval_ref := false; timer_is_empty := timer_empty;
            timeout := idle_timeout config |}
  else None.

(** [Pool::connecting], under the lock: whether the HTTP/2 lock of the key was
    free, and the set with it taken. *)
Definition lock_connecting (key : K) (p : PoolInner) : bool * PoolInner :=
  if decide (key ∈ connecting p) then (false, p)
  else (true, set_connecting ({[key]} ∪ connecting p) p).

(** [IdlePopper::pop] on the vector from its end; the rest of the vector is
    returned from its end as well. *)
Fixpoint pop_back (is_open : T → bool) (tmo : option Z) (now : Z) (l : list (Idle T)) :
    option (Idle T) * list (Idle T) :=
  match l with
  | [] => (None, [])
  | entry :: l =>
    if negb (is_open (value entry)) then pop_back is_open tmo now l
    else if expires tmo (idle_at entry) now then pop_back is_open tmo now l
    else match reserve (value entry) with
         | Shared to_reinsert to_checkout =>
           (Some {| idle_at := idle_at entry; value := to_checkout |},
            {| idle_at := now; value := to_reinsert |} :: l)
         | Unique unique => (Some {| idle_at := idle_at entry; value := unique |}, l)
         end
  end.

Definition pop (is_open : T → bool) (tmo : option Z) (now : Z) (l : list (Idle T)) :
    option (Idle T) * list (Idle T) :=
  let '(e, l) := pop_back is_open tmo now (rev l) in (e, rev l).

(** The loop of [put] over the waiting senders: the senders left, the value
    left, and what was sent where. *)
Fixpoint put_loop (is_closed send_ok : nat → bool) (ws : list nat) (value : option T) :
    option (list nat * option T * list (nat * T)) :=
  match ws with
  | [] => Some ([], value, [])
  | tx :: ws =>
    if negb (is_closed tx) then
      reserved ← value;
      let '(value, reserved) := match reserve reserved with
                                | Shared to_keep to_send => (Some to_keep, to_send)
                                | Unique uniq => (None, uniq)
                                end in
      if send_ok tx then
        match value with
        | None => Some (ws, None, [(tx, reserved)])
        | Some _ =>
          '(ws, value, sent) ← put_loop is_closed send_ok ws value;
          Some (ws, value, (tx, reserved) :: sent)
        end
      else put_loop is_closed send_ok ws (Some reserved)
    else put_loop is_closed send_ok ws value
  end.

(** [spawn_idle_interval]: the period of the task it spawns, if it spawns
    one. *)
Definition spawn_idle_interval (p : PoolInner) : PoolInner * option Z :=
  if idle_interval_ref p then (p, None)
  else match timeout p with
       | None => (p, None)
       | Some dur =>
         if (dur =? 0)%Z then (p, None)
         else if timer_is_empty p then (p, None)
         else ({| connecting := connecting p; idle := idle p;
                  max_idle_per_host := max_idle_per_host p; waiters := waiters p;
                  idle_interval_ref := true; timer_is_empty := timer_is_empty p;
                  timeout := timeout p |}, Some (Z.max dur MIN_CHECK))
       end.

(** The idle list of a key. *)
Definition idle_list (p : PoolInner) (key : K) : list (Idle T) :=
  default [] (lru_peek key (idle p)).

(** The end of [put], for a value no waiter took. *)
Definition put_idle (p : PoolInner) (key : K) (v : T) (now : Z) : PoolInner :=
  let full := max_idle_per_host p <=? length (idle_list p key) in
  let i := lru_get_or_insert_mut []
             (λ l, if full then l else l ++ [{| idle_at := now; value := v |}]) key (idle p) in
  if full then set_idle i p else (spawn_idle_interval (set_idle i p)).1.

(** The pool, and what was sent on which channel. *)
Definition put (is_closed send_ok : nat → bool) (p : PoolInner) (key : K) (v : T) (now : Z) :
    option (PoolInner * list (nat * T)) :=
  if can_share v && bool_decide (is_Some (lru_peek key (idle p))) then Some (p, [])
  else
    '(p, v, sent) ← (match waiters p !! key with
                     | Some ws =>
                       '(ws, v, sent) ← put_loop is_closed send_ok ws (Some v);
                       Some (match ws with
                             | [] => set_waiters (delete key (waiters p)) p
                             | _ => set_waiters (<[key := ws]> (waiters p)) p
                             end, v, sent)
                     | None => Some (p, Some v, [])
                     end);
    Some (match v with Some v => put_idle p key v now | None => p end, sent).

(** [PoolInner::connected]. *)
Definition connected (p : PoolInner) (key : K) : PoolInner :=
  set_waiters (delete key (waiters p)) (set_connecting (connecting p ∖ {[key]}) p).

(** [PoolInner::clean_waiters]. *)
Definition clean_waiters (is_closed : nat → bool) (p : PoolInner) (key : K) : PoolInner :=
  match waiters p !! key with
  | None => p
  | Some ws =>
    match filter (λ tx, is_closed tx = false) ws with
    | [] => set_waiters (delete key (waiters p)) p
    | ws => set_waiters (<[key := ws]> (waiters p)) p
    end
  end.

(** [PoolInner::clear_expired]: every list is filtered, then the keys with
    empty lists are removed. *)
Definition retain_idle (is_open : T → bool) (dur now : Z) (l : list (Idle T)) : list (Idle T) :=
  filter (λ e, is_open (value e) = true ∧ ¬ (Z.max 0 (now - idle_at e) > dur)%Z) l.

Definition clear_expired (is_open : T → bool) (p : PoolInner) (now : Z) : option PoolInner :=
  dur ← timeout p;
  let i := lru_iter_mut (retain_idle is_open dur now) (idle p) in
  let keys_to_remove := (filter (λ kv, kv.2 = []) (lru_entries i)).*1 in
  Some (set_idle (foldl (λ i key, lru_pop key i) i keys_to_remove) p).

(** [Checkout::checkout], under the lock: the connection found, or a waiter
    registered unless the checkout waits already.  [fresh] is the channel
    that is created. *)
Definition checkout (is_open : T → bool) (p : PoolInner) (key : K) (waiting : bool) (fresh : nat)
    (now : Z) : option T * PoolInner :=
  let maybe_entry := l ← lru_peek key (idle p);
                     e ← (pop is_open (timeout p) now l).1;
                     Some (e, bool_decide ((pop is_open (timeout p) now l).2 = [])) in
  let p := set_idle (lru_get_mut (λ l, (pop is_open (timeout p) now l).2) key (idle p)) p in
  let '(entry, empty) := match maybe_entry with
                         | Some (e, empty) => (Some e, empty)
                         | None => (None, true)
                         end in
  let p := if empty then set_idle (lru_pop key (idle p)) p else p in
  let p := match entry, waiting with
           | None, false =>
             set_waiters (<[key := default [] (waiters p !! key) ++ [fresh]]> (waiters p)) p
           | _, _ => p
           end in
  (value <$> entry, p).
End pool.
Arguments PoolInner T K {_ _ _}.

(** ** What the operations do *)
Section behaviour.
Context {T K : Type} `{Countable K, LL : !LruLib K, PT : Poolable T}.
Implicit Types (p : PoolInner T K) (k : K) (v : T).

(** A connection that must not be handed out: closed, or idle for longer than
    the timeout. *)
Definition dead (is_open : T → bool) (tmo : option Z) (now : Z) (e : Idle T) : bool :=
  negb (is_open (value e)) || expires tmo (idle_at e) now.

(** What a reservation leaves in the list. *)
Definition kept (now : Z) (e : Idle T) : list (Idle T) :=
  if can_share (value e) then [{| idle_at := now; value := value e |}] else [].

Lemma pop_back_spec is_open tmo now l :
  (Forall (λ e, dead is_open tmo now e = true) l ∧ pop_back is_open tmo now l = (None, [])) ∨
  ∃ pre e post, l = pre ++ e :: post ∧ Forall (λ e, dead is_open tmo now e = true) pre ∧
    dead is_open tmo now e = false ∧
    pop_back is_open tmo now l = (Some e, kept now e ++ post).
Proof.
  induction l as [|e l IH]; [by left|]. simpl.
  destruct (dead is_open tmo now e) eqn:Hd.
  - assert (pop_back is_open tmo now (e :: l) = pop_back is_open tmo now l) as Heq.
    { simpl. unfold dead in Hd. destruct (is_open (value e)); simpl in *; [by rewrite Hd|done]. }
    simpl in Heq. rewrite Heq. destruct IH as [[Hf Hp]|(pre & e' & post & -> & Hf & Hd' & Hp)].
    + left. split; [by constructor|done].
    + right. exists (e :: pre), e', post. split_and!; [done|by constructor|done|done].
  - right. exists [], e, l. split_and!; [done..|].
    unfold dead in Hd. apply orb_false_iff in Hd as [-> ->]. unfold kept.
    rewrite reserve_spec. destruct e; by destruct (can_share _).
Qed.

(** The connection taken is the usable one that became idle last; everything
    behind it is dropped, and a shared one goes back with a new time. *)
Lemma pop_spec is_open tmo now l :
  (Forall (λ e, dead is_open tmo now e = true) l ∧ pop is_open tmo now l = (None, [])) ∨
  ∃ pre e post, l = pre ++ e :: post ∧ Forall (λ e, dead is_open tmo now e = true) post ∧
    dead is_open tmo now e = false ∧
    pop is_open tmo now l = (Some e, pre ++ kept now e).
Proof.
  unfold pop. destruct (pop_back_spec is_open tmo now (rev l)) as
    [[Hf ->]|(pre & e & post & Hl & Hf & Hd & ->)].
  - left. split; [|done]. rewrite <- (rev_involutive l). by apply List.Forall_rev.
  - right. exists (rev post), e, (rev pre). split_and!; [| |done|].
    + rewrite <- (rev_involutive l), Hl, rev_app_distr. simpl. by rewrite <- app_assoc.
    + by apply List.Forall_rev.
    + rewrite rev_app_distr. f_equal. f_equal. unfold kept. by destruct (can_share _).
Qed.

(** Taking a connection out of the pool.  If some idle connection of the
    key is open and has not outlived the idle timeout, the checkout gets the
    one of those that became idle last; the younger, unusable ones are
    dropped, a shareable one stays behind with the current time, and no waiter
    is registered.  Otherwise the key's list is dropped, and the checkout is
    registered as the last waiter unless it waits already. *)
Theorem checkout_spec is_open p k waiting fresh now :
  let '(r, p') := checkout is_open p k waiting fresh now in
  (∃ pre e post, idle_list p k = pre ++ e :: post ∧
     r = Some (value e) ∧ dead is_open (timeout p) now e = false ∧
     Forall (λ e, dead is_open (timeout p) now e = true) post ∧
     idle_list p' k = pre ++ kept now e ∧ waiters p' = waiters p) ∨
  (r = None ∧ Forall (λ e, dead is_open (timeout p) now e = true) (idle_list p k) ∧
   idle_list p' k = [] ∧
   waiters p' = if waiting then waiters p
                else <[k := default [] (waiters p !! k) ++ [fresh]]> (waiters p)).
Proof.
  unfold checkout, idle_list. destruct (lru_peek k (idle p)) as [l|] eqn:Hl; simpl.
  - destruct (pop_spec is_open (timeout p) now l) as
      [[Hf Hp]|(pre & e & post & -> & Hf & Hd & Hp)]; rewrite Hp; simpl.
    + right. split_and!; [done..| |by destruct waiting].
      destruct waiting; simpl; by rewrite peek_pop, decide_True.
    + left. exists pre, e, post. split_and!; try done.
      * case_bool_decide as He; simpl; rewrite ?peek_pop, ?peek_get_mut, decide_True by done.
        { by rewrite He. }
        by rewrite Hl; simpl; rewrite Hp.
      * by case_bool_decide.
  - right. split_and!; [done..| |by destruct waiting].
    destruct waiting; simpl; by rewrite peek_pop, decide_True.
Qed.

Lemma put_loop_sent is_closed send_ok ws v :
  let live := filter (λ tx, is_closed tx = false ∧ send_ok tx = true) ws in
  ∃ ws' r sent, put_loop is_closed send_ok ws (Some v) = Some (ws', r, sent) ∧
    if can_share v then ws' = [] ∧ r = Some v ∧ sent = (λ tx, (tx, v)) <$> live
    else match live with
         | [] => ws' = [] ∧ r = Some v ∧ sent = []
         | tx :: _ => r = None ∧ sent = [(tx, v)] ∧
             ∃ pre, ws = pre ++ tx :: ws' ∧
               Forall (λ tx, ¬ (is_closed tx = false ∧ send_ok tx = true)) pre
         end.
Proof.
  simpl. induction ws as [|tx ws IH]; simpl.
  { exists [], (Some v), []. by destruct (can_share v). }
  destruct IH as (ws' & r & sent & Heq & IH).
  rewrite filter_cons. destruct (decide (is_closed tx = false ∧ send_ok tx = true)) as [[Hc Hs]|Hn].
  - rewrite Hc, Hs, reserve_spec. simpl. destruct (can_share v) eqn:Hv; simpl.
    + rewrite Heq. simpl. destruct IH as (-> & -> & ->). eauto 10.
    + exists ws, None, [(tx, v)]. split_and!; try done. by exists [].
  - exists ws', r, sent. split.
    { destruct (is_closed tx), (send_ok tx); simpl; try naive_solver.
      rewrite reserve_spec. by destruct (can_share v). }
    destruct (can_share v); [done|]. destruct (filter _ ws); [done|].
    destruct IH as (? & ? & pre & -> & Hpre). split_and!; [done..|].
    exists (tx :: pre). split; [done|by constructor].
Qed.

Lemma waiters_put_idle p k v now : waiters (put_idle p k v now) = waiters p.
Proof.
  unfold put_idle, spawn_idle_interval. destruct (_ <=? _); [done|].
  simpl. by repeat case_match.
Qed.

Lemma idle_put_idle p k v now :
  idle_list (put_idle p k v now) k =
  if max_idle_per_host p <=? length (idle_list p k) then idle_list p k
  else idle_list p k ++ [{| idle_at := now; value := v |}].
Proof.
  unfold put_idle. destruct (_ <=? _) eqn:Hm; unfold idle_list, spawn_idle_interval; simpl.
  - by rewrite peek_get_or_insert_mut.
  - repeat case_match; simpl; by rewrite peek_get_or_insert_mut.
Qed.

(** The waiters of a key after some were served; no empty queue is kept. *)
Definition queue (ws : list nat) : option (list nat) :=
  match ws with [] => None | _ => Some ws end.

(** The three outcomes of [put]. *)
Inductive put_outcome (live : list nat) p k v now : PoolInner T K → list (nat * T) → Prop :=
| put_existing :
    can_share v = true → is_Some (lru_peek k (idle p)) → put_outcome live p k v now p []
| put_served tx tail ws pre p' :
    can_share v = false → live = tx :: tail →
    waiters p !! k = Some (pre ++ tx :: ws) → (∀ tx, tx ∈ pre → tx ∉ live) →
    p' = set_waiters (partial_alter (λ _, queue ws) k (waiters p)) p →
    put_outcome live p k v now p' [(tx, v)]
| put_kept p' :
    (can_share v = true → lru_peek k (idle p) = None) → (can_share v = false → live = []) →
    p' = put_idle (set_waiters (delete k (waiters p)) p) k v now →
    put_outcome live p k v now p' ((λ tx, (tx, v)) <$> live).

Lemma set_waiters_same p k : waiters p !! k = None → set_waiters (delete k (waiters p)) p = p.
Proof. intros Hk. rewrite delete_id by done. by destruct p. Qed.

Lemma put_outcome_spec is_closed send_ok p k v now :
  ∃ p' sent, put is_closed send_ok p k v now = Some (p', sent) ∧
    put_outcome (filter (λ tx, is_closed tx = false ∧ send_ok tx = true)
                   (default [] (waiters p !! k))) p k v now p' sent.
Proof.
  unfold put. destruct (can_share v) eqn:Hv; simpl; [case_bool_decide as Hi; simpl|].
  { eexists _, _. split; [done|]. by apply put_existing. }
  all: destruct (waiters p !! k) as [ws|] eqn:Hw; simpl.
  2,4: eexists _, _; split; [done|]; apply (put_kept []); [|done|by rewrite set_waiters_same].
  2: intros; by apply eq_None_not_Some.
  2: congruence.
  all: destruct (put_loop_sent is_closed send_ok ws v) as (ws' & r & sent & -> & Hs);
    rewrite Hv in Hs; simpl.
  - destruct Hs as (-> & -> & ->). eexists _, _. split; [done|].
    apply put_kept; [intros; by apply eq_None_not_Some|congruence|done].
  - destruct (filter _ ws) as [|tx l] eqn:Hl.
    + destruct Hs as (-> & -> & ->). eexists _, _. split; [done|].
      apply (put_kept []); [congruence|done|done].
    + destruct Hs as (-> & -> & pre & -> & Hpre).
      eexists _, _. split; [done|]. eapply (put_served _ _ _ _ _ tx l ws' pre); try done.
      * intros tx' Htx'. rewrite <- Hl, list_elem_of_filter. rewrite Forall_forall in Hpre.
        naive_solver.
      * destruct ws'; simpl; f_equal.
Qed.

(** Returning a connection to an enabled pool.  A connection that cannot
    be shared goes to the first waiter that still listens, and only to it; if
    none does, the dead waiters are forgotten and it becomes idle, unless the
    key has its maximum of idle connections.  A shareable connection is
    dropped if the key has an idle list; otherwise every listening waiter gets
    a handle and one becomes idle.  The [expect] in the loop never fails. *)
Theorem put_spec is_closed send_ok p k v now :
  0 < max_idle_per_host p →
  let live := filter (λ tx, is_closed tx = false ∧ send_ok tx = true)
                (default [] (waiters p !! k)) in
  let entry := {| idle_at := now; value := v |} in
  ∃ p' sent, put is_closed send_ok p k v now = Some (p', sent) ∧
  if can_share v then
    if decide (is_Some (lru_peek k (idle p))) then p' = p ∧ sent = []
    else sent = (λ tx, (tx, v)) <$> live ∧ waiters p' = delete k (waiters p) ∧
         idle_list p' k = [entry]
  else match live with
       | tx :: _ =>
         sent = [(tx, v)] ∧ idle p' = idle p ∧
         ∃ pre ws, waiters p !! k = Some (pre ++ tx :: ws) ∧ (∀ tx, tx ∈ pre → tx ∉ live) ∧
           waiters p' = partial_alter (λ _, queue ws) k (waiters p)
       | [] =>
         sent = [] ∧ waiters p' = delete k (waiters p) ∧
         idle_list p' k = if decide (max_idle_per_host p <= length (idle_list p k))
                          then idle_list p k else idle_list p k ++ [entry]
       end.
Proof.
  intros Hmax live entry.
  destruct (put_outcome_spec is_closed send_ok p k v now) as (p' & sent & -> & Ho).
  exists p', sent. split; [done|]. fold live in Ho.
  destruct Ho as [Hv Hi|tx tail ws pre p' Hv Hl Hw Hpre ->|p' Hs Hu ->].
  - by rewrite Hv, decide_True.
  - rewrite Hv, Hl. split_and!; try done. exists pre, ws. by rewrite <- Hl.
  - rewrite waiters_put_idle, idle_put_idle. simpl.
    change (idle_list (set_waiters _ p) k) with (idle_list p k).
    destruct (can_share v).
    + rewrite (decide_False (P := is_Some _)) by (rewrite Hs by done; by intros []).
      split_and!; [done..|]. unfold idle_list. rewrite Hs by done. simpl.
      destruct (max_idle_per_host p); [lia|done].
    + rewrite Hu by done. split_and!; [done..|].
      case_decide as Hm; destruct (_ <=? _) eqn:He; try done;
        [apply Nat.leb_gt in He; lia|apply Nat.leb_le in He; lia].
Qed.

(** *** Eviction *)

Lemma peek_pops ks (i : LruCache (list (Idle T))) k :
  lru_peek k (foldl (λ i k, lru_pop k i) i ks) =
  if decide (k ∈ ks) then None else lru_peek k i.
Proof.
  revert i. induction ks as [|k' ks IH]; intros i; simpl; [done|].
  rewrite IH, peek_pop. repeat case_decide; set_solver.
Qed.

Lemma peek_empty_key (i : LruCache (list (Idle T))) k :
  k ∈ (filter (λ kv, kv.2 = []) (lru_entries i)).*1 ↔ lru_peek k i = Some [].
Proof.
  rewrite lru_peek_spec, <- (elem_of_assoc k [] (lru_entries i)) by apply lru_NoDup.
  rewrite list_elem_of_fmap. setoid_rewrite list_elem_of_filter. split.
  - intros ([k' l] & -> & Hl & Hin). simpl in *. by subst.
  - intros Hin. by exists (k, []).
Qed.

Lemma peek_clear_expired is_open p p' now k dur :
  timeout p = Some dur → clear_expired is_open p now = Some p' →
  lru_peek k (idle p') =
    match lru_peek k (idle p) with
    | Some l => if decide (retain_idle is_open dur now l = []) then None
                else Some (retain_idle is_open dur now l)
    | None => None
    end.
Proof.
  intros Ht. unfold clear_expired. rewrite Ht. simpl. intros [= <-]. simpl.
  rewrite peek_pops. case_decide as Hin; rewrite peek_empty_key, peek_iter_mut in Hin;
    rewrite ?peek_iter_mut; destruct (lru_peek k (idle p)) as [l|]; simpl in *;
    repeat case_decide; congruence.
Qed.

(** The idle task keeps exactly the connections that are open and have
    not been idle for longer than the timeout, in their order, removes the
    keys that have none left, and touches nothing else. *)
Theorem clear_expired_spec is_open p now dur :
  timeout p = Some dur →
  ∃ p', clear_expired is_open p now = Some p' ∧
    (∀ k, idle_list p' k = filter (λ e, dead is_open (Some dur) now e = false) (idle_list p k)) ∧
    (∀ k, is_Some (lru_peek k (idle p')) ↔ idle_list p' k ≠ []) ∧
    waiters p' = waiters p ∧ connecting p' = connecting p.
Proof.
  intros Ht. assert (is_Some (clear_expired is_open p now)) as [p' Hp].
  { unfold clear_expired. rewrite Ht. by eexists. }
  exists p'. split; [done|]. pose proof (λ k, peek_clear_expired _ _ _ _ k _ Ht Hp) as Hk.
  assert (∀ l, retain_idle is_open dur now l =
               filter (λ e, dead is_open (Some dur) now e = false) l) as Hf.
  { intros l. apply list_filter_iff. intros e. unfold dead, expires.
    rewrite orb_false_iff, negb_false_iff, Z.ltb_ge. split; intros [? ?]; split; done || lia. }
  split_and!.
  - intros k. unfold idle_list. rewrite Hk. destruct (lru_peek k (idle p)); [|done]. simpl.
    rewrite <- Hf. by case_decide.
  - intros k. unfold idle_list. rewrite Hk. destruct (lru_peek k (idle p)); simpl.
    + case_decide; simpl; [split; [by intros []|done]|]. split; [done|by eexists].
    + split; [by intros []|done].
  - unfold clear_expired in Hp. rewrite Ht in Hp. by simplify_eq/=.
  - unfold clear_expired in Hp. rewrite Ht in Hp. by simplify_eq/=.
Qed.
End behaviour.

(** ** Examples *)
Module PoolExamples.
Definition h1 (n : nat) : PoolClient nat nat nat := {| conn_info := n; tx := TxHttp1 n |}.
Definition h2 (n : nat) : PoolClient nat nat nat := {| conn_info := n; tx := TxHttp2 n |}.
Definition entry (t : Z) (n : nat) : Idle (PoolClient nat nat nat) :=
  {| idle_at := t; value := h1 n |}.

(** Two connections of key 7 are idle, one key waits. *)
Definition cfg : Config :=
  {| idle_timeout := Some 100%Z; cfg_max_idle_per_host := 2; max_pool_size := Some 3 |}.
Definition some_pool : PoolInner (PoolClient nat nat nat) nat :=
  {| connecting := ∅;
     idle := lru_get_or_insert_mut [] (λ _, [entry 10 1; entry 20 2]) 7 (lru_new (Some 3));
     max_idle_per_host := 2; waiters := {[ 8 := [5; 6] ]}; idle_interval_ref := true;
     timer_is_empty := false; timeout := Some 100%Z |}.

(** Waiter 5 is gone, so waiter 6 gets the connection. *)
Lemma put_spec_witness :
  0 < max_idle_per_host some_pool ∧
  ∃ p' sent, put (Nat.eqb 5) (λ _, true) some_pool 8 (h1 3) 30 = Some (p', sent) ∧
    sent = [(6, h1 3)] ∧ idle p' = idle some_pool.
Proof.
  split; [by vm_compute; lia|].
  destruct (put_spec (Nat.eqb 5) (λ _, true) some_pool 8 (h1 3) 30) as (p' & sent & Hput & Hs).
  { vm_compute. lia. }
  exists p', sent. split; [exact Hput|]. vm_compute in Hs. destruct Hs as (Hs & Hi & _).
  split; [exact Hs|exact Hi].
Defined.

(** The first connection has been idle for too long, the second has not. *)
Lemma clear_expired_spec_witness :
  ∃ p', clear_expired (λ _, true) some_pool 115 = Some p' ∧ idle_list p' 7 = [entry 20 2].
Proof.
  destruct (clear_expired_spec (λ _, true) some_pool 115 100 eq_refl) as (p' & Hc & Hl & _).
  exists p'. split; [exact Hc|]. rewrite Hl. by vm_compute.
Defined.
End PoolExamples.
