(* ===== verification/PoolSystem.v ===== *)
(** * The connection pool in use

    The handles around the pool of [src/client/layer/client/pool.rs]
    ([Connecting], [Pooled], [Checkout]) and the system they form with the
    locked state and the channels between [put] and the waiting checkouts.
    Every step of [step] is one critical section or one drop; the invariants
    hold for every interleaving of them. *)

From S2P Require Import Prelude Lru Pool.

(** ** Handles *)

Inductive PoolError := PoolDisabled | CheckoutNoLongerWanted | CheckedOutClosedValue.

Definition is_canceled (e : PoolError) : bool :=
  match e with CheckedOutClosedValue => true | _ => false end.

(** A oneshot channel as its documentation describes it: nothing sent yet and
    both ends alive, a value sent, the receiver dropped, the sender dropped. *)
Inductive Chan (T : Type) :=
| Waiting
| Sent (v : T)
| RxDropped
| TxDropped.
Arguments Waiting {T}.
Arguments Sent {T}.
Arguments RxDropped {T}.
Arguments TxDropped {T}.

Section handles.
Context {T K : Type} `{Countable K, LL : !LruLib K, PT : Poolable T}.

(** [pl_pool] and [cn_pool] are whether the handle has a reference to the
    pool. *)
Record Pooled := {
  pl_value : T;
  is_reused : bool;
  pl_key : K;
  pl_pool : bool;
}.
Record Connecting := {
  cn_key : K;
  cn_pool : bool;
}.
Record Checkout := {
  co_key : K;
  co_waiter : option nat;
}.

Definition is_closed (c : gmap nat (Chan T)) (tx : nat) : bool :=
  match c !! tx with Some RxDropped | None => true | _ => false end.
Definition send_ok (c : gmap nat (Chan T)) (tx : nat) : bool :=
  match c !! tx with Some Waiting => true | _ => false end.
Definition poll_rx (c : gmap nat (Chan T)) (rx : nat) : poll (result T unit) :=
  match c !! rx with
  | Some (Sent v) => Ready (Ok v)
  | Some TxDropped => Ready (Err tt)
  | _ => Pending
  end.
(** Sending on channels, dropping senders, dropping a receiver. *)
Definition send_all (sent : list (nat * T)) (c : gmap nat (Chan T)) : gmap nat (Chan T) :=
  foldr (λ '(tx, v) c, <[tx := Sent v]> c) c sent.
Definition drop_tx (txs : list nat) (c : gmap nat (Chan T)) : gmap nat (Chan T) :=
  foldr (λ tx c, match c !! tx with Some Waiting => <[tx := TxDropped]> c | _ => c end) c txs.
Definition drop_rx (rx : nat) (c : gmap nat (Chan T)) : gmap nat (Chan T) :=
  match c !! rx with Some Waiting => <[rx := RxDropped]> c | _ => delete rx c end.

(** [Pool::connecting]; without a pool, or for HTTP/1, there is no lock. *)
Definition Pool_connecting (inner : option (PoolInner T K)) (key : K) (ver : Ver) :
    option Connecting * option (PoolInner T K) :=
  match ver, inner with
  | Http2, Some p =>
    let '(ok, p) := lock_connecting key p in
    (if ok then Some {| cn_key := key; cn_pool := true |} else None, Some p)
  | _, _ => (Some {| cn_key := key; cn_pool := false |}, inner)
  end.

(** [Connecting::alpn_h2]. *)
Definition alpn_h2 (self : Connecting) (inner : option (PoolInner T K)) :
    option Connecting * option (PoolInner T K) :=
  Pool_connecting inner (cn_key self) Http2.

(** The pool with its channels. *)
Definition World : Type := PoolInner T K * gmap nat (Chan T).

Definition w_put (w : World) (key : K) (v : T) (now : Z) : option World :=
  '(p, sent) ← put (is_closed w.2) (send_ok w.2) w.1 key v now;
  Some (p, send_all sent w.2).

(** [connected] drops the senders of the key. *)
Definition w_connected (w : World) (key : K) : World :=
  (connected w.1 key, drop_tx (default [] (waiters w.1 !! key)) w.2).

(** [Drop for Connecting]. *)
Definition drop_connecting (w : World) (cn : Connecting) : World :=
  if cn_pool cn then w_connected w (cn_key cn) else w.

(** [Pool::pooled] of an enabled pool, with the drop of the [Connecting] at
    its end. *)
Definition pooled (w : World) (cn : Connecting) (v : T) (now : Z) : option (Pooled * World) :=
  match reserve v with
  | Shared to_insert to_return =>
    w ← w_put w (cn_key cn) to_insert now;
    let w := w_connected w (cn_key cn) in
    Some ({| pl_value := to_return; is_reused := false; pl_key := cn_key cn;
             pl_pool := false |}, w)
  | Unique v =>
    Some ({| pl_value := v; is_reused := false; pl_key := cn_key cn; pl_pool := true |},
          drop_connecting w cn)
  end.

(** [Pool::pooled] of a disabled pool. *)
Definition pooled_disabled (cn : Connecting) (v : T) : Pooled :=
  {| pl_value := v; is_reused := false; pl_key := cn_key cn; pl_pool := false |}.

(** [Pool::reuse] of an enabled pool. *)
Definition reuse (key : K) (v : T) : Pooled :=
  {| pl_value := v; is_reused := true; pl_key := key; pl_pool := negb (can_share v) |}.

(** [Drop for Pooled]. *)
Definition drop_pooled (is_open : T → bool) (w : World) (pl : Pooled) (now : Z) :
    option World :=
  if negb (is_open (pl_value pl)) then Some w
  else if pl_pool pl then w_put w (pl_key pl) (pl_value pl) now
  else Some w.

(** [Checkout::poll_waiter]: the receiver is gone once it is ready. *)
Definition poll_waiter (is_open : T → bool) (c : gmap nat (Chan T)) (co : Checkout) :
    poll (option (result Pooled PoolError)) * Checkout * gmap nat (Chan T) :=
  let taken := {| co_key := co_key co; co_waiter := None |} in
  match co_waiter co with
  | None => (Ready None, taken, c)
  | Some rx =>
    match poll_rx c rx with
    | Ready (Ok v) =>
      (Ready (Some (if is_open v then Ok (reuse (co_key co) v) else Err CheckedOutClosedValue)),
       taken, delete rx c)
    | Pending => (Pending, co, c)
    | Ready (Err _) => (Ready (Some (Err CheckoutNoLongerWanted)), taken, delete rx c)
    end
  end.

(** [Future for Checkout] on an enabled pool. *)
Definition Checkout_poll (is_open : T → bool) (w : World) (co : Checkout) (fresh : nat)
    (now : Z) : poll (result Pooled PoolError) * Checkout * World :=
  match poll_waiter is_open w.2 co with
  | (Pending, co, c) => (Pending, co, (w.1, c))
  | (Ready (Some r), co, c) => (Ready r, co, (w.1, c))
  | (Ready None, co, c) =>
    let '(r, p) := checkout is_open w.1 (co_key co) false fresh now in
    match r with
    | Some v => (Ready (Ok (reuse (co_key co) v)), co, (p, c))
    | None => (Pending, {| co_key := co_key co; co_waiter := Some fresh |},
               (p, <[fresh := Waiting]> c))
    end
  end.

(** ** The system *)

Record Sys := {
  inner : PoolInner T K;
  chans : gmap nat (Chan T);
  checkouts : gmap nat Checkout;
  connectings : gmap nat Connecting;
  pooleds : gmap nat Pooled;
}.

Definition world (s : Sys) : World := (inner s, chans s).

(** The connections the pool is responsible for: idle ones, those on their way
    to a checkout, those a request holds. *)
Definition mvals {A} (f : A → list T) (m : gmap nat A) : list T := map_to_list m ≫= (f ∘ snd).
Definition chan_value (c : Chan T) : list T := match c with Sent v => [v] | _ => [] end.
Definition idle_values (l : list (K * list (Idle T))) : list T := l ≫= λ kl, value <$> kl.2.
Definition places (s : Sys) : list T :=
  idle_values (lru_entries (idle (inner s))) ++ mvals chan_value (chans s) ++
  mvals (λ pl, [pl_value pl]) (pooleds s).

Inductive step (s : Sys) : Sys → Prop :=
(** [Pool::checkout]. *)
| step_checkout i key :
    checkouts s !! i = None →
    step s {| inner := inner s; chans := chans s;
              checkouts := <[i := {| co_key := key; co_waiter := None |}]> (checkouts s);
              connectings := connectings s; pooleds := pooleds s |}
(** A checkout is polled; if it is ready its result is a new [Pooled], or an
    error. *)
| step_poll i co is_open fresh now r co' w' j pls :
    checkouts s !! i = Some co → chans s !! fresh = None →
    Checkout_poll is_open (world s) co fresh now = (r, co', w') →
    pooleds s !! j = None →
    pls = match r with Ready (Ok pl) => <[j := pl]> (pooleds s) | _ => pooleds s end →
    step s {| inner := w'.1; chans := w'.2; checkouts := <[i := co']> (checkouts s);
              connectings := connectings s; pooleds := pls |}
(** [Drop for Checkout]: its receiver goes first, without the lock. *)
| step_drop_checkout i co :
    checkouts s !! i = Some co →
    step s {| inner := inner s;
              chans := match co_waiter co with Some rx => drop_rx rx (chans s)
                                             | None => chans s end;
              checkouts := delete i (checkouts s);
              connectings := connectings s; pooleds := pooleds s |}
(** Then it cleans the queue, under the lock. *)
| step_clean key :
    step s {| inner := clean_waiters (is_closed (chans s)) (inner s) key; chans := chans s;
              checkouts := checkouts s; connectings := connectings s; pooleds := pooleds s |}
| step_connecting i key ver cn p' :
    connectings s !! i = None →
    Pool_connecting (Some (inner s)) key ver = (Some cn, Some p') →
    step s {| inner := p'; chans := chans s; checkouts := checkouts s;
              connectings := <[i := cn]> (connectings s); pooleds := pooleds s |}
(** A connection turned out to speak HTTP/2 and takes the lock, or gives up. *)
| step_alpn i cn r p' :
    connectings s !! i = Some cn → cn_pool cn = false →
    alpn_h2 cn (Some (inner s)) = (r, Some p') →
    step s {| inner := p'; chans := chans s; checkouts := checkouts s;
              connectings := match r with Some cn' => <[i := cn']> (connectings s)
                                        | None => delete i (connectings s) end;
              pooleds := pooleds s |}
(** A connection attempt ends: without a connection, or with a new one, which
    is shareable exactly when the attempt held the HTTP/2 lock. *)
| step_drop_connecting i cn :
    connectings s !! i = Some cn →
    step s {| inner := (drop_connecting (world s) cn).1;
              chans := (drop_connecting (world s) cn).2;
              checkouts := checkouts s; connectings := delete i (connectings s);
              pooleds := pooleds s |}
| step_pooled i cn v now pl w' j :
    connectings s !! i = Some cn → can_share v = cn_pool cn → v ∉ places s →
    pooled (world s) cn v now = Some (pl, w') → pooleds s !! j = None →
    step s {| inner := w'.1; chans := w'.2; checkouts := checkouts s;
              connectings := delete i (connectings s); pooleds := <[j := pl]> (pooleds s) |}
| step_drop_pooled j pl is_open now w' :
    pooleds s !! j = Some pl →
    drop_pooled is_open (world s) pl now = Some w' →
    step s {| inner := w'.1; chans := w'.2; checkouts := checkouts s;
              connectings := connectings s; pooleds := delete j (pooleds s) |}
(** The idle task wakes up. *)
| step_tick is_open now p' :
    clear_expired is_open (inner s) now = Some p' →
    step s {| inner := p'; chans := chans s; checkouts := checkouts s;
              connectings := connectings s; pooleds := pooleds s |}.

Definition initial (p : PoolInner T K) : Sys :=
  {| inner := p; chans := ∅; checkouts := ∅; connectings := ∅; pooleds := ∅ |}.
End handles.
Arguments Pooled T K : clear implicits.
Arguments Connecting K : clear implicits.
Arguments Checkout K : clear implicits.
Arguments Sys T K {_ _ _}.
Arguments World T K {_ _ _}.

(** The cases of a step, with names for what they know. *)
Ltac step_cases Hs :=
  destruct Hs as [i key Hi|i co is_open fresh now r co' w' j pls Hi Hfresh Hpoll Hj ->
    |i co Hi|key|i key ver cn p' Hi Hc|i cn r p' Hi Hcn Hc|i cn Hi|i cn v now pl w' j Hi Hv Hnew Hpl Hj
    |j pl is_open now w' Hj Hd|is_open now p' Hc].

(** ** No connection is in two places *)
Section exclusive.
Context {T K : Type} `{Countable K, LL : !LruLib K, PT : Poolable T}.
Implicit Types (p : PoolInner T K) (k : K) (v : T) (s : Sys T K) (c : gmap nat (Chan T)).

(** The connections that cannot be shared. *)
Definition uniq (l : list T) : list T := filter (λ v, can_share v = false) l.

Lemma uniq_app l1 l2 : uniq (l1 ++ l2) = uniq l1 ++ uniq l2.
Proof. apply filter_app. Qed.
Lemma uniq_submseteq l1 l2 : l1 ⊆+ l2 → uniq l1 ⊆+ uniq l2.
Proof.
  intros [k Hk]%submseteq_Permutation. unfold uniq. rewrite Hk, filter_app.
  by apply submseteq_inserts_r.
Qed.
#[export] Instance uniq_Permutation : Proper ((≡ₚ) ==> (≡ₚ)) uniq := filter_Permutation _.
Lemma uniq_shared v : can_share v = true → uniq [v] = [].
Proof. intros Hv. unfold uniq. rewrite filter_cons, Hv. done. Qed.

Lemma mvals_insert {A} (f : A → list T) (m : gmap nat A) i x :
  mvals f (<[i := x]> m) ≡ₚ f x ++ mvals f (delete i m).
Proof.
  unfold mvals. rewrite <- insert_delete_eq, map_to_list_insert by apply lookup_delete_eq. done.
Qed.

Lemma mvals_delete {A} (f : A → list T) (m : gmap nat A) i x :
  m !! i = Some x → mvals f m ≡ₚ f x ++ mvals f (delete i m).
Proof. intros Hi. by rewrite <- mvals_insert, insert_id. Qed.

Lemma mvals_delete_sub {A} (f : A → list T) (m : gmap nat A) i : mvals f (delete i m) ⊆+ mvals f m.
Proof.
  destruct (m !! i) as [x|] eqn:Hi; [|by rewrite delete_id].
  rewrite (mvals_delete _ _ _ _ Hi). apply submseteq_inserts_l. done.
Qed.

Lemma mvals_fresh {A} (f : A → list T) (m : gmap nat A) i x :
  m !! i = None → mvals f (<[i := x]> m) ≡ₚ f x ++ mvals f m.
Proof. intros Hi. by rewrite mvals_insert, delete_id. Qed.

Lemma idle_values_app l1 l2 : idle_values (l1 ++ l2) = idle_values (K:=K) (T:=T) l1 ++ idle_values l2.
Proof. apply bind_app. Qed.

Lemma idle_values_sublist l1 l2 :
  l1 `sublist_of` l2 → idle_values (K:=K) (T:=T) l1 ⊆+ idle_values l2.
Proof.
  induction 1 as [|x l1 l2 _ IH|x l1 l2 _ IH]; [done|..]; simpl.
  - by apply submseteq_app.
  - by apply submseteq_inserts_l.
Qed.

(** The idle connections of one key, and the rest. *)
Lemma idle_values_split p k :
  idle_values (lru_entries (idle p)) ≡ₚ
  (value <$> idle_list p k) ++ idle_values (without k (lru_entries (idle p))).
Proof.
  unfold idle_list. rewrite lru_peek_spec. pose proof (lru_NoDup (idle p)) as Hnd.
  induction (lru_entries (idle p)) as [|[k' l] es IH]; [done|]. csimpl in *.
  apply NoDup_cons in Hnd as [Hk Hnd]. specialize (IH Hnd).
  rewrite assoc_cons. unfold without. rewrite filter_cons. destruct (decide (k' = k)) as [->|Hne].
  - rewrite decide_False by (simpl; naive_solver). fold (without k es).
    rewrite without_absent; [done|]. by apply assoc_None.
  - rewrite decide_True by done. csimpl. fold (without k es). rewrite IH.
    rewrite !app_assoc. apply Permutation_app; [|done]. apply Permutation_app_comm.
Qed.

Lemma idle_values_put_idle p k v now :
  idle_values (lru_entries (idle (put_idle p k v now))) ⊆+ v :: idle_values (lru_entries (idle p)).
Proof.
  assert (idle (put_idle p k v now) = lru_get_or_insert_mut []
    (λ l, if max_idle_per_host p <=? length (idle_list p k) then l
          else l ++ [{| idle_at := now; value := v |}]) k (idle p)) as ->.
  { unfold put_idle, spawn_idle_interval. destruct (_ <=? _); [done|]. simpl.
    by repeat case_match. }
  destruct (insert_entries_sublist [] (λ l, if max_idle_per_host p <=? length (idle_list p k) then l
    else l ++ [{| idle_at := now; value := v |}]) k (idle p)) as (l & -> & Hl).
  rewrite (idle_values_split p k). fold (idle_list p k). csimpl.
  apply idle_values_sublist in Hl.
  destruct (_ <=? _); [apply submseteq_cons|].
  - by apply submseteq_app.
  - rewrite fmap_app. simpl. rewrite <- app_assoc. simpl.
    rewrite <- Permutation_middle. apply submseteq_skip. by apply submseteq_app.
Qed.

Lemma uniq_kept now e : uniq (value <$> kept now e) = [].
Proof. unfold kept. destruct (can_share (value e)) eqn:Hv; [by apply uniq_shared|done]. Qed.

(** Taking a connection moves it out of the idle lists. *)
Lemma idle_values_checkout is_open p k waiting fresh now :
  let '(r, p') := checkout is_open p k waiting fresh now in
  uniq (option_list r ++ idle_values (lru_entries (idle p'))) ⊆+
  uniq (idle_values (lru_entries (idle p))).
Proof.
  unfold checkout. set (f := λ l, (pop is_open (timeout p) now l).2).
  set (i1 := lru_get_mut f k (idle p)).
  assert (∀ i, idle_values (lru_entries (lru_pop k i)) ⊆+ idle_values (T:=T) (lru_entries i)) as Hpop.
  { intros i. destruct (lru_pop_spec k i) as [-> _].
    apply idle_values_sublist, sublist_filter. }
  assert (idle_values (lru_entries i1) = match lru_peek k (idle p) with
    | Some l => (value <$> f l) ++ idle_values (without k (lru_entries (idle p)))
    | None => idle_values (lru_entries (idle p)) end) as Hi1.
  { rewrite lru_peek_spec. unfold i1. destruct (lru_get_mut_spec f k (idle p)) as [-> _].
    by destruct (assoc _ _). }
  clearbody i1. pose proof (idle_values_split p k) as Hsplit. unfold idle_list in Hsplit.
  destruct (lru_peek k (idle p)) as [l|] eqn:Hl; simpl.
  - change (default [] (Some l)) with l in Hsplit. unfold f in Hi1. clear f.
    destruct (pop_spec is_open (timeout p) now l) as
      [[Hf Hp]|(pre & e & post & -> & Hf & Hd & Hp)]; rewrite Hp in *; simpl in *.
    + destruct waiting; simpl; apply uniq_submseteq; (etrans; [apply Hpop|]);
        rewrite Hi1, Hsplit; by apply submseteq_inserts_l.
    + assert (uniq (value e :: idle_values (lru_entries i1)) ⊆+
              uniq (idle_values (lru_entries (idle p)))) as Hmain.
      { rewrite Hi1, Hsplit, !fmap_app. csimpl.
        change (value e :: ?l) with ([value e] ++ l). rewrite !uniq_app, uniq_kept, app_nil_r.
        rewrite <- !app_assoc. apply submseteq_app_middle, submseteq_skips_l, submseteq_inserts_l. done. }
      case_bool_decide; simpl; [|done]. etrans; [|exact Hmain].
      apply uniq_submseteq, submseteq_skip, Hpop.
  - destruct waiting; simpl; apply uniq_submseteq; (etrans; [apply Hpop|]); by rewrite Hi1.
Qed.

Lemma uniq_send_all sent c :
  uniq (mvals chan_value (send_all sent c)) ⊆+ uniq (sent.*2 ++ mvals chan_value c).
Proof.
  apply uniq_submseteq. induction sent as [|[tx v] sent IH]; [done|]. csimpl.
  rewrite mvals_insert. simpl. apply submseteq_skip. etrans; [apply mvals_delete_sub|exact IH].
Qed.

(** Returning a connection puts it in at most one place. *)
Lemma places_put (w w' : World T K) k v now :
  w_put w k v now = Some w' →
  uniq (idle_values (lru_entries (idle w'.1)) ++ mvals chan_value w'.2) ⊆+
  uniq (v :: idle_values (lru_entries (idle w.1)) ++ mvals chan_value w.2).
Proof.
  unfold w_put.
  destruct (put_outcome_spec (is_closed w.2) (send_ok w.2) w.1 k v now) as (p' & sent & -> & Ho).
  simpl. intros [= <-]. simpl. rewrite uniq_app.
  etrans; [apply submseteq_skips_l, uniq_send_all|].
  rewrite <- uniq_app.
  destruct Ho as [Hv Hi|tx tail ws pre p' Hv Hl Hw Hpre ->|p' Hs Hu ->]; simpl.
  - by apply uniq_submseteq, submseteq_cons.
  - apply uniq_submseteq. by rewrite <- Permutation_middle.
  - destruct (can_share v) eqn:Hv.
    + set (live := filter _ _).
      assert (uniq (((λ tx, (tx, v)) <$> live).*2) = []) as Hlive.
      { induction live as [|tx live IH]; [done|]. csimpl. unfold uniq in *.
        rewrite filter_cons, decide_False, IH; [done|congruence]. }
      rewrite uniq_app, uniq_app, Hlive. simpl. rewrite <- uniq_app.
      apply uniq_submseteq. change (v :: ?a ++ ?b) with ((v :: a) ++ b).
      apply submseteq_skips_r, (idle_values_put_idle (set_waiters _ w.1)).
    + rewrite Hu by done. simpl. apply uniq_submseteq.
      change (v :: ?a ++ ?b) with ((v :: a) ++ b).
      apply submseteq_skips_r, (idle_values_put_idle (set_waiters _ w.1)).
Qed.

Lemma chan_replace c i x : chan_value x = [] → mvals chan_value (<[i := x]> c) ⊆+ mvals chan_value c.
Proof. intros Hx. rewrite mvals_insert, Hx. apply mvals_delete_sub. Qed.

Lemma places_drop_tx txs c : mvals chan_value (drop_tx txs c) ⊆+ mvals chan_value c.
Proof.
  induction txs as [|tx txs IH]; [done|]. simpl. fold (drop_tx txs c).
  destruct (drop_tx txs c !! tx) as [[]|]; try done.
  etrans; [by apply chan_replace|exact IH].
Qed.

Lemma places_drop_rx rx c : mvals chan_value (drop_rx rx c) ⊆+ mvals chan_value c.
Proof.
  unfold drop_rx. destruct (c !! rx) as [[]|]; try apply mvals_delete_sub.
  by apply chan_replace.
Qed.

Lemma places_connected (w : World T K) k :
  idle_values (lru_entries (idle (w_connected w k).1)) ++ mvals chan_value (w_connected w k).2 ⊆+
  idle_values (lru_entries (idle w.1)) ++ mvals chan_value w.2.
Proof. apply submseteq_skips_l, places_drop_tx. Qed.

Lemma places_poll is_open (w w' : World T K) co co' fresh now r :
  w.2 !! fresh = None → Checkout_poll is_open w co fresh now = (r, co', w') →
  uniq ((if r is Ready (Ok pl) then [pl_value pl] else []) ++
        idle_values (lru_entries (idle w'.1)) ++ mvals chan_value w'.2) ⊆+
  uniq (idle_values (lru_entries (idle w.1)) ++ mvals chan_value w.2).
Proof.
  destruct w as [p c]. intros Hfresh. unfold Checkout_poll, poll_waiter. simpl in *.
  pose proof (idle_values_checkout is_open p (co_key co) false fresh now) as Hco.
  destruct (co_waiter co) as [rx|].
  - unfold poll_rx. destruct (c !! rx) as [[|v| |]|] eqn:Hrx; try by intros [= <- <- <-].
    + assert (uniq ([v] ++ idle_values (lru_entries (idle p)) ++ mvals chan_value (delete rx c)) ⊆+
              uniq (idle_values (lru_entries (idle p)) ++ mvals chan_value c)) as Hm.
      { rewrite (mvals_delete _ _ _ _ Hrx). simpl. by rewrite <- Permutation_middle. }
      destruct (is_open v); intros [= <- <- <-]; [exact Hm|]. etrans; [|exact Hm].
      apply uniq_submseteq. by apply submseteq_cons.
    + intros [= <- <- <-]. simpl. apply uniq_submseteq, submseteq_skips_l, mvals_delete_sub.
  - destruct (checkout _ _ _ _ _ _) as [[v|] p'] eqn:Hc; simpl in *; intros [= <- <- <-]; simpl.
    + change (v :: ?a ++ ?b) with (([v] ++ a) ++ b). rewrite uniq_app, (uniq_app _ (mvals _ _)).
      by apply submseteq_skips_r.
    + rewrite !uniq_app. rewrite (mvals_fresh _ _ _ _ Hfresh). simpl. by apply submseteq_skips_r.
Qed.

Lemma idle_values_clear is_open p p' now :
  clear_expired is_open p now = Some p' →
  idle_values (lru_entries (idle p')) ⊆+ idle_values (lru_entries (idle p)).
Proof.
  unfold clear_expired. destruct (timeout p) as [dur|]; [|done]. simpl. intros [= <-]. simpl.
  set (i := lru_iter_mut _ _). generalize ((filter (λ kv, kv.2 = []) (lru_entries i)).*1).
  intros ks. assert (idle_values (lru_entries i) ⊆+ idle_values (lru_entries (idle p))) as Hi.
  { unfold i. destruct (lru_iter_mut_spec (retain_idle is_open dur now) (idle p)) as [-> _].
    induction (lru_entries (idle p)) as [|[k l] es IH]; [done|]. csimpl.
    apply submseteq_app; [|exact IH].
    apply fmap_submseteq, sublist_submseteq, sublist_filter. }
  clearbody i. revert i Hi. induction ks as [|k ks IH]; intros i Hi; [done|]. simpl. apply IH.
  etrans; [|exact Hi]. destruct (lru_pop_spec k i) as [-> _].
  apply idle_values_sublist, sublist_filter.
Qed.

(** Moving connections between the pool and the holders. *)
Lemma places_take (x i i' c c' pls : list T) :
  uniq (x ++ i' ++ c') ⊆+ uniq (i ++ c) → uniq (i' ++ c' ++ x ++ pls) ⊆+ uniq (i ++ c ++ pls).
Proof.
  intros Hx. rewrite !uniq_app in *.
  transitivity ((uniq x ++ uniq i' ++ uniq c') ++ uniq pls); [solve_submseteq|].
  rewrite (app_assoc (uniq i)). by apply submseteq_skips_r.
Qed.

Lemma places_give (x i i' c c' pls : list T) :
  uniq (i' ++ c') ⊆+ uniq (x ++ i ++ c) → uniq (i' ++ c' ++ pls) ⊆+ uniq (i ++ c ++ x ++ pls).
Proof.
  intros Hx. rewrite !uniq_app in *.
  transitivity ((uniq x ++ uniq i ++ uniq c) ++ uniq pls); [|solve_submseteq].
  rewrite (app_assoc (uniq i')). by apply submseteq_skips_r.
Qed.

Lemma places_pooled (w w' : World T K) cn v now pl pls :
  pooled w cn v now = Some (pl, w') →
  uniq (idle_values (lru_entries (idle w'.1)) ++ mvals chan_value w'.2 ++ pl_value pl :: pls) ⊆+
  v :: uniq (idle_values (lru_entries (idle w.1)) ++ mvals chan_value w.2 ++ pls).
Proof.
  unfold pooled. rewrite reserve_spec. destruct (can_share v) eqn:Hv.
  - destruct (w_put w (cn_key cn) v now) as [w1|] eqn:Hp; [|done]. simpl. intros [= <- <-].
    apply places_put in Hp. apply submseteq_cons.
    change (v :: ?l) with ([v] ++ l). rewrite !uniq_app.
    change (pl_value _ :: pls) with ([v] ++ pls). rewrite uniq_app, (uniq_shared v Hv). simpl.
    change (v :: ?l) with ([v] ++ l) in Hp. rewrite (uniq_app [v]), (uniq_shared v Hv) in Hp.
    rewrite (app_assoc (uniq _)), (app_assoc (uniq (idle_values (lru_entries (idle w.1))))).
    apply submseteq_skips_r. rewrite <- !uniq_app. etrans; [|exact Hp].
    apply uniq_submseteq, (places_connected w1).
  - intros [= <- <-]. simpl.
    assert (idle_values (lru_entries (idle (drop_connecting w cn).1)) ++
            mvals chan_value (drop_connecting w cn).2 ⊆+
            idle_values (lru_entries (idle w.1)) ++ mvals chan_value w.2) as Hd.
    { unfold drop_connecting. destruct (cn_pool cn); [apply places_connected|done]. }
    apply uniq_submseteq in Hd. change (v :: pls) with ([v] ++ pls). rewrite !uniq_app in *.
    assert (uniq [v] = [v]) as ->. { unfold uniq. by rewrite filter_cons, decide_True. }
    transitivity ([v] ++ (uniq (idle_values (lru_entries (idle (drop_connecting w cn).1))) ++
      uniq (mvals chan_value (drop_connecting w cn).2)) ++ uniq pls); [solve_submseteq|].
    apply submseteq_skip. rewrite (app_assoc (uniq (idle_values (lru_entries (idle w.1))))).
    by apply submseteq_skips_r.
Qed.

(** A step only moves or drops connections, except that a new one may come
    in. *)
Lemma step_places s s' :
  step s s' →
  uniq (places s') ⊆+ uniq (places s) ∨
  ∃ v, (v ∉ places s) ∧ uniq (places s') ⊆+ v :: uniq (places s).
Proof.
  intros Hs. step_cases Hs; unfold places; simpl.
  - by left.
  - left. apply (places_poll is_open (world s) w' co co' fresh now) in Hpoll; [|done].
    destruct r as [[pl|]|]; [rewrite (mvals_fresh _ _ _ _ Hj)|..].
    + by apply (places_take [pl_value pl]).
    + by apply (places_take []).
    + by apply (places_take []).
  - left. apply (places_take []). simpl. apply uniq_submseteq, submseteq_skips_l.
    destruct (co_waiter co); [apply places_drop_rx|done].
  - left. unfold clean_waiters. repeat case_match; done.
  - left. unfold Pool_connecting, lock_connecting in Hc. by repeat case_match; simplify_eq/=.
  - left. unfold alpn_h2, Pool_connecting, lock_connecting in Hc. by repeat case_match; simplify_eq/=.
  - left. apply (places_take []), uniq_submseteq. unfold drop_connecting.
    destruct (cn_pool cn); [apply places_connected|done].
  - right. exists v. split; [done|]. rewrite (mvals_fresh _ _ _ _ Hj). by eapply places_pooled in Hpl.
  - left. rewrite (mvals_delete _ _ _ _ Hj). apply (places_give [pl_value pl]).
    unfold drop_pooled in Hd. destruct (negb _); [|destruct (pl_pool pl)]; simplify_eq/=.
    + by apply uniq_submseteq, submseteq_cons.
    + by apply places_put in Hd.
    + by apply uniq_submseteq, submseteq_cons.
  - left. apply uniq_submseteq, submseteq_skips_r. by apply idle_values_clear in Hc.
Qed.

(** C4: A connection that cannot be shared is never in two places: in every
    state the pool can reach, whatever the interleaving of checkouts, returns,
    cancellations, evictions and new connections, no HTTP/1 connection is held
    by two requests, or held and idle, or held and on its way to a waiter. *)
Theorem unique_connections_exclusive p s :
  lru_entries (idle p) = [] → rtc step (initial p) s → NoDup (uniq (places s)).
Proof.
  intros Hp Hr. revert s Hr. apply (rtc_ind_r (λ s, NoDup (uniq (places s)))).
  - unfold places, initial. simpl. rewrite Hp. constructor.
  - intros s1 s2 _ Hs Hnd. destruct (step_places _ _ Hs) as [Hsub|(v & Hv & Hsub)].
    + apply submseteq_Permutation in Hsub as [k Hk]. rewrite Hk in Hnd.
      by apply NoDup_app in Hnd as [? _].
    + apply submseteq_Permutation in Hsub as [k Hk].
      assert (NoDup (v :: uniq (places s1))) as Hnd'.
      { constructor; [|done]. intros Hin. apply Hv. by apply list_elem_of_filter in Hin as [_ ?]. }
      rewrite Hk in Hnd'. by apply NoDup_app in Hnd' as [? _].
Qed.
End exclusive.

(** ** Bounds of the pool *)
Section bounds.
Context {T K : Type} `{Countable K, LL : !LruLib K, PT : Poolable T}.
Implicit Types (p : PoolInner T K) (k : K) (v : T) (s : Sys T K) (c : gmap nat (Chan T)).

Definition shared_count (l : list (Idle T)) : nat :=
  length (filter (λ e, can_share (value e) = true) l).

Record list_wf (max : nat) (l : list (Idle T)) : Prop := {
  lw_nonempty : l ≠ [];
  lw_max : length l <= max;
  lw_shared : shared_count l <= 1;
}.

(** What holds of every pool made with a configuration. *)
Context (cfg : Config).
Record pool_wf p : Prop := {
  pw_max : 0 < max_idle_per_host p;
  pw_cfg_max : max_idle_per_host p = cfg_max_idle_per_host cfg;
  pw_cfg_cap : lru_cap (idle p) = max_pool_size cfg;
  pw_cfg_timeout : timeout p = idle_timeout cfg;
  pw_list k l : lru_peek k (idle p) = Some l → list_wf (max_idle_per_host p) l;
  pw_cap : lru_cap (idle p) ≠ Some 0;
  pw_bounded : lru_bounded (idle p);
  pw_waiters k ws : waiters p !! k = Some ws → ws ≠ [];
  pw_interval : idle_interval_ref p = true → is_Some (timeout p);
}.

Lemma shared_count_app l1 l2 : shared_count (l1 ++ l2) = shared_count l1 + shared_count l2.
Proof. unfold shared_count. by rewrite filter_app, length_app. Qed.

Lemma shared_count_sublist l1 l2 : l1 `sublist_of` l2 → shared_count l1 <= shared_count l2.
Proof.
  unfold shared_count. induction 1 as [|x l1 l2 _ IH|x l1 l2 _ IH]; [done|..];
    rewrite ?filter_cons; repeat case_decide; simpl; lia.
Qed.

Lemma shared_count_kept now e : shared_count (kept now e) = shared_count [e].
Proof.
  unfold kept, shared_count. destruct (can_share (value e)) eqn:Hv; rewrite !filter_cons;
    repeat case_decide; simpl in *; congruence.
Qed.

(** Updates that leave the idle lists alone. *)
Lemma set_waiters_wf w p :
  (∀ k ws, w !! k = Some ws → ws ≠ []) → pool_wf p → pool_wf (set_waiters w p).
Proof. intros Hw []. by split. Qed.

Lemma spawn_wf p : pool_wf p → pool_wf (spawn_idle_interval p).1.
Proof.
  intros Hp. unfold spawn_idle_interval. repeat case_match; try done. destruct Hp.
  split; simpl; done || congruence.
Qed.

Lemma set_idle_wf i p :
  (∀ k l, lru_peek k i = Some l → list_wf (max_idle_per_host p) l) →
  lru_cap i = lru_cap (idle p) → lru_bounded i → pool_wf p → pool_wf (set_idle i p).
Proof. intros Hl Hc Hb []. split; simpl; try done; by rewrite Hc. Qed.

Lemma put_idle_wf p k v now :
  pool_wf p → (can_share v = true → lru_peek k (idle p) = None) →
  pool_wf (put_idle p k v now).
Proof.
  intros Hp Hv. unfold put_idle.
  set (f := λ l, if _ <=? _ then l else l ++ _).
  set (i := lru_get_or_insert_mut [] f k (idle p)).
  assert (pool_wf (set_idle i p)) as Hi.
  { apply set_idle_wf; [|apply lru_get_or_insert_mut_spec|
      apply bounded_get_or_insert_mut; [apply Hp|apply Hp]|done].
    intros k' l Hl. destruct (decide (k' = k)) as [->|Hne].
    - unfold i in Hl. rewrite peek_get_or_insert_mut in Hl. injection Hl as <-.
      fold (idle_list p k). unfold f. destruct (_ <=? _) eqn:Hm.
      + unfold idle_list in *. destruct (lru_peek k (idle p)) as [l|] eqn:Hl; [by eapply pw_list|].
        apply Nat.leb_le in Hm. pose proof (pw_max _ Hp). simpl in *. lia.
      + apply Nat.leb_gt in Hm. split; [by destruct (idle_list p k)|..].
        { rewrite length_app. simpl. lia. }
        rewrite shared_count_app. unfold idle_list in *.
        destruct (can_share v) eqn:Hs.
        { rewrite Hv by done. simpl. unfold shared_count. rewrite filter_cons.
          by case_decide; simpl; [lia|]. }
        assert (shared_count [{| idle_at := now; value := v |}] = 0) as ->.
        { unfold shared_count. rewrite filter_cons. simpl. by rewrite Hs. }
        destruct (lru_peek k (idle p)) as [l|] eqn:Hl; simpl; [|unfold shared_count; simpl; lia].
        apply (pw_list _ Hp) in Hl as []. lia.
    - unfold i in Hl. apply peek_get_or_insert_mut_ne in Hl; [|done]. by eapply pw_list. }
  destruct (_ <=? _); [done|by apply spawn_wf].
Qed.

Lemma queue_nonempty ws ws' : queue ws = Some ws' → ws' ≠ [].
Proof. destruct ws; naive_solver. Qed.

Lemma put_wf is_closed send_ok p k v now p' sent :
  pool_wf p → put is_closed send_ok p k v now = Some (p', sent) → pool_wf p'.
Proof.
  intros Hp Hput. destruct (put_outcome_spec is_closed send_ok p k v now) as (? & ? & Heq & Ho).
  rewrite Hput in Heq. simplify_eq.
  destruct Ho as [Hv Hi|tx tail ws pre p' Hv Hl Hw Hpre ->|p' Hs Hu ->].
  - done.
  - apply set_waiters_wf; [|done]. intros k' ws'. rewrite lookup_partial_alter.
    case_decide; [apply queue_nonempty|apply (pw_waiters _ Hp)].
  - apply put_idle_wf; [|done]. apply set_waiters_wf; [|done]. intros k' ws'.
    rewrite lookup_delete. case_decide; [done|apply (pw_waiters _ Hp)].
Qed.

Lemma connected_wf p k : pool_wf p → pool_wf (connected p k).
Proof.
  intros Hp. apply set_waiters_wf; [|by destruct Hp]. intros k' ws.
  rewrite lookup_delete. case_decide; [done|apply (pw_waiters _ Hp)].
Qed.

Lemma clean_waiters_wf is_closed p k : pool_wf p → pool_wf (clean_waiters is_closed p k).
Proof.
  intros Hp. unfold clean_waiters. destruct (waiters p !! k) as [ws|]; [|done].
  destruct (filter _ ws) as [|w ws'] eqn:Hf; apply set_waiters_wf; try done; intros k' ws0.
  - rewrite lookup_delete. case_decide; [done|apply (pw_waiters _ Hp)].
  - rewrite lookup_insert. case_decide; [naive_solver|apply (pw_waiters _ Hp)].
Qed.

Lemma clear_expired_wf is_open p p' now :
  pool_wf p → clear_expired is_open p now = Some p' → pool_wf p'.
Proof.
  intros Hp Hc. pose proof Hc as Hc'. unfold clear_expired in Hc.
  destruct (timeout p) as [dur|] eqn:Ht; [|done]. simpl in Hc. injection Hc as <-.
  apply set_idle_wf; [|..|done].
  - intros k l Hl. pose proof (peek_clear_expired is_open p _ now k dur Ht Hc') as Hk.
    simpl in Hk. rewrite Hl in Hk. destruct (lru_peek k (idle p)) as [l0|] eqn:Hl0; [|done].
    case_decide as Hne; simplify_eq. apply (pw_list _ Hp) in Hl0 as [].
    assert (retain_idle is_open dur now l0 `sublist_of` l0) as Hsub by apply sublist_filter.
    pose proof (shared_count_sublist _ _ Hsub). apply sublist_length in Hsub. split; [done|lia..].
  - set (i := lru_iter_mut _ _). generalize (filter (λ kv, kv.2 = []) (lru_entries i)).*1.
    intros ks. transitivity (lru_cap i); [|apply lru_iter_mut_spec].
    generalize i. clear. induction ks as [|k ks IH]; intros i; [done|]. simpl. rewrite IH.
    apply lru_pop_spec.
  - set (i := lru_iter_mut _ _). generalize (filter (λ kv, kv.2 = []) (lru_entries i)).*1.
    intros ks. assert (lru_bounded i) as Hi by (apply bounded_iter_mut, Hp).
    clearbody i. revert i Hi. clear. induction ks as [|k ks IH]; intros i Hi; [done|].
    apply IH, bounded_pop, Hi.
Qed.

Lemma pop_list_wf is_open tmo now max l e :
  list_wf max l → (pop is_open tmo now l).1 = Some e → (pop is_open tmo now l).2 ≠ [] →
  list_wf max (pop is_open tmo now l).2.
Proof.
  intros [_ Hmax Hs] He Hne.
  destruct (pop_spec is_open tmo now l) as [[_ Hp]|(pre & e' & post & -> & _ & _ & Hp)];
    rewrite Hp in *; simpl in *; [done|].
  rewrite length_app in Hmax. simpl in Hmax. change (e' :: post) with ([e'] ++ post) in Hs.
  rewrite !shared_count_app in Hs. split; [done|..].
  - rewrite length_app. unfold kept. destruct (can_share _); simpl; lia.
  - rewrite shared_count_app, shared_count_kept. lia.
Qed.

Lemma checkout_idle is_open p k waiting fresh now :
  ∃ i w, (checkout is_open p k waiting fresh now).2 = set_waiters w (set_idle i p) ∧
    (w = waiters p ∨ w = <[k := default [] (waiters p !! k) ++ [fresh]]> (waiters p)) ∧
    lru_cap i = lru_cap (idle p) ∧ (lru_bounded (idle p) → lru_bounded i) ∧
    ∀ k' l, lru_peek k' i = Some l →
      k' ≠ k ∧ lru_peek k' (idle p) = Some l ∨
      ∃ l0 e, k' = k ∧ lru_peek k (idle p) = Some l0 ∧
        (pop is_open (timeout p) now l0).1 = Some e ∧
        l = (pop is_open (timeout p) now l0).2 ∧ l ≠ [].
Proof.
  unfold checkout. set (f := λ l, (pop is_open (timeout p) now l).2).
  set (i1 := lru_get_mut f k (idle p)).
  assert (lru_cap i1 = lru_cap (idle p)) as Hc1 by apply lru_get_mut_spec.
  assert (lru_bounded (idle p) → lru_bounded i1) as Hb1 by apply bounded_get_mut.
  assert (∀ k', lru_peek k' i1 = if decide (k' = k) then f <$> lru_peek k (idle p)
                                 else lru_peek k' (idle p)) as Hpk by apply peek_get_mut.
  assert (lru_cap (lru_pop k i1) = lru_cap (idle p)) as Hc2
    by (rewrite <- Hc1; apply lru_pop_spec).
  assert (∀ k' l, lru_peek k' (lru_pop k i1) = Some l → k' ≠ k ∧ lru_peek k' (idle p) = Some l)
    as Hpop.
  { intros k' l. rewrite peek_pop, Hpk. by repeat case_decide. }
  destruct (lru_peek k (idle p)) as [l0|] eqn:Hl0; simpl.
  - destruct (pop is_open (timeout p) now l0).1 as [e|] eqn:He; simpl; [case_bool_decide as Hemp|].
    + exists (lru_pop k i1), (waiters p). split_and!; eauto using bounded_pop.
    + exists i1, (waiters p). split_and!; eauto. intros k' l. rewrite Hpk.
      case_decide; [|naive_solver]. subst. simpl. intros [= <-]. right. exists l0, e. done.
    + destruct waiting; eexists (lru_pop k i1), _; split_and!; eauto using bounded_pop.
  - destruct waiting; eexists (lru_pop k i1), _; split_and!; eauto using bounded_pop.
Qed.

Lemma checkout_wf is_open p k waiting fresh now :
  pool_wf p → pool_wf (checkout is_open p k waiting fresh now).2.
Proof.
  intros Hp. destruct (checkout_idle is_open p k waiting fresh now) as
    (i & w & -> & Hw & Hc & Hb & Hpk).
  apply set_waiters_wf.
  - intros k' ws. destruct Hw as [->| ->]; [apply (pw_waiters _ Hp)|].
    rewrite lookup_insert. case_decide; [|apply (pw_waiters _ Hp)].
    intros [= <-]. by destruct (default _ _).
  - apply set_idle_wf; [|done|apply Hb, Hp|done]. intros k' l Hl.
    destruct (Hpk _ _ Hl) as [[_ Hl']|(l0 & e & _ & Hl0 & He & -> & Hne)]; [by eapply pw_list|].
    eapply pop_list_wf; [by eapply pw_list|done..].
Qed.

Lemma w_put_wf (w w' : World T K) k v now : pool_wf w.1 → w_put w k v now = Some w' → pool_wf w'.1.
Proof.
  intros Hp. unfold w_put. destruct (put _ _ _ _ _ _) as [[p' sent]|] eqn:Hput; [|done].
  simpl. intros [= <-]. by eapply put_wf.
Qed.

Lemma drop_connecting_wf (w : World T K) cn : pool_wf w.1 → pool_wf (drop_connecting w cn).1.
Proof. intros Hp. unfold drop_connecting. destruct (cn_pool cn); [by apply connected_wf|done]. Qed.

Lemma lock_connecting_wf k p : pool_wf p → pool_wf (lock_connecting k p).2.
Proof. intros Hp. unfold lock_connecting. case_decide; [done|]. by destruct Hp. Qed.

Lemma Pool_connecting_wf p key ver r p' :
  pool_wf p → Pool_connecting (Some p) key ver = (r, Some p') → pool_wf p'.
Proof.
  intros Hp. unfold Pool_connecting. destruct ver; [naive_solver|].
  pose proof (lock_connecting_wf key p Hp). destruct (lock_connecting key p). naive_solver.
Qed.

Lemma poll_wf is_open (w w' : World T K) co co' fresh now r :
  pool_wf w.1 → Checkout_poll is_open w co fresh now = (r, co', w') → pool_wf w'.1.
Proof.
  intros Hp. unfold Checkout_poll. destruct (poll_waiter _ _ _) as [[[[r'|]|] co1] c1];
    try by intros [= <- <- <-].
  pose proof (checkout_wf is_open w.1 (co_key co1) false fresh now Hp).
  destruct (checkout _ _ _ _ _ _) as [[v|] p']; by intros [= <- <- <-].
Qed.

Lemma step_wf s s' : step s s' → pool_wf (inner s) → pool_wf (inner s').
Proof.
  intros Hs Hp. step_cases Hs; simpl; try done.
  - by apply poll_wf in Hpoll.
  - by apply clean_waiters_wf.
  - by apply Pool_connecting_wf in Hc.
  - unfold alpn_h2 in Hc. by apply Pool_connecting_wf in Hc.
  - by apply drop_connecting_wf.
  - unfold pooled in Hpl. destruct (reserve v).
    + destruct (w_put _ _ _ _) as [w1|] eqn:Hput; [|done]. simplify_eq/=.
      apply connected_wf. by apply w_put_wf in Hput.
    + simplify_eq/=. by apply drop_connecting_wf.
  - unfold drop_pooled in Hd. repeat case_match; simplify_eq/=; try done.
    by apply w_put_wf in Hd.
  - by apply clear_expired_wf in Hc.
Qed.

Lemma new_wf te p :
  max_pool_size cfg ≠ Some 0 → Pool_new cfg te = Some p → pool_wf p.
Proof.
  unfold Pool_new, Config_is_enabled. destruct (0 <? _) eqn:Hm; [|done]. intros Hc [= <-].
  destruct (lru_new_spec (V:=list (Idle T)) (max_pool_size cfg)) as [He Hcap].
  split; simpl; try done.
  - by apply Nat.ltb_lt.
  - intros k l. by rewrite peek_new.
  - by rewrite Hcap.
  - unfold lru_bounded. rewrite Hcap, He. simpl. destruct (max_pool_size cfg); [lia|done].
Qed.

Lemma reachable_pool_wf te p s :
  max_pool_size cfg ≠ Some 0 → Pool_new cfg te = Some p → rtc step (initial p) s →
  pool_wf (inner s).
Proof.
  intros Hc Hnew. revert s. apply (rtc_ind_r (λ s, pool_wf (inner s))).
  - by eapply new_wf.
  - intros s1 s2 _ Hs. by apply step_wf.
Qed.

(** C33: In every reachable state the pool keeps at most [max_pool_size] keys
    and at most [max_idle_per_host] connections per key, at most one of them
    shareable; it keeps no empty list and no empty queue; and the idle task
    runs only with a timeout, so that its [expect] cannot fail. *)
Theorem pool_bounds te p s :
  max_pool_size cfg ≠ Some 0 → Pool_new cfg te = Some p → rtc step (initial p) s →
  (∀ n, max_pool_size cfg = Some n → length (lru_entries (idle (inner s))) <= n) ∧
  (∀ k l, lru_peek k (idle (inner s)) = Some l →
     l ≠ [] ∧ length l <= cfg_max_idle_per_host cfg ∧ shared_count l <= 1) ∧
  (∀ k, waiters (inner s) !! k ≠ Some []) ∧
  (idle_interval_ref (inner s) = true →
   ∀ is_open now, is_Some (clear_expired is_open (inner s) now)).
Proof.
  intros Hc Hnew Hr. pose proof (reachable_pool_wf _ _ _ Hc Hnew Hr) as Hp. split_and!.
  - intros n Hn. pose proof (pw_bounded _ Hp) as Hb. unfold lru_bounded in Hb.
    by rewrite (pw_cfg_cap _ Hp), Hn in Hb.
  - intros k l Hl. destruct (pw_list _ Hp _ _ Hl). rewrite <- (pw_cfg_max _ Hp). done.
  - intros k Hk. by apply (pw_waiters _ Hp) in Hk.
  - intros Hi is_open now. destruct (pw_interval _ Hp Hi) as [dur Hd].
    unfold clear_expired. rewrite Hd. by eexists.
Qed.
End bounds.

(** ** Waiting checkouts are never forgotten *)
Section waiting.
Context {T K : Type} `{Countable K, LL : !LruLib K, PT : Poolable T}.
Implicit Types (p : PoolInner T K) (k : K) (v : T) (s : Sys T K) (c : gmap nat (Chan T)).
Implicit Types (q : gmap K (list nat)) (cs : gmap nat (Checkout K)).

(** The queue of a key. *)
Definition waiting q k : list nat := default [] (q !! k).

(** A checkout that waits is in the queue of its key with an open channel, or
    its connection has been sent, or its sender is gone. *)
Definition attended q c (co : Checkout K) (w : nat) : Prop :=
  c !! w = Some Waiting ∧ w ∈ waiting q (co_key co) ∨
  (∃ v, c !! w = Some (Sent v)) ∨ c !! w = Some TxDropped.

Record wait_ok q c cs : Prop := {
  wo_attended i co w : cs !! i = Some co → co_waiter co = Some w → attended q c co w;
  wo_distinct i j co co' w :
    cs !! i = Some co → cs !! j = Some co' →
    co_waiter co = Some w → co_waiter co' = Some w → i = j;
  wo_queue k w : w ∈ waiting q k → c !! w = Some Waiting ∨ c !! w = Some RxDropped;
  wo_NoDup k : NoDup (waiting q k);
  wo_disjoint k k' w : w ∈ waiting q k → w ∈ waiting q k' → k = k';
}.

(** Taking senders off a queue: those that are taken off and whose checkout
    listens must get a value or lose their sender. *)
Lemma wait_ok_pop q c cs k R rest q' c' :
  wait_ok q c cs → waiting q k ≡ₚ R ++ rest → NoDup rest →
  (∀ k', waiting q' k' = if decide (k' = k) then rest else waiting q k') →
  (∀ w, w ∉ R → c' !! w = c !! w) →
  (∀ w, w ∈ R → c !! w = Some Waiting →
     (∃ v, c' !! w = Some (Sent v)) ∨ c' !! w = Some TxDropped) →
  wait_ok q' c' cs.
Proof.
  intros [Ha Hd Hq Hn Hdis] HR Hnd Hq' Hout Hin.
  assert (∀ w, w ∈ R → w ∈ waiting q k) as HRk by (intros w Hw; rewrite HR; set_solver).
  assert (∀ k' w, w ∈ waiting q' k' → w ∈ waiting q k' ∧ w ∉ R) as Hsub.
  { intros k' w. rewrite Hq'. case_decide as Hk; [subst|].
    - intros Hw. split; [rewrite HR; set_solver|]. intros HwR.
      specialize (Hn k). rewrite HR in Hn. apply NoDup_app in Hn as (_ & Hx & _). by eapply Hx.
    - intros Hw. split; [done|]. intros HwR%HRk. by apply Hk, (Hdis _ _ w). }
  split.
  - intros i co w Hi Hw. destruct (Ha _ _ _ Hi Hw) as [[Hc Hin']|[[v Hv]|Ht]].
    + destruct (decide (w ∈ R)) as [HwR|HwR]; [right; by apply Hin|left].
      rewrite Hout by done. split; [done|]. rewrite Hq'. case_decide as Hk; [|done].
      rewrite Hk, HR in Hin'. set_solver.
    + assert (w ∉ R) as HwR by (intros HwR%HRk%Hq; naive_solver).
      right; left. exists v. by rewrite Hout.
    + assert (w ∉ R) as HwR by (intros HwR%HRk%Hq; naive_solver).
      right; right. by rewrite Hout.
  - done.
  - intros k' w [Hw HwR]%Hsub. rewrite Hout by done. by apply Hq in Hw.
  - intros k'. rewrite Hq'. by case_decide.
  - intros k1 k2 w [H1 _]%Hsub [H2 _]%Hsub. by eapply Hdis.
Qed.

Lemma lookup_drop_tx txs c w :
  drop_tx txs c !! w =
  match c !! w with
  | Some Waiting => if decide (w ∈ txs) then Some TxDropped else Some Waiting
  | x => x
  end.
Proof.
  induction txs as [|tx txs IH]; simpl; [by destruct (c !! w) as [[]|]|].
  fold (drop_tx txs c). destruct (decide (w = tx)) as [->|Hne].
  - rewrite (decide_True (P := tx ∈ tx :: txs)) by set_solver.
    destruct (c !! tx) as [[]|]; rewrite IH; try done. case_decide; rewrite ?IH.
    + by rewrite ?decide_True.
    + by rewrite lookup_insert_eq.
  - rewrite (decide_ext (w ∈ tx :: txs) (w ∈ txs)) by set_solver. rewrite <- IH.
    destruct (drop_tx txs c !! tx) as [[]|]; try done. by rewrite lookup_insert_ne.
Qed.

Lemma lookup_send_all live v c w :
  send_all ((λ tx, (tx, v)) <$> live) c !! w = if decide (w ∈ live) then Some (Sent v) else c !! w.
Proof.
  induction live as [|tx live IH]; csimpl; [done|].
  rewrite lookup_insert, IH. repeat case_decide; set_solver.
Qed.

Lemma live_Waiting c (ws : list nat) w :
  w ∈ filter (λ tx, is_closed c tx = false ∧ send_ok c tx = true) ws ↔
  w ∈ ws ∧ c !! w = Some Waiting.
Proof.
  rewrite list_elem_of_filter. unfold is_closed, send_ok. destruct (c !! w) as [[]|]; naive_solver.
Qed.

Lemma waiting_queue q k (ws : list nat) k' :
  waiting (partial_alter (λ _, queue ws) k q) k' = if decide (k' = k) then ws else waiting q k'.
Proof.
  unfold waiting. rewrite lookup_partial_alter. destruct (decide (k = k')) as [->|Hne].
  - rewrite decide_True by done. by destruct ws.
  - by rewrite decide_False.
Qed.

Lemma waiting_delete q k k' :
  waiting (delete k q) k' = if decide (k' = k) then [] else waiting q k'.
Proof. unfold waiting. rewrite lookup_delete. by repeat case_decide. Qed.

Lemma w_put_wait (w w' : World T K) k v now cs :
  wait_ok (waiters w.1) w.2 cs → w_put w k v now = Some w' → wait_ok (waiters w'.1) w'.2 cs.
Proof.
  destruct w as [p c]. unfold w_put. simpl. intros Hw.
  destruct (put_outcome_spec (is_closed c) (send_ok c) p k v now) as (p' & sent & -> & Ho).
  simpl. intros [= <-]. simpl. fold (waiting (waiters p) k) in Ho.
  set (live := filter _ _) in *.
  assert (∀ w, w ∈ live ↔ w ∈ waiting (waiters p) k ∧ c !! w = Some Waiting) as Hlive
    by (intros; apply live_Waiting).
  clearbody live. destruct Ho as [Hv Hi|tx tail ws pre p' Hv Hl Hwk Hpre ->|p' Hs Hu ->].
  - done.
  - assert (waiting (waiters p) k = (pre ++ [tx]) ++ ws) as Hq.
    { unfold waiting. by rewrite Hwk, <- app_assoc. }
    eapply (wait_ok_pop _ _ _ k (pre ++ [tx]) ws); [done|by rewrite Hq| | |..].
    + pose proof (wo_NoDup _ _ _ Hw k) as Hnd. rewrite Hq in Hnd. by apply NoDup_app in Hnd as (_ & _ & ?).
    + intros k'. simpl. apply waiting_queue.
    + intros w Hnin. simpl. rewrite lookup_insert_ne; [done|set_solver].
    + intros w Hin Hwt. left. exists v. simpl. apply elem_of_app in Hin as [Hin|Hin].
      * destruct (Hpre _ Hin). apply Hlive. rewrite Hq. set_solver.
      * apply list_elem_of_singleton in Hin as ->. by rewrite lookup_insert_eq.
  - rewrite waiters_put_idle. simpl.
    eapply (wait_ok_pop _ _ _ k (waiting (waiters p) k) []); [done|by rewrite app_nil_r|
      constructor|apply waiting_delete|..].
    + intros w Hnin. rewrite lookup_send_all, decide_False; [done|]. rewrite Hlive. naive_solver.
    + intros w Hin Hwt. left. exists v. rewrite lookup_send_all, decide_True; [done|]. by apply Hlive.
Qed.

Lemma w_connected_wait (w : World T K) k cs :
  wait_ok (waiters w.1) w.2 cs → wait_ok (waiters (w_connected w k).1) (w_connected w k).2 cs.
Proof.
  destruct w as [p c]. simpl. intros Hw.
  eapply (wait_ok_pop _ _ _ k (waiting (waiters p) k) []); [done|by rewrite app_nil_r|
    constructor|apply waiting_delete|..].
  - intros w Hnin. rewrite lookup_drop_tx. destruct (c !! w) as [[]|]; try done.
    by rewrite decide_False.
  - intros w Hin Hwt. right. rewrite lookup_drop_tx, Hwt. by rewrite decide_True.
Qed.

Lemma clean_wait p c k cs :
  wait_ok (waiters p) c cs → wait_ok (waiters (clean_waiters (is_closed c) p k)) c cs.
Proof.
  intros Hw. destruct (waiters p !! k) as [ws|] eqn:Hk;
    [|unfold clean_waiters; by rewrite Hk].
  set (rest := filter (λ tx, is_closed c tx = false) ws).
  assert (waiters (clean_waiters (is_closed c) p k) =
    partial_alter (λ _, queue rest) k (waiters p)) as ->.
  { unfold clean_waiters. rewrite Hk. fold rest. by destruct rest. }
  assert (waiting (waiters p) k = ws) as Hws by (unfold waiting; by rewrite Hk).
  eapply (wait_ok_pop _ _ _ k (filter (λ tx, ¬ (is_closed c tx = false)) ws) rest);
    [done| | |apply waiting_queue|done|].
  - rewrite Hws, Permutation_app_comm. unfold rest. by rewrite filter_app_complement.
  - apply NoDup_filter. rewrite <- Hws. apply (wo_NoDup _ _ _ Hw).
  - intros w [Hc _]%list_elem_of_filter Hwt. unfold is_closed in Hc. by rewrite Hwt in Hc.
Qed.

(** A checkout that does not wait may come, go or take the place of
    another. *)
Lemma wait_ok_sub q c cs cs' :
  (∀ i co w, cs' !! i = Some co → co_waiter co = Some w → cs !! i = Some co) →
  wait_ok q c cs → wait_ok q c cs'.
Proof.
  intros Hsub [Ha Hd Hq Hn Hdis]. split; try done.
  - intros i co w Hi Hw. eapply Ha; [by eapply Hsub|done].
  - intros i j co co' w Hi Hj Hw Hw'. eapply (Hd i j co co' w); eauto.
Qed.

(** The channel of a checkout that waits no longer is closed. *)
Lemma wait_ok_close q c c' cs rx :
  (∀ i co, cs !! i = Some co → co_waiter co ≠ Some rx) →
  (∀ w, w ≠ rx → c' !! w = c !! w) →
  (c !! rx = Some Waiting → c' !! rx = Some RxDropped) →
  (c !! rx = Some RxDropped → c' !! rx = Some RxDropped) →
  wait_ok q c cs → wait_ok q c' cs.
Proof.
  intros Hno Hsame H1 H2 [Ha Hd Hq Hn Hdis]. split; try done.
  - intros i co w Hi Hw. assert (w ≠ rx) by (intros ->; by eapply Hno).
    unfold attended. rewrite Hsame by done. by eapply Ha.
  - intros k w Hw. destruct (decide (w = rx)) as [->|Hne]; [|rewrite Hsame by done; by eapply Hq].
    right. destruct (Hq _ _ Hw); auto.
Qed.

(** A checkout joins the queue of its key with a new channel. *)
Lemma wait_ok_register q c cs i k fresh :
  c !! fresh = None → wait_ok q c cs →
  wait_ok (<[k := waiting q k ++ [fresh]]> q) (<[fresh := Waiting]> c)
    (<[i := {| co_key := k; co_waiter := Some fresh |}]> cs).
Proof.
  intros Hf [Ha Hd Hq Hn Hdis].
  assert (∀ k', waiting (<[k := waiting q k ++ [fresh]]> q) k' =
    if decide (k' = k) then waiting q k ++ [fresh] else waiting q k') as Hq'.
  { intros k'. unfold waiting at 1. rewrite lookup_insert. by repeat case_decide. }
  assert (∀ k', fresh ∉ waiting q k') as Hfq by (intros k' Hin%Hq; naive_solver).
  assert (∀ j co, cs !! j = Some co → co_waiter co ≠ Some fresh) as Hfc.
  { intros j co Hj Hw. destruct (Ha _ _ _ Hj Hw) as [[]|[[]|]]; congruence. }
  assert (∀ k' w, w ∈ waiting (<[k := waiting q k ++ [fresh]]> q) k' ↔
    w ∈ waiting q k' ∨ w = fresh ∧ k' = k) as Hin.
  { intros k' w. rewrite Hq'. case_decide as Hk; [subst; set_solver|naive_solver]. }
  split.
  - intros j co w Hj Hw. unfold attended. rewrite Hin, lookup_insert.
    rewrite lookup_insert in Hj. destruct (decide (i = j)) as [->|Hne].
    + simplify_eq/=. rewrite decide_True by done. auto.
    + rewrite decide_False by (intros ->; by eapply Hfc).
      destruct (Ha _ _ _ Hj Hw) as [[]|]; auto.
  - intros j1 j2 co co' w. rewrite !lookup_insert.
    destruct (decide (i = j1)) as [Hi1|], (decide (i = j2)) as [Hi2|]; [congruence|..|by apply Hd].
    + intros [= <-] Hj2 [= <-] Hw'. by destruct (Hfc _ _ Hj2).
    + intros Hj1 [= <-] Hw [= <-]. by destruct (Hfc _ _ Hj1).
  - intros k' w [Hw|[-> ->]]%Hin; rewrite lookup_insert; case_decide; auto; [|done].
    by apply Hq in Hw.
  - intros k'. rewrite Hq'. case_decide; [|done]. apply NoDup_app. split_and!; [done| |].
    + intros w Hw ->%list_elem_of_singleton. by eapply Hfq.
    + apply NoDup_singleton.
  - intros k1 k2 w [H1|[-> ->]]%Hin [H2|[? ->]]%Hin; subst; try done; [by eapply Hdis|..];
      exfalso; by eapply Hfq.
Qed.

Lemma checkout_waiters is_open p k waiting fresh now :
  let '(r, p') := checkout is_open p k waiting fresh now in
  waiters p' = match r, waiting with
               | None, false => <[k := default [] (waiters p !! k) ++ [fresh]]> (waiters p)
               | _, _ => waiters p
               end.
Proof.
  unfold checkout. destruct (_ ≫= _) as [[e []]|]; simpl; [done..|]. by destruct waiting.
Qed.

Lemma poll_wait is_open (w w' : World T K) cs i co co' fresh now r :
  cs !! i = Some co → w.2 !! fresh = None →
  wait_ok (waiters w.1) w.2 cs → Checkout_poll is_open w co fresh now = (r, co', w') →
  wait_ok (waiters w'.1) w'.2 (<[i := co']> cs).
Proof.
  destruct w as [p c]. simpl. intros Hi Hf Hw. unfold Checkout_poll, poll_waiter. simpl.
  set (none := {| co_key := co_key co; co_waiter := None |}).
  assert (wait_ok (waiters p) c (<[i := none]> cs)) as Hnone.
  { eapply wait_ok_sub; [|exact Hw]. intros j co1 w1. rewrite lookup_insert.
    case_decide; [|done]. by intros [= <-]. }
  destruct (co_waiter co) as [rx|] eqn:Hco.
  - assert (wait_ok (waiters p) c (<[i := co]> cs)) as Hsame by (by rewrite insert_id).
    assert (c !! rx ≠ Some Waiting → c !! rx ≠ Some RxDropped →
      wait_ok (waiters p) (delete rx c) (<[i := none]> cs)) as Hdel.
    { intros H1 H2. eapply wait_ok_close; [| |done|done|exact Hnone].
      - intros j co1. rewrite lookup_insert. case_decide as Hj; [by intros [= <-]|].
        intros Hj1 Hw1. by destruct Hj, (wo_distinct _ _ _ Hw i j co co1 rx).
      - intros w Hne. by rewrite lookup_delete_ne. }
    unfold poll_rx. destruct (c !! rx) as [[|v| |]|] eqn:Hrx; intros [= <- <- <-]; simpl; auto.
  - pose proof (checkout_waiters is_open p (co_key co) false fresh now) as Hsp.
    change (co_key none) with (co_key co).
    destruct (checkout _ _ _ _ _ _) as [[v|] p']; intros [= <- <- <-]; simpl.
    + by rewrite Hsp.
    + rewrite Hsp. by apply wait_ok_register.
Qed.

Lemma drop_checkout_wait q c cs i co :
  cs !! i = Some co → wait_ok q c cs →
  wait_ok q (match co_waiter co with Some rx => drop_rx rx c | None => c end) (delete i cs).
Proof.
  intros Hi Hw.
  assert (wait_ok q c (delete i cs)) as Hdel.
  { eapply wait_ok_sub; [|exact Hw]. intros j co1 w1. rewrite lookup_delete. by case_decide. }
  destruct (co_waiter co) as [rx|] eqn:Hco; [|done].
  pose proof (wo_attended _ _ _ Hw _ _ _ Hi Hco) as Hat.
  apply (wait_ok_close _ c _ _ rx).
  - intros j co1. rewrite lookup_delete. case_decide as Hj; [done|]. intros Hj1 Hw1.
    by destruct Hj, (wo_distinct _ _ _ Hw i j co co1 rx).
  - intros w Hne. unfold drop_rx. destruct (c !! rx) as [[]|];
      by rewrite ?lookup_insert_ne, ?lookup_delete_ne.
  - intros Hc. unfold drop_rx. by rewrite Hc, lookup_insert_eq.
  - intros Hc. destruct Hat as [[]|[[]|]]; congruence.
  - done.
Qed.

Lemma drop_connecting_wait (w : World T K) cn cs :
  wait_ok (waiters w.1) w.2 cs →
  wait_ok (waiters (drop_connecting w cn).1) (drop_connecting w cn).2 cs.
Proof. intros Hw. unfold drop_connecting. destruct (cn_pool cn); [by apply w_connected_wait|done]. Qed.

Lemma Pool_connecting_waiters p key ver r p' :
  Pool_connecting (Some p) key ver = (r, Some p') → waiters p' = waiters p.
Proof. unfold Pool_connecting, lock_connecting. intros Hc. by repeat case_match; simplify_eq/=. Qed.

Lemma step_wait s s' :
  step s s' → wait_ok (waiters (inner s)) (chans s) (checkouts s) →
  wait_ok (waiters (inner s')) (chans s') (checkouts s').
Proof.
  intros Hs Hw. step_cases Hs; simpl.
  - eapply wait_ok_sub; [|exact Hw]. intros j co w. rewrite lookup_insert.
    case_decide; intros Hj Hco; by simplify_eq/=.
  - by eapply (poll_wait is_open (world s)).
  - by apply drop_checkout_wait.
  - by apply clean_wait.
  - by rewrite (Pool_connecting_waiters _ _ _ _ _ Hc).
  - by rewrite (Pool_connecting_waiters _ _ _ _ _ Hc).
  - by apply (drop_connecting_wait (world s)).
  - unfold pooled in Hpl. destruct (reserve v).
    + destruct (w_put _ _ _ _) as [w1|] eqn:Hput; [|done]. simplify_eq/=.
      apply (w_connected_wait w1). by eapply (w_put_wait (world s)).
    + simplify_eq/=. by apply (drop_connecting_wait (world s)).
  - unfold drop_pooled in Hd. repeat case_match; simplify_eq/=; try done.
    by eapply (w_put_wait (world s)).
  - unfold clear_expired in Hc. destruct (timeout (inner s)); [|done]. by simplify_eq/=.
Qed.

Lemma initial_wait p :
  waiters p = ∅ →
  wait_ok (waiters (inner (initial p))) (chans (initial p)) (checkouts (initial p)).
Proof.
  intros Hp. simpl. rewrite Hp.
  split; unfold waiting; intros *; rewrite ?lookup_empty; simpl; try done; try set_solver.
  constructor.
Qed.

(** C10: No checkout waits forever behind the pool's back: in every reachable
    state a checkout that was told to wait is still in the queue of its key
    with its channel open, or a connection has been sent to it, or its sender
    has been dropped, which wakes it with an error.  No two checkouts share a
    channel. *)
Theorem waiters_attended p s i co w :
  waiters p = ∅ → rtc step (initial p) s →
  checkouts s !! i = Some co → co_waiter co = Some w →
  attended (waiters (inner s)) (chans s) co w ∧
  ∀ j co', checkouts s !! j = Some co' → co_waiter co' = Some w → i = j.
Proof.
  intros Hp Hr.
  assert (wait_ok (waiters (inner s)) (chans s) (checkouts s)) as Hw.
  { revert s Hr. apply (rtc_ind_r (λ s, wait_ok (waiters (inner s)) (chans s) (checkouts s))).
    - by apply initial_wait.
    - intros s1 s2 _ Hs. by apply step_wait. }
  intros Hi Hco. split; [by eapply wo_attended|]. intros j co' Hj Hco'.
  by eapply (wo_distinct _ _ _ Hw).
Qed.
End waiting.

(** ** A connection serves only the key it was made for *)
Section keys.
Context {T K : Type} `{Countable K, LL : !LruLib K, PT : Poolable T}.
Implicit Types (p : PoolInner T K) (k : K) (v : T) (s : Sys T K) (c : gmap nat (Chan T)).

(** [made_for v k]: the connection [v] was made for the key [k].  A step that
    ends an attempt delivers a connection that was made for the attempt's
    key. *)
Variable made_for : T → K → Prop.

Definition kstep s s' : Prop :=
  step s s' ∧
  ∀ j pl, pooleds s !! j = None → pooleds s' !! j = Some pl → is_reused pl = false →
          made_for (pl_value pl) (pl_key pl).

Definition idle_home p : Prop := ∀ k e, e ∈ idle_list p k → made_for (value e) k.
Definition sent_home c (cs : gmap nat (Checkout K)) : Prop :=
  ∀ i co w v, cs !! i = Some co → co_waiter co = Some w → c !! w = Some (Sent v) →
              made_for v (co_key co).

Lemma idle_home_sub p p' :
  (∀ k l, lru_peek k (idle p') = Some l →
     ∃ l', lru_peek k (idle p) = Some l' ∧ value <$> l ⊆ value <$> l') →
  idle_home p → idle_home p'.
Proof.
  intros Hsub Hp k e. unfold idle_list.
  destruct (lru_peek k (idle p')) as [l|] eqn:Hl; [|by intros ?%elem_of_nil].
  destruct (Hsub _ _ Hl) as (l' & Hl' & Hin). simpl. intros He.
  destruct (list_elem_of_fmap value l' (value e)) as [[e' [-> He']] _].
  - apply Hin, list_elem_of_fmap. by exists e.
  - apply Hp. unfold idle_list. by rewrite Hl'.
Qed.

Lemma put_idle_home p k v now : made_for v k → idle_home p → idle_home (put_idle p k v now).
Proof.
  intros Hv Hp k' e. destruct (decide (k' = k)) as [->|Hne].
  - rewrite idle_put_idle. destruct (_ <=? _); [apply Hp|].
    rewrite elem_of_app, list_elem_of_singleton. intros [He| ->]; [by apply Hp|done].
  - intros He. apply Hp. revert He. unfold idle_list.
    destruct (lru_peek k' (idle (put_idle _ _ _ _))) as [l|] eqn:Hl; [|by intros ?%elem_of_nil].
    assert (lru_peek k' (idle p) = Some l) as ->; [|done].
    unfold put_idle, spawn_idle_interval in Hl. repeat case_match; simpl in Hl;
      by eapply peek_get_or_insert_mut_ne in Hl.
Qed.

Lemma w_put_home (w w' : World T K) k v now cs :
  made_for v k → wait_ok (waiters w.1) w.2 cs → w_put w k v now = Some w' →
  idle_home w.1 → sent_home w.2 cs → idle_home w'.1 ∧ sent_home w'.2 cs.
Proof.
  destruct w as [p c]. unfold w_put. simpl. intros Hv Hw.
  destruct (put_outcome_spec (is_closed c) (send_ok c) p k v now) as (p' & sent & -> & Ho).
  simpl. intros [= <-] Hp Hc. simpl. fold (waiting (waiters p) k) in Ho.
  set (live := filter _ _) in *.
  assert (∀ tx, tx ∈ live → tx ∈ waiting (waiters p) k ∧ c !! tx = Some Waiting) as Hlive
    by (intros; by apply live_Waiting).
  clearbody live.
  assert (∀ l, l ⊆ live → sent_home (send_all ((λ tx, (tx, v)) <$> l) c) cs) as Hsend.
  { intros l Hl i co w v' Hi Hco. rewrite lookup_send_all. case_decide as Hin; [|by eapply Hc].
    intros [= <-]. apply Hl, Hlive in Hin as [Hin Hwt].
    destruct (wo_attended _ _ _ Hw _ _ _ Hi Hco) as [[_ Hq]|[[v' Hv']|Ht]]; [|congruence..].
    by rewrite (wo_disjoint _ _ _ Hw _ k w). }
  destruct Ho as [_ Hi|tx tail ws pre p' _ Hl Hwk Hpre ->|p' Hs Hu ->].
  - done.
  - split; [done|]. apply (Hsend [tx]). rewrite Hl. set_solver.
  - split; [by apply put_idle_home|by apply Hsend].
Qed.

Lemma checkout_home is_open p k waiting fresh now :
  idle_home p → idle_home (checkout is_open p k waiting fresh now).2.
Proof.
  destruct (checkout_idle is_open p k waiting fresh now) as (i & w & -> & _ & _ & _ & Hpk).
  apply idle_home_sub. intros k' l Hl. simpl in Hl.
  destruct (Hpk _ _ Hl) as [[_ Hl']|(l0 & e & -> & Hl0 & He & -> & Hne)]; [by eexists|].
  exists l0. split; [done|].
  destruct (pop_spec is_open (timeout p) now l0) as [[_ Hp]|(pre & e' & post & -> & _ & _ & Hp)];
    rewrite Hp; simpl; [set_solver|].
  rewrite !fmap_app. unfold kept. destruct (can_share _); simpl; set_solver.
Qed.

(** A checkout that gets a connection gets one of its own key. *)
Lemma poll_home is_open (w w' : World T K) cs i co co' fresh now r :
  cs !! i = Some co → w.2 !! fresh = None → wait_ok (waiters w.1) w.2 cs →
  Checkout_poll is_open w co fresh now = (r, co', w') →
  idle_home w.1 → sent_home w.2 cs →
  idle_home w'.1 ∧ sent_home w'.2 (<[i := co']> cs) ∧
  ∀ pl, r = Ready (Ok pl) → made_for (pl_value pl) (pl_key pl).
Proof.
  destruct w as [p c]. simpl. intros Hi Hf Hw. unfold Checkout_poll, poll_waiter. simpl.
  set (none := {| co_key := co_key co; co_waiter := None |}). intros Hpoll Hp Hc.
  assert (∀ rx, sent_home (delete rx c) (<[i := none]> cs)) as Hdel.
  { intros rx j co1 w1 v. rewrite lookup_insert, lookup_delete. repeat case_decide; try done.
    - by intros [= <-].
    - by apply Hc. }
  destruct (co_waiter co) as [rx|] eqn:Hco.
  - unfold poll_rx in Hpoll. destruct (c !! rx) as [[|v| |]|] eqn:Hrx; simplify_eq/=;
      rewrite ?insert_id by done; split_and!; auto; try done.
    intros pl. destruct (is_open v); [|done]. intros [= <-]. by apply (Hc i co rx).
  - pose proof (checkout_home is_open p (co_key co) false fresh now Hp) as Hhome.
    pose proof (checkout_spec is_open p (co_key co) false fresh now) as Hsp.
    change (co_key none) with (co_key co) in Hpoll.
    destruct (checkout _ _ _ _ _ _) as [[v|] p']; simplify_eq/=; split_and!; try done.
    + intros j co1 w1 v1. rewrite lookup_insert. case_decide; [by intros [= <-]|by apply Hc].
    + intros pl [= <-]. simpl. destruct Hsp as [(pre & e & post & Hl & [= ->] & _)|[? _]]; [|done].
      apply Hp. rewrite Hl. set_solver.
    + intros j co1 w1 v1. rewrite !lookup_insert. case_decide; [subst|].
      * intros [= <-] [= <-]. by rewrite decide_True.
      * case_decide; [done|]. by apply Hc.
Qed.

Lemma drop_tx_home txs c cs : sent_home c cs → sent_home (drop_tx txs c) cs.
Proof.
  intros Hc i co w v Hi Hco. rewrite lookup_drop_tx. intros Hs. eapply (Hc i co w v); [done..|].
  by destruct (c !! w) as [[]|]; repeat case_decide.
Qed.

Lemma drop_connecting_home (w : World T K) cn cs :
  idle_home w.1 → sent_home w.2 cs →
  idle_home (drop_connecting w cn).1 ∧ sent_home (drop_connecting w cn).2 cs.
Proof.
  intros Hp Hc. unfold drop_connecting. destruct (cn_pool cn); [|done].
  split; [done|by apply drop_tx_home].
Qed.

Lemma pooled_home (w w' : World T K) cn v now pl cs :
  wait_ok (waiters w.1) w.2 cs → pooled w cn v now = Some (pl, w') →
  made_for (pl_value pl) (pl_key pl) → idle_home w.1 → sent_home w.2 cs →
  idle_home w'.1 ∧ sent_home w'.2 cs.
Proof.
  intros Hw. unfold pooled. rewrite reserve_spec. destruct (can_share v).
  - destruct (w_put _ _ _ _) as [w1|] eqn:Hput; [|done]. simpl. intros [= <- <-] Hv Hp Hc.
    destruct (w_put_home _ _ _ _ _ cs Hv Hw Hput Hp Hc) as [Hp1 Hc1].
    split; [done|by apply drop_tx_home].
  - intros [= <- <-] _. apply drop_connecting_home.
Qed.

Lemma pooled_new (w w' : World T K) cn v now pl :
  pooled w cn v now = Some (pl, w') → is_reused pl = false.
Proof.
  unfold pooled. destruct (reserve v); [|by intros [= <- <-]].
  destruct (w_put _ _ _ _); [by intros [= <- <-]|done].
Qed.

Lemma drop_pooled_home is_open (w w' : World T K) pl now cs :
  wait_ok (waiters w.1) w.2 cs → drop_pooled is_open w pl now = Some w' →
  made_for (pl_value pl) (pl_key pl) → idle_home w.1 → sent_home w.2 cs →
  idle_home w'.1 ∧ sent_home w'.2 cs.
Proof.
  intros Hw. unfold drop_pooled. destruct (negb _); [by intros [= <-]|].
  destruct (pl_pool pl); [|by intros [= <-]]. intros Hput Hv. by eapply w_put_home.
Qed.

Lemma clear_expired_home is_open p p' now :
  clear_expired is_open p now = Some p' → idle_home p → idle_home p'.
Proof.
  intros Hc. assert (∃ dur, timeout p = Some dur) as [dur Ht].
  { unfold clear_expired in Hc. destruct (timeout p); [by eexists|done]. }
  apply idle_home_sub. intros k l. rewrite (peek_clear_expired _ _ _ _ k _ Ht Hc).
  destruct (lru_peek k (idle p)) as [l0|]; [|done]. case_decide; [done|]. intros [= <-].
  exists l0. split; [done|]. intros v Hin%list_elem_of_fmap. apply list_elem_of_fmap.
  destruct Hin as (e & -> & [_ He]%list_elem_of_filter). by exists e.
Qed.

Record home_ok s : Prop := {
  ho_wait : wait_ok (waiters (inner s)) (chans s) (checkouts s);
  ho_idle : idle_home (inner s);
  ho_sent : sent_home (chans s) (checkouts s);
  ho_held j pl : pooleds s !! j = Some pl → made_for (pl_value pl) (pl_key pl);
}.

Lemma kstep_home s s' : kstep s s' → home_ok s → home_ok s'.
Proof.
  intros [Hs Hmade] [Hw Hp Hsent Hh]. pose proof (step_wait _ _ Hs Hw) as Hw'.
  step_cases Hs; simpl in *; split; simpl in *; try done.
  - intros j co w v. rewrite lookup_insert. case_decide; [by intros [= <-]|by apply Hsent].
  - by apply (poll_home is_open (world s) w' (checkouts s) i co co' fresh now r).
  - by apply (poll_home is_open (world s) w' (checkouts s) i co co' fresh now r).
  - destruct (poll_home is_open (world s) w' (checkouts s) i co co' fresh now r) as (_ & _ & Hpl);
      [done..|]. intros j' pl. destruct r as [[pl1|]|]; try apply Hh.
    rewrite lookup_insert. case_decide; [intros [= <-]; by apply Hpl|apply Hh].
  - intros j co1 w v. rewrite lookup_delete. case_decide; [done|]. intros Hj Hco1 Hx.
    apply (Hsent j co1 w v); [done..|]. destruct (co_waiter co) as [rx|]; [|done].
    unfold drop_rx in Hx. repeat case_match; rewrite ?lookup_insert, ?lookup_delete in Hx;
      by repeat case_decide.
  - unfold clean_waiters. by repeat case_match.
  - unfold Pool_connecting, lock_connecting in Hc. by repeat case_match; simplify_eq/=.
  - unfold alpn_h2, Pool_connecting, lock_connecting in Hc. by repeat case_match; simplify_eq/=.
  - by apply (drop_connecting_home (world s) cn (checkouts s)).
  - by apply (drop_connecting_home (world s) cn (checkouts s)).
  - eapply (pooled_home (world s)); eauto. eapply Hmade; [exact Hj|apply lookup_insert_eq|].
    by eapply pooled_new.
  - eapply (pooled_home (world s)); eauto. eapply Hmade; [exact Hj|apply lookup_insert_eq|].
    by eapply pooled_new.
  - intros j' pl'. rewrite lookup_insert. case_decide; [intros [= <-]; subst|apply Hh].
    eapply Hmade; [exact Hj|apply lookup_insert_eq|by eapply pooled_new].
  - by eapply (drop_pooled_home is_open (world s)); eauto.
  - by eapply (drop_pooled_home is_open (world s)); eauto.
  - intros j' pl'. rewrite lookup_delete. case_decide; [done|apply Hh].
  - by eapply clear_expired_home.
Qed.

Lemma initial_home p : waiters p = ∅ → lru_entries (idle p) = [] → home_ok (initial p).
Proof.
  intros Hw He. split; [by apply initial_wait| |done|done].
  intros k e. unfold idle_list. simpl. rewrite lru_peek_spec, He. by intros ?%elem_of_nil.
Qed.

(** Connections are never mixed up between keys.  Let every connection an
    attempt delivers be one that was made for the attempt's key.  Then in every
    reachable state of the pool, under every interleaving of checkouts, drops,
    attempts and evictions, the connections idle under a key, those on their
    way to a checkout of a key and those held by a request with a key were all
    made for that key: what a request gets from the pool goes to the origin,
    proxy and options of its own key. *)
Theorem connections_stay_with_key p s :
  waiters p = ∅ → lru_entries (idle p) = [] → rtc kstep (initial p) s →
  (∀ k e, e ∈ idle_list (inner s) k → made_for (value e) k) ∧
  (∀ i co w v, checkouts s !! i = Some co → co_waiter co = Some w →
     chans s !! w = Some (Sent v) → made_for v (co_key co)) ∧
  (∀ j pl, pooleds s !! j = Some pl → made_for (pl_value pl) (pl_key pl)).
Proof.
  intros Hw He Hr. assert (home_ok s) as [_ Hi Hc Hh]; [|done].
  revert s Hr. apply (rtc_ind_r home_ok); [by apply initial_home|].
  intros s1 s2 _ Hs. by apply kstep_home.
Qed.
End keys.

(** ** One HTTP/2 connection attempt per key *)
Section locking.
Context {T K : Type} `{Countable K, LL : !LruLib K, PT : Poolable T}.
Implicit Types (p : PoolInner T K) (k : K) (v : T) (s : Sys T K) (c : gmap nat (Chan T)).

(** The locked keys are the keys of the attempts that hold a lock, one attempt
    each. *)
Record lock_ok (keys : gset K) (cns : gmap nat (Connecting K)) : Prop := {
  lo_keys k : k ∈ keys ↔ ∃ i cn, cns !! i = Some cn ∧ cn_pool cn = true ∧ cn_key cn = k;
  lo_one i j cn cn' :
    cns !! i = Some cn → cns !! j = Some cn' → cn_pool cn = true → cn_pool cn' = true →
    cn_key cn = cn_key cn' → i = j;
}.

Lemma lock_ok_insert keys cns i cn :
  (∀ cn0, cns !! i = Some cn0 → cn_pool cn0 = false) → cn_pool cn = false →
  lock_ok keys cns → lock_ok keys (<[i := cn]> cns).
Proof.
  intros Hi Hcn [Hk Ho]. split.
  - intros k. rewrite Hk. split; intros (j & cn1 & Hj & Hl & He).
    + exists j, cn1. rewrite lookup_insert_ne; [done|]. intros ->. by rewrite (Hi _ Hj) in Hl.
    + exists j, cn1. rewrite lookup_insert in Hj. case_decide; simplify_eq; [congruence|done].
  - intros j1 j2 cn1 cn2 H1 H2 Hl1 Hl2. rewrite lookup_insert in H1, H2.
    repeat case_decide; simplify_eq; try congruence. by eapply Ho.
Qed.

Lemma lock_ok_lock keys cns i cn :
  (∀ cn0, cns !! i = Some cn0 → cn_pool cn0 = false) → cn_pool cn = true →
  cn_key cn ∉ keys → lock_ok keys cns → lock_ok ({[cn_key cn]} ∪ keys) (<[i := cn]> cns).
Proof.
  intros Hi Hcn Hnew [Hk Ho].
  assert (∀ j cn1, cns !! j = Some cn1 → cn_pool cn1 = true → cn_key cn1 ≠ cn_key cn) as Hne.
  { intros j cn1 Hj Hl He. apply Hnew, Hk. eauto. }
  split.
  - intros k. rewrite elem_of_union, elem_of_singleton, Hk. split.
    + intros [->|(j & cn1 & Hj & Hl & He)].
      * exists i, cn. by rewrite lookup_insert_eq.
      * exists j, cn1. rewrite lookup_insert_ne; [done|]. intros ->. by rewrite (Hi _ Hj) in Hl.
    + intros (j & cn1 & Hj & Hl & He). rewrite lookup_insert in Hj.
      case_decide; simplify_eq; [by left|right; eauto].
  - intros j1 j2 cn1 cn2. rewrite !lookup_insert.
    destruct (decide (i = j1)), (decide (i = j2)); [congruence|..|by apply Ho].
    + intros [= <-] H2 _ Hl2 He. by destruct (Hne _ _ H2 Hl2).
    + intros H1 [= <-] Hl1 _ He. by destruct (Hne _ _ H1 Hl1).
Qed.

Lemma lock_ok_delete keys cns i cn :
  cns !! i = Some cn → lock_ok keys cns →
  lock_ok (if cn_pool cn then keys ∖ {[cn_key cn]} else keys) (delete i cns).
Proof.
  intros Hi [Hk Ho]. split.
  - intros k. assert ((∃ j cn1, delete i cns !! j = Some cn1 ∧ cn_pool cn1 = true ∧ cn_key cn1 = k) ↔
      k ∈ keys ∧ ¬ (cn_pool cn = true ∧ cn_key cn = k)) as ->.
    { rewrite Hk. split.
      - intros (j & cn1 & Hj & Hl & He). rewrite lookup_delete in Hj. case_decide as Hij; [done|].
        split; [eauto|]. intros [Hl' He']. apply Hij. eapply Ho; eauto. congruence.
      - intros [(j & cn1 & Hj & Hl & He) Hn]. exists j, cn1. rewrite lookup_delete_ne; [done|].
        intros ->. rewrite Hi in Hj. naive_solver. }
    destruct (cn_pool cn); set_solver.
  - intros j1 j2 cn1 cn2 H1 H2. rewrite lookup_delete in H1, H2.
    repeat case_decide; try done. by apply Ho.
Qed.

(** Only taking and releasing a lock changes the locked keys. *)
Lemma connecting_put_idle p k v now : connecting (put_idle p k v now) = connecting p.
Proof.
  unfold put_idle, spawn_idle_interval. destruct (_ <=? _); [done|]. simpl. by repeat case_match.
Qed.

Lemma connecting_w_put (w w' : World T K) k v now :
  w_put w k v now = Some w' → connecting w'.1 = connecting w.1.
Proof.
  unfold w_put.
  destruct (put_outcome_spec (is_closed w.2) (send_ok w.2) w.1 k v now) as (p' & sent & -> & Ho).
  simpl. intros [= <-]. destruct Ho as [| |p' _ _ ->]; subst; try done. simpl. by rewrite connecting_put_idle.
Qed.

Lemma connecting_poll is_open (w w' : World T K) co co' fresh now r :
  Checkout_poll is_open w co fresh now = (r, co', w') → connecting w'.1 = connecting w.1.
Proof.
  unfold Checkout_poll. destruct (poll_waiter _ _ _) as [[[[r'|]|] co1] c1];
    try by intros [= <- <- <-].
  destruct (checkout_idle is_open w.1 (co_key co1) false fresh now) as (i & ws & Heq & _).
  destruct (checkout _ _ _ _ _ _) as [[v|] p']; simpl in Heq; intros [= <- <- <-]; by subst.
Qed.

Lemma lock_ok_connecting p keys_cns i key ver cn p' :
  (∀ cn0, keys_cns !! i = Some cn0 → cn_pool cn0 = false) →
  Pool_connecting (Some p) key ver = (Some cn, Some p') →
  lock_ok (connecting p) keys_cns → lock_ok (connecting p') (<[i := cn]> keys_cns).
Proof.
  unfold Pool_connecting, lock_connecting. intros Hi Hc Hl. destruct ver; simplify_eq/=.
  - by apply lock_ok_insert.
  - case_decide as Hk; simplify_eq/=. by apply (lock_ok_lock _ _ i {| cn_key := key; cn_pool := true |}).
Qed.

Lemma drop_connecting_keys (w : World T K) cn :
  connecting (drop_connecting w cn).1 =
  if cn_pool cn then connecting w.1 ∖ {[cn_key cn]} else connecting w.1.
Proof. unfold drop_connecting. by destruct (cn_pool cn). Qed.

Lemma step_lock s s' :
  step s s' → lock_ok (connecting (inner s)) (connectings s) →
  lock_ok (connecting (inner s')) (connectings s').
Proof.
  intros Hs Hl. step_cases Hs; simpl; try done.
  - by rewrite (connecting_poll _ _ _ _ _ _ _ _ Hpoll).
  - unfold clean_waiters. by repeat case_match.
  - eapply lock_ok_connecting; [|exact Hc|done]. intros cn0. by rewrite Hi.
  - destruct r as [cn'|].
    + eapply lock_ok_connecting; [|exact Hc|done]. intros cn0. rewrite Hi. by intros [= <-].
    + unfold alpn_h2, Pool_connecting, lock_connecting in Hc. case_decide; simplify_eq/=.
      pose proof (lock_ok_delete _ _ _ _ Hi Hl) as Hd. by rewrite Hcn in Hd.
  - rewrite (drop_connecting_keys (world s)). by apply lock_ok_delete.
  - pose proof (lock_ok_delete _ _ _ _ Hi Hl) as Hd.
    unfold pooled in Hpl. rewrite reserve_spec, Hv in Hpl. destruct (cn_pool cn) eqn:Hcn.
    + destruct (w_put _ _ _ _) as [w1|] eqn:Hput; [|done]. simplify_eq/=.
      by rewrite (connecting_w_put _ _ _ _ _ Hput).
    + simplify_eq/=. by rewrite (drop_connecting_keys (world s)), Hcn.
  - unfold drop_pooled in Hd. repeat case_match; simplify_eq/=; try done.
    by rewrite (connecting_w_put _ _ _ _ _ Hd).
  - unfold clear_expired in Hc. destruct (timeout (inner s)); [|done]. by simplify_eq/=.
Qed.

Lemma initial_lock p :
  connecting p = ∅ → lock_ok (connecting (inner (initial p))) (connectings (initial p)).
Proof.
  intros Hp. simpl. rewrite Hp. split; [|intros *; by rewrite lookup_empty].
  intros k. split; [set_solver|]. intros (i & cn & Hi & _). by rewrite lookup_empty in Hi.
Qed.

(** C30: In every reachable state at most one connection attempt per key holds
    the HTTP/2 lock; the locked keys are exactly those of the attempts that
    hold one.  So the lock is never leaked, releasing it always finds it
    there, and a second attempt gets it exactly when no other has it. *)
Theorem http2_attempts_exclusive p s :
  connecting p = ∅ → rtc step (initial p) s →
  (∀ i j cn cn', connectings s !! i = Some cn → connectings s !! j = Some cn' →
     cn_pool cn = true → cn_pool cn' = true → cn_key cn = cn_key cn' → i = j) ∧
  (∀ key, (Pool_connecting (Some (inner s)) key Http2).1 = None ↔
     ∃ i cn, connectings s !! i = Some cn ∧ cn_pool cn = true ∧ cn_key cn = key).
Proof.
  intros Hp Hr. assert (lock_ok (connecting (inner s)) (connectings s)) as Hl.
  { revert s Hr. apply (rtc_ind_r (λ s, lock_ok (connecting (inner s)) (connectings s))).
    - by apply initial_lock.
    - intros s1 s2 _ Hs. by apply step_lock. }
  split; [apply (lo_one _ _ Hl)|]. intros key. rewrite <- (lo_keys _ _ Hl).
  unfold Pool_connecting, lock_connecting. by case_decide.
Qed.

(** *** The end of an attempt wakes those who wait for it *)

(** A waiter that is not served keeps its place in the queue. *)
Lemma w_put_queue (w w' : World T K) k v now x k' :
  w_put w k v now = Some w' → x ∈ waiting (waiters w.1) k' → w'.2 !! x = Some Waiting →
  x ∈ waiting (waiters w'.1) k'.
Proof.
  destruct w as [p c]. unfold w_put. simpl.
  destruct (put_outcome_spec (is_closed c) (send_ok c) p k v now) as (p' & sent & -> & Ho).
  simpl. intros [= <-]. simpl. fold (waiting (waiters p) k) in Ho.
  set (live := filter _ _) in *.
  assert (∀ w, w ∈ live ↔ w ∈ waiting (waiters p) k ∧ c !! w = Some Waiting) as Hlive
    by (intros; apply live_Waiting).
  clearbody live. destruct Ho as [Hv Hi|tx tail ws pre p' Hv Hl Hwk Hpre ->|p' Hs Hu ->]; [done|..].
  - simpl. rewrite waiting_queue, lookup_insert. case_decide as Htx; [done|].
    case_decide as Hk; [|done]. unfold waiting. subst. rewrite Hwk. simpl.
    rewrite elem_of_app, elem_of_cons. intros [Hx|[->|Hx]] Hc; [|done|done].
    destruct (Hpre _ Hx). apply Hlive. split; [|done]. unfold waiting. rewrite Hwk. set_solver.
  - rewrite waiters_put_idle, lookup_send_all. simpl. rewrite waiting_delete.
    case_decide as Hx; [done|]. case_decide as Hk; [|done]. subst. intros Hin Hc.
    destruct Hx. by apply Hlive.
Qed.

(** Releasing a lock leaves nobody waiting for its key. *)
Lemma w_connected_lock (w : World T K) key x k :
  x ∈ waiting (waiters w.1) k → k ∈ connecting w.1 → (w_connected w key).2 !! x = Some Waiting →
  k ∈ connecting (w_connected w key).1.
Proof.
  simpl. rewrite lookup_drop_tx. intros Hx Hk Hc.
  assert (k ≠ key) as Hne; [|set_solver]. intros ->. fold (waiting (waiters w.1) key) in Hc.
  destruct (w.2 !! x) as [[]|]; try done. by rewrite decide_True in Hc.
Qed.

Lemma drop_connecting_lock (w : World T K) cn x k :
  x ∈ waiting (waiters w.1) k → k ∈ connecting w.1 → (drop_connecting w cn).2 !! x = Some Waiting →
  k ∈ connecting (drop_connecting w cn).1.
Proof. unfold drop_connecting. destruct (cn_pool cn); [apply w_connected_lock|done]. Qed.

Lemma step_lock_kept s s' x k :
  step s s' → x ∈ waiting (waiters (inner s)) k → k ∈ connecting (inner s) →
  chans s' !! x = Some Waiting → k ∈ connecting (inner s').
Proof.
  intros Hs Hx Hk. step_cases Hs; simpl; try done.
  - by rewrite (connecting_poll _ _ _ _ _ _ _ _ Hpoll).
  - unfold clean_waiters. by repeat case_match.
  - unfold Pool_connecting, lock_connecting in Hc. repeat case_match; simplify_eq/=; set_solver.
  - unfold alpn_h2, Pool_connecting, lock_connecting in Hc. repeat case_match; simplify_eq/=; set_solver.
  - by apply (drop_connecting_lock (world s)).
  - unfold pooled in Hpl. destruct (reserve v).
    + destruct (w_put _ _ _ _) as [w1|] eqn:Hput; [|done]. simplify_eq/=. intros Hc.
      apply (w_connected_lock w1 (cn_key cn) x); [|by rewrite (connecting_w_put _ _ _ _ _ Hput)|done].
      apply (w_put_queue _ _ _ _ _ _ _ Hput); [done|]. rewrite lookup_drop_tx in Hc.
      by destruct (w1.2 !! x) as [[]|].
    + simplify_eq/=. by apply (drop_connecting_lock (world s)).
  - unfold drop_pooled in Hd. repeat case_match; simplify_eq/=; try done.
    by rewrite (connecting_w_put _ _ _ _ _ Hd).
  - unfold clear_expired in Hc. destruct (timeout (inner s)); [|done]. by simplify_eq/=.
Qed.

(** A channel waits only if it is new or has waited before. *)
Lemma w_put_waiting (w w' : World T K) k v now x :
  w_put w k v now = Some w' → w'.2 !! x = Some Waiting → w.2 !! x = Some Waiting.
Proof.
  unfold w_put. destruct (put _ _ _ _ _ _) as [[p sent]|]; [|done]. intros [= <-]. simpl.
  induction sent as [|[tx y] sent IH]; simpl; [done|]. rewrite lookup_insert. by case_decide.
Qed.

Lemma drop_connecting_waiting (w : World T K) cn x :
  (drop_connecting w cn).2 !! x = Some Waiting → w.2 !! x = Some Waiting.
Proof.
  unfold drop_connecting. destruct (cn_pool cn); [|done]. simpl. rewrite lookup_drop_tx.
  by destruct (w.2 !! x) as [[]|].
Qed.

Lemma step_waiting_old s s' x :
  step s s' → chans s' !! x = Some Waiting → chans s !! x = Some Waiting ∨ chans s !! x = None.
Proof.
  intros Hs. step_cases Hs; simpl; auto.
  - unfold Checkout_poll, poll_waiter in Hpoll. destruct (co_waiter co) as [rx|].
    + destruct (poll_rx _ _) as [[]|]; simplify_eq/=; rewrite ?lookup_delete; try case_decide; auto;
        done.
    + destruct (checkout _ _ _ _ _ _) as [[]]; simplify_eq/=; auto.
      rewrite lookup_insert. case_decide; [subst; auto|auto].
  - destruct (co_waiter co) as [rx|]; [|auto]. unfold drop_rx. repeat case_match;
      rewrite ?lookup_insert, ?lookup_delete; case_decide; auto; done.
  - intros Hx%(drop_connecting_waiting (world s)). auto.
  - unfold pooled in Hpl. destruct (reserve v).
    + destruct (w_put _ _ _ _) as [w1|] eqn:Hput; [|done]. simplify_eq/=.
      rewrite lookup_drop_tx. destruct (w1.2 !! x) as [[]|] eqn:Hw; try done.
      left. by eapply (w_put_waiting (world s)).
    + simplify_eq/=. intros Hx%(drop_connecting_waiting (world s)). auto.
  - unfold drop_pooled in Hd. repeat case_match; simplify_eq/=; auto.
    intros Hx. left. by eapply (w_put_waiting (world s)).
Qed.

(** A checkout waits for an attempt that holds the lock of its key for as long
    as its channel is open. *)
Definition covered s (co : Checkout K) (x : nat) : Prop :=
  chans s !! x = Some Waiting → co_key co ∈ connecting (inner s).

Lemma step_covered s s' i co x :
  step s s' → wait_ok (waiters (inner s)) (chans s) (checkouts s) →
  checkouts s !! i = Some co → co_waiter co = Some x → covered s co x → covered s' co x.
Proof.
  intros Hs Hw Hi Hco Hcov Hx.
  destruct (wo_attended _ _ _ Hw _ _ _ Hi Hco) as [[Hc Hq]|Hc].
  - eapply (step_lock_kept s); eauto.
  - destruct (step_waiting_old _ _ _ Hs Hx); destruct Hc as [[]|]; congruence.
Qed.
End locking.

(** ** Examples *)
Module SystemExamples.
Import PoolExamples.

Definition conn := PoolClient nat nat nat.
Definition pool0 : PoolInner conn nat :=
  {| connecting := ∅; idle := lru_new (Some 3); max_idle_per_host := 2; waiters := ∅;
     idle_interval_ref := false; timer_is_empty := false; timeout := Some 100%Z |}.

(** A checkout waits for key 7 while an HTTP/2 attempt for key 9 is under
    way. *)
Definition co7 : Checkout nat := {| co_key := 7; co_waiter := Some 0 |}.
Definition cn9 : Connecting nat := {| cn_key := 9; cn_pool := true |}.

Definition asked : Sys conn nat :=
  {| inner := pool0; chans := ∅;
     checkouts := <[1 := {| co_key := 7; co_waiter := None |}]> ∅;
     connectings := ∅; pooleds := ∅ |}.
Definition polled : World conn nat :=
  (Checkout_poll (λ _, true) (world asked) {| co_key := 7; co_waiter := None |} 0 50).2.
Definition queued : Sys conn nat :=
  {| inner := polled.1; chans := polled.2; checkouts := <[1 := co7]> (checkouts asked);
     connectings := connectings asked; pooleds := pooleds asked |}.
Definition busy : Sys conn nat :=
  {| inner := (lock_connecting 9 (inner queued)).2; chans := chans queued;
     checkouts := checkouts queued; connectings := <[2 := cn9]> (connectings queued);
     pooleds := pooleds queued |}.

Lemma busy_reachable : rtc step (initial pool0) busy.
Proof.
  transitivity asked; [apply rtc_once, (step_checkout (initial pool0) 1 7); reflexivity|].
  transitivity queued.
  - apply rtc_once.
    by apply (step_poll asked 1 {| co_key := 7; co_waiter := None |} (λ _, true) 0 50
                Pending co7 polled 0).
  - apply rtc_once. by apply (step_connecting queued 2 9 Http2 cn9).
Qed.

Lemma unique_connections_exclusive_witness :
  lru_entries (idle pool0) = [] ∧ NoDup (uniq (places busy)).
Proof.
  split; [reflexivity|].
  apply (unique_connections_exclusive pool0 busy); [reflexivity|apply busy_reachable].
Defined.

Lemma pool_bounds_witness :
  Pool_new cfg false = Some pool0 ∧ length (lru_entries (idle (inner busy))) <= 3.
Proof.
  split; [reflexivity|].
  destruct (pool_bounds cfg false pool0 busy) as (Hn & _ & _ & _);
    [done|reflexivity|apply busy_reachable|].
  by apply Hn.
Defined.

Lemma waiters_attended_witness :
  attended (waiters (inner busy)) (chans busy) co7 0.
Proof.
  apply (waiters_attended pool0 busy 1 co7 0); [reflexivity|apply busy_reachable|reflexivity..].
Defined.

Lemma http2_attempts_exclusive_witness :
  (Pool_connecting (Some (inner busy)) 9 Http2).1 = None.
Proof.
  apply (http2_attempts_exclusive pool0 busy); [reflexivity|apply busy_reachable|].
  exists 2, cn9. done.
Defined.

(** A connection for key 7 is made, used and returned; it is idle under its
    key. *)
Definition cn7 : Connecting nat := {| cn_key := 7; cn_pool := false |}.
Definition pl7 : Pooled conn nat :=
  {| pl_value := h1 7; is_reused := false; pl_key := 7; pl_pool := true |}.
Definition connecting7 : Sys conn nat :=
  {| inner := pool0; chans := ∅; checkouts := ∅; connectings := <[1 := cn7]> ∅; pooleds := ∅ |}.
Definition in_use7 : Sys conn nat :=
  {| inner := pool0; chans := ∅; checkouts := ∅; connectings := delete 1 (<[1 := cn7]> ∅);
     pooleds := <[1 := pl7]> ∅ |}.
Definition returned7 : World conn nat :=
  default (world in_use7) (drop_pooled (λ _, true) (world in_use7) pl7 10).
Definition idle7 : Sys conn nat :=
  {| inner := returned7.1; chans := returned7.2; checkouts := ∅;
     connectings := connectings in_use7; pooleds := delete 1 (pooleds in_use7) |}.

Lemma idle7_reachable : rtc (kstep (λ c, eq (conn_info c))) (initial pool0) idle7.
Proof.
  transitivity connecting7; [apply rtc_once; split|].
  - by apply (step_connecting (initial pool0) 1 7 Auto cn7 pool0).
  - intros j pl _. simpl. by rewrite lookup_empty.
  - transitivity in_use7; apply rtc_once; split.
    + apply (step_pooled connecting7 1 cn7 (h1 7) 5 pl7 (pool0, ∅) 1); try done.
      by intros ?%elem_of_nil.
    + intros j pl _. simpl. rewrite lookup_insert. case_decide; [by intros [= <-]|done].
    + by apply (step_drop_pooled in_use7 1 pl7 (λ _, true) 10 returned7).
    + intros j pl Hj. simpl in *. rewrite lookup_delete, Hj. by case_decide.
Qed.

Lemma connections_stay_with_key_witness :
  idle_list (inner idle7) 7 = [entry 10 7] ∧ conn_info (value (entry 10 7)) = 7.
Proof.
  split; [reflexivity|].
  apply (connections_stay_with_key (λ c, eq (conn_info c)) pool0 idle7);
    [reflexivity|reflexivity|apply idle7_reachable|].
  change (idle_list (inner idle7) 7) with [entry 10 7]. by apply list_elem_of_singleton.
Defined.
End SystemExamples.
