(* ===== verification/Redirect.v ===== *)
(** * Following redirects

    [src/redirect.rs]: the policies and the state kept along a redirect
    chain, with the referrer policy; [src/client/layer/redirect.rs] and
    [redirect/future.rs]: the middleware.  The service below the middleware is
    outside the model: the middleware is a machine that sends requests and is
    resumed with their responses.  An asynchronous decision of a custom policy
    is resumed with the action it resolves to. *)

From S2P Require Import Prelude Http Ext Message.

(** ** Referrer policies *)
Inductive ReferrerPolicy :=
| RPNone
| NoReferrer
| NoReferrerWhenDowngrade
| SameOrigin
| Origin
| StrictOrigin
| OriginWhenCrossOrigin
| StrictOriginWhenCrossOrigin
| UnsafeUrl.

#[export] Instance ReferrerPolicy_eq_dec : EqDecision ReferrerPolicy.
Proof. solve_decision. Defined.

Definition TOKENS : list (str * ReferrerPolicy) :=
  [(#"no-referrer", NoReferrer);
   (#"no-referrer-when-downgrade", NoReferrerWhenDowngrade);
   (#"same-origin", SameOrigin);
   (#"origin", Origin);
   (#"strict-origin", StrictOrigin);
   (#"origin-when-cross-origin", OriginWhenCrossOrigin);
   (#"strict-origin-when-cross-origin", StrictOriginWhenCrossOrigin);
   (#"unsafe-url", UnsafeUrl)].

Definition policy_of_token (token : str) : ReferrerPolicy :=
  match list_find (λ '(name, _), eq_ignore_ascii_case token name = true) TOKENS with
  | Some (_, (_, policy)) => policy
  | None => RPNone
  end.

Section referrer.
Context `{HV : HeaderValueLib, HM : HeaderMapLib, UL : UriLib, UR : UrlLib}.

(** The loop over the tokens of the [Referrer-Policy] fields. *)
Definition policy_of_headers (headers : HeaderMap HeaderValue) : ReferrerPolicy :=
  foldl (λ policy value,
    match to_str value with
    | None => policy
    | Some value =>
      foldl (λ policy token,
        let parsed := policy_of_token (trim token) in
        if decide (parsed ≠ RPNone) then parsed else policy) policy (split ","%char value)
    end) RPNone (hm_get_all headers REFERRER_POLICY).

Record Referrer := {
  source : option Url;
  rpolicy : ReferrerPolicy;
}.

Definition strip_to_origin_url (url : Url) : Url :=
  Url_set_fragment None (Url_set_query None (Url_set_path [] url)).

Definition parse_referrer (value : HeaderValue) : option Url :=
  s ← to_str value;
  source ← Url_parse s;
  scheme ← scheme_parse (Url_scheme source);
  if negb (scheme_eqb scheme HTTP) && negb (scheme_eqb scheme HTTPS) then None else
  source ← Url_set_username [] source;
  source ← Url_set_password None source;
  let source := Url_set_fragment None source in
  Some (if 4096 <? length (Url_as_str source) then strip_to_origin_url source else source).

Definition Referrer_default : Referrer :=
  {| source := None; rpolicy := StrictOriginWhenCrossOrigin |}.

Definition Referrer_new (headers : HeaderMap HeaderValue) : Referrer :=
  {| source := hm_get headers REFERER ≫= parse_referrer;
     rpolicy := StrictOriginWhenCrossOrigin |}.

Definition Referrer_on_redirect (headers : HeaderMap HeaderValue) (self : Referrer) : Referrer :=
  match policy_of_headers headers with
  | RPNone => self
  | policy => {| source := source self; rpolicy := policy |}
  end.

Definition referrer_same_origin (source : Url) (source_scheme : Scheme) (destination : Uri) :
    bool :=
  match Url_host_str source, uri_host destination with
  | Some source, Some destination => eq_ignore_ascii_case source destination
  | None, None => true
  | _, _ => false
  end
  && option_scheme_eqb (uri_scheme destination) (Some source_scheme)
  && bool_decide (Url_port_or_known_default source = Some (port_or_default destination)).

(** The decision of [Referrer::apply]: no referrer, or one that is stripped to
    its origin or not. *)
Definition referrer_decision (policy : ReferrerPolicy) (same_origin downgrade : bool) :
    option bool :=
  match policy with
  | NoReferrer => None
  | NoReferrerWhenDowngrade => if downgrade then None else Some false
  | SameOrigin => if negb same_origin then None else Some false
  | StrictOrigin => if downgrade then None else Some true
  | StrictOriginWhenCrossOrigin | RPNone =>
    if negb same_origin && downgrade then None else Some (negb same_origin)
  | Origin => Some true
  | OriginWhenCrossOrigin => Some (negb same_origin)
  | UnsafeUrl => Some false
  end.

(** URLs are ASCII text, on which [HeaderValue::try_from] and
    [from_maybe_shared] agree. *)
Definition Referrer_apply {E B} (self : Referrer) (req : Request E B) : Referrer * Request E B :=
  let drop := ({| source := None; rpolicy := rpolicy self |},
               set_headers (hm_remove REFERER (req_headers req)) req) in
  match source self with
  | None => drop
  | Some src =>
    let sensitive := match hm_get (req_headers req) REFERER with
                     | Some v => hv_sensitive v
                     | None => false
                     end in
    match scheme_parse (Url_scheme src) with
    | None => drop
    | Some source_scheme =>
      let same_origin := referrer_same_origin src source_scheme (req_uri req) in
      let downgrade := scheme_eqb source_scheme HTTPS
                       && option_scheme_eqb (uri_scheme (req_uri req)) (Some HTTP) in
      match referrer_decision (rpolicy self) same_origin downgrade with
      | None => drop
      | Some strip_to_origin =>
        let src := if strip_to_origin then strip_to_origin_url src else src in
        match from_maybe_shared (Url_as_str src) with
        | Some value =>
          ({| source := Some src; rpolicy := rpolicy self |},
           set_headers (hm_insert REFERER (set_sensitive sensitive value) (req_headers req)) req)
        | None => drop
        end
      end
    end
  end.
End referrer.
Arguments Referrer {UR}.

(** ** Policies *)

(** Errors of the middleware: the built-in limit, a custom policy's error, a
    URI whose scheme is not allowed, and [Error::redirect], which names the
    URI at which another error arose. *)
Inductive RedirectError :=
| TooManyRedirects
| PolicyError (e : str)
| BadScheme (u : Uri)
| AtUri (e : RedirectError) (u : Uri).

Inductive Action :=
| Follow
| Stop
| PendingAction
| ActionError (e : RedirectError).

Section policy.
Context `{HV : HeaderValueLib, HM : HeaderMapLib, UL : UriLib, UR : UrlLib}.

Record Attempt := {
  at_status : StatusCode;
  at_headers : HeaderMap HeaderValue;
  at_uri : Uri;
  at_previous : list Uri;
}.

Inductive Policy :=
| Custom (f : Attempt → Action)
| Limit (max : nat)
| NoRedirect.

Definition Policy_default : Policy := Limit 10.

Definition Policy_redirect (self : Policy) (attempt : Attempt) : Action :=
  match self with
  | Custom custom => custom attempt
  | Limit max =>
    if max <? length (at_previous attempt) then ActionError TooManyRedirects else Follow
  | NoRedirect => Stop
  end.

Definition is_none (p : Policy) : bool := match p with NoRedirect => true | _ => false end.

Record HistoryEntry := {
  he_status : StatusCode;
  he_uri : Uri;
  he_previous : Uri;
  he_headers : HeaderMap HeaderValue;
}.

Record FollowRedirectPolicy := {
  policy : RequestConfig Policy;
  referrer : option Referrer;
  uris : list Uri;
  https_only : bool;
  history : option (list HistoryEntry);
}.

Definition FollowRedirectPolicy_new (p : Policy) : FollowRedirectPolicy :=
  {| policy := Some p; referrer := None; uris := []; https_only := false; history := None |}.
Definition with_referer (r : bool) (self : FollowRedirectPolicy) : FollowRedirectPolicy :=
  {| policy := policy self; referrer := if r then Some Referrer_default else None;
     uris := uris self; https_only := https_only self; history := history self |}.
Definition with_https_only (h : bool) (self : FollowRedirectPolicy) : FollowRedirectPolicy :=
  {| policy := policy self; referrer := referrer self; uris := uris self; https_only := h;
     history := history self |}.

(** [FollowRedirectPolicy::redirect].  The outer option is the [expect] that a
    policy is set. *)
Definition redirect (self : FollowRedirectPolicy) (status : StatusCode)
    (headers : HeaderMap HeaderValue) (location previous : Uri) :
    option (FollowRedirectPolicy * result Action RedirectError) :=
  let uris := uris self ++ [previous] in
  let referrer := Referrer_on_redirect headers <$> referrer self in
  let self := {| policy := policy self; referrer := referrer; uris := uris;
                 https_only := https_only self; history := history self |} in
  pol ← policy self;
  let action := Policy_redirect pol {| at_status := status; at_headers := headers;
                                       at_uri := location; at_previous := uris |} in
  Some (match action with
        | ActionError e => (self, Err (AtUri e previous))
        | Follow =>
          if negb (is_http location || is_https location) then (self, Err (BadScheme location))
          else if https_only self && negb (is_https location)
          then (self, Err (AtUri (BadScheme location) location))
          else
            let self := if is_none pol then self else
              {| policy := policy self; referrer := referrer; uris := uris;
                 https_only := https_only self;
                 history := Some (default [] (history self) ++
                   [{| he_status := status; he_uri := location; he_previous := previous;
                       he_headers := headers |}]) |} in
            (self, Ok Follow)
        | action => (self, Ok action)
        end).

Definition same_origin (l r : Uri) : bool :=
  match uri_host l, uri_host r with
  | Some l, Some r => eq_ignore_ascii_case l r
  | None, None => true
  | _, _ => false
  end
  && option_scheme_eqb (uri_scheme l) (uri_scheme r)
  && (port_or_default l =? port_or_default r)%Z.

Definition SENSITIVE : list HeaderName :=
  [AUTHORIZATION; COOKIE; COOKIE2; PROXY_AUTHORIZATION; WWW_AUTHENTICATE].

Definition remove_sensitive_headers {E B} (req : Request E B) (previous : list Uri) :
    Request E B :=
  match last previous with
  | Some previous =>
    if negb (same_origin (req_uri req) previous)
    then set_headers (remove_headers SENSITIVE (req_headers req)) req
    else req
  | None => req
  end.

Definition on_request {E B} (self : FollowRedirectPolicy) (req : Request E B) :
    FollowRedirectPolicy * Request E B :=
  let req := remove_sensitive_headers req (uris self) in
  match uris self, referrer self with
  | _ :: _, Some r =>
    let '(r, req) := Referrer_apply r req in
    ({| policy := policy self; referrer := Some r; uris := uris self;
        https_only := https_only self; history := history self |}, req)
  | _, _ => (self, req)
  end.

(** ** The middleware *)
Context {E B : Type} (slot : Slot E (RequestConfig Policy)).

(** What the middleware adds to a response: the URI it came from and the
    redirect history. *)
Record Annotations := {
  request_uri : option Uri;
  res_history : option (list HistoryEntry);
}.
Definition Resp : Type := Response Annotations B.

Definition annotate (f : Annotations → Annotations) (r : Resp) : Resp :=
  {| res_status := res_status r; res_version := res_version r; res_headers := res_headers r;
     res_ext := f (res_ext r); res_body := res_body r |}.

Definition on_response (self : FollowRedirectPolicy) (res : Resp) : FollowRedirectPolicy * Resp :=
  match history self with
  | Some h =>
    ({| policy := policy self; referrer := referrer self; uris := uris self;
        https_only := https_only self; history := None |},
     annotate (λ a, {| request_uri := request_uri a; res_history := Some h |}) res)
  | None => (self, res)
  end.

(** [for_request]: the policy for this request, if it follows redirects, and
    the policy left on the service. *)
Definition for_request (self : FollowRedirectPolicy) (req : Request E Body) :
    option FollowRedirectPolicy * FollowRedirectPolicy * Request E Body :=
  let '(p, ext) := load slot (policy self) (req_ext req) in
  let self := {| policy := p; referrer := referrer self; uris := uris self;
                 https_only := https_only self; history := history self |} in
  let req := set_ext ext req in
  (match p with
   | Some p =>
     if is_none p then None
     else Some {| policy := policy self;
                  referrer := (λ _, Referrer_new (req_headers req)) <$> referrer self;
                  uris := uris self; https_only := https_only self; history := history self |}
   | None => None
   end, self, req).

Inductive BodyRepr :=
| BSome (b : Body)
| BEmpty
| BNone.

Definition BodyRepr_take (r : BodyRepr) : option Body * BodyRepr :=
  match r with
  | BSome b => (Some b, BNone)
  | BEmpty => (Some Body_empty, BEmpty)
  | BNone => (None, BNone)
  end.

Definition try_clone_from (r : BodyRepr) (body : Body) : BodyRepr :=
  match r with
  | BSome _ | BEmpty => r
  | BNone =>
    if decide (content_length body = Some 0%Z) then BSome Body_empty
    else match try_clone body with Some b => BSome b | None => BNone end
  end.

(** [ResponseFuture::Redirect] between two events. *)
Record Machine := {
  m_policy : FollowRedirectPolicy;
  m_request : Request E unit;
  m_body : BodyRepr;
}.

(** [Pending]: what is kept while a policy decides. *)
Record Suspended := {
  s_machine : Machine;
  s_location : Uri;
  s_body : Body;
  s_res : Resp;
}.

Inductive Outcome :=
| Return (r : result Resp RedirectError)
| Send (req : Request E Body) (m : Machine)
| Suspend (s : Suspended).

(** [FollowRedirect::call]. *)
Inductive Called :=
| Direct (req : Request E Body)
| Redirecting (req : Request E Body) (m : Machine).

Definition call (self : FollowRedirectPolicy) (req : Request E Body) :
    Called * FollowRedirectPolicy :=
  let '(p, self, req) := for_request self req in
  match p with
  | None => (Direct req, self)
  | Some p =>
    let body_repr := try_clone_from BNone (req_body req) in
    let '(p, req) := on_request p req in
    (Redirecting req {| m_policy := p; m_request := with_body tt req; m_body := body_repr |}, self)
  end.

Definition drop_payload_headers (h : HeaderMap HeaderValue) : HeaderMap HeaderValue :=
  remove_headers [CONTENT_TYPE; CONTENT_LENGTH; CONTENT_ENCODING; TRANSFER_ENCODING] h.

Definition resolve_uri (relative : str) (base : Uri) : option Uri :=
  base ← Url_parse (uri_to_string base);
  url ← Url_join base relative;
  result_ok (str_into_uri (Url_as_str url)).

(** [handle_action]; a resolved action is never pending again. *)
Definition handle_action (s : Suspended) (action : Action) : option Outcome :=
  let m := s_machine s in
  match action with
  | Follow =>
    let req := set_uri (s_location s) (m_request m) in
    let body_repr := try_clone_from (m_body m) (s_body s) in
    let '(p, req) := on_request (m_policy m) req in
    Some (Send (with_body (s_body s) req)
            {| m_policy := p; m_request := req; m_body := body_repr |})
  | Stop => Some (Return (Ok (s_res s)))
  | ActionError e => Some (Return (Err e))
  | PendingAction => None
  end.

(** The request and the kept body after a redirect status, or [None] for any
    other status. *)
Definition rewrite_request (status : StatusCode) (req : Request E unit) (body : BodyRepr) :
    option (Request E unit * BodyRepr) :=
  if decide (status = 301 ∨ status = 302)%Z then
    Some (if decide (req_method req = POST)
          then (set_headers (drop_payload_headers (req_headers req)) (set_method GET req), BEmpty)
          else (req, body))
  else if decide (status = 303)%Z then
    let req := if decide (req_method req = HEAD) then req else set_method GET req in
    Some (set_headers (drop_payload_headers (req_headers req)) req, BEmpty)
  else if decide (status = 307 ∨ status = 308)%Z then Some (req, body)
  else None.

(** The [poll] of the middleware when the response arrives. *)
Definition on_reply (m : Machine) (res : Resp) : option Outcome :=
  let res := annotate (λ a, {| request_uri := Some (req_uri (m_request m));
                               res_history := res_history a |}) res in
  match rewrite_request (res_status res) (m_request m) (m_body m) with
  | None => Some (Return (Ok (on_response (m_policy m) res).2))
  | Some (req, body_repr) =>
    match BodyRepr_take body_repr with
    | (None, _) => Some (Return (Ok res))
    | (Some body, body_repr) =>
      match hm_get (res_headers res) LOCATION ≫= λ loc,
            from_utf8 (hv_bytes loc) ≫= λ loc, resolve_uri loc (req_uri req) with
      | None => Some (Return (Ok res))
      | Some location =>
        '(p, action) ← redirect (m_policy m) (res_status res) (res_headers res) location
                         (req_uri req);
        let s := {| s_machine := {| m_policy := p; m_request := req; m_body := body_repr |};
                    s_location := location; s_body := body; s_res := res |} in
        match action with
        | Err e => Some (Return (Err e))
        | Ok PendingAction => Some (Suspend s)
        | Ok action => handle_action s action
        end
      end
    end
  end.
End policy.

(** ** Redirect chains *)
Section chains.
Context `{HV : HeaderValueLib, HM : HeaderMapLib, UL : UriLib, UR : UrlLib}.
Context {E B : Type}.
Implicit Types (m : Machine (E:=E)) (res : Resp (B:=B)).

(** One followed redirect: the machine gets a response and sends the next
    request, at once or after its policy has decided. *)
Inductive hop (status : StatusCode) m : Request E Body → Machine (E:=E) → Prop :=
| hop_now res req' m' :
    res_status res = status → on_reply m res = Some (Send req' m') → hop status m req' m'
| hop_later res s action req' m' :
    res_status res = status → on_reply m res = Some (Suspend s) →
    handle_action s action = Some (Send req' m') → hop status m req' m'.

(** What a followed redirect consists of. *)
Record hop_parts (status : StatusCode) m (req' : Request E Body) (m' : Machine (E:=E))
    (sync : bool) (headers : HeaderMap HeaderValue) (location : Uri)
    (req1 : Request E unit) (br1 br2 : BodyRepr) (body : Body) (p : FollowRedirectPolicy) :
    Prop := {
  hp_rewrite : rewrite_request status (m_request m) (m_body m) = Some (req1, br1);
  hp_take : BodyRepr_take br1 = (Some body, br2);
  hp_policy : redirect (m_policy m) status headers location (req_uri req1) =
    Some (p, Ok (if sync then Follow else PendingAction));
  hp_request : on_request p (set_uri location req1) = (m_policy m', m_request m');
  hp_sent : req' = with_body body (m_request m');
  hp_body : m_body m' = try_clone_from br2 body;
}.

Lemma on_reply_Send m res req' m' :
  on_reply m res = Some (Send req' m') →
  ∃ location req1 br1 br2 body p,
    hop_parts (res_status res) m req' m' true (res_headers res) location req1 br1 br2 body p.
Proof.
  unfold on_reply. simpl.
  destruct (rewrite_request _ _ _) as [[req1 br1]|] eqn:Hr; [|done].
  destruct (BodyRepr_take br1) as [[body|] br2] eqn:Ht; [|done].
  destruct (_ ≫= _) as [location|] eqn:Hl; [|done].
  destruct (redirect _ _ _ _ _) as [[p [[]|e]]|] eqn:Hp; simpl; try done.
  destruct (on_request p _) as [p' req2] eqn:Hq. intros [= <- <-].
  exists location, req1, br1, br2, body, p. split; try done.
Qed.

Lemma on_reply_Suspend m res s req' m' action :
  on_reply m res = Some (Suspend s) → handle_action s action = Some (Send req' m') →
  ∃ req1 br1 br2 body p,
    hop_parts (res_status res) m req' m' false (res_headers res) (s_location s)
      req1 br1 br2 body p.
Proof.
  unfold on_reply. simpl.
  destruct (rewrite_request _ _ _) as [[req1 br1]|] eqn:Hr; [|done].
  destruct (BodyRepr_take br1) as [[body|] br2] eqn:Ht; [|done].
  destruct (_ ≫= _) as [location|] eqn:Hl; [|done].
  destruct (redirect _ _ _ _ _) as [[p [[]|e]]|] eqn:Hp; simpl; try done.
  { by destruct (on_request p _). }
  intros [= <-]. destruct action; try done. simpl.
  destruct (on_request p _) as [p' req2] eqn:Hq. intros [= <- <-].
  exists req1, br1, br2, body, p. split; try done.
Qed.

Lemma hop_inv status m req' m' :
  hop status m req' m' →
  ∃ sync headers location req1 br1 br2 body p,
    hop_parts status m req' m' sync headers location req1 br1 br2 body p.
Proof.
  intros [res r n Hs Hr|res s a r n Hs Hr Ha]; subst.
  - apply on_reply_Send in Hr. naive_solver.
  - eapply on_reply_Suspend in Hr; [|exact Ha]. naive_solver.
Qed.

(** The policy state after a redirect was considered. *)
Lemma redirect_state self status headers location previous p r :
  redirect self status headers location previous = Some (p, r) →
  uris p = uris self ++ [previous] ∧ policy p = policy self ∧ https_only p = https_only self ∧
  referrer p = Referrer_on_redirect headers <$> referrer self ∧
  ∃ pol, policy self = Some pol.
Proof.
  unfold redirect. simpl. destruct (policy self) as [pol|]; [|done]. simpl. intros [= Hp].
  repeat case_match; simplify_eq/=; eauto 10.
Qed.

(** Applying it to a request keeps everything but the referrer source. *)
Lemma on_request_state {B'} p (req : Request E B') p' req' :
  on_request p req = (p', req') →
  uris p' = uris p ∧ policy p' = policy p ∧ https_only p' = https_only p ∧
  history p' = history p ∧
  req_uri req' = req_uri req ∧ req_method req' = req_method req ∧ req_body req' = req_body req.
Proof.
  unfold on_request, remove_sensitive_headers, Referrer_apply.
  intros H. repeat case_match; simplify_eq/=; auto 10.
Qed.

Lemma call_state (slot : Slot E (RequestConfig Policy)) self (req : Request E Body) :
  match (call slot self req).1 with
  | Direct q => req_uri q = req_uri req
  | Redirecting q m => req_uri q = req_uri req ∧ https_only (m_policy m) = https_only self
  end.
Proof.
  unfold call, for_request. destruct (load slot (policy self) (req_ext req)) as [[p|] ext]; [|done].
  destruct (is_none p); [done|]. destruct (on_request _ _) as [p' q] eqn:Hq.
  apply on_request_state in Hq as (_ & _ & Hh & _ & Hu & _). by split.
Qed.

Lemma rewrite_uri status (req : Request E unit) br req1 br1 :
  rewrite_request status req br = Some (req1, br1) → req_uri req1 = req_uri req.
Proof. unfold rewrite_request. intros H. repeat case_decide; by simplify_eq/=. Qed.

Lemma hop_state status m req' m' :
  hop status m req' m' →
  uris (m_policy m') = uris (m_policy m) ++ [req_uri (m_request m)] ∧
  policy (m_policy m') = policy (m_policy m) ∧
  https_only (m_policy m') = https_only (m_policy m) ∧
  req_uri req' = req_uri (m_request m') ∧ req_headers req' = req_headers (m_request m').
Proof.
  intros (sync & hs & loc & req1 & br1 & br2 & body & p & [Hr Ht Hp Hq -> Hb])%hop_inv.
  apply redirect_state in Hp as (Hu & Hpo & Hh & _ & _).
  apply on_request_state in Hq as (Hu' & Hpo' & Hh' & _ & Hru & _ & _).
  rewrite (rewrite_uri _ _ _ _ _ Hr) in Hu. split_and!; try done; congruence.
Qed.

Lemma Referrer_apply_other {B'} r (req : Request E B') n :
  n ≠ REFERER → hm_get_all (req_headers (Referrer_apply r req).2) n = hm_get_all (req_headers req) n.
Proof.
  intros Hn. unfold Referrer_apply.
  repeat case_match; simpl; rewrite ?hm_get_all_remove, ?hm_get_all_insert; by rewrite decide_False.
Qed.

Lemma on_request_headers {B'} p (req : Request E B') previous n :
  last (uris p) = Some previous → n ≠ REFERER →
  hm_get_all (req_headers (on_request p req).2) n =
  if decide (n ∈ SENSITIVE ∧ same_origin (req_uri req) previous = false) then []
  else hm_get_all (req_headers req) n.
Proof.
  intros Hl Hn. unfold on_request.
  set (req0 := remove_sensitive_headers req (uris p)).
  assert (hm_get_all (req_headers req0) n =
    if decide (n ∈ SENSITIVE ∧ same_origin (req_uri req) previous = false) then []
    else hm_get_all (req_headers req) n) as Hreq0.
  { unfold req0, remove_sensitive_headers. rewrite Hl.
    destruct (same_origin (req_uri req) previous); cbn [negb req_headers set_headers].
    - by rewrite decide_False by naive_solver.
    - rewrite get_all_remove_headers. repeat case_decide; naive_solver. }
  destruct (uris p), (referrer p) as [r|]; try done.
  destruct (Referrer_apply r req0) as [r' req'] eqn:Ha. simpl.
  pose proof (Referrer_apply_other r req0 n Hn) as Hother. rewrite Ha in Hother. simpl in Hother.
  by rewrite Hother.
Qed.

Lemma rewrite_headers status (req : Request E unit) br req1 br1 n :
  rewrite_request status req br = Some (req1, br1) →
  n ∉ [CONTENT_TYPE; CONTENT_LENGTH; CONTENT_ENCODING; TRANSFER_ENCODING] →
  hm_get_all (req_headers req1) n = hm_get_all (req_headers req) n.
Proof.
  unfold rewrite_request, drop_payload_headers. intros H Hn.
  repeat case_decide; simplify_eq; cbn [req_headers set_headers set_method];
    rewrite ?get_all_remove_headers; by rewrite ?decide_False.
Qed.

(** The origin of a URI: host and scheme without regard to case, and the port
    it implies. *)
Definition origin_eq (u v : Uri) : Prop :=
  to_ascii_lowercase <$> uri_host u = to_ascii_lowercase <$> uri_host v ∧
  option_scheme_eqb (uri_scheme u) (uri_scheme v) = true ∧ port_or_default u = port_or_default v.

Lemma same_origin_spec u v : same_origin u v = true ↔ origin_eq u v.
Proof.
  unfold same_origin, origin_eq, eq_ignore_ascii_case.
  rewrite !andb_true_iff, Z.eqb_eq.
  destruct (uri_host u), (uri_host v); simpl; rewrite ?bool_decide_eq_true;
    (split; [intros [[Hh ?] ?] | intros (Hh & ? & ?)]; split_and!; congruence).
Qed.

(** The fields of a followed request, but those that describe a payload and the
    referrer. *)
Lemma hop_headers status m req' m' n :
  hop status m req' m' → n ≠ REFERER →
  n ∉ [CONTENT_TYPE; CONTENT_LENGTH; CONTENT_ENCODING; TRANSFER_ENCODING] →
  hm_get_all (req_headers req') n =
  if decide (n ∈ SENSITIVE ∧ same_origin (req_uri req') (req_uri (m_request m)) = false) then []
  else hm_get_all (req_headers (m_request m)) n.
Proof.
  intros (sync & hs & loc & req1 & br1 & br2 & body & p & [Hr Ht Hp Hq -> Hb])%hop_inv Hn Hc.
  apply redirect_state in Hp as (Hu & _ & _ & _ & _).
  rewrite (rewrite_uri _ _ _ _ _ Hr) in Hu.
  assert (last (uris p) = Some (req_uri (m_request m))) as Hl by (by rewrite Hu, last_snoc).
  pose proof (on_request_headers p (set_uri loc req1) _ n Hl Hn) as Hh. rewrite Hq in Hh.
  apply on_request_state in Hq as (_ & _ & _ & _ & Hru & _ & _). simpl in *.
  by rewrite Hru, Hh, (rewrite_headers _ _ _ _ _ n Hr Hc).
Qed.

Definition credential_fields : list HeaderName :=
  [ #"authorization"; #"cookie"; #"cookie2"; #"proxy-authorization"; #"www-authenticate"].


(** A followed redirect at any status. *)
Definition follows m m' : Prop := ∃ status req', hop status m req' m'.

(** With a limit a redirect is followed at once, to an HTTP or HTTPS URI, and
    only while the chain is short enough. *)
Lemma redirect_Follow self status headers location previous p a pol :
  policy self = Some pol → redirect self status headers location previous = Some (p, Ok a) →
  (∀ max, pol = Limit max → a = Follow ∧ length (uris self) < max) ∧
  (a = Follow → (is_http location = true ∨ is_https location = true) ∧
     (https_only self = true → is_https location = true)).
Proof.
  intros Hpol. unfold redirect. rewrite Hpol. simpl. intros [= H].
  destruct (Policy_redirect _ _) eqn:Ha; simplify_eq/=.
  - destruct (negb (is_http location || is_https location)) eqn:Hs; simplify_eq/=.
    destruct (https_only self && negb (is_https location)) eqn:Hh; simplify_eq/=.
    split.
    + intros max ->. split; [done|]. simpl in Ha. rewrite length_app in Ha. simpl in Ha.
      destruct (max <? _) eqn:Hm; [done|]. apply Nat.ltb_ge in Hm. lia.
    + intros _. split; [by apply negb_false_iff, orb_true_iff in Hs|].
      intros Ho. rewrite Ho in Hh. by apply negb_false_iff in Hh.
  - split; [|done]. intros max ->. simpl in Ha. by destruct (max <? _).
  - split; [|done]. intros max ->. simpl in Ha. by destruct (max <? _).
Qed.

(** A limit bounds the chain: with [Policy::limited(max)] no chain of
    responses, whatever they say, makes the middleware follow more than [max]
    redirects. *)
Theorem redirect_limit n m m' max :
  policy (m_policy m) = Some (Limit max) → uris (m_policy m) = [] →
  nsteps follows n m m' → n <= max.
Proof.
  intros Hp Hu Hn.
  assert (∀ k m1, nsteps follows k m m1 →
    policy (m_policy m1) = Some (Limit max) ∧ length (uris (m_policy m1)) = k ∧ k <= max) as Hall.
  { intros k. induction k as [|k IH]; intros m1 Hk.
    - inversion Hk; subst. rewrite Hu. simpl. split_and!; [done..|lia].
    - replace (S k) with (k + 1) in Hk by lia. apply nsteps_add_inv in Hk as (m2 & H1 & H2).
      apply nsteps_once_inv in H2 as (status & req' & Hop).
      destruct (IH _ H1) as (Hp2 & Hl2 & _). destruct (hop_state _ _ _ _ Hop) as (Hu1 & Hp1 & _).
      apply hop_inv in Hop as (sync & hs & loc & req1 & br1 & br2 & body & p & [_ _ Hr _ _ _]).
      destruct (redirect_Follow _ _ _ _ _ _ _ _ Hp2 Hr) as [Hlim _].
      destruct (Hlim max eq_refl) as [_ Hlt].
      rewrite Hu1, length_app. simpl. split_and!; [congruence|lia..]. }
  by apply Hall in Hn as (_ & _ & ?).
Qed.

Lemma on_reply_scheme m res req' m' :
  on_reply m res = Some (Send req' m') →
  (is_http (req_uri req') = true ∨ is_https (req_uri req') = true) ∧
  (https_only (m_policy m) = true → is_https (req_uri req') = true).
Proof.
  intros (loc & req1 & br1 & br2 & body & p & [Hr Ht Hp Hq -> Hb])%on_reply_Send.
  pose proof (redirect_state _ _ _ _ _ _ _ Hp) as (_ & _ & _ & _ & pol & Hpol).
  destruct (redirect_Follow _ _ _ _ _ _ _ _ Hpol Hp) as [_ Hf].
  apply on_request_state in Hq as (_ & _ & _ & _ & Hru & _ & _). simpl in *.
  rewrite Hru. by apply Hf.
Qed.

(** A redirect that is followed at once goes to an HTTP or HTTPS URI, and
    to an HTTPS URI when the client is restricted to HTTPS. *)
Theorem redirect_https_only m res req' m' :
  on_reply m res = Some (Send req' m') →
  (is_http (req_uri req') = true ∨ is_https (req_uri req') = true) ∧
  (https_only (m_policy m) = true → is_https (req_uri req') = true).
Proof. apply on_reply_scheme. Qed.

(** *** Methods and bodies *)

(** The same bytes: the same body, or two empty ones. *)
Definition same_content (b b' : Body) : Prop :=
  b' = b ∨ content_length b = Some 0%Z ∧ b' = Body_empty.

(** The machine waits for the response to this request, and has kept its body
    if it could. *)
Record in_flight (req : Request E Body) m : Prop := {
  if_request : m_request m = with_body tt req;
  if_body : match m_body m with
            | BNone => True
            | BSome b => same_content (req_body req) b
            | BEmpty => req_body req = Body_empty
            end;
}.

Lemma try_clone_from_none b :
  match try_clone_from BNone b with
  | BNone => True
  | BSome b' => same_content b b'
  | BEmpty => b = Body_empty
  end.
Proof.
  unfold try_clone_from, same_content. case_decide; [by right|].
  destruct b; simpl; [by left|done].
Qed.

Lemma take_in_flight req m br body :
  in_flight req m → BodyRepr_take (m_body m) = (Some body, br) → same_content (req_body req) body.
Proof.
  intros [_ Hb] Ht. destruct (m_body m); simplify_eq/=; [done|]. by left.
Qed.

Lemma take_rest br body br' :
  BodyRepr_take br = (Some body, br') → br' = BNone ∨ br' = BEmpty ∧ body = Body_empty.
Proof. destruct br; naive_solver. Qed.

Lemma call_in_flight slot self req req' m self' :
  call slot self req = (Redirecting req' m, self') → in_flight req' m ∧ uris (m_policy m) = uris self.
Proof.
  unfold call. destruct (for_request slot self req) as [[[p|] self1] req1] eqn:Hf; [|done].
  destruct (on_request p req1) as [p' req2] eqn:Hq. intros [= <- <- <-].
  pose proof (on_request_state _ _ _ _ Hq) as (Hu & _ & _ & _ & _ & _ & Hb).
  split.
  - split; [done|]. simpl. rewrite Hb. apply try_clone_from_none.
  - simpl. rewrite Hu. unfold for_request in Hf. repeat case_match; simplify_eq/=; done.
Qed.

Definition PAYLOAD : list HeaderName :=
  [CONTENT_TYPE; CONTENT_LENGTH; CONTENT_ENCODING; TRANSFER_ENCODING].

(** The next request is a GET (or HEAD) without a body. *)
Definition becomes_get (method : Method) (req' : Request E Body) : Prop :=
  req_method req' = method ∧ req_body req' = Body_empty ∧
  ∀ n, n ∈ PAYLOAD → hm_get_all (req_headers req') n = [].

Lemma hop_payload status m req' m' req1 br1 n :
  hop status m req' m' → rewrite_request status (m_request m) (m_body m) = Some (req1, br1) →
  n ∈ PAYLOAD → hm_get_all (req_headers req1) n = [] → hm_get_all (req_headers req') n = [].
Proof.
  intros (sync & hs & loc & req2 & br2 & br3 & body & p & [Hr Ht Hp Hq -> Hb])%hop_inv Hr'.
  rewrite Hr in Hr'. simplify_eq. intros Hn Hempty.
  apply redirect_state in Hp as (Hu & _ & _ & _ & _).
  assert (last (uris p) = Some (req_uri req1)) as Hl by (by rewrite Hu, last_snoc).
  pose proof (on_request_headers p (set_uri loc req1) _ n Hl) as Hh. rewrite Hq in Hh. simpl in *.
  rewrite Hh; [by case_decide|]. intros ->. vm_compute in Hn. set_solver.
Qed.

Lemma hop_in_flight status m req' m' : hop status m req' m' → in_flight req' m'.
Proof.
  intros (sync & hs & loc & req1 & br1 & br2 & body & p & [_ Ht _ _ -> Hb])%hop_inv. split.
  - destruct (m_request m') as [? ? ? ? ? []]. done.
  - rewrite Hb. simpl. destruct (take_rest _ _ _ Ht) as [->|[-> ->]]; [|done].
    apply try_clone_from_none.
Qed.

(** What is sent after a redirect.  301 and 302 turn POST into a GET
    without a body and its payload fields, 303 turns every method but HEAD
    into GET and drops the body, 307 and 308 repeat method and body, as do 301
    and 302 for other methods; no other status is followed.  A body is only
    ever repeated with the same content. *)
Theorem redirect_method_body status (req : Request E Body) m req' m' :
  in_flight req m → hop status m req' m' →
  in_flight req' m' ∧
  ((status = 301 ∨ status = 302)%Z ∧ req_method req = POST ∧ becomes_get GET req' ∨
   status = 303%Z ∧ becomes_get (if decide (req_method req = HEAD) then HEAD else GET) req' ∨
   ((status = 301 ∨ status = 302)%Z ∧ req_method req ≠ POST ∨ (status = 307 ∨ status = 308)%Z) ∧
     req_method req' = req_method req ∧ same_content (req_body req) (req_body req')).
Proof.
  intros Hin Hop. pose proof (if_request _ _ Hin) as Hreq.
  pose proof Hop as (sync & hs & loc & req1 & br1 & br2 & body & p & [Hr Ht Hp Hq Hs Hb])%hop_inv.
  pose proof (λ n, hop_payload _ _ _ _ _ _ n Hop Hr) as Hpay.
  apply on_request_state in Hq as (_ & _ & _ & _ & _ & Hmeth & _). simpl in Hmeth.
  split; [by eapply hop_in_flight|]. unfold becomes_get.
  assert (req_method req' = req_method req1 ∧ req_body req' = body) as [-> ->] by (by subst req').
  assert (∀ n, n ∈ PAYLOAD → hm_get_all (drop_payload_headers (req_headers (m_request m))) n = [])
    as Hdrop.
  { intros n Hn. unfold drop_payload_headers. rewrite get_all_remove_headers. by rewrite decide_True. }
  clear Hs Hop Hp. rewrite Hreq in Hdrop. unfold rewrite_request in Hr. rewrite Hreq in Hr.
  simpl in Hr.
  case_decide as H1; [|case_decide as H2; [|case_decide as H3; [|done]]].
  - destruct (decide (req_method req = POST)) as [Hpost|Hpost]; simplify_eq/=.
    + left. split_and!; [done..|]. intros n Hn. apply Hpay; [done|]. by apply Hdrop.
    + right; right. split_and!; [by left|done|]. by eapply take_in_flight.
  - right; left. simplify_eq/=. split_and!; [done|by case_decide|done|].
    intros n Hn. apply Hpay; [done|]. case_decide; by apply Hdrop.
  - simplify_eq/=. right; right. split_and!; [by right|done|]. by eapply take_in_flight.
Qed.

(** *** History *)

Definition follows_now m m' : Prop := ∃ res req', on_reply m res = Some (Send req' m').

Lemma redirect_records self status headers location previous p :
  redirect self status headers location previous = Some (p, Ok Follow) →
  history p = Some (default [] (history self) ++
    [{| he_status := status; he_uri := location; he_previous := previous;
        he_headers := headers |}]).
Proof.
  unfold redirect. simpl. destruct (policy self) as [pol|]; [|done]. simpl. intros [= H].
  destruct (Policy_redirect _ _) eqn:Ha; try done.
  destruct (negb (_ || _)); [done|]. destruct (_ && _); [done|].
  destruct pol; simplify_eq/=; done.
Qed.

(** The history of a chain that began at [first]. *)
Definition linked (first last : Uri) (l : list HistoryEntry) : Prop :=
  first :: (he_uri <$> l) = (he_previous <$> l) ++ [last].

Lemma follows_now_linked first m m' :
  follows_now m m' → linked first (req_uri (m_request m)) (default [] (history (m_policy m))) →
  linked first (req_uri (m_request m')) (default [] (history (m_policy m'))).
Proof.
  intros (res & req' & (loc & req1 & br1 & br2 & body & p & [Hr Ht Hp Hq -> Hb])%on_reply_Send).
  unfold linked. intros Hl. apply redirect_records in Hp.
  apply on_request_state in Hq as (_ & _ & _ & Hh & Hru & _ & _). simpl in Hru.
  rewrite Hh, Hp, Hru. simpl. rewrite !fmap_app, app_comm_cons, Hl. simpl.
  by rewrite (rewrite_uri _ _ _ _ _ Hr).
Qed.

(** The history of the final response tells the chain: when redirects are
    followed at once and the last response is not a redirect, it is returned
    with the URI it came from and with one entry per redirect, the first
    leaving the first URI, each next one leaving the URI the one before led
    to, and the last one leading to the URI of the response. *)
Theorem redirect_history m m' res :
  history (m_policy m) = None → rtc follows_now m m' → res_history (res_ext res) = None →
  res_status res ∉ [301; 302; 303; 307; 308]%Z →
  ∃ r, on_reply m' res = Some (Return (Ok r)) ∧
    request_uri (res_ext r) = Some (req_uri (m_request m')) ∧
    linked (req_uri (m_request m)) (req_uri (m_request m')) (default [] (res_history (res_ext r))).
Proof.
  intros Hh Hr Hres Hst.
  assert (linked (req_uri (m_request m)) (req_uri (m_request m'))
    (default [] (history (m_policy m')))) as Hl.
  { revert m' Hr. apply (rtc_ind_r (λ m', linked _ (req_uri (m_request m')) _)).
    - by rewrite Hh.
    - intros m1 m2 _. apply follows_now_linked. }
  unfold on_reply, rewrite_request. simpl.
  rewrite !decide_False by (intros Hin; apply Hst; set_solver).
  eexists. split; [done|]. unfold on_response. destruct (history (m_policy m')); simpl in *; [done|].
  by rewrite Hres.
Qed.
End chains.

(** *** Referrers *)
Section referrers.
Context `{HV : HeaderValueLib, HM : HeaderMapLib, UL : UriLib, UR : UrlLib} {E B : Type}.

Lemma decision_cross pol down strip :
  referrer_decision pol false down = Some strip → pol ≠ UnsafeUrl →
  pol ≠ NoReferrerWhenDowngrade → strip = true.
Proof. destruct pol, down; naive_solver. Qed.

Lemma decision_downgrade pol :
  pol ∉ [Origin; OriginWhenCrossOrigin; UnsafeUrl] → referrer_decision pol false true = None.
Proof. destruct pol; try done; set_solver. Qed.

Lemma downgrade_cross src sch dest :
  sch = HTTPS → option_scheme_eqb (uri_scheme dest) (Some HTTP) = true →
  referrer_same_origin src sch dest = false.
Proof.
  intros -> Hd. unfold referrer_same_origin. destruct (uri_scheme dest) as [[]|]; try done. simpl.
  by rewrite andb_false_r.
Qed.

(** The referrer policy is applied.  A request to another origin carries
    no more than the origin of the referrer, unless the policy in force is
    unsafe-url or no-referrer-when-downgrade; and a request that goes from
    HTTPS to HTTP carries no referrer under every policy that forbids it.  The
    referrer sent is also the one the next hop starts from. *)
Theorem referrer_policy_applied (r : Referrer) (req : Request E B) src sch :
  source r = Some src → scheme_parse (Url_scheme src) = Some sch →
  let '(r', req') := Referrer_apply r req in
  let sent := hm_get_all (req_headers req') REFERER in
  let downgrade := sch = HTTPS ∧ option_scheme_eqb (uri_scheme (req_uri req)) (Some HTTP) = true in
  (∀ v, v ∈ sent → sent = [v] ∧ ∃ u, source r' = Some u ∧ hv_bytes v = Url_as_str u ∧
     (u = src ∨ u = strip_to_origin_url src)) ∧
  (sent = [] → source r' = None) ∧
  (referrer_same_origin src sch (req_uri req) = false →
   rpolicy r ≠ UnsafeUrl → rpolicy r ≠ NoReferrerWhenDowngrade →
   ∀ u, source r' = Some u → u = strip_to_origin_url src) ∧
  (downgrade → rpolicy r ∉ [Origin; OriginWhenCrossOrigin; UnsafeUrl] → sent = []) ∧
  (rpolicy r = NoReferrer → sent = []).
Proof.
  intros Hs Hsch. unfold Referrer_apply. rewrite Hs, Hsch.
  set (same := referrer_same_origin src sch (req_uri req)).
  destruct (referrer_decision _ _ _) as [strip|] eqn:Hd; [destruct (from_maybe_shared _) as [v|] eqn:Hv|];
    simpl; rewrite ?hm_get_all_insert, ?hm_get_all_remove, decide_True by done;
    try (split_and!; [set_solver|done|naive_solver..]).
  apply from_maybe_shared_Some in Hv as [Hb _]. split_and!.
  - intros v' ->%list_elem_of_singleton. split; [done|]. eexists. split; [done|].
    split; [by rewrite <- Hb|]. destruct strip; auto.
  - done.
  - intros Hsame H1 H2 u [= <-]. unfold same in *. rewrite Hsame in Hd.
    by rewrite (decision_cross _ _ _ Hd H1 H2).
  - intros [-> Hdown] Hnot. unfold same in *. rewrite (downgrade_cross src _ _ eq_refl Hdown) in Hd.
    rewrite Hdown in Hd. simpl in Hd. by rewrite (decision_downgrade _ Hnot) in Hd.
  - intros Hn. by rewrite Hn in Hd.
Qed.
End referrers.


(** ** Examples *)
Module RedirectExamples.
Definition Ext : Type := option (RequestConfig Policy).
Definition slot : Slot Ext (RequestConfig Policy) :=
  {| sl_get e := e; sl_set v _ := v; sl_get_set v e := eq_refl |}.

Definition uri (s : str) : Uri :=
  default {| uri_scheme := None; uri_authority := None; uri_path_and_query := None |}
    (uri_try_from s).
Definition hv (s : str) : HeaderValue := {| hv_bytes := s; hv_sensitive := false |}.

Definition start : Request Ext Body :=
  {| req_method := POST; req_uri := uri #"https://a.example/x"; req_version := HTTP_11;
     req_headers := hm_insert AUTHORIZATION (hv #"secret")
                      (hm_insert #"accept" (hv #"*/*") hm_empty);
     req_ext := None; req_body := Reusable #"data" |}.

Definition reply (status : Z) (location : str) : Resp (B := unit) :=
  {| res_status := status; res_version := HTTP_11;
     res_headers := if decide (location = []) then hm_empty
                    else hm_insert LOCATION (hv location) hm_empty;
     res_ext := {| request_uri := None; res_history := None |}; res_body := tt |}.

(** The machine after [call], and the request it sends. *)
Definition begin (p : Policy) (https : bool) : option (Request Ext Body * Machine) :=
  match call slot (with_https_only https (FollowRedirectPolicy_new p)) start with
  | (Redirecting req m, _) => Some (req, m)
  | _ => None
  end.
Definition nobody : Request Ext Body * Machine :=
  (start, {| m_policy := FollowRedirectPolicy_new NoRedirect; m_request := with_body tt start;
             m_body := BNone |}).
Definition began (p : Policy) (https : bool) := default nobody (begin p https).
Definition reply_to (m : Machine (E := Ext)) (r : Resp (B := unit)) : Request Ext Body * Machine :=
  match on_reply m r with Some (Send req m) => (req, m) | _ => nobody end.

Definition m0 := (began (Limit 2) false).2.
Definition away := reply 302 #"https://b.example/y".
Definition m1 := (reply_to m0 away).2.
Definition r1 := (reply_to m0 away).1.

Definition sends (m : Machine (E := Ext)) (r : Resp (B := unit)) : bool :=
  match on_reply m r with Some (Send _ _) => true | _ => false end.

Lemma sends_reply m r :
  sends m r = true → on_reply m r = Some (Send (reply_to m r).1 (reply_to m r).2).
Proof. unfold sends, reply_to. by destruct (on_reply m r) as [[]|]. Qed.

Lemma first_hop : on_reply m0 away = Some (Send r1 m1).
Proof. apply sends_reply. by vm_compute. Qed.


Lemma redirect_limit_witness :
  policy (m_policy m0) = Some (Limit 2) ∧ 1 <= 2.
Proof.
  split; [reflexivity|].
  apply (redirect_limit (B:=unit) 1 m0 m1 2); [reflexivity|reflexivity|].
  apply nsteps_once. exists 302%Z, r1. apply (hop_now _ _ away); [reflexivity|apply first_hop].
Defined.

Lemma redirect_https_only_witness :
  is_https (req_uri (reply_to (began (Limit 2) true).2 away).1) = true.
Proof.
  apply (redirect_https_only (B:=unit) (began (Limit 2) true).2 away _
           (reply_to (began (Limit 2) true).2 away).2); [apply sends_reply|]; by vm_compute.
Defined.

Lemma redirect_method_body_witness :
  in_flight (began (Limit 2) false).1 m0 ∧ in_flight r1 m1.
Proof.
  assert (in_flight (began (Limit 2) false).1 m0) as H.
  { split; [reflexivity|]. by left. }
  split; [exact H|].
  apply (redirect_method_body (B:=unit) 302 (began (Limit 2) false).1 m0 r1 m1 H).
  apply (hop_now _ _ away); [reflexivity|apply first_hop].
Defined.

Lemma redirect_history_witness :
  ∃ r, on_reply m1 (reply 200 []) = Some (Return (Ok r)) ∧
    request_uri (res_ext r) = Some (uri #"https://b.example/y") ∧
    linked (uri #"https://a.example/x") (uri #"https://b.example/y")
      (default [] (res_history (res_ext r))).
Proof.
  apply (redirect_history m0 m1 (reply 200 [])); [reflexivity| |reflexivity|].
  - apply rtc_once. exists away, r1. apply first_hop.
  - vm_compute. set_solver.
Defined.

Definition page : Url := default
  {| ru_scheme := []; ru_user := []; ru_password := None; ru_host := []; ru_port := None;
     ru_path := []; ru_query := None; ru_fragment := None |}
  (Url_parse #"https://a.example/page?q=1").
Definition from_page : Referrer := {| source := Some page; rpolicy := StrictOriginWhenCrossOrigin |}.

(** A request to another origin gets the origin of the page only. *)
Lemma referrer_policy_applied_witness :
  let '(r', req') := Referrer_apply from_page (set_uri (uri #"https://b.example/") start) in
  ∀ u, source r' = Some u → u = strip_to_origin_url page.
Proof.
  pose proof (referrer_policy_applied from_page (set_uri (uri #"https://b.example/") start)
                page HTTPS eq_refl eq_refl) as H.
  destruct (Referrer_apply _ _) as [r' req']. destruct H as (_ & _ & H & _).
  apply H; by vm_compute.
Defined.

Lemma referrer_sent :
  hm_get_all (req_headers (Referrer_apply from_page (set_uri (uri #"https://b.example/") start)).2)
    REFERER = [hv #"https://a.example/"].
Proof. by vm_compute. Qed.

(** ** An asynchronous decision *)
Definition later : Policy := Custom (λ _, PendingAction).
Definition insecure := reply 302 #"http://b.example/y".

Definition unchecked (m : Machine (E := Ext)) (r : Resp (B := unit)) : bool :=
  match on_reply m r with
  | Some (Suspend s) =>
    match handle_action s Follow with
    | Some (Send req' m') =>
      negb (is_https (req_uri req')) && match history (m_policy m') with None => true | _ => false end
    | _ => false
    end
  | _ => false
  end.

(** A redirect that is decided later is not checked.  The scheme of the
    target, the restriction to HTTPS and the history are handled where a policy
    answers [Follow] at once; when the policy answers later, a client
    restricted to HTTPS follows a redirect to an insecure URI, and the history
    does not record it. *)
Theorem pending_follow_unchecked :
  ∃ m res s req' m',
    https_only (m_policy m) = true ∧ on_reply (E:=Ext) (B:=unit) m res = Some (Suspend s) ∧
    handle_action s Follow = Some (Send req' m') ∧
    is_https (req_uri req') = false ∧ history (m_policy m') = None.
Proof.
  assert (unchecked (began later true).2 insecure = true) as H by (by vm_compute).
  unfold unchecked in H. destruct (on_reply _ _) as [[| |s]|] eqn:Hr; try done.
  destruct (handle_action s Follow) as [[|req' m'|]|] eqn:Ha; try done. simpl_bool.
  exists (began later true).2, insecure, s, req', m'. split_and!; try done.
  by destruct (history (m_policy m')).
Qed.
End RedirectExamples.
