(* ===== verification/HttpClient.v ===== *)
(** * The HTTP client service

    [src/client/layer/client.rs], with the connection information of
    [src/conn.rs]: validating a request, choosing its connection, putting it in
    the form the connection needs, resending it when a reused connection gave
    it back, and storing the cookies of the response.

    What the connector, the HTTP engine and the pool answer is given as a
    sequence of events; the definitions say what the client does with them.
    [None] is a panic ([expect], [unreachable!]). *)

From S2P Require Import Prelude Http Errors Net Ext Message Header CookieStore Jar Pool PoolSystem Matcher Group.

(** ** Errors *)
(** The type of the source of an error, as far as [Error::new] asks for it. *)
Inductive Source := TunnelError | ProxyConnectSource | SocksError | OtherSource.

Record Error (C : Type) := {
  e_kind : ErrorKind;
  e_source : option Source;
  e_connect_info : option C;
}.
Arguments e_kind {C}.
Arguments e_source {C}.
Arguments e_connect_info {C}.

Definition err {C} (kind : ErrorKind) : Error C :=
  {| e_kind := kind; e_source := None; e_connect_info := None |}.
(** The macro [e!] with a source. *)
Definition err_from {C} (kind : ErrorKind) (error : Source) : Error C :=
  {| e_kind := kind; e_source := Some error; e_connect_info := None |}.
Definition Error_new {C} (kind : ErrorKind) (error : Source) : Error C :=
  {| e_kind := match error with
               | TunnelError | ProxyConnectSource | SocksError => ProxyConnect
               | OtherSource => kind
               end;
     e_source := Some error; e_connect_info := None |}.
Definition with_connect_info {C} (c : C) (e : Error C) : Error C :=
  {| e_kind := e_kind e; e_source := e_source e; e_connect_info := Some c |}.
Definition Error_is_canceled {C} (e : Error C) : bool := bool_decide (e_kind e = Canceled).

(** The first of two lists that has elements. *)
Definition orl {A} (a b : list A) : list A := match a with [] => b | _ => a end.
Infix "<|>" := orl (at level 55, right associativity).

Lemma orl_nil_r {A} (a : list A) : a <|> [] = a.
Proof. by destruct a. Qed.

Lemma orl_assoc {A} (a b c : list A) : (a <|> b) <|> c = a <|> b <|> c.
Proof. by destruct a. Qed.

(** ** Forms of a URI *)
Section forms.
Context `{HV : HeaderValueLib, HM : HeaderMapLib, UL : UriLib}.
Context {E B C : Type}.

Definition just_slash (pq : PathAndQuery) : bool :=
  bool_decide (pq_path pq = #"/") && bool_decide (pq_query pq = None).
Definition slash : PathAndQuery := {| pq_path := #"/"; pq_query := None |}.
(** [Uri::default()]. *)
Definition Uri_default : Uri :=
  {| uri_scheme := None; uri_authority := None; uri_path_and_query := Some slash |}.

Definition origin_form (uri : Uri) : option Uri :=
  match uri_path_and_query uri with
  | Some path =>
    if just_slash path then Some Uri_default
    else uri_from_parts {| uri_scheme := None; uri_authority := None;
                           uri_path_and_query := Some path |}
  | None => Some Uri_default
  end.

(** [absolute_form] only asserts, in debug builds, that there is a scheme and
    an authority. *)
Definition absolute_form (uri : Uri) : Uri := uri.

Definition authority_form (uri : Uri) : option Uri :=
  auth ← uri_authority uri;
  uri_from_parts {| uri_scheme := None; uri_authority := Some auth; uri_path_and_query := None |}.

Definition set_uri_scheme (scheme : Scheme) (uri : Uri) : option Uri :=
  uri_from_parts {| uri_scheme := Some scheme; uri_authority := uri_authority uri;
                    uri_path_and_query := Some slash |}.

Definition build_base_uri (scheme : Scheme) (authority : Authority) : option Uri :=
  uri_from_parts {| uri_scheme := Some scheme; uri_authority := Some authority;
                    uri_path_and_query := Some slash |}.

(** The URI to connect to, and the request with its own URI completed. *)
Definition normalize_uri (req : Request E B) (is_http_connect : bool) :
    option (result (Uri * Request E B) (Error C)) :=
  let uri := req_uri req in
  match uri_scheme uri, uri_authority uri with
  | Some scheme, Some auth => base ← build_base_uri scheme auth; Some (Ok (base, req))
  | None, Some auth =>
    if is_http_connect then
      let scheme := if bool_decide (auth_port auth = Some 443%Z) then HTTPS else HTTP in
      uri' ← set_uri_scheme scheme uri;
      base ← build_base_uri scheme auth;
      Some (Ok (base, set_uri uri' req))
    else Some (Err (err UserAbsoluteUriRequired))
  | _, _ => Some (Err (err UserAbsoluteUriRequired))
  end.

Definition is_schema_secure (uri : Uri) : bool :=
  match scheme_as_str <$> uri_scheme uri with
  | Some s => bool_decide (s ∈ [ #"wss"; #"https"])
  | None => false
  end.

Definition generate_host_header (uri : Uri) : option HeaderValue :=
  hostname ← uri_host uri;
  let port := match uri_port uri with
              | Some p =>
                if (bool_decide (p = 443%Z) && is_schema_secure uri) ||
                   (bool_decide (p = 80%Z) && negb (is_schema_secure uri))
                then None else Some p
              | None => None
              end in
  match port with
  | Some port => from_maybe_shared (hostname ++ #":" ++ decimal port)
  | None => header_from_str hostname
  end.
End forms.

(** ** Connections *)
Section connected.
Context `{HM : HeaderMapLib, NL : IpNetLib} {V : Type}.

Record ProxyIdentity := {
  pi_is_proxied : bool;
  pi_auth : option HeaderValue;
  pi_headers : option (HeaderMap HeaderValue);
}.

(** [Connected]; the extra values are in the order they were chained. *)
Record Connected := {
  cn_h2 : bool;
  cn_proxy : ProxyIdentity;
  cn_extra : list V;
}.

Definition Connected_new : Connected :=
  {| cn_h2 := false;
     cn_proxy := {| pi_is_proxied := false; pi_auth := None; pi_headers := None |};
     cn_extra := [] |}.
Definition connected_extra (v : V) (self : Connected) : Connected :=
  {| cn_h2 := cn_h2 self; cn_proxy := cn_proxy self; cn_extra := cn_extra self ++ [v] |}.
Definition connected_proxy (proxy : Intercept) (self : Connected) : Connected :=
  {| cn_h2 := cn_h2 self;
     cn_proxy :=
       {| pi_is_proxied := true;
          pi_auth := or_else (Intercept_basic_auth proxy) (pi_auth (cn_proxy self));
          pi_headers := or_else (custom_headers proxy) (pi_headers (cn_proxy self)) |};
     cn_extra := cn_extra self |}.
Definition negotiated_h2 (self : Connected) : Connected :=
  {| cn_h2 := true; cn_proxy := cn_proxy self; cn_extra := cn_extra self |}.

(** [Connection for Conn]: what a connection says about itself, from what its
    stream says. *)
Definition Conn_connected (stream : Connected) (proxy : option Intercept) (tls_info : option V) :
    Connected :=
  let connected := match proxy with Some p => connected_proxy p stream | None => stream end in
  match tls_info with Some i => connected_extra i connected | None => connected end.
Definition TlsConn_connected (stream : Connected) (selected_alpn : option str) : Connected :=
  if bool_decide (selected_alpn = Some #"h2") then negotiated_h2 stream else stream.

Definition set_extras {X} (insert : V → X → X) (self : Connected) (ext : X) : X :=
  foldl (λ x v, insert v x) ext (cn_extra self).
End connected.

(** ** The cookie store

    The trait [CookieStore] of [src/cookie.rs], and the jar as the store. *)
Class CookieStore (S : Type) := {
  cs_cookies : S → Uri → Version → Z → Cookies;
  cs_set_cookies : S → list (HeaderValue * Z) → Uri → S;
}.

#[export] Instance Jar_CookieStore `{HL : HostLib, UL : UriLib, HV : HeaderValueLib, TL : TimeLib,
    CL : CookieLib} : CookieStore Store := {|
  cs_cookies := cookies_for;
  cs_set_cookies := set_cookies;
|}.

(** ** The client *)
Section client.
Context `{HV : HeaderValueLib, HM : HeaderMapLib, UL : UriLib, NL : IpNetLib}.
Context {E B X RB V S P T H1 H2 : Type} `{CS : !CookieStore S}.
(** [RequestOptions] of [src/client/layer/config.rs]; [H1] and [H2] are the
    options of the HTTP engine. *)
Record RequestOptions := {
  ro_group : @Group P;
  ro_proxy : option P;
  ro_version : option Version;
  ro_tls_options : option T;
  ro_http1_options : option H1;
  ro_http2_options : option H2;
  ro_socket_bind_options : option SocketBindOptions;
}.
Definition RequestOptions_default : RequestOptions :=
  {| ro_group := Group_default; ro_proxy := None; ro_version := None; ro_tls_options := None;
     ro_http1_options := None; ro_http2_options := None; ro_socket_bind_options := None |}.

(** The slot of a request for its options, and the insertion of a value and of
    the connection information into the extensions of a response. *)
Context (options_slot : Slot E (RequestConfig RequestOptions)).
Context (insert_extra : V → X → X) (insert_connected : Connected (V:=V) → X → X).

Abbreviation Req := (Request E B).
Abbreviation Res := (Response X RB).
Abbreviation Err' := (Error (Connected (V:=V))).

Record ClientConfig := {
  retry_canceled_requests : bool;
  set_host : bool;
  cc_ver : Ver;
}.

(** The builders of the HTTP engine, by the options they were last given. *)
Record Engine := {
  h1_builder : option H1;
  h2_builder : option H2;
}.
Definition engine_options (h1 : option H1) (h2 : option H2) (this : Engine) : Engine :=
  {| h1_builder := or_else h1 (h1_builder this); h2_builder := or_else h2 (h2_builder this) |}.

(** [request] up to the first suspension: the request to send, the descriptor
    of its connection and the engine it is sent with. *)
Definition request (this : Engine) (req : Req) :
    option (result (Req * ConnectionDescriptor (P:=P) (T:=T) * Engine) Err') :=
  let is_http_connect := bool_decide (req_method req = CONNECT) in
  match req_version req with
  | HTTP_10 | HTTP_11 | HTTP_2 =>
    if is_http_connect && bool_decide (req_version req = HTTP_10)
    then Some (Err (err UserUnsupportedRequestMethod))
    else
      r ← normalize_uri (C:=Connected (V:=V)) req is_http_connect;
      match r with
      | Err _ => Some (Err (err_from UserAbsoluteUriRequired OtherSource))
      | Ok (uri, req) =>
        let '(options, ext) := config_remove options_slot (req_ext req) in
        let o := default RequestOptions_default options in
        Some (Ok (set_ext ext req,
                  ConnectionDescriptor_new uri (ro_group o) (ro_proxy o) (ro_version o)
                    (ro_tls_options o) (ro_socket_bind_options o),
                  engine_options (ro_http1_options o) (ro_http2_options o) this))
      end
  | _ => Some (Err (err UserUnsupportedVersion))
  end.

(** A connection from the pool or from the connector. *)
Record ClientConn := {
  cl_info : Connected (V:=V);
  cl_http2 : bool;
  cl_reused : bool;
}.

(** [HeaderMap::entry(n).or_insert_with]. *)
Definition or_insert (n : HeaderName) (v : HeaderValue) (h : HeaderMap HeaderValue) :
    HeaderMap HeaderValue :=
  if hm_contains_key h n then h else hm_insert n v h.

Definition with_host (cfg : ClientConfig) (req : Req) : option Req :=
  if set_host cfg then
    if hm_contains_key (req_headers req) HOST then Some req
    else v ← generate_host_header (req_uri req);
         Some (set_headers (hm_insert HOST v (req_headers req)) req)
  else Some req.

Definition with_proxy_headers (info : Connected (V:=V)) (req : Req) : Req :=
  let h := match pi_auth (cn_proxy info) with
           | Some auth => or_insert PROXY_AUTHORIZATION auth (req_headers req)
           | None => req_headers req
           end in
  let h := match pi_headers (cn_proxy info) with
           | Some headers => replace_headers h headers
           | None => h
           end in
  set_headers h req.

(** The request in the form that the connection needs. *)
Definition shape (cfg : ClientConfig) (conn : ClientConn) (req : Req) : option (result Req Err') :=
  if negb (cl_http2 conn) then
    if bool_decide (req_version req = HTTP_2)
    then Some (Err (with_connect_info (cl_info conn) (err UserUnsupportedVersion)))
    else
      req ← with_host cfg req;
      if bool_decide (req_method req = CONNECT) then
        u ← authority_form (req_uri req); Some (Ok (set_uri u req))
      else if pi_is_proxied (cn_proxy (cl_info conn)) then
        Some (Ok (let req := with_proxy_headers (cl_info conn) req in
                  set_uri (absolute_form (req_uri req)) req))
      else u ← origin_form (req_uri req); Some (Ok (set_uri u req))
  else Some (Ok req).

(** The cookies of the store, unless the request has its own. *)
Definition with_cookies (store : option S) (conn : ClientConn) (uri : Uri) (now : Z) (req : Req) : Req :=
  match store with
  | Some store =>
    if hm_contains_key (req_headers req) COOKIE then req
    else
      let version := if cl_http2 conn then HTTP_2 else HTTP_11 in
      set_headers
        (match cs_cookies store uri version now with
         | Compressed value => hm_insert COOKIE value (req_headers req)
         | Uncompressed values => foldl (λ h v, hm_append COOKIE v h) (req_headers req) values
         | Empty => req_headers req
         end) req
  | None => req
  end.

(** What happens to the response: the store with its cookies, at the times they
    are stored, and its extensions. *)
Definition store_cookies (store : S) (uri : Uri) (now : Z) (res : Res) : S :=
  match hm_get_all (res_headers res) SET_COOKIE with
  | [] => store
  | cookies => cs_set_cookies store ((λ v, (v, now)) <$> cookies) uri
  end.
Definition with_info (conn : ClientConn) (res : Res) : Res :=
  {| res_status := res_status res; res_version := res_version res; res_headers := res_headers res;
     res_ext := insert_connected (cl_info conn) (set_extras insert_extra (cl_info conn) (res_ext res));
     res_body := res_body res |}.

(** The answer of the engine: a response, the request given back before any of
    it was written, or a failure. *)
Inductive Reply :=
| Answer (res : Res)
| GivenBack (source : Source)
| Failed (source : Source).

Inductive TrySendError :=
| Retryable (error : Err') (req : Req) (connection_reused : bool)
| Nope (error : Err').

(** [try_send_request] on an established connection, with the request that was
    handed to the engine. *)
Definition try_send_request (cfg : ClientConfig) (store : option S) (conn : ClientConn) (now : Z)
    (reply : Reply) (req : Req) : option (option Req * result Res TrySendError) :=
  let uri := req_uri req in
  r ← shape cfg conn req;
  match r with
  | Err e => Some (None, Err (Nope e))
  | Ok req =>
    let req := with_cookies store conn uri now req in
    Some (Some req,
      match reply with
      | Answer res => Ok (with_info conn res)
      | GivenBack source =>
        Err (Retryable (with_connect_info (cl_info conn) (Error_new Canceled source)) req
               (cl_reused conn))
      | Failed source =>
        Err (Nope (with_connect_info (cl_info conn) (Error_new SendRequest source)))
      end)
  end.

(** One attempt of [send_request]: what [connection_for] returned, the store of
    the request and the time, and the answer of the engine. *)
Record Attempt := {
  at_conn : result ClientConn Err';
  at_store : option S;
  at_now : Z;
  at_reply : Reply;
}.

(** [send_request]: the requests handed to the engine with the connection and
    the reply of each, and the result, [None] while the attempts given are not
    enough. *)
Fixpoint send_request (cfg : ClientConfig) (uri : Uri) (req : Req) (attempts : list Attempt) :
    option (list (Req * ClientConn * Reply) * option (result Res Err')) :=
  match attempts with
  | [] => Some ([], None)
  | a :: attempts =>
    match at_conn a with
    | Err e => Some ([], Some (Err e))
    | Ok conn =>
      '(sent, r) ← try_send_request cfg (at_store a) conn (at_now a) (at_reply a) req;
      let log := match sent with Some q => [(q, conn, at_reply a)] | None => [] end in
      match r with
      | Ok res => Some (log, Some (Ok res))
      | Err (Nope e) => Some (log, Some (Err e))
      | Err (Retryable error req connection_reused) =>
        if negb (retry_canceled_requests cfg) || negb connection_reused
        then Some (log, Some (Err error))
        else
          '(log', r) ← send_request cfg uri (set_uri uri req) attempts;
          Some (log ++ log', r)
      end
    end
  end.

(** [one_connection_for]: which future of the race finished first, with what,
    and what the other one gives if it is waited for. *)
Inductive ClientConnectError :=
| Normal (e : Err')
| CheckoutIsClosed (e : PoolError).
Inductive Race :=
| CheckoutFirst (checked_out : result ClientConn PoolError) (connecting : result ClientConn Err')
| ConnectFirst (connected : result ClientConn Err') (checkout : result ClientConn PoolError).

Definition one_connection_for (cfg : ClientConfig) (enabled : bool) (direct : result ClientConn Err')
    (race : Race) : result ClientConn ClientConnectError :=
  if negb enabled then map_err Normal direct
  else
    let is_ver_h2 := match cc_ver cfg with Http2 => true | Auto => false end in
    match race with
    | CheckoutFirst (Ok checked_out) _ => Ok checked_out
    | ConnectFirst (Ok connected) _ => Ok connected
    | CheckoutFirst (Err err) connecting =>
      if is_canceled err then map_err Normal connecting
      else Err (Normal (Error_new KConnect OtherSource))
    | ConnectFirst (Err err) checkout =>
      if Error_is_canceled err then
        map_err (λ e, if is_ver_h2 && is_canceled e then CheckoutIsClosed e
                      else Normal (Error_new KConnect OtherSource)) checkout
      else Err (Normal err)
    end.

(** [connection_for] over the races that are run; [None] while they are not
    enough. *)
Fixpoint connection_for (cfg : ClientConfig) (enabled : bool)
    (races : list (result ClientConn Err' * Race)) : option (result ClientConn Err') :=
  match races with
  | [] => None
  | (direct, race) :: races =>
    match one_connection_for cfg enabled direct race with
    | Ok pooled => Some (Ok pooled)
    | Err (Normal err) => Some (Err err)
    | Err (CheckoutIsClosed reason) =>
      if negb (retry_canceled_requests cfg) then Some (Err (Error_new KConnect OtherSource))
      else connection_for cfg enabled races
    end
  end.

(** ** What is sent *)
Implicit Types (req q : Req) (cfg : ClientConfig) (conn : ClientConn).

(** A URI a request can be sent to: absolute, with a host that may stand in a
    header. *)
Definition sendable (u : Uri) : Prop :=
  is_Some (uri_scheme u) ∧ is_Some (uri_path_and_query u) ∧
  ∃ a, uri_authority u = Some a ∧ forallb visible_byte (auth_host a) = true ∧
       match auth_port a with Some p => (0 <= p)%Z | None => True end.

Definition via_proxy (conn : ClientConn) (req : Req) : bool :=
  negb (cl_http2 conn) && negb (bool_decide (req_method req = CONNECT)) &&
  pi_is_proxied (cn_proxy (cl_info conn)).

(** The text of the [Host] header: the port is left out when it is the default
    one of the scheme. *)
Definition host_text (u : Uri) : str :=
  default [] (uri_host u) ++
  match uri_port u with
  | Some p =>
    if decide (p = (if is_schema_secure u then 443 else 80)%Z) then [] else #":" ++ decimal p
  | None => []
  end.
Definition visible_value (s : str) : HeaderValue := {| hv_bytes := s; hv_sensitive := false |}.

Definition cookie_values (c : Cookies) : list HeaderValue :=
  match c with Compressed v => [v] | Uncompressed vs => vs | Empty => [] end.

(** The values a proxy imposes on a request, and the values every header of the
    request has when it is sent: imposed by the proxy, else given by the
    caller, else supplied by the client. *)
Definition imposed (conn : ClientConn) (req : Req) (n : HeaderName) : list HeaderValue :=
  if via_proxy conn req
  then from_option (λ h, hm_get_all h n) [] (pi_headers (cn_proxy (cl_info conn))) else [].
Definition supplied (cfg : ClientConfig) (conn : ClientConn) (req : Req) (n : HeaderName) :
    list HeaderValue :=
  if decide (n = HOST) then
    if negb (cl_http2 conn) && set_host cfg then [visible_value (host_text (req_uri req))] else []
  else if decide (n = PROXY_AUTHORIZATION) then
    if via_proxy conn req then option_list (pi_auth (cn_proxy (cl_info conn))) else []
  else [].
Definition stored_cookies (store : option S) (conn : ClientConn) (now : Z) (req : Req) :
    list HeaderValue :=
  match store with
  | Some st =>
    cookie_values (cs_cookies st (req_uri req) (if cl_http2 conn then HTTP_2 else HTTP_11) now)
  | None => []
  end.
Definition outgoing_values (cfg : ClientConfig) (store : option S) (conn : ClientConn) (now : Z)
    (req : Req) (n : HeaderName) : list HeaderValue :=
  imposed conn req n <|> hm_get_all (req_headers req) n <|>
  (if decide (n = COOKIE) then stored_cookies store conn now req else supplied cfg conn req n).

Definition outgoing_uri (conn : ClientConn) (req : Req) : Uri :=
  let u := req_uri req in
  if cl_http2 conn then u
  else if decide (req_method req = CONNECT) then
    {| uri_scheme := None; uri_authority := uri_authority u; uri_path_and_query := None |}
  else if pi_is_proxied (cn_proxy (cl_info conn)) then u
  else {| uri_scheme := None; uri_authority := None; uri_path_and_query := uri_path_and_query u |}.

Lemma from_parts_ok p : valid_parts p = true → uri_from_parts p = Some p.
Proof. intros [u Hu]%uri_from_parts_valid. rewrite Hu. f_equal. by apply uri_from_parts_Some. Qed.

Lemma generate_host_header_ok u :
  sendable u → generate_host_header u = Some (visible_value (host_text u)).
Proof.
  intros (_ & _ & a & Ha & Hv & Hp). unfold generate_host_header, host_text, uri_host, uri_port.
  rewrite Ha. cbn [fmap option_fmap option_map mbind option_bind default].
  assert (header_from_str (auth_host a) = Some (visible_value (auth_host a))) as Hplain.
  { by rewrite header_from_str_spec, Hv. }
  destruct (auth_port a) as [p|]; [|by rewrite app_nil_r].
  assert (from_maybe_shared (auth_host a ++ #":" ++ decimal p) =
          Some (visible_value (auth_host a ++ #":" ++ decimal p))) as Hfull.
  { apply from_maybe_shared_ok. rewrite !Forall_app. split_and!.
    - rewrite forallb_forall in Hv. apply Forall_forall. intros c Hc.
      apply visible_field, Hv. by apply list_elem_of_In.
    - by repeat constructor.
    - apply Forall_forall. intros c Hc. eapply visible_field, decimal_fuel_visible; [|exact Hc]. done. }
  destruct (is_schema_secure u); case_decide; subst; cbn [andb orb negb];
    rewrite ?andb_true_r, ?andb_false_r; cbn [orb bool_decide];
    rewrite ?bool_decide_eq_true_2, ?bool_decide_eq_false_2 by done; simpl; by rewrite ?app_nil_r.
Qed.

Lemma or_insert_get_all n v h m :
  hm_get_all (or_insert n v h) m = hm_get_all h m <|> (if decide (m = n) then [v] else []).
Proof.
  unfold or_insert, hm_contains_key. case_bool_decide as Hn.
  - destruct (decide (m = n)) as [->|]; [by destruct (hm_get_all h n) | by rewrite orl_nil_r].
  - rewrite hm_get_all_insert. destruct (decide (m = n)) as [->|]; [by rewrite Hn | by rewrite orl_nil_r].
Qed.

Lemma replace_headers_orl (dst src : HeaderMap HeaderValue) n :
  hm_get_all (replace_headers dst src) n = hm_get_all src n <|> hm_get_all dst n.
Proof. rewrite replace_headers_get_all. by destruct (hm_get_all src n). Qed.

Lemma with_host_ok cfg req :
  sendable (req_uri req) →
  with_host cfg req =
    Some (if set_host cfg
          then set_headers (or_insert HOST (visible_value (host_text (req_uri req))) (req_headers req)) req
          else req).
Proof.
  intros Hs. unfold with_host, or_insert. destruct (set_host cfg); [|done].
  rewrite generate_host_header_ok by done. destruct (hm_contains_key _ _); [by destruct req|done].
Qed.

Lemma origin_form_ok u :
  is_Some (uri_path_and_query u) →
  origin_form u = Some {| uri_scheme := None; uri_authority := None;
                          uri_path_and_query := uri_path_and_query u |}.
Proof.
  intros [pq Hpq]. unfold origin_form. rewrite Hpq. destruct (just_slash pq) eqn:Hj.
  - unfold just_slash in Hj. simpl_bool. destruct pq as [p q]. simpl in *. by subst.
  - by apply from_parts_ok.
Qed.

Lemma with_host_values cfg req n :
  hm_get_all (req_headers (if set_host cfg
    then set_headers (or_insert HOST (visible_value (host_text (req_uri req))) (req_headers req)) req
    else req)) n =
  hm_get_all (req_headers req) n <|>
  (if decide (n = HOST) then if set_host cfg then [visible_value (host_text (req_uri req))] else []
   else []).
Proof.
  destruct (set_host cfg); cbn [set_headers req_headers].
  - rewrite or_insert_get_all. by case_decide.
  - case_decide; by rewrite orl_nil_r.
Qed.

Lemma with_proxy_headers_values info req n :
  hm_get_all (req_headers (with_proxy_headers info req)) n =
  from_option (λ h, hm_get_all h n) [] (pi_headers (cn_proxy info)) <|>
  hm_get_all (req_headers req) n <|>
  (if decide (n = PROXY_AUTHORIZATION) then option_list (pi_auth (cn_proxy info)) else []).
Proof.
  unfold with_proxy_headers.
  destruct (pi_auth (cn_proxy info)) as [v|], (pi_headers (cn_proxy info)) as [h|]; simpl;
    rewrite ?replace_headers_orl, ?or_insert_get_all; case_decide; by rewrite ?orl_nil_r.
Qed.

Lemma shape_ok cfg conn req :
  sendable (req_uri req) →
  if negb (cl_http2 conn) && bool_decide (req_version req = HTTP_2)
  then shape cfg conn req =
         Some (Err (with_connect_info (cl_info conn) (err UserUnsupportedVersion)))
  else ∃ q, shape cfg conn req = Some (Ok q) ∧ req_method q = req_method req ∧
    req_version q = req_version req ∧ req_body q = req_body req ∧ req_ext q = req_ext req ∧
    req_uri q = outgoing_uri conn req ∧
    ∀ n, hm_get_all (req_headers q) n = imposed conn req n <|> hm_get_all (req_headers req) n <|> supplied cfg conn req n.
Proof.
  intros Hs. unfold shape, outgoing_uri, supplied, imposed, via_proxy.
  destruct (cl_http2 conn); cbn [negb andb].
  { exists req. split_and!; try done. intros n. repeat case_decide; by destruct (hm_get_all _ _). }
  case_bool_decide; [done|]. rewrite with_host_ok by done. cbn [mbind option_bind].
  set (hreq := if set_host cfg then _ else _).
  assert (req_method hreq = req_method req ∧ req_version hreq = req_version req ∧
          req_body hreq = req_body req ∧ req_ext hreq = req_ext req ∧
          req_uri hreq = req_uri req) as (Hm & Hv & Hb & He & Hu).
  { unfold hreq. by destruct (set_host cfg). }
  pose proof (with_host_values cfg req) as Hh. fold hreq in Hh.
  destruct Hs as (Hsch & Hpq & a & Ha & _). rewrite Hm, Hu. case_bool_decide as Hc.
  - unfold authority_form. rewrite Ha. cbn [mbind option_bind]. rewrite from_parts_ok by done.
    eexists. split; [done|]. rewrite decide_True by done. split_and!; try done. intros n. simpl.
    rewrite Hh. by repeat case_decide.
  - rewrite decide_False by done. destruct (pi_is_proxied _); cbn [negb andb].
    + eexists. split; [done|]. split_and!; try done. intros n. cbn [set_uri req_headers].
      rewrite with_proxy_headers_values, Hh, orl_assoc.
      repeat case_decide; simplify_eq; by rewrite ?orl_nil_r.
    + rewrite origin_form_ok by done. eexists. split; [done|]. split_and!; try done.
      intros n. simpl. rewrite Hh. by repeat case_decide.
Qed.

Lemma with_cookies_values store conn uri now q n :
  hm_get_all (req_headers (with_cookies store conn uri now q)) n =
  hm_get_all (req_headers q) n <|>
  (if decide (n = COOKIE) then
     match store with
     | Some st => cookie_values (cs_cookies st uri (if cl_http2 conn then HTTP_2 else HTTP_11) now)
     | None => []
     end
   else []).
Proof.
  unfold with_cookies. destruct store as [st|]; [|case_decide; by rewrite orl_nil_r].
  unfold hm_contains_key. case_bool_decide as Hc.
  { destruct (decide (n = COOKIE)) as [->|]; [|by rewrite orl_nil_r].
    by destruct (hm_get_all (req_headers q) COOKIE). }
  destruct (cs_cookies _ _ _ _) as [v|vs|]; cbn [set_headers req_headers cookie_values].
  - rewrite hm_get_all_insert. case_decide; subst; by rewrite ?Hc, ?orl_nil_r.
  - rewrite get_all_append_list. case_decide; subst; by rewrite ?Hc, ?orl_nil_r.
  - case_decide; by rewrite orl_nil_r.
Qed.

Lemma with_cookies_same store conn uri now q :
  let q' := with_cookies store conn uri now q in
  req_method q' = req_method q ∧ req_version q' = req_version q ∧ req_body q' = req_body q ∧
  req_ext q' = req_ext q ∧ req_uri q' = req_uri q.
Proof. unfold with_cookies. destruct store; [|done]. by case_match. Qed.

Lemma supplied_cookie cfg conn req : supplied cfg conn req COOKIE = [].
Proof. done. Qed.

(** An attempt does not panic, and what it sends. *)
Lemma try_send_request_ok cfg store conn now reply req :
  sendable (req_uri req) →
  if negb (cl_http2 conn) && bool_decide (req_version req = HTTP_2)
  then ∃ e, try_send_request cfg store conn now reply req = Some (None, Err (Nope e)) ∧
            e_kind e = UserUnsupportedVersion
  else ∃ q r, try_send_request cfg store conn now reply req = Some (Some q, r) ∧
    req_method q = req_method req ∧ req_version q = req_version req ∧
    req_body q = req_body req ∧ req_ext q = req_ext req ∧
    req_uri q = outgoing_uri conn req ∧
    (∀ n, hm_get_all (req_headers q) n = outgoing_values cfg store conn now req n) ∧
    match reply, r with
    | Answer res, Ok res' => res' = with_info conn res
    | GivenBack _, Err (Retryable _ q' reused) => q' = q ∧ reused = cl_reused conn
    | Failed _, Err (Nope _) => True
    | _, _ => False
    end.
Proof.
  intros Hs. pose proof (shape_ok cfg conn req Hs) as Hsh. unfold try_send_request.
  destruct (_ && _); [rewrite Hsh; by eexists|].
  destruct Hsh as (q & -> & Hm & Hv & Hb & He & Hu & Hh). cbn [mbind option_bind].
  destruct (with_cookies_same store conn (req_uri req) now q) as (Hm' & Hv' & Hb' & He' & Hu').
  eexists _, _. split; [done|]. rewrite Hm', Hv', Hb', He', Hu'. split_and!; try done.
  - intros n. rewrite with_cookies_values, Hh. unfold outgoing_values, stored_cookies.
    rewrite !orl_assoc. destruct (decide (n = COOKIE)) as [->|]; [|by rewrite orl_nil_r].
    by rewrite supplied_cookie.
  - by destruct reply.
Qed.

(** C11: what is sent for a request.  On every connection and for every absolute
    URI, an attempt does not panic.  It refuses a request that asks for HTTP/2
    on an HTTP/1 connection.  Otherwise it sends the method, version and body
    of the request, in origin form to a server over HTTP/1, in absolute form
    to a proxy, in authority form for CONNECT, and unchanged over HTTP/2; and
    for every header name exactly the values that are imposed by the proxy it
    goes through, else that the caller gave, else that the client supplies:
    the [Host] of the URI over HTTP/1, the credentials of the proxy it goes
    through, and the cookies the store has for its URI.  So credentials for a
    proxy are never sent to a server, and no header of the caller is lost. *)
Theorem outgoing_request cfg store conn now reply req :
  sendable (req_uri req) →
  ∃ sent r, try_send_request cfg store conn now reply req = Some (sent, r) ∧
  match sent with
  | None => cl_http2 conn = false ∧ req_version req = HTTP_2 ∧
            ∃ e, r = Err (Nope e) ∧ e_kind e = UserUnsupportedVersion
  | Some q =>
    (cl_http2 conn = true ∨ req_version req ≠ HTTP_2) ∧
    req_method q = req_method req ∧ req_version q = req_version req ∧
    req_body q = req_body req ∧ req_uri q = outgoing_uri conn req ∧
    (∀ n, hm_get_all (req_headers q) n = outgoing_values cfg store conn now req n) ∧
    (via_proxy conn req = false →
       hm_get_all (req_headers q) PROXY_AUTHORIZATION =
       hm_get_all (req_headers req) PROXY_AUTHORIZATION)
  end.
Proof.
  intros Hs. pose proof (try_send_request_ok cfg store conn now reply req Hs) as H.
  destruct (_ && _) eqn:Hv.
  - simpl_bool. destruct H as (e & Ht & He). exists None, (Err (Nope e)). split_and!; try done. by exists e.
  - destruct H as (q & r & Ht & ? & ? & ? & ? & ? & Hh & _).
    exists (Some q), r. split_and!; try done.
    + destruct (cl_http2 conn); [by left|]. right. intros Hv2.
      by rewrite bool_decide_eq_true_2 in Hv.
    + intros Hp. rewrite Hh. unfold outgoing_values, imposed, supplied. rewrite Hp. simpl.
      by rewrite orl_nil_r.
Qed.

(** ** Resending *)

(** The entries of the log: the requests handed to the engine. *)
Definition given_back (cfg : ClientConfig) (e : Req * ClientConn * Reply) : Prop :=
  retry_canceled_requests cfg = true ∧ cl_reused e.1.2 = true ∧
  match e.2 with GivenBack _ => True | _ => False end.

Lemma outgoing_uri_base conn req1 req2 :
  req_uri req1 = req_uri req2 → req_method req1 = req_method req2 →
  outgoing_uri conn req1 = outgoing_uri conn req2.
Proof. unfold outgoing_uri. by intros -> ->. Qed.

(** Only the last entry may be anything but a request given back by a reused
    connection; every entry is the request; a response answers the last. *)
Record sent_once cfg req (log : list (Req * ClientConn * Reply)) (r : option (result Res Err')) :
    Prop := {
  so_init l1 e l2 : log = l1 ++ e :: l2 → l2 ≠ [] → given_back cfg e;
  so_same : Forall (λ e : Req * ClientConn * Reply,
    req_method e.1.1 = req_method req ∧ req_body e.1.1 = req_body req ∧
    req_version e.1.1 = req_version req ∧ req_uri e.1.1 = outgoing_uri e.1.2 req) log;
  so_answer res : r = Some (Ok res) → ∃ l1 q conn res',
    log = l1 ++ [(q, conn, Answer res')] ∧ res = with_info conn res';
  so_pending : r = None → Forall (given_back cfg) log;
}.

Lemma sent_once_nil cfg req e : sent_once cfg req [] (Some (Err e)).
Proof. split; try done. by intros []. Qed.

Lemma sent_once_last cfg req q conn reply (r : result Res Err') :
  req_method q = req_method req → req_body q = req_body req → req_version q = req_version req →
  req_uri q = outgoing_uri conn req →
  (∀ res, r = Ok res → ∃ res', reply = Answer res' ∧ res = with_info conn res') →
  sent_once cfg req [(q, conn, reply)] (Some r).
Proof.
  intros Hm Hb Hv Hu Hr. split; try done.
  - intros [|? [|]] e l2 Heq Hne; by simplify_eq/=.
  - by constructor.
  - intros res [= ->]. destruct (Hr res eq_refl) as (res' & -> & ->). by exists [], q, conn, res'.
Qed.

Lemma sent_once_cons cfg req req' q conn reply log r :
  req_method q = req_method req → req_body q = req_body req → req_version q = req_version req →
  req_uri q = outgoing_uri conn req → given_back cfg (q, conn, reply) →
  req_method req' = req_method req → req_body req' = req_body req →
  req_version req' = req_version req → req_uri req' = req_uri req →
  sent_once cfg req' log r → sent_once cfg req ((q, conn, reply) :: log) r.
Proof.
  intros Hm Hb Hv Hu Hg Hm' Hb' Hv' Hu' [Hi Hs Ha Hp]. split.
  - intros [|x l1] e l2 Heq Hne; simplify_eq/=; [done|]. by eapply Hi.
  - constructor; [done|]. eapply Forall_impl; [done|]. intros [[q' c'] rep'] (-> & -> & -> & ->).
    split_and!; try done. by apply outgoing_uri_base.
  - intros res Hres. destruct (Ha res Hres) as (l1 & q' & c' & res' & -> & ->).
    by exists ((q, conn, reply) :: l1), q', c', res'.
  - intros Hr. constructor; auto.
Qed.

Lemma send_request_ok cfg req attempts :
  sendable (req_uri req) →
  ∃ log r, send_request cfg (req_uri req) req attempts = Some (log, r) ∧
    sent_once cfg req log r ∧ (r = None → length log = length attempts).
Proof.
  remember (req_uri req) as uri eqn:Hu. intros Hs. revert req Hu.
  induction attempts as [|a attempts IH]; intros req Hu; simpl.
  { exists [], None. split_and!; try done. split; try done; by intros []. }
  destruct (at_conn a) as [conn|e]; [|exists [], (Some (Err e)); split_and!; try done; apply sent_once_nil].
  pose proof (try_send_request_ok cfg (at_store a) conn (at_now a) (at_reply a) req
    ltac:(by rewrite <- Hu)) as H.
  destruct (_ && _).
  { destruct H as (e & -> & _). exists [], (Some (Err e)). split_and!; try done. apply sent_once_nil. }
  destruct H as (q & r & -> & Hm & Hv & Hb & _ & Hq & _ & Hr). cbn [mbind option_bind].
  destruct r as [res|[error q' reused|error]].
  - eexists _, _. split_and!; try done. apply sent_once_last; try done.
    intros ? [= <-]. destruct (at_reply a); [eauto|done..].
  - destruct (at_reply a) as [|source|] eqn:Hrep; try done. destruct Hr as [-> ->].
    destruct (_ || _) eqn:Hretry.
    + eexists _, _. split_and!; try done. by apply sent_once_last.
    + simpl_bool. destruct (IH (set_uri uri q) eq_refl) as (log & r & -> & Hlog & Hlen).
      simpl. eexists _, _. split; [done|]. split; [|intros ->; simpl; by rewrite Hlen].
      eapply (sent_once_cons _ _ (set_uri uri q)); try done; by split_and!.
  - eexists _, _. split_and!; try done. by apply sent_once_last.
Qed.


(** ** Accepting a request *)

(** The scheme of the connection: the one of the URI, and for CONNECT to a bare
    authority the one of its port. *)
Definition connect_scheme (u : Uri) (a : Authority) : Scheme :=
  default (if bool_decide (auth_port a = Some 443%Z) then HTTPS else HTTP) (uri_scheme u).

(** Which requests the client accepts, and what it connects to.  It never
    panics.  It refuses CONNECT over HTTP/1.0, the versions it does not speak,
    and a URI without an authority or, except for CONNECT, without a scheme;
    each with its own kind of error.  Otherwise it connects to the scheme and
    authority of the URI with the path replaced by a slash, under the options
    of the request, which are consumed; so requests that differ in path and
    query only get the same connection key.  The engine is set up with the
    options of the request where it has some. *)
Theorem request_spec this req :
  let is_connect := bool_decide (req_method req = CONNECT) in
  match request this req with
  | None => False
  | Some (Err e) =>
    e_kind e = UserUnsupportedRequestMethod ∧ is_connect = true ∧ req_version req = HTTP_10 ∨
    e_kind e = UserUnsupportedVersion ∧ (req_version req = HTTP_09 ∨ req_version req = HTTP_3) ∨
    e_kind e = UserAbsoluteUriRequired ∧
      (uri_authority (req_uri req) = None ∨ uri_scheme (req_uri req) = None ∧ is_connect = false)
  | Some (Ok (req', d, engine)) =>
    ∃ a, uri_authority (req_uri req) = Some a ∧
      (is_Some (uri_scheme (req_uri req)) ∨ is_connect = true) ∧
      let o := default RequestOptions_default (config_get options_slot (req_ext req)) in
      let base := {| uri_scheme := Some (connect_scheme (req_uri req) a);
                     uri_authority := Some a; uri_path_and_query := Some slash |} in
      d = ConnectionDescriptor_new base (ro_group o) (ro_proxy o) (ro_version o)
            (ro_tls_options o) (ro_socket_bind_options o) ∧
      engine = engine_options (ro_http1_options o) (ro_http2_options o) this ∧
      sl_get options_slot (req_ext req') = None ∧ req_headers req' = req_headers req ∧
      req_method req' = req_method req ∧ req_body req' = req_body req ∧
      req_uri req' = match uri_scheme (req_uri req) with Some _ => req_uri req | None => base end
  end.
Proof.
  cbv zeta. unfold request, normalize_uri, connect_scheme, build_base_uri, set_uri_scheme, config_get.
  assert (∀ o v, sl_get options_slot (sl_set options_slot o v) = o) as Hset by (intros; apply sl_get_set).
  destruct (req_version req) eqn:Hv; try naive_solver;
    case_bool_decide as Hc; cbn [andb];
    rewrite ?bool_decide_eq_false_2, ?bool_decide_eq_true_2 by congruence; try naive_solver;
    destruct (uri_scheme (req_uri req)) as [sc|] eqn:Hs, (uri_authority (req_uri req)) as [a|] eqn:Ha;
    rewrite ?from_parts_ok by done; cbn [mbind option_bind]; rewrite ?from_parts_ok by done;
    cbn [mbind option_bind config_remove]; try (naive_solver; fail);
    exists a; (split_and!; [done | by eauto | done | done | apply Hset | done..]).
Qed.
End client.

Module HttpClientExamples.
Definition uri : Uri :=
  {| uri_scheme := Some HTTPS;
     uri_authority := Some {| auth_str := #"example.com:8443"; auth_host := #"example.com";
                              auth_port := Some 8443%Z |};
     uri_path_and_query := Some {| pq_path := #"/a"; pq_query := Some #"b" |} |}.
Definition req : Request unit unit :=
  {| req_method := GET; req_uri := uri; req_version := HTTP_11; req_headers := hm_empty;
     req_ext := tt; req_body := tt |}.
Definition conn (reused : bool) : ClientConn (V:=unit) :=
  {| cl_info := Connected_new; cl_http2 := false; cl_reused := reused |}.
Definition cfg : ClientConfig :=
  {| retry_canceled_requests := true; set_host := true; cc_ver := Auto |}.
Definition res : Response unit unit :=
  {| res_status := 200%Z; res_version := HTTP_11; res_headers := hm_empty; res_ext := tt; res_body := tt |}.
Definition attempt (reused : bool) (reply : Reply) :
    Attempt (X:=unit) (RB:=unit) (V:=unit) (S:=Store) :=
  {| at_conn := Ok (conn reused); at_store := None; at_now := 0%Z; at_reply := reply |}.

Lemma sendable_uri : sendable uri.
Proof. split_and!; [by eexists..|]. by eexists. Qed.

Lemma outgoing_request_witness :
  ∃ q r, try_send_request (S:=Store) (λ _ x, x) (λ _ x, x) cfg None (conn true) 0
           (Answer res) req = Some (Some q, r) ∧
    hm_get_all (req_headers q) HOST = [visible_value #"example.com:8443"] ∧
    uri_authority (req_uri q) = None.
Proof.
  destruct (outgoing_request (S:=Store) (λ _ x, x) (λ _ x, x) cfg None (conn true) 0
    (Answer res) req sendable_uri) as (sent & r & Ht & Hs).
  destruct sent as [q|]; [|by destruct Hs as (_ & Hv & _)].
  destruct Hs as (_ & _ & _ & _ & Hu & Hh & _). exists q, r. split_and!; [done| |].
  - rewrite Hh. unfold outgoing_values. cbn [req_headers req]. rewrite hm_get_all_empty.
    reflexivity.
  - rewrite Hu. reflexivity.
Defined.

End HttpClientExamples.
