(* ===== verification/Browse.v ===== *)
(** * A request, its redirects and the cookie jar

    [FollowRedirect] wraps the HTTP client service ([Client::build] in
    [src/client.rs]), and every request of a redirect chain reads and writes
    the one cookie jar of the client, which other requests use at the same
    time.  This file runs the three together: the middleware of [Redirect.v],
    [request] and [send_request] of [HttpClient.v], and the jar of [Jar.v].

    - [Try], [Trip]: what the connections, the servers, the redirect policy
      and the other users of the jar do; [visit]: one call of the HTTP service;
      [browse]: a chain.
    - [send_request_cookies]: the [Cookie] fields of one call.
    - [cookies_of_hops]: what the fields of a chain ought to be. *)

From S2P Require Import Prelude Http Errors Net Ext Message Header CookieStore Jar JarSpec.
From S2P Require Import Matcher Group Redirect HttpClient.

Section browse.
Context `{HL : HostLib, UL : UriLib, HV : HeaderValueLib, TL : TimeLib, CL : CookieLib}.
Context `{HM : HeaderMapLib, UR : UrlLib, NL : IpNetLib}.
Context {E RB V P T H1 H2 : Type}.
Context (options_slot : Slot E (RequestConfig (@RequestOptions P T H1 H2))).
Context (insert_extra : V → Annotations → Annotations).
Context (insert_connected : Connected (V:=V) → Annotations → Annotations).
Context (cfg : ClientConfig) (this : @Engine H1 H2).

Abbreviation Req := (Request E Body).
Abbreviation Conn := (ClientConn (V:=V)).
Abbreviation Res := (Resp (B:=RB)).
Abbreviation Err' := (Error (Connected (V:=V))).

(** ** The chain *)

(** The jar is shared, so its state is given by the operations on it so far.
    One attempt of [send_request]: the operations of others before it, the
    connection, the time and the answer of the engine. *)
Record Try := {
  t_others : list JarOp;
  t_conn : result Conn Err';
  t_now : Z;
  t_reply : Reply (X:=Annotations) (RB:=RB);
}.

(** One call of the HTTP service: its attempts, the operations of others until
    the cookies of the response are stored, the time of that, and what a
    policy that suspends the redirect decides. *)
Record Trip := {
  x_tries : list Try;
  x_later : list JarOp;
  x_stored : Z;
  x_action : Action;
}.

(** The attempts with what was done to the jar before each. *)
Fixpoint tries (ops : list JarOp) (ts : list Try) : list (list JarOp * Try) :=
  match ts with
  | [] => []
  | t :: ts => let ops := ops ++ t_others t in (ops, t) :: tries ops ts
  end.
Definition attempt_of (x : list JarOp * Try) : HttpClient.Attempt (V:=V) (S:=Store) :=
  {| at_conn := t_conn x.2; at_store := Some (jar_run x.1); at_now := t_now x.2;
     at_reply := t_reply x.2 |}.

(** Storing the cookies of a response. *)
Definition store_op (uri : Uri) (now : Z) (res : Res) : JarOp :=
  OpSetCookies ((λ v, (v, now)) <$> hm_get_all (res_headers res) SET_COOKIE) uri.

(** What is left of a call: the request of the middleware, the URI it is sent
    to, the attempts it took, the requests handed to the engine, the response,
    and the jar afterwards. *)
Record Hop := {
  h_request : Req;
  h_uri : Uri;
  h_tries : list (list JarOp * Try);
  h_log : list (Req * Conn * Reply (X:=Annotations) (RB:=RB));
  h_response : option Res;
  h_after : list JarOp;
}.

Definition visit (ops : list JarOp) (req : Req) (x : Trip) :
    option (Hop * option (result Res Err')) :=
  r ← request options_slot this req;
  match r with
  | Err e =>
    Some ({| h_request := req; h_uri := req_uri req; h_tries := []; h_log := [];
             h_response := None; h_after := ops |}, Some (Err e))
  | Ok (req', _, _) =>
    let uri := req_uri req' in
    let ts := tries ops (x_tries x) in
    '(log, r) ← send_request insert_extra insert_connected cfg uri req' (attempt_of <$> ts);
    let used := take (length log) ts in
    let ops := from_option fst ops (last used) in
    let response := match r with Some (Ok res) => Some res | _ => None end in
    Some ({| h_request := req; h_uri := uri; h_tries := used; h_log := log;
             h_response := response;
             h_after := match response with
                        | Some res => ops ++ x_later x ++ [store_op uri (x_stored x) res]
                        | None => ops
                        end |}, r)
  end.

Inductive Ended :=
| Finished (r : result Res RedirectError)
| Broken (e : Err')
| Unfinished.

(** The middleware with the service it wraps, over the exchanges given. *)
Fixpoint browse (ops : list JarOp) (req : Req) (m : Machine (E:=E)) (xs : list Trip) :
    option (list Hop * Ended) :=
  match xs with
  | [] => Some ([], Unfinished)
  | x :: xs =>
    '(h, r) ← visit ops req x;
    match r with
    | None => Some ([h], Unfinished)
    | Some (Err e) => Some ([h], Broken e)
    | Some (Ok res) =>
      o ← on_reply m res;
      o ← match o with Suspend s => handle_action s (x_action x) | o => Some o end;
      match o with
      | Send req m => '(hs, e) ← browse (h_after h) req m xs; Some (h :: hs, e)
      | Return r => Some ([h], Finished r)
      | Suspend _ => None
      end
    end
  end.

(** [FollowRedirect::call] with the service. *)
Context (redirect_slot : Slot E (RequestConfig Redirect.Policy)).
Definition client_send (ops : list JarOp) (self : FollowRedirectPolicy) (req : Req)
    (xs : list Trip) : option (list Hop * Ended) :=
  match (Redirect.call redirect_slot self req).1 with
  | Redirecting req m => browse ops req m xs
  | Direct req =>
    match xs with
    | [] => Some ([], Unfinished)
    | x :: _ =>
      '(h, r) ← visit ops req x;
      Some ([h], match r with
                 | None => Unfinished
                 | Some (Err e) => Broken e
                 | Some (Ok res) => Finished (Ok res)
                 end)
    end
  end.

(** The jar after the chain. *)
Definition jar_after (ops : list JarOp) (hs : list Hop) : list JarOp :=
  from_option h_after ops (last hs).

(** [store_op] is what the service does with the response. *)
Lemma store_cookies_run ops uri now (res : Res) :
  store_cookies (jar_run ops) uri now res = jar_run (ops ++ [store_op uri now res]).
Proof.
  unfold jar_run. rewrite foldl_app. unfold store_cookies, store_op. simpl.
  by destruct (hm_get_all _ _).
Qed.

(** ** What is sent *)

#[local] Instance origin_eq_dec u v : Decision (origin_eq u v).
Proof. unfold origin_eq. apply _. Defined.

(** The [Cookie] values of every request of a chain, where [own] are those of
    the caller, [prev] is the URI of the request before and [before] is what
    was done to the jar. *)
Fixpoint cookies_of_hops (own : list HeaderValue) (prev : Uri) (before : list JarOp)
    (hs : list Hop) : Prop :=
  match hs with
  | [] => True
  | h :: hs =>
    let own := if decide (origin_eq (req_uri (h_request h)) prev) then own else [] in
    h_uri h = req_uri (h_request h) ∧
    (∀ q conn reply, (q, conn, reply) ∈ h_log h →
       ∃ ops t c, (ops, t) ∈ h_tries h ∧ t_conn t = Ok c ∧ before `prefix_of` ops ∧
         hm_get_all (req_headers q) COOKIE =
           imposed c (h_request h) COOKIE <|> own <|>
           cookie_values (sp_cookies (sp_run ops) (h_uri h)
             (if cl_http2 c then HTTP_2 else HTTP_11) (t_now t))) ∧
    (∀ res, h_response h = Some res → ∃ ops now, h_after h = ops ++ [store_op (h_uri h) now res]) ∧
    cookies_of_hops own (req_uri (h_request h)) (h_after h) hs
  end.

Implicit Types (req q : Req) (conn : Conn) (m : Machine (E:=E)).

Lemma shape_cookie conn req q :
  shape cfg conn req = Some (Ok q) →
  req_method q = req_method req ∧
  hm_get_all (req_headers q) COOKIE =
    imposed conn req COOKIE <|> hm_get_all (req_headers req) COOKIE.
Proof.
  unfold shape, imposed, via_proxy. destruct (cl_http2 conn); cbn [negb andb]; [by intros [= <-]|].
  case_bool_decide; [done|].
  destruct (with_host cfg req) as [hreq|] eqn:Hh; [|done]. cbn [mbind option_bind].
  assert (req_method hreq = req_method req ∧
          hm_get_all (req_headers hreq) COOKIE = hm_get_all (req_headers req) COOKIE) as [Hm Hc].
  { unfold with_host in Hh. destruct (set_host cfg); [|by simplify_eq].
    destruct (hm_contains_key _ _); [by simplify_eq|].
    destruct (generate_host_header _); [|done]. simplify_eq/=. split; [done|].
    by rewrite hm_get_all_insert, decide_False. }
  rewrite Hm. case_bool_decide; cbn [negb andb].
  - destruct (authority_form _); [|done]. intros [= <-]. by split.
  - destruct (pi_is_proxied _).
    + intros [= <-]. split; [done|]. cbn [set_uri req_headers].
      rewrite with_proxy_headers_values, decide_False, orl_nil_r, Hc by done. done.
    + destruct (origin_form _); [|done]. intros [= <-]. by split.
Qed.

Lemma try_send_cookie store conn now reply req q r :
  try_send_request (S:=Store) (RB:=RB) insert_extra insert_connected cfg store conn now reply req =
    Some (Some q, r) →
  req_method q = req_method req ∧
  hm_get_all (req_headers q) COOKIE = outgoing_values cfg store conn now req COOKIE ∧
  ∀ e q' reused, r = Err (Retryable e q' reused) → q' = q.
Proof.
  unfold try_send_request. destruct (shape cfg conn req) as [[q0|e0]|] eqn:Hs; [|done..].
  apply shape_cookie in Hs as [Hm Hc]. cbn [mbind option_bind]. intros [= <- <-].
  destruct (with_cookies_same store conn (req_uri req) now q0) as (-> & _).
  split_and!; [done| |by destruct reply; naive_solver].
  rewrite with_cookies_values, Hc, decide_True by done. unfold outgoing_values.
  by rewrite decide_True, orl_assoc by done.
Qed.

Lemma try_send_none store conn now reply req r :
  try_send_request (S:=Store) (RB:=RB) insert_extra insert_connected cfg store conn now reply req =
    Some (None, r) → ∃ e, r = Err (Nope e).
Proof.
  unfold try_send_request. destruct (shape cfg conn req) as [[q0|e0]|]; simpl; naive_solver.
Qed.

(** Resending a request with the [Cookie] values [vs] it had before. *)
Lemma outgoing_resent store conn now req q uri vs :
  req_method q = req_method req → req_uri req = uri → hm_get_all (req_headers q) COOKIE = vs →
  (vs = [] → hm_get_all (req_headers req) COOKIE = []) →
  let vs' := outgoing_values (S:=Store) cfg store conn now (set_uri uri q) COOKIE in
  vs' = outgoing_values cfg store conn now req COOKIE ∨ vs' = vs.
Proof.
  intros Hm Hu Hq Hvs. unfold outgoing_values, imposed, via_proxy, stored_cookies.
  cbn [set_uri req_headers req_method req_uri]. rewrite Hm, Hq, Hu, !decide_True by done.
  match goal with |- (?i <|> _) = _ ∨ _ => destruct i; [|by left] end.
  destruct vs as [|v vs]; [|by right]. left. by rewrite Hvs.
Qed.

Lemma outgoing_own store conn now req :
  outgoing_values (S:=Store) cfg store conn now req COOKIE = [] →
  hm_get_all (req_headers req) COOKIE = [].
Proof. unfold outgoing_values. by destruct (imposed _ _ _), (hm_get_all _ _). Qed.

(** A request that was given back keeps the fields of its first attempt, so
    every request of a call has the [Cookie] values one of its attempts
    determines. *)
Lemma send_request_cookies uri req (atts : list (HttpClient.Attempt (V:=V) (S:=Store))) log r :
  req_uri req = uri →
  send_request (RB:=RB) insert_extra insert_connected cfg uri req atts = Some (log, r) →
  ∀ q conn reply, (q, conn, reply) ∈ log →
  (∃ a, a ∈ atts ∧ at_reply a = reply) ∧
  ∃ a c, a ∈ take (length log) atts ∧ at_conn a = Ok c ∧
    hm_get_all (req_headers q) COOKIE =
      outgoing_values cfg (at_store a) c (at_now a) req COOKIE.
Proof.
  revert req log r. induction atts as [|a atts IH]; intros req log r Hu; simpl.
  { intros [= <- <-] q conn reply []%elem_of_nil. }
  destruct (at_conn a) as [c|e] eqn:Hc; [|intros [= <- <-] q conn reply []%elem_of_nil].
  destruct (try_send_request _ _ _ _ _ _ _ _) as [[[q1|] r1]|] eqn:Ht; cbn [mbind option_bind]; [| |done].
  2: { apply try_send_none in Ht as [e ->]. intros [= <- <-] q conn reply []%elem_of_nil. }
  apply try_send_cookie in Ht as (Hm & Hv & Hback).
  assert (∀ k q conn reply, (q, conn, reply) = (q1, c, at_reply a) →
    (∃ a', a' ∈ a :: atts ∧ at_reply a' = reply) ∧
    ∃ a' c', a' ∈ take (S k) (a :: atts) ∧ at_conn a' = Ok c' ∧
      hm_get_all (req_headers q) COOKIE =
        outgoing_values cfg (at_store a') c' (at_now a') req COOKIE) as Hone.
  { intros k q conn reply [= -> -> ->].
    split; [exists a; by split; [left|]|]. exists a, c. split; [simpl; by left|done]. }
  assert (∀ q conn reply, (q, conn, reply) ∈ [(q1, c, at_reply a)] →
    (q, conn, reply) = (q1, c, at_reply a)) as Hin1 by (by intros ??? ?%list_elem_of_singleton).
  destruct r1 as [res|[error q' reused|error]]; [intros [= <- <-] ??? ?%Hin1; by eapply (Hone 0)| |intros [= <- <-] ??? ?%Hin1; by eapply (Hone 0)].
  rewrite (Hback _ _ _ eq_refl) in *. destruct (_ || _);
    [intros [= <- <-] ??? ?%Hin1; by eapply (Hone 0)|].
  destruct (send_request _ _ _ _ _ _) as [[log' r']|] eqn:Hs; [|done]. cbn [mbind option_bind].
  intros [= <- <-] q conn reply [Heq|Hq]%elem_of_cons; [by eapply (Hone (length log'))|].
  destruct (IH (set_uri uri q1) _ _ eq_refl Hs _ _ _ Hq) as ((b & Hb & Hrep) & a' & c' & Hin & Hc' & ->).
  split; [exists b; split; [by right|done]|].
  destruct (outgoing_resent (at_store a') c' (at_now a') req q1 uri _ Hm Hu Hv) as [->| ->].
  - apply outgoing_own.
  - exists a', c'. split; [simpl; by right|done].
  - exists a, c. split; [simpl; by left|done].
Qed.

(** ** Histories only grow *)

Lemma tries_prefix ops ts x : x ∈ tries ops ts → ops `prefix_of` x.1.
Proof.
  revert ops. induction ts as [|t ts IH]; intros ops; simpl; [by intros ?%elem_of_nil|].
  intros [->|Hx]%elem_of_cons; [by apply prefix_app_r|].
  apply IH in Hx. etrans; [|exact Hx]. by apply prefix_app_r.
Qed.

Lemma tries_last ops ts n x :
  x ∈ take n (tries ops ts) → x.1 `prefix_of` from_option fst ops (last (take n (tries ops ts))).
Proof.
  revert ops n. induction ts as [|t ts IH]; intros ops [|n]; simpl; [by intros ?%elem_of_nil..|].
  pose proof (tries_prefix (ops ++ t_others t) ts) as Hp.
  specialize (IH (ops ++ t_others t) n). rewrite last_cons.
  destruct (last (take n (tries (ops ++ t_others t) ts))) as [y|] eqn:Hl; simpl in *.
  - intros [->|Hx]%elem_of_cons; [|by apply IH]. apply Hp.
    apply last_Some_elem_of in Hl. rewrite <- (take_drop n (tries _ ts)). apply elem_of_app. by left.
  - apply last_None in Hl. rewrite Hl. by intros ->%list_elem_of_singleton.
Qed.

Lemma offers_prefix ops ops' : ops `prefix_of` ops' → offers ops <= offers ops'.
Proof. intros [k ->]. rewrite offers_app. lia. Qed.

(** ** One call *)

(** The caller's [Cookie] values [own], and what a call does with them. *)
Record visited (ops : list JarOp) (req : Req) (h : Hop) : Prop := {
  v_request : h_request h = req;
  v_uri : h_uri h = req_uri req;
  v_before : ops `prefix_of` h_after h;
  v_tries o t : (o, t) ∈ h_tries h → ops `prefix_of` o ∧ o `prefix_of` h_after h;
  v_cookies q conn reply : (q, conn, reply) ∈ h_log h →
    ∃ o t c, (o, t) ∈ h_tries h ∧ t_conn t = Ok c ∧
      hm_get_all (req_headers q) COOKIE =
        imposed c req COOKIE <|> hm_get_all (req_headers req) COOKIE <|>
        cookie_values (cookies_for (jar_run o) (h_uri h)
          (if cl_http2 c then HTTP_2 else HTTP_11) (t_now t));
  v_stored res : h_response h = Some res →
    ∃ o now, h_after h = o ++ [store_op (h_uri h) now res];
}.

Lemma tries_after ops ts n : ops `prefix_of` from_option fst ops (last (take n (tries ops ts))).
Proof.
  destruct (last _) as [y|] eqn:Hl; [|done]. apply last_Some_elem_of in Hl. simpl.
  apply (tries_prefix _ ts). rewrite <- (take_drop n). apply elem_of_app. by left.
Qed.

Lemma outgoing_cookie store (c : Conn) now req uri :
  req_uri req = uri →
  outgoing_values (S:=Store) cfg (Some store) c now req COOKIE =
  imposed c req COOKIE <|> hm_get_all (req_headers req) COOKIE <|>
  cookie_values (cookies_for store uri (if cl_http2 c then HTTP_2 else HTTP_11) now).
Proof. intros <-. unfold outgoing_values. by rewrite decide_True. Qed.

(** A request for an absolute URI is accepted as it is, or refused. *)
Lemma request_absolute req :
  sendable (req_uri req) →
  ∃ r, request (V:=V) options_slot this req = Some r ∧
    ∀ req' d engine, r = Ok (req', d, engine) →
      req_uri req' = req_uri req ∧ req_method req' = req_method req ∧
      req_headers req' = req_headers req.
Proof.
  intros ([sc Hsc] & _). pose proof (request_spec (V:=V) options_slot this req) as Hr.
  destruct (request _ _ _) as [r|]; [|done]. exists r. split; [done|]. intros req' d engine ->.
  destruct Hr as (a & _ & _ & _ & _ & _ & -> & -> & _ & ->). by rewrite Hsc.
Qed.

Lemma tries_subset ops ts o t : (o, t) ∈ tries ops ts → t ∈ ts.
Proof.
  revert ops. induction ts as [|t' ts IH]; intros ops; simpl; [by intros ?%elem_of_nil|].
  intros [[= _ ->]|Hx]%elem_of_cons; [by left|right; by eapply IH].
Qed.

Lemma visit_ok ops req x :
  sendable (req_uri req) →
  ∃ h r, visit ops req x = Some (h, r) ∧ visited ops req h ∧
    ∀ res, r = Some (Ok res) → ∃ t res', t ∈ x_tries x ∧ t_reply t = Answer res' ∧
      res_headers res = res_headers res'.
Proof.
  intros Hs. unfold visit. destruct (request_absolute req Hs) as (r & -> & Hok). cbn [mbind option_bind].
  destruct r as [[[req' d] engine]|e].
  2: { eexists _, _. split; [done|]. split; [|done]. split; simpl; try done.
       - by intros o t ?%elem_of_nil.
       - by intros q conn reply ?%elem_of_nil. }
  destruct (Hok _ _ _ eq_refl) as (Hu & Hm & Hh). rewrite Hu.
  set (ts := tries ops (x_tries x)).
  destruct (send_request_ok (S:=Store) (RB:=RB) insert_extra insert_connected cfg req'
    (attempt_of <$> ts)) as (log & r & Hsend & [_ _ Hans _] & _); [by rewrite Hu|].
  rewrite Hu in Hsend. rewrite Hsend. cbn [mbind option_bind].
  pose proof (send_request_cookies _ _ _ _ _ Hu Hsend) as Hck.
  eexists _, _. split; [done|]. split.
  - set (used := take (length log) ts). pose proof (tries_after ops (x_tries x) (length log)) as Hafter.
    pose proof (tries_last ops (x_tries x) (length log)) as Hlast. fold ts used in Hafter, Hlast.
    split; cbn [h_request h_after h_tries h_log h_response h_uri].
    + done.
    + done.
    + repeat case_match; try done. by apply prefix_app_r.
    + intros o t Hot. split.
      * apply (tries_prefix _ (x_tries x) (o, t)). rewrite <- (take_drop (length log)).
        apply elem_of_app. by left.
      * apply Hlast in Hot. repeat case_match; try done. by apply prefix_app_r.
    + intros q conn reply Hq. destruct (Hck _ _ _ Hq) as (_ & a & c & Ha & Hc & ->).
      rewrite <- fmap_take in Ha. apply list_elem_of_fmap in Ha as ([o t] & -> & Hot).
      exists o, t, c. split_and!; [done..|]. cbn [attempt_of at_store at_now fst snd].
      rewrite (outgoing_cookie _ _ _ _ (req_uri req)) by done. unfold imposed, via_proxy.
      by rewrite Hm, Hh.
    + intros res Hres. repeat case_match; simplify_eq. eexists _, _. by rewrite app_assoc.
  - intros res ->. destruct (Hans res eq_refl) as (l1 & q & conn & res' & -> & ->).
    destruct (Hck q conn (Answer res')) as [(a & Ha & Hrep) _]; [apply elem_of_app; right; by left|].
    apply list_elem_of_fmap in Ha as ([o t] & -> & Ht). exists t, res'.
    split_and!; [by eapply tries_subset|done..].
Qed.

(** ** Chains *)

(** Where a response points to. *)
Definition locates (res : Res) (base : Uri) : option Uri :=
  hm_get (res_headers res) LOCATION ≫= λ loc,
  from_utf8 (hv_bytes loc) ≫= λ loc, resolve_uri loc base.

(** The servers point to URIs with a path and a host that may stand in a header,
    and a policy that suspended a redirect decides. *)
Definition well_located (x : Trip) : Prop :=
  x_action x ≠ PendingAction ∧
  ∀ t res base loc, t ∈ x_tries x → t_reply t = Answer res → locates res base = Some loc →
    sendable loc.

(** What the middleware does with a response. *)
Definition next (x : Trip) (m : Machine (E:=E)) (res : Res) : option Outcome :=
  o ← on_reply m res;
  match o with Suspend s => handle_action s (x_action x) | o => Some o end.

Lemma next_cases x m (res : Res) :
  is_Some (policy (m_policy m)) → x_action x ≠ PendingAction →
  ∃ o, next x m res = Some o ∧
    match o with
    | Return _ => True
    | Suspend _ => False
    | Send req' m' => hop (B:=RB) (res_status res) m req' m' ∧
        locates res (req_uri (m_request m)) = Some (req_uri req')
    end.
Proof.
  intros [pol Hpol] Hx. unfold next.
  destruct (on_reply m res) as [o|] eqn:Ho; pose proof Ho as Ho'; unfold on_reply in Ho'; simpl in Ho'.
  all: destruct (rewrite_request _ _ _) as [[req1 br1]|] eqn:Hr; [|naive_solver].
  all: destruct (BodyRepr_take br1) as [[body|] br2]; [|naive_solver].
  all: rewrite (rewrite_uri _ _ _ _ _ Hr) in Ho'; fold (locates res (req_uri (m_request m))) in Ho'.
  all: destruct (locates res _) as [loc|]; [|naive_solver].
  2: { unfold redirect in Ho'. rewrite Hpol in Ho'. simpl in Ho'.
       revert Ho'. destruct (Policy_redirect _ _); simpl; repeat case_match; simplify_eq/=; try done;
         by destruct (on_request _ _). }
  destruct (redirect _ _ _ _ _) as [[p [[]|e]]|] eqn:Hp; simpl in Ho'; try naive_solver.
  - destruct (on_request _ _) as [p' req2] eqn:Hq. injection Ho' as <-. eexists. split; [done|].
    split; [by eapply hop_now|]. apply on_request_state in Hq as (_ & _ & _ & _ & Hq & _).
      f_equal. by symmetry.
  - injection Ho' as <-. cbn [mbind option_bind].
    destruct (x_action x) eqn:Ha; simpl; try done; try (by eexists).
    destruct (on_request _ _) as [p' req2] eqn:Hq. eexists. split; [done|]. split.
    + eapply hop_later; [done|exact Ho|]. instantiate (1 := Follow). simpl. by rewrite Hq.
    + apply on_request_state in Hq as (_ & _ & _ & _ & Hq & _).
      f_equal. by symmetry.
Qed.

Lemma origin_same_dec u v : same_origin u v = bool_decide (origin_eq u v).
Proof.
  apply eq_true_iff_eq. by rewrite same_origin_spec, bool_decide_eq_true.
Qed.

(** The [Cookie] values of the caller after a redirect. *)
Lemma hop_cookie status m req' m' :
  hop (B:=RB) status m req' m' →
  hm_get_all (req_headers req') COOKIE =
  if decide (origin_eq (req_uri req') (req_uri (m_request m)))
  then hm_get_all (req_headers (m_request m)) COOKIE else [].
Proof.
  intros Hhop. rewrite (hop_headers _ _ _ _ COOKIE Hhop) by (vm_compute; set_solver).
  rewrite origin_same_dec. case_bool_decide.
  - rewrite decide_False, decide_True by naive_solver. done.
  - rewrite decide_True, decide_False; [done|done|]. split; [vm_compute; set_solver|done].
Qed.

(** The request a machine waits for. *)
Record sending (req : Req) m : Prop := {
  sd_uri : req_uri req = req_uri (m_request m);
  sd_headers : req_headers req = req_headers (m_request m);
  sd_policy : is_Some (policy (m_policy m));
  sd_sendable : sendable (req_uri req);
}.

Definition hops_ok (ops : list JarOp) (own : list HeaderValue) (prev : Uri) (hs : list Hop) : Prop :=
  ops `prefix_of` jar_after ops hs ∧
  ((Z.of_nat (offers (jar_after ops hs)) < u64_max)%Z → cookies_of_hops own prev ops hs).

Lemma hops_ok_cons ops req own prev h hs :
  visited ops req h →
  hm_get_all (req_headers req) COOKIE = (if decide (origin_eq (req_uri req) prev) then own else []) →
  hops_ok (h_after h) (hm_get_all (req_headers req) COOKIE) (req_uri req) hs →
  hops_ok ops own prev (h :: hs).
Proof.
  intros [Hreq Hu Hb Ht Hc Hst] Hown [Hp Hk].
  assert (jar_after ops (h :: hs) = jar_after (h_after h) hs) as Hja.
  { unfold jar_after. rewrite last_cons. by destruct (last hs). }
  unfold hops_ok. rewrite Hja. split; [by etrans|]. intros Hn. simpl. rewrite Hreq, <- Hown.
  split_and!; [done| |done|by apply Hk]. intros q conn reply Hq.
  destruct (Hc _ _ _ Hq) as (o & t & c & Hot & Hconn & Hv). destruct (Ht _ _ Hot) as [Ho Ho'].
  exists o, t, c. split_and!; [done..|]. rewrite Hv, run_cookies; [done|].
  assert (offers o <= offers (jar_after (h_after h) hs)) by (apply offers_prefix; by etrans). lia.
Qed.

Lemma browse_ok ops req m xs own prev :
  sending req m → Forall well_located xs →
  hm_get_all (req_headers req) COOKIE = (if decide (origin_eq (req_uri req) prev) then own else []) →
  ∃ hs e, browse ops req m xs = Some (hs, e) ∧ hops_ok ops own prev hs.
Proof.
  intros Hsd Hxs. revert ops req m own prev Hsd.
  induction Hxs as [|x xs [Hx Hloc] Hxs IH]; intros ops req m own prev [Hu Hh Hpol Hs] Hown; simpl.
  { exists [], Unfinished. by split. }
  destruct (visit_ok ops req x Hs) as (h & r & -> & Hv & Hres). cbn [mbind option_bind].
  assert (hops_ok (h_after h) (hm_get_all (req_headers req) COOKIE) (req_uri req) []) as Hnil by done.
  destruct r as [[res|e]|]; [|by eexists _, _; split; [done|by eapply hops_ok_cons]..].
  destruct (Hres res eq_refl) as (t & res' & Ht & Hrep & Hhd).
  destruct (next_cases x m res Hpol Hx) as (o & Ho & Hcase). unfold next in Ho.
  destruct (on_reply m res) as [o'|]; [|done]. cbn [mbind option_bind] in *. rewrite Ho.
  cbn [mbind option_bind]. destruct o as [r|req' m'|s]; [|..|done].
  { eexists _, _. split; [done|]. by eapply hops_ok_cons. }
  destruct Hcase as [Hhop Hl]. pose proof (hop_state _ _ _ _ Hhop) as (_ & Hpol' & _ & Hu' & Hh').
  assert (sendable (req_uri req')) as Hs'.
  { eapply Hloc; [done..|]. unfold locates. by rewrite <- Hhd. }
  destruct (IH (h_after h) req' m' (hm_get_all (req_headers req) COOKIE) (req_uri req))
    as (hs & e & -> & Hok).
  - split; [done..|by rewrite Hpol'|done].
  - by rewrite Hu, Hh, (hop_cookie _ _ _ _ Hhop).
  - eexists _, _. split; [done|]. by eapply hops_ok_cons.
Qed.

Lemma origin_eq_refl u : origin_eq u u.
Proof.
  split_and!; [done| |done]. unfold option_scheme_eqb.
  destruct (uri_scheme u); [apply scheme_eqb_refl|done].
Qed.

(** The first request of a chain has the fields of the caller. *)
Lemma call_sending self req :
  uris self = [] → sendable (req_uri req) →
  match (Redirect.call redirect_slot self req).1 with
  | Direct q => req_uri q = req_uri req ∧ req_headers q = req_headers req
  | Redirecting q m =>
    sending q m ∧ req_uri q = req_uri req ∧ req_headers q = req_headers req
  end.
Proof.
  intros Hu Hs. unfold Redirect.call, for_request.
  destruct (load redirect_slot (policy self) (req_ext req)) as [[p|] ext]; [|done].
  destruct (is_none p); [done|]. unfold on_request, remove_sensitive_headers. cbn. rewrite Hu.
  cbn. split; [|done]. split; cbn; try done.
Qed.

(** C7: The cookies of a redirect chain.  However the connections, the servers,
    the redirect policy and the other users of the jar behave, the chain runs
    without a panic.  Every request of it, resent ones included, has the
    [Cookie] values of the caller, until a redirect leads to another origin;
    without such values it has exactly those that the list of cookies of
    [JarSpec.v] selects for its own URI, after everything that was done to the
    jar before, which includes storing the [Set-Cookie] fields of every response
    before it under the URI that response came from.  What the jar contributed
    to one request is not carried over to the next, and only a proxy that the
    request goes through can impose other values. *)
Theorem chain_cookies ops self req xs :
  uris self = [] → sendable (req_uri req) → Forall well_located xs →
  ∃ hs e, client_send ops self req xs = Some (hs, e) ∧
    ((Z.of_nat (offers (jar_after ops hs)) < u64_max)%Z →
     cookies_of_hops (hm_get_all (req_headers req) COOKIE) (req_uri req) ops hs).
Proof.
  intros Hself Hs Hxs. unfold client_send. pose proof (call_sending self req Hself Hs) as Hcall.
  pose proof (origin_eq_refl (req_uri req)) as Hrefl.
  destruct (Redirect.call redirect_slot self req).1 as [q|q m].
  - destruct Hcall as [Hu Hh]. destruct xs as [|x xs]; [by exists [], Unfinished|].
    destruct (visit_ok ops q x) as (h & r & -> & Hv & _); [by rewrite Hu|].
    eexists _, _. split; [done|]. eapply proj2.
    apply (hops_ok_cons _ _ (hm_get_all (req_headers req) COOKIE) (req_uri req) _ [] Hv); [|done].
    by rewrite Hu, Hh, decide_True.
  - destruct Hcall as (Hsd & Hu & Hh).
    destruct (browse_ok ops q m xs (hm_get_all (req_headers req) COOKIE) (req_uri req))
      as (hs & e & -> & [_ Hok]); [done|done| |by exists hs, e].
    by rewrite Hu, Hh, decide_True.
Qed.
End browse.

(** ** Examples *)
Module BrowseExamples.
Import RedirectExamples.

Definition Ext2 : Type :=
  option (RequestConfig Redirect.Policy) * option (RequestConfig (@RequestOptions unit unit unit unit)).
Definition policy_slot : Slot Ext2 (RequestConfig Redirect.Policy) :=
  {| sl_get := fst; sl_set := λ c e, (c, e.2); sl_get_set := λ c e, eq_refl |}.
Definition request_slot : Slot Ext2 (RequestConfig (@RequestOptions unit unit unit unit)) :=
  {| sl_get := snd; sl_set := λ c e, (e.1, c); sl_get_set := λ c e, eq_refl |}.

(** A POST with a cookie of its own to one site, which sets a cookie and
    redirects to another; a second request of the client stores a cookie for
    that site meanwhile. *)
Definition post : Request Ext2 Body :=
  {| req_method := POST; req_uri := uri #"https://a.example/x"; req_version := HTTP_11;
     req_headers := hm_insert COOKIE (hv #"mine=1") hm_empty;
     req_ext := (None, None); req_body := Reusable #"data" |}.
Definition link : ClientConn (V:=unit) :=
  {| cl_info := Connected_new; cl_http2 := false; cl_reused := true |}.
Definition moved_to_b : Resp (B := unit) :=
  {| res_status := 302; res_version := HTTP_11;
     res_headers := hm_insert SET_COOKIE (hv #"seen=1")
                      (hm_insert LOCATION (hv #"https://b.example/y") hm_empty);
     res_ext := {| request_uri := None; res_history := None |}; res_body := tt |}.
Definition try (others : list JarOp) (now : Z) (r : Reply) : Try (V:=unit) (RB:=unit) :=
  {| t_others := others; t_conn := Ok link; t_now := now; t_reply := r |}.
Definition meanwhile : list JarOp :=
  [OpAdd (JarExamples.simple #"lang" #"en" None None None None) (uri #"https://b.example/") 3].
Definition exchanges : list (Trip (V:=unit) (RB:=unit)) :=
  [ {| x_tries := [try [] 1 (GivenBack OtherSource); try [] 2 (Answer moved_to_b)];
       x_later := meanwhile; x_stored := 4; x_action := Stop |};
    {| x_tries := [try [] 5 (Answer (reply 200 []))];
       x_later := []; x_stored := 6; x_action := Stop |} ].
Definition chain := client_send request_slot (λ _ a, a) (λ _ a, a) HttpClientExamples.cfg
  {| h1_builder := None; h2_builder := None |} policy_slot []
  (FollowRedirectPolicy_new (Limit 2)) post exchanges.

(** At work: the cookie of the caller, resent with the request, and then only
    the cookie of the other site. *)
Lemma run_cookie_fields :
  match chain with
  | Some (hs, Finished (Ok _)) =>
    (λ h, (λ x, hm_get_all (req_headers x.1.1) COOKIE) <$> h_log h) <$> hs =
      [[[hv #"mine=1"]; [hv #"mine=1"]]; [[hv #"lang=en"]]]
  | _ => False
  end.
Proof. by vm_compute. Qed.

Lemma moved_to_b_locates base loc :
  locates moved_to_b base = Some loc → sendable loc.
Proof.
  unfold locates, resolve_uri. intros H.
  destruct (hm_get _ _) as [v|] eqn:Hv; [|done]. vm_compute in Hv. injection Hv as <-.
  destruct (Url_parse _) as [u|]; [|by vm_compute in H]. vm_compute in H. injection H as <-.
  split_and!; [by eexists..|]. by eexists.
Qed.

Lemma chain_cookies_witness :
  ∃ hs e, chain = Some (hs, e) ∧ cookies_of_hops [hv #"mine=1"] (uri #"https://a.example/x") [] hs.
Proof.
  destruct (chain_cookies request_slot (λ _ a, a) (λ _ a, a) HttpClientExamples.cfg
    {| h1_builder := None; h2_builder := None |} policy_slot []
    (FollowRedirectPolicy_new (Limit 2)) post exchanges) as (hs & e & Hr & Hc).
  - done.
  - split_and!; [by eexists..|]. by eexists.
  - apply Forall_cons; split; [|apply Forall_singleton]; (split; [done|]).
    + intros t res base loc [->|[->|[]%elem_of_nil]%elem_of_cons]%elem_of_cons; [done|].
      intros [= <-]. apply moved_to_b_locates.
    + intros t res base loc [->|[]%elem_of_nil]%elem_of_cons. by intros [= <-].
  - exists hs, e. split; [exact Hr|]. apply Hc.
    assert (match chain with Some (hs, _) => bool_decide (Z.of_nat (offers (jar_after [] hs)) < u64_max)%Z
                         | None => false end = true) as Hn by by vm_compute.
    unfold chain in Hn. rewrite Hr in Hn. by apply bool_decide_eq_true in Hn.
Defined.
End BrowseExamples.
