(* ===== verification/Io.v ===== *)
(** * Streams

    The streams a connection is made of and what they forward: [Conn],
    [TlsConn] and [MaybeHttpsStream] ([src/conn.rs], [src/tls/conn.rs]), the
    wrapper that logs ([src/conn/verbose.rs]), the streams of compio
    ([src/conn/net/io.rs], [src/rt/compio/io.rs]) and the information on TLS
    ([src/conn/tls_info.rs]).  Sockets and the streams of the TLS library are
    parameters. *)

From S2P Require Import Prelude Http Errors Net Ext Matcher HttpClient.

(** ** Asynchronous streams

    [tokio::io::ReadBuf]: the bytes that are filled, and room for more. *)
Record ReadBuf := {
  rb_filled : str;
  rb_capacity : nat;
}.
Definition rb_remaining (buf : ReadBuf) : nat := rb_capacity buf - length (rb_filled buf).
Definition rb_fill (data : str) (buf : ReadBuf) : ReadBuf :=
  {| rb_filled := rb_filled buf ++ data; rb_capacity := rb_capacity buf |}.

Abbreviation Io A := (poll (result A BoxError)).

(** [AsyncRead] and [AsyncWrite]; [None] is a panic. *)
Class AsyncIo (S : Type) := {
  poll_read : S → ReadBuf → option (Io unit * ReadBuf * S);
  poll_write : S → str → option (Io nat * S);
  poll_write_vectored : S → list str → option (Io nat * S);
  is_write_vectored : S → bool;
  poll_flush : S → option (Io unit * S);
  poll_shutdown : S → option (Io unit * S);
}.

(** What the traits document: a read that is done fills the free room of the
    buffer, any other leaves it; no more is written than was given. *)
Class AsyncIoLaws (S : Type) `{!AsyncIo S} := {
  read_fills (s : S) buf r buf' s' :
    poll_read s buf = Some (r, buf', s') →
    ∃ data, buf' = rb_fill data buf ∧ length data ≤ rb_remaining buf ∧ (r ≠ Ready (Ok tt) → data = []);
  write_bounded (s : S) buf n s' : poll_write s buf = Some (Ready (Ok n), s') → n ≤ length buf;
  vectored_bounded (s : S) bufs n s' :
    poll_write_vectored s bufs = Some (Ready (Ok n), s') → n ≤ length (mjoin bufs);
}.

(** The default of [poll_write_vectored]: the first buffer that is not empty. *)
Definition default_write_vectored {S} (write : S → str → option (Io nat * S)) (s : S) (bufs : list str) :
    option (Io nat * S) :=
  write s (match list_find (λ b, b ≠ []) bufs with Some (_, b) => b | None => [] end).

(** *** Runs *)
Inductive IoOp :=
| OpRead (buf : ReadBuf)
| OpWrite (buf : str)
| OpVectored (bufs : list str)
| OpFlush
| OpShutdown.
Inductive Answer :=
| ARead (r : Io unit) (buf : ReadBuf)
| AWrite (r : Io nat)
| ADone (r : Io unit).

Section runs.
Context `{AsyncIo T}.

Definition io_step (s : T) (op : IoOp) : option (Answer * T) :=
  match op with
  | OpRead buf => '(r, buf, s) ← poll_read s buf; Some (ARead r buf, s)
  | OpWrite buf => '(r, s) ← poll_write s buf; Some (AWrite r, s)
  | OpVectored bufs => '(r, s) ← poll_write_vectored s bufs; Some (AWrite r, s)
  | OpFlush => '(r, s) ← poll_flush s; Some (ADone r, s)
  | OpShutdown => '(r, s) ← poll_shutdown s; Some (ADone r, s)
  end.
Fixpoint io_run (s : T) (ops : list IoOp) : option (list Answer * T) :=
  match ops with
  | [] => Some ([], s)
  | op :: ops => '(a, s) ← io_step s op; '(l, s) ← io_run s ops; Some (a :: l, s)
  end.
End runs.

(** *** Two kinds of streams

    A value that is one or the other, as [MaybeHttpsStream] and a boxed stream
    are. *)
Definition lift_l {A T U} (r : option (A * T)) : option (A * (T + U)) := prod_map id inl <$> r.
Definition lift_r {A T U} (r : option (A * U)) : option (A * (T + U)) := prod_map id inr <$> r.
#[export] Instance sum_AsyncIo `{AsyncIo T, AsyncIo U} : AsyncIo (T + U) := {|
  poll_read s buf := match s with inl s => lift_l (poll_read s buf) | inr s => lift_r (poll_read s buf) end;
  poll_write s buf := match s with inl s => lift_l (poll_write s buf) | inr s => lift_r (poll_write s buf) end;
  poll_write_vectored s bufs :=
    match s with
    | inl s => lift_l (poll_write_vectored s bufs)
    | inr s => lift_r (poll_write_vectored s bufs)
    end;
  is_write_vectored s := match s with inl s => is_write_vectored s | inr s => is_write_vectored s end;
  poll_flush s := match s with inl s => lift_l (poll_flush s) | inr s => lift_r (poll_flush s) end;
  poll_shutdown s := match s with inl s => lift_l (poll_shutdown s) | inr s => lift_r (poll_shutdown s) end;
|}.

(** ** Logging *)

(** [Debug] of [Escape]. *)
Definition debug_bytes (b : str) : str := ["b"%char; chr 34] ++ escape b ++ [chr 34].

(** [Debug] of [Vectored]; [None] is the panic of a slice that is too long. *)
Fixpoint vectored_fmt (bufs : list str) (left : nat) : option str :=
  match bufs with
  | [] => Some []
  | buf :: bufs =>
    if decide (left = 0) then Some []
    else
      let n := left `min` length buf in
      rest ← vectored_fmt bufs (left - n);
      Some (debug_bytes (take n buf) ++ rest)
  end.

(** The bytes [&buf[..n]]. *)
Definition slice_to (n : nat) (buf : str) : option str :=
  if decide (length buf < n) then None else Some (take n buf).

Inductive LogLine :=
| LogRead (text : str)
| LogWrite (text : str)
| LogVectored (text : str).

(** [Wrapper], with the lines it has written. *)
Record Wrapper (T : Type) := {
  wr_id : Z;
  wr_inner : T;
  wr_log : list LogLine;
}.
Arguments wr_id {T}.
Arguments wr_inner {T}.
Arguments wr_log {T}.

Section wrapper.
Context `{AsyncIo T}.

Definition wrapped (self : Wrapper T) (lines : list LogLine) (inner : T) : Wrapper T :=
  {| wr_id := wr_id self; wr_inner := inner; wr_log := wr_log self ++ lines |}.

Definition wrapper_poll_read (self : Wrapper T) (buf : ReadBuf) : option (Io unit * ReadBuf * Wrapper T) :=
  '(r, buf, inner) ← poll_read (wr_inner self) buf;
  match r with
  | Ready (Ok tt) => Some (Ready (Ok tt), buf, wrapped self [LogRead (debug_bytes (rb_filled buf))] inner)
  | Ready (Err e) => Some (Ready (Err e), buf, wrapped self [] inner)
  | Pending => Some (Pending, buf, wrapped self [] inner)
  end.
Definition wrapper_poll_write (self : Wrapper T) (buf : str) : option (Io nat * Wrapper T) :=
  '(r, inner) ← poll_write (wr_inner self) buf;
  match r with
  | Ready (Ok n) =>
    written ← slice_to n buf;
    Some (Ready (Ok n), wrapped self [LogWrite (debug_bytes written)] inner)
  | Ready (Err e) => Some (Ready (Err e), wrapped self [] inner)
  | Pending => Some (Pending, wrapped self [] inner)
  end.
Definition wrapper_poll_write_vectored (self : Wrapper T) (bufs : list str) : option (Io nat * Wrapper T) :=
  '(r, inner) ← poll_write_vectored (wr_inner self) bufs;
  match r with
  | Ready (Ok nwritten) =>
    text ← vectored_fmt bufs nwritten;
    Some (Ready (Ok nwritten), wrapped self [LogVectored text] inner)
  | Ready (Err e) => Some (Ready (Err e), wrapped self [] inner)
  | Pending => Some (Pending, wrapped self [] inner)
  end.

#[export] Instance Wrapper_AsyncIo : AsyncIo (Wrapper T) := {|
  poll_read := wrapper_poll_read;
  poll_write := wrapper_poll_write;
  poll_write_vectored := wrapper_poll_write_vectored;
  is_write_vectored self := is_write_vectored (wr_inner self);
  poll_flush self := prod_map id (wrapped self []) <$> poll_flush (wr_inner self);
  poll_shutdown self := prod_map id (wrapped self []) <$> poll_shutdown (wr_inner self);
|}.

(** [Verbose::wrap]. *)
Definition verbose_wrap (verbose : bool) (id : Z) (conn : T) : Wrapper T + T :=
  if verbose then inl {| wr_id := id; wr_inner := conn; wr_log := [] |} else inr conn.
Definition unwrap (conn : Wrapper T + T) : T :=
  match conn with inl w => wr_inner w | inr c => c end.
End wrapper.

(** ** Connections *)

(** [TlsInfo], with the certificates as DER. *)
Record TlsInfo := {
  peer_certificate : option str;
  peer_certificate_chain : option (list str);
}.

(** [Connection] and [TlsInfoFactory]; [V] are the values a connection adds to
    the extensions of a response. *)
Class Connection {HM : HeaderMapLib} (V T : Type) := {
  connected : T → Connected (V:=V);
  tls_info : T → option TlsInfo;
}.
Arguments connected {HM V T _}.
Arguments tls_info {HM V T _}.

(** [SslStream]: the stream below it and what its handshake found. *)
Class SslStreamLib (T SslStream Cert : Type) := {
  get_ref : SslStream → T;
  selected_alpn_protocol : SslStream → option str;
  ssl_peer_certificate : SslStream → option Cert;
  ssl_peer_cert_chain : SslStream → option (list Cert);
  to_der : Cert → option str;
}.

Section connections.
Context `{HM : HeaderMapLib, NL : IpNetLib} {V T Sl Cert : Type} (tls_value : TlsInfo → V).
Context `{!AsyncIo T, !AsyncIo Sl, SL : !SslStreamLib T Sl Cert, CT : !Connection V T}.

Definition extract_tls_info (ssl : Sl) : TlsInfo :=
  {| peer_certificate := (ssl_peer_certificate ssl : option Cert) ≫= to_der;
     peer_certificate_chain :=
       (λ chain : list Cert, omap to_der chain) <$> (ssl_peer_cert_chain ssl : option (list Cert)) |}.

(** [TlsConn] forwards to its stream and adds what ALPN chose. *)
Record TlsConn := { tc_stream : Sl }.
Definition with_tls {A} (r : option (A * Sl)) : option (A * TlsConn) := prod_map id Build_TlsConn <$> r.
#[export] Instance TlsConn_AsyncIo : AsyncIo TlsConn := {|
  poll_read self buf := with_tls (poll_read (tc_stream self) buf);
  poll_write self buf := with_tls (poll_write (tc_stream self) buf);
  poll_write_vectored self bufs := with_tls (poll_write_vectored (tc_stream self) bufs);
  is_write_vectored self := is_write_vectored (tc_stream self);
  poll_flush self := with_tls (poll_flush (tc_stream self));
  poll_shutdown self := with_tls (poll_shutdown (tc_stream self));
|}.
#[export] Instance TlsConn_Connection : Connection V TlsConn := {|
  connected self :=
    TlsConn_connected (connected (get_ref (tc_stream self))) (selected_alpn_protocol (tc_stream self));
  tls_info self := Some (extract_tls_info (tc_stream self));
|}.

(** [MaybeHttpsStream], which does not look at ALPN. *)
Definition MaybeHttps_connected (io : T + Sl) : Connected (V:=V) :=
  match io with inl s => connected s | inr s => connected (get_ref s) end.
Definition MaybeHttps_tls_info (io : T + Sl) : option TlsInfo :=
  match io with inl _ => None | inr s => Some (extract_tls_info s) end.

#[export] Instance Wrapper_Connection {U} `{!Connection V U} : Connection V (Wrapper U) := {|
  connected self := connected (wr_inner self);
  tls_info self := tls_info (wr_inner self);
|}.

#[export] Instance sum_Connection {U U'} `{!Connection V U, !Connection V U'} : Connection V (U + U') := {|
  connected s := match s with inl s => connected s | inr s => connected s end;
  tls_info s := match s with inl s => tls_info s | inr s => tls_info s end;
|}.

(** [Conn] over a boxed stream [U]. *)
Record ConnIo (U : Type) := {
  ci_tls_info : bool;
  ci_proxy : option Intercept;
  ci_stream : U;
}.
Arguments ci_tls_info {U}.
Arguments ci_proxy {U}.
Arguments ci_stream {U}.
Definition with_stream {A U} (self : ConnIo U) (r : option (A * U)) : option (A * ConnIo U) :=
  prod_map id (Build_ConnIo U (ci_tls_info self) (ci_proxy self)) <$> r.
#[export] Instance Conn_AsyncIo `{!AsyncIo U} : AsyncIo (ConnIo U) := {|
  poll_read self buf := with_stream self (poll_read (ci_stream self) buf);
  poll_write self buf := with_stream self (poll_write (ci_stream self) buf);
  poll_write_vectored self bufs := with_stream self (poll_write_vectored (ci_stream self) bufs);
  is_write_vectored self := is_write_vectored (ci_stream self);
  poll_flush self := with_stream self (poll_flush (ci_stream self));
  poll_shutdown self := with_stream self (poll_shutdown (ci_stream self));
|}.
Definition conn_connected `{!Connection V U} (self : ConnIo U) : Connected (V:=V) :=
  Conn_connected (connected (ci_stream self)) (ci_proxy self)
    (if ci_tls_info self then tls_value <$> tls_info (ci_stream self) else None).

(** [conn_from_stream] of the connector. *)
Definition Boxed : Type := (Wrapper T + T) + (Wrapper TlsConn + TlsConn).
Definition boxed_conn (verbose tls_info : bool) (id : Z) (proxy : option Intercept) (io : T + Sl) :
    ConnIo Boxed :=
  {| ci_stream := match io with
                  | inl s => inl (verbose_wrap verbose id s)
                  | inr s => inr (verbose_wrap verbose id {| tc_stream := s |})
                  end;
     ci_tls_info := tls_info;
     ci_proxy := proxy |}.
End connections.
Arguments ci_tls_info {_ _}.
Arguments ci_proxy {_ _}.
Arguments ci_stream {_ _}.

(** ** Streams of compio

    [compio::io::compat::AsyncStream] collects what is written in a buffer.
    [poll_read_uninit] gives the bytes it put at the front of the room it was
    offered. *)
Class CompioStream (A : Type) := {
  cs_read_uninit : A → nat → Io str * A;
  cs_write : A → str → Io nat * A;
  cs_flush : A → Io unit * A;
  cs_close : A → Io unit * A;
}.

Section compio.
Context `{CompioStream A}.

(** [CompioIO]. *)
Record CompioIO := { compio : A }.
Definition with_compio {R} (r : R * A) : option (R * CompioIO) := Some (r.1, {| compio := r.2 |}).
Definition compio_poll_read (self : CompioIO) (buf : ReadBuf) : option (Io unit * ReadBuf * CompioIO) :=
  match cs_read_uninit (compio self) (rb_remaining buf) with
  | (Ready (Ok data), a) => Some (Ready (Ok tt), rb_fill data buf, {| compio := a |})
  | (Ready (Err e), a) => Some (Ready (Err e), buf, {| compio := a |})
  | (Pending, a) => Some (Pending, buf, {| compio := a |})
  end.
#[export] Instance CompioIO_AsyncIo : AsyncIo CompioIO := {|
  poll_read := compio_poll_read;
  poll_write self buf := with_compio (cs_write (compio self) buf);
  poll_write_vectored := default_write_vectored (λ self buf, with_compio (cs_write (compio self) buf));
  is_write_vectored _ := false;
  poll_flush self := with_compio (cs_flush (compio self));
  poll_shutdown self := with_compio (cs_close (compio self));
|}.

(** [CompioConnection]; the addresses are [X]. *)
Record CompioConnection (X : Type) := {
  cc_inner : CompioIO;
  cc_peer_addr : option X;
  cc_local_addr : option X;
}.
Arguments cc_inner {X}.
Arguments cc_peer_addr {X}.
Arguments cc_local_addr {X}.
Context {X : Type}.
(** [UnixConnector::call] of [conn/net/uds/compio.rs], with what connecting the
    socket gives and [AsyncStream::new]; the URI is not looked at. *)
Definition unix_connection {St} (async_stream_new : St → A) (connected : result St BoxError) (uri : Uri) :
    result (CompioConnection X) BoxError :=
  io ←? connected ;
  Ok {| cc_inner := {| compio := async_stream_new io |}; cc_peer_addr := None; cc_local_addr := None |}.
Definition with_conn {R} (self : CompioConnection X) (r : option (R * CompioIO)) :
    option (R * CompioConnection X) :=
  prod_map id (λ i, {| cc_inner := i; cc_peer_addr := cc_peer_addr self;
                       cc_local_addr := cc_local_addr self |}) <$> r.
Definition compio_conn_poll_flush (self : CompioConnection X) : option (Io unit * CompioConnection X) :=
  with_conn self (poll_flush (cc_inner self)).
Definition compio_conn_poll_read (self : CompioConnection X) (buf : ReadBuf) :
    option (Io unit * ReadBuf * CompioConnection X) :=
  '(r, self) ← compio_conn_poll_flush self;
  match r with
  | Pending => Some (Pending, buf, self)
  | Ready (Err e) => Some (Ready (Err e), buf, self)
  | Ready (Ok _) => with_conn self (poll_read (cc_inner self) buf)
  end.
Definition compio_conn_poll_write (self : CompioConnection X) (buf : str) :
    option (Io nat * CompioConnection X) := with_conn self (poll_write (cc_inner self) buf).
#[export] Instance CompioConnection_AsyncIo : AsyncIo (CompioConnection X) := {|
  poll_read := compio_conn_poll_read;
  poll_write := compio_conn_poll_write;
  poll_write_vectored := default_write_vectored compio_conn_poll_write;
  is_write_vectored _ := false;
  poll_flush := compio_conn_poll_flush;
  poll_shutdown self := with_conn self (poll_shutdown (cc_inner self));
|}.
End compio.
Arguments CompioIO A : clear implicits.
Arguments CompioConnection A X : clear implicits.
Arguments compio {A}.
Arguments cc_inner {A X}.
Arguments cc_peer_addr {A X}.
Arguments cc_local_addr {A X}.

(** What a stream has given to the peer and what it still holds back: nothing
    is lost unless an operation fails, a flush that is done leaves nothing, and
    a read does not touch what was written. *)
Class CompioLaws (A : Type) `{!CompioStream A} := {
  cs_sent : A → str;
  cs_buffered : A → str;
  cs_read_bounded (a : A) n data a' : cs_read_uninit a n = (Ready (Ok data), a') → length data ≤ n;
  cs_read_apart (a : A) n r a' :
    cs_read_uninit a n = (r, a') → cs_sent a' = cs_sent a ∧ cs_buffered a' = cs_buffered a;
  cs_write_buffers (a : A) buf n a' :
    cs_write a buf = (Ready (Ok n), a') →
    n ≤ length buf ∧ cs_sent a' ++ cs_buffered a' = cs_sent a ++ cs_buffered a ++ take n buf;
  cs_write_pending (a : A) buf a' :
    cs_write a buf = (Pending, a') → cs_sent a' ++ cs_buffered a' = cs_sent a ++ cs_buffered a;
  cs_flush_keeps (a : A) r a' :
    cs_flush a = (r, a') → (∀ e, r ≠ Ready (Err e)) →
    cs_sent a' ++ cs_buffered a' = cs_sent a ++ cs_buffered a;
  cs_flush_sends (a a' : A) : cs_flush a = (Ready (Ok tt), a') → cs_buffered a' = [];
  cs_close_keeps (a : A) r a' :
    cs_close a = (r, a') → (∀ e, r ≠ Ready (Err e)) →
    cs_sent a' ++ cs_buffered a' = cs_sent a ++ cs_buffered a;
}.

(** ** Transparency *)

(** A stream that forwards to another answers as the other does. *)
Definition forwards `{!AsyncIo U, !AsyncIo T} (f : U → T) : Prop :=
  ∀ u op, prod_map id f <$> io_step u op = io_step (f u) op.

Lemma forwards_run `{!AsyncIo U, !AsyncIo T} (f : U → T) u ops :
  forwards f → prod_map id f <$> io_run u ops = io_run (f u) ops.
Proof.
  intros Hf. revert u. induction ops as [|op ops IH]; intros u; [done|]. simpl.
  rewrite <- (Hf u op). destruct (io_step u op) as [[a u']|]; [|done]. simpl.
  rewrite <- (IH u'). by destruct (io_run u' ops) as [[]|].
Qed.

Lemma forwards_compose `{!AsyncIo U, !AsyncIo T, !AsyncIo W} (f : U → T) (g : T → W) :
  forwards f → forwards g → forwards (g ∘ f).
Proof.
  intros Hf Hg u op. rewrite <- (Hg (f u)), <- (Hf u op).
  by destruct (io_step u op) as [[]|].
Qed.

Lemma sum_step_l `{!AsyncIo U, !AsyncIo U'} (u : U) op :
  io_step (inl u : U + U') op = prod_map id inl <$> io_step u op.
Proof.
  destruct op; simpl; unfold lift_l; match goal with |- context [fmap _ ?m] => destruct m as [[x ?]|] end;
    try destruct x; done.
Qed.
Lemma sum_step_r `{!AsyncIo U, !AsyncIo U'} (u : U') op :
  io_step (inr u : U + U') op = prod_map id inr <$> io_step u op.
Proof.
  destruct op; simpl; unfold lift_r; match goal with |- context [fmap _ ?m] => destruct m as [[x ?]|] end;
    try destruct x; done.
Qed.

Lemma forwards_sum `{!AsyncIo U, !AsyncIo U', !AsyncIo T} (f : U → T) (g : U' → T) :
  forwards f → forwards g → forwards (λ s : U + U', match s with inl s => f s | inr s => g s end).
Proof.
  intros Hf Hg [u|u] op; [rewrite sum_step_l, <- (Hf u op)|rewrite sum_step_r, <- (Hg u op)];
    by destruct (io_step u op) as [[]|].
Qed.

Lemma forwards_sum_map `{!AsyncIo U, !AsyncIo U', !AsyncIo T, !AsyncIo T'} (f : U → T) (g : U' → T') :
  forwards f → forwards g → forwards (sum_map f g : U + U' → T + T').
Proof.
  intros Hf Hg [u|u] op; simpl;
    [rewrite !sum_step_l, <- (Hf u op)|rewrite !sum_step_r, <- (Hg u op)];
    by destruct (io_step u op) as [[]|].
Qed.

Lemma vectored_fmt_pieces bufs n :
  n ≤ length (mjoin bufs) →
  ∃ pieces, vectored_fmt bufs n = Some (pieces ≫= debug_bytes) ∧ mjoin pieces = take n (mjoin bufs).
Proof.
  revert n. induction bufs as [|buf bufs IH]; intros n Hn; simpl in *.
  - exists []. by rewrite take_nil.
  - case_decide as H0; [exists []; by rewrite H0|]. rewrite length_app in Hn.
    destruct (IH (n - n `min` length buf)) as (pieces & -> & Hp); [lia|].
    exists (take (n `min` length buf) buf :: pieces). split; [done|]. simpl. rewrite Hp, take_app.
    f_equal; [|f_equal; lia]. destruct (decide (n ≤ length buf)); [f_equal; lia|].
    rewrite !take_ge by lia. done.
Qed.

Section wrapper_forwards.
Context `{!AsyncIo T, !AsyncIoLaws T}.

Lemma wrapper_forwards : forwards (wr_inner : Wrapper T → T).
Proof.
  intros w [buf|buf|bufs| |]; simpl;
    unfold wrapper_poll_read, wrapper_poll_write, wrapper_poll_write_vectored.
  - destruct (poll_read _ _) as [[[[[[]|e]|] b] s]|]; done.
  - destruct (poll_write _ _) as [[[[n|e]|] s]|] eqn:E; simpl; try done.
    apply write_bounded in E. unfold slice_to. rewrite decide_False by lia. done.
  - destruct (poll_write_vectored _ _) as [[[[n|e]|] s]|] eqn:E; simpl; try done.
    apply vectored_bounded in E. by destruct (vectored_fmt_pieces _ _ E) as (p & -> & _).
  - by destruct (poll_flush _) as [[]|].
  - by destruct (poll_shutdown _) as [[]|].
Qed.

Lemma unwrap_forwards : forwards (unwrap : Wrapper T + T → T).
Proof.
  refine (forwards_sum (wr_inner : Wrapper T → T) (λ c : T, c) wrapper_forwards _).
  intros u op. by destruct (io_step u op) as [[]|].
Qed.

(** The line an operation adds to the log. *)
Definition logs (op : IoOp) (a : Answer) (lines : list LogLine) : Prop :=
  match op, a with
  | OpRead _, ARead (Ready (Ok _)) buf => lines = [LogRead (debug_bytes (rb_filled buf))]
  | OpWrite buf, AWrite (Ready (Ok n)) => lines = [LogWrite (debug_bytes (take n buf))]
  | OpVectored bufs, AWrite (Ready (Ok n)) =>
    ∃ pieces, lines = [LogVectored (pieces ≫= debug_bytes)] ∧ mjoin pieces = take n (mjoin bufs)
  | _, _ => lines = []
  end.

Lemma wrapper_step_logs (w w' : Wrapper T) op a :
  io_step w op = Some (a, w') → ∃ lines, wr_log w' = wr_log w ++ lines ∧ logs op a lines.
Proof.
  destruct op as [buf|buf|bufs| |]; simpl;
    unfold wrapper_poll_read, wrapper_poll_write, wrapper_poll_write_vectored.
  - destruct (poll_read _ _) as [[[[[[]|e]|] b] s]|]; simpl; intros; simplify_eq/=; eauto.
  - destruct (poll_write _ _) as [[[[n|e]|] s]|] eqn:E; simpl; intros; simplify_eq/=; eauto.
    apply write_bounded in E. unfold slice_to in *. rewrite decide_False in * by lia.
    simplify_eq/=; eauto.
  - destruct (poll_write_vectored _ _) as [[[[n|e]|] s]|] eqn:E; simpl; intros Hs; simplify_eq/=; eauto.
    apply vectored_bounded in E. destruct (vectored_fmt_pieces _ _ E) as (p & Hp & Hj).
    rewrite Hp in Hs. simplify_eq/=. eauto.
  - destruct (poll_flush _) as [[]|]; intros; simplify_eq/=; eauto.
  - destruct (poll_shutdown _) as [[]|]; intros; simplify_eq/=; eauto.
Qed.
End wrapper_forwards.

Section transparency.
Context `{HM : HeaderMapLib, NL : IpNetLib} {V T Sl Cert : Type} (tls_value : TlsInfo → V).
Context `{!AsyncIo T, !AsyncIo Sl, SL : !SslStreamLib T Sl Cert, CT : !Connection V T}.
Context `{LT : !AsyncIoLaws T, LS : !AsyncIoLaws Sl}.

Lemma tls_forwards : forwards (tc_stream : TlsConn (Sl:=Sl) → Sl).
Proof.
  intros [s] [buf|buf|bufs| |]; simpl; unfold with_tls;
    [destruct (poll_read s buf) as [[[]]|]|destruct (poll_write s buf) as [[]|]
    |destruct (poll_write_vectored s bufs) as [[]|]|destruct (poll_flush s) as [[]|]
    |destruct (poll_shutdown s) as [[]|]]; done.
Qed.

Lemma tls_laws : AsyncIoLaws (TlsConn (Sl:=Sl)).
Proof.
  split; intros [s]; simpl; unfold with_tls.
  - intros buf r buf' s'. destruct (poll_read s buf) as [[[]]|] eqn:E; [|done].
    intros; simplify_eq/=. by apply read_fills in E.
  - intros buf n s'. destruct (poll_write s buf) as [[]|] eqn:E; [|done].
    intros; simplify_eq/=. by apply write_bounded in E.
  - intros bufs n s'. destruct (poll_write_vectored s bufs) as [[]|] eqn:E; [|done].
    intros; simplify_eq/=. by apply vectored_bounded in E.
Qed.

Lemma conn_forwards `{!AsyncIo U} : forwards (ci_stream : ConnIo U → U).
Proof.
  intros c [buf|buf|bufs| |]; simpl; unfold with_stream;
    [destruct (poll_read _ buf) as [[[]]|]|destruct (poll_write _ buf) as [[]|]
    |destruct (poll_write_vectored _ bufs) as [[]|]|destruct (poll_flush _) as [[]|]
    |destruct (poll_shutdown _) as [[]|]]; done.
Qed.

(** The stream a connection was made from, and what has been logged. *)
Definition raw (c : ConnIo (Boxed (T:=T) (Sl:=Sl))) : T + Sl :=
  sum_map unwrap (tc_stream ∘ unwrap) (ci_stream c).
Definition logged (c : ConnIo (Boxed (T:=T) (Sl:=Sl))) : option (list LogLine) :=
  match ci_stream c with
  | inl (inl w) => Some (wr_log w)
  | inr (inl w) => Some (wr_log w)
  | _ => None
  end.

Lemma raw_forwards : forwards raw.
Proof.
  pose proof tls_laws. refine (forwards_compose ci_stream _ conn_forwards _).
  apply forwards_sum_map; [apply unwrap_forwards|].
  refine (forwards_compose unwrap tc_stream unwrap_forwards tls_forwards).
Qed.

Lemma logged_step c c' op a :
  io_step c op = Some (a, c') →
  match logged c with
  | Some l => ∃ lines, logged c' = Some (l ++ lines) ∧ logs op a lines
  | None => logged c' = None
  end.
Proof.
  intros Hs. pose proof tls_laws as HL.
  assert (∃ s', io_step (ci_stream c) op = Some (a, s') ∧ ci_stream c' = s') as (s' & Hc & Hs').
  { pose proof (conn_forwards c op) as Hf. rewrite Hs in Hf. simpl in Hf. eauto. }
  unfold logged. rewrite Hs'. destruct (ci_stream c) as [[w|s]|[w|s]];
    unfold Boxed in Hc; repeat first [rewrite sum_step_l in Hc|rewrite sum_step_r in Hc];
    apply fmap_Some in Hc as ([? x] & Hc & [= <- ->]); simpl;
    apply fmap_Some in Hc as ([? y] & Hc & [= -> ->]); simpl; try done;
    destruct (wrapper_step_logs _ _ _ _ Hc) as (lines & Hl & ?); exists lines; by rewrite Hl.
Qed.

Lemma logged_run c c' ops answers :
  io_run c ops = Some (answers, c') →
  match logged c with
  | Some l => ∃ lines, Forall3 logs ops answers lines ∧ logged c' = Some (l ++ mjoin lines)
  | None => logged c' = None
  end.
Proof.
  revert c answers. induction ops as [|op ops IH]; intros c answers Hr; simpl in Hr.
  - simplify_eq. destruct (logged c'); [|done]. exists []. split; [constructor|]. by rewrite app_nil_r.
  - destruct (io_step c op) as [[a c1]|] eqn:Hs; [|done]. simpl in Hr.
    destruct (io_run c1 ops) as [[l c2]|] eqn:Hr'; simplify_eq/=.
    apply logged_step in Hs. apply IH in Hr'. destruct (logged c) as [l0|]; [|by rewrite Hs in Hr'].
    destruct Hs as (line & Hl & ?). rewrite Hl in Hr'. destruct Hr' as (lines & ? & ->).
    exists (line :: lines). split; [by constructor|]. simpl. by rewrite app_assoc.
Qed.

End transparency.

(** ** Reading from a buffered stream *)

(** The bytes a stream has accepted, and failed operations. *)
Definition accepted1 (op : IoOp) (a : Answer) : str :=
  match op, a with
  | OpWrite buf, AWrite (Ready (Ok n)) => take n buf
  | OpVectored bufs, AWrite (Ready (Ok n)) => take n (mjoin bufs)
  | _, _ => []
  end.
Definition failed (a : Answer) : bool :=
  match a with
  | ARead (Ready (Err _)) _ | AWrite (Ready (Err _)) | ADone (Ready (Err _)) => true
  | _ => false
  end.

Section buffered.
Context `{!CompioStream A, !CompioLaws A} {X : Type}.
Implicit Types (c : CompioConnection A X).

Definition sent c : str := cs_sent (compio (cc_inner c)).
Definition buffered c : str := cs_buffered (compio (cc_inner c)).

Lemma first_buffer bufs n b :
  b = match list_find (λ b : str, b ≠ []) bufs with Some (_, b) => b | None => [] end →
  n ≤ length b → take n b = take n (mjoin bufs).
Proof.
  intros -> Hn. induction bufs as [|[|x b] bufs IH]; [done|..]; simpl in *.
  - destruct (list_find _ bufs) as [[]|]; simpl in *; by apply IH.
  - change (x :: b ++ mjoin bufs) with ((x :: b) ++ mjoin bufs). by rewrite take_app_le.
Qed.

Lemma write_step c c' buf r :
  compio_conn_poll_write c buf = Some (r, c') → (∀ e, r ≠ Ready (Err e)) →
  sent c' ++ buffered c' =
    sent c ++ buffered c ++ match r with Ready (Ok n) => take n buf | _ => [] end ∧
  match r with Ready (Ok n) => n ≤ length buf | _ => True end.
Proof.
  unfold compio_conn_poll_write, sent, buffered. simpl. unfold with_compio. simpl.
  intros [= <- <-] Hr. simpl. destruct (cs_write _ buf) as [[[n|e]|] a] eqn:E; simpl in *.
  - apply cs_write_buffers in E as [? ?]. done.
  - by destruct (Hr e).
  - apply cs_write_pending in E. by rewrite app_nil_r.
Qed.

Lemma flush_step c c' r :
  compio_conn_poll_flush c = Some (r, c') → (∀ e, r ≠ Ready (Err e)) →
  sent c' ++ buffered c' = sent c ++ buffered c ∧ (r = Ready (Ok tt) → buffered c' = []).
Proof.
  unfold compio_conn_poll_flush, sent, buffered. simpl. unfold with_compio. simpl.
  intros [= <- <-] Hr. simpl. destruct (cs_flush _) as [r a] eqn:E. simpl in *. split.
  - by eapply cs_flush_keeps.
  - intros ->. by eapply cs_flush_sends.
Qed.

Lemma read_step c c' buf r buf' :
  compio_conn_poll_read c buf = Some (r, buf', c') → (∀ e, r ≠ Ready (Err e)) →
  sent c' ++ buffered c' = sent c ++ buffered c ∧ (r = Ready (Ok tt) → buffered c' = []).
Proof.
  unfold compio_conn_poll_read.
  destruct (compio_conn_poll_flush c) as [[rf c1]|] eqn:Hf; [|done]. cbn [mbind option_bind].
  destruct rf as [[[]|e]|]; intros Hs Hr; [|simplify_eq; naive_solver|].
  - apply flush_step in Hf as [Hk Hb]; [|done]. rewrite <- Hk.
    assert (sent c' = sent c1 ∧ buffered c' = buffered c1) as [-> ->]; [|auto].
    unfold sent, buffered. simpl in Hs. unfold compio_poll_read in Hs.
    destruct (cs_read_uninit _ _) as [[[data|e]|] a] eqn:E; simplify_eq/=; by eapply cs_read_apart.
  - apply flush_step in Hf as [? _]; simplify_eq; naive_solver.
Qed.

Lemma compio_step c c' op a :
  io_step c op = Some (a, c') → failed a = false →
  sent c' ++ buffered c' = sent c ++ buffered c ++ accepted1 op a ∧
  (∀ buf, a = ARead (Ready (Ok tt)) buf → buffered c' = []).
Proof.
  destruct op as [buf|buf|bufs| |]; cbn [io_step poll_read poll_write poll_write_vectored poll_flush
    poll_shutdown CompioConnection_AsyncIo].
  - destruct (compio_conn_poll_read c buf) as [[[r b] c1]|] eqn:E; [|done]. intros [= <- <-] Hf.
    apply read_step in E as [-> ?]; [|by intros e ->]. split; [by rewrite app_nil_r|naive_solver].
  - destruct (compio_conn_poll_write c buf) as [[r c1]|] eqn:E; [|done]. intros [= <- <-] Hf.
    apply write_step in E as [-> _]; [|by intros e ->]. split; [|done]. by destruct r as [[]|].
  - unfold default_write_vectored. destruct (compio_conn_poll_write c _) as [[r c1]|] eqn:E; [|done].
    intros [= <- <-] Hf. apply write_step in E as [-> Hn]; [|by intros e ->]. split; [|done].
    destruct r as [[n|]|]; [|done..]. do 2 f_equal. by apply first_buffer.
  - destruct (compio_conn_poll_flush c) as [[r c1]|] eqn:E; [|done]. intros [= <- <-] Hf.
    apply flush_step in E as [-> _]; [|by intros e ->]. by rewrite app_nil_r.
  - simpl. unfold with_compio. simpl. intros [= <- <-] Hf. unfold sent, buffered. simpl.
    destruct (cs_close _) as [r a] eqn:E. simpl in *. rewrite app_nil_r.
    split; [|done]. eapply cs_close_keeps; [exact E|by intros e ->].
Qed.

Lemma rb_kept (r : Io unit) buf :
  ∃ data, buf = rb_fill data buf ∧ length data ≤ rb_remaining buf ∧ (r ≠ Ready (Ok tt) → data = []).
Proof. exists []. unfold rb_fill. rewrite app_nil_r. by destruct buf; split_and!; simpl; [|lia|]. Qed.

#[export] Instance CompioConnection_laws : AsyncIoLaws (CompioConnection A X).
Proof.
  split.
  - intros c buf r buf' c'. simpl. unfold compio_conn_poll_read.
    destruct (compio_conn_poll_flush c) as [[[[[]|e]|] c1]|]; cbn [mbind option_bind]; [|intros; simplify_eq..].
    + simpl. unfold compio_poll_read.
      destruct (cs_read_uninit _ _) as [[[data|e]|] a] eqn:E; intros; simplify_eq/=;
        [|by apply rb_kept..].
      exists data. split_and!; [done|by eapply cs_read_bounded|done].
    + by apply rb_kept.
    + by apply rb_kept.
  - intros c buf n c' Hw. by apply write_step in Hw as [_ ?].
  - intros c bufs n c' Hw. pose proof Hw as Hn. apply write_step in Hn as [_ Hn]; [|done].
    etrans; [exact Hn|]. clear. induction bufs as [|[|x b] bufs IH]; simpl; [done|..].
    + destruct (list_find _ bufs) as [[]|]; simpl in *; done.
    + rewrite length_app. lia.
Qed.

Definition accepted (ops : list IoOp) (answers : list Answer) : str := mjoin (zip_with accepted1 ops answers).

Lemma compio_run c c' ops answers :
  io_run c ops = Some (answers, c') → forallb (negb ∘ failed) answers = true →
  sent c' ++ buffered c' = sent c ++ buffered c ++ accepted ops answers ∧
  (∀ buf, last answers = Some (ARead (Ready (Ok tt)) buf) → buffered c' = []).
Proof.
  revert c answers. induction ops as [|op ops IH]; intros c answers Hr Hf; cbn [io_run] in Hr.
  - simplify_eq. simpl. by rewrite app_nil_r.
  - destruct (io_step c op) as [[a c1]|] eqn:Hs; [|done]. cbn [mbind option_bind] in Hr.
    destruct (io_run c1 ops) as [[l c2]|] eqn:Hr'; cbn [mbind option_bind] in Hr; simplify_eq.
    cbn [forallb] in Hf. apply andb_true_iff in Hf as [Ha%negb_true_iff Hl].
    destruct (compio_step _ _ _ _ Hs Ha) as [H1 H2]. destruct (IH _ _ Hr' Hl) as [H3 H4]. split.
    + rewrite H3. unfold accepted. simpl. rewrite !app_assoc. f_equal. by rewrite <- !app_assoc.
    + intros buf Hlast. rewrite last_cons in Hlast. destruct (last l) as [x|] eqn:El; [naive_solver|].
      apply last_None in El as ->. simplify_eq. destruct ops; simpl in Hr'; [simplify_eq; eauto|].
      destruct (io_step c1 i) as [[? ?]|]; [|done]. simpl in Hr'. by destruct (io_run _ ops) as [[]|].
Qed.

End buffered.

(** ** Examples *)
Module IoExamples.
(** A stream that has replies ready and takes at most [room] bytes at a time;
    a flush is done at the second attempt. *)
Record Peer := {
  input : str;
  output : str;
  held : str;
  room : nat;
  asked : bool;
}.
#[export] Instance Peer_compio : CompioStream Peer := {|
  cs_read_uninit p n :=
    (Ready (Ok (take n (input p))),
     {| input := drop n (input p); output := output p; held := held p; room := room p; asked := asked p |});
  cs_write p buf :=
    let n := length buf `min` room p in
    (Ready (Ok n),
     {| input := input p; output := output p; held := held p ++ take n buf; room := room p;
        asked := asked p |});
  cs_flush p :=
    if asked p then
      (Ready (Ok tt), {| input := input p; output := output p ++ held p; held := []; room := room p;
                         asked := false |})
    else (Pending, {| input := input p; output := output p; held := held p; room := room p; asked := true |});
  cs_close p := (Ready (Ok tt), p);
|}.
#[export] Program Instance Peer_laws : CompioLaws Peer := {| cs_sent := output; cs_buffered := held |}.
Next Obligation. intros p n data p' [= <- _]. rewrite length_take. lia. Qed.
Next Obligation. by intros p n r p' [= _ <-]. Qed.
Next Obligation. intros p buf n p' [= <- <-]. simpl. split; [lia|]. done. Qed.
Next Obligation. done. Qed.
Next Obligation. intros p r p' Hp _. unfold cs_flush in Hp. simpl in Hp. destruct (asked p); simplify_eq/=; by rewrite ?app_nil_r. Qed.
Next Obligation. intros p p' Hp. unfold cs_flush in Hp. simpl in Hp. destruct (asked p); by simplify_eq/=. Qed.
Next Obligation. by intros p r p' [= _ <-] _. Qed.

Definition peer : Peer := {| input := #"reply"; output := []; held := []; room := 4; asked := false |}.
Definition conn : CompioConnection Peer nat :=
  {| cc_inner := {| compio := peer |}; cc_peer_addr := Some 80; cc_local_addr := None |}.
Definition room10 : ReadBuf := {| rb_filled := []; rb_capacity := 10 |}.
Definition ops : list IoOp :=
  [OpWrite #"hello"; OpVectored [ []; #"o "; #"bye"]; OpRead room10; OpRead room10].
Definition ran := io_run conn ops.

(** A TLS stream over such a connection, told apart by its addresses. *)
#[export] Instance Ssl_lib : SslStreamLib (CompioConnection Peer nat) (CompioConnection Peer bool) str := {|
  get_ref s := {| cc_inner := cc_inner s; cc_peer_addr := None; cc_local_addr := None |};
  selected_alpn_protocol _ := Some #"h2";
  ssl_peer_certificate _ := Some #"DER";
  ssl_peer_cert_chain _ := None;
  to_der := Some;
|}.
#[export] Instance Tcp_Connection : Connection TlsInfo (CompioConnection Peer nat) := {|
  connected _ := Connected_new;
  tls_info _ := None;
|}.
Definition ssl : CompioConnection Peer bool :=
  {| cc_inner := {| compio := peer |}; cc_peer_addr := None; cc_local_addr := None |}.
Definition secure := boxed_conn (T:=CompioConnection Peer nat) true true 7 None (inr ssl).
Definition secure_ran := io_run secure ops.


End IoExamples.
