(* ===== verification/Acquire.v ===== *)
(** * Acquiring a connection

    [connection_for] and [connect_to] of [src/client/layer/client.rs] as tasks
    that run beside each other, with [src/client/layer/client/lazy.rs] and the
    handshakes of [PoolTx].  A task races a checkout of the pool against a
    connection attempt; the pool, its channels and its handles are those of
    [PoolSystem].

    One step of [acq_step] is one critical section of the pool, one answer of
    the outside (the connector, the handshake), or one drop, so every
    interleaving of the tasks is covered, with requests that are given up at any
    moment.  The handles of a task have its number. *)

From S2P Require Import Prelude Lru Http Errors Net Matcher Pool PoolSystem HttpClient.

(** ** Lazy futures *)
Section lazy.
Context {F R A : Type} (func : F → R) (fut_poll : R → poll A * R).

Inductive Lazy :=
| LazyInit (f : F)
| LazyFut (fut : R)
| LazyEmpty.

Definition lazy_started (self : Lazy) : bool :=
  match self with LazyInit _ => false | LazyFut _ | LazyEmpty => true end.

(** [None] is the [unreachable!]. *)
Definition lazy_poll (self : Lazy) : option (poll A * Lazy) :=
  match self with
  | LazyFut fut => let '(r, fut) := fut_poll fut in Some (r, LazyFut fut)
  | LazyInit f => let '(r, fut) := fut_poll (func f) in Some (r, LazyFut fut)
  | LazyEmpty => None
  end.

(** The polls of a future, until the first that is ready. *)
Fixpoint polls {S} (step : S → option (poll A * S)) (n : nat) (s : S) : option (poll A * S) :=
  match n with
  | 0 => Some (Pending, s)
  | Datatypes.S n =>
    '(r, s) ← step s;
    match r with Ready a => Some (Ready a, s) | Pending => polls step n s end
  end.

(** A lazy future behaves as the future its closure makes, made at the first
    poll: it never reaches the panic, and it has started exactly when it has
    been polled. *)
Lemma lazy_polls n f :
  polls lazy_poll (S n) (LazyInit f) =
    prod_map id LazyFut <$> polls (λ r, Some (fut_poll r)) (S n) (func f).
Proof.
  assert (∀ n fut, polls lazy_poll n (LazyFut fut) =
    prod_map id LazyFut <$> polls (λ r, Some (fut_poll r)) n fut) as Hfut.
  { clear n. induction n as [|n IH]; intros fut; [done|]. simpl.
    destruct (fut_poll fut) as [[a|] fut']; simpl; [done|apply IH]. }
  simpl. destruct (fut_poll (func f)) as [[a|] fut]; simpl; [done|apply Hfut].
Qed.
End lazy.

(** ** Connection attempts *)

(** A descriptor names the key of its connections, and keys tell the versions
    of HTTP apart ([connection_id_spec] in [Group]). *)
Class Descriptor (D K : Type) := {
  d_id : D → K;
  d_version : D → option Version;
  d_id_version d d' : d_id d = d_id d' → d_version d = d_version d';
}.

(** What the HTTP engine says when a connection is to get ready. *)
Inductive Readiness := IsReady | IsClosed (e : Source) | IsFailed (e : Source).

Section connect.
Context `{HM : HeaderMapLib, NL : IpNetLib} {V H1 H2 D K : Type}.
Context `{Countable K, LL : !LruLib K, DK : !Descriptor D K}.

Abbreviation C := (Connected (V:=V)).
Abbreviation T := (PoolClient C H1 H2).
Abbreviation Err' := (Error C).
Implicit Types (d : D) (inner : option (PoolInner T K)) (ver : Ver).

Definition is_ver_h2 (v : Ver) : bool := match v with Http2 => true | Auto => false end.

(** [ver] of [connect_to]. *)
Definition connect_ver ver d : Ver :=
  match d_version d with Some HTTP_2 => Http2 | _ => ver end.

Lemma connect_ver_h2 ver d :
  is_ver_h2 (connect_ver ver d) = bool_decide (d_version d = Some HTTP_2) || is_ver_h2 ver.
Proof. unfold connect_ver. by destruct (d_version d) as [[]|]. Qed.

(** The closure of [connect_to]: the lock of the key, or the end. *)
Definition connect_start ver d inner : result (Connecting K) Err' * option (PoolInner T K) :=
  match Pool_connecting inner (d_id d) (connect_ver ver d) with
  | (Some lock, inner) => (Ok lock, inner)
  | (None, inner) => (Err (err Canceled), inner)
  end.

(** The connector has answered: the attempt with its lock and whether HTTP/2
    will be spoken. *)
Definition connect_io ver d (connecting : Connecting K) (io : result C Source) inner :
    result (Connecting K * C * bool) Err' * option (PoolInner T K) :=
  match io with
  | Err src => (Err (Error_new KConnect src), inner)
  | Ok connected =>
    let is_ver_h2 := is_ver_h2 (connect_ver ver d) in
    let is_h2 := is_ver_h2 || cn_h2 connected in
    if cn_h2 connected && negb is_ver_h2 then
      match alpn_h2 connecting inner with
      | (Some lock, inner) => (Ok (lock, connected, is_h2), inner)
      | (None, inner) => (Err (Error_new Canceled OtherSource), inner)
      end
    else (Ok (connecting, connected, is_h2), inner)
  end.

Definition Error_tx (src : Source) : Err' := Error_new SendRequest src.

(** [PoolTx::http1]; [reported] is the error of the connection task. *)
Definition PoolTx_http1 (handshake : result H1 Source) (ready : Readiness) (reported : option Source) :
    result (PoolTx H1 H2) Err' :=
  match handshake with
  | Err e => Err (Error_tx e)
  | Ok tx =>
    match ready with
    | IsReady => Ok (TxHttp1 tx)
    | IsClosed e => Err (Error_tx (default e reported))
    | IsFailed e => Err (Error_tx e)
    end
  end.
Definition PoolTx_http2 (handshake : result H2 Source) (ready : Readiness) : result (PoolTx H1 H2) Err' :=
  match handshake with
  | Err e => Err (Error_tx e)
  | Ok tx =>
    match ready with
    | IsReady => Ok (TxHttp2 tx)
    | IsClosed e | IsFailed e => Err (Error_tx e)
    end
  end.

(** The answers of the engine, and the handshake that is chosen. *)
Record Handshake := {
  hs_http1 : result H1 Source;
  hs_http2 : result H2 Source;
  hs_ready : Readiness;
  hs_reported : option Source;
}.
Definition connect_tx (is_h2 : bool) (h : Handshake) : result (PoolTx H1 H2) Err' :=
  if is_h2 then PoolTx_http2 (hs_http2 h) (hs_ready h)
  else PoolTx_http1 (hs_http1 h) (hs_ready h) (hs_reported h).

Lemma connect_tx_http2 is_h2 h t :
  connect_tx is_h2 h = Ok t → is_http2 {| conn_info := Connected_new (V:=V); tx := t |} = is_h2.
Proof.
  unfold connect_tx, PoolTx_http1, PoolTx_http2. destruct is_h2, h as [[] [] [] ?]; naive_solver.
Qed.

Lemma connect_tx_err is_h2 h e : connect_tx is_h2 h = Err e → Error_is_canceled e = false.
Proof.
  unfold connect_tx, PoolTx_http1, PoolTx_http2.
  assert (∀ src, Error_is_canceled (Error_tx src) = false) as Ht by by destruct src.
  destruct is_h2, h as [[] [] [] ?]; naive_solver.
Qed.

(** *** Using a connection *)

(** [PoolClient::poll_ready], [is_ready] and [Poolable::is_open], from what the
    senders of the engine answer. *)
Definition client_poll_ready (h1_ready : H1 → poll (option Source)) (self : T) :
    poll (result unit Err') :=
  match tx self with
  | TxHttp1 t =>
    match h1_ready t with
    | Ready None => Ready (Ok tt)
    | Ready (Some e) => Ready (Err (Error_new ChannelClosed e))
    | Pending => Pending
    end
  | TxHttp2 _ => Ready (Ok tt)
  end.
Definition client_is_ready (h1_ready : H1 → bool) (h2_ready : H2 → bool) (self : T) : bool :=
  match tx self with TxHttp1 t => h1_ready t | TxHttp2 t => h2_ready t end.
Definition client_is_open (poisoned : C → bool) (h1_ready : H1 → bool) (h2_ready : H2 → bool)
    (self : T) : bool :=
  negb (poisoned (conn_info self)) && client_is_ready h1_ready h2_ready self.

(** The end of [try_send_request]: the connection is dropped at once, or waited
    for in the background until it is ready again. *)
Definition drop_at_once (pool_enabled : bool) (h1_ready : H1 → bool) (h2_ready : H2 → bool) (self : T) :
    bool :=
  is_http2 self || negb pool_enabled || client_is_ready h1_ready h2_ready self.

(** ** Tasks *)

(** The future of [connect_to]: not polled yet, waiting for the connector,
    waiting for the handshake. *)
Inductive Connect :=
| CInit
| CConnector
| CHandshake (connected : C) (is_h2 : bool).

Definition started (fut : Connect) : bool := match fut with CInit => false | _ => true end.

(** [one_connection_for] of an enabled pool.  [Racing false] is about to poll
    the checkout, [Racing true] has found it pending and is polling the
    connection attempt.  [Awaiting] and [CheckingOut] wait for the other future
    after one was canceled.  [Ending r c f] has its result, [None] if the
    request was given up, and still has to drop its checkout if [c] and its
    attempt if [f]. *)
Inductive Stage :=
| Racing (polled : bool) (fut : Connect)
| Awaiting (fut : Connect)
| CheckingOut
| Ending (r : option (result unit (ClientConnectError (V:=V)))) (c f : bool).

Record Task := { t_desc : D; t_stage : Stage }.

(** The stage after one of the futures is done. *)
Definition pool_failed : ClientConnectError (V:=V) := Normal (Error_new KConnect OtherSource).
Definition after_checkout (fut : Connect) (r : result unit PoolError) : Stage :=
  match r with
  | Ok _ => Ending (Some (Ok tt)) false false
  | Err e => if is_canceled e then Awaiting fut
             else Ending (Some (Err pool_failed)) false (started fut)
  end.
Definition after_checking_out ver (r : result unit PoolError) : Stage :=
  Ending (Some (match r with
                | Ok _ => Ok tt
                | Err e => Err (if is_ver_h2 ver && is_canceled e then CheckoutIsClosed e
                                else pool_failed)
                end)) false false.
Definition after_connect (racing : bool) (r : result unit Err') : Stage :=
  match r with
  | Ok _ => Ending (Some (Ok tt)) racing false
  | Err e => if racing && Error_is_canceled e then CheckingOut
             else Ending (Some (Err (Normal e))) racing false
  end.

(** The attempt a stage polls, and whether it races with a checkout. *)
Definition polling (st : Stage) : option (bool * Connect) :=
  match st with
  | Racing true fut => Some (true, fut)
  | Awaiting fut => Some (false, fut)
  | _ => None
  end.
Definition with_fut (racing : bool) (fut : Connect) : Stage :=
  if racing then Racing true fut else Awaiting fut.

(** A request is given up. *)
Definition cancel (st : Stage) : Stage :=
  match st with
  | Racing _ fut => Ending None true (started fut)
  | Awaiting fut => Ending None false (started fut)
  | CheckingOut => Ending None true false
  | Ending r c f => st
  end.

(** [made] are the connections that have been made, with the descriptor the
    connector was called with. *)
Record Acq := {
  pool : Sys T K;
  tasks : gmap nat Task;
  made : list (T * D);
}.

Definition acq_init (p : PoolInner T K) : Acq :=
  {| pool := initial p; tasks := ∅; made := [] |}.

(** The state with another stage of a task, and with other parts of the pool. *)
Definition at_stage (s : Acq) (t : nat) d (st : Stage) : gmap nat Task :=
  <[t := {| t_desc := d; t_stage := st |}]> (tasks s).
Definition moved (s : Acq) (p : Sys T K) (ts : gmap nat Task) : Acq :=
  {| pool := p; tasks := ts; made := made s |}.

Variable cfg : ClientConfig.
Abbreviation ver := (cc_ver cfg).
(** The answers [is_open] can give. *)
Variable opens : (T → bool) → Prop.

Inductive acq_step (s : Acq) : Acq → Prop :=
(** A request asks for a connection. *)
| acq_spawn t d :
    tasks s !! t = None →
    acq_step s (moved s
      {| inner := inner (pool s); chans := chans (pool s);
         checkouts := <[t := {| co_key := d_id d; co_waiter := None |}]> (checkouts (pool s));
         connectings := connectings (pool s); pooleds := pooleds (pool s) |}
      (at_stage s t d (Racing false CInit)))
(** The loop of [connection_for]. *)
| acq_again t d e :
    tasks s !! t = Some {| t_desc := d;
                           t_stage := Ending (Some (Err (CheckoutIsClosed e))) false false |} →
    retry_canceled_requests cfg = true →
    acq_step s (moved s
      {| inner := inner (pool s); chans := chans (pool s);
         checkouts := <[t := {| co_key := d_id d; co_waiter := None |}]> (checkouts (pool s));
         connectings := connectings (pool s); pooleds := pooleds (pool s) |}
      (at_stage s t d (Racing false CInit)))
(** The checkout is polled and not ready. *)
| acq_poll_pending t d st st' co is_open fresh now co' w' :
    opens is_open →
    tasks s !! t = Some {| t_desc := d; t_stage := st |} →
    (∃ fut, st = Racing false fut ∧ st' = Racing true fut) ∨ st = CheckingOut ∧ st' = CheckingOut →
    checkouts (pool s) !! t = Some co → chans (pool s) !! fresh = None →
    Checkout_poll is_open (world (pool s)) co fresh now = (Pending, co', w') →
    acq_step s (moved s
      {| inner := w'.1; chans := w'.2; checkouts := <[t := co']> (checkouts (pool s));
         connectings := connectings (pool s); pooleds := pooleds (pool s) |}
      (at_stage s t d st'))
(** The checkout fails. *)
| acq_poll_err t d st st' co is_open fresh now co' w' e :
    opens is_open →
    tasks s !! t = Some {| t_desc := d; t_stage := st |} →
    (∃ fut, st = Racing false fut ∧ st' = after_checkout fut (Err e)) ∨
      st = CheckingOut ∧ st' = after_checking_out ver (Err e) →
    checkouts (pool s) !! t = Some co → chans (pool s) !! fresh = None →
    Checkout_poll is_open (world (pool s)) co fresh now = (Ready (Err e), co', w') →
    acq_step s (moved s
      {| inner := w'.1; chans := w'.2; checkouts := delete t (checkouts (pool s));
         connectings := connectings (pool s); pooleds := pooleds (pool s) |}
      (at_stage s t d st'))
(** The checkout gets a connection.  If the attempt has started it goes on in
    the background, as [t]; the request continues as [t']. *)
| acq_poll_ok t d st co is_open fresh now co' w' pl t' ts :
    opens is_open →
    tasks s !! t = Some {| t_desc := d; t_stage := st |} →
    (∃ fut, st = Racing false fut ∧ started fut = true ∧ tasks s !! t' = None ∧
       ts = <[t' := {| t_desc := d; t_stage := after_checkout fut (Ok tt) |}]>
              (at_stage s t d (Awaiting fut))) ∨
    (∃ fut, st = Racing false fut ∧ started fut = false ∧ t' = t ∧
       ts = at_stage s t d (after_checkout fut (Ok tt))) ∨
    st = CheckingOut ∧ t' = t ∧ ts = at_stage s t d (after_checking_out ver (Ok tt)) →
    checkouts (pool s) !! t = Some co → chans (pool s) !! fresh = None →
    Checkout_poll is_open (world (pool s)) co fresh now = (Ready (Ok pl), co', w') →
    acq_step s (moved s
      {| inner := w'.1; chans := w'.2; checkouts := delete t (checkouts (pool s));
         connectings := connectings (pool s); pooleds := <[t' := pl]> (pooleds (pool s)) |} ts)
(** The poll of the race ends with both futures pending. *)
| acq_yield t d fut :
    tasks s !! t = Some {| t_desc := d; t_stage := Racing true fut |} → started fut = true →
    acq_step s (moved s (pool s) (at_stage s t d (Racing false fut)))
(** The attempt starts, or finds the lock taken. *)
| acq_start t d st racing cn p' :
    tasks s !! t = Some {| t_desc := d; t_stage := st |} → polling st = Some (racing, CInit) →
    connect_start ver d (Some (inner (pool s))) = (Ok cn, Some p') →
    acq_step s (moved s
      {| inner := p'; chans := chans (pool s); checkouts := checkouts (pool s);
         connectings := <[t := cn]> (connectings (pool s)); pooleds := pooleds (pool s) |}
      (at_stage s t d (with_fut racing CConnector)))
| acq_locked t d st racing e p' :
    tasks s !! t = Some {| t_desc := d; t_stage := st |} → polling st = Some (racing, CInit) →
    connect_start ver d (Some (inner (pool s))) = (Err e, Some p') →
    acq_step s (moved s
      {| inner := p'; chans := chans (pool s); checkouts := checkouts (pool s);
         connectings := connectings (pool s); pooleds := pooleds (pool s) |}
      (at_stage s t d (after_connect racing (Err e))))
(** The connector answers. *)
| acq_io t d st racing cn io p' cn' connected is_h2 :
    tasks s !! t = Some {| t_desc := d; t_stage := st |} →
    polling st = Some (racing, CConnector) → connectings (pool s) !! t = Some cn →
    connect_io ver d cn io (Some (inner (pool s))) = (Ok (cn', connected, is_h2), Some p') →
    acq_step s (moved s
      {| inner := p'; chans := chans (pool s); checkouts := checkouts (pool s);
         connectings := <[t := cn']> (connectings (pool s)); pooleds := pooleds (pool s) |}
      (at_stage s t d (with_fut racing (CHandshake connected is_h2))))
| acq_io_err t d st racing cn io e p' :
    tasks s !! t = Some {| t_desc := d; t_stage := st |} →
    polling st = Some (racing, CConnector) → connectings (pool s) !! t = Some cn →
    connect_io ver d cn io (Some (inner (pool s))) = (Err e, Some p') →
    acq_step s (moved s
      {| inner := (drop_connecting (p', chans (pool s)) cn).1;
         chans := (drop_connecting (p', chans (pool s)) cn).2; checkouts := checkouts (pool s);
         connectings := delete t (connectings (pool s)); pooleds := pooleds (pool s) |}
      (at_stage s t d (after_connect racing (Err e))))
(** The handshake ends; a connection that was made is a new one. *)
| acq_handshake t d st racing connected is_h2 cn h x now pl w' :
    tasks s !! t = Some {| t_desc := d; t_stage := st |} →
    polling st = Some (racing, CHandshake connected is_h2) → connectings (pool s) !! t = Some cn →
    connect_tx is_h2 h = Ok x → {| conn_info := connected; tx := x |} ∉ places (pool s) →
    pooled (world (pool s)) cn {| conn_info := connected; tx := x |} now = Some (pl, w') →
    acq_step s
      {| pool := {| inner := w'.1; chans := w'.2; checkouts := checkouts (pool s);
                    connectings := delete t (connectings (pool s));
                    pooleds := <[t := pl]> (pooleds (pool s)) |};
         tasks := at_stage s t d (after_connect racing (Ok tt));
         made := made s ++ [({| conn_info := connected; tx := x |}, d)] |}
| acq_handshake_err t d st racing connected is_h2 cn h e :
    tasks s !! t = Some {| t_desc := d; t_stage := st |} →
    polling st = Some (racing, CHandshake connected is_h2) → connectings (pool s) !! t = Some cn →
    connect_tx is_h2 h = Err e →
    acq_step s (moved s
      {| inner := (drop_connecting (world (pool s)) cn).1;
         chans := (drop_connecting (world (pool s)) cn).2; checkouts := checkouts (pool s);
         connectings := delete t (connectings (pool s)); pooleds := pooleds (pool s) |}
      (at_stage s t d (after_connect racing (Err e))))
(** What is left is dropped. *)
| acq_drop_checkout t d r f co :
    tasks s !! t = Some {| t_desc := d; t_stage := Ending r true f |} →
    checkouts (pool s) !! t = Some co →
    acq_step s (moved s
      {| inner := inner (pool s);
         chans := match co_waiter co with Some rx => drop_rx rx (chans (pool s))
                                        | None => chans (pool s) end;
         checkouts := delete t (checkouts (pool s)); connectings := connectings (pool s);
         pooleds := pooleds (pool s) |}
      (at_stage s t d (Ending r false f)))
| acq_drop_connecting t d r c cn :
    tasks s !! t = Some {| t_desc := d; t_stage := Ending r c true |} →
    connectings (pool s) !! t = Some cn →
    acq_step s (moved s
      {| inner := (drop_connecting (world (pool s)) cn).1;
         chans := (drop_connecting (world (pool s)) cn).2; checkouts := checkouts (pool s);
         connectings := delete t (connectings (pool s)); pooleds := pooleds (pool s) |}
      (at_stage s t d (Ending r c false)))
| acq_cancel t d st :
    tasks s !! t = Some {| t_desc := d; t_stage := st |} →
    acq_step s (moved s (pool s) (at_stage s t d (cancel st)))
(** The request is over: the connection goes back to the pool. *)
| acq_release t d pl is_open now w' :
    opens is_open →
    tasks s !! t = Some {| t_desc := d; t_stage := Ending (Some (Ok tt)) false false |} →
    pooleds (pool s) !! t = Some pl → drop_pooled is_open (world (pool s)) pl now = Some w' →
    acq_step s (moved s
      {| inner := w'.1; chans := w'.2; checkouts := checkouts (pool s);
         connectings := connectings (pool s); pooleds := delete t (pooleds (pool s)) |}
      (delete t (tasks s)))
| acq_over t d r :
    tasks s !! t = Some {| t_desc := d; t_stage := Ending r false false |} → r ≠ Some (Ok tt) →
    acq_step s (moved s (pool s) (delete t (tasks s)))
(** The queue of a key is cleaned after a checkout was dropped; the idle task of
    the pool wakes up. *)
| acq_clean key :
    acq_step s (moved s
      {| inner := clean_waiters (is_closed (chans (pool s))) (inner (pool s)) key;
         chans := chans (pool s); checkouts := checkouts (pool s);
         connectings := connectings (pool s); pooleds := pooleds (pool s) |} (tasks s))
| acq_tick is_open now p' :
    opens is_open → clear_expired is_open (inner (pool s)) now = Some p' →
    acq_step s (moved s
      {| inner := p'; chans := chans (pool s); checkouts := checkouts (pool s);
         connectings := connectings (pool s); pooleds := pooleds (pool s) |} (tasks s)).

(** ** The invariant *)

(** What the handles of a task are, by its stage. *)
Definition fut_ok d (fut : Connect) (cn : option (Connecting K)) : Prop :=
  match fut with
  | CInit => cn = None
  | CConnector => ∃ c, cn = Some c ∧ cn_key c = d_id d ∧ cn_pool c = is_ver_h2 (connect_ver ver d)
  | CHandshake connected is_h2 =>
    ∃ c, cn = Some c ∧ cn_key c = d_id d ∧ cn_pool c = is_h2 ∧
         is_h2 = is_ver_h2 (connect_ver ver d) || cn_h2 connected
  end.
Definition co_ok d (polled : bool) (co : option (Checkout K)) : Prop :=
  ∃ c, co = Some c ∧ co_key c = d_id d ∧ (polled = true → is_Some (co_waiter c)).
Definition stage_ok d (st : Stage) (co : option (Checkout K)) (cn : option (Connecting K))
    (pl : option (Pooled T K)) : Prop :=
  match st with
  | Racing polled fut => co_ok d polled co ∧ fut_ok d fut cn ∧ pl = None
  | Awaiting fut => co = None ∧ fut_ok d fut cn ∧ pl = None
  | CheckingOut => co_ok d true co ∧ cn = None ∧ pl = None
  | Ending r c f =>
    (if c then co_ok d false co else co = None) ∧
    (if f then ∃ x, cn = Some x ∧ cn_key x = d_id d else cn = None) ∧
    match r with Some (Ok _) => ∃ x, pl = Some x ∧ pl_key x = d_id d | _ => pl = None end
  end.
Definition slot_ok (task : option Task) (co : option (Checkout K)) (cn : option (Connecting K))
    (pl : option (Pooled T K)) : Prop :=
  match task with
  | Some tk => stage_ok (t_desc tk) (t_stage tk) co cn pl
  | None => co = None ∧ cn = None ∧ pl = None
  end.

Definition made_for (l : list (T * D)) (v : T) (k : K) : Prop := ∃ d, (v, d) ∈ l ∧ d_id d = k.

Record acq_ok (s : Acq) : Prop := {
  ao_slot t : slot_ok (tasks s !! t) (checkouts (pool s) !! t) (connectings (pool s) !! t)
                (pooleds (pool s) !! t);
  ao_home : home_ok (made_for (made s)) (pool s);
  ao_lock : lock_ok (connecting (inner (pool s))) (connectings (pool s));
  ao_made v d : (v, d) ∈ made s →
    is_http2 v = is_ver_h2 (connect_ver ver d) || cn_h2 (conn_info v);
  ao_wait t d co w :
    tasks s !! t = Some {| t_desc := d; t_stage := CheckingOut |} →
    checkouts (pool s) !! t = Some co → co_waiter co = Some w → covered (pool s) co w;
}.

(** *** Polling a checkout *)
Lemma poll_pending is_open (w w' : World T K) co co' fresh now :
  Checkout_poll is_open w co fresh now = (Pending, co', w') →
  co_key co' = co_key co ∧ is_Some (co_waiter co').
Proof.
  unfold Checkout_poll, poll_waiter. destruct (co_waiter co) as [rx|] eqn:Hco.
  - destruct (poll_rx _ _) as [[]|]; [done..|]. intros [= <- _]. by rewrite Hco.
  - destruct (checkout _ _ _ _ _ _) as [[v|] p']; [done|]. intros [= <- _]. by eexists.
Qed.

Lemma poll_pending_same is_open (w w' : World T K) co co' fresh now :
  is_Some (co_waiter co) → Checkout_poll is_open w co fresh now = (Pending, co', w') →
  co' = co ∧ w' = w.
Proof.
  intros [rx Hrx]. unfold Checkout_poll, poll_waiter. rewrite Hrx.
  destruct (poll_rx _ _) as [[]|]; [done..|]. intros [= <- <-]. by destruct w.
Qed.

Lemma poll_ready is_open (w w' : World T K) co co' fresh now r :
  Checkout_poll is_open w co fresh now = (Ready r, co', w') →
  co_waiter co' = None ∧
  ∀ pl, r = Ok pl → pl_key pl = co_key co ∧ is_reused pl = true.
Proof.
  unfold Checkout_poll, poll_waiter. destruct (co_waiter co) as [rx|] eqn:Hco.
  - destruct (poll_rx _ _) as [[v|e]|]; [|by intros [= <- <- _]|done].
    intros [= <- <- _]. split; [done|]. intros pl. destruct (is_open v); [by intros [= <-]|done].
  - destruct (checkout _ _ _ _ _ _) as [[v|] p']; [|done]. intros [= <- <- _].
    split; [done|]. by intros pl [= <-].
Qed.

(** *** Steps of the pool *)
Section pool_steps.
Context (R : T → K → Prop).
Implicit Types s : Sys T K.

(** At most one step that is seen by others, and steps that are not. *)
Definition pool_run s s' : Prop :=
  ∃ s1, (s = s1 ∨ kstep R s s1) ∧ rtc (kstep R) s1 s' ∧ inner s1 = inner s' ∧ chans s1 = chans s'.

Lemma pool_run_refl s : pool_run s s.
Proof. exists s. auto using rtc_refl. Qed.
Lemma pool_run_once s s' : kstep R s s' → pool_run s s'.
Proof. exists s'. auto using rtc_refl. Qed.
Lemma pool_run_rtc s s' : pool_run s s' → rtc (kstep R) s s'.
Proof. intros (s1 & [->|Hs] & Hr & _); [done|]. by eapply rtc_l. Qed.

Lemma kstep_sub s s' :
  step s s' → (∀ j pl, pooleds s' !! j = Some pl → pooleds s !! j = Some pl) → kstep R s s'.
Proof. intros Hs Hsub. split; [done|]. intros j pl Hj Hj'%Hsub. congruence. Qed.

Lemma pool_spawn s t k :
  checkouts s !! t = None →
  kstep R s {| inner := inner s; chans := chans s;
               checkouts := <[t := {| co_key := k; co_waiter := None |}]> (checkouts s);
               connectings := connectings s; pooleds := pooleds s |}.
Proof. intros Ht. apply kstep_sub; [by apply step_checkout|done]. Qed.

Lemma pool_poll s t co is_open fresh now r co' w' j pls :
  checkouts s !! t = Some co → chans s !! fresh = None →
  Checkout_poll is_open (world s) co fresh now = (r, co', w') → pooleds s !! j = None →
  pls = match r with Ready (Ok pl) => <[j := pl]> (pooleds s) | _ => pooleds s end →
  kstep R s {| inner := w'.1; chans := w'.2; checkouts := <[t := co']> (checkouts s);
               connectings := connectings s; pooleds := pls |}.
Proof.
  intros Hco Hf Hp Hj ->. split; [by eapply step_poll|].
  intros j' pl Hj'. simpl. destruct r as [[pl'|]|]; try congruence.
  rewrite lookup_insert. case_decide; [|congruence]. intros [= <-].
  by destruct (poll_ready _ _ _ _ _ _ _ _ Hp) as [_ [_ ->]%(λ x, x pl' eq_refl)].
Qed.

(** A checkout that is done is dropped without a trace. *)
Lemma pool_poll_done s t co is_open fresh now r co' w' j pls :
  checkouts s !! t = Some co → chans s !! fresh = None →
  Checkout_poll is_open (world s) co fresh now = (Ready r, co', w') → pooleds s !! j = None →
  pls = match r with Ok pl => <[j := pl]> (pooleds s) | _ => pooleds s end →
  pool_run s {| inner := w'.1; chans := w'.2; checkouts := delete t (checkouts s);
                connectings := connectings s; pooleds := pls |}.
Proof.
  intros Hco Hf Hp Hj ->. destruct (poll_ready _ _ _ _ _ _ _ _ Hp) as [Hw _].
  eexists. split; [right; by eapply (pool_poll s t co is_open fresh now (Ready r) co' w' j)|].
  split; [apply rtc_once|done].
  match goal with |- kstep R ?s1 ?s2 => pose proof (step_drop_checkout s1 t co') as Hd end.
  simpl in Hd. rewrite Hw, delete_insert_eq in Hd.
  apply kstep_sub; [apply Hd, lookup_insert_eq|done].
Qed.

Lemma pool_drop_connecting s t cn :
  connectings s !! t = Some cn →
  kstep R s {| inner := (drop_connecting (world s) cn).1; chans := (drop_connecting (world s) cn).2;
               checkouts := checkouts s; connectings := delete t (connectings s);
               pooleds := pooleds s |}.
Proof. intros Ht. apply kstep_sub; [by apply step_drop_connecting|done]. Qed.
End pool_steps.

(** *** The parts of an attempt *)
Lemma lock_http2 (p : PoolInner T K) k r p' :
  Pool_connecting (Some p) k Http2 = (r, Some p') →
  match r with
  | Some cn => cn_key cn = k ∧ cn_pool cn = true
  | None => p' = p ∧ k ∈ connecting p
  end.
Proof. unfold Pool_connecting, lock_connecting. intros Hc. by case_decide; simplify_eq/=. Qed.

Lemma connect_start_spec d (p : PoolInner T K) r p' :
  connect_start ver d (Some p) = (r, Some p') →
  match r with
  | Ok cn => Pool_connecting (Some p) (d_id d) (connect_ver ver d) = (Some cn, Some p') ∧
             cn_key cn = d_id d ∧ cn_pool cn = is_ver_h2 (connect_ver ver d)
  | Err e => p' = p ∧ d_id d ∈ connecting p
  end.
Proof.
  unfold connect_start. destruct (connect_ver ver d) eqn:Hv.
  - simpl. by intros [= <- <-].
  - destruct (Pool_connecting _ _ _) as [[cn|] [p1|]] eqn:Hc; intros [= <- <-];
      by apply lock_http2 in Hc as Hs.
Qed.

Lemma connect_io_spec d cn io (p : PoolInner T K) r p' :
  cn_key cn = d_id d → cn_pool cn = is_ver_h2 (connect_ver ver d) →
  connect_io ver d cn io (Some p) = (r, Some p') →
  match r with
  | Ok (cn', connected, is_h2) =>
    cn_key cn' = d_id d ∧ cn_pool cn' = is_h2 ∧
    is_h2 = is_ver_h2 (connect_ver ver d) || cn_h2 connected ∧
    (p' = p ∧ cn' = cn ∨ cn_pool cn = false ∧ alpn_h2 cn (Some p) = (Some cn', Some p'))
  | Err e =>
    p' = p ∧
    (Error_is_canceled e = false ∨
     cn_pool cn = false ∧ alpn_h2 cn (Some p) = (None, Some p) ∧ d_id d ∈ connecting p)
  end.
Proof.
  intros Hk Hp. unfold connect_io, alpn_h2. rewrite <- Hp, Hk.
  destruct io as [connected|src]; [|intros [= <- <-]; split; [done|left; by destruct src]].
  destruct (cn_h2 connected) eqn:Hh, (cn_pool cn) eqn:Hcp; cbn [andb orb negb];
    try (intros [= <- <-]; split_and!; auto; fail).
  destruct (Pool_connecting _ _ _) as [[cn'|] [p1|]] eqn:Hc; intros [= <- <-];
    apply lock_http2 in Hc as Hs; destruct Hs as [Hs1 Hs2]; subst.
  - split_and!; auto.
  - split; [done|]. right. auto.
Qed.

Lemma pooled_spec (w w' : World T K) cn v now pl :
  pooled w cn v now = Some (pl, w') → pl_key pl = cn_key cn ∧ pl_value pl = v.
Proof.
  unfold pooled. rewrite reserve_spec. destruct (can_share v); [|by intros [= <- _]].
  destruct (w_put _ _ _ _); [by intros [= <- _]|done].
Qed.

Lemma polling_ok d st racing fut co cn pl :
  polling st = Some (racing, fut) → stage_ok d st co cn pl →
  (if racing then co_ok d true co else co = None) ∧ fut_ok d fut cn ∧ pl = None.
Proof. destruct st as [[]| | |]; naive_solver. Qed.

Lemma sys_eta (s : Sys T K) :
  {| inner := inner s; chans := chans s; checkouts := checkouts s; connectings := connectings s;
     pooleds := pooleds s |} = s.
Proof. by destruct s. Qed.

(** The steps, with what the invariant says about the task of the step. *)
Ltac acq_cases Hs Hok :=
  destruct Hs as
    [t d Ht|t d e Ht Hr|t d st st' co is_open fresh now co' w' Ho Ht Hst Hco Hf Hp
    |t d st st' co is_open fresh now co' w' e Ho Ht Hst Hco Hf Hp
    |t d st co is_open fresh now co' w' pl t' ts Ho Ht Hst Hco Hf Hp
    |t d fut Ht Hst|t d st racing cn p' Ht Hst Hc|t d st racing e p' Ht Hst Hc
    |t d st racing cn io p' cn' connected is_h2 Ht Hst Hcn Hio|t d st racing cn io e p' Ht Hst Hcn Hio
    |t d st racing connected is_h2 cn h x now pl w' Ht Hst Hcn Hx Hnew Hpl
    |t d st racing connected is_h2 cn h e Ht Hst Hcn Hx|t d r f co Ht Hco|t d r c cn Ht Hcn
    |t d st Ht|t d pl is_open now w' Ho Ht Hpl Hd|t d r Ht Hr|key|is_open now p' Ho Hc];
  try match goal with
      | Ht : tasks ?s !! ?t = _ |- _ =>
        let Hslot := fresh "Hslot" in
        pose proof (ao_slot s Hok t) as Hslot; rewrite Ht in Hslot; simpl in Hslot
      end.

(** Every step of the tasks is a run of the pool. *)
Lemma acq_pool s s' :
  acq_ok s → acq_step s s' → pool_run (made_for (made s')) (pool s) (pool s').
Proof.
  intros Hok Hs. acq_cases Hs Hok; simpl in *; try apply pool_run_refl.
  - apply pool_run_once, pool_spawn. by destruct Hslot.
  - apply pool_run_once, pool_spawn. by destruct Hslot.
  - apply pool_run_once. eapply (pool_poll _ _ t co _ _ _ Pending _ _ t); eauto.
    destruct Hst as [(fut & -> & _)|[-> _]]; naive_solver.
  - eapply (pool_poll_done _ _ t co _ _ _ (Err e) _ _ t); eauto.
    destruct Hst as [(fut & -> & _)|[-> _]]; naive_solver.
  - eapply (pool_poll_done _ _ t co _ _ _ (Ok pl) _ _ t'); eauto.
    destruct Hst as [(fut & -> & _ & Ht' & _)|[(fut & -> & _ & -> & _)|(-> & -> & _)]];
      [|naive_solver..].
    pose proof (ao_slot _ Hok t') as Hslot'. rewrite Ht' in Hslot'. naive_solver.
  - destruct (polling_ok _ _ _ _ _ _ _ Hst Hslot) as (_ & Hcn & _).
    apply connect_start_spec in Hc as (Hc & _).
    apply pool_run_once, kstep_sub; [by eapply step_connecting|done].
  - apply connect_start_spec in Hc as (-> & _). rewrite sys_eta. apply pool_run_refl.
  - destruct (polling_ok _ _ _ _ _ _ _ Hst Hslot) as (_ & (c & Hcn' & Hk & Hv) & _).
    rewrite Hcn in Hcn'. injection Hcn' as <-.
    apply connect_io_spec in Hio as (_ & _ & _ & [[-> ->]|[Hcp Ha]]); [| |done..].
    + rewrite insert_id by done. rewrite sys_eta. apply pool_run_refl.
    + apply pool_run_once, kstep_sub; [|done]. by apply (step_alpn _ t cn (Some cn')).
  - destruct (polling_ok _ _ _ _ _ _ _ Hst Hslot) as (_ & (c & Hcn' & Hk & Hv) & _).
    rewrite Hcn in Hcn'. injection Hcn' as <-.
    apply connect_io_spec in Hio as (-> & _); [|done..]. by apply pool_run_once, pool_drop_connecting.
  - destruct (polling_ok _ _ _ _ _ _ _ Hst Hslot) as (_ & (c & Hcn' & Hk & Hv & _) & Hnone).
    rewrite Hcn in Hcn'. injection Hcn' as <-. apply pool_run_once. split.
    + eapply (step_pooled _ t cn); eauto. rewrite Hv. by apply connect_tx_http2 in Hx.
    + intros j pl' Hj. simpl. rewrite lookup_insert. case_decide; [|congruence].
      intros [= <-] _. apply pooled_spec in Hpl as [-> ->]. exists d. split; [set_solver|done].
  - by apply pool_run_once, pool_drop_connecting.
  - apply pool_run_once, kstep_sub; [by apply step_drop_checkout|done].
  - by apply pool_run_once, pool_drop_connecting.
  - apply pool_run_once, kstep_sub; [by eapply step_drop_pooled|].
    intros j pl'. simpl. rewrite lookup_delete. by case_decide.
  - apply pool_run_once, kstep_sub; [apply step_clean|done].
  - apply pool_run_once, kstep_sub; [by eapply step_tick|done].
Qed.

(** *** The handles of a task change with its stage *)
Lemma slots_update s s' t :
  acq_ok s →
  (∀ t0, t0 ≠ t → tasks s' !! t0 = tasks s !! t0 ∧
     checkouts (pool s') !! t0 = checkouts (pool s) !! t0 ∧
     connectings (pool s') !! t0 = connectings (pool s) !! t0 ∧
     pooleds (pool s') !! t0 = pooleds (pool s) !! t0) →
  slot_ok (tasks s' !! t) (checkouts (pool s') !! t) (connectings (pool s') !! t)
    (pooleds (pool s') !! t) →
  ∀ t0, slot_ok (tasks s' !! t0) (checkouts (pool s') !! t0) (connectings (pool s') !! t0)
          (pooleds (pool s') !! t0).
Proof.
  intros Hok Hne Ht t0. destruct (decide (t0 = t)) as [->|Hn]; [done|].
  destruct (Hne t0 Hn) as (-> & -> & -> & ->). apply (ao_slot _ Hok).
Qed.

(** The attempt of a racing or awaiting task is done. *)
Lemma after_connect_ok d (racing : bool) (r : result unit Err') co (pl : option (Pooled T K)) :
  (if racing then co_ok d true co else co = None) →
  match r with Ok _ => ∃ x, pl = Some x ∧ pl_key x = d_id d | _ => pl = None end →
  stage_ok d (after_connect racing r) co None pl.
Proof.
  intros Hco Hpl. assert (racing = true → co_ok d false co) as Hco'.
  { intros ->. destruct Hco as (c & -> & Hk & _). by exists c. }
  destruct r as [[]|e]; simpl; [destruct racing; naive_solver|].
  destruct racing, (Error_is_canceled e); simpl; naive_solver.
Qed.

Lemma with_fut_ok d (racing : bool) fut co cn :
  (if racing then co_ok d true co else co = None) → fut_ok d fut cn →
  stage_ok d (with_fut racing fut) co cn None.
Proof. destruct racing; simpl; naive_solver. Qed.

Ltac frame := intros t0 Hne; simpl; unfold at_stage;
  rewrite ?lookup_insert_ne, ?lookup_delete_ne by done; done.
Ltac at_task := simpl; unfold at_stage;
  rewrite ?lookup_insert_eq, ?lookup_delete_eq; simpl.

(** A request goes on with a connection of the pool, its attempt in the
    background. *)
Lemma slots_background s t t' d fut pl t0 :
  acq_ok s → tasks s !! t = Some {| t_desc := d; t_stage := Racing false fut |} →
  tasks s !! t' = None → pl_key pl = d_id d →
  slot_ok (<[t' := {| t_desc := d; t_stage := Ending (Some (Ok tt)) false false |}]>
             (at_stage s t d (Awaiting fut)) !! t0)
    (delete t (checkouts (pool s)) !! t0) (connectings (pool s) !! t0)
    (<[t' := pl]> (pooleds (pool s)) !! t0).
Proof.
  intros Hok Ht Ht' Hk. assert (t' ≠ t) as Hne by congruence.
  pose proof (ao_slot _ Hok t) as Hslot. pose proof (ao_slot _ Hok t') as Hslot'.
  rewrite Ht in Hslot. rewrite Ht' in Hslot'. destruct Hslot as (_ & Hfut & Hnone).
  unfold at_stage.
  destruct (decide (t0 = t')) as [->|Hn']; [|destruct (decide (t0 = t)) as [->|Hn]].
  - rewrite !lookup_insert_eq, lookup_delete_ne by done. destruct Hslot' as (-> & -> & _).
    simpl. split_and!; [done|done|]. by exists pl.
  - rewrite !lookup_insert_ne, lookup_insert_eq, lookup_delete_eq by done. simpl.
    split_and!; [done|done|]. by rewrite lookup_insert_ne.
  - rewrite !(lookup_insert_ne _ t'), (lookup_insert_ne _ t), lookup_delete_ne by done.
    apply (ao_slot _ Hok).
Qed.

(** Dropping a request leaves the parts of its stage to be dropped. *)
Lemma cancel_ok d st co cn pl : stage_ok d st co cn pl → stage_ok d (cancel st) co cn pl.
Proof.
  intros Hslot. destruct st as [p fut|fut| |r c f]; simpl in *; [..|done].
  - destruct Hslot as ((c & Hc & Hck & _) & Hfut & ->). split_and!; [by exists c| |done].
    destruct fut; simpl in *; naive_solver.
  - destruct Hslot as (-> & Hfut & ->). split_and!; [done| |done].
    destruct fut; simpl in *; naive_solver.
  - destruct Hslot as ((c & Hc & Hck & _) & -> & ->). split_and!; [by exists c|done|done].
Qed.

Lemma acq_slots s s' :
  acq_ok s → acq_step s s' →
  ∀ t0, slot_ok (tasks s' !! t0) (checkouts (pool s') !! t0) (connectings (pool s') !! t0)
          (pooleds (pool s') !! t0).
Proof.
  intros Hok Hs. acq_cases Hs Hok;
    try (apply (slots_update s _ t Hok); [frame|]; at_task).
  - destruct Hslot as (Hco & -> & ->). split_and!; [|done|done]. by eexists.
  - destruct Hslot as (Hco & -> & ->). split_and!; [|done|done]. by eexists.
  - apply poll_pending in Hp as [Hk Hw].
    destruct Hst as [(fut & -> & ->)|[-> ->]]; simpl in *; destruct Hslot as ((c & Hc & Hck & _) & Hfut & Hpl);
      simplify_eq; split_and!; try done; exists co'; rewrite Hk; done.
  - destruct Hst as [(fut & -> & ->)|[-> ->]]; simpl in *.
    + destruct Hslot as (_ & Hfut & ->). destruct (is_canceled e); simpl; [done|].
      split_and!; [done| |done]. destruct fut; simpl in *; naive_solver.
    + destruct Hslot as (_ & -> & ->). by destruct (is_ver_h2 ver && is_canceled e).
  - apply poll_ready in Hp as [_ [Hk _]%(λ x, x pl eq_refl)].
    destruct Hst as [(fut & -> & Hfs & Ht' & ->)|[(fut & -> & Hfs & -> & ->)|(-> & -> & ->)]].
    + destruct Hslot as ((c & Hc & Hck & _) & _). intros t0.
      apply (slots_background s t t' d fut pl t0); [done..|congruence].
    + apply (slots_update s _ t Hok); [frame|]; at_task. simpl in Hslot.
      destruct Hslot as ((c & Hc & Hck & _) & Hfut & Hnone). destruct fut; try done. simpl in Hfut.
      split_and!; [done|done|]. exists pl. split; [done|congruence].
    + apply (slots_update s _ t Hok); [frame|]; at_task. simpl in Hslot.
      destruct Hslot as ((c & Hc & Hck & _) & Hfut & Hnone).
      split_and!; [done|done|]. exists pl. split; [done|congruence].
  - destruct Hslot as ((c & Hc & Hck & _) & Hfut & Hnone). split_and!; [by exists c|done|done].
  - destruct (polling_ok _ _ _ _ _ _ _ Hst Hslot) as (Hco & _ & ->).
    apply connect_start_spec in Hc as (_ & Hk & Hv). apply with_fut_ok; [done|]. by exists cn.
  - destruct (polling_ok _ _ _ _ _ _ _ Hst Hslot) as (Hco & -> & ->). by apply (after_connect_ok d racing (Err e)).
  - destruct (polling_ok _ _ _ _ _ _ _ Hst Hslot) as (Hco & (c & Hcn' & Hk & Hv) & ->).
    rewrite Hcn in Hcn'. injection Hcn' as <-.
    apply connect_io_spec in Hio as (Hk' & Hv' & Hh & _); [|done..].
    apply with_fut_ok; [done|]. by exists cn'.
  - destruct (polling_ok _ _ _ _ _ _ _ Hst Hslot) as (Hco & _ & ->). by apply (after_connect_ok d racing (Err e)).
  - destruct (polling_ok _ _ _ _ _ _ _ Hst Hslot) as (Hco & (c & Hcn' & Hk & _) & _).
    rewrite Hcn in Hcn'. injection Hcn' as <-. apply pooled_spec in Hpl as [Hpk _].
    apply (after_connect_ok d racing (Ok tt)); [done|]. exists pl. split; [done|congruence].
  - destruct (polling_ok _ _ _ _ _ _ _ Hst Hslot) as (Hco & _ & ->). by apply (after_connect_ok d racing (Err e)).
  - by destruct Hslot as (_ & ? & ?).
  - by destruct Hslot as (? & _ & ?).
  - by apply cancel_ok.
  - by destruct Hslot as (? & ? & _).
  - destruct Hslot as (? & ? & Hpl). split_and!; [done..|]. by destruct r as [[[]|]|].
  - apply (ao_slot _ Hok).
  - apply (ao_slot _ Hok).
Qed.

(** *** The invariant is kept *)
Lemma made_for_mono l l' (s : Sys T K) :
  l ⊆ l' → home_ok (made_for l) s → home_ok (made_for l') s.
Proof.
  intros Hsub. assert (∀ v k, made_for l v k → made_for l' v k) as HR.
  { intros v k (d & Hin & Hk). exists d. auto. }
  intros [Hw Hi Hs Hh]. split; [done|..]; repeat intro; apply HR; eauto.
Qed.

Lemma acq_made_sub s s' : acq_step s s' → made s ⊆ made s'.
Proof. destruct 1; simpl; set_solver. Qed.

Lemma pool_run_covered R (p p' : Sys T K) t co w :
  pool_run R p p' → wait_ok (waiters (inner p)) (chans p) (checkouts p) →
  checkouts p !! t = Some co → co_waiter co = Some w → covered p co w → covered p' co w.
Proof.
  intros (p1 & Hs & _ & Hi & Hc) Hw Ht Hco Hcov. unfold covered. rewrite <- Hi, <- Hc.
  destruct Hs as [->|[Hs _]]; [done|]. by eapply step_covered.
Qed.

Lemma acq_wait s s' t0 d0 co0 w0 :
  acq_ok s → acq_step s s' →
  tasks s' !! t0 = Some {| t_desc := d0; t_stage := CheckingOut |} →
  checkouts (pool s') !! t0 = Some co0 → co_waiter co0 = Some w0 → covered (pool s') co0 w0.
Proof.
  intros Hok Hs Ht0 Hco0 Hw0.
  assert (tasks s !! t0 = Some {| t_desc := d0; t_stage := CheckingOut |} →
          checkouts (pool s) !! t0 = Some co0 → covered (pool s') co0 w0) as Hsame.
  { intros Ht Hco. eapply pool_run_covered; [by apply acq_pool|apply (ho_wait _ _ (ao_home _ Hok))|done..|].
    by eapply ao_wait. }
  acq_cases Hs Hok; simpl in *; unfold at_stage in Ht0;
    rewrite ?lookup_insert, ?lookup_delete in Ht0; rewrite ?lookup_insert, ?lookup_delete in Hco0;
    repeat case_decide; simplify_eq/=; auto.
  - destruct Hst as [(fut & _ & ?)|[-> _]]; [done|].
    destruct Hslot as ((c & Hc & _ & Hcw) & _). simplify_eq.
    apply poll_pending_same in Hp as [<- _]; auto.
  - destruct Hst as [(fut & -> & _ & Ht' & ->)|[(fut & -> & _ & -> & ->)|(-> & -> & ->)]];
      unfold at_stage in Ht0; rewrite !lookup_insert in Ht0; repeat case_decide; simplify_eq; auto.
  - by destruct racing.
  - destruct racing; [|done]. destruct (polling_ok _ _ _ _ _ _ _ Hst Hslot) as ((c & Hc' & Hk & _) & _).
    apply connect_start_spec in Hc as [-> Hin]. intros _. simplify_eq. by rewrite Hk.
  - by destruct racing.
  - destruct racing; [|done].
    destruct (polling_ok _ _ _ _ _ _ _ Hst Hslot) as ((c & Hc' & Hk & _) & (cn' & Hcn' & Hk' & Hv) & _).
    simplify_eq. apply connect_io_spec in Hio as (-> & [He|(Hcp & _ & Hin)]); [| |done..].
    + simpl in *. by rewrite He in *.
    + intros _. simpl. unfold drop_connecting. rewrite Hcp. simpl. by rewrite Hk.
  - rewrite (connect_tx_err _ _ _ Hx), andb_false_r in *. done.
  - destruct st; simplify_eq/=; auto.
Qed.

Lemma acq_step_ok s s' : acq_ok s → acq_step s s' → acq_ok s'.
Proof.
  intros Hok Hs. pose proof (pool_run_rtc _ _ _ (acq_pool _ _ Hok Hs)) as Hrun. split.
  - by apply (acq_slots s).
  - eapply rtc_preserves; [intros p p'; apply kstep_home|exact Hrun|].
    eapply made_for_mono; [by eapply acq_made_sub|apply Hok].
  - refine (rtc_preserves (λ p, lock_ok (connecting (inner p)) (connectings p)) _ _ _ _ Hrun _);
      [intros p p' [Hp _]; by apply step_lock|apply Hok].
  - pose proof (ao_made _ Hok) as Hm. acq_cases Hs Hok; simpl in *; try done.
    intros v d0. rewrite elem_of_app, list_elem_of_singleton. intros [Hin|[= -> ->]]; [by apply Hm|].
    destruct (polling_ok _ _ _ _ _ _ _ Hst Hslot) as (_ & (c & _ & _ & _ & Hh) & _).
    cbn [conn_info]. rewrite <- Hh. by apply connect_tx_http2 in Hx.
  - intros. by eapply (acq_wait s).
Qed.

Lemma acq_init_ok p :
  waiters p = ∅ → lru_entries (idle p) = [] → connecting p = ∅ → acq_ok (acq_init p).
Proof.
  intros Hw Hi Hc. split; simpl.
  - intros t. by rewrite !lookup_empty.
  - by apply initial_home.
  - by apply initial_lock.
  - by intros v d ?%elem_of_nil.
  - intros t d co w. by rewrite lookup_empty.
Qed.

(** A pool in which nothing has happened yet. *)
Definition unused (p : PoolInner T K) : Prop :=
  waiters p = ∅ ∧ lru_entries (idle p) = [] ∧ connecting p = ∅.

Lemma acq_reachable_ok p s : unused p → rtc acq_step (acq_init p) s → acq_ok s.
Proof.
  intros (Hw & Hi & Hc) Hr. eapply rtc_preserves; [|exact Hr|by apply acq_init_ok].
  intros s1 s2 Hs Hok. by eapply acq_step_ok.
Qed.

(** ** Theorems *)

(** C13: The tasks that acquire connections use the pool as its specification
    allows: every run of them, with all interleavings and with requests that
    are given up at any point, is a run of the pool system, in which a lock is
    taken before an HTTP/2 connection is delivered and every handle is used by
    one task.  So what holds for every run of the pool holds for the client. *)
Theorem acquire_refines_pool p s :
  unused p → rtc acq_step (acq_init p) s → rtc step (initial p) (pool s).
Proof.
  intros Hp Hr. assert (rtc step (initial p) (pool s) ∧ acq_ok s) as [Hs _]; [|done].
  eapply (rtc_preserves (λ s, rtc step (initial p) (pool s) ∧ acq_ok s)); [|exact Hr|].
  - intros s1 s2 Hs [Hr1 Hok]. split; [|by eapply acq_step_ok]. etrans; [exact Hr1|].
    eapply rtc_congruence with (f := id); [|by apply pool_run_rtc, (acq_pool s1)].
    by intros ? ? [].
  - split; [constructor|]. destruct Hp as (Hw & Hi & Hc). by apply acq_init_ok.
Qed.

(** C14: The connection a request gets is the right one.  Whatever other
    requests do, when a request for a descriptor has its connection, the
    connector made that connection for a descriptor with the same key, and it
    speaks HTTP/2 exactly when the request's version or the client's settings
    ask for HTTP/2 or the server chose it in the handshake. *)
Theorem connection_typed p s t d c f :
  unused p → rtc acq_step (acq_init p) s →
  tasks s !! t = Some {| t_desc := d; t_stage := Ending (Some (Ok tt)) c f |} →
  ∃ pl d', pooleds (pool s) !! t = Some pl ∧ (pl_value pl, d') ∈ made s ∧ d_id d' = d_id d ∧
    is_http2 (pl_value pl) =
      bool_decide (d_version d = Some HTTP_2) || is_ver_h2 ver || cn_h2 (conn_info (pl_value pl)).
Proof.
  intros Hp Hr Ht. pose proof (acq_reachable_ok _ _ Hp Hr) as Hok.
  pose proof (ao_slot _ Hok t) as Hslot. rewrite Ht in Hslot.
  destruct Hslot as (_ & _ & pl & Hpl & Hk).
  destruct (ho_held _ _ (ao_home _ Hok) _ _ Hpl) as (d' & Hin & Hd').
  exists pl, d'. rewrite Hk in Hd'. split_and!; [done..|].
  by rewrite (ao_made _ Hok _ _ Hin), connect_ver_h2, (d_id_version d' d).
Qed.

(** Another task has an attempt for the key of [d] under way that holds the
    lock: it waits for the connector or for the handshake, or is about to drop
    the attempt. *)
Definition attempt_under_way s (t : nat) d : Prop :=
  ∃ t' d' st cn, t' ≠ t ∧ tasks s !! t' = Some {| t_desc := d'; t_stage := st |} ∧
    connectings (pool s) !! t' = Some cn ∧ cn_pool cn = true ∧ cn_key cn = d_id d ∧
    d_id d' = d_id d ∧
    match st with
    | Racing _ fut | Awaiting fut => started fut = true
    | CheckingOut => False
    | Ending _ _ f => f = true
    end.

(** C15: No request waits in vain.  A request that gave up its own attempt,
    because another one holds the HTTP/2 lock of its key, waits for its checkout
    only.  In every reachable state it has been sent a connection, or its sender
    is gone, which wakes it with an error, or its channel is open and another
    task has an attempt for the same key under way. *)
Theorem canceled_connect_attended p s t d :
  unused p → rtc acq_step (acq_init p) s →
  tasks s !! t = Some {| t_desc := d; t_stage := CheckingOut |} →
  ∃ co w, checkouts (pool s) !! t = Some co ∧ co_key co = d_id d ∧ co_waiter co = Some w ∧
    ((∃ v, chans (pool s) !! w = Some (Sent v)) ∨ chans (pool s) !! w = Some TxDropped ∨
     chans (pool s) !! w = Some Waiting ∧ attempt_under_way s t d).
Proof.
  intros Hp Hr Ht. pose proof (acq_reachable_ok _ _ Hp Hr) as Hok.
  pose proof (ao_slot _ Hok t) as Hslot. rewrite Ht in Hslot.
  destruct Hslot as ((co & Hco & Hk & [w Hw]%(λ x, x eq_refl)) & Hnone & _).
  exists co, w. split_and!; [done..|].
  destruct (wo_attended _ _ _ (ho_wait _ _ (ao_home _ Hok)) _ _ _ Hco Hw) as [[Hc _]|[?|?]]; [|auto..].
  right; right. split; [done|]. pose proof (ao_wait _ Hok _ _ _ _ Ht Hco Hw Hc) as Hin.
  rewrite Hk in Hin. apply (lo_keys _ _ (ao_lock _ Hok)) in Hin as (t' & cn & Hcn & Hl & Hck).
  pose proof (ao_slot _ Hok t') as Hslot'. rewrite Hcn in Hslot'.
  destruct (tasks s !! t') as [[d' st]|] eqn:Ht'; [|naive_solver].
  exists t', d', st, cn. split_and!; try done; [congruence|..]; simpl in Hslot';
    destruct st as [b fut|fut| |r c f]; try destruct fut; try destruct f; naive_solver congruence.
Qed.
End connect.

(** ** Connections that must not be reused

    A connection is marked by [Response::forbid_recycle]: the response carries
    a clone of its [Connected], and clones share the [PoisonPill].  [pill] is
    that shared flag. *)
Section recycle.
Context `{HM : HeaderMapLib, NL : IpNetLib} {V H1 H2 D K : Type}.
Context `{Countable K, LL : !LruLib K, DK : !Descriptor D K}.
Abbreviation C := (Connected (V:=V)).
Abbreviation T := (PoolClient C H1 H2).
Context (cfg : ClientConfig) (pill : C → nat).

Record Client := {
  acq : Acq (V:=V) (H1:=H1) (H2:=H2) (D:=D) (K:=K);
  poisoned : gset nat;
}.
(** What [is_open] answers while these pills are poisoned. *)
Definition opens_with (p : gset nat) (is_open : T → bool) : Prop :=
  ∃ h1_ready h2_ready, is_open = client_is_open (λ c, bool_decide (pill c ∈ p)) h1_ready h2_ready.

(** A new connection has a pill that is healthy. *)
Inductive client_step (s : Client) : Client → Prop :=
| client_acq a :
    acq_step cfg (opens_with (poisoned s)) (acq s) a →
    (∀ v d, made a = made (acq s) ++ [(v, d)] → pill (conn_info v) ∉ poisoned s) →
    client_step s {| acq := a; poisoned := poisoned s |}
| client_forbid_recycle c :
    client_step s {| acq := acq s; poisoned := {[pill c]} ∪ poisoned s |}.

Lemma poll_open is_open (w w' : World T K) co co' fresh now pl :
  Checkout_poll is_open w co fresh now = (Ready (Ok pl), co', w') → is_open (pl_value pl) = true.
Proof.
  unfold Checkout_poll, poll_waiter.
  destruct (co_waiter co) as [rx|]; [destruct (poll_rx w.2 rx) as [[v|]|]|]; try done.
  - destruct (is_open v) eqn:Hv; intros; by simplify_eq/=.
  - pose proof (checkout_spec is_open w.1 (co_key co) false fresh now) as Hc.
    cbn [co_key]. destruct (checkout _ _ _ _ _ _) as [[v|] p]; [|done]. intros; simplify_eq/=.
    destruct Hc as [(pre & e & post & _ & [= ->] & Hd & _)|[[=] _]]. unfold dead in Hd.
    by destruct (is_open (value e)).
Qed.

Lemma acq_step_obtained opens (s s' : Acq (V:=V) (H1:=H1) (H2:=H2) (D:=D) (K:=K)) t pl :
  acq_step cfg opens s s' → pooleds (pool s') !! t = Some pl → pooleds (pool s) !! t ≠ Some pl →
  (∃ is_open, opens is_open ∧ is_open (pl_value pl) = true) ∨
  ∃ v d, made s' = made s ++ [(v, d)] ∧ conn_info (pl_value pl) = conn_info v.
Proof.
  intros Hs Hp Hn. destruct Hs; simpl in Hp; try done;
    try (apply lookup_insert_Some in Hp as [[_ <-]|[_ ?]]; [|done]);
    try (by apply lookup_delete_Some in Hp as [_ ?]).
  - left. eauto using poll_open.
  - right. eexists _, _. split; [done|].
    match goal with H : pooled _ _ _ _ = Some _ |- _ => apply pooled_spec in H as [_ ->] end.
    done.
Qed.

(** C16: A connection that was forbidden to be recycled is not reused.  However
    the requests of a client interleave, once the response of a connection has
    been marked, no request obtains that connection any more, neither from the
    idle connections nor by being handed it as a waiter. *)
Theorem forbidden_not_reused s s' s'' c t pl :
  rtc client_step s s' → client_step s' s'' → pill c ∈ poisoned s →
  pooleds (pool (acq s'')) !! t = Some pl → pooleds (pool (acq s')) !! t ≠ Some pl →
  pill (conn_info (pl_value pl)) ≠ pill c.
Proof.
  intros Hr Hs Hc Hp Hn Heq.
  assert (pill c ∈ poisoned s') as Hc'.
  { eapply (rtc_preserves (λ s, pill c ∈ poisoned s)); [|exact Hr|exact Hc].
    intros ? ? [] ?; simpl; set_solver. }
  destruct Hs as [a Ha Hfresh|c']; [|done]. simpl in Hp.
  destruct (acq_step_obtained _ _ _ _ _ Ha Hp Hn) as [(is_open & (h1 & h2 & ->) & Ho)|(v & d & Hm & Hv)].
  - unfold client_is_open in Ho. rewrite bool_decide_eq_true_2 in Ho by congruence. done.
  - apply (Hfresh _ _ Hm). congruence.
Qed.
End recycle.

(** ** Examples *)
Module AcquireExamples.
Definition conn := PoolClient (Connected (V:=unit)) nat nat.

(** Even descriptors ask for HTTP/2. *)
#[local] Program Instance Descriptor_nat : Descriptor nat nat := {|
  d_id d := d;
  d_version d := if Nat.even d then Some HTTP_2 else None;
|}.
Next Obligation. by intros d d' ->. Qed.

Definition cfg : ClientConfig :=
  {| retry_canceled_requests := true; set_host := true; cc_ver := Auto |}.
Definition pool0 : PoolInner conn nat :=
  {| connecting := ∅; idle := lru_new (Some 3); max_idle_per_host := 2; waiters := ∅;
     idle_interval_ref := false; timer_is_empty := false; timeout := None |}.

Lemma pool0_unused : unused pool0.
Proof. by split_and!. Qed.

(** Any answers of [is_open]. *)
Definition any (is_open : conn → bool) : Prop := True.

Definition State := Acq (V:=unit) (H1:=nat) (H2:=nat) (D:=nat) (K:=nat).
Definition co (w : option nat) : Checkout nat := {| co_key := 4; co_waiter := w |}.
Definition lock : Connecting nat := {| cn_key := 4; cn_pool := true |}.
Definition task (st : Stage (V:=unit)) : Task := {| t_desc := 4; t_stage := st |}.
Definition poll_new (w : World conn nat) (fresh : nat) : World conn nat :=
  (Checkout_poll (λ _, true) w (co None) fresh 0).2.

(** A request for an HTTP/2 connection asks the pool in vain and takes the
    lock. *)
Definition asked : State :=
  {| pool := {| inner := pool0; chans := ∅; checkouts := <[1 := co None]> ∅; connectings := ∅;
                pooleds := ∅ |};
     tasks := <[1 := task (Racing false CInit)]> ∅; made := [] |}.
Definition world1 : World conn nat := poll_new (pool0, ∅) 10.
Definition registered : State :=
  {| pool := {| inner := world1.1; chans := world1.2; checkouts := <[1 := co (Some 10)]> (checkouts (pool asked));
                connectings := ∅; pooleds := ∅ |};
     tasks := <[1 := task (Racing true CInit)]> (tasks asked); made := [] |}.
Definition locked : PoolInner conn nat := (lock_connecting 4 world1.1).2.
Definition connecting_sys : State :=
  {| pool := {| inner := locked; chans := world1.2; checkouts := checkouts (pool registered);
                connectings := <[1 := lock]> ∅; pooleds := ∅ |};
     tasks := <[1 := task (Racing true CConnector)]> (tasks registered); made := [] |}.

Lemma racing_pending (fut : Connect (V:=unit)) :
  (∃ f, Racing false fut = Racing false f ∧ Racing true fut = Racing true f) ∨
  Racing false fut = CheckingOut ∧ Racing true fut = CheckingOut.
Proof. left. by exists fut. Qed.

Lemma connecting_reachable : rtc (acq_step cfg any) (acq_init pool0) connecting_sys.
Proof.
  apply (rtc_l _ _ asked); [exact (acq_spawn cfg any (acq_init pool0) 1 4 eq_refl)|].
  apply (rtc_l _ _ registered).
  - exact (acq_poll_pending cfg any asked 1 4 _ _ (co None) (λ _, true) 10 0 (co (Some 10)) world1
             I eq_refl (racing_pending CInit) eq_refl eq_refl eq_refl).
  - apply rtc_once.
    exact (acq_start cfg any registered 1 4 (Racing true CInit) true lock locked eq_refl eq_refl eq_refl).
Qed.

(** A second request finds the lock taken and waits. *)
Definition asked2 : State :=
  {| pool := {| inner := locked; chans := world1.2;
                checkouts := <[2 := co None]> (checkouts (pool connecting_sys));
                connectings := connectings (pool connecting_sys); pooleds := ∅ |};
     tasks := <[2 := task (Racing false CInit)]> (tasks connecting_sys); made := [] |}.
Definition world2 : World conn nat := poll_new (locked, world1.2) 20.
Definition registered2 : State :=
  {| pool := {| inner := world2.1; chans := world2.2;
                checkouts := <[2 := co (Some 20)]> (checkouts (pool asked2));
                connectings := connectings (pool asked2); pooleds := ∅ |};
     tasks := <[2 := task (Racing true CInit)]> (tasks asked2); made := [] |}.
Definition locked_out : State :=
  {| pool := {| inner := world2.1; chans := world2.2; checkouts := checkouts (pool registered2);
                connectings := connectings (pool registered2); pooleds := ∅ |};
     tasks := <[2 := task CheckingOut]> (tasks registered2); made := [] |}.

Lemma taken : connect_start Auto 4 (Some world2.1) = (Err (err Canceled), Some world2.1).
Proof.
  unfold connect_start, Pool_connecting, lock_connecting. cbn [connect_ver d_version Nat.even].
  rewrite decide_True; [done|]. apply (bool_decide_unpack _). vm_compute. exact I.
Qed.

Lemma locked_out_reachable : rtc (acq_step cfg any) (acq_init pool0) locked_out.
Proof.
  transitivity connecting_sys; [apply connecting_reachable|].
  apply (rtc_l _ _ asked2); [exact (acq_spawn cfg any connecting_sys 2 4 eq_refl)|].
  apply (rtc_l _ _ registered2).
  - exact (acq_poll_pending cfg any asked2 2 4 _ _ (co None) (λ _, true) 20 0 (co (Some 20)) world2
             I eq_refl (racing_pending CInit) eq_refl eq_refl eq_refl).
  - apply rtc_once.
    exact (acq_locked cfg any registered2 2 4 (Racing true CInit) true (err Canceled) world2.1
             eq_refl eq_refl taken).
Qed.

Lemma canceled_connect_attended_witness :
  ∃ co w, checkouts (pool locked_out) !! 2 = Some co ∧ co_waiter co = Some w ∧
    ((∃ v, chans (pool locked_out) !! w = Some (Sent v)) ∨
     chans (pool locked_out) !! w = Some TxDropped ∨
     chans (pool locked_out) !! w = Some Waiting ∧ attempt_under_way locked_out 2 4).
Proof.
  destruct (canceled_connect_attended cfg any pool0 locked_out 2 4 pool0_unused locked_out_reachable) as
    (c & w & Hco & _ & Hw & H); [reflexivity|].
  exists c, w. auto.
Defined.
(** The first request gets its connection, which also goes to the second. *)
Definition client7 : conn := {| conn_info := Connected_new; tx := TxHttp2 7 |}.
Definition shaking : State :=
  {| pool := {| inner := locked; chans := world1.2; checkouts := checkouts (pool connecting_sys);
                connectings := <[1 := lock]> (connectings (pool connecting_sys)); pooleds := ∅ |};
     tasks := <[1 := task (Racing true (CHandshake Connected_new true))]> (tasks connecting_sys);
     made := [] |}.
Definition pooled7 : Pooled conn nat :=
  {| pl_value := client7; is_reused := false; pl_key := 4; pl_pool := false |}.
Definition world3 : World conn nat :=
  default (locked, world1.2) (snd <$> pooled (locked, world1.2) lock client7 0).
Definition handshake7 : Handshake (H1:=nat) (H2:=nat) :=
  {| hs_http1 := Err OtherSource; hs_http2 := Ok 7; hs_ready := IsReady; hs_reported := None |}.
Definition served : State :=
  {| pool := {| inner := world3.1; chans := world3.2; checkouts := checkouts (pool shaking);
                connectings := delete 1 (connectings (pool shaking));
                pooleds := <[1 := pooled7]> ∅ |};
     tasks := <[1 := task (Ending (Some (Ok tt)) true false)]> (tasks shaking);
     made := [(client7, 4)] |}.

Lemma served_reachable : rtc (acq_step cfg any) (acq_init pool0) served.
Proof.
  transitivity connecting_sys; [apply connecting_reachable|].
  apply (rtc_l _ _ shaking).
  - exact (acq_io cfg any connecting_sys 1 4 (Racing true CConnector) true lock (Ok Connected_new) locked
             lock Connected_new true eq_refl eq_refl eq_refl eq_refl).
  - apply rtc_once. assert (client7 ∉ places (pool shaking)) as Hnew by by intros ?%elem_of_nil.
    exact (acq_handshake cfg any shaking 1 4 (Racing true (CHandshake Connected_new true)) true
             Connected_new true lock handshake7 (TxHttp2 7) 0 pooled7 world3
             eq_refl eq_refl eq_refl eq_refl Hnew eq_refl).
Qed.

Lemma connection_typed_witness :
  ∃ pl, pooleds (pool served) !! 1 = Some pl ∧ is_http2 (pl_value pl) = true.
Proof.
  destruct (connection_typed cfg any pool0 served 1 4 true false pool0_unused served_reachable) as
    (pl & d' & Hpl & _ & _ & H); [reflexivity|].
  exists pl. split; [exact Hpl|]. rewrite H. reflexivity.
Defined.

(** The pill of another connection is poisoned while this one is made. *)
Definition pill (c : Connected (V:=unit)) : nat := length (cn_extra c).
Definition other : Connected (V:=unit) := connected_extra tt Connected_new.
Definition before : Client := {| acq := shaking; poisoned := {[pill other]} |}.
Definition after : Client := {| acq := served; poisoned := {[pill other]} |}.

Lemma client_handshake : client_step cfg pill before after.
Proof.
  refine (client_acq cfg pill before served _ _).
  - assert (client7 ∉ places (pool shaking)) as Hnew by by intros ?%elem_of_nil.
    exact (acq_handshake cfg _ shaking 1 4 (Racing true (CHandshake Connected_new true)) true
             Connected_new true lock handshake7 (TxHttp2 7) 0 pooled7 world3
             eq_refl eq_refl eq_refl eq_refl Hnew eq_refl).
  - intros v d Hm. simpl in Hm. injection Hm as <- <-. simpl. rewrite elem_of_singleton. done.
Qed.

Lemma forbidden_not_reused_witness : pill (conn_info (pl_value pooled7)) ≠ pill other.
Proof.
  refine (forbidden_not_reused cfg pill before before after other 1 pooled7 (rtc_refl _ _)
            client_handshake _ eq_refl _).
  - apply elem_of_singleton_2. reflexivity.
  - discriminate.
Defined.

Lemma acquire_refines_pool_witness : rtc step (initial pool0) (pool served).
Proof. exact (acquire_refines_pool cfg any pool0 served pool0_unused served_reachable). Defined.
End AcquireExamples.
