(* ===== verification/Retry.v ===== *)
(** * Retries

    [src/retry.rs] (the policies a user builds) and
    [src/client/layer/retry.rs] with [retry/classify.rs] and
    [retry/scope.rs] (the policy handed to the retry middleware of the
    [tower] crate).

    The middleware follows the protocol of the trait [tower::retry::Policy]:
    before a request is sent it asks for a clone; if there is one, it asks
    whether to retry once the result is known, and if so asks for a clone of
    the clone and sends it.  The budget is shared by all requests of a client,
    so its answers are given. *)

From S2P Require Import Prelude Http Message.

Section retry.
Context `{HM : HeaderMapLib} {E X RB : Type}.
Abbreviation Req := (Request E Body).
Abbreviation Res := (Response X RB).

(** ** Errors

    An error with its source; an [http2::Error] is known by what the code asks
    of it. *)
Record H2Error := {
  is_go_away : bool;
  is_reset : bool;
  is_remote : bool;
  reason : option Z;
}.
Inductive BoxError :=
| RootError (h2 : option H2Error)
| CausedError (h2 : option H2Error) (source : BoxError).
Definition downcast_h2 (e : BoxError) : option H2Error :=
  match e with RootError h | CausedError h _ => h end.
Definition source (e : BoxError) : option BoxError :=
  match e with RootError _ => None | CausedError _ s => Some s end.

Definition NO_ERROR : Z := 0.
Definition REFUSED_STREAM : Z := 7.

Definition is_retryable_error (err : BoxError) : bool :=
  match source err with
  | None => false
  | Some err =>
    match source err ≫= downcast_h2 with
    | Some err =>
      if is_go_away err && is_remote err && bool_decide (reason err = Some NO_ERROR) then true
      else is_reset err && is_remote err && bool_decide (reason err = Some REFUSED_STREAM)
    | None => false
    end
  end.

(** ** Classifiers and scopes *)
Inductive Action := ActionSuccess | ActionRetryable.
#[export] Instance Action_eq_dec : EqDecision Action.
Proof. solve_decision. Defined.

(** [ReqRep]: the request with the status of its response or the error. *)
Definition ReqRep : Type := Req * result StatusCode BoxError.

Inductive Classifier :=
| ClassifyNever
| ProtocolNacks
| ClassifyDyn (f : ReqRep → Action).

Definition classify (self : Classifier) (req : Req) (res : result Res BoxError) : Action :=
  let rep := match res with Ok r => Ok (res_status r) | Err e => Err e end in
  match self with
  | ClassifyNever => ActionSuccess
  | ProtocolNacks =>
    match rep with
    | Err e => if is_retryable_error e then ActionRetryable else ActionSuccess
    | Ok _ => ActionSuccess
    end
  | ClassifyDyn f => f (req, rep)
  end.

Inductive Scoped :=
| Unscoped
| ScopedDyn (f : Req → bool).
Definition applies_to (self : Scoped) (req : Req) : bool :=
  match self with Unscoped => true | ScopedDyn f => f req end.

(** ** Policies of the user

    [F] is the type of the budget ([f32]) with its constants. *)
Context {F : Type} (default_budget : F) (in_range : F → bool).

Record Policy := {
  p_budget : option F;
  p_classifier : Classifier;
  p_max_retries_per_request : Z;
  p_scope : Scoped;
}.

Definition scoped (func : Req → bool) : Policy :=
  {| p_budget := Some default_budget; p_classifier := ClassifyNever;
     p_max_retries_per_request := 2; p_scope := ScopedDyn func |}.
Definition no_budget (self : Policy) : Policy :=
  {| p_budget := None; p_classifier := p_classifier self;
     p_max_retries_per_request := p_max_retries_per_request self; p_scope := p_scope self |}.
Definition never : Policy := no_budget (scoped (λ _, false)).
Definition for_host (host : str) : Policy :=
  scoped (λ req, match uri_host (req_uri req) with
                 | Some request_host => bool_decide (host = request_host)
                 | None => false
                 end).
(** [None] is the panic of its assertions. *)
Definition max_extra_load (extra_percent : F) (self : Policy) : option Policy :=
  if in_range extra_percent then
    Some {| p_budget := Some extra_percent; p_classifier := p_classifier self;
            p_max_retries_per_request := p_max_retries_per_request self; p_scope := p_scope self |}
  else None.
Definition max_retries_per_request (max : Z) (self : Policy) : Policy :=
  {| p_budget := p_budget self; p_classifier := p_classifier self;
     p_max_retries_per_request := max; p_scope := p_scope self |}.
Definition classify_fn (func : ReqRep → Action) (self : Policy) : Policy :=
  {| p_budget := p_budget self; p_classifier := ClassifyDyn func;
     p_max_retries_per_request := p_max_retries_per_request self; p_scope := p_scope self |}.
Definition Policy_default : Policy :=
  {| p_budget := None; p_classifier := ProtocolNacks; p_max_retries_per_request := 2;
     p_scope := Unscoped |}.

(** ** The policy of the middleware *)
Record RetryPolicy := {
  has_budget : bool;
  rp_classifier : Classifier;
  rp_max : Z;
  retry_cnt : Z;
  rp_scope : Scoped;
}.
Definition RetryPolicy_new (policy : Policy) : RetryPolicy :=
  {| has_budget := match p_budget policy with Some _ => true | None => false end;
     rp_classifier := p_classifier policy; rp_max := p_max_retries_per_request policy;
     retry_cnt := 0; rp_scope := p_scope policy |}.

(** What happens to the shared budget, and [retry]: the policy after it,
    whether it retries, and the call of the budget.  [withdraw] is the answer
    of the budget.  The counter is a [u32]. *)
Inductive BudgetCall := Deposit | Withdraw.
Definition retry (withdraw : bool) (self : RetryPolicy) (req : Req) (res : result Res BoxError) :
    RetryPolicy * bool * list BudgetCall :=
  match classify (rp_classifier self) req res with
  | ActionSuccess => (self, false, if has_budget self then [Deposit] else [])
  | ActionRetryable =>
    let calls := if has_budget self then [Withdraw] else [] in
    if (if has_budget self then withdraw else true) then
      ({| has_budget := has_budget self; rp_classifier := rp_classifier self; rp_max := rp_max self;
          retry_cnt := (retry_cnt self + 1) mod 2 ^ 32; rp_scope := rp_scope self |}, true, calls)
    else (self, false, calls)
  end.

Definition clone_request (self : RetryPolicy) (req : Req) : option Req :=
  if (0 <? retry_cnt self)%Z && negb (applies_to (rp_scope self) req) then None
  else if (rp_max self <=? retry_cnt self)%Z then None
  else
    body ← try_clone (req_body req);
    Some {| req_method := req_method req; req_uri := req_uri req; req_version := req_version req;
            req_headers := req_headers req; req_ext := req_ext req; req_body := body |}.

(** ** The protocol

    [drive] gives the requests that are sent, when the results of the service
    and the answers of the budget are given in order, with the policy and the
    result at the end; it stops early when no more results are given. *)
Fixpoint drive (self : RetryPolicy) (req : Req) (answers : list (result Res BoxError * bool)) :
    list Req * option (result Res BoxError) :=
  let cloned := clone_request self req in
  match answers with
  | [] => ([req], None)
  | (res, withdraw) :: answers =>
    match cloned with
    | None => ([req], Some res)
    | Some req' =>
      let '(self, again, _) := retry withdraw self req' res in
      if again : bool then
        let '(sent, r) := drive self req' answers in (req :: sent, r)
      else ([req], Some res)
    end
  end.

(** ** Facts *)
Implicit Types (self : RetryPolicy) (req : Req) (res : result Res BoxError).

Lemma clone_request_Some self req req' :
  clone_request self req = Some req' →
  req' = req ∧ (retry_cnt self < rp_max self)%Z ∧ (∃ chunk, req_body req = Reusable chunk) ∧
  ((0 < retry_cnt self)%Z → applies_to (rp_scope self) req = true).
Proof.
  unfold clone_request. destruct (_ && _) eqn:Hs; [done|].
  destruct (rp_max self <=? retry_cnt self)%Z eqn:Hm; [done|].
  destruct req as [m u v h e b]. destruct b as [chunk|]; simpl; [|done]. intros [= <-].
  simpl_bool. split_and!; [done..|by eexists|]. intros Hpos.
  apply andb_false_iff in Hs as [Hs|Hs]; simpl_bool; [lia|done].
Qed.

Lemma drive_same self req answers q : q ∈ (drive self req answers).1 → q = req.
Proof.
  revert self. induction answers as [|[res withdraw] answers IH]; intros self; cbn [drive].
  { by intros ?%list_elem_of_singleton. }
  destruct (clone_request self req) as [req'|] eqn:Hc; [|by intros ?%list_elem_of_singleton].
  apply clone_request_Some in Hc as (-> & _). destruct (retry withdraw self req res) as [[self' []] ?];
    [|by intros ?%list_elem_of_singleton].
  specialize (IH self'). destruct (drive self' req answers) as [sent r]. cbn.
  intros [->|?]%elem_of_cons; auto.
Qed.

Definition bumped self : RetryPolicy :=
  {| has_budget := has_budget self; rp_classifier := rp_classifier self; rp_max := rp_max self;
     retry_cnt := (retry_cnt self + 1) mod 2 ^ 32; rp_scope := rp_scope self |}.

Lemma retry_again withdraw self req res self' calls :
  retry withdraw self req res = (self', true, calls) →
  self' = bumped self ∧ classify (rp_classifier self) req res = ActionRetryable ∧
  (has_budget self = true → withdraw = true).
Proof.
  unfold retry, bumped. destruct (classify _ _ _) eqn:?, (has_budget self) eqn:?, withdraw;
    intros H; by simplify_eq/=.
Qed.

(** The state of a request that is being retried. *)
Definition counting self : Prop :=
  (0 <= retry_cnt self)%Z ∧ (0 <= rp_max self < 2 ^ 32)%Z.

Lemma counting_bumped self :
  counting self → (retry_cnt self < rp_max self)%Z →
  counting (bumped self) ∧ retry_cnt (bumped self) = (retry_cnt self + 1)%Z.
Proof.
  unfold counting, bumped. simpl. intros [H0 H1] Hlt.
  rewrite Z.mod_small by lia. lia.
Qed.

Record driven self req answers (sent : list Req) (r : option (result Res BoxError)) : Prop := {
  dr_same : Forall (λ q, q = req) sent;
  dr_pos : 1 <= length sent;
  dr_bound : (Z.of_nat (length sent) <= 1 + Z.max 0 (rp_max self - retry_cnt self))%Z;
  dr_scope : applies_to (rp_scope self) req = false →
    length sent <= if decide (0 < retry_cnt self)%Z then 1 else 2;
  dr_body : (∃ n x, req_body req = Boxed n x) → length sent = 1;
  dr_retryable i : S i < length sent → ∃ res withdraw, answers !! i = Some (res, withdraw) ∧
    classify (rp_classifier self) req res = ActionRetryable ∧
    (has_budget self = true → withdraw = true);
  dr_result : match r with
              | Some res => ∃ withdraw, answers !! (length sent - 1) = Some (res, withdraw)
              | None => length sent = S (length answers)
              end;
}.

Lemma driven_one self req answers r :
  match r with
  | Some res => ∃ withdraw, answers !! 0 = Some (res, withdraw)
  | None => answers = []
  end → driven self req answers [req] r.
Proof.
  intros Hr. split; try done; simpl; try lia.
  - by constructor.
  - intros _. case_decide; lia.
  - destruct r; [done|]. by subst.
Qed.

Lemma drive_driven self req answers :
  counting self → let '(sent, r) := drive self req answers in driven self req answers sent r.
Proof.
  revert self. induction answers as [|[res withdraw] answers IH]; intros self Hc; simpl.
  { by apply driven_one. }
  destruct (clone_request self req) as [req'|] eqn:Hcl; [|apply driven_one; by eexists].
  apply clone_request_Some in Hcl as (-> & Hlt & [chunk Hb] & Hsc).
  destruct (retry withdraw self req res) as [[self' []] calls] eqn:Hr;
    [|apply driven_one; by eexists].
  apply retry_again in Hr as (-> & Hcls & Hw).
  destruct (counting_bumped self Hc Hlt) as [Hc' Hcnt]. specialize (IH _ Hc').
  destruct (drive (bumped self) req answers) as [sent r].
  destruct IH as [Hsame Hpos Hbound Hscope Hbody Hretry Hres].
  rewrite Hcnt in Hbound, Hscope. cbn [bumped rp_max rp_scope rp_classifier has_budget] in *.
  destruct Hc as [H0 _]. split.
  - by constructor.
  - simpl. lia.
  - rewrite length_cons. lia.
  - intros Hf. specialize (Hscope Hf). rewrite decide_True in Hscope by lia.
    rewrite decide_False; [simpl; lia|]. intros Hp. rewrite Hsc in Hf by done. done.
  - intros (n & x & Heq). congruence.
  - intros [|i] Hi; simpl in *; [by eauto|]. apply Hretry. lia.
  - destruct r as [res'|]; simpl; [|lia]. rewrite Nat.sub_0_r.
    destruct sent as [|q sent]; [simpl in Hpos; lia|]. simpl in *.
    by rewrite Nat.sub_0_r in Hres.
Qed.

(** C36: retries.  Whatever the service and the budget answer, what is sent for a
    request is the request itself, at least once and at most once more than
    the limit of the policy; a request with a streaming body is sent once; a
    request outside the scope of the policy at most twice; it is sent again
    only after a result that the classifier calls retryable and, under a
    budget, when the budget grants it; the result is that of the last one
    sent; and as soon as there are more results than the limit there is
    one. *)
Theorem retry_bounds (policy : Policy) req answers sent r :
  (0 <= p_max_retries_per_request policy < 2 ^ 32)%Z →
  drive (RetryPolicy_new policy) req answers = (sent, r) →
  Forall (λ q, q = req) sent ∧
  (1 <= Z.of_nat (length sent) <= 1 + p_max_retries_per_request policy)%Z ∧
  ((∃ n x, req_body req = Boxed n x) → length sent = 1) ∧
  (applies_to (p_scope policy) req = false → length sent <= 2) ∧
  (∀ i, S i < length sent → ∃ res withdraw, answers !! i = Some (res, withdraw) ∧
     classify (p_classifier policy) req res = ActionRetryable ∧
     (is_Some (p_budget policy) → withdraw = true)) ∧
  (∀ res, r = Some res → ∃ withdraw, answers !! (length sent - 1) = Some (res, withdraw)) ∧
  ((p_max_retries_per_request policy < Z.of_nat (length answers))%Z → is_Some r).
Proof.
  intros Hm Hd. assert (counting (RetryPolicy_new policy)) as Hc by (by split; simpl; lia).
  pose proof (drive_driven _ req answers Hc) as H. rewrite Hd in H.
  destruct H as [Hsame Hpos Hbound Hscope Hbody Hretry Hres].
  cbn [RetryPolicy_new rp_max rp_scope rp_classifier retry_cnt has_budget] in *.
  split_and!; try done; try lia.
  - intros i Hi. destruct (Hretry i Hi) as (res & w & ? & ? & Hw). exists res, w.
    split_and!; try done. intros [b Hb]. apply Hw. by rewrite Hb.
  - intros res ->. done.
  - intros Hlen. destruct r; [by eexists|]. lia.
Qed.

(** A request outside the scope of its policy is still retried once.  The
    scope is asked only when the counter is positive, and the counter is zero
    when the first clone is made: for a policy that is scoped to a host, a
    request to another host with a result the classifier calls retryable is
    sent a second time. *)
Theorem out_of_scope_retried (host : str) (f : ReqRep → Action) (req : Req) chunk res1 res2 :
  uri_host (req_uri req) ≠ Some host → req_body req = Reusable chunk →
  classify (ClassifyDyn f) req res1 = ActionRetryable →
  drive (RetryPolicy_new (classify_fn f (for_host host))) req [(res1, true); (res2, true)] =
    ([req; req], Some res2).
Proof.
  intros Hh Hb Hc. set (self := RetryPolicy_new _).
  assert (clone_request self req = Some req) as H1.
  { destruct req as [m u v h e b]. simpl in Hb. by subst b. }
  assert (retry true self req res1 = (bumped self, true, [Withdraw])) as H2.
  { unfold retry. change (rp_classifier self) with (ClassifyDyn f). by rewrite Hc. }
  assert (clone_request (bumped self) req = None) as H3.
  { unfold clone_request. change (rp_scope (bumped self)) with (p_scope (for_host host)).
    assert (applies_to (p_scope (for_host host)) req = false) as ->; [|done].
    unfold for_host, scoped, p_scope, applies_to. destruct (uri_host (req_uri req)); [|done].
    apply bool_decide_eq_false_2. congruence. }
  cbn [drive]. by rewrite H1, H2, H3.
Qed.
End retry.

Module RetryExamples.
Definition uri (host : str) : Uri :=
  {| uri_scheme := Some HTTPS;
     uri_authority := Some {| auth_str := host; auth_host := host; auth_port := None |};
     uri_path_and_query := Some {| pq_path := #"/"; pq_query := None |} |}.
Definition req : Request unit Body :=
  {| req_method := GET; req_uri := uri #"other.test"; req_version := HTTP_11;
     req_headers := hm_empty; req_ext := tt; req_body := Reusable [] |}.
Definition failed : result (Response unit unit) BoxError := Err (RootError None).
Definition always (_ : ReqRep (E:=unit)) : Action := ActionRetryable.
Definition policy : Policy (E:=unit) (F:=unit) := classify_fn always (no_budget Policy_default).

Lemma retry_bounds_witness :
  ∃ sent r, drive (RetryPolicy_new policy) req [(failed, true); (failed, true); (failed, true)] =
    (sent, r) ∧ (Z.of_nat (length sent) <= 3)%Z ∧ is_Some r.
Proof.
  destruct (drive (RetryPolicy_new policy) req [(failed, true); (failed, true); (failed, true)])
    as [sent r] eqn:Hd.
  exists sent, r. split; [done|].
  destruct (retry_bounds policy req _ sent r ltac:(simpl; lia) Hd) as (_ & Hb & _ & _ & _ & _ & Hr).
  split; [simpl in Hb; lia|]. apply Hr. simpl. lia.
Defined.

Lemma out_of_scope_retried_witness :
  drive (RetryPolicy_new (classify_fn always (for_host tt #"api.test"))) req
    [(failed, true); (failed, true)] = ([req; req], Some failed).
Proof.
  apply (out_of_scope_retried tt #"api.test" always req [] failed failed);
    [by vm_compute | reflexivity | reflexivity].
Defined.
End RetryExamples.
