(* ===== verification/TlsSession.v ===== *)
(** * The TLS session cache

    [src/tls/session.rs]: the default cache of sessions for resumption, a least
    recently used cache for each connection key with a reverse index from
    sessions to keys. *)

From S2P Require Import Prelude Lru.

(** ** Sessions *)
Inductive SslVersion := SSL3 | TLS1 | TLS1_1 | TLS1_2 | TLS1_3.
#[export] Instance SslVersion_eq_dec : EqDecision SslVersion.
Proof. solve_decision. Defined.

(** [TlsSession] with the fields of the [SslSession] that the code reads;
    sessions compare by their identifier. *)
Record TlsSession := {
  s_id : str;
  s_version : SslVersion;
}.

(** [None] is the [unreachable!] of an SSLv3 session. *)
Definition protocol_version (s : TlsSession) : option SslVersion :=
  match s_version s with SSL3 => None | v => Some v end.

Section cache.
Context {K : Type} `{Countable K} {LL : LruLib str}.

(** ** The cache

    Both maps are keyed by the identifier of a session; a session that is put
    again keeps the copy that is stored. *)
Record Inner := {
  reverse : gmap str K;
  per_host_sessions : gmap K (LruCache TlsSession);
}.
Definition Inner_new : Inner := {| reverse := ∅; per_host_sessions := ∅ |}.

Definition new_sessions (capacity : nat) : LruCache TlsSession :=
  lru_new (match capacity with 0 => None | n => Some n end).

Definition put (capacity : nat) (key : K) (session : TlsSession) (inner : Inner) : Inner :=
  let sessions := default (new_sessions capacity) (per_host_sessions inner !! key) in
  let '(evicted, sessions) :=
    if decide (capacity <= lru_len sessions) then lru_pop_lru sessions else (None, sessions) in
  let sessions := lru_get_or_insert_mut session id (s_id session) sessions in
  let rev := match evicted with
             | Some (evicted_session, _) => delete evicted_session (reverse inner)
             | None => reverse inner
             end in
  {| reverse := <[s_id session := key]> rev;
     per_host_sessions := <[key := sessions]> (per_host_sessions inner) |}.

Definition remove_session (session : TlsSession) (inner : Inner) : Inner :=
  match reverse inner !! s_id session with
  | None => inner
  | Some key =>
    {| reverse := delete (s_id session) (reverse inner);
       per_host_sessions :=
         match per_host_sessions inner !! key with
         | None => per_host_sessions inner
         | Some sessions =>
           let sessions := lru_pop (s_id session) sessions in
           if decide (lru_len sessions = 0) then delete key (per_host_sessions inner)
           else <[key := sessions]> (per_host_sessions inner)
         end |}
  end.

(** [pop]: the outer [None] is a panic. *)
Definition pop (key : K) (inner : Inner) : option (option TlsSession * Inner) :=
  match per_host_sessions inner !! key ≫= lru_peek_lru with
  | None => Some (None, inner)
  | Some (_, session) =>
    version ← protocol_version session;
    Some (Some session,
          if decide (version = TLS1_3) then remove_session session inner else inner)
  end.

(** ** Runs

    A cache is used by handshakes that put and pop sessions in any order.
    [owner] gives the key a session is stored under: the server identifies it
    uniquely. *)
Inductive step (capacity : nat) (owner : str → K) (st : Inner) : Inner → Prop :=
| step_put session :
    s_version session ≠ SSL3 → step capacity owner st (put capacity (owner (s_id session)) session st)
| step_pop key r st' : pop key st = Some (r, st') → step capacity owner st st'.
Definition reachable (capacity : nat) (owner : str → K) : Inner → Prop :=
  rtc (step capacity owner) Inner_new.

(** The session with an identifier that a key holds. *)
Definition held (inner : Inner) (key : K) (i : str) : option TlsSession :=
  per_host_sessions inner !! key ≫= lru_peek i.

Record cache_inv (capacity : nat) (owner : str → K) (st : Inner) : Prop := {
  ci_owner key i s : held st key i = Some s →
    key = owner i ∧ s_id s = i ∧ s_version s ≠ SSL3 ∧ reverse st !! i = Some key;
  ci_reverse i key : reverse st !! i = Some key → is_Some (held st key i);
  ci_bound key sessions : per_host_sessions st !! key = Some sessions →
    lru_len sessions ≠ 0 ∧ lru_len sessions <= Nat.max 1 capacity ∧
    lru_cap sessions = match capacity with 0 => None | n => Some n end;
}.

(** ** Facts *)
Implicit Types (c : LruCache TlsSession) (i : str).

Lemma peek_lru_peek c i s : lru_peek_lru c = Some (i, s) → lru_peek i c = Some s.
Proof.
  unfold lru_peek_lru. intros Hl. rewrite lru_peek_spec. apply elem_of_assoc; [apply lru_NoDup|].
  apply last_Some in Hl as [l ->]. set_solver.
Qed.

Lemma lru_len_peek c i s : lru_peek i c = Some s → lru_len c ≠ 0.
Proof.
  rewrite lru_peek_spec. unfold lru_len. by destruct (lru_entries c).
Qed.

Lemma lru_len_zero c i : lru_len c = 0 → lru_peek i c = None.
Proof. rewrite lru_peek_spec. unfold lru_len. by destruct (lru_entries c). Qed.

Lemma peek_lru_None c : lru_peek_lru c = None → lru_len c = 0.
Proof. unfold lru_peek_lru, lru_len. by intros ->%last_None. Qed.

Lemma pop_len c i s : lru_peek i c = Some s → lru_len (lru_pop i c) < lru_len c.
Proof.
  rewrite lru_peek_spec. unfold lru_len. destruct (lru_pop_spec i c) as [-> _].
  intros Hi%length_without_lt. lia.
Qed.

Definition fits (capacity : nat) c : Prop :=
  lru_len c <= Nat.max 1 capacity ∧ lru_cap c = match capacity with 0 => None | n => Some n end.

(** Making room: at most one session goes, and there is room for another. *)
Lemma make_room capacity c :
  fits capacity c →
  let '(evicted, c1) := if decide (capacity <= lru_len c) then lru_pop_lru c else (None, c) in
  lru_len c1 <= Nat.max 1 capacity - 1 ∧ lru_cap c1 = lru_cap c ∧
  (∀ i s, evicted = Some (i, s) → lru_peek i c = Some s) ∧
  ∀ i, lru_peek i c1 = if decide (fst <$> evicted = Some i) then None else lru_peek i c.
Proof.
  intros [Hlen Hcap]. case_decide as Hd; [|split_and!; [lia|done..]].
  unfold lru_pop_lru. destruct (lru_peek_lru c) as [[k s]|] eqn:Hp.
  - apply peek_lru_peek in Hp. pose proof (pop_len _ _ _ Hp).
    split_and!; [lia|apply lru_pop_spec|naive_solver|].
    intros i. rewrite peek_pop. simpl. repeat case_decide; naive_solver.
  - apply peek_lru_None in Hp. split_and!; [lia|done..].
Qed.

(** Storing a session when there is room. *)
Lemma insert_room capacity c session :
  lru_len c <= Nat.max 1 capacity - 1 → lru_cap c = match capacity with 0 => None | n => Some n end →
  let c' := lru_get_or_insert_mut session id (s_id session) c in
  fits capacity c' ∧
  ∀ i, lru_peek i c' = if decide (i = s_id session) then Some (default session (lru_peek i c))
                       else lru_peek i c.
Proof.
  intros Hlen Hcap c'. unfold c', fits, lru_len in *.
  destruct (lru_get_or_insert_mut_spec session id (s_id session) c) as [He ->].
  assert (match lru_cap c with Some n => take (n - 1) (lru_entries c) | None => lru_entries c end =
          lru_entries c) as Htake.
  { rewrite Hcap. destruct capacity as [|n]; [done|]. apply take_ge. lia. }
  rewrite Htake in He. split.
  - split; [|done]. rewrite He. destruct (assoc _ _) eqn:Ha; simpl.
    + apply length_without_lt in Ha. lia.
    + lia.
  - intros i. case_decide as Hi; [subst; by rewrite peek_get_or_insert_mut|].
    rewrite !lru_peek_spec, He. destruct (assoc (s_id session) _) eqn:Ha;
      rewrite assoc_cons, decide_False by done; [|done].
    by rewrite assoc_without, decide_False.
Qed.

(** Storing a session: which sessions the key holds afterwards. *)
Lemma put_held capacity owner st session :
  cache_inv capacity owner st →
  let key := owner (s_id session) in
  let st' := put capacity key session st in
  ∃ evicted sessions,
    per_host_sessions st' = <[key := sessions]> (per_host_sessions st) ∧ fits capacity sessions ∧
    reverse st' = <[s_id session := key]> (match evicted with
                                           | Some i => delete i (reverse st)
                                           | None => reverse st
                                           end) ∧
    (∀ i, evicted = Some i → is_Some (held st key i)) ∧
    ∀ i, lru_peek i sessions =
      if decide (i = s_id session)
      then Some (default session (if decide (evicted = Some i) then None else held st key i))
      else if decide (evicted = Some i) then None else held st key i.
Proof.
  intros [_ _ Hbound] key st'. unfold st', put. clear st'.
  set (c := default (new_sessions capacity) (per_host_sessions st !! key)).
  assert (fits capacity c ∧ ∀ i, lru_peek i c = held st key i) as [Hfit Hheld].
  { unfold c, held. destruct (per_host_sessions st !! key) as [c'|] eqn:Hk; simpl.
    - by apply Hbound in Hk as (_ & ? & ?).
    - unfold new_sessions, fits, lru_len. destruct (lru_new_spec (V:=TlsSession)
        match capacity with 0 => None | n => Some n end) as [-> ->].
      split; [simpl; split; [lia|done]|]. intros i. apply peek_new. }
  pose proof (make_room capacity c Hfit) as Hroom.
  destruct (if decide (capacity <= lru_len c) then _ else _) as [evicted c1].
  destruct Hroom as (Hlen & Hcap & Hev & Hpeek).
  destruct Hfit as [_ Hcap0]. rewrite Hcap0 in Hcap.
  destruct (insert_room capacity c1 session Hlen Hcap) as [Hfit' Hpeek'].
  exists (fst <$> evicted), (lru_get_or_insert_mut session id (s_id session) c1).
  split_and!; [done|done| | |].
  - by destruct evicted as [[]|].
  - intros i (p & -> & ->)%fmap_Some. destruct p as [i s]. simpl. rewrite <- Hheld.
    by rewrite (Hev i s).
  - intros i. rewrite Hpeek', Hpeek, Hheld. done.
Qed.

Lemma put_inv capacity owner st session :
  s_version session ≠ SSL3 → cache_inv capacity owner st →
  cache_inv capacity owner (put capacity (owner (s_id session)) session st).
Proof.
  intros Hver Hinv. destruct (put_held capacity owner st session Hinv)
    as (evicted & sessions & Hper & Hfit & Hrev & Hev & Hpeek).
  set (key := owner (s_id session)) in *. set (st' := put _ _ _ _) in *.
  destruct Hinv as [Hown Hback Hbound].
  assert (∀ k i, held st' k i = if decide (k = key) then lru_peek i sessions else held st k i) as Hheld.
  { intros k i. unfold held. rewrite Hper. case_decide; subst.
    - by rewrite lookup_insert_eq.
    - by rewrite lookup_insert_ne. }
  assert (∀ i, reverse st' !! i = if decide (i = s_id session) then Some key
    else if decide (evicted = Some i) then None else reverse st !! i) as Hrev'.
  { intros i. rewrite Hrev, lookup_insert. repeat case_decide; simplify_eq; try done.
    - by rewrite lookup_delete_eq.
    - destruct evicted; [|done]. rewrite lookup_delete_ne; [done|]. congruence. }
  split.
  - intros k i s. rewrite Hheld, Hrev'. case_decide as Hk.
    + subst k. rewrite Hpeek. destruct (decide (i = s_id session)) as [->|Hi].
      * intros [= <-]. case_decide; [done|]. destruct (held st key (s_id session)) as [s'|] eqn:Hs; [|done].
        simpl. apply Hown in Hs as (_ & ? & ? & _). done.
      * case_decide; [done|]. intros Hs. by apply Hown in Hs.
    + intros Hs. destruct (Hown _ _ _ Hs) as (Hki & ? & ? & ?).
      rewrite decide_False by (intros ->; done).
      rewrite decide_False; [done|]. intros [s' Hs']%Hev. apply Hown in Hs' as [? _]. congruence.
  - intros i k. rewrite Hheld, Hrev', Hpeek. destruct (decide (i = s_id session)) as [->|Hi].
    + intros [= <-]. rewrite decide_True by done. by eexists.
    + destruct (decide (evicted = Some i)); [done|]. intros Hr%Hback. case_decide; by subst.
  - intros k c. rewrite Hper, lookup_insert_Some. intros [[-> ->]|[_ Hc]]; [|by apply Hbound in Hc].
    destruct Hfit as [Hlen Hcap]. split_and!; try done.
    eapply (lru_len_peek _ (s_id session)). by rewrite Hpeek, decide_True.
Qed.

Lemma remove_session_inv capacity owner st key s :
  cache_inv capacity owner st → held st key (s_id s) = Some s →
  let st' := remove_session s st in
  cache_inv capacity owner st' ∧
  ∀ k i, held st' k i = if decide (i = s_id s) then None else held st k i.
Proof.
  intros [Hown Hback Hbound] Hs. destruct (Hown _ _ _ Hs) as (_ & _ & _ & Hr).
  unfold remove_session. rewrite Hr.
  destruct (per_host_sessions st !! key) as [c|] eqn:Hc; [|unfold held in Hs; by rewrite Hc in Hs].
  set (per := if decide _ then _ else _).
  assert (∀ k i, per !! k ≫= lru_peek i = if decide (i = s_id s) then None else held st k i) as Hheld.
  { intros k i. destruct (decide (k = key)) as [->|Hk].
    - assert (held st key i = lru_peek i c) as -> by (unfold held; by rewrite Hc).
      rewrite <- (peek_pop (s_id s) c i). unfold per. case_decide as Hz.
      + rewrite lookup_delete_eq. simpl. symmetry. by apply lru_len_zero.
      + by rewrite lookup_insert_eq.
    - assert (per !! k = per_host_sessions st !! k) as ->.
      { unfold per. case_decide; [by rewrite lookup_delete_ne | by rewrite lookup_insert_ne]. }
      fold (held st k i). case_decide as Hi; [|done]. subst i.
      destruct (held st k (s_id s)) as [s'|] eqn:Hs'; [|done].
      apply Hown in Hs' as [-> _]. by apply Hown in Hs as [-> _]. }
  split; [|exact Hheld]. split; cbn [reverse per_host_sessions].
  - intros k i s'. unfold held. cbn [per_host_sessions]. rewrite Hheld. case_decide; [done|].
    intros Hs'. rewrite lookup_delete_ne by done. by apply Hown.
  - intros i k. rewrite lookup_delete_Some. intros [Hne Hi]. unfold held. cbn [per_host_sessions].
    rewrite Hheld, decide_False by done. by apply Hback.
  - intros k c'. unfold per. case_decide as Hz.
    + rewrite lookup_delete_Some. intros [_ Hk]. by apply Hbound in Hk.
    + rewrite lookup_insert_Some. intros [[-> <-]|[_ Hk]]; [|by apply Hbound in Hk].
      destruct (Hbound _ _ Hc) as (_ & Hlen & Hcap). destruct (lru_pop_spec (s_id s) c) as [_ ->].
      assert (lru_peek (s_id s) c = Some s) as Hp by (unfold held in Hs; by rewrite Hc in Hs).
      apply pop_len in Hp. split_and!; [done|lia|done].
Qed.

Lemma session_pop_spec capacity owner st key :
  cache_inv capacity owner st →
  ∃ r st', pop key st = Some (r, st') ∧ cache_inv capacity owner st' ∧
  match r with
  | None => st' = st ∧ ∀ i, held st key i = None
  | Some s => held st key (s_id s) = Some s ∧
    ∀ k i, held st' k i =
      if decide (i = s_id s ∧ s_version s = TLS1_3) then None else held st k i
  end.
Proof.
  intros Hinv. unfold pop.
  destruct (per_host_sessions st !! key ≫= lru_peek_lru) as [[i s]|] eqn:Hp.
  - apply bind_Some in Hp as (c & Hc & Hl). apply peek_lru_peek in Hl.
    assert (held st key i = Some s) as Hs by (unfold held; by rewrite Hc).
    destruct (ci_owner _ _ _ Hinv _ _ _ Hs) as (_ & <- & Hv & _).
    assert (protocol_version s = Some (s_version s)) as Hpv by (unfold protocol_version; by destruct (s_version s)).
    rewrite Hpv. cbn [mbind option_bind]. case_decide as Ht.
    + destruct (remove_session_inv _ _ _ _ _ Hinv Hs) as [Hinv' Hheld].
      eexists _, _. split; [done|]. split; [done|]. split; [done|].
      intros k i. rewrite Hheld. repeat case_decide; naive_solver.
    + eexists _, _. split; [done|]. split; [done|]. split; [done|].
      intros k i. rewrite decide_False; [done|naive_solver].
  - exists None, st. split_and!; try done. intros i. unfold held.
    destruct (per_host_sessions st !! key) as [c|] eqn:Hc; [|done]. simpl in *.
    by apply peek_lru_None, lru_len_zero with (i:=i) in Hp.
Qed.

Lemma reachable_inv capacity owner st : reachable capacity owner st → cache_inv capacity owner st.
Proof.
  revert st. apply rtc_ind_r.
  - by split.
  - intros st st' _ [session Hv|key r st'' Hp] Hinv; [by apply put_inv|].
    destruct (session_pop_spec capacity owner st key Hinv) as (r' & st1 & Hp' & Hinv' & _).
    by simplify_eq.
Qed.


(** the size and the index of the session cache.  In every cache that
    handshakes can build, each key holds at least one session and at most as
    many as its capacity (one, for a capacity of zero), and the reverse index
    names exactly the sessions that are held, each with its key: nothing
    leaks when sessions are evicted or taken out; and a session that is put
    can be taken out again. *)
Theorem session_cache_bounds capacity owner st :
  reachable capacity owner st →
  (∀ key sessions, per_host_sessions st !! key = Some sessions →
     1 <= lru_len sessions <= Nat.max 1 capacity) ∧
  (∀ key i, reverse st !! i = Some key ↔ is_Some (held st key i)) ∧
  (∀ session, s_version session ≠ SSL3 →
     is_Some (held (put capacity (owner (s_id session)) session st)
                (owner (s_id session)) (s_id session))).
Proof.
  intros Hr. pose proof (reachable_inv _ _ _ Hr) as Hinv. split_and!.
  - intros key sessions Hk. apply (ci_bound _ _ _ Hinv) in Hk as (? & ? & _). lia.
  - intros key i. split; [apply (ci_reverse _ _ _ Hinv)|].
    intros [s Hs]. by apply (ci_owner _ _ _ Hinv) in Hs as (_ & _ & _ & ?).
  - intros session Hv. pose proof (put_inv _ _ _ _ Hv Hinv) as Hinv'.
    apply (ci_reverse _ _ _ Hinv'). unfold put. destruct (if decide _ then _ else _) as [[[]|] ?];
      simpl; by rewrite lookup_insert_eq.
Qed.
End cache.

Module TlsSessionExamples.
Definition session (i : str) (v : SslVersion) : TlsSession := {| s_id := i; s_version := v |}.
Definition ticket := session #"ticket" TLS1_3.
Definition st : Inner (K:=nat) := put 2 1 (session #"old" TLS1_2) (put 2 1 ticket Inner_new).
Definition owner (_ : str) : nat := 1.

Lemma reachable_st : reachable 2 owner st.
Proof.
  unfold st. eapply rtc_r; [eapply rtc_r; [apply rtc_refl|]|].
  - by apply (step_put 2 owner Inner_new ticket).
  - by apply (step_put 2 owner (put 2 1 ticket Inner_new) (session #"old" TLS1_2)).
Qed.


Lemma session_cache_bounds_witness :
  match per_host_sessions st !! 1 with
  | Some sessions => lru_len sessions <= 2
  | None => False
  end.
Proof.
  destruct (session_cache_bounds 2 owner st reachable_st) as (Hb & _).
  destruct (per_host_sessions st !! 1) as [sessions|] eqn:Hs; [|by vm_compute in Hs].
  apply Hb in Hs. simpl in Hs. lia.
Defined.

(** A TLS 1.3 session whose identifier is stored under two keys is handed
    out again and again: the reverse index knows the last key only, so taking
    it out under the first key removes the copy of the second. *)
Theorem session_two_keys_reused :
  let st0 := put 2 2 ticket (put 2 1 ticket (Inner_new (K:=nat))) in
  ∃ st1 st2, pop 1 st0 = Some (Some ticket, st1) ∧ pop 1 st1 = Some (Some ticket, st2).
Proof.
  intros st0. assert (∀ x : option (option TlsSession * Inner (K:=nat)),
    fst <$> x = Some (Some ticket) → ∃ st', x = Some (Some ticket, st')) as Hx.
  { intros [[r st']|] Heq; simplify_eq/=. by eexists. }
  assert (∃ st1, pop 1 st0 = Some (Some ticket, st1)) as [st1 H1] by (apply Hx; by vm_compute).
  assert (fst <$> (pop 1 st0 ≫= λ p, pop 1 p.2) = Some (Some ticket)) as H2 by (by vm_compute).
  rewrite H1 in H2. simpl in H2. destruct (Hx _ H2) as [st2 Hst2]. by exists st1, st2.
Qed.
End TlsSessionExamples.
