(* ===== verification/Tls.v ===== *)
(** * TLS connectors

    [src/tls.rs], [src/tls/conn.rs] with [conn/ext.rs] and [conn/macros.rs]: the
    options of a handshake, building a TLS context from them, and preparing the
    handshake of one connection.

    The TLS library is outside: a context and a handshake configuration are
    known by the operations done on them, and the library answers an operation
    with an error or without one. *)

From S2P Require Import Prelude Http Errors Net Ext Dns Group Lru TlsSession.

(** ** Protocols *)
Record AlpnProtocol := { alpn_bytes : str }.
#[export] Instance AlpnProtocol_eq_dec : EqDecision AlpnProtocol.
Proof. solve_decision. Defined.
Definition ALPN_HTTP1 : AlpnProtocol := {| alpn_bytes := #"http/1.1" |}.
Definition ALPN_HTTP2 : AlpnProtocol := {| alpn_bytes := #"h2" |}.
Definition ALPN_HTTP3 : AlpnProtocol := {| alpn_bytes := #"h3" |}.

(** [len as u8] keeps the low byte. *)
Fixpoint encode_sequence (items : list AlpnProtocol) : str :=
  match items with
  | [] => []
  | item :: items =>
    chr (N.of_nat (length (alpn_bytes item)) mod 256) :: alpn_bytes item ++ encode_sequence items
  end.
Definition encode (self : AlpnProtocol) : str := encode_sequence [self].

Record AlpsProtocol := { alps_bytes : str }.

(** ** Options

    Key shares, cipher suites, extensions and algorithms are the numbers of the
    TLS library. *)
Inductive EchGrease :=
| EchDefault
| EchAead (aead : Z)
| NssPre3127
| Nss3127.
#[export] Instance EchGrease_eq_dec : EqDecision EchGrease.
Proof. solve_decision. Defined.

Record TlsOptions := {
  o_alpn_protocols : option (list AlpnProtocol);
  o_alps_protocols : option (list AlpsProtocol);
  o_alps_use_new_codepoint : bool;
  o_session_ticket : bool;
  o_min_tls_version : option SslVersion;
  o_max_tls_version : option SslVersion;
  o_psk_dhe_ke : bool;
  o_psk_skip_session_ticket : bool;
  o_pre_shared_key : bool;
  o_ech_grease : option EchGrease;
  o_permute_extensions : option bool;
  o_grease_enabled : option bool;
  o_grease_sigalgs_enabled : option bool;
  o_enable_ocsp_stapling : bool;
  o_enable_signed_cert_timestamps : bool;
  o_record_size_limit : option Z;
  o_key_shares : option (list Z);
  o_trust_anchors : option str;
  o_server_padding : option Z;
  o_renegotiation : bool;
  o_delegated_credentials : option str;
  o_curves_list : option str;
  o_sigalgs_list : option str;
  o_cipher_list : option str;
  o_tls13_cipher_list : option (list Z);
  o_certificate_compressors : option (list Z);
  o_extension_permutation : option (list Z);
}.
Definition TlsOptions_default : TlsOptions := {|
  o_alpn_protocols := Some [ALPN_HTTP2; ALPN_HTTP1];
  o_alps_protocols := None;
  o_alps_use_new_codepoint := false;
  o_session_ticket := true;
  o_min_tls_version := None;
  o_max_tls_version := None;
  o_psk_dhe_ke := true;
  o_psk_skip_session_ticket := false;
  o_pre_shared_key := false;
  o_ech_grease := None;
  o_permute_extensions := None;
  o_grease_enabled := None;
  o_grease_sigalgs_enabled := None;
  o_enable_ocsp_stapling := false;
  o_enable_signed_cert_timestamps := false;
  o_record_size_limit := None;
  o_key_shares := None;
  o_trust_anchors := None;
  o_server_padding := None;
  o_renegotiation := true;
  o_delegated_credentials := None;
  o_curves_list := None;
  o_sigalgs_list := None;
  o_cipher_list := None;
  o_tls13_cipher_list := None;
  o_certificate_compressors := None;
  o_extension_permutation := None;
|}.

(** [TlsOptionsBuilder]: the options being built. *)
Definition TlsOptions_builder : TlsOptions := TlsOptions_default.
Definition opt_alpn_protocols (v : list AlpnProtocol) (o : TlsOptions) : TlsOptions :=
  o <| o_alpn_protocols := Some v |>.
Definition opt_alps_protocols (v : list AlpsProtocol) (o : TlsOptions) : TlsOptions :=
  o <| o_alps_protocols := Some v |>.
Definition opt_alps_use_new_codepoint (v : bool) (o : TlsOptions) : TlsOptions :=
  o <| o_alps_use_new_codepoint := v |>.
Definition opt_session_ticket (v : bool) (o : TlsOptions) : TlsOptions :=
  o <| o_session_ticket := v |>.
Definition opt_min_tls_version (v : option SslVersion) (o : TlsOptions) : TlsOptions :=
  o <| o_min_tls_version := v |>.
Definition opt_max_tls_version (v : option SslVersion) (o : TlsOptions) : TlsOptions :=
  o <| o_max_tls_version := v |>.
Definition opt_ech_grease (v : option EchGrease) (o : TlsOptions) : TlsOptions :=
  o <| o_ech_grease := v |>.
Definition opt_permute_extensions (v : option bool) (o : TlsOptions) : TlsOptions :=
  o <| o_permute_extensions := v |>.
Definition opt_grease_enabled (v : option bool) (o : TlsOptions) : TlsOptions :=
  o <| o_grease_enabled := v |>.
Definition opt_grease_sigalgs_enabled (v : option bool) (o : TlsOptions) : TlsOptions :=
  o <| o_grease_sigalgs_enabled := v |>.
Definition opt_enable_ocsp_stapling (v : bool) (o : TlsOptions) : TlsOptions :=
  o <| o_enable_ocsp_stapling := v |>.
Definition opt_enable_signed_cert_timestamps (v : bool) (o : TlsOptions) : TlsOptions :=
  o <| o_enable_signed_cert_timestamps := v |>.
Definition opt_record_size_limit (v : option Z) (o : TlsOptions) : TlsOptions :=
  o <| o_record_size_limit := v |>.
Definition opt_psk_dhe_ke (v : bool) (o : TlsOptions) : TlsOptions := o <| o_psk_dhe_ke := v |>.
Definition opt_pre_shared_key (v : bool) (o : TlsOptions) : TlsOptions :=
  o <| o_pre_shared_key := v |>.
Definition opt_psk_skip_session_ticket (v : bool) (o : TlsOptions) : TlsOptions :=
  o <| o_psk_skip_session_ticket := v |>.
Definition opt_renegotiation (v : bool) (o : TlsOptions) : TlsOptions :=
  o <| o_renegotiation := v |>.
Definition opt_delegated_credentials (v : str) (o : TlsOptions) : TlsOptions :=
  o <| o_delegated_credentials := Some v |>.
Definition opt_key_shares (v : list Z) (o : TlsOptions) : TlsOptions :=
  o <| o_key_shares := Some v |>.
Definition opt_trust_anchors (v : str) (o : TlsOptions) : TlsOptions :=
  o <| o_trust_anchors := Some v |>.
Definition opt_server_padding (v : option Z) (o : TlsOptions) : TlsOptions :=
  o <| o_server_padding := v |>.
Definition opt_curves_list (v : str) (o : TlsOptions) : TlsOptions :=
  o <| o_curves_list := Some v |>.
Definition opt_sigalgs_list (v : str) (o : TlsOptions) : TlsOptions :=
  o <| o_sigalgs_list := Some v |>.
Definition opt_cipher_list (v : str) (o : TlsOptions) : TlsOptions :=
  o <| o_cipher_list := Some v |>.
Definition opt_tls13_cipher_list (v : list Z) (o : TlsOptions) : TlsOptions :=
  o <| o_tls13_cipher_list := Some v |>.
Definition opt_certificate_compressors (v : list Z) (o : TlsOptions) : TlsOptions :=
  o <| o_certificate_compressors := Some v |>.
Definition opt_extension_permutation (v : list Z) (o : TlsOptions) : TlsOptions :=
  o <| o_extension_permutation := Some v |>.

(** [Identity] and [CertStore], with certificates as their bytes. *)
Record Identity := {
  pkey : str;
  cert : str;
  chain : list str;
}.
Abbreviation CertStore := (list str).
Record HandshakeSettings := {
  no_ticket : bool;
  ech_grease : option EchGrease;
  verify_hostname : bool;
  tls_sni : bool;
  alpn_protocols : option (list AlpnProtocol);
  alps_protocols : option (list AlpsProtocol);
  alps_use_new_codepoint : bool;
  key_shares : option (list Z);
  server_padding : option Z;
}.

(** ** The context *)
Inductive SslOption := NO_TICKET | NO_PSK_DHE_KE | NO_RENEGOTIATION.
Inductive CtxOp :=
| SetCertificate (c : str) | SetPrivateKey (k : str) | AddExtraChainCert (c : str)
| SetCertStore (store : CertStore) | SetDefaultVerifyPaths
| SetVerify (peer : bool)
| AddCompressor (alg : Z)
| SetTrustAnchors (ids : str)
| SetMinVersion (v : option SslVersion) | SetMaxVersion (v : option SslVersion)
| EnableOcsp | EnableSct
| SetOption (o : SslOption)
| SetGrease (b : bool) | SetGreaseSigalgs (b : bool) | SetPermuteExtensions (b : bool)
| SetCurves (l : str) | SetSigalgs (l : str) | SetCipherList (l : str) | SetTls13Ciphers (l : list Z)
| SetDelegatedCredentials (l : str) | SetRecordSizeLimit (n : Z)
| SetExtensionPermutation (l : list Z)
| SetEchCallback (policy : EchGrease)
| SetKeylogCallback
| SetSessionCacheClient | SetNewSessionCallback.

Section build.
(** The error of an operation, the roots of the crate features (without them the
    paths of the system are used), and opening the key log. *)
Context {KeyLog : Type}.
Context (lib : CtxOp → option BoxError) (bundled : option CertStore).
Context (keylog_handle : KeyLog → result unit BoxError).

Record TlsConnectorBuilder := {
  b_alpn_protocol : option AlpnProtocol;
  b_max_version : option SslVersion;
  b_min_version : option SslVersion;
  b_tls_sni : bool;
  b_verify_hostname : bool;
  b_identity : option Identity;
  b_cert_store : option CertStore;
  b_cert_verification : bool;
  b_keylog : option KeyLog;
}.
Definition TlsConnector_builder : TlsConnectorBuilder :=
  {| b_alpn_protocol := None; b_max_version := None; b_min_version := None; b_tls_sni := true;
     b_verify_hostname := true; b_identity := None; b_cert_store := None;
     b_cert_verification := true; b_keylog := None |}.

Definition builder_alpn_protocol (v : option AlpnProtocol) (self : TlsConnectorBuilder) : TlsConnectorBuilder :=
  self <| b_alpn_protocol := v |>.
Definition builder_keylog (v : option KeyLog) (self : TlsConnectorBuilder) : TlsConnectorBuilder :=
  self <| b_keylog := v |>.
Definition builder_identity (v : option Identity) (self : TlsConnectorBuilder) : TlsConnectorBuilder :=
  self <| b_identity := v |>.
Definition builder_cert_store (v : option CertStore) (self : TlsConnectorBuilder) : TlsConnectorBuilder :=
  self <| b_cert_store := v |>.
Definition builder_cert_verification (v : bool) (self : TlsConnectorBuilder) : TlsConnectorBuilder :=
  self <| b_cert_verification := v |>.
Definition builder_min_version (v : option SslVersion) (self : TlsConnectorBuilder) : TlsConnectorBuilder :=
  self <| b_min_version := v |>.
Definition builder_max_version (v : option SslVersion) (self : TlsConnectorBuilder) : TlsConnectorBuilder :=
  self <| b_max_version := v |>.
Definition builder_tls_sni (v : bool) (self : TlsConnectorBuilder) : TlsConnectorBuilder :=
  self <| b_tls_sni := v |>.
Definition builder_verify_hostname (v : bool) (self : TlsConnectorBuilder) : TlsConnectorBuilder :=
  self <| b_verify_hostname := v |>.

(** [TlsConnector]: the operations that made its context, whether sessions are
    cached, and the settings of handshakes. *)
Record TlsConnector := {
  tc_ssl : list CtxOp;
  tc_cache : bool;
  tc_settings : HandshakeSettings;
}.

Abbreviation CtxM := (Prog CtxOp BoxError).
(** An operation that cannot fail, and one whose error is wrapped. *)
Definition ctx (op : CtxOp) : CtxM unit := prog_op (λ _, Ok tt) op.
Definition ctx_try (op : CtxOp) : CtxM unit :=
  prog_op (λ op, match lib op with Some e => Err (Error_tls e) | None => Ok tt end) op.

Definition set_identity (identity : option Identity) : CtxM unit :=
  prog_option identity (λ identity,
    ctx_try (SetCertificate (cert identity)) ;;;
    ctx_try (SetPrivateKey (pkey identity)) ;;;
    prog_iter (λ c, ctx_try (AddExtraChainCert c)) (chain identity)).
Definition set_cert_store (store : option CertStore) : CtxM unit :=
  match store with
  | Some store => ctx (SetCertStore store)
  | None =>
    match bundled with
    | Some store => ctx (SetCertStore store)
    | None => ctx_try SetDefaultVerifyPaths
    end
  end.
Definition set_cert_verification (enable : bool) : CtxM unit := ctx (SetVerify enable).
Definition set_cert_compressors (compressors : option (list Z)) : CtxM unit :=
  prog_option compressors (prog_iter (λ c, ctx_try (AddCompressor c))).
(** The macro [set_bool]. *)
Definition ctx_when (b : bool) (op : CtxOp) : CtxM unit := if b then ctx op else prog_ret tt.

Definition option_or {A} (a b : option A) : option A := match a with Some _ => a | None => b end.
Definition tls_build (self : TlsConnectorBuilder) (opts : TlsOptions) : CtxM TlsConnector :=
  set_identity (b_identity self) ;;;
  set_cert_store (b_cert_store self) ;;;
  set_cert_verification (b_cert_verification self) ;;;
  set_cert_compressors (o_certificate_compressors opts) ;;;
  prog_option (o_trust_anchors opts) (λ ids, ctx_try (SetTrustAnchors ids)) ;;;
  ctx_try (SetMinVersion (option_or (o_min_tls_version opts) (b_min_version self))) ;;;
  ctx_try (SetMaxVersion (option_or (o_max_tls_version opts) (b_max_version self))) ;;;
  ctx_when (o_enable_ocsp_stapling opts) EnableOcsp ;;;
  ctx_when (o_enable_signed_cert_timestamps opts) EnableSct ;;;
  ctx_when (negb (o_session_ticket opts)) (SetOption NO_TICKET) ;;;
  ctx_when (negb (o_psk_dhe_ke opts)) (SetOption NO_PSK_DHE_KE) ;;;
  ctx_when (negb (o_renegotiation opts)) (SetOption NO_RENEGOTIATION) ;;;
  prog_option (o_grease_enabled opts) (λ b, ctx (SetGrease b)) ;;;
  prog_option (o_grease_sigalgs_enabled opts) (λ b, ctx (SetGreaseSigalgs b)) ;;;
  prog_option (o_permute_extensions opts) (λ b, ctx (SetPermuteExtensions b)) ;;;
  prog_option (o_curves_list opts) (λ l, ctx_try (SetCurves l)) ;;;
  prog_option (o_sigalgs_list opts) (λ l, ctx_try (SetSigalgs l)) ;;;
  prog_option (o_cipher_list opts) (λ l, ctx_try (SetCipherList l)) ;;;
  prog_option (o_tls13_cipher_list opts) (λ l, ctx_try (SetTls13Ciphers l)) ;;;
  prog_option (o_delegated_credentials opts) (λ l, ctx_try (SetDelegatedCredentials l)) ;;;
  prog_option (o_record_size_limit opts) (λ n, ctx (SetRecordSizeLimit n)) ;;;
  prog_option (o_extension_permutation opts) (λ l, ctx_try (SetExtensionPermutation l)) ;;;
  prog_option (o_ech_grease opts)
    (λ policy, ctx_when (negb (bool_decide (policy = EchDefault))) (SetEchCallback policy)) ;;;
  prog_option (b_keylog self)
    (λ policy, prog_lift (map_err Error_tls (keylog_handle policy)) ;;; ctx SetKeylogCallback) ;;;
  (if o_pre_shared_key opts then ctx SetSessionCacheClient ;;; ctx SetNewSessionCallback
   else prog_ret tt) ;;;
  λ log, (Ok {|
    tc_ssl := log;
    tc_cache := o_pre_shared_key opts;
    tc_settings := {|
      no_ticket := o_psk_skip_session_ticket opts;
      ech_grease := o_ech_grease opts;
      verify_hostname := b_verify_hostname self;
      tls_sni := b_tls_sni self;
      alpn_protocols :=
        match b_alpn_protocol self with Some p => Some [p] | None => o_alpn_protocols opts end;
      alps_protocols := o_alps_protocols opts;
      alps_use_new_codepoint := o_alps_use_new_codepoint opts;
      key_shares := o_key_shares opts;
      server_padding := o_server_padding opts |} |}, log).
End build.
Arguments TlsConnectorBuilder : clear implicits.

(** [no_alpn] of [HttpsConnector]. *)
Definition no_alpn (tls : TlsConnector) : TlsConnector :=
  let s := tc_settings tls in
  {| tc_ssl := tc_ssl tls; tc_cache := tc_cache tls;
     tc_settings := {|
       no_ticket := no_ticket s; ech_grease := ech_grease s; verify_hostname := verify_hostname s;
       tls_sni := tls_sni s; alpn_protocols := None; alps_protocols := alps_protocols s;
       alps_use_new_codepoint := alps_use_new_codepoint s; key_shares := key_shares s;
       server_padding := server_padding s |} |}.

(** ** One handshake *)
Section handshake.
(** The keys [K] of the session cache. *)
Context {K : Type}.
Inductive CfgOp :=
| Configure
| SetServerNameIndication (b : bool) | SetVerifyHostname (b : bool)
| SetAlpnProtos (protos : str)
| AddApplicationSettings (p : str) | SetAlpsNewCodepoint (b : bool)
| SetKeyShares (l : list Z)
| EnableEchGrease | HostLengthIndex | SetHostLength (n : nat)
| PopSession (key : K) | SetSession (s : TlsSession) | SetNoTicket
| KeyIndex | SetKey (key : K)
| IntoSsl (host : str)
| SetServerPadding (n : Z).

Context (cfg_lib : CfgOp → option BoxError) (cache_pop : K → option TlsSession).
Abbreviation CfgM := (Prog CfgOp BoxError).
Definition cfg (op : CfgOp) : CfgM unit := prog_op (λ _, Ok tt) op.
Definition cfg_try (op : CfgOp) : CfgM unit :=
  prog_op (λ op, match cfg_lib op with Some e => Err e | None => Ok tt end) op.

Definition normalize_host (host : str) : str :=
  let normalized := strip_ipv6_brackets host in
  if negb (bool_decide (length normalized = length host)) &&
     bool_decide (is_Some (parse_ipv6 normalized))
  then normalized else host.
Definition missing_host : BoxError := [NOther #"URI missing host"].
Definition ok_or {A E} (o : option A) (e : E) : result A E :=
  match o with Some a => Ok a | None => Err e end.

(** The result is the connection's TLS object: what was done to configure it. *)
Definition setup_ssl (uri : Uri) : CfgM (list CfgOp) :=
  cfg_try Configure ;;;
  host ←! prog_lift (ok_or (uri_host uri) missing_host) ;
  cfg_try (IntoSsl (normalize_host host)) ;;;
  λ log, (Ok log, log).

Definition alpn_for (version : Version) : option str :=
  match version with
  | HTTP_11 | HTTP_10 | HTTP_09 => Some (encode ALPN_HTTP1)
  | HTTP_2 => Some (encode ALPN_HTTP2)
  | HTTP_3 => Some (encode ALPN_HTTP3)
  end.
(** The part that looks for a session to resume. *)
Definition resume (self : TlsConnector) (key : K) : CfgM unit :=
  if tc_cache self then
    session ←! prog_op (λ _, Ok (cache_pop key)) (PopSession key) ;
    prog_option session (λ session,
      cfg_try (SetSession session) ;;;
      if no_ticket (tc_settings self) then cfg SetNoTicket else prog_ret tt) ;;;
    cfg_try KeyIndex ;;; cfg (SetKey key)
  else prog_ret tt.
(** [setup_ssl2] for a descriptor with this URI, version and key. *)
Definition setup_ssl2 (self : TlsConnector) (uri : Uri) (version : option Version) (key : K) :
    CfgM (list CfgOp) :=
  let settings := tc_settings self in
  cfg_try Configure ;;;
  cfg (SetServerNameIndication (tls_sni settings)) ;;;
  cfg (SetVerifyHostname (verify_hostname settings)) ;;;
  match version with
  | Some version => prog_option (alpn_for version) (λ protos, cfg_try (SetAlpnProtos protos))
  | None =>
    prog_option (alpn_protocols settings) (λ l, cfg_try (SetAlpnProtos (encode_sequence l)))
  end ;;;
  prog_option (alps_protocols settings) (λ alps,
    prog_iter (λ p, cfg_try (AddApplicationSettings (alps_bytes p))) alps ;;;
    match alps with
    | [] => prog_ret tt
    | _ => cfg (SetAlpsNewCodepoint (alps_use_new_codepoint settings))
    end) ;;;
  prog_option (key_shares settings) (λ l, cfg_try (SetKeyShares l)) ;;;
  host ←! prog_lift (ok_or (uri_host uri) missing_host) ;
  let host := normalize_host host in
  prog_option (ech_grease settings) (λ _,
    cfg EnableEchGrease ;;; cfg_try HostLengthIndex ;;; cfg (SetHostLength (length host))) ;;;
  resume self key ;;;
  cfg_try (IntoSsl host) ;;;
  prog_option (server_padding settings) (λ n, cfg (SetServerPadding n)) ;;;
  λ log, (Ok log, log).
End handshake.
Arguments CfgOp : clear implicits.

(** ** The wire form of protocol lists *)

(** A reader of the list: each name is preceded by its length. *)
Fixpoint decode_fuel (fuel : nat) (s : str) : option (list AlpnProtocol) :=
  match fuel, s with
  | _, [] => Some []
  | 0, _ => None
  | S fuel, n :: s =>
    let n := N.to_nat (ord n) in
    if decide (0 < n ∧ n ≤ length s)
    then cons {| alpn_bytes := take n s |} <$> decode_fuel fuel (drop n s)
    else None
  end.
Definition decode_sequence (s : str) : option (list AlpnProtocol) := decode_fuel (length s) s.

Lemma decode_fuel_encode l fuel :
  Forall (λ p, 0 < length (alpn_bytes p) < 256) l → length (encode_sequence l) ≤ fuel →
  decode_fuel fuel (encode_sequence l) = Some l.
Proof.
  revert fuel. induction l as [|[p] l IH]; intros fuel Hl Hf; [by destruct fuel|].
  apply Forall_cons in Hl as [Hp Hl]. cbn [alpn_bytes] in Hp.
  cbn [encode_sequence alpn_bytes length] in *. rewrite length_app in Hf.
  destruct fuel as [|fuel]; [lia|]. cbn [decode_fuel].
  assert (N.to_nat (ord (chr (N.of_nat (length p) mod 256))) = length p) as ->.
  { unfold ord, chr. rewrite N_ascii_embedding; [|apply N.mod_lt; lia].
    rewrite N.mod_small by lia. lia. }
  rewrite decide_True by (rewrite length_app; lia).
  rewrite take_app_length, drop_app_length, IH by (done || lia). done.
Qed.

(** A list of protocol names is encoded so that it can be read back, for names
    of 1 to 255 bytes; the three names of the crate are such names. *)
Theorem alpn_roundtrip l :
  Forall (λ p, 0 < length (alpn_bytes p) < 256) l →
  decode_sequence (encode_sequence l) = Some l.
Proof. intros Hl. by apply decode_fuel_encode. Qed.

(** ** What a context is made of *)
Section context.
Context {KeyLog : Type}.
Context (lib : CtxOp → option BoxError) (bundled : option CertStore).
Context (keylog_handle : KeyLog → result unit BoxError).
Abbreviation tls_build' := (tls_build lib bundled keylog_handle).

(** The operations a builder and its options call for. *)
Definition wanted (self : TlsConnectorBuilder KeyLog) (opts : TlsOptions) (op : CtxOp) : Prop :=
  match op with
  | SetCertificate c => ∃ i, b_identity self = Some i ∧ c = cert i
  | SetPrivateKey k => ∃ i, b_identity self = Some i ∧ k = pkey i
  | AddExtraChainCert c => ∃ i, b_identity self = Some i ∧ c ∈ chain i
  | SetCertStore store =>
    b_cert_store self = Some store ∨ b_cert_store self = None ∧ bundled = Some store
  | SetDefaultVerifyPaths => b_cert_store self = None ∧ bundled = None
  | SetVerify peer => peer = b_cert_verification self
  | AddCompressor c => ∃ l, o_certificate_compressors opts = Some l ∧ c ∈ l
  | SetTrustAnchors ids => o_trust_anchors opts = Some ids
  | SetMinVersion v => v = option_or (o_min_tls_version opts) (b_min_version self)
  | SetMaxVersion v => v = option_or (o_max_tls_version opts) (b_max_version self)
  | EnableOcsp => o_enable_ocsp_stapling opts = true
  | EnableSct => o_enable_signed_cert_timestamps opts = true
  | SetOption NO_TICKET => o_session_ticket opts = false
  | SetOption NO_PSK_DHE_KE => o_psk_dhe_ke opts = false
  | SetOption NO_RENEGOTIATION => o_renegotiation opts = false
  | SetGrease b => o_grease_enabled opts = Some b
  | SetGreaseSigalgs b => o_grease_sigalgs_enabled opts = Some b
  | SetPermuteExtensions b => o_permute_extensions opts = Some b
  | SetCurves l => o_curves_list opts = Some l
  | SetSigalgs l => o_sigalgs_list opts = Some l
  | SetCipherList l => o_cipher_list opts = Some l
  | SetTls13Ciphers l => o_tls13_cipher_list opts = Some l
  | SetDelegatedCredentials l => o_delegated_credentials opts = Some l
  | SetRecordSizeLimit n => o_record_size_limit opts = Some n
  | SetExtensionPermutation l => o_extension_permutation opts = Some l
  | SetEchCallback policy => o_ech_grease opts = Some policy ∧ policy ≠ EchDefault
  | SetKeylogCallback => is_Some (b_keylog self)
  | SetSessionCacheClient | SetNewSessionCallback => o_pre_shared_key opts = true
  end.

Lemma set_cert_store_emits store :
  emits (set_cert_store lib bundled store) (λ op,
    match op with
    | SetCertStore s => store = Some s ∨ store = None ∧ bundled = Some s
    | SetDefaultVerifyPaths => store = None ∧ bundled = None
    | _ => False
    end).
Proof.
  unfold set_cert_store, ctx, ctx_try.
  destruct store as [s|]; [|destruct bundled as [s|]]; (eapply emits_ext; [apply emits_op|]);
    intros []; intuition congruence.
Qed.

Lemma tls_build_emits self opts : emits (tls_build' self opts) (wanted self opts).
Proof.
  eapply emits_ext.
  - unfold tls_build, set_identity, set_cert_verification, set_cert_compressors, ctx_when, ctx_try,
      ctx.
    repeat first [apply set_cert_store_emits|emits_step].
  - intros op. destruct op as [| | | | | | | | | | | |[]| | | | | | | | | | | | | |]; cbn;
      (split; intros H; open_spec; witness).
Qed.

Lemma tls_build_yields self opts :
  yields (tls_build' self opts) (λ tls log,
    tc_ssl tls = log ∧ tc_cache tls = o_pre_shared_key opts ∧
    verify_hostname (tc_settings tls) = b_verify_hostname self ∧
    tls_sni (tc_settings tls) = b_tls_sni self ∧
    alpn_protocols (tc_settings tls) =
      match b_alpn_protocol self with Some p => Some [p] | None => o_alpn_protocols opts end).
Proof.
  unfold tls_build. repeat (apply yields_bind; intros ?). by intros log tls log' [= <- <-].
Qed.

(** C25: A TLS context that is built is configured by exactly the operations the
    builder and the options call for: certificates of servers are verified
    unless that was turned off, the versions of the options win over those of
    the builder, the client certificate and the key log are the configured
    ones, and sessions are recorded only when resumption is on.  The settings
    for handshakes are the configured ones.  The build succeeds when the
    library accepts every operation and the key log opens. *)
Theorem tls_context_spec self opts :
  yields (tls_build' self opts) (λ tls log,
    tc_ssl tls = log ∧ tc_cache tls = o_pre_shared_key opts ∧
    verify_hostname (tc_settings tls) = b_verify_hostname self ∧
    tls_sni (tc_settings tls) = b_tls_sni self ∧
    alpn_protocols (tc_settings tls) =
      match b_alpn_protocol self with Some p => Some [p] | None => o_alpn_protocols opts end) ∧
  emits (tls_build' self opts) (wanted self opts) ∧
  ((∀ op, lib op = None) → (∀ k, keylog_handle k = Ok tt) → accepts (tls_build' self opts)).
Proof.
  split_and!.
  - apply tls_build_yields.
  - apply tls_build_emits.
  - intros Hlib Hk. assert (∀ op, accepts (ctx_try lib op)) as Hop.
    { intros op. eapply accepts_op. by rewrite Hlib. }
    assert (∀ op, accepts (ctx op)) as Hop' by (intros op; by eapply accepts_op).
    assert (∀ b op, accepts (ctx_when b op)) as Hop'' by (intros [] op; [apply Hop'|apply accepts_ret]).
    assert (∀ k, accepts (prog_lift (map_err Error_tls (keylog_handle k)) : Prog CtxOp _ _)) as Hkl
      by (intros k; rewrite Hk; apply accepts_lift).
    unfold tls_build, set_identity, set_cert_verification, set_cert_compressors, set_cert_store.
    repeat first [apply Hop|apply Hop'|apply Hop''|apply Hkl|apply accepts_log|apply accepts_ret
      |apply accepts_bind; [|intros ?]|apply accepts_option; intros ?|apply accepts_iter; intros ?
      |apply accepts_if|case_match].
Qed.
End context.

(** ** What a handshake offers *)
Section offered.
Context {K : Type} (cfg_lib : CfgOp K → option BoxError) (cache_pop : K → option TlsSession).
Abbreviation setup_ssl2' := (setup_ssl2 cfg_lib cache_pop).

Definition offered (self : TlsConnector) (uri : Uri) (version : option Version) (key : K)
    (op : CfgOp K) : Prop :=
  let settings := tc_settings self in
  match op with
  | Configure => True
  | SetServerNameIndication b => b = tls_sni settings
  | SetVerifyHostname b => b = verify_hostname settings
  | SetAlpnProtos protos =>
    match version with
    | Some v => alpn_for v = Some protos
    | None => ∃ l, alpn_protocols settings = Some l ∧ protos = encode_sequence l
    end
  | AddApplicationSettings p => ∃ l a, alps_protocols settings = Some l ∧ a ∈ l ∧ p = alps_bytes a
  | SetAlpsNewCodepoint b =>
    b = alps_use_new_codepoint settings ∧ ∃ l, alps_protocols settings = Some l ∧ l ≠ []
  | SetKeyShares l => key_shares settings = Some l
  | EnableEchGrease | HostLengthIndex => is_Some (ech_grease settings)
  | SetHostLength n =>
    is_Some (ech_grease settings) ∧
    ∃ host, uri_host uri = Some host ∧ n = length (normalize_host host)
  | PopSession k | SetKey k => tc_cache self = true ∧ k = key
  | KeyIndex => tc_cache self = true
  | SetSession s => tc_cache self = true ∧ cache_pop key = Some s
  | SetNoTicket => tc_cache self = true ∧ is_Some (cache_pop key) ∧ no_ticket settings = true
  | IntoSsl name => ∃ host, uri_host uri = Some host ∧ name = normalize_host host
  | SetServerPadding n => server_padding settings = Some n
  end.

Lemma ok_or_Ok {A E} (o : option A) (e : E) a : ok_or o e = Ok a ↔ o = Some a.
Proof. destruct o; simpl; split; congruence. Qed.

Lemma alps_emits settings :
  emits (prog_option (alps_protocols settings) (λ alps,
    prog_iter (λ p, cfg_try cfg_lib (AddApplicationSettings (alps_bytes p))) alps ;;;
    match alps with
    | [] => prog_ret tt
    | _ => cfg (SetAlpsNewCodepoint (alps_use_new_codepoint settings))
    end)) (λ op : CfgOp K,
      match op with
      | AddApplicationSettings p => ∃ l a, alps_protocols settings = Some l ∧ a ∈ l ∧ p = alps_bytes a
      | SetAlpsNewCodepoint b =>
        b = alps_use_new_codepoint settings ∧ ∃ l, alps_protocols settings = Some l ∧ l ≠ []
      | _ => False
      end).
Proof.
  destruct (alps_protocols settings) as [[|p alps]|]; cbn [prog_option].
  - eapply emits_ext; [unfold cfg_try, cfg; repeat emits_step|].
    intros []; cbn; (split; intros H; open_spec; set_solver).
  - eapply emits_ext; [unfold cfg_try, cfg; repeat emits_step|].
    intros []; cbn; (split; intros H; open_spec);
      first [witness|set_solver|eexists (p :: alps), _; split; [done|]; split; [|done]; set_solver
            |split; [done|]; eexists; split; [done|discriminate]].
  - eapply emits_ext; [apply emits_ret|]. intros []; cbn; (split; intros H; open_spec).
Qed.

Lemma alpn_emits settings version :
  emits (match version with
         | Some version => prog_option (alpn_for version) (λ protos, cfg_try cfg_lib (SetAlpnProtos protos))
         | None => prog_option (alpn_protocols settings)
                     (λ l, cfg_try cfg_lib (SetAlpnProtos (encode_sequence l)))
         end) (λ op : CfgOp K,
      match op with
      | SetAlpnProtos protos =>
        match version with
        | Some v => alpn_for v = Some protos
        | None => ∃ l, alpn_protocols settings = Some l ∧ protos = encode_sequence l
        end
      | _ => False
      end).
Proof.
  destruct version; (eapply emits_ext; [unfold cfg_try; repeat emits_step|]);
    intros []; cbn; (split; intros H; open_spec; witness).
Qed.

Lemma resume_emits self key :
  emits (resume cfg_lib cache_pop self key) (λ op,
    match op with
    | PopSession k | SetKey k => tc_cache self = true ∧ k = key
    | KeyIndex => tc_cache self = true
    | SetSession s => tc_cache self = true ∧ cache_pop key = Some s
    | SetNoTicket =>
      tc_cache self = true ∧ is_Some (cache_pop key) ∧ no_ticket (tc_settings self) = true
    | _ => False
    end).
Proof.
  unfold resume, cfg_try, cfg. destruct (tc_cache self); (eapply emits_ext;
    [first [apply emits_op_bind; intros ?|idtac]; repeat emits_step|]);
    intros []; cbn; (split; intros H; open_spec; witness).
Qed.

Lemma setup_ssl2_yields self uri version key :
  yields (setup_ssl2' self uri version key) (λ ssl log, ssl = log).
Proof. unfold setup_ssl2. repeat (apply yields_bind; intros ?). by intros log ssl log' [= <- <-]. Qed.
Lemma setup_ssl2_no_host self uri version key :
  uri_host uri = None → yields (setup_ssl2' self uri version key) (λ _ _, False).
Proof.
  intros Hh. unfold setup_ssl2. rewrite Hh.
  repeat first [apply yields_lift_err|apply yields_bind; intros ?].
Qed.

Lemma setup_ssl2_emits self uri version key :
  emits (setup_ssl2' self uri version key) (offered self uri version key).
Proof.
  destruct (uri_host uri) as [host|] eqn:Hh.
  - eapply emits_ext.
    + unfold setup_ssl2, cfg_try, cfg. rewrite Hh.
      repeat first [apply alps_emits|apply alpn_emits|apply emits_lift_bind; intros ?
                   |apply resume_emits|emits_step].
    + intros op. destruct op; cbn; rewrite ?Hh; (split; intros H; open_spec; witness).
  - by apply emits_yields_False, setup_ssl2_no_host.
Qed.

(** C24: What the handshake of one connection offers is exactly what its
    descriptor and the settings call for: the name it is checked against is the
    host of the URI, without the brackets of an IPv6 literal; a pinned HTTP
    version offers its protocol alone, and otherwise the configured protocols
    are offered; a session is resumed only when it was stored under the key of
    this connection.  It is prepared when the URI has a host and the library
    accepts every operation, and a URI without a host is refused. *)
Theorem handshake_spec self uri version key :
  emits (setup_ssl2' self uri version key) (offered self uri version key) ∧
  (is_Some (uri_host uri) → (∀ op, cfg_lib op = None) → accepts (setup_ssl2' self uri version key)) ∧
  (uri_host uri = None → ∀ log ssl log', setup_ssl2' self uri version key log ≠ (Ok ssl, log')).
Proof.
  split_and!; [apply setup_ssl2_emits| |].
  - intros [host Hh] Hlib. assert (∀ op, accepts (cfg_try cfg_lib op)) as Hop.
    { intros op. eapply accepts_op. by rewrite Hlib. }
    assert (∀ op : CfgOp K, accepts (cfg op)) as Hop' by (intros op; by eapply accepts_op).
    unfold setup_ssl2, resume. rewrite Hh.
    repeat first [apply Hop|apply Hop'|apply accepts_log|apply accepts_ret|apply accepts_lift
      |apply accepts_bind; [|intros ?]|apply accepts_option; intros ?|apply accepts_iter; intros ?
      |apply accepts_if|by eapply accepts_op|case_match].
  - intros Hh log ssl log' Hrun. by apply (setup_ssl2_no_host self uri version key Hh) in Hrun.
Qed.
End offered.

(** *** ECH GREASE *)

(** The data a connection keeps for the callback: the host length set last. *)
Definition ex_host_length {K} (ssl : list (CfgOp K)) : option nat :=
  last (omap (λ op, match op with SetHostLength n => Some n | _ => None end) ssl).

(** The sizes the library computes, and the error of making an index. *)
Inductive EchGreaseRounding := RoundPre3127 | Round3127.
Section ech.
Context {K Params : Type} (boringssl_parameters : Z → result Params BoxError).
Context (nss_parameters : nat → nat → EchGreaseRounding → result Params BoxError).
Context (default_aead : Z) (host_length_index : result unit BoxError).

Definition ech_grease_parameters (policy : EchGrease) (ssl : list (CfgOp K)) : result Params BoxError :=
  let nss rounding :=
    _ ←? host_length_index ; nss_parameters 100 (default 0 (ex_host_length ssl)) rounding in
  match policy with
  | EchDefault => boringssl_parameters default_aead
  | EchAead aead => boringssl_parameters aead
  | NssPre3127 => nss RoundPre3127
  | Nss3127 => nss Round3127
  end.

(** A connection of a client with ECH GREASE has the length of its own host,
    so the sizes of NSS are computed for the name that is connected to. *)
Lemma ech_sizes cfg_lib cache_pop self uri version key ssl log policy host :
  setup_ssl2 cfg_lib cache_pop self uri version key [] = (Ok ssl, log) →
  ech_grease (tc_settings self) = Some policy → uri_host uri = Some host → host_length_index = Ok tt →
  ech_grease_parameters policy ssl =
    match policy with
    | EchDefault => boringssl_parameters default_aead
    | EchAead aead => boringssl_parameters aead
    | NssPre3127 => nss_parameters 100 (length (normalize_host host)) RoundPre3127
    | Nss3127 => nss_parameters 100 (length (normalize_host host)) Round3127
    end.
Proof.
  intros Hrun He Hh Hi. pose proof (setup_ssl2_yields _ _ _ _ _ _ _ _ _ Hrun) as ->.
  pose proof (setup_ssl2_emits _ _ _ _ _ _ _ _ _ Hrun) as Hops.
  assert (∀ n, SetHostLength n ∈ log ↔ n = length (normalize_host host)) as Hn.
  { intros n. rewrite Hops, elem_of_nil. simpl. rewrite He, Hh. naive_solver. }
  assert (ex_host_length log = Some (length (normalize_host host))) as Hl.
  { unfold ex_host_length. destruct (last _) as [n|] eqn:E.
    - apply last_Some_elem_of, list_elem_of_omap in E as ([] & Hin & [= ->]). f_equal. by apply Hn.
    - apply last_None in E. pose proof (proj2 (Hn _) eq_refl) as Hin.
      assert (length (normalize_host host) ∈ ([] : list nat)) as []%not_elem_of_nil.
      { rewrite <- E. apply list_elem_of_omap. eauto. } }
  unfold ech_grease_parameters. rewrite Hl, Hi. by destruct policy.
Qed.
End ech.

(** *** Certificate compression *)
Section compress.
(** A codec writes its output to a writer; [W] is what it does there. *)
Context {W : Type}.
Inductive Codec :=
| Pointer (f : str → W)
| Dynamic (f : str → W).
Definition codec_call (self : Codec) (input : str) : W :=
  match self with Pointer func => func input | Dynamic closure => closure input end.

(** The trait, and what is registered with the library.  The algorithms have
    the numbers of RFC 8879; [None] is the panic of another number. *)
Record CertificateCompressor := {
  cc_compress : Codec;
  cc_decompress : Codec;
  cc_algorithm : Z;
}.
Record Compressor := {
  cp_algorithm : Z;
  cp_compress : str → W;
  cp_decompress : str → W;
}.
Definition register (compressor : CertificateCompressor) : option Compressor :=
  if decide (cc_algorithm compressor ∈ [1; 2; 3]%Z) then
    Some {| cp_algorithm := cc_algorithm compressor;
            cp_compress := codec_call (cc_compress compressor);
            cp_decompress := codec_call (cc_decompress compressor) |}
  else None.
End compress.

(** ** Examples *)
Module TlsExamples.
Definition lib_ok {Op : Type} (op : Op) : option BoxError := None.
Definition identity : Identity := {| pkey := #"key"; cert := #"leaf"; chain := [ #"ca" ] |}.
Definition builder : TlsConnectorBuilder unit :=
  {| b_alpn_protocol := None; b_max_version := None; b_min_version := Some TLS1_2; b_tls_sni := true;
     b_verify_hostname := true; b_identity := Some identity; b_cert_store := None;
     b_cert_verification := true; b_keylog := Some tt |}.
Definition uri (host : str) : Uri :=
  {| uri_scheme := Some HTTPS;
     uri_authority := Some {| auth_str := host; auth_host := host; auth_port := None |};
     uri_path_and_query := Some {| pq_path := #"/"; pq_query := None |} |}.

Lemma alpn_roundtrip_witness :
  decode_sequence (encode_sequence [ALPN_HTTP1; ALPN_HTTP2; ALPN_HTTP3]) =
    Some [ALPN_HTTP1; ALPN_HTTP2; ALPN_HTTP3] ∧
  encode_sequence [ALPN_HTTP2; ALPN_HTTP1] = chr 2 :: #"h2" ++ chr 8 :: #"http/1.1".
Proof.
  split; [|vm_compute; reflexivity].
  apply (alpn_roundtrip [ALPN_HTTP1; ALPN_HTTP2; ALPN_HTTP3]).
  repeat constructor; vm_compute; lia.
Defined.

Lemma tls_context_spec_witness :
  ∃ tls log,
    tls_build lib_ok (Some [ #"root" ]) (λ _, Ok tt) builder TlsOptions_default [] = (Ok tls, log) ∧
    SetVerify true ∈ tc_ssl tls ∧ SetVerify false ∉ tc_ssl tls.
Proof.
  destruct (tls_context_spec lib_ok (Some [ #"root" ]) (λ _, Ok tt) builder TlsOptions_default)
    as (Hy & He & Ha).
  destruct (Ha (λ _, eq_refl) (λ _, eq_refl) []) as (tls & log & Hrun).
  exists tls, log. split; [done|]. destruct (Hy _ _ _ Hrun) as (-> & _).
  rewrite !(He _ _ _ Hrun). split; [by right|]. intros [?%elem_of_nil|[=]]; done.
Defined.

(** An IPv6 literal is checked without its brackets, and a pinned version
    offers one protocol. *)
Lemma handshake_spec_witness :
  ∃ tls ssl log,
    (tls_build lib_ok None (λ _, Ok tt) builder TlsOptions_default []).1 = Ok tls ∧
    setup_ssl2 lib_ok (λ _ : nat, None) tls (uri #"[::1]") (Some HTTP_2) 7 [] = (Ok ssl, log) ∧
    IntoSsl #"::1" ∈ log ∧ SetAlpnProtos (encode ALPN_HTTP2) ∈ log.
Proof.
  eexists _, _, _. split; [vm_compute; reflexivity|].
  match goal with |- (setup_ssl2 ?l ?c ?t ?u ?v ?k [] = _ ∧ _) =>
    destruct (handshake_spec l c t u v k) as (He & Ha & _) end.
  destruct (Ha (ex_intro _ _ eq_refl) (λ _, eq_refl) []) as (ssl & log & Hrun).
  split; [vm_compute; reflexivity|]. vm_compute in Hrun. injection Hrun as <- <-.
  split; vm_compute; repeat first [left|right].
Defined.
End TlsExamples.
