(* ===== verification/KeyLogFile.v ===== *)
(** * Key log files

    [Handle] of [src/tls/keylog.rs]: a thread for each open file that writes the
    lines sent to it, together with the cache of handles of [KeyLogs] in
    [Trust].  Callers on different threads look for a handle under the read
    lock, open the file under the write lock when there is none, and send their
    lines at any time; the thread of a file writes at any time. *)

From S2P Require Import Prelude Errors Trust.
Import KeyLogs.

(** ** The system *)

(** A channel is the queue of a file; a handle is the number of its channel. *)
Record Channel := {
  ch_path : Path;
  ch_queue : list str;
}.
(** A caller between the two locks, or with its handle. *)
Inductive Caller :=
| Looking (path : Path)
| Holding (handle : nat).

(** [sent] and [failures] are not part of the program: the lines sent for a
    path, and how often writing to it failed. *)
Record KeySys := {
  cache : gmap Path nat;
  channels : gmap nat Channel;
  files : Path → str;
  callers : gmap nat Caller;
  sent : Path → list str;
  failures : Path → nat;
}.

(** [Handle::write] sends the line with its end. *)
Definition key_line (line : str) : str := line ++ [LF].

Definition upd {A} (f : Path → A) (p : Path) (a : A) : Path → A := λ q, if decide (q = p) then a else f q.

Inductive key_step (s : KeySys) : KeySys → Prop :=
(** The read lock. *)
| key_found t path h :
    callers s !! t = None → handle_read (cache s) path = Some h →
    key_step s {| cache := cache s; channels := channels s; files := files s;
                  callers := <[t := Holding h]> (callers s); sent := sent s; failures := failures s |}
| key_missing t path :
    callers s !! t = None → handle_read (cache s) path = None →
    key_step s {| cache := cache s; channels := channels s; files := files s;
                  callers := <[t := Looking path]> (callers s); sent := sent s; failures := failures s |}
(** The write lock: [Handle::new] opens the file to append and starts its
    thread. *)
| key_opened t path fresh h cache' :
    callers s !! t = Some (Looking path) → channels s !! fresh = None →
    handle_write (λ _, Ok fresh) (cache s) path = (Ok h, cache') →
    key_step s {| cache := cache';
                  channels := if decide (cache s !! path = None)
                              then <[fresh := {| ch_path := path; ch_queue := [] |}]> (channels s)
                              else channels s;
                  files := files s; callers := <[t := Holding h]> (callers s);
                  sent := sent s; failures := failures s |}
| key_refused t path e e' cache' :
    callers s !! t = Some (Looking path) →
    handle_write (λ _, Err e) (cache s) path = (Err e', cache') →
    key_step s {| cache := cache'; channels := channels s; files := files s;
                  callers := delete t (callers s); sent := sent s; failures := failures s |}
(** [Handle::write]. *)
| key_write t h ch line :
    callers s !! t = Some (Holding h) → channels s !! h = Some ch →
    key_step s {| cache := cache s;
                  channels := <[h := {| ch_path := ch_path ch;
                                        ch_queue := ch_queue ch ++ [key_line line] |}]> (channels s);
                  files := files s; callers := callers s;
                  sent := upd (sent s) (ch_path ch) (sent s (ch_path ch) ++ [key_line line]);
                  failures := failures s |}
(** The thread of a file; when [write_all] fails it has written the start of
    the line. *)
| key_written h ch line queue :
    channels s !! h = Some ch → ch_queue ch = line :: queue →
    key_step s {| cache := cache s;
                  channels := <[h := {| ch_path := ch_path ch; ch_queue := queue |}]> (channels s);
                  files := upd (files s) (ch_path ch) (files s (ch_path ch) ++ line);
                  callers := callers s; sent := sent s; failures := failures s |}
| key_write_failed h ch line queue piece :
    channels s !! h = Some ch → ch_queue ch = line :: queue → piece `prefix_of` line →
    key_step s {| cache := cache s;
                  channels := <[h := {| ch_path := ch_path ch; ch_queue := queue |}]> (channels s);
                  files := upd (files s) (ch_path ch) (files s (ch_path ch) ++ piece);
                  callers := callers s; sent := sent s;
                  failures := upd (failures s) (ch_path ch) (S (failures s (ch_path ch))) |}.

Definition key_init (contents : Path → str) : KeySys :=
  {| cache := ∅; channels := ∅; files := contents; callers := ∅; sent := λ _, []; failures := λ _, 0 |}.

(** ** The invariant *)

(** What is queued for a path: there is at most one channel for it. *)
Definition queued (s : KeySys) (p : Path) : list str :=
  match cache s !! p ≫= λ h, channels s !! h with Some ch => ch_queue ch | None => [] end.

Section invariant.
Variable contents : Path → str.

Record key_ok (s : KeySys) : Prop := {
  ko_cache p h : cache s !! p = Some h → ∃ ch, channels s !! h = Some ch ∧ ch_path ch = p;
  ko_channel h ch : channels s !! h = Some ch → cache s !! ch_path ch = Some h;
  ko_file p : ∃ lines pieces,
    sent s p = lines ++ queued s p ∧ Forall2 prefix pieces lines ∧
    files s p = contents p ++ mjoin pieces ∧ (failures s p = 0 → pieces = lines);
}.

Lemma key_init_ok : key_ok (key_init contents).
Proof.
  split; simpl; [set_solver..|]. intros p. exists [], []. simpl. by rewrite app_nil_r.
Qed.

(** Another queue in the channel of a path. *)
Lemma channels_ok s s' h ch q :
  key_ok s → channels s !! h = Some ch → cache s' = cache s →
  channels s' = <[h := {| ch_path := ch_path ch; ch_queue := q |}]> (channels s) →
  (∀ p h, cache s' !! p = Some h → ∃ ch, channels s' !! h = Some ch ∧ ch_path ch = p) ∧
  (∀ h ch, channels s' !! h = Some ch → cache s' !! ch_path ch = Some h) ∧
  queued s' (ch_path ch) = q ∧ queued s (ch_path ch) = ch_queue ch ∧
  ∀ p, p ≠ ch_path ch → queued s' p = queued s p.
Proof.
  intros Hok Hch Hc Hs. pose proof (ko_channel _ Hok _ _ Hch) as Hp.
  unfold queued. rewrite Hc, Hs, Hp. simpl. rewrite Hch, lookup_insert_eq. split_and!; try done.
  - intros p h' Hph. destruct (decide (h' = h)) as [->|].
    + rewrite lookup_insert_eq. eexists. split; [done|]. simpl.
      destruct (ko_cache _ Hok _ _ Hph) as (ch' & ? & ?). by simplify_eq.
    + rewrite lookup_insert_ne by done. by apply (ko_cache _ Hok).
  - intros h' ch' [[<- <-]|[? ?]]%lookup_insert_Some; [done|by apply (ko_channel _ Hok)].
  - intros p Hne. destruct (cache s !! p) as [h'|] eqn:Hph; [|done]. simpl.
    destruct (ko_cache _ Hok _ _ Hph) as (ch' & Hch' & <-). rewrite lookup_insert_ne; [done|].
    intros <-. by simplify_eq.
Qed.

(** The line at the head of a queue has been written, as far as [piece]. *)
Lemma written_ok s s' h ch line queue piece :
  key_ok s → channels s !! h = Some ch → ch_queue ch = line :: queue → piece `prefix_of` line →
  cache s' = cache s →
  channels s' = <[h := {| ch_path := ch_path ch; ch_queue := queue |}]> (channels s) →
  files s' = upd (files s) (ch_path ch) (files s (ch_path ch) ++ piece) → sent s' = sent s →
  (∀ p, failures s p ≤ failures s' p) → (failures s' (ch_path ch) = 0 → piece = line) → key_ok s'.
Proof.
  intros Hok Hch Hq Hpre Hc Hs Hf Hsent Hfail Hwhole.
  destruct (channels_ok _ _ _ _ _ Hok Hch Hc Hs) as (H1 & H2 & Hq' & Hq0 & Hrest).
  split; [done..|]. intros p. destruct (ko_file _ Hok p) as (lines & pieces & Hl & Hp & Hfp & Hz).
  rewrite Hsent, Hf. unfold upd. case_decide as Hd; [subst p|].
  - exists (lines ++ [line]), (pieces ++ [piece]). split_and!.
    + rewrite Hq', Hl, Hq0, Hq. by rewrite <- app_assoc.
    + by apply Forall2_app; [|constructor].
    + rewrite Hfp, join_app, app_assoc. simpl. by rewrite app_nil_r.
    + intros H0. rewrite Hwhole by done. f_equal. apply Hz. specialize (Hfail (ch_path ch)). lia.
  - exists lines, pieces. rewrite Hrest by done. split_and!; try done.
    intros H0. apply Hz. specialize (Hfail p). lia.
Qed.

Lemma handle_write_cases (open : Path → result nat BoxError) (c c' : gmap Path nat) path r :
  handle_write open c path = (r, c') →
  (∃ h, c !! path = Some h ∧ r = Ok h ∧ c' = c) ∨
  c !! path = None ∧ r = open path ∧ c' = match open path with Ok h => <[path := h]> c | Err _ => c end.
Proof. unfold handle_write. intros H. destruct (c !! path), (open path); simplify_eq; eauto 10. Qed.

Lemma key_same s s' :
  key_ok s → cache s' = cache s → channels s' = channels s → files s' = files s → sent s' = sent s →
  failures s' = failures s → key_ok s'.
Proof.
  intros [H1 H2 H3] Hc Hch Hf Hs Hfl. split; unfold queued; rewrite ?Hc, ?Hch, ?Hf, ?Hs, ?Hfl; done.
Qed.

Lemma opened_ok s s' path fresh :
  key_ok s → channels s !! fresh = None → cache s !! path = None →
  cache s' = <[path := fresh]> (cache s) →
  channels s' = <[fresh := {| ch_path := path; ch_queue := [] |}]> (channels s) →
  files s' = files s → sent s' = sent s → failures s' = failures s → key_ok s'.
Proof.
  intros Hok Hfr Hnone Hc Hch Hf Hs Hfl.
  assert (∀ p h, cache s !! p = Some h → h ≠ fresh) as Hne.
  { intros p h Hp ->. destruct (ko_cache _ Hok _ _ Hp) as (ch & ? & _). congruence. }
  split.
  - intros p h. rewrite Hc, Hch. intros [[<- <-]|[? Hp]]%lookup_insert_Some.
    + rewrite lookup_insert_eq. eauto.
    + rewrite lookup_insert_ne by (intros <-; by eapply Hne). by apply (ko_cache _ Hok).
  - intros h ch. rewrite Hc, Hch. intros [[<- <-]|[? Hp]]%lookup_insert_Some; simpl.
    + apply lookup_insert_eq.
    + apply (ko_channel _ Hok) in Hp. rewrite lookup_insert_ne; [done|]. intros ->. congruence.
  - intros p. destruct (ko_file _ Hok p) as (lines & pieces & Hl & ? & ? & ?).
    exists lines, pieces. rewrite Hf, Hs, Hfl. split_and!; [|done..]. rewrite Hl. f_equal.
    unfold queued. rewrite Hc, Hch. destruct (decide (p = path)) as [->|].
    + rewrite Hnone, lookup_insert_eq. simpl. by rewrite lookup_insert_eq.
    + rewrite lookup_insert_ne by done. destruct (cache s !! p) as [h|] eqn:Hp; [|done]. simpl.
      rewrite lookup_insert_ne; [done|]. intros <-. by eapply Hne.
Qed.

Lemma key_step_ok s s' : key_ok s → key_step s s' → key_ok s'.
Proof.
  intros Hok Hs. destruct Hs as
    [t path h Ht Hr|t path Ht Hr|t path fresh h cache' Ht Hfr Hw|t path e e' cache' Ht Hw
    |t h ch line Ht Hch|h ch line queue Hch Hq|h ch line queue piece Hch Hq Hpre].
  - by eapply key_same.
  - by eapply key_same.
  - apply handle_write_cases in Hw as [(h' & Hp & [= ->] & ->)|(Hp & [= ->] & ->)].
    + eapply key_same; simpl; try done. by rewrite Hp.
    + eapply opened_ok; simpl; try done. by rewrite Hp.
  - apply handle_write_cases in Hw as [(h' & Hp & [=] & ->)|(Hp & _ & ->)]. by eapply key_same.
  - match goal with |- key_ok ?x => set (s' := x) end.
    destruct (channels_ok s s' h ch (ch_queue ch ++ [key_line line]) Hok Hch eq_refl eq_refl)
      as (H1 & H2 & Hq' & Hq0 & Hrest).
    split; [done..|]. intros p. destruct (ko_file _ Hok p) as (lines & pieces & Hl & ? & ? & ?).
    exists lines, pieces. split_and!; [|done..]. unfold s' at 1. simpl. unfold upd.
    case_decide as Hd; [subst p|].
    + rewrite Hq', Hl, Hq0. by rewrite app_assoc.
    + by rewrite Hrest.
  - eapply written_ok; simpl; try done.
  - eapply written_ok; simpl; try done; intros; unfold upd in *; case_decide; simplify_eq; lia || done.
Qed.

End invariant.

(** Two connections with the same key log, one of which waits for the write
    lock while the other opens the file. *)
Module KeyLogExamples.
Definition path : Path := [RootDir; Normal #"keys"].
Definition old : Path → str := λ _, #"# old".
Definition s1 := {| cache := ∅; channels := ∅; files := old; callers := {[1 := Looking path]};
                    sent := λ _, []; failures := λ _, 0 |}.
Definition s2 := {| cache := ∅; channels := ∅; files := old;
                    callers := <[2 := Looking path]> {[1 := Looking path]}; sent := λ _, [];
                    failures := λ _, 0 |}.
Definition chans0 : gmap nat Channel := {[7 := {| ch_path := path; ch_queue := [] |}]}.
Definition s3 := {| cache := {[path := 7]}; channels := chans0; files := old;
                    callers := <[1 := Holding 7]> (callers s2); sent := λ _, []; failures := λ _, 0 |}.
Definition s4 := {| cache := {[path := 7]}; channels := chans0; files := old;
                    callers := <[2 := Holding 7]> (callers s3); sent := λ _, []; failures := λ _, 0 |}.
Definition line : str := key_line #"KEY 1".
Definition chans1 : gmap nat Channel :=
  <[7 := {| ch_path := path; ch_queue := [] ++ [line] |}]> chans0.
Definition s5 := {| cache := {[path := 7]}; channels := chans1; files := old; callers := callers s4;
                    sent := upd (λ _, []) path [line]; failures := λ _, 0 |}.
Definition s6 := {| cache := {[path := 7]};
                    channels := <[7 := {| ch_path := path; ch_queue := [] |}]> chans1;
                    files := upd old path (old path ++ line); callers := callers s4;
                    sent := upd (λ _, []) path [line]; failures := λ _, 0 |}.

Lemma written : rtc key_step (key_init old) s6.
Proof.
  apply (rtc_l _ _ s1); [exact (key_missing (key_init old) 1 path eq_refl eq_refl)|].
  apply (rtc_l _ _ s2); [exact (key_missing s1 2 path eq_refl eq_refl)|].
  apply (rtc_l _ _ s3); [exact (key_opened s2 1 path 7 7 {[path := 7]} eq_refl eq_refl eq_refl)|].
  apply (rtc_l _ _ s4); [exact (key_opened s3 2 path 8 7 {[path := 7]} eq_refl eq_refl eq_refl)|].
  apply (rtc_l _ _ s5).
  { exact (key_write s4 2 7 {| ch_path := path; ch_queue := [] |} #"KEY 1" eq_refl eq_refl). }
  apply rtc_once. exact (key_written s5 7 {| ch_path := path; ch_queue := [line] |} line [] eq_refl eq_refl).
Qed.

End KeyLogExamples.
