(* ===== verification/Connector.v ===== *)
(** * The transport connector

    [src/conn/connector.rs] with the services of [src/tls/conn/service.rs]: how a
    connection to a destination is made, directly or through a proxy.

    A stream is what it was made of: the socket and everything layered on it.
    What the network, the TLS library and the peers answer are parameters; an
    answer may also be missing for ever, which is [Pending]. *)

From S2P Require Import Prelude Http Errors Net Ext Dns Message Group Tcp Tunnel Matcher.
From S2P Require Import Lru TlsSession Tls.

(** ** Answers *)
Abbreviation Answer A := (poll (result A BoxError)).
Definition and_then {A B} (m : Answer A) (k : A → Answer B) : Answer B :=
  match m with
  | Ready (Ok a) => k a
  | Ready (Err e) => Ready (Err e)
  | Pending => Pending
  end.
Notation "x ←≫ m ; k" := (and_then m (λ x, k))
  (at level 20, m at level 100, k at level 200, right associativity) : rust_scope.

Section connector.
Context `{HV : HeaderValueLib, HM : HeaderMapLib, UL : UriLib, PL : PercentLib}.
Context `{B64 : Base64Lib, NL : IpNetLib}.
Context {K KeyLog : Type}.

(** ** Data *)
Inductive Stream :=
| TcpStream (options : TcpOptions) (dst : Uri) (addrs : SocketAddrs)
| UnixStream (path : str)
| TunnelStream (s : Stream) (request : str)
| SocksStream (s : Stream) (op : SocksOp)
| TlsStream (s : Stream) (context : list CtxOp) (ssl : list (CfgOp K))
| NodelayOff (s : Stream).

(** [MaybeHttpsStream]. *)
Inductive MaybeHttpsStream :=
| MHttp (s : Stream)
| MHttps (s : Stream).
Definition stream_of (io : MaybeHttpsStream) : Stream :=
  match io with MHttp s | MHttps s => s end.

(** [Conn]: the stream, whether information on TLS is kept, and the proxy that
    requests are addressed to. *)
Record Conn := {
  c_stream : Stream;
  c_tls_info : bool;
  c_proxy : option Intercept;
}.

Abbreviation Descriptor := (@ConnectionDescriptor Matcher TlsOptions).

(** [Config] and [TransportConnector]. *)
Record TransportConnector := {
  tr_proxies : list Matcher;
  tr_nodelay : bool;
  tr_tls_info : bool;
  tr_tls : TlsConnector;
  tr_http : TcpOptions;
  tr_builder : TlsConnectorBuilder KeyLog;
}.
(** [HttpsConnector]: how to reach a URI, and the TLS connector. *)
Record HttpsConnector := {
  h_http : Uri → Answer Stream;
  h_tls : TlsConnector;
}.

(** ** The outside *)

(** The error of making the outermost part of a stream; what the peer of a
    stream sends, and the error of writing to it; the SOCKS handshakes; the TLS
    library and its sessions; the resolver; the parser of responses. *)
Context (establish : Stream → poll (option BoxError)).
Context (peer : Stream → Reads) (written : Stream → option BoxError).
Context (socks : Stream → SocksOp → option BoxError).
Context (ctx_lib : CtxOp → option BoxError) (bundled : option CertStore).
Context (keylog_handle : KeyLog → result unit BoxError).
Context (cfg_lib : CfgOp K → option BoxError) (cache_pop : K → option TlsSession).
Context (resolver : Resolve) (parse : str → result (option (nat * option Z)) BoxError).
Context (session_key : @ConnectionId Matcher → K).

Definition make (s : Stream) : Answer Stream :=
  match establish s with
  | Ready None => Ready (Ok s)
  | Ready (Some e) => Ready (Err e)
  | Pending => Pending
  end.

(** ** Connecting *)

(** [HttpConnector::call]; the race for the addresses is outside of this file. *)
Definition http_call (options : TcpOptions) (dst : Uri) : Answer Stream :=
  addrs ←≫ Ready (map_err boxed_connect (connector_addrs (to_enforce_http options) resolver dst)) ;
  make (TcpStream options dst addrs).
Definition unix_call (path : str) (dst : Uri) : Answer Stream := make (UnixStream path).

Definition perform_handshake (tls : TlsConnector) (ssl : list (CfgOp K)) (conn : Stream) :
    Answer MaybeHttpsStream :=
  s ←≫ make (TlsStream conn (tc_ssl tls) ssl) ; Ready (Ok (MHttps s)).
(** The three services of [HttpsConnector]. *)
Definition https_call_uri (self : HttpsConnector) (uri : Uri) : Answer MaybeHttpsStream :=
  conn ←≫ h_http self uri ;
  if negb (option_scheme_eqb (uri_scheme uri) (Some HTTPS)) then Ready (Ok (MHttp conn))
  else
    ssl ←≫ Ready (setup_ssl cfg_lib uri []).1 ;
    perform_handshake (h_tls self) ssl conn.
Definition setup2 (tls : TlsConnector) (descriptor : Descriptor) : result (list (CfgOp K)) BoxError :=
  (setup_ssl2 cfg_lib cache_pop tls (cd_uri descriptor) (cd_version descriptor)
     (session_key (cd_connection_id descriptor)) []).1.
Definition https_call (self : HttpsConnector) (descriptor : Descriptor) : Answer MaybeHttpsStream :=
  conn ←≫ h_http self (cd_uri descriptor) ;
  if is_http (cd_uri descriptor) then Ready (Ok (MHttp conn))
  else
    ssl ←≫ Ready (setup2 (h_tls self) descriptor) ;
    perform_handshake (h_tls self) ssl conn.
Definition https_call_established (self : HttpsConnector) (io : Stream) (descriptor : Descriptor) :
    Answer MaybeHttpsStream :=
  if is_http (cd_uri descriptor) then Ready (Ok (MHttp io))
  else
    ssl ←≫ Ready (setup2 (h_tls self) descriptor) ;
    perform_handshake (h_tls self) ssl io.

(** The options of a connection to this destination. *)
Definition connection_options (self : TransportConnector) (https : bool) (descriptor : Descriptor) :
    TcpOptions :=
  let http := tr_http self in
  let http := if https && negb (tr_nodelay self) then http_set_nodelay true http else http in
  match cd_socket_bind descriptor with
  | Some opts =>
    let http := http_set_local_addresses (ipv4_address opts) (ipv6_address opts) http in
    match interface opts with
    | Some i => http_set_interface i http
    | None => http
    end
  | None => http
  end.
Definition connection_tls (self : TransportConnector) (descriptor : Descriptor) :
    result TlsConnector BoxError :=
  match cd_tls_options descriptor with
  | Some opts => (tls_build ctx_lib bundled keylog_handle (tr_builder self) opts []).1
  | None => Ok (tr_tls self)
  end.
Definition build_https_connector (self : TransportConnector) (https : bool)
    (descriptor : Descriptor) : result HttpsConnector BoxError :=
  tls ←? connection_tls self descriptor ;
  Ok {| h_http := http_call (connection_options self https descriptor); h_tls := tls |}.

Definition tunnel_conn_from_stream (self : TransportConnector) (io : MaybeHttpsStream) : Conn :=
  {| c_stream := stream_of io;
     c_tls_info := match io with MHttp _ => false | MHttps _ => tr_tls_info self end;
     c_proxy := None |}.
Definition conn_from_stream (self : TransportConnector) (io : MaybeHttpsStream)
    (proxy : option Intercept) : Conn :=
  {| c_stream := stream_of io; c_tls_info := tr_tls_info self; c_proxy := proxy |}.

(** Nagle's algorithm is switched on again after a handshake, on request. *)
Definition nagle_again (on : bool) (io : MaybeHttpsStream) : Answer MaybeHttpsStream :=
  if on then
    match io with
    | MHttp s => s ←≫ make (NodelayOff s) ; Ready (Ok (MHttp s))
    | MHttps s => s ←≫ make (NodelayOff s) ; Ready (Ok (MHttps s))
    end
  else Ready (Ok io).

Definition connect_auto_proxy (self : TransportConnector) (descriptor : Descriptor)
    (proxy : option Intercept) : Answer Conn :=
  let https := is_https (cd_uri descriptor) in
  connector ←≫ Ready (build_https_connector self https descriptor) ;
  let connector :=
    if bool_decide (is_Some proxy) && https
    then {| h_http := h_http connector; h_tls := no_alpn (h_tls connector) |} else connector in
  io ←≫ https_call connector descriptor ;
  io ←≫ nagle_again (https && negb (tr_nodelay self)) io ;
  Ready (Ok (conn_from_stream self io proxy)).

(** [TunnelConnector::call] over an HTTPS connector. *)
Definition connect_tunnel (connector : HttpsConnector) (proxy_uri : Uri) (headers : Headers)
    (dst : Uri) : Answer Stream :=
  match https_call_uri connector proxy_uri with
  | Pending => Pending
  | Ready (Err e) => Ready (Err (boxed_tunnel (TConnectFailed e)))
  | Ready (Ok io) =>
    let s := stream_of io in
    let '(request, answer) := tunnel_call parse headers (Ok (peer s)) (written s) dst in
    match answer with
    | Ready (Ok _) => Ready (Ok (TunnelStream s (default [] request)))
    | Ready (Err e) => Ready (Err (boxed_tunnel e))
    | Pending => Pending
    end
  end.

Definition socks_scheme (uri : Uri) : option (SocksVersion * DnsMode) :=
  match uri_scheme uri with
  | Some (OtherScheme s) =>
    if decide (s = #"socks4") then Some (SocksV4, DnsLocal)
    else if decide (s = #"socks4a") then Some (SocksV4, DnsRemote)
    else if decide (s = #"socks5") then Some (SocksV5, DnsLocal)
    else if decide (s = #"socks5h") then Some (SocksV5, DnsRemote)
    else None
  | _ => None
  end.
Definition connect_socks (self : TransportConnector) (proxy : Intercept) (version : SocksVersion)
    (dns : DnsMode) (dst : Uri) : Answer Stream :=
  let connector := set_dns_mode dns (set_socks_version version
                     (set_auth (raw_auth proxy) SocksConnector_new)) in
  match uri_host dst with
  | None => Ready (Err (boxed_socks SMissingHost))
  | Some _ =>
    match http_call (tr_http self) (ic_uri proxy) with
    | Pending => Pending
    | Ready (Err e) => Ready (Err (boxed_socks (SConnectFailed e)))
    | Ready (Ok s) =>
      match socks_call (socks s) resolver connector (Ok tt) dst with
      | Ok op => Ready (Ok (SocksStream s op))
      | Err e => Ready (Err (boxed_socks e))
      end
    end
  end.

Definition tunnel_headers (proxy : Intercept) : Headers :=
  let headers := match Intercept_basic_auth proxy with
                 | Some auth => tunnel_with_auth auth HEmpty
                 | None => HEmpty
                 end in
  match custom_headers proxy with
  | Some extra => tunnel_with_headers extra headers
  | None => headers
  end.

(** [http://localhost]. *)
Definition localhost : Uri :=
  {| uri_scheme := Some HTTP;
     uri_authority := Some {| auth_str := #"localhost"; auth_host := #"localhost"; auth_port := None |};
     uri_path_and_query := Some {| pq_path := #"/"; pq_query := None |} |}.
Definition set_descriptor_uri (uri : Uri) (d : Descriptor) : Descriptor :=
  {| cd_uri := uri; cd_version := cd_version d; cd_proxy := cd_proxy d;
     cd_tls_options := cd_tls_options d; cd_socket_bind := cd_socket_bind d;
     cd_connection_id := cd_connection_id d |}.

Definition map_answer_err {A} (f : BoxError → BoxError) (m : Answer A) : Answer A :=
  match m with Ready r => Ready (map_err f r) | Pending => Pending end.
Definition connect_via_proxy (self : TransportConnector) (descriptor : Descriptor)
    (proxy : Intercepted) : Answer Conn :=
  let uri := cd_uri descriptor in
  match proxy with
  | InterceptedProxy proxy =>
    let https := is_https uri in
    let proxy_uri := ic_uri proxy in
    match socks_scheme proxy_uri with
    | Some (version, dns) =>
      conn ←≫ connect_socks self proxy version dns uri ;
      connector ←≫ Ready (build_https_connector self https descriptor) ;
      io ←≫ https_call_established connector conn descriptor ;
      io ←≫ nagle_again (https && negb (tr_nodelay self)) io ;
      Ready (Ok (tunnel_conn_from_stream self io))
    | None =>
      if https then
        connector ←≫ Ready (build_https_connector self https descriptor) ;
        tunneled ←≫ connect_tunnel connector proxy_uri (tunnel_headers proxy) uri ;
        io ←≫ https_call_established connector tunneled descriptor ;
        io ←≫ nagle_again (negb (tr_nodelay self)) io ;
        Ready (Ok (tunnel_conn_from_stream self io))
      else
        map_answer_err ProxyConnectError
          (connect_auto_proxy self (set_descriptor_uri proxy_uri descriptor) (Some proxy))
    end
  | InterceptedUnix unix_socket =>
    let connector := {| h_http := unix_call unix_socket; h_tls := tr_tls self |} in
    if is_https uri then
      tunneled ←≫ connect_tunnel connector localhost HEmpty uri ;
      io ←≫ https_call_established connector tunneled descriptor ;
      Ready (Ok (tunnel_conn_from_stream self io))
    else
      io ←≫ https_call connector descriptor ;
      Ready (Ok (conn_from_stream self io None))
  end.

(** The proxy of the request is asked before those of the client. *)
Definition intercepted (self : TransportConnector) (req : Descriptor) : option Intercepted :=
  match cd_proxy req ≫= λ prox, intercept prox (cd_uri req) with
  | Some i => Some i
  | None => head (omap (λ prox, intercept prox (cd_uri req)) (tr_proxies self))
  end.
Definition connect_auto (self : TransportConnector) (req : Descriptor) : Answer Conn :=
  match intercepted self req with
  | Some i => connect_via_proxy self req i
  | None => connect_auto_proxy self req None
  end.

(** [ConnectorBuilder::build], without the layers around the service. *)
Definition transport_build (proxies : list Matcher) (nodelay tls_info : bool) (http : TcpOptions)
    (builder : TlsConnectorBuilder KeyLog) (tls_options : option TlsOptions) :
    result TransportConnector BoxError :=
  tls ←? (tls_build ctx_lib bundled keylog_handle builder (default TlsOptions_default tls_options) []).1 ;
  Ok {| tr_proxies := proxies; tr_nodelay := nodelay; tr_tls_info := tls_info; tr_tls := tls;
        tr_http := http; tr_builder := builder |}.

(** ** Facts *)
Lemma and_then_Ok {A B} (m : Answer A) (k : A → Answer B) b :
  and_then m k = Ready (Ok b) ↔ ∃ a, m = Ready (Ok a) ∧ k a = Ready (Ok b).
Proof.
  destruct m as [[a|e]|]; cbn.
  - split; [eauto|]. by intros (a' & [= <-] & ?).
  - split; [done|]. by intros (? & [=] & _).
  - split; [done|]. by intros (? & [=] & _).
Qed.
Lemma make_Ok s s' : make s = Ready (Ok s') → s' = s ∧ establish s = Ready None.
Proof. unfold make. destruct (establish s) as [[]|]; intros [=]; auto. Qed.

Definition built (self : TransportConnector) (tls : TlsConnector) : Prop :=
  ∃ opts log, tls_build ctx_lib bundled keylog_handle (tr_builder self) opts [] = (Ok tls, log).
Definition well_built (self : TransportConnector) : Prop := built self (tr_tls self).

Lemma transport_build_well proxies nodelay tls_info http builder opts self :
  transport_build proxies nodelay tls_info http builder opts = Ok self → well_built self.
Proof.
  unfold transport_build. destruct (tls_build _ _ _ _ _ _) as [[tls|e] log] eqn:E; [|done].
  intros [= <-]. eexists _, _. exact E.
Qed.
Lemma transport_build_Ok proxies nodelay tls_info http builder opts self :
  transport_build proxies nodelay tls_info http builder opts = Ok self →
  tr_proxies self = proxies ∧ tr_nodelay self = nodelay ∧ tr_tls_info self = tls_info ∧
  tr_http self = http ∧ tr_builder self = builder.
Proof. unfold transport_build. destruct (tls_build _ _ _ _ _ _) as [[tls|e] log]; [|done]. by intros [= <-]. Qed.
Lemma connection_tls_built self d tls :
  well_built self → connection_tls self d = Ok tls → built self tls.
Proof.
  unfold connection_tls. intros Hw. destruct (cd_tls_options d) as [opts|]; [|by intros [= <-]].
  destruct (tls_build _ _ _ _ _ _) as [r log] eqn:E. cbn. intros ->. by eexists _, _.
Qed.

(** A context of this connector verifies certificates as the client asked, and
    its handshakes check the name they were asked to check. *)
Lemma built_spec self tls :
  built self tls →
  (∀ peer, SetVerify peer ∈ tc_ssl tls ↔ peer = b_cert_verification (tr_builder self)) ∧
  verify_hostname (tc_settings tls) = b_verify_hostname (tr_builder self).
Proof.
  intros (opts & log & Hb). pose proof (tls_build_emits _ _ _ _ _ _ _ _ Hb) as He.
  destruct (tls_build_yields _ _ _ _ _ _ _ _ Hb) as (-> & _ & -> & _).
  split; [|done]. intros b. rewrite He. cbn. split; [intros [?%elem_of_nil|]; done|by right].
Qed.

(** The handshake of a destination: over which stream it is made, and how. *)
Definition secured_as (verify verify_name : bool) (uri : Uri) (s : Stream) (whole : Stream) : Prop :=
  ∃ context ssl host,
    (whole = TlsStream s context ssl ∨ whole = NodelayOff (TlsStream s context ssl)) ∧
    uri_host uri = Some host ∧ IntoSsl (normalize_host host) ∈ ssl ∧
    (∀ name, IntoSsl name ∈ ssl → name = normalize_host host) ∧
    (∀ peer, SetVerify peer ∈ context ↔ peer = verify) ∧
    (∀ b, SetVerifyHostname b ∈ ssl ↔ b = verify_name).
Definition secured (self : TransportConnector) : Uri → Stream → Stream → Prop :=
  secured_as (b_cert_verification (tr_builder self)) (b_verify_hostname (tr_builder self)).

Lemma handshake_secured self tls d s io on io' :
  built self tls → is_http (cd_uri d) = false →
  (ssl ←≫ Ready (setup2 tls d) ; perform_handshake tls ssl s) = Ready (Ok io) →
  nagle_again on io = Ready (Ok io') →
  secured self (cd_uri d) s (stream_of io').
Proof.
  intros Hb Hh Hio Hn. apply and_then_Ok in Hio as (ssl & [= Hssl] & Hio).
  apply and_then_Ok in Hio as (s' & (-> & _)%make_Ok & [= <-]).
  assert (stream_of io' = TlsStream s (tc_ssl tls) ssl ∨
          stream_of io' = NodelayOff (TlsStream s (tc_ssl tls) ssl)) as Hs.
  { unfold nagle_again in Hn. destruct on; [|by injection Hn as <-; left].
    apply and_then_Ok in Hn as (s2 & (-> & _)%make_Ok & [= <-]). by right. }
  destruct (built_spec self tls Hb) as [Hv Hname].
  unfold setup2 in Hssl. destruct (setup_ssl2 _ _ _ _ _ _ _) as [r log] eqn:Hrun. cbn in Hssl. subst r.
  pose proof (setup_ssl2_emits _ _ _ _ _ _ _ _ _ Hrun) as He.
  pose proof (setup_ssl2_yields _ _ _ _ _ _ _ _ _ Hrun) as Hy. cbn in Hy. subst log.
  destruct (uri_host (cd_uri d)) as [host|] eqn:Hhost.
  2: { by apply (setup_ssl2_no_host cfg_lib cache_pop tls _ (cd_version d) _ Hhost) in Hrun. }
  exists (tc_ssl tls), ssl, host. split_and!; try done.
  - apply He. right. cbn. eauto.
  - intros name [?%elem_of_nil|(h & Hh' & ->)]%He; [done|]. congruence.
  - intros b. rewrite He. cbn. rewrite Hname. split; [intros [?%elem_of_nil|]; done|by right].
Qed.

(** ** Routes *)

(** A connection to the proxy itself, on which a tunnel is asked for. *)
Definition to_proxy (p : Intercept) (s : Stream) : Prop :=
  ∃ options addrs, connector_addrs (to_enforce_http options) resolver (ic_uri p) = Ok addrs ∧
    (s = TcpStream options (ic_uri p) addrs ∨
     ∃ context ssl, s = TlsStream (TcpStream options (ic_uri p) addrs) context ssl).
(** The stream over which the destination is greeted. *)
Definition route (self : TransportConnector) (req : Descriptor) (s : Stream) : Prop :=
  let uri := cd_uri req in
  match intercepted self req with
  | None =>
    let options := connection_options self (is_https uri) req in
    ∃ addrs, connector_addrs (to_enforce_http options) resolver uri = Ok addrs ∧
      s = TcpStream options uri addrs
  | Some (InterceptedProxy p) =>
    match socks_scheme (ic_uri p) with
    | Some (version, dns) =>
      ∃ addrs op, connector_addrs (to_enforce_http (tr_http self)) resolver (ic_uri p) = Ok addrs ∧
        let tcp := TcpStream (tr_http self) (ic_uri p) addrs in
        s = SocksStream tcp op ∧
        socks_call (socks tcp) resolver
          {| sc_auth := raw_auth p; sc_version := version; sc_dns_resolve := dns |} (Ok tt) uri = Ok op
    | None =>
      ∃ inner host, uri_host uri = Some host ∧ to_proxy p inner ∧
        s = TunnelStream inner (connect_request host (port_or_default uri) (tunnel_headers p))
    end
  | Some (InterceptedUnix path) =>
    ∃ host, uri_host uri = Some host ∧
      s = TunnelStream (UnixStream path) (connect_request host (port_or_default uri) HEmpty)
  end.

Lemma https_not_http u : is_https u = true → is_http u = false.
Proof. unfold is_https, is_http. by destruct (uri_scheme u) as [[]|]. Qed.

Lemma http_call_Ok options dst s :
  http_call options dst = Ready (Ok s) →
  ∃ addrs, connector_addrs (to_enforce_http options) resolver dst = Ok addrs ∧ s = TcpStream options dst addrs.
Proof.
  unfold http_call. intros (addrs & [= H] & (-> & _)%make_Ok)%and_then_Ok. exists addrs. split; [|done].
  by destruct (connector_addrs _ _ _); simplify_eq/=.
Qed.

Lemma https_call_uri_Ok self uri io :
  https_call_uri self uri = Ready (Ok io) →
  ∃ conn, h_http self uri = Ready (Ok conn) ∧
    (stream_of io = conn ∨ ∃ ctx ssl, stream_of io = TlsStream conn ctx ssl).
Proof.
  unfold https_call_uri. intros (conn & Hc & H)%and_then_Ok. exists conn. split; [done|].
  destruct (option_scheme_eqb _ _); cbn [negb] in H; [right|left; by injection H as <-].
  apply and_then_Ok in H as (ssl & _ & H). apply and_then_Ok in H as (s & (-> & _)%make_Ok & [= <-]).
  by eexists _, _.
Qed.

Lemma connect_tunnel_Ok connector proxy_uri headers dst s :
  connect_tunnel connector proxy_uri headers dst = Ready (Ok s) →
  ∃ io host, https_call_uri connector proxy_uri = Ready (Ok io) ∧ uri_host dst = Some host ∧
    s = TunnelStream (stream_of io) (connect_request host (port_or_default dst) headers).
Proof.
  unfold connect_tunnel. destruct (https_call_uri _ _) as [[io|e]|]; [|done..].
  unfold tunnel_call. destruct (uri_host dst) as [host|]; [|done].
  destruct (tunnel _ _ _) as [[r|e]|]; intros [= <-]. by exists io, host.
Qed.

Lemma build_https_Ok self https d c :
  build_https_connector self https d = Ok c →
  h_http c = http_call (connection_options self https d) ∧ connection_tls self d = Ok (h_tls c).
Proof.
  unfold build_https_connector. destruct (connection_tls self d); [|done]. by intros [= <-].
Qed.

Lemma connect_socks_Ok self p version dns dst s :
  connect_socks self p version dns dst = Ready (Ok s) →
  ∃ addrs op, connector_addrs (to_enforce_http (tr_http self)) resolver (ic_uri p) = Ok addrs ∧
    let tcp := TcpStream (tr_http self) (ic_uri p) addrs in
    s = SocksStream tcp op ∧
    socks_call (socks tcp) resolver
      {| sc_auth := raw_auth p; sc_version := version; sc_dns_resolve := dns |} (Ok tt) dst = Ok op.
Proof.
  unfold connect_socks. destruct (uri_host dst); [|done].
  destruct (http_call _ _) as [[tcp|e]|] eqn:Hc; [|done..].
  apply http_call_Ok in Hc as (addrs & Ha & ->). cbn [set_dns_mode set_socks_version set_auth].
  destruct (socks_call _ _ _ _ _) as [op|e] eqn:Ho; [|done]. intros [= <-]. by exists addrs, op.
Qed.

Lemma tunnel_to_proxy self https d c p headers dst s :
  build_https_connector self https d = Ok c →
  connect_tunnel c (ic_uri p) headers dst = Ready (Ok s) →
  ∃ inner host, uri_host dst = Some host ∧ to_proxy p inner ∧
    s = TunnelStream inner (connect_request host (port_or_default dst) headers).
Proof.
  intros [Hhttp _]%build_https_Ok (io & host & Hio & Hh & ->)%connect_tunnel_Ok.
  apply https_call_uri_Ok in Hio as (conn & Hc & Hs). rewrite Hhttp in Hc.
  apply http_call_Ok in Hc as (addrs & Ha & ->). exists (stream_of io), host. split_and!; [done| |done].
  eexists _, _. split; [exact Ha|]. destruct Hs as [->|(ctx & ssl & ->)]; eauto.
Qed.

Lemma established_secured self c io d on io' :
  built self (h_tls c) → is_https (cd_uri d) = true →
  (x ←≫ https_call_established c io d ; nagle_again on x) = Ready (Ok io') →
  secured self (cd_uri d) io (stream_of io').
Proof.
  intros Hb Hs (x & Hx & Hn)%and_then_Ok. unfold https_call_established in Hx.
  rewrite https_not_http in Hx by done. by eapply handshake_secured; eauto using https_not_http.
Qed.

Lemma connect_auto_https self req conn :
  well_built self → is_https (cd_uri req) = true → connect_auto self req = Ready (Ok conn) →
  c_proxy conn = None ∧ ∃ s, secured self (cd_uri req) s (c_stream conn) ∧ route self req s.
Proof.
  intros Hw Hs. unfold connect_auto, route. destruct (intercepted self req) as [[p|path]|] eqn:Hi.
  - unfold connect_via_proxy. destruct (socks_scheme (ic_uri p)) as [[version dns]|] eqn:Hsch.
    + intros (s & Hsock & H)%and_then_Ok. apply and_then_Ok in H as (c & [= Hc] & H).
      apply and_then_Ok in H as (x & Hx & H). apply and_then_Ok in H as (io & Hio & [= <-]).
      split; [done|]. exists s. split; [|by apply connect_socks_Ok].
      eapply (established_secured _ c); [|done|apply and_then_Ok; eauto].
      apply build_https_Ok in Hc as [_ Hc]. by eapply connection_tls_built.
    + rewrite Hs. intros (c & [= Hc] & H)%and_then_Ok. apply and_then_Ok in H as (s & Ht & H).
      apply and_then_Ok in H as (x & Hx & H). apply and_then_Ok in H as (io & Hio & [= <-]).
      split; [done|]. exists s. split; [|by eapply tunnel_to_proxy].
      eapply (established_secured _ c); [|done|apply and_then_Ok; eauto].
      apply build_https_Ok in Hc as [_ Hc]. by eapply connection_tls_built.
  - unfold connect_via_proxy. rewrite Hs. intros (s & Ht & H)%and_then_Ok.
    apply and_then_Ok in H as (io & Hio & [= <-]). split; [done|].
    apply connect_tunnel_Ok in Ht as (io0 & host & Hio0 & Hh & ->).
    unfold https_call_uri in Hio0. apply and_then_Ok in Hio0 as (u & (-> & _)%make_Ok & [= <-]).
    eexists. split; [|by exists host].
    eapply (established_secured self {| h_http := unix_call path; h_tls := tr_tls self |} _ _ false);
      [exact Hw|done|apply and_then_Ok; eauto].
  - unfold connect_auto_proxy. rewrite Hs. intros (c & [= Hc] & H)%and_then_Ok.
    apply and_then_Ok in H as (io & Hio & H). apply and_then_Ok in H as (io' & Hn & [= <-]).
    cbn [bool_decide andb] in Hio. rewrite bool_decide_false in Hio by (by intros [? [=]]).
    cbn [andb] in Hio. split; [done|]. unfold https_call in Hio.
    apply and_then_Ok in Hio as (s & Hs' & Hio). rewrite https_not_http in Hio by done.
    apply build_https_Ok in Hc as [Hhttp Htls]. rewrite Hhttp in Hs'. exists s. split.
    + eapply (handshake_secured self (h_tls c));
        [by eapply connection_tls_built|by apply https_not_http|exact Hio|exact Hn].
    + apply http_call_Ok in Hs' as (addrs & Ha & ->). eauto.
Qed.

(** C5: Security of a connection to an HTTPS destination, on every path.  The
    last thing done is a TLS handshake for the host of the destination, which
    verifies certificates and the host name as the client is configured to, and
    nothing else is checked; requests on it are not addressed to a proxy.  Below
    the handshake is a TCP connection to an address of the destination, or a
    [CONNECT] tunnel or a SOCKS handshake to the destination over a connection
    to the proxy that intercepts it, or a tunnel over a Unix socket. *)
Theorem https_end_to_end self req conn :
  well_built self → is_https (cd_uri req) = true → connect_auto self req = Ready (Ok conn) →
  c_proxy conn = None ∧ ∃ s, secured self (cd_uri req) s (c_stream conn) ∧ route self req s.
Proof. apply connect_auto_https. Qed.

(** The socket at the bottom of a stream. *)
Fixpoint base_socket (s : Stream) : Stream :=
  match s with
  | TcpStream _ _ _ | UnixStream _ => s
  | TunnelStream s _ | SocksStream s _ | TlsStream s _ _ | NodelayOff s => base_socket s
  end.

Lemma perform_handshake_Ok tls ssl conn io :
  perform_handshake tls ssl conn = Ready (Ok io) → stream_of io = TlsStream conn (tc_ssl tls) ssl.
Proof. by intros (s & (-> & _)%make_Ok & [= <-])%and_then_Ok. Qed.
Lemma nagle_again_base on io io' :
  nagle_again on io = Ready (Ok io') → base_socket (stream_of io') = base_socket (stream_of io).
Proof.
  unfold nagle_again. destruct on; [|by intros [= <-]].
  destruct io; by intros (s' & (-> & _)%make_Ok & [= <-])%and_then_Ok.
Qed.
Lemma https_call_base c d io :
  https_call c d = Ready (Ok io) →
  ∃ conn, h_http c (cd_uri d) = Ready (Ok conn) ∧ base_socket (stream_of io) = base_socket conn.
Proof.
  unfold https_call. intros (conn & Hc & H)%and_then_Ok. exists conn. split; [done|].
  destruct (is_http (cd_uri d)); [by injection H as <-|].
  apply and_then_Ok in H as (ssl & _ & ->%perform_handshake_Ok). done.
Qed.

(** C21: Only a connection to an HTTP proxy is addressed as one.  When requests on
    a connection are addressed to a proxy, with its credentials and headers,
    then that proxy intercepts the destination, the destination is not HTTPS,
    the proxy is not a SOCKS proxy, and the socket leads to the proxy. *)
Theorem proxy_addressed self req conn p :
  connect_auto self req = Ready (Ok conn) → c_proxy conn = Some p →
  intercepted self req = Some (InterceptedProxy p) ∧ is_https (cd_uri req) = false ∧
  socks_scheme (ic_uri p) = None ∧
  ∃ options addrs, base_socket (c_stream conn) = TcpStream options (ic_uri p) addrs.
Proof.
  unfold connect_auto. destruct (intercepted self req) as [[q|path]|] eqn:Hi; cbn [connect_via_proxy].
  - destruct (socks_scheme (ic_uri q)) as [[version dns]|] eqn:Hsch.
    + intros (s & _ & H)%and_then_Ok. apply and_then_Ok in H as (c & _ & H).
      apply and_then_Ok in H as (x & _ & H). by apply and_then_Ok in H as (io & _ & [= <-]).
    + destruct (is_https (cd_uri req)) eqn:Hs.
      * intros (c & _ & H)%and_then_Ok. apply and_then_Ok in H as (s & _ & H).
        apply and_then_Ok in H as (x & _ & H). by apply and_then_Ok in H as (io & _ & [= <-]).
      * unfold map_answer_err. destruct (connect_auto_proxy _ _ _) as [[c0|e]|] eqn:Hc; [|done..].
        cbn [map_err]. intros [= <-] Hp. unfold connect_auto_proxy in Hc.
        apply and_then_Ok in Hc as (c & [= Hb] & Hc). apply and_then_Ok in Hc as (io & Hio & Hc).
        apply and_then_Ok in Hc as (io' & Hn & [= <-]). cbn in Hp. injection Hp as ->.
        split_and!; try done. cbn [c_stream conn_from_stream].
        rewrite (nagle_again_base _ _ _ Hn). apply https_call_base in Hio as (tcp & Ht & ->).
        apply build_https_Ok in Hb as [Hhttp _].
        assert (h_http (if bool_decide (is_Some (Some p)) && is_https (cd_uri (set_descriptor_uri (ic_uri p) req))
                  then {| h_http := h_http c; h_tls := no_alpn (h_tls c) |} else c) = h_http c) as Heq
          by by case_match.
        rewrite Heq, Hhttp in Ht. apply http_call_Ok in Ht as (addrs & _ & ->). by eexists _, _.
  - destruct (is_https (cd_uri req)).
    + intros (s & _ & H)%and_then_Ok. by apply and_then_Ok in H as (io & _ & [= <-]).
    + by intros (io & _ & [= <-])%and_then_Ok.
  - unfold connect_auto_proxy. intros (c & _ & H)%and_then_Ok.
    apply and_then_Ok in H as (io & _ & H). by apply and_then_Ok in H as (io' & _ & [= <-]).
Qed.
End connector.

(** ** Examples *)
Module ConnectorExamples.
Definition uri (scheme : Scheme) (host : str) : Uri :=
  {| uri_scheme := Some scheme;
     uri_authority := Some {| auth_str := host; auth_host := host; auth_port := None |};
     uri_path_and_query := Some {| pq_path := #"/"; pq_query := None |} |}.
Definition proxy : Intercept :=
  {| ic_uri := uri HTTP #"proxy.test";
     ic_auth := AuthBasic {| hv_bytes := #"Basic dTpw"; hv_sensitive := true |};
     ic_extra := Extra_default |}.
Definition matcher : Matcher :=
  {| m_http := Some proxy; m_https := Some proxy; m_no := NoProxy_empty; m_unix := None |}.
Definition tcp : TcpOptions :=
  {| to_enforce_http := false; to_connect_timeout := None; to_happy_eyeballs_timeout := None;
     to_nodelay := true; to_reuse_address := false; to_linger := None;
     to_send_buffer_size := None; to_recv_buffer_size := None; to_tcp_user_timeout := None;
     to_tcp_keepalive := {| ka_time := None; ka_interval := None; ka_retries := None |};
     to_socket_bind := SocketBindOptions_default |}.
Definition resolver : Resolve :=
  λ _, Ok [{| sa_ip := V4 1; sa_port := 0; sa_flowinfo := 0; sa_scope_id := 0 |}].
Definition accepted : Reads := [Ok ( #"HTTP/1.1 200 OK" ++ CRLF ++ CRLF)].
Definition req (scheme : Scheme) : @ConnectionDescriptor Matcher TlsOptions :=
  ConnectionDescriptor_new (uri scheme #"example.com") Group_default None None None None.
(** The context the default options give. *)
Definition tls : TlsConnector :=
  {| tc_ssl := [SetCertStore []; SetVerify true; SetMinVersion None; SetMaxVersion None];
     tc_cache := false;
     tc_settings :=
       {| no_ticket := false; ech_grease := None; verify_hostname := true; tls_sni := true;
          alpn_protocols := Some [ALPN_HTTP2; ALPN_HTTP1]; alps_protocols := None;
          alps_use_new_codepoint := false; key_shares := None; server_padding := None |} |}.
Definition self : TransportConnector (KeyLog := unit) :=
  {| tr_proxies := [matcher]; tr_nodelay := true; tr_tls_info := false; tr_tls := tls; tr_http := tcp;
     tr_builder := TlsConnector_builder |}.
Abbreviation connect :=
  (connect_auto (K := nat) (KeyLog := unit) (λ _, Ready None) (λ _, accepted) (λ _, None)
     (λ _ _, None) (λ _, None) (Some []) (λ _, Ok tt) (λ _, None) (λ _, None) resolver
     TunnelExamples.ref_parse (λ _, 0)).

Lemma self_well_built :
  transport_build (λ _, None) (Some []) (λ _, Ok tt) [matcher] true false tcp TlsConnector_builder None =
  Ok self.
Proof. reflexivity. Qed.

Lemma https_end_to_end_witness :
  ∃ conn, connect self (req HTTPS) = Ready (Ok conn) ∧ c_proxy conn = None ∧
    ∃ s, secured self (uri HTTPS #"example.com") s (c_stream conn) ∧
      route (λ _ _, None) resolver self (req HTTPS) s.
Proof.
  assert (match connect self (req HTTPS) with Ready (Ok _) => true | _ => false end = true) as Hok
    by (vm_compute; reflexivity).
  destruct (connect self (req HTTPS)) as [[conn|e]|] eqn:Hc; [|discriminate Hok..].
  exists conn. split; [reflexivity|].
  refine (https_end_to_end (λ _, Ready None) (λ _, accepted) (λ _, None) (λ _ _, None) (λ _, None)
    (Some []) (λ _, Ok tt) (λ _, None) (λ _, None) resolver TunnelExamples.ref_parse (λ _, 0)
    self (req HTTPS) conn _ _ Hc); [|reflexivity].
  exact (transport_build_well _ _ _ _ _ _ _ _ _ _ self_well_built).
Defined.

Lemma proxy_addressed_witness :
  ∃ conn p, connect self (req HTTP) = Ready (Ok conn) ∧ c_proxy conn = Some p ∧
    ∃ options addrs, base_socket (c_stream conn) = TcpStream options (ic_uri p) addrs.
Proof.
  assert (match connect self (req HTTP) with
          | Ready (Ok c) => bool_decide (is_Some (c_proxy c)) | _ => false end = true) as Hok
    by (vm_compute; reflexivity).
  destruct (connect self (req HTTP)) as [[conn|e]|] eqn:Hc; [|discriminate Hok..].
  destruct (c_proxy conn) as [p|] eqn:Hp; [|discriminate Hok].
  exists conn, p. split; [reflexivity|]. split; [exact Hp|].
  refine (proj2 (proj2 (proj2 (proxy_addressed (λ _, Ready None) (λ _, accepted) (λ _, None)
    (λ _ _, None) (λ _, None) (Some []) (λ _, Ok tt) (λ _, None) (λ _, None) resolver
    TunnelExamples.ref_parse (λ _, 0) self (req HTTP) conn p Hc Hp)))).
Defined.
End ConnectorExamples.
