(* ===== verification/RequestBuilder.v ===== *)
(** * Building requests

    [src/client/request.rs] (the request and its builder) and
    [src/client/emulate.rs] (the profiles a request or a client can take on).
    [RequestBuilder::multipart] is in [Multipart.v].

    The request carries its settings in the extensions of the [http] crate,
    one value per type.  Here the extensions are a record of the settings the
    program uses and of everything else that is stored with them.  [None] is a
    panic. *)

From S2P Require Import Prelude Http Errors Net Ext Message Decoder Header Config Group Timeout.
From S2P Require Import Matcher Proxy Redirect CookieStore Jar PoolSystem HttpClient.
From S2P Require Import TlsSession Tls.

Section request.
Context `{HV : HeaderValueLib, HM : HeaderMapLib, UL : UriLib, UR : UrlLib, PL : PercentLib}.
Context `{B64 : Base64Lib, NL : IpNetLib}.

(** The options of the HTTP engine, the cookie stores, everything else that is
    kept in extensions, and the client of a builder. *)
Context {H1 H2 S O Cl : Type}.

(** ** Data *)
Abbreviation Options := (@RequestOptions Matcher TlsOptions H1 H2).

(** The values in [http::Extensions]. *)
Record Extensions := {
  x_options : option (RequestConfig Options);
  x_orig_headers : option (RequestConfig OrigHeaderMap);
  x_default_headers : option (RequestConfig bool);
  x_timeout : option (RequestConfig TimeoutOptions);
  x_redirect : option (RequestConfig Policy);
  x_cookie_store : option (RequestConfig S);
  x_accept_encoding : option (RequestConfig AcceptEncoding);
  x_protocol : option str;
  x_other : O;
}.
(** The extensions of a new request. *)
Definition Extensions_new (o : O) : Extensions :=
  {| x_options := None; x_orig_headers := None; x_default_headers := None; x_timeout := None;
     x_redirect := None; x_cookie_store := None; x_accept_encoding := None; x_protocol := None;
     x_other := o |}.

(** The places of the settings. *)
Definition options_slot : Slot Extensions (RequestConfig Options) :=
  {| sl_get := x_options; sl_set v e := e <| x_options := v |>;
     sl_get_set v e := match e with Build_Extensions _ _ _ _ _ _ _ _ _ => eq_refl end |}.
Definition orig_slot : Slot Extensions (RequestConfig OrigHeaderMap) :=
  {| sl_get := x_orig_headers; sl_set v e := e <| x_orig_headers := v |>;
     sl_get_set v e := match e with Build_Extensions _ _ _ _ _ _ _ _ _ => eq_refl end |}.
Definition default_slot : Slot Extensions (RequestConfig bool) :=
  {| sl_get := x_default_headers; sl_set v e := e <| x_default_headers := v |>;
     sl_get_set v e := match e with Build_Extensions _ _ _ _ _ _ _ _ _ => eq_refl end |}.
Definition timeout_slot : Slot Extensions (RequestConfig TimeoutOptions) :=
  {| sl_get := x_timeout; sl_set v e := e <| x_timeout := v |>;
     sl_get_set v e := match e with Build_Extensions _ _ _ _ _ _ _ _ _ => eq_refl end |}.
Definition redirect_slot : Slot Extensions (RequestConfig Policy) :=
  {| sl_get := x_redirect; sl_set v e := e <| x_redirect := v |>;
     sl_get_set v e := match e with Build_Extensions _ _ _ _ _ _ _ _ _ => eq_refl end |}.
Definition cookie_slot : Slot Extensions (RequestConfig S) :=
  {| sl_get := x_cookie_store; sl_set v e := e <| x_cookie_store := v |>;
     sl_get_set v e := match e with Build_Extensions _ _ _ _ _ _ _ _ _ => eq_refl end |}.
Definition accept_slot : Slot Extensions (RequestConfig AcceptEncoding) :=
  {| sl_get := x_accept_encoding; sl_set v e := e <| x_accept_encoding := v |>;
     sl_get_set v e := match e with Build_Extensions _ _ _ _ _ _ _ _ _ => eq_refl end |}.

(** [Request]: a request of the [http] crate whose body may be missing. *)
Abbreviation WRequest := (Request Extensions (option Body)).

Record RequestBuilder := {
  rb_client : Cl;
  rb_request : result WRequest BoxError;
}.

(** ** Requests *)
Definition Request_new (o : O) (method : Method) (uri : Uri) : WRequest :=
  {| req_method := method; req_uri := uri; req_version := HTTP_11; req_headers := hm_empty;
     req_ext := Extensions_new o; req_body := None |}.

(** [config], and [config_mut] with the change made through the reference. *)
Definition config {V} (slot : Slot Extensions (RequestConfig V)) (self : WRequest) : option V :=
  config_get slot (req_ext self).
Definition config_mut {V} (slot : Slot Extensions (RequestConfig V)) (f : option V → option V)
    (self : WRequest) : WRequest :=
  set_ext (config_get_mut slot f (req_ext self)) self.
(** [get_or_insert_default] of an option, with the change made to the value. *)
Definition get_or_insert {V} (d : V) (f : V → V) (v : option V) : option V := Some (f (default d v)).

Definition request_version (self : WRequest) : option Version :=
  config options_slot self ≫= ro_version.
Definition request_version_mut (f : option Version → option Version) (self : WRequest) : WRequest :=
  config_mut options_slot (get_or_insert RequestOptions_default (λ o, o <| ro_version ::= f |>)) self.

(** [o] is what the extensions of a new request hold besides the settings. *)
Definition Request_try_clone (o : O) (self : WRequest) : option WRequest :=
  body ← (match req_body self with
          | Some body => body ← try_clone body; Some (Some body)
          | None => Some None
          end);
  let req := Request_new o (req_method self) (req_uri self) in
  let req := set_headers (req_headers self) req in
  let req := request_version_mut (λ _, request_version self) req in
  let req := set_ext (req_ext self) req in
  Some (with_body body req).

(** The conversions with [http::Request]. *)
Definition request_from {T} (into : T → Body) (req : Request Extensions T) : WRequest :=
  with_body (Some (into (req_body req))) req.
Definition into_http (req : WRequest) : Request Extensions Body :=
  with_body (default Body_empty (req_body req)) req.

(** ** Emulation profiles *)
Record Emulation := {
  em_group : @Group Matcher;
  em_headers : HeaderMap HeaderValue;
  em_orig_headers : OrigHeaderMap;
  em_tls_options : option TlsOptions;
  em_http1_options : option H1;
  em_http2_options : option H2;
}.
Definition Emulation_builder : Emulation :=
  {| em_group := Group_default; em_headers := hm_empty; em_orig_headers := OrigHeaderMap_new;
     em_tls_options := None; em_http1_options := None; em_http2_options := None |}.
Definition em_set_http1_options (opts : H1) (self : Emulation) : Emulation :=
  self <| em_http1_options := Some opts |>.
Definition em_set_http2_options (opts : H2) (self : Emulation) : Emulation :=
  self <| em_http2_options := Some opts |>.
Definition em_set_tls_options (opts : TlsOptions) (self : Emulation) : Emulation :=
  self <| em_tls_options := Some opts |>.
Definition em_set_headers (src : HeaderMap HeaderValue) (self : Emulation) : Emulation :=
  self <| em_headers ::= λ h, replace_headers h src |>.
Definition em_set_orig_headers (src : OrigHeaderMap) (self : Emulation) : Emulation :=
  self <| em_orig_headers ::= λ h, orig_extend h src |>.
Definition em_build (group : @Group Matcher) (self : Emulation) : Emulation :=
  self <| em_group ::= group_emulate group |>.

(** ** The builder *)

(** [if let Ok(ref mut req) = self.request]. *)
Definition on_ok (f : WRequest → result WRequest BoxError) (self : RequestBuilder) : RequestBuilder :=
  match rb_request self with
  | Ok req => self <| rb_request := f req |>
  | Err _ => self
  end.
Definition modify (f : WRequest → WRequest) : RequestBuilder → RequestBuilder := on_ok (λ req, Ok (f req)).

Definition from_parts (client : Cl) (request : WRequest) : RequestBuilder :=
  {| rb_client := client; rb_request := Ok request |}.

(** The key and the value are what their conversions give. *)
Definition header_sensitive (key : result HeaderName BoxError) (value : result HeaderValue BoxError)
    (sensitive : bool) : RequestBuilder → RequestBuilder :=
  on_ok (λ req,
    match key with
    | Ok key =>
      match value with
      | Ok value =>
        let value := if sensitive then set_sensitive true value else value in
        Ok (set_headers (hm_append key value (req_headers req)) req)
      | Err e => Err (Error_builder e)
      end
    | Err e => Err (Error_builder e)
    end).
Definition header key value : RequestBuilder → RequestBuilder := header_sensitive key value false.
Definition headers (hs : HeaderMap HeaderValue) : RequestBuilder → RequestBuilder :=
  modify (λ req, set_headers (replace_headers (req_headers req) hs) req).
Definition orig_headers (hs : OrigHeaderMap) : RequestBuilder → RequestBuilder :=
  modify (config_mut orig_slot (λ _, Some hs)).
Definition default_headers (enable : bool) : RequestBuilder → RequestBuilder :=
  modify (config_mut default_slot (λ _, Some enable)).

(** [HeaderValue::try_from] a string. *)
Definition invalid_value : BoxError := [NOther #"failed to parse header value"].
Definition value_from (s : str) : result HeaderValue BoxError :=
  match from_maybe_shared s with Some v => Ok v | None => Err invalid_value end.

Definition auth (token : result HeaderValue BoxError) : RequestBuilder → RequestBuilder :=
  header_sensitive (Ok AUTHORIZATION) token true.
Definition builder_basic_auth (username : str) (password : option str) (self : RequestBuilder) :
    option RequestBuilder :=
  header_value ← basic_auth username password;
  Some (header_sensitive (Ok AUTHORIZATION) (Ok header_value) true self).
Definition bearer_auth (token : str) : RequestBuilder → RequestBuilder :=
  header_sensitive (Ok AUTHORIZATION) (value_from (#"Bearer " ++ token)) true.

Definition timeout (d : Z) : RequestBuilder → RequestBuilder :=
  modify (config_mut timeout_slot (get_or_insert TimeoutOptions_default (set_total_timeout d))).
Definition builder_read_timeout (d : Z) : RequestBuilder → RequestBuilder :=
  modify (config_mut timeout_slot (get_or_insert TimeoutOptions_default (set_read_timeout d))).

(** [serialize] appends the parameters to the query of a URL. *)
Definition invalid_uri : BoxError := [NOther #"invalid uri"].
Definition query (serialize : Url → result Url BoxError) : RequestBuilder → RequestBuilder :=
  on_ok (λ req,
    match Url_parse (uri_to_string (req_uri req)) with
    | None => Err (Error_builder invalid_uri)
    | Some url =>
      let query_len := from_option length 0 (Url_query url) in
      match serialize url with
      | Err err => Err (Error_builder err)
      | Ok url =>
        match Url_query url with
        | Some q =>
          if decide (length q = query_len) then Ok req
          else match uri_try_from (Url_as_str url) with
               | Some value => Ok (set_uri value req)
               | None => Err (Error_builder invalid_uri)
               end
        | None => Ok req
        end
      end
    end).

Definition static_value (s : str) : HeaderValue := {| hv_bytes := s; hv_sensitive := false |}.
(** [form] and [json], with what the serializers give. *)
Definition serialized (content_type : str) (body : result str BoxError) :
    RequestBuilder → RequestBuilder :=
  on_ok (λ req,
    match body with
    | Ok body =>
      let h := or_insert CONTENT_TYPE (static_value content_type) (req_headers req) in
      Ok (with_body (Some (Reusable body)) (set_headers h req))
    | Err err => Err (Error_builder err)
    end).
Definition form : result str BoxError → RequestBuilder → RequestBuilder :=
  serialized #"application/x-www-form-urlencoded".
Definition json : result str BoxError → RequestBuilder → RequestBuilder :=
  serialized #"application/json".
Definition body (b : Body) : RequestBuilder → RequestBuilder := modify (with_body (Some b)).

Definition version (v : Version) : RequestBuilder → RequestBuilder :=
  modify (λ req,
    let req := request_version_mut (λ _, Some v) req in
    config_mut options_slot (get_or_insert RequestOptions_default (λ o, o <| ro_version := Some v |>)) req).
Definition builder_redirect (policy : Policy) : RequestBuilder → RequestBuilder :=
  modify (config_mut redirect_slot (λ _, Some policy)).
Definition cookie_provider (store : S) : RequestBuilder → RequestBuilder :=
  modify (config_mut cookie_slot (λ _, Some store)).
Definition on_accept (f : AcceptEncoding → AcceptEncoding) : RequestBuilder → RequestBuilder :=
  modify (config_mut accept_slot (get_or_insert AcceptEncoding_default f)).
Definition gzip (b : bool) : RequestBuilder → RequestBuilder := on_accept (λ a, a <| ae_gzip := b |>).
Definition brotli (b : bool) : RequestBuilder → RequestBuilder := on_accept (λ a, a <| ae_brotli := b |>).
Definition deflate (b : bool) : RequestBuilder → RequestBuilder := on_accept (λ a, a <| ae_deflate := b |>).
Definition zstd (b : bool) : RequestBuilder → RequestBuilder := on_accept (λ a, a <| ae_zstd := b |>).

Definition on_options (f : Options → Options) : RequestBuilder → RequestBuilder :=
  modify (config_mut options_slot (get_or_insert RequestOptions_default f)).
Definition builder_proxy (proxy : Proxy) (self : RequestBuilder) : option RequestBuilder :=
  match rb_request self with
  | Ok _ => m ← into_matcher proxy; Some (on_options (λ o, o <| ro_proxy := Some m |>) self)
  | Err _ => Some self
  end.
Definition on_socket (f : SocketBindOptions → SocketBindOptions) : RequestBuilder → RequestBuilder :=
  on_options (λ o, o <| ro_socket_bind_options ::= get_or_insert SocketBindOptions_default f |>).
Definition local_address (a : option IpAddr) : RequestBuilder → RequestBuilder :=
  on_socket (set_local_address a).
Definition local_addresses (v4 v6 : option Z) : RequestBuilder → RequestBuilder :=
  on_socket (set_local_addresses v4 v6).
Definition builder_interface (i : str) : RequestBuilder → RequestBuilder := on_socket (set_interface i).
Definition emulation (e : Emulation) (self : RequestBuilder) : RequestBuilder :=
  match rb_request self with
  | Ok _ =>
    let self := on_options (λ o,
      o <| ro_group ::= group_emulate (em_group e) |> <| ro_tls_options := em_tls_options e |>
        <| ro_http1_options := em_http1_options e |> <| ro_http2_options := em_http2_options e |>) self in
    orig_headers (em_orig_headers e) (headers (em_headers e) self)
  | Err _ => self
  end.
Definition group (g : @Group Matcher) : RequestBuilder → RequestBuilder :=
  on_options (λ o, o <| ro_group ::= group_request g |>).

Definition build (self : RequestBuilder) : result WRequest BoxError := rb_request self.
Definition build_split (self : RequestBuilder) : Cl * result WRequest BoxError :=
  (rb_client self, rb_request self).
Definition builder_try_clone (o : O) (self : RequestBuilder) : option RequestBuilder :=
  req ← (match rb_request self with Ok req => Request_try_clone o req | Err _ => None end);
  Some {| rb_client := rb_client self; rb_request := Ok req |}.

(** ** Credentials in the URI *)

(** [percent_decode(..).decode_utf8().ok()]. *)
Definition percent_decode_utf8 (s : str) : option str := from_utf8 (percent_decode_str s).

(** The credentials, and the URI without them. *)
Definition extract_authority (uri : Uri) : option (str * option str) * Uri :=
  let '(username, password) := userinfo uri in
  match username ≫= percent_decode_utf8 with
  | None => (None, uri)
  | Some username =>
    let password := password ≫= percent_decode_utf8 in
    if negb (bool_decide (username = [])) || bool_decide (is_Some password)
    then (Some (username, password), set_userinfo [] None uri)
    else (None, uri)
  end.

Definition RequestBuilder_new (client : Cl) (request : result WRequest BoxError) :
    option RequestBuilder :=
  match request with
  | Ok req =>
    let '(auth, uri) := extract_authority (req_uri req) in
    let builder := {| rb_client := client; rb_request := Ok (set_uri uri req) |} in
    match auth with
    | Some (username, password) => builder_basic_auth username password builder
    | None => Some builder
    end
  | Err e => Some {| rb_client := client; rb_request := Err e |}
  end.

(** ** Sequences of calls *)
Inductive BuilderCall :=
| CHeader (key : result HeaderName BoxError) (value : result HeaderValue BoxError)
| CHeaders (hs : HeaderMap HeaderValue)
| COrigHeaders (hs : OrigHeaderMap)
| CDefaultHeaders (enable : bool)
| CAuth (token : result HeaderValue BoxError)
| CBasicAuth (username : str) (password : option str)
| CBearerAuth (token : str)
| CTimeout (d : Z)
| CReadTimeout (d : Z)
| CQuery (serialize : Url → result Url BoxError)
| CForm (form : result str BoxError)
| CJson (json : result str BoxError)
| CBody (b : Body)
| CVersion (v : Version)
| CRedirect (policy : Policy)
| CCookieProvider (store : S)
| CGzip (b : bool)
| CBrotli (b : bool)
| CDeflate (b : bool)
| CZstd (b : bool)
| CProxy (proxy : Proxy)
| CLocalAddress (a : option IpAddr)
| CLocalAddresses (v4 v6 : option Z)
| CInterface (i : str)
| CEmulation (e : Emulation)
| CGroup (g : @Group Matcher).

Definition builder_call (call : BuilderCall) (self : RequestBuilder) : option RequestBuilder :=
  match call with
  | CHeader key value => Some (header key value self)
  | CHeaders hs => Some (headers hs self)
  | COrigHeaders hs => Some (orig_headers hs self)
  | CDefaultHeaders enable => Some (default_headers enable self)
  | CAuth token => Some (auth token self)
  | CBasicAuth username password => builder_basic_auth username password self
  | CBearerAuth token => Some (bearer_auth token self)
  | CTimeout d => Some (timeout d self)
  | CReadTimeout d => Some (builder_read_timeout d self)
  | CQuery serialize => Some (query serialize self)
  | CForm f => Some (form f self)
  | CJson j => Some (json j self)
  | CBody b => Some (body b self)
  | CVersion v => Some (version v self)
  | CRedirect policy => Some (builder_redirect policy self)
  | CCookieProvider store => Some (cookie_provider store self)
  | CGzip b => Some (gzip b self)
  | CBrotli b => Some (brotli b self)
  | CDeflate b => Some (deflate b self)
  | CZstd b => Some (zstd b self)
  | CProxy proxy => builder_proxy proxy self
  | CLocalAddress a => Some (local_address a self)
  | CLocalAddresses v4 v6 => Some (local_addresses v4 v6 self)
  | CInterface i => Some (builder_interface i self)
  | CEmulation e => Some (emulation e self)
  | CGroup g => Some (group g self)
  end.
Fixpoint builder_calls (calls : list BuilderCall) (self : RequestBuilder) : option RequestBuilder :=
  match calls with
  | [] => Some self
  | call :: calls => self ← builder_call call self; builder_calls calls self
  end.

(** ** Facts *)

(** What a call asks of the connection. *)
Definition asked (o : Options) (call : BuilderCall) : Options :=
  match call with
  | CVersion v => o <| ro_version := Some v |>
  | CProxy proxy => o <| ro_proxy := into_matcher proxy |>
  | CLocalAddress a =>
    o <| ro_socket_bind_options ::= get_or_insert SocketBindOptions_default (set_local_address a) |>
  | CLocalAddresses v4 v6 =>
    o <| ro_socket_bind_options ::= get_or_insert SocketBindOptions_default (set_local_addresses v4 v6) |>
  | CInterface i =>
    o <| ro_socket_bind_options ::= get_or_insert SocketBindOptions_default (set_interface i) |>
  | CEmulation e =>
    o <| ro_group ::= group_emulate (em_group e) |> <| ro_tls_options := em_tls_options e |>
      <| ro_http1_options := em_http1_options e |> <| ro_http2_options := em_http2_options e |>
  | CGroup g => o <| ro_group ::= group_request g |>
  | _ => o
  end.
Definition options_of (req : WRequest) : Options :=
  default RequestOptions_default (config options_slot req).

Lemma options_of_config_mut f req :
  options_of (config_mut options_slot (get_or_insert RequestOptions_default f) req) = f (options_of req).
Proof. by destruct req as [? ? ? ? [[[]|]] ?]. Qed.

(** A call that changes a setting of another kind keeps the options. *)
Lemma options_of_set_ext x req :
  x_options x = x_options (req_ext req) → options_of (set_ext x req) = options_of req.
Proof. unfold options_of, config, config_get. cbn. by intros ->. Qed.
Lemma options_of_other {V} (slot : Slot Extensions (RequestConfig V)) f req :
  (∀ v x, x_options (sl_set slot v x) = x_options x) →
  options_of (config_mut slot f req) = options_of req.
Proof. intros H. apply options_of_set_ext, H. Qed.

(** The request after a call that succeeds, and the error of one that fails. *)
Definition after_call (call : BuilderCall) (req : WRequest) (r : result WRequest BoxError) : Prop :=
  match r with
  | Ok req' => req_method req' = req_method req ∧ req_version req' = req_version req ∧
               options_of req' = asked (options_of req) call
  | Err e => is_builder e = true
  end.

Lemma builder_call_ok call client req :
  ∃ r, builder_call call (from_parts client req) =
       Some {| rb_client := client; rb_request := r |} ∧ after_call call req r.
Proof.
  destruct call; cbn [builder_call];
    try (eexists; split; [reflexivity|]; split_and!; [done..|];
         first [by apply options_of_other; intros ? []|by rewrite !options_of_config_mut]; fail);
    try (eexists; split; [reflexivity|]; unfold after_call;
         repeat (case_match; simplify_eq); by repeat split).
  - unfold builder_basic_auth. rewrite basic_auth_ok. by eexists.
  - eexists. split; [reflexivity|]. split_and!; [done..|]. unfold request_version_mut.
    rewrite !options_of_config_mut. by destruct (options_of req).
  - unfold builder_proxy. destruct (into_matcher_intercept proxy) as (m & Hm & _).
    cbn. rewrite Hm. eexists. split; [reflexivity|]. split_and!; [done..|].
    rewrite options_of_config_mut. cbn [asked]. by rewrite Hm.
  - eexists. split; [reflexivity|]. split_and!; [done..|].
    rewrite options_of_other by (by intros ? []). by destruct req as [? ? ? ? [[[]|]] ?].
Qed.

Lemma builder_call_err call client e :
  builder_call call {| rb_client := client; rb_request := Err e |} =
  Some {| rb_client := client; rb_request := Err e |}.
Proof. destruct call; try done. cbn. unfold builder_basic_auth. by rewrite basic_auth_ok. Qed.

Lemma builder_calls_err calls client e :
  builder_calls calls {| rb_client := client; rb_request := Err e |} =
  Some {| rb_client := client; rb_request := Err e |}.
Proof.
  induction calls as [|call calls IH]; [done|]. cbn [builder_calls].
  by rewrite builder_call_err.
Qed.

(** A sequence of calls does not panic.  It ends with the error of the first
    call that fails, or with a request of the same method that asks for what
    the calls ask for, in their order. *)
Lemma builder_calls_spec calls client req :
  ∃ r, builder_calls calls (from_parts client req) =
       Some {| rb_client := client; rb_request := r |} ∧
    match r with
    | Ok req' => req_method req' = req_method req ∧ req_version req' = req_version req ∧
                 options_of req' = foldl asked (options_of req) calls
    | Err e => is_builder e = true ∧ ∃ calls1 call calls2 req1,
        calls = calls1 ++ call :: calls2 ∧
        builder_calls calls1 (from_parts client req) = Some (from_parts client req1) ∧
        builder_call call (from_parts client req1) =
          Some {| rb_client := client; rb_request := Err e |}
    end.
Proof.
  revert req. induction calls as [|call calls IH]; intros req; [by eexists|].
  destruct (builder_call_ok call client req) as (r & Hc & Hr). cbn [builder_calls].
  rewrite Hc. cbn [mbind option_bind]. destruct r as [req1|e].
  - destruct Hr as (Hm & Hv & Ho). destruct (IH req1) as (r & Hcs & Hr). exists r. split; [done|].
    destruct r as [req'|e]; cbn [foldl].
    + destruct Hr as (-> & -> & ->). by rewrite Ho.
    + destruct Hr as (He & calls1 & call' & calls2 & req2 & -> & Hc1 & Hc').
      split; [done|]. exists (call :: calls1), call', calls2, req2. split_and!; [done| |done].
      cbn [builder_calls]. by rewrite Hc.
  - rewrite builder_calls_err. eexists. split; [done|]. split; [done|].
    by exists [], call, calls, req.
Qed.

(** A clone has everything of the request except the version of the [http]
    request, which is reset to HTTP/1.1; a request with a stream has none. *)
Lemma Request_try_clone_spec o req :
  Request_try_clone o req =
  match req_body req with
  | Some (Boxed _ _) => None
  | _ => Some (set_version HTTP_11 req)
  end.
Proof. by destruct req as [? ? ? ? ? [[]|]]. Qed.

(** The user name in a URI is not empty when there is a password. *)
Lemma userinfo_password uri : (userinfo uri).1 = Some [] → (userinfo uri).2 = None.
Proof.
  unfold userinfo, non_empty. destruct (_ ≫= _) as [[info ?]|]; [|done].
  destruct (split_once _ info) as [[[|c u] p]|]; naive_solver.
Qed.

Lemma pct_decode_nil s : pct_decode s = [] → s = [].
Proof. destruct s as [|c [|h [|l s]]]; cbn; repeat case_match; naive_solver. Qed.

Lemma set_userinfo_none uri a :
  valid_parts uri = true → uri_authority uri = Some a → is_Some (authority_parse (host_and_port a)) →
  ∃ a', set_userinfo [] None uri = set_authority a' uri ∧ auth_str a' = host_and_port a.
Proof.
  intros Hv Ha [a' Ha']. exists a'. unfold set_userinfo, userinfo_authority. rewrite Ha, Ha'.
  assert (valid_parts (set_authority a' uri) = true) as [u Hu]%uri_from_parts_valid.
  { unfold valid_parts in *. rewrite Ha in Hv. cbn. done. }
  rewrite Hu. cbn. split; [by apply uri_from_parts_Some in Hu|]. by apply authority_parse_Some.
Qed.

(** Credentials in the URI of a request.  A request to a URI with a user
    name that is text after decoding is sent with the decoded name and password
    as basic credentials, marked as sensitive and after any the request had, and
    to the URI without them: the same scheme, host, port and path.  A password
    that is not text is dropped.  Every other request is left as it is, also
    one whose URI has a password and no user name. *)
Theorem uri_credentials client req :
  valid_parts (req_uri req) = true →
  (∀ a, uri_authority (req_uri req) = Some a → is_Some (authority_parse (host_and_port a))) →
  ∃ req', RequestBuilder_new client (Ok req) = Some (from_parts client req') ∧
    match (userinfo (req_uri req)).1 ≫= percent_decode_utf8 with
    | Some (c :: cs) =>
      let password := (userinfo (req_uri req)).2 ≫= percent_decode_utf8 in
      let credentials := {| hv_bytes := #"Basic " ++ encode_block ((c :: cs) ++ #":" ++ default [] password);
                            hv_sensitive := true |} in
      (∀ n, hm_get_all (req_headers req') n = hm_get_all (req_headers req) n ++
              (if decide (n = AUTHORIZATION) then [credentials] else [])) ∧
      (∃ a a', uri_authority (req_uri req) = Some a ∧ auth_str a' = host_and_port a ∧
         req_uri req' = set_authority a' (req_uri req)) ∧
      userinfo (req_uri req') = (None, None) ∧
      req_method req' = req_method req ∧ req_ext req' = req_ext req ∧ req_body req' = req_body req
    | _ => req' = req
    end.
Proof.
  intros Hv Hp. unfold RequestBuilder_new, extract_authority.
  pose proof (userinfo_password (req_uri req)) as Hno.
  assert (∀ n, (userinfo (req_uri req)).1 = Some n → ∃ a, uri_authority (req_uri req) = Some a) as Hau.
  { intros n. unfold userinfo. destruct (uri_authority (req_uri req)); [by eauto|done]. }
  destruct (userinfo (req_uri req)) as [username password]. cbn [fst snd] in *.
  destruct (username ≫= percent_decode_utf8) as [name|] eqn:Hn.
  2:{ exists req. split; [|done]. by destruct req. }
  apply bind_Some in Hn as (n & -> & Hn). destruct name as [|c cs].
  - assert (n = []) as ->.
    { apply pct_decode_nil. revert Hn. unfold percent_decode_utf8, from_utf8.
      rewrite percent_decode_str_spec. case_match; naive_solver. }
    rewrite (Hno eq_refl). exists req. split; [|done]. by destruct req.
  - destruct (Hau n eq_refl) as [a Ha].
    destruct (set_userinfo_none (req_uri req) a Hv Ha (Hp a Ha)) as (a' & Hs & Ha'). rewrite Hs.
    rewrite bool_decide_eq_false_2 by done. cbn [negb orb].
    unfold builder_basic_auth. rewrite basic_auth_ok. cbn [mbind option_bind].
    eexists. split; [reflexivity|]. cbn zeta. split_and!.
    + intros m. cbn [req_headers set_headers set_uri set_sensitive hv_bytes]. rewrite hm_get_all_append.
      case_decide; subst; by rewrite ?app_nil_r.
    + by exists a, a'.
    + change (userinfo (set_authority a' (req_uri req)) = (None, None)).
      pose proof (userinfo_set_authority a [] None a' (req_uri req) Ha') as [-> _]. by rewrite encode_nil.
    + done.
    + done.
    + done.
Qed.

End request.

(** ** Examples *)
Module RequestBuilderExamples.
Definition secret : Uri :=
  {| uri_scheme := Some HTTPS;
     uri_authority := Some {| auth_str := #"joe:p%40ss@example.com"; auth_host := #"example.com";
                              auth_port := None |};
     uri_path_and_query := Some {| pq_path := #"/a"; pq_query := None |} |}.
Definition login : Request (@Extensions _ _ unit unit unit unit) (option Body) :=
  Request_new tt GET secret.

(** The credentials of the URI move into a header. *)
Lemma uri_credentials_witness :
  ∃ req', RequestBuilder_new tt (Ok login) = Some (from_parts tt req') ∧
    hm_get_all (req_headers req') AUTHORIZATION =
      [{| hv_bytes := #"Basic " ++ encode_block #"joe:p@ss"; hv_sensitive := true |}] ∧
    auth_str <$> uri_authority (req_uri req') = Some #"example.com".
Proof.
  destruct (uri_credentials tt login eq_refl) as (req' & Hb & Hr).
  { intros a [= <-]. by eexists. }
  exists req'. split; [done|]. destruct Hr as (Hh & (a & a' & Ha & Hs & Hu) & _). split.
  - rewrite Hh. reflexivity.
  - rewrite Hu. cbn in Ha |- *. injection Ha as <-. by rewrite Hs.
Defined.

(** A password without a user name stays in the URI. *)
Example password_only :
  let u := {| uri_scheme := Some HTTPS;
              uri_authority := Some {| auth_str := #":secret@example.com"; auth_host := #"example.com";
                                       auth_port := None |};
              uri_path_and_query := Some {| pq_path := #"/"; pq_query := None |} |} in
  extract_authority u = (None, u).
Proof. reflexivity. Qed.
End RequestBuilderExamples.
