(* ===== verification/Client.v ===== *)
(** * The client

    [src/client.rs] (the settings of a client, its builder, and how it composes
    the layers), the builder of the HTTP service at the end of
    [src/client/layer/client.rs], and [ConnectorBuilder] of
    [src/conn/connector.rs].

    The timer and the executor of the runtime are not modelled; the session
    cache a user supplies is a parameter of the TLS connections.  A layer that a
    user adds is an arbitrary service; the theorems are about clients without
    such layers.  [None] is a panic. *)

From S2P Require Import Retry.
From S2P Require Import Prelude Http Errors Net Ext Dns Message Decoder Header Config Group Tcp.
From S2P Require Import Timeout Matcher Proxy CookieStore Jar Pool PoolSystem HttpClient Redirect.
From S2P Require Import Lru TlsSession Tls Connector RequestBuilder.

Inductive HttpVersionPref := Http1Pref | Http2Pref | AllPref.

Section client.
Context `{HV : HeaderValueLib, HM : HeaderMapLib, HN : HeaderNameLib, UL : UriLib, UR : UrlLib}.
Context `{PL : PercentLib, B64 : Base64Lib, NL : IpNetLib}.
(** The options of the HTTP engine, the cookie stores, what else is in the
    extensions of requests and responses, the bodies of responses, the budgets
    of retries, the session keys, the key logs, and the layers of a user. *)
Context {H1 H2 S O X RB F K KeyLog Layer ConnLayer : Type}.

Abbreviation Ext := (@Extensions HM NL H1 H2 S O).
Abbreviation RetrySettings := (@Retry.Policy HM Ext F).
Abbreviation Req := (Request Ext Body).

(** ** Connectors *)

(** [ConnectorBuilder]. *)
Record ConnectorBuilder := {
  cb_proxies : list Matcher;
  cb_verbose : bool;
  cb_nodelay : bool;
  cb_tls_info : bool;
  cb_timeout : option Z;
  cb_http : TcpOptions;
  cb_builder : TlsConnectorBuilder KeyLog;
}.
Definition ConnectorBuilder_new (proxies : list Matcher) : ConnectorBuilder :=
  {| cb_proxies := proxies; cb_verbose := false; cb_nodelay := true; cb_tls_info := false;
     cb_timeout := None; cb_http := HttpConnector_new; cb_builder := TlsConnector_builder |}.
Definition cb_with_http (call : TcpOptions → TcpOptions) (self : ConnectorBuilder) :=
  self <| cb_http ::= call |>.
Definition cb_with_tls (call : TlsConnectorBuilder KeyLog → TlsConnectorBuilder KeyLog)
    (self : ConnectorBuilder) := self <| cb_builder ::= call |>.
Definition cb_set_timeout (timeout : option Z) (self : ConnectorBuilder) :=
  self <| cb_timeout := timeout |>.
Definition cb_set_verbose (enabled : bool) (self : ConnectorBuilder) := self <| cb_verbose := enabled |>.
Definition cb_set_tls_info (enabled : bool) (self : ConnectorBuilder) := self <| cb_tls_info := enabled |>.
Definition cb_tcp_nodelay (enabled : bool) (self : ConnectorBuilder) := self <| cb_nodelay := enabled |>.

(** [Connector]: the service that connects, the layers around it, and the
    timeout around all of them. *)
Record ConnectorService := {
  cn_timeout : option Z;
  cn_layers : list ConnLayer;
  cn_transport : TransportConnector (KeyLog:=KeyLog);
}.

(** The TLS library, the bundled certificates and the key logs. *)
Context (ctx_lib : CtxOp → option BoxError) (bundled : option CertStore).
Context (keylog_handle : KeyLog → result unit BoxError).

Definition cb_build (tls_options : option TlsOptions) (layers : list ConnLayer)
    (self : ConnectorBuilder) : result ConnectorService BoxError :=
  service ←? transport_build ctx_lib bundled keylog_handle (cb_proxies self) (cb_nodelay self)
               (cb_tls_info self) (cb_http self) (cb_builder self) tls_options ;
  Ok {| cn_timeout := cb_timeout self; cn_layers := layers; cn_transport := service |}.

(** ** The HTTP service *)

(** [Builder] and [HttpClient] of [src/client/layer/client.rs]; [usize_max] is
    the greatest [usize]. *)
Context (usize_max : nat).
Record HttpBuilder := {
  hb_config : ClientConfig;
  hb_engine : @Engine H1 H2;
  hb_pool_config : Pool.Config;
  hb_cookie_store : option S;
}.
Definition HttpBuilder_new : HttpBuilder :=
  {| hb_config := {| retry_canceled_requests := true; set_host := true; cc_ver := Auto |};
     hb_engine := {| h1_builder := None; h2_builder := None |};
     hb_pool_config := {| idle_timeout := Some 90000000000%Z; cfg_max_idle_per_host := usize_max;
                          max_pool_size := None |};
     hb_cookie_store := None |}.
Definition hb_pool_idle_timeout (val : option Z) (self : HttpBuilder) :=
  self <| hb_pool_config ::= λ c, c <| idle_timeout := val |> |>.
Definition hb_pool_max_idle_per_host (max_idle : nat) (self : HttpBuilder) :=
  self <| hb_pool_config ::= λ c, c <| cfg_max_idle_per_host := max_idle |> |>.
Definition hb_pool_max_size (max_size : option nat) (self : HttpBuilder) :=
  self <| hb_pool_config ::= λ c, c <| max_pool_size := max_size |> |>.
Definition hb_http2_only (val : bool) (self : HttpBuilder) :=
  self <| hb_config ::= λ c, c <| cc_ver := if val then Http2 else Auto |> |>.
Definition hb_http1_options (opts : option H1) (self : HttpBuilder) :=
  self <| hb_engine ::= engine_options opts None |>.
Definition hb_http2_options (opts : option H2) (self : HttpBuilder) :=
  self <| hb_engine ::= engine_options None opts |>.
Definition hb_set_cookie_store (store : option S) (self : HttpBuilder) :=
  self <| hb_cookie_store := store |>.

Record HttpService := {
  hs_config : ClientConfig;
  hs_engine : @Engine H1 H2;
  hs_pool_config : Pool.Config;
  hs_cookie_store : RequestConfig S;
  hs_connector : ConnectorService;
}.
Definition hb_build (connector : ConnectorService) (self : HttpBuilder) : HttpService :=
  {| hs_config := hb_config self; hs_engine := hb_engine self; hs_pool_config := hb_pool_config self;
     hs_cookie_store := hb_cookie_store self; hs_connector := connector |}.

(** ** Settings *)

(** [Config] of [src/client.rs]. *)
Record Settings := {
  st_error : option BoxError;
  st_headers : HeaderMap HeaderValue;
  st_orig_headers : OrigHeaderMap;
  st_accept_encoding : AcceptEncoding;
  st_connect_timeout : option Z;
  st_connection_verbose : bool;
  st_pool_idle_timeout : option Z;
  st_pool_max_idle_per_host : nat;
  st_pool_max_size : option nat;
  st_tcp_nodelay : bool;
  st_tcp_reuse_address : bool;
  st_tcp_linger : option Z;
  st_tcp_keepalive : option Z;
  st_tcp_keepalive_interval : option Z;
  st_tcp_keepalive_retries : option Z;
  st_tcp_user_timeout : option Z;
  st_tcp_send_buffer_size : option Z;
  st_tcp_recv_buffer_size : option Z;
  st_tcp_happy_eyeballs_timeout : option Z;
  st_socket_bind_options : SocketBindOptions;
  st_proxies : list Matcher;
  st_auto_sys_proxy : bool;
  st_retry_policy : RetrySettings;
  st_redirect_policy : Redirect.Policy;
  st_referer : bool;
  st_timeout_options : TimeoutOptions;
  st_cookie_store : option S;
  st_hickory_dns : bool;
  st_dns_overrides : gmap str SocketAddrs;
  st_dns_resolver : option Resolve;
  st_http_version_pref : HttpVersionPref;
  st_https_only : bool;
  st_layers : list Layer;
  st_connector_layers : list ConnLayer;
  st_tls_sni : bool;
  st_tls_info : bool;
  st_tls_keylog : option KeyLog;
  st_tls_identity : option Identity;
  st_tls_cert_store : option CertStore;
  st_tls_cert_verification : bool;
  st_tls_verify_hostname : bool;
  st_tls_min_version : option SslVersion;
  st_tls_max_version : option SslVersion;
  st_tls_options : option TlsOptions;
  st_http1_options : option H1;
  st_http2_options : option H2;
}.

(** [Client::builder]. *)
Definition Client_builder : Settings :=
  {| st_error := None; st_headers := hm_empty; st_orig_headers := OrigHeaderMap_new;
     st_accept_encoding := AcceptEncoding_default; st_connect_timeout := None;
     st_connection_verbose := false; st_pool_idle_timeout := Some 90000000000%Z;
     st_pool_max_idle_per_host := usize_max; st_pool_max_size := None; st_tcp_nodelay := true;
     st_tcp_reuse_address := false; st_tcp_linger := None; st_tcp_keepalive := Some 15000000000%Z;
     st_tcp_keepalive_interval := Some 15000000000%Z; st_tcp_keepalive_retries := Some 3%Z;
     st_tcp_user_timeout := Some 30000000000%Z; st_tcp_send_buffer_size := None;
     st_tcp_recv_buffer_size := None; st_tcp_happy_eyeballs_timeout := Some 300000000%Z;
     st_socket_bind_options := SocketBindOptions_default; st_proxies := []; st_auto_sys_proxy := true;
     st_retry_policy := Retry.Policy_default; st_redirect_policy := NoRedirect; st_referer := true;
     st_timeout_options := TimeoutOptions_default; st_cookie_store := None; st_hickory_dns := true;
     st_dns_overrides := ∅; st_dns_resolver := None; st_http_version_pref := AllPref;
     st_https_only := false; st_layers := []; st_connector_layers := []; st_tls_sni := true;
     st_tls_info := false; st_tls_keylog := None; st_tls_identity := None; st_tls_cert_store := None;
     st_tls_cert_verification := true; st_tls_verify_hostname := true; st_tls_min_version := None;
     st_tls_max_version := None; st_tls_options := None; st_http1_options := None;
     st_http2_options := None |}.
Implicit Types (self : Settings).

(** [ClientBuilder]; the value of [user_agent] is what its conversion gives. *)
Definition user_agent (value : result HeaderValue BoxError) self :=
  match value with
  | Ok value => self <| st_headers ::= hm_insert USER_AGENT value |>
  | Err err => self <| st_error := Some (Error_builder err) |>
  end.
Definition client_default_headers (headers : HeaderMap HeaderValue) self :=
  self <| st_headers ::= λ h, replace_headers h headers |>.
Definition client_orig_headers (orig_headers : OrigHeaderMap) self :=
  self <| st_orig_headers ::= λ h, orig_extend h orig_headers |>.
Definition client_cookie_provider (store : S) self := self <| st_cookie_store := Some store |>.
(** [jar] is a new jar. *)
Definition cookie_store (jar : S) (enable : bool) self :=
  if enable then client_cookie_provider jar self else self <| st_cookie_store := None |>.
Definition client_gzip (b : bool) self := self <| st_accept_encoding ::= λ a, a <| ae_gzip := b |> |>.
Definition client_brotli (b : bool) self := self <| st_accept_encoding ::= λ a, a <| ae_brotli := b |> |>.
Definition client_zstd (b : bool) self := self <| st_accept_encoding ::= λ a, a <| ae_zstd := b |> |>.
Definition client_deflate (b : bool) self := self <| st_accept_encoding ::= λ a, a <| ae_deflate := b |> |>.
Definition no_zstd self := client_zstd false self.
Definition no_gzip self := client_gzip false self.
Definition no_brotli self := client_brotli false self.
Definition no_deflate self := client_deflate false self.
Definition client_redirect (policy : Redirect.Policy) self := self <| st_redirect_policy := policy |>.
Definition client_referer (enable : bool) self := self <| st_referer := enable |>.
Definition client_retry (policy : RetrySettings) self := self <| st_retry_policy := policy |>.
Definition client_proxy (proxy : Proxy) self : option Settings :=
  m ← into_matcher proxy;
  Some (self <| st_proxies ::= λ l, l ++ [m] |> <| st_auto_sys_proxy := false |>).
Definition client_no_proxy self := self <| st_proxies := [] |> <| st_auto_sys_proxy := false |>.
Definition client_timeout (d : Z) self := self <| st_timeout_options ::= set_total_timeout d |>.
Definition client_read_timeout (d : Z) self := self <| st_timeout_options ::= set_read_timeout d |>.
Definition connect_timeout (d : Z) self := self <| st_connect_timeout := Some d |>.
Definition connection_verbose (b : bool) self := self <| st_connection_verbose := b |>.
Definition pool_idle_timeout (d : option Z) self := self <| st_pool_idle_timeout := d |>.
Definition pool_max_idle_per_host (max : nat) self := self <| st_pool_max_idle_per_host := max |>.
(** [NonZeroUsize::new]. *)
Definition pool_max_size (max : nat) self :=
  self <| st_pool_max_size := match max with 0 => None | _ => Some max end |>.
Definition client_https_only (b : bool) self := self <| st_https_only := b |>.
Definition http1_only self := self <| st_http_version_pref := Http1Pref |>.
Definition http2_only self := self <| st_http_version_pref := Http2Pref |>.
Definition client_http1_options (opts : option H1) self := self <| st_http1_options := opts |>.
Definition client_http2_options (opts : option H2) self := self <| st_http2_options := opts |>.
Definition tcp_nodelay (b : bool) self := self <| st_tcp_nodelay := b |>.
Definition tcp_keepalive (d : option Z) self := self <| st_tcp_keepalive := d |>.
Definition tcp_keepalive_interval (d : option Z) self := self <| st_tcp_keepalive_interval := d |>.
Definition tcp_keepalive_retries (n : option Z) self := self <| st_tcp_keepalive_retries := n |>.
Definition tcp_user_timeout (d : option Z) self := self <| st_tcp_user_timeout := d |>.
Definition tcp_reuse_address (b : bool) self := self <| st_tcp_reuse_address := b |>.
Definition tcp_linger (d : option Z) self := self <| st_tcp_linger := d |>.
Definition tcp_send_buffer_size (n : option Z) self := self <| st_tcp_send_buffer_size := n |>.
Definition tcp_recv_buffer_size (n : option Z) self := self <| st_tcp_recv_buffer_size := n |>.
Definition tcp_happy_eyeballs_timeout (d : option Z) self := self <| st_tcp_happy_eyeballs_timeout := d |>.
Definition client_local_address (a : option IpAddr) self :=
  self <| st_socket_bind_options ::= set_local_address a |>.
Definition client_local_addresses (v4 v6 : option Z) self :=
  self <| st_socket_bind_options ::= set_local_addresses v4 v6 |>.
Definition client_interface (i : str) self := self <| st_socket_bind_options ::= set_interface i |>.
Definition tls_identity (v : Identity) self := self <| st_tls_identity := Some v |>.
Definition tls_cert_store (v : CertStore) self := self <| st_tls_cert_store := Some v |>.
Definition tls_cert_verification (b : bool) self := self <| st_tls_cert_verification := b |>.
Definition tls_verify_hostname (b : bool) self := self <| st_tls_verify_hostname := b |>.
Definition tls_sni (b : bool) self := self <| st_tls_sni := b |>.
Definition tls_keylog (v : KeyLog) self := self <| st_tls_keylog := Some v |>.
Definition tls_min_version (v : SslVersion) self := self <| st_tls_min_version := Some v |>.
Definition tls_max_version (v : SslVersion) self := self <| st_tls_max_version := Some v |>.
Definition tls_info (b : bool) self := self <| st_tls_info := b |>.
Definition tls_options (v : option TlsOptions) self := self <| st_tls_options := v |>.
Definition no_hickory_dns self := self <| st_hickory_dns := false |>.
Definition resolve_to_addrs (domain : str) (addrs : SocketAddrs) self :=
  self <| st_dns_overrides ::= <[domain := addrs]> |>.
Definition dns_resolver (r : Resolve) self := self <| st_dns_resolver := Some r |>.
Definition layer (l : Layer) self := self <| st_layers ::= λ ls, ls ++ [l] |>.
Definition connector_layer (l : ConnLayer) self := self <| st_connector_layers ::= λ ls, ls ++ [l] |>.
Definition client_emulation (e : @Emulation HM NL H1 H2) self :=
  let self := tls_options (em_tls_options e) self in
  let self := client_http1_options (em_http1_options e) self in
  let self := client_default_headers (em_headers e) self in
  let self := client_orig_headers (em_orig_headers e) self in
  client_http2_options (em_http2_options e) self.

(** ** Building *)

(** The environment, the resolvers of the system and of [hickory], and the
    service of [tower-http] before its encodings are chosen. *)
Context (env : str → option str) (gai hickory : Resolve) (new_decoder : AcceptEncoding).

(** [ClientService], from the outside to the inside: the timeout, the layers of
    the user, the configuration, decoding, retries, redirects and the HTTP
    service; with the resolver of its connector. *)
Record ClientService := {
  cl_timeout : RequestConfig TimeoutOptions;
  cl_layers : list Layer;
  cl_config : @Config.Config HM;
  cl_decoder : Decompression;
  cl_retry : @RetryPolicy HM Ext;
  cl_redirect : FollowRedirectPolicy;
  cl_http : HttpService;
  cl_resolver : Resolve;
}.

(** Explicit proxies come first; those of the system are used when neither
    [proxy] nor [no_proxy] was called. *)
Definition client_proxies self : option (list Matcher) :=
  if st_auto_sys_proxy self then m ← from_system env; Some (st_proxies self ++ [m])
  else Some (st_proxies self).
Definition client_resolver self : Resolve :=
  let resolver := match st_dns_resolver self with
                  | Some dns_resolver => dns_resolver
                  | None => if st_hickory_dns self then hickory else gai
                  end in
  let resolver := if decide (st_dns_overrides self = ∅) then resolver
                  else with_overrides resolver (st_dns_overrides self) in
  dyn_resolve resolver.

Definition pref_alpn (pref : HttpVersionPref) : option AlpnProtocol :=
  match pref with
  | AllPref => None
  | Http2Pref => Some ALPN_HTTP2
  | Http1Pref => Some ALPN_HTTP1
  end.
Definition client_tls self (tls : TlsConnectorBuilder KeyLog) : TlsConnectorBuilder KeyLog :=
  let tls := builder_alpn_protocol (pref_alpn (st_http_version_pref self)) tls in
  let tls := builder_keylog (st_tls_keylog self) tls in
  let tls := builder_cert_store (st_tls_cert_store self) tls in
  let tls := builder_identity (st_tls_identity self) tls in
  let tls := builder_max_version (st_tls_max_version self) tls in
  let tls := builder_min_version (st_tls_min_version self) tls in
  let tls := builder_tls_sni (st_tls_sni self) tls in
  let tls := builder_verify_hostname (st_tls_verify_hostname self) tls in
  builder_cert_verification (st_tls_cert_verification self) tls.
Definition client_tcp self (http : TcpOptions) : TcpOptions :=
  let http := http_enforce_http false http in
  let http := http_set_keepalive (st_tcp_keepalive self) http in
  let http := http_set_keepalive_interval (st_tcp_keepalive_interval self) http in
  let http := http_set_keepalive_retries (st_tcp_keepalive_retries self) http in
  let http := http_set_reuse_address (st_tcp_reuse_address self) http in
  let http := http_set_linger (st_tcp_linger self) http in
  let http := http_set_connect_timeout (st_connect_timeout self) http in
  let http := http_set_nodelay (st_tcp_nodelay self) http in
  let http := http_set_send_buffer_size (st_tcp_send_buffer_size self) http in
  let http := http_set_recv_buffer_size (st_tcp_recv_buffer_size self) http in
  let http := http_set_happy_eyeballs_timeout (st_tcp_happy_eyeballs_timeout self) http in
  let http := http_set_tcp_user_timeout (st_tcp_user_timeout self) http in
  let http := match interface (st_socket_bind_options self) with
              | Some i => http_set_interface i http
              | None => http
              end in
  http_set_local_addresses (ipv4_address (st_socket_bind_options self))
    (ipv6_address (st_socket_bind_options self)) http.

Definition client_connector self (proxies : list Matcher) : result ConnectorService BoxError :=
  let builder := ConnectorBuilder_new proxies in
  let builder := cb_set_timeout (st_connect_timeout self) builder in
  let builder := cb_set_tls_info (st_tls_info self) builder in
  let builder := cb_tcp_nodelay (st_tcp_nodelay self) builder in
  let builder := cb_set_verbose (st_connection_verbose self) builder in
  let builder := cb_with_tls (client_tls self) builder in
  let builder := cb_with_http (client_tcp self) builder in
  cb_build (st_tls_options self) (st_connector_layers self) builder.

Definition client_http self (connector : ConnectorService) : HttpService :=
  let builder := HttpBuilder_new in
  let builder := hb_set_cookie_store (st_cookie_store self) builder in
  let builder := hb_http2_options (st_http2_options self) builder in
  let builder := hb_http2_only (match st_http_version_pref self with
                                | Http2Pref => true | _ => false end) builder in
  let builder := hb_http1_options (st_http1_options self) builder in
  let builder := hb_pool_idle_timeout (st_pool_idle_timeout self) builder in
  let builder := hb_pool_max_idle_per_host (st_pool_max_idle_per_host self) builder in
  let builder := hb_pool_max_size (st_pool_max_size self) builder in
  hb_build connector builder.

(** [ClientBuilder::build]. *)
Definition client_build self : option (result ClientService BoxError) :=
  match st_error self with
  | Some err => Some (Err err)
  | None =>
    proxies ← client_proxies self;
    Some (
      connector ←? client_connector self proxies ;
      Ok {| cl_timeout := Some (st_timeout_options self);
            cl_layers := st_layers self;
            cl_config := ConfigServiceLayer_new (st_https_only self) (st_headers self) (st_orig_headers self);
            cl_decoder := decompression_layer new_decoder (st_accept_encoding self);
            cl_retry := RetryPolicy_new (st_retry_policy self);
            cl_redirect := with_https_only (st_https_only self)
                             (with_referer (st_referer self) (FollowRedirectPolicy_new (st_redirect_policy self)));
            cl_http := client_http self connector;
            cl_resolver := client_resolver self |})
  end.

(** ** Requests *)

(** [Client::request]; [o] is what a new request has in its extensions. *)
Definition uri_error (e : UriError) : BoxError :=
  match e with
  | UriBadScheme u => uri_bad_scheme u
  | UriDecode => Error_decode [NOther #"invalid utf-8"]
  | UriBuilder => Error_builder invalid_uri
  end.
Definition client_request {U} `{IntoUri U} (o : O) (client : ClientService) (method : Method) (uri : U) :
    option (@RequestBuilder HM NL H1 H2 S O ClientService) :=
  RequestBuilder_new client
    (match into_uri uri with Ok u => Ok (Request_new o method u) | Err e => Err (uri_error e) end).

(** ** Calling the service

    What happens to a request on its way down.  [answers] are the results that
    the retry layer sees; the requests it sends go to the redirect layer.
    [on_preserve_header] is [netty]'s. *)
Context (on_preserve_header : OrigHeaderMap → Ext → Ext).

(** The redirect layer of each request the retry layer sends. *)
Definition client_call (client : ClientService) (req : Req)
    (answers : list (result (Response X RB) Retry.BoxError * bool)) :
    option (result (list (Called (E:=Ext))) ConfigError) :=
  match config_call orig_slot default_slot on_preserve_header (cl_config client) req with
  | Err e => Some (Err e)
  | Ok req =>
    '(_, (_, req)) ← decompression_call accept_slot (cl_decoder client) req;
    Some (Ok ((λ q, (Redirect.call redirect_slot (cl_redirect client) q).1) <$> (drive (cl_retry client) req answers).1))
  end.

(** The requests that reach the HTTP service, with the redirect machine that
    waits for the response: the first of each attempt, and then one for each
    redirect that is followed at once. *)
Inductive reaches (client : ClientService) (req : Req) : Req → option (Machine (E:=Ext)) → Prop :=
| reaches_direct answers calls q :
    client_call client req answers = Some (Ok calls) → Direct q ∈ calls → reaches client req q None
| reaches_first answers calls q m :
    client_call client req answers = Some (Ok calls) → Redirecting q m ∈ calls →
    reaches client req q (Some m)
| reaches_hop q m res q' m' :
    reaches client req q (Some m) → on_reply (B:=RB) m res = Some (Send q' m') →
    reaches client req q' (Some m').

(** ** Facts *)
Lemma client_call_uri client req answers calls c :
  client_call client req answers = Some (Ok calls) → c ∈ calls →
  (cfg_https_only (cl_config client) = true → is_https (req_uri req) = true) ∧
  match c with
  | Direct q => req_uri q = req_uri req
  | Redirecting q m => req_uri q = req_uri req ∧ https_only (m_policy m) = https_only (cl_redirect client)
  end.
Proof.
  unfold client_call. pose proof (config_call_spec orig_slot default_slot on_preserve_header (cl_config client) req) as Hc.
  destruct (config_call _ _ _ _ _) as [req1|]; [|done]. destruct Hc as (Hs & Hu & _).
  destruct (decompression_call _ _ _) as [[? [? req2]]|] eqn:Hd; [|done].
  apply decompression_call_uri in Hd. cbn [mbind option_bind]. intros [= <-] Hin.
  split; [intros Ho; destruct Hs as [|[_ Hn]]; congruence|].
  apply list_elem_of_fmap in Hin as (q & -> & ->%drive_same). rewrite <- Hu, <- Hd.
  apply call_state.
Qed.

Lemma reaches_https client req q om :
  cfg_https_only (cl_config client) = true → https_only (cl_redirect client) = true →
  reaches client req q om →
  is_https (req_uri q) = true ∧ ∀ m, om = Some m → https_only (m_policy m) = true.
Proof.
  intros Hc Hr. induction 1 as [answers calls q Hcall Hq|answers calls q m Hcall Hq|q m res q' m' _ [_ IH] Hs].
  - destruct (client_call_uri _ _ _ _ _ Hcall Hq) as [Hs Hu]. rewrite Hu. split; [by apply Hs|done].
  - destruct (client_call_uri _ _ _ _ _ Hcall Hq) as [Hs [Hu Hh]]. rewrite Hu.
    split; [by apply Hs|]. intros ? [= <-]. congruence.
  - destruct (on_reply_scheme _ _ _ _ Hs) as [_ Hh]. split; [by apply Hh, IH|].
    intros ? [= <-]. assert (hop (B:=RB) (res_status res) m q' m') as Hop by (by eapply hop_now).
    destruct (hop_state _ _ _ _ Hop) as (_ & _ & -> & _). by apply IH.
Qed.

(** What a client that is built consists of. *)
Lemma client_build_Ok self client :
  client_build self = Some (Ok client) →
  cfg_https_only (cl_config client) = st_https_only self ∧
  https_only (cl_redirect client) = st_https_only self ∧
  let transport := cn_transport (hs_connector (cl_http client)) in
  well_built ctx_lib bundled keylog_handle transport ∧
  b_cert_verification (tr_builder transport) = st_tls_cert_verification self ∧
  b_verify_hostname (tr_builder transport) = st_tls_verify_hostname self ∧
  client_proxies self = Some (tr_proxies transport).
Proof.
  unfold client_build. destruct (st_error self); [done|].
  destruct (client_proxies self) as [proxies|]; [|done]. cbn [mbind option_bind]. intros [= H].
  destruct (client_connector self proxies) as [connector|] eqn:Hc; [|done]. injection H as <-.
  unfold client_connector, cb_build in Hc. destruct (transport_build _ _ _ _ _ _ _ _ _) as [t|] eqn:Ht; [|done].
  injection Hc as <-. pose proof (transport_build_Ok _ _ _ _ _ _ _ _ _ _ Ht) as (Hp & _ & _ & _ & Hb).
  cbn [cl_config cl_redirect cl_http client_http hb_build hs_connector cn_transport].
  split_and!; [done|done|by eapply transport_build_well|by rewrite Hb..|by rewrite Hp].
Qed.

(** The network, the peers and the TLS library, as in [Connector.v]. *)
Context (establish : Stream (K:=K) → poll (option BoxError)).
Context (peer : Stream (K:=K) → Tunnel.Reads) (written : Stream (K:=K) → option BoxError).
Context (socks : Stream (K:=K) → Tunnel.SocksOp → option BoxError).
Context (cfg_lib : CfgOp K → option BoxError) (cache_pop : K → option TlsSession).
Context (parse : str → result (option (nat * option Z)) BoxError).
Context (session_key : @ConnectionId Matcher → K).

End client.

(** ** Examples *)
Module ClientExamples.
(** A client restricted to HTTPS, otherwise with the settings it starts with. *)
Definition settings : Settings (H1:=unit) (H2:=unit) (S:=unit) (O:=unit) (F:=unit) (KeyLog:=unit)
    (Layer:=unit) (ConnLayer:=unit) :=
  client_https_only true (Client_builder 32).
Abbreviation build :=
  (client_build (λ _, None) (Some []) (λ _, Ok tt) 32 (λ _, None) ConnectorExamples.resolver
     ConnectorExamples.resolver AcceptEncoding_default).
Definition page : Request (@Extensions _ _ unit unit unit unit) Body :=
  into_http (Request_new tt GET (ConnectorExamples.uri HTTPS #"example.com")).
Abbreviation connect resolver :=
  (connect_auto (K:=nat) (KeyLog:=unit) (λ _, Ready None) (λ _, ConnectorExamples.accepted) (λ _, None)
     (λ _ _, None) (λ _, None) (Some []) (λ _, Ok tt) (λ _, None) (λ _, None) resolver
     Tunnel.TunnelExamples.ref_parse (λ _, 0)).

End ClientExamples.
