(* ===== verification/Response.v ===== *)
(** * Responses

    [src/client/response.rs] (the response a user gets), [src/client/future.rs]
    (the future of a request) and [HttpInfo] of [src/conn/http.rs].

    The body of a response is the sequence of data frames and errors that
    polling it gives until it ends. *)

From S2P Require Import Prelude Http Errors Net Ext ErrorText Dns Message BodyStream CookieStore Jar.

Section response.
Context `{HM : HeaderMapLib, HV : HeaderValueLib, CL : CookieLib, TL : TimeLib} {O : Type}.

(** ** Data *)

(** [HttpInfo]. *)
Record HttpInfo := {
  hi_remote_addr : SocketAddr;
  hi_local_addr : SocketAddr;
}.

(** The values in the extensions of a response that the program asks for: the
    URI of the request it answers ([RequestUri]), the reason phrase, the
    addresses of the connection, and everything else. *)
Record ResExtensions := {
  re_request_uri : option Uri;
  re_reason : option str;
  re_http_info : option HttpInfo;
  re_other : O;
}.

Abbreviation Frames := (list (result str BoxError)).
Abbreviation HttpRes := (Response ResExtensions Frames).
Record WResponse := {
  r_uri : Uri;
  r_res : HttpRes;
}.

Definition set_res_ext {B} (f : ResExtensions → ResExtensions) (r : Response ResExtensions B) :
    Response ResExtensions B :=
  {| res_status := res_status r; res_version := res_version r; res_headers := res_headers r;
     res_ext := f (res_ext r); res_body := res_body r |}.

(** ** Making a response *)

(** [Extensions::remove::<RequestUri>]. *)
Definition remove_request_uri (r : HttpRes) : option Uri * HttpRes :=
  (re_request_uri (res_ext r), set_res_ext (λ x, x <| re_request_uri := None |>) r).

Definition Response_new (res : HttpRes) (uri : Uri) : WResponse :=
  let '(request_uri, res) := remove_request_uri res in
  {| r_uri := default uri request_uri; r_res := res |}.

(** [Uri::from_static] of [http://no.url.provided.local]. *)
Definition no_uri : Uri :=
  {| uri_scheme := Some HTTP;
     uri_authority := Some {| auth_str := #"no.url.provided.local"; auth_host := #"no.url.provided.local";
                              auth_port := None |};
     uri_path_and_query := Some {| pq_path := #"/"; pq_query := None |} |}.
Definition Response_from (r : HttpRes) : WResponse :=
  let '(uri, res) := remove_request_uri r in {| r_uri := default no_uri uri; r_res := res |}.
Definition into_http_response (r : WResponse) : HttpRes :=
  set_res_ext (λ x, x <| re_request_uri := Some (r_uri r) |>) (r_res r).

(** [ResponseExt::uri] and [ResponseBuilderExt::uri] of [src/ext.rs]. *)
Definition response_ext_uri (r : HttpRes) : option Uri := re_request_uri (res_ext r).
Definition builder_ext_uri (uri : Uri) (r : HttpRes) : HttpRes :=
  set_res_ext (λ x, x <| re_request_uri := Some uri |>) r.

(** ** The body *)

(** [Body::poll_frame] converts the errors. *)
Definition body_frames (body : Frames) : Frames := map_err downcast_or_request <$> body.
(** [BodyExt::collect] and [Collected::to_bytes]. *)
Fixpoint collect (body : Frames) : result str BoxError :=
  match body with
  | [] => Ok []
  | Ok data :: body => rest ←? collect body ; Ok (data ++ rest)
  | Err e :: _ => Err e
  end.

Definition bytes (self : WResponse) : result str BoxError :=
  map_err (with_uri (r_uri self)) (collect (body_frames (res_body (r_res self)))).
Definition response_json {T} (from_slice : str → result T BoxError) (self : WResponse) :
    result T BoxError :=
  match collect (body_frames (res_body (r_res self))) with
  | Ok full => map_err (with_uri (r_uri self)) (map_err Error_decode (from_slice full))
  | Err err => Err (with_uri (r_uri self) err)
  end.

(** The charset of a media type ([mime]), and the encodings of [encoding_rs]. *)
Context {Enc : Type} (mime_charset : str → option str) (for_label : str → option Enc).
Context (decode : Enc → str → str) (UTF_8 : Enc).

Definition text_with_charset (default_encoding : str) (self : WResponse) : result str BoxError :=
  let content_type := hm_get (res_headers (r_res self)) CONTENT_TYPE ≫= to_str in
  let encoding_name := default default_encoding (content_type ≫= mime_charset) in
  let encoding := default UTF_8 (for_label encoding_name) in
  full ←? bytes self ; Ok (decode encoding full).
Definition text (self : WResponse) : result str BoxError := text_with_charset #"utf-8" self.
(** [text] without the feature [charset]. *)
Definition text_lossy (self : WResponse) : result str BoxError :=
  full ←? bytes self ; Ok (from_utf8_lossy full).

(** ** Questions *)
Definition response_cookies (self : WResponse) : list Cookie :=
  omap Cookie_parse (hm_get_all (res_headers (r_res self)) SET_COOKIE).
Definition local_addr (self : WResponse) : option SocketAddr :=
  hi_local_addr <$> re_http_info (res_ext (r_res self)).
Definition remote_addr (self : WResponse) : option SocketAddr :=
  hi_remote_addr <$> re_http_info (res_ext (r_res self)).

Definition error_for_status (self : WResponse) : result WResponse BoxError :=
  let status := res_status (r_res self) in
  if is_client_error status || is_server_error status
  then Err (Error_status_code (r_uri self) status (re_reason (res_ext (r_res self))))
  else Ok self.

(** ** The future of a request *)

(** [Pending]; the URI and the error are taken when it ends. *)
Inductive PendingState :=
| PRequest (uri : option Uri)
| PError (error : option BoxError).

(** [poll], with what the service answers; [None] is the panic after it has
    ended. *)
Definition pending_poll (self : PendingState) (answer : poll (result HttpRes BoxError)) :
    option (poll (result WResponse BoxError)) * PendingState :=
  match self with
  | PError error => (Ready ∘ Err <$> error, PError None)
  | PRequest uri =>
    match answer with
    | Pending => (Some Pending, PRequest uri)
    | Ready res =>
      (uri ← uri;
       Some (Ready (match res with
                    | Ok res => Ok (Response_new res uri)
                    | Err err => Err (pending_error uri err)
                    end)), PRequest None)
    end
  end.

(** ** Facts *)

(** The conversion to a response of the [http] crate and back. *)
Lemma response_roundtrip r :
  re_request_uri (res_ext (r_res r)) = None → Response_from (into_http_response r) = r.
Proof. destruct r as [u [? ? ? [] ?]]; cbn. by intros ->. Qed.

Lemma Response_new_roundtrip res uri : Response_from (into_http_response (Response_new res uri)) = Response_new res uri.
Proof. apply response_roundtrip. by destruct res as [? ? ? [] ?]. Qed.

Lemma builder_uri_kept uri r :
  r_uri (Response_from (builder_ext_uri uri r)) = uri ∧
  response_ext_uri (into_http_response (Response_from (builder_ext_uri uri r))) = Some uri.
Proof. destruct r as [? ? ? [] ?]. split; reflexivity. Qed.

Lemma error_for_status_spec r :
  match error_for_status r with
  | Ok r' => r' = r ∧ ~ (400 <= res_status (r_res r) < 600)%Z
  | Err e => (400 <= res_status (r_res r) < 600)%Z ∧ error_status e = Some (res_status (r_res r)) ∧
             error_uri e = Some (r_uri r)
  end.
Proof.
  unfold error_for_status, is_client_error, is_server_error.
  destruct (_ || _) eqn:E; cbn.
  - apply orb_true_iff in E as [E|E]; apply andb_true_iff in E as [?%Z.leb_le ?%Z.ltb_lt]; split; auto; lia.
  - apply orb_false_iff in E as [E1 E2]. split; [done|]. intros [H1 H2].
    rewrite (proj2 (Z.leb_le _ _)) in E1 by lia. cbn in E1. apply Z.ltb_ge in E1.
    rewrite (proj2 (Z.leb_le _ _)) in E2 by lia. cbn in E2. apply Z.ltb_ge in E2. lia.
Qed.

(** The data of a body is all of its frames; otherwise its first error. *)
Lemma collect_spec body :
  match collect body with
  | Ok data => ∃ chunks, body = Ok <$> chunks ∧ data = concat chunks
  | Err e => ∃ chunks rest, body = (Ok <$> chunks) ++ Err e :: rest
  end.
Proof.
  induction body as [|[data|e] body IH]; cbn.
  - by exists [].
  - destruct (collect body) as [rest|e].
    + destruct IH as (chunks & -> & ->). by exists (data :: chunks).
    + destruct IH as (chunks & rest & ->). by exists (data :: chunks), rest.
  - by exists [], body.
Qed.
End response.

(** ** A response as a body

    The body of a response that is polled: [content_length], [bytes_stream],
    [impl HttpBody for Response] and [From<Response> for Body]. *)
Section polled.
Context `{HM : HeaderMapLib} {Trailers X B : Type} `{BB : !BodyLike (Trailers:=Trailers) B str BoxError}.
Abbreviation Res := (Response X (WBody B)).

Definition set_res_body {B'} (body : B') (r : Res) : Response X B' :=
  {| res_status := res_status r; res_version := res_version r; res_headers := res_headers r;
     res_ext := res_ext r; res_body := body |}.
Definition response_content_length (self : Res) : option Z := body_exact (res_body self).
#[export] Instance Response_BodyLike : BodyLike (Trailers:=Trailers) Res str BoxError := {|
  body_poll self := let '(a, body) := body_poll (res_body self) in (a, set_res_body body self);
  body_exact self := body_exact (res_body self);
  body_end self := body_end (res_body self);
|}.
Definition response_into_body (r : Res) : WBody (IntoBytesBody (WBody B)) := body_wrap (res_body r).

(** The items of [BodyDataStream] in some polls: trailers are skipped. *)
Definition data_items (polls : list (poll (option (result (Frame (Trailers:=Trailers) str) BoxError)))) :
    list (result str BoxError) :=
  omap (λ a, match a with
             | Ready (Some (Ok (Data d))) => Some (Ok d)
             | Ready (Some (Err e)) => Some (Err e)
             | _ => None
             end) polls.
Definition bytes_stream (n : nat) (self : Res) : list (result str BoxError) :=
  data_items (body_polls n (res_body self)).

Lemma response_polls n (r : Res) : body_polls n r = body_polls n (res_body r).
Proof.
  revert r. induction n as [|n IH]; intros r; [done|]. cbn [body_polls body_poll Response_BodyLike].
  destruct (body_poll (res_body r)) as [a b]. by rewrite IH.
Qed.

(** A response that becomes the body of a request sends what it receives: the
    frames, the errors, the length and the end are those of its own body. *)
Theorem piped_response n (r : Res) :
  let BB' := wrap_boxed (Trailers:=Trailers) (B:=WBody B) id id in
  body_polls n (response_into_body r) = body_polls n r ∧
  body_exact (response_into_body r) = response_content_length r ∧
  body_end (response_into_body r) = body_end r.
Proof. split_and!; [|done..]. rewrite response_polls. apply wrap_again. Qed.
End polled.
