(* ===== verification/WebSocket.v ===== *)
(** * WebSockets

    [src/client/ws.rs] (the handshake and the stream of messages),
    [src/client/ws/message.rs] and [src/client/ws/json.rs] (messages), and
    [src/client/upgrade.rs].

    The WebSocket protocol itself is in [tungstenite], which is not in the
    repository: its messages, its close codes and the key it derives are given
    with what its documentation says of them. *)

From S2P Require Import Prelude Http Errors Net Ext Dns Message Decoder Header Config Group Timeout.
From S2P Require Import Matcher Proxy Redirect CookieStore Jar PoolSystem HttpClient.
From S2P Require Import TlsSession Tls RequestBuilder Response.

Definition SEC_WEBSOCKET_VERSION : HeaderName := #"sec-websocket-version".
Definition SEC_WEBSOCKET_KEY : HeaderName := #"sec-websocket-key".
Definition SEC_WEBSOCKET_ACCEPT : HeaderName := #"sec-websocket-accept".
Definition SEC_WEBSOCKET_PROTOCOL : HeaderName := #"sec-websocket-protocol".
Definition UPGRADE : HeaderName := #"upgrade".
Definition CONNECTION : HeaderName := #"connection".

(** ** Messages *)

(** A close code is a 16-bit number; [tungstenite] has an enumeration for them,
    which it converts to and from numbers. *)
Class CloseCodeLib := {
  TCloseCode : Type;
  tcode_from : Z → TCloseCode;
  tcode_into : TCloseCode → Z;
  tcode_from_into code : (0 <= code < 2 ^ 16)%Z → tcode_into (tcode_from code) = code;
}.
#[export] Instance RefCloseCode : CloseCodeLib :=
  {| TCloseCode := Z; tcode_from := id; tcode_into := id; tcode_from_into code _ := eq_refl |}.

Definition CLOSE_NORMAL : Z := 1000.
Definition CLOSE_AWAY : Z := 1001.
Definition CLOSE_PROTOCOL : Z := 1002.
Definition CLOSE_UNSUPPORTED : Z := 1003.
Definition CLOSE_STATUS : Z := 1005.
Definition CLOSE_ABNORMAL : Z := 1006.
Definition CLOSE_INVALID : Z := 1007.
Definition CLOSE_POLICY : Z := 1008.
Definition CLOSE_SIZE : Z := 1009.
Definition CLOSE_EXTENSION : Z := 1010.
Definition CLOSE_ERROR : Z := 1011.
Definition CLOSE_RESTART : Z := 1012.
Definition CLOSE_AGAIN : Z := 1013.

(** [CloseFrame]; the text of a [Utf8Bytes] is its bytes. *)
Record CloseFrame (C : Type) := {
  cf_code : C;
  cf_reason : str;
}.
Arguments cf_code {C}.
Arguments cf_reason {C}.
Arguments Build_CloseFrame {C}.

Inductive WsMessage :=
| MText (text : str)
| MBinary (data : str)
| MPing (data : str)
| MPong (data : str)
| MClose (frame : option (CloseFrame Z)).

(** [tungstenite::Message]; a raw frame is known by its bytes. *)
Inductive TMessage `{CloseCodeLib} :=
| TText (text : str)
| TBinary (data : str)
| TPing (data : str)
| TPong (data : str)
| TClose (frame : option (CloseFrame TCloseCode))
| TFrame (raw : str).

Section messages.
Context `{CC : CloseCodeLib}.

Definition into_tungstenite (self : WsMessage) : TMessage :=
  match self with
  | MText text => TText text
  | MBinary data => TBinary data
  | MPing data => TPing data
  | MPong data => TPong data
  | MClose (Some close) =>
    TClose (Some {| cf_code := tcode_from (cf_code close); cf_reason := cf_reason close |})
  | MClose None => TClose None
  end.
Definition from_tungstenite (message : TMessage) : option WsMessage :=
  match message with
  | TText text => Some (MText text)
  | TBinary data => Some (MBinary data)
  | TPing data => Some (MPing data)
  | TPong data => Some (MPong data)
  | TClose (Some close) =>
    Some (MClose (Some {| cf_code := tcode_into (cf_code close); cf_reason := cf_reason close |}))
  | TClose None => Some (MClose None)
  | TFrame _ => None
  end.

Definition into_data (self : WsMessage) : str :=
  match self with
  | MText data | MBinary data | MPing data | MPong data => data
  | MClose None => []
  | MClose (Some frame) => cf_reason frame
  end.
Definition not_text : BoxError := [NOther #"invalid utf-8"].
(** [into_text] and [to_text]. *)
Definition into_text (self : WsMessage) : result str BoxError :=
  match self with
  | MText text => Ok text
  | MBinary data | MPing data | MPong data =>
    match from_utf8 data with Some text => Ok text | None => Err (Error_decode not_text) end
  | MClose None => Ok []
  | MClose (Some frame) => Ok (cf_reason frame)
  end.

(** JSON, with what the serializer and the parser give. *)
Definition text_from_json (json : result str BoxError) : result WsMessage BoxError :=
  match json with Ok s => Ok (MText s) | Err e => Err (Error_decode e) end.
Definition binary_from_json (json : result str BoxError) : result WsMessage BoxError :=
  match json with Ok s => Ok (MBinary s) | Err e => Err (Error_decode e) end.
Definition message_json {T} (from_str : str → result T BoxError) (self : WsMessage) :
    result T BoxError :=
  match self with
  | MText x | MBinary x => map_err Error_decode (from_str x)
  | MPing _ | MPong _ | MClose _ => Err (Error_decode [NOther #"neither text nor binary"])
  end.

(** ** Receiving

    [poll_next]: the answers of the polls of the inner stream; those that are
    left are for later polls. *)
Abbreviation Frames := (list (poll (option (result TMessage BoxError)))).
Fixpoint ws_poll_next (inner : Frames) : poll (option (result WsMessage BoxError)) * Frames :=
  match inner with
  | [] => (Pending, [])
  | Pending :: inner => (Pending, inner)
  | Ready (Some (Ok msg)) :: inner =>
    match from_tungstenite msg with
    | Some msg => (Ready (Some (Ok msg)), inner)
    | None => ws_poll_next inner
    end
  | Ready (Some (Err err)) :: inner => (Ready (Some (Err (Error_websocket err))), inner)
  | Ready None :: inner => (Ready None, inner)
  end.

(** ** Sending

    The sink of [tungstenite]'s stream [T], as [futures] has sinks: it becomes
    ready, takes an item, flushes and closes. *)
Class Sink (T I E : Type) := {
  sink_poll_ready : T → poll (result unit E) * T;
  sink_start_send : I → T → result unit E * T;
  sink_poll_flush : T → poll (result unit E) * T;
  sink_poll_close : T → poll (result unit E) * T;
}.
Definition poll_map_err {A E E'} (f : E → E') (a : poll (result A E)) : poll (result A E') :=
  match a with Ready r => Ready (map_err f r) | Pending => Pending end.

Section sink.
Context {T : Type} `{TS : !Sink T TMessage BoxError}.
(** [impl Sink<Message> for WebSocket]. *)
#[export] Instance WebSocket_Sink : Sink T WsMessage BoxError := {|
  sink_poll_ready inner := prod_map (poll_map_err Error_websocket) id (sink_poll_ready inner);
  sink_start_send item inner :=
    prod_map (map_err Error_websocket) id (sink_start_send (into_tungstenite item) inner);
  sink_poll_flush inner := prod_map (poll_map_err Error_websocket) id (sink_poll_flush inner);
  sink_poll_close inner := prod_map (poll_map_err Error_websocket) id (sink_poll_close inner);
|}.

(** [send] and [close]: the stream's own operations, run to their end. *)
Context (inner_send : TMessage → T → result unit BoxError * T).
Context (inner_close : option (CloseFrame TCloseCode) → T → result unit BoxError * T).
Definition ws_send (msg : WsMessage) (inner : T) : result unit BoxError * T :=
  prod_map (map_err Error_websocket) id (inner_send (into_tungstenite msg) inner).
Definition ws_close (code : Z) (reason : str) (inner : T) : result unit BoxError * T :=
  let close_frame := {| cf_code := tcode_from code; cf_reason := reason |} in
  prod_map (map_err Error_websocket) id (inner_close (Some close_frame) inner).
End sink.

(** What a task does with a sink, and the answers it gets. *)
Inductive SinkOp (I : Type) := SinkReady | SinkSend (item : I) | SinkFlush | SinkClose.
Arguments SinkReady {I}.
Arguments SinkSend {I}.
Arguments SinkFlush {I}.
Arguments SinkClose {I}.
Definition sink_op {T I E} `{!Sink T I E} (op : SinkOp I) (s : T) : poll (result unit E) * T :=
  match op with
  | SinkReady => sink_poll_ready s
  | SinkSend item => prod_map Ready id (sink_start_send item s)
  | SinkFlush => sink_poll_flush s
  | SinkClose => sink_poll_close s
  end.
Fixpoint sink_run {T I E} `{!Sink T I E} (ops : list (SinkOp I)) (s : T) :
    list (poll (result unit E)) * T :=
  match ops with
  | [] => ([], s)
  | op :: ops => let '(a, s) := sink_op op s in prod_map (cons a) id (sink_run ops s)
  end.
Definition sink_map {I J} (f : I → J) (op : SinkOp I) : SinkOp J :=
  match op with
  | SinkReady => SinkReady
  | SinkSend item => SinkSend (f item)
  | SinkFlush => SinkFlush
  | SinkClose => SinkClose
  end.

(** The messages received until the stream ends, fails or has nothing more. *)
Fixpoint received (fuel : nat) (inner : Frames) : list WsMessage :=
  match fuel with
  | 0 => []
  | S fuel =>
    match ws_poll_next inner with
    | (Ready (Some (Ok msg)), inner) => msg :: received fuel inner
    | (Pending, (_ :: _) as inner) => received fuel inner
    | _ => []
    end
  end.

(** ** Facts *)
Definition code_ok (m : WsMessage) : Prop :=
  match m with MClose (Some f) => (0 <= cf_code f < 2 ^ 16)%Z | _ => True end.

Lemma from_into_tungstenite m : code_ok m → from_tungstenite (into_tungstenite m) = Some m.
Proof.
  destruct m as [| | | |[[code reason]|]]; try done. cbn. intros Hc. by rewrite tcode_from_into.
Qed.

(** Sending through a WebSocket is sending the same messages, as those of
    [tungstenite], through its stream: the stream goes through the same states
    and answers the same, but for its errors, which are errors of the crate. *)
Lemma websocket_sink {T} `{TS : !Sink T TMessage BoxError} (ops : list (SinkOp WsMessage)) (inner : T) :
  sink_run ops inner =
    prod_map (fmap (poll_map_err Error_websocket)) id
      (sink_run (I:=TMessage) (E:=BoxError) (sink_map into_tungstenite <$> ops) inner).
Proof.
  revert inner. induction ops as [|op ops IH]; intros inner; [done|].
  cbn [sink_run fmap list_fmap].
  assert (sink_op op inner =
    prod_map (poll_map_err Error_websocket) id (sink_op (E:=BoxError) (sink_map into_tungstenite op) inner)) as ->.
  { destruct op; cbn [sink_op sink_map sink_poll_ready sink_start_send sink_poll_flush sink_poll_close WebSocket_Sink].
    2: by destruct (sink_start_send (into_tungstenite _) _). all: done. }
  destruct (sink_op (sink_map into_tungstenite op) inner) as [a inner'].
  cbn [prod_map fst snd id]. rewrite IH.
  by destruct (sink_run (sink_map into_tungstenite <$> ops) inner').
Qed.

(** The messages among the answers of the inner stream. *)
Definition inner_messages (inner : Frames) : list WsMessage :=
  omap (λ a, match a with Ready (Some (Ok m)) => from_tungstenite m | _ => None end) inner.
Definition goes_on (a : poll (option (result TMessage BoxError))) : Prop :=
  match a with Pending | Ready (Some (Ok _)) => True | _ => False end.

Lemma ws_poll_next_spec inner :
  Forall goes_on inner →
  ∃ inner', Forall goes_on inner' ∧ (inner = [] ∨ length inner' < length inner) ∧
    match inner_messages inner with
    | m :: ms => ws_poll_next inner = (Ready (Some (Ok m)), inner') ∧ inner_messages inner' = ms ∨
                 ws_poll_next inner = (Pending, inner') ∧ inner_messages inner' = m :: ms ∧ inner' ≠ []
    | [] => ws_poll_next inner = (Pending, inner') ∧ inner_messages inner' = []
    end.
Proof.
  induction inner as [|a inner IH]; intros Hok.
  { exists []. split_and!; [done|by left|]. by split. }
  apply Forall_cons in Hok as [Ha Hok]. destruct a as [[[m|]|]|]; try done.
  - unfold inner_messages. cbn [omap list_omap ws_poll_next].
    destruct (from_tungstenite m) as [w|] eqn:Hm.
    + exists inner. split_and!; [done|right; cbn; lia|]. by left.
    + destruct (IH Hok) as (inner' & Hok' & Hl & Hs). exists inner'. split_and!; [done| |done].
      right. cbn. destruct Hl as [->|]; [|lia]. cbn in Hs. destruct Hs as [[= <-] _]. cbn. lia.
  - exists inner. split_and!; [done|right; cbn; lia|].
    change (inner_messages (Pending :: inner)) with (inner_messages inner). cbn [ws_poll_next].
    destruct (inner_messages inner) eqn:E; [done|]. right. split_and!; [done|done|].
    intros ->. discriminate E.
Qed.

Lemma received_all fuel inner :
  Forall goes_on inner → length inner <= fuel → received fuel inner = inner_messages inner.
Proof.
  revert inner. induction fuel as [|fuel IH]; intros inner Hok Hf.
  { by destruct inner; [|cbn in Hf; lia]. }
  destruct (ws_poll_next_spec inner Hok) as (inner' & Hok' & Hl & Hs). cbn [received].
  assert (length inner' <= fuel) as Hf'.
  { destruct Hl as [->|Hl]; [|lia]. destruct Hs as [[= <-] _]. cbn. lia. }
  destruct (inner_messages inner) as [|m ms].
  - destruct Hs as [-> Hn]. destruct inner' as [|a inner']; [done|]. by rewrite IH, Hn.
  - destruct Hs as [[-> <-]|(-> & Hn & Hne)]; [by rewrite IH|].
    destruct inner' as [|a inner']; [done|]. by rewrite IH, Hn.
Qed.

(** Messages.  Whatever messages a peer sends, with whatever raw frames and
    pauses between them, polling the WebSocket until there is nothing left gives
    exactly these messages, unchanged and in their order; close codes keep
    their number. *)
Theorem messages_roundtrip (sent : list (WsMessage + option str)) fuel :
  (∀ m, inl m ∈ sent → code_ok m) →
  let wire := (λ item, match item with
                       | inl m => Ready (Some (Ok (into_tungstenite m)))
                       | inr (Some raw) => Ready (Some (Ok (TFrame raw)))
                       | inr None => Pending
                       end) <$> sent in
  length sent <= fuel →
  received fuel wire = omap (λ item, match item with inl m => Some m | inr _ => None end) sent.
Proof.
  intros Hc wire Hf. rewrite received_all.
  - unfold wire, inner_messages. clear wire Hf. induction sent as [|[m|[raw|]] sent IH]; [done|..].
    + cbn [fmap list_fmap omap list_omap]. rewrite from_into_tungstenite by (apply Hc; left).
      rewrite IH; [done|]. intros m' Hm'. apply Hc. by right.
    + apply IH. intros m' Hm'. apply Hc. by right.
    + apply IH. intros m' Hm'. apply Hc. by right.
  - unfold wire. apply Forall_fmap, Forall_forall. intros [m|[raw|]] _; done.
  - unfold wire. by rewrite length_fmap.
Qed.
End messages.

(** ** The handshake *)

(** [WebSocketConfig] of [tungstenite]. *)
Record WebSocketConfig := {
  wc_read_buffer_size : Z;
  wc_write_buffer_size : Z;
  wc_max_write_buffer_size : Z;
  wc_max_message_size : option Z;
  wc_max_frame_size : option Z;
  wc_accept_unmasked_frames : bool;
}.

Section handshake.
Context `{HV : HeaderValueLib, HM : HeaderMapLib, UL : UriLib, NL : IpNetLib}.
Context {H1 H2 S O Cl RO Upgraded : Type}.
(** The configuration [tungstenite] starts with. *)
Context (default_config : WebSocketConfig).

Abbreviation ReqBuilder := (@RequestBuilder HM NL H1 H2 S O Cl).
Abbreviation Req := (Request (@Extensions HM NL H1 H2 S O) (option Body)).
Abbreviation Res := (@WResponse HM RO).
Abbreviation HttpRes := (Response (@ResExtensions RO) (list (result str BoxError))).

Record WebSocketRequestBuilder := {
  ws_inner : ReqBuilder;
  ws_accept_key : option str;
  ws_protocols : option (list str);
  ws_config : WebSocketConfig;
}.
Implicit Types (self : WebSocketRequestBuilder).

Definition WebSocketRequestBuilder_new (inner : ReqBuilder) : WebSocketRequestBuilder :=
  {| ws_inner := version HTTP_11 inner; ws_accept_key := None; ws_protocols := None;
     ws_config := default_config |}.
Definition ws_set_accept_key (key : str) self := self <| ws_accept_key := Some key |>.
Definition ws_set_protocols (protocols : list str) self := self <| ws_protocols := Some protocols |>.
Definition ws_max_frame_size (n : Z) self :=
  self <| ws_config ::= λ c, c <| wc_max_frame_size := Some n |> |>.
Definition ws_read_buffer_size (n : Z) self :=
  self <| ws_config ::= λ c, c <| wc_read_buffer_size := n |> |>.
Definition ws_write_buffer_size (n : Z) self :=
  self <| ws_config ::= λ c, c <| wc_write_buffer_size := n |> |>.
Definition ws_max_write_buffer_size (n : Z) self :=
  self <| ws_config ::= λ c, c <| wc_max_write_buffer_size := n |> |>.
Definition ws_max_message_size (n : Z) self :=
  self <| ws_config ::= λ c, c <| wc_max_message_size := Some n |> |>.
Definition ws_accept_unmasked_frames (b : bool) self :=
  self <| ws_config ::= λ c, c <| wc_accept_unmasked_frames := b |> |>.
(** The methods that go to the builder of the request: [version], [header],
    [headers], [auth], [proxy] and the like. *)
Definition ws_on_inner (f : ReqBuilder → ReqBuilder) self := self <| ws_inner ::= f |>.

(** *** The request *)
(** The scheme [ws] is that of HTTP, and [wss] that of HTTPS. *)
Definition ws_scheme (uri : Uri) : option Scheme :=
  match uri_scheme uri with
  | Some (OtherScheme s) =>
    if decide (s = #"ws") then Some HTTP else if decide (s = #"wss") then Some HTTPS else None
  | _ => None
  end.
Definition ws_uri (uri : Uri) : result Uri BoxError :=
  match ws_scheme uri with
  | Some scheme =>
    match uri_from_parts {| uri_scheme := Some scheme; uri_authority := uri_authority uri;
                            uri_path_and_query := uri_path_and_query uri |} with
    | Some u => Ok u
    | None => Err (Error_builder invalid_uri)
    end
  | None => Ok uri
  end.

Definition insert_value (n : HeaderName) (v : option HeaderValue) (request : Req) : result Req BoxError :=
  match v with
  | Some v => Ok (set_headers (hm_insert n v (req_headers request)) request)
  | None => Err (Error_builder invalid_value)
  end.

(** The part for the version of the request, and the nonce of an upgrade;
    [generate_key] is the key of [tungstenite]. *)
Definition ws_upgrade (generate_key : str) (accept_key : option str) (request : Req) :
    result (Req * option str) BoxError :=
  match request_version request with
  | Some (HTTP_10 | HTTP_11) =>
    let nonce := default generate_key accept_key in
    let h := hm_insert UPGRADE (static_value #"websocket") (req_headers request) in
    let h := hm_insert CONNECTION (static_value #"upgrade") h in
    request ←? insert_value SEC_WEBSOCKET_KEY (header_from_str nonce) (set_headers h request) ;
    let request := set_method GET request in
    Ok (request_version_mut (λ _, Some HTTP_11) request, Some nonce)
  | Some HTTP_2 =>
    let request := set_method CONNECT request in
    let request := request_version_mut (λ _, Some HTTP_2) request in
    Ok (set_ext (req_ext request <| x_protocol := Some #"websocket" |>) request, None)
  | _ => Err (Error_upgrade [NOther #"unsupported version"])
  end.

Definition ws_subprotocols (protocols : option (list str)) (request : Req) : result Req BoxError :=
  match protocols with
  | Some ((_ :: _) as protocols) =>
    insert_value SEC_WEBSOCKET_PROTOCOL (from_maybe_shared (join #", " protocols)) request
  | _ => Ok request
  end.

(** [send], until the request is executed. *)
Definition websocket_send (generate_key : str) self : result (Cl * Req * option str) BoxError :=
  let '(client, request) := build_split (ws_inner self) in
  request ←? request ;
  uri ←? ws_uri (req_uri request) ;
  let request := set_uri uri request in
  let h := hm_insert SEC_WEBSOCKET_VERSION (static_value #"13") (req_headers request) in
  upgraded ←? ws_upgrade generate_key (ws_accept_key self) (set_headers h request) ;
  request ←? ws_subprotocols (ws_protocols self) upgraded.1 ;
  Ok (client, request, upgraded.2).

(** *** The response *)
Record WebSocketResponse := {
  wr_inner : Res;
  wr_accept_key : option str;
  wr_protocols : option (list str);
  wr_config : WebSocketConfig;
}.
(** [WebSocket]: the upgraded stream with its configuration, and the protocol. *)
Record WebSocket := {
  w_stream : Upgraded;
  w_config : WebSocketConfig;
  w_protocol : option HeaderValue;
}.

Definition header_eq (headers : HeaderMap HeaderValue) (key : HeaderName) (value : str) : bool :=
  match hm_get headers key with
  | Some header => eq_ignore_ascii_case (hv_bytes header) value
  | None => false
  end.
Definition header_contains (headers : HeaderMap HeaderValue) (key : HeaderName) (value : str) : bool :=
  match hm_get headers key with
  | Some header =>
    match from_utf8 (hv_bytes header) with
    | Some header => Prelude.contains value (to_ascii_lowercase header)
    | None => false
    end
  | None => false
  end.

(** The end of [upgrade] ([netty::upgrade::on]), and the accept key
    [tungstenite] derives from a nonce. *)
Context (upgrade_on : Res → result Upgraded BoxError) (derive_accept_key : str → str).

Definition upgrade (self : Res) : result Upgraded BoxError := map_err Error_upgrade (upgrade_on self).

Definition failure (text : str) : result unit BoxError := Err (Error_upgrade [NOther text]).
Definition check_upgrade (accept_key : option str) (inner : Res) : result unit BoxError :=
  let status := res_status (r_res inner) in
  let headers := res_headers (r_res inner) in
  match res_version (r_res inner) with
  | HTTP_10 | HTTP_11 =>
    if negb (bool_decide (status = 101%Z)) then failure #"unexpected status code"
    else if negb (header_contains headers CONNECTION #"upgrade")
    then failure #"missing connection header"
    else if negb (header_eq headers UPGRADE #"websocket") then failure #"invalid upgrade header"
    else
      match accept_key, hm_get headers SEC_WEBSOCKET_ACCEPT with
      | Some nonce, Some header =>
        if bool_decide (to_str header = Some (derive_accept_key nonce)) then Ok tt
        else failure #"invalid accept key"
      | _, _ => failure #"missing accept key"
      end
  | HTTP_2 =>
    if negb (bool_decide (status = 200%Z)) then failure #"unexpected status code" else Ok tt
  | _ => failure #"unsupported version"
  end.
Definition check_protocol (protocols : option (list str)) (protocol : option HeaderValue) :
    result unit BoxError :=
  let requested := match protocols with Some [] => None | p => p end in
  let replied := protocol ≫= to_str in
  match requested, replied with
  | Some req, Some rep => if bool_decide (rep ∈ req) then Ok tt else failure #"invalid protocol"
  | Some _, None => failure #"missing protocol"
  | None, Some _ => failure #"invalid protocol"
  | None, None => Ok tt
  end.
Definition into_websocket (self : WebSocketResponse) : result WebSocket BoxError :=
  _ ←? check_upgrade (wr_accept_key self) (wr_inner self) ;
  let protocol := hm_get (res_headers (r_res (wr_inner self))) SEC_WEBSOCKET_PROTOCOL in
  _ ←? check_protocol (wr_protocols self) protocol ;
  stream ←? upgrade (wr_inner self) ;
  Ok {| w_stream := stream; w_config := wr_config self; w_protocol := protocol |}.

(** *** Facts *)

(** The values [insert_value] leaves. *)
Lemma insert_value_Ok n v (request request' : Req) :
  insert_value n v request = Ok request' →
  ∃ w, v = Some w ∧ request' = set_headers (hm_insert n w (req_headers request)) request.
Proof. unfold insert_value. destruct v; naive_solver. Qed.

Lemma request_version_mut_headers f (request : Req) :
  req_headers (request_version_mut f request) = req_headers request.
Proof. done. Qed.

(** The request of an upgrade has the key whose derivation is expected. *)
Lemma ws_upgrade_Ok gk key (request request' : Req) accept :
  ws_upgrade gk key request = Ok (request', accept) →
  match accept with
  | Some nonce =>
    req_method request' = GET ∧
    ∀ n, hm_get_all (req_headers request') n =
      if decide (n = SEC_WEBSOCKET_KEY) then [static_value nonce]
      else if decide (n = CONNECTION) then [static_value #"upgrade"]
      else if decide (n = UPGRADE) then [static_value #"websocket"]
      else hm_get_all (req_headers request) n
  | None =>
    req_method request' = CONNECT ∧ x_protocol (req_ext request') = Some #"websocket" ∧
    req_headers request' = req_headers request
  end.
Proof.
  unfold ws_upgrade. intros Hu.
  destruct (request_version request) as [[]|]; try discriminate Hu;
    [| |injection Hu as <- <-; split_and!; [done| |done]; cbn [req_ext set_ext];
        by match goal with |- x_protocol (field_set _ _ ?x) = _ => destruct x end].
  all: destruct (insert_value _ _ _) as [r|] eqn:Hi; [|discriminate Hu];
    apply insert_value_Ok in Hi as (w & Hw & ->); rewrite header_from_str_spec in Hw;
    destruct (forallb _ _); [|done]; simplify_eq/=; split; [done|]; intros n;
    rewrite !hm_get_all_insert; repeat case_decide; done.
Qed.

Lemma ws_subprotocols_Ok protocols (request request' : Req) :
  ws_subprotocols protocols request = Ok request' →
  req_method request' = req_method request ∧ req_ext request' = req_ext request ∧
  ∀ n, hm_get_all (req_headers request') n =
    match protocols with
    | Some (p :: ps) =>
      if decide (n = SEC_WEBSOCKET_PROTOCOL) then [static_value (join #", " (p :: ps))]
      else hm_get_all (req_headers request) n
    | _ => hm_get_all (req_headers request) n
    end.
Proof.
  unfold ws_subprotocols. destruct protocols as [[|p ps]|]; [naive_solver| |naive_solver].
  intros (w & Hw & ->)%insert_value_Ok. split_and!; [done..|]. intros n. cbn [req_headers set_headers].
  rewrite hm_get_all_insert. case_decide; [|done].
  apply from_maybe_shared_Some in Hw as [Hb Hs]. destruct w as [b sens].
  cbn [hv_bytes hv_sensitive] in *. by subst.
Qed.

(** What the response must say for the connection to be upgraded. *)
Definition upgraded_response (key : option str) (r : HttpRes) : Prop :=
  match res_version r with
  | HTTP_10 | HTTP_11 =>
    res_status r = 101%Z ∧
    (∃ v, hm_get (res_headers r) CONNECTION = Some v ∧ utf8_valid (hv_bytes v) = true ∧
       Prelude.contains #"upgrade" (to_ascii_lowercase (hv_bytes v)) = true) ∧
    (∃ v, hm_get (res_headers r) UPGRADE = Some v ∧
       to_ascii_lowercase (hv_bytes v) = #"websocket") ∧
    (∃ nonce, key = Some nonce ∧
       (hm_get (res_headers r) SEC_WEBSOCKET_ACCEPT ≫= to_str) = Some (derive_accept_key nonce))
  | HTTP_2 => res_status r = 200%Z
  | _ => False
  end.
Definition agreed_protocol (protocols : option (list str)) (r : HttpRes) : Prop :=
  let replied := hm_get (res_headers r) SEC_WEBSOCKET_PROTOCOL ≫= to_str in
  match protocols with
  | Some (p :: ps) => ∃ chosen, replied = Some chosen ∧ chosen ∈ p :: ps
  | _ => replied = None
  end.

Lemma header_contains_iff (h : HeaderMap HeaderValue) n value :
  header_contains h n value = true ↔
  ∃ v, hm_get h n = Some v ∧ utf8_valid (hv_bytes v) = true ∧
       Prelude.contains value (to_ascii_lowercase (hv_bytes v)) = true.
Proof.
  unfold header_contains, from_utf8. destruct (hm_get h n) as [v|]; [|naive_solver].
  destruct (utf8_valid (hv_bytes v)) eqn:E; naive_solver.
Qed.
Lemma header_eq_iff (h : HeaderMap HeaderValue) n value :
  header_eq h n value = true ↔
  ∃ v, hm_get h n = Some v ∧ to_ascii_lowercase (hv_bytes v) = to_ascii_lowercase value.
Proof.
  unfold header_eq, eq_ignore_ascii_case. destruct (hm_get h n) as [v|]; [|naive_solver].
  rewrite bool_decide_eq_true. naive_solver.
Qed.

Lemma check_upgrade_iff key inner :
  check_upgrade key inner = Ok tt ↔ upgraded_response key (r_res inner).
Proof.
  unfold check_upgrade, upgraded_response, failure.
  pose proof (header_contains_iff (res_headers (r_res inner)) CONNECTION #"upgrade") as Hc.
  pose proof (header_eq_iff (res_headers (r_res inner)) UPGRADE #"websocket") as He.
  change (to_ascii_lowercase #"websocket") with #"websocket" in He.
  destruct (res_version (r_res inner)); [by split| | | |by split].
  3:{ clear Hc He. case_bool_decide; by split. }
  all: rewrite <- Hc, <- He; clear Hc He; case_bool_decide; cbn [negb]; [|naive_solver].
  all: destruct (header_contains _ _ _); cbn [negb]; [|naive_solver].
  all: destruct (header_eq _ _ _); cbn [negb]; [|naive_solver].
  all: destruct key as [nonce|], (hm_get _ SEC_WEBSOCKET_ACCEPT) as [v|]; cbn [mbind option_bind];
    try case_bool_decide; naive_solver.
Qed.
Lemma check_protocol_iff protocols (r : HttpRes) :
  check_protocol protocols (hm_get (res_headers r) SEC_WEBSOCKET_PROTOCOL) = Ok tt ↔
  agreed_protocol protocols r.
Proof.
  unfold check_protocol, agreed_protocol, failure.
  destruct protocols as [[|p ps]|], (_ ≫= to_str) as [rep|]; cbn zeta; try naive_solver.
  case_bool_decide; naive_solver.
Qed.

Lemma into_websocket_iff (self : WebSocketResponse) :
  (∃ ws, into_websocket self = Ok ws) ↔
  (∃ stream, upgrade_on (wr_inner self) = Ok stream) ∧
  upgraded_response (wr_accept_key self) (r_res (wr_inner self)) ∧
  agreed_protocol (wr_protocols self) (r_res (wr_inner self)).
Proof.
  rewrite <- check_upgrade_iff, <- check_protocol_iff. unfold into_websocket, upgrade, map_err.
  destruct (check_upgrade _ _) as [[]|]; [|naive_solver].
  destruct (check_protocol _ _) as [[]|]; [|naive_solver].
  destruct (upgrade_on _); naive_solver.
Qed.

(** The request that opens a WebSocket. *)
Record opening (protocols : option (list str)) (accept : option str) (req : Req) : Prop := {
  op_version : hm_get_all (req_headers req) SEC_WEBSOCKET_VERSION = [static_value #"13"];
  op_protocols p ps : protocols = Some (p :: ps) →
    hm_get_all (req_headers req) SEC_WEBSOCKET_PROTOCOL = [static_value (join #", " (p :: ps))];
  op_form : match accept with
            | Some nonce =>
              req_method req = GET ∧
              hm_get_all (req_headers req) SEC_WEBSOCKET_KEY = [static_value nonce] ∧
              hm_get_all (req_headers req) UPGRADE = [static_value #"websocket"] ∧
              hm_get_all (req_headers req) CONNECTION = [static_value #"upgrade"]
            | None => req_method req = CONNECT ∧ x_protocol (req_ext req) = Some #"websocket"
            end;
}.

Lemma websocket_send_Ok gk self client req accept :
  websocket_send gk self = Ok (client, req, accept) → opening (ws_protocols self) accept req.
Proof.
  unfold websocket_send. destruct (build_split _) as [cl r0]. intros Hsend.
  destruct r0 as [r0|]; [|discriminate Hsend].
  destruct (ws_uri _) as [uri|]; [|discriminate Hsend].
  destruct (ws_upgrade _ _ _) as [[r1 acc]|] eqn:Hup; [|discriminate Hsend].
  destruct (ws_subprotocols _ _) as [r2|] eqn:Hsub; [|discriminate Hsend].
  injection Hsend as <- <- <-. apply ws_upgrade_Ok in Hup.
  apply ws_subprotocols_Ok in Hsub as (Hm & Hx & Hh). cbn [fst snd] in *.
  assert (∀ n, n ≠ SEC_WEBSOCKET_PROTOCOL →
    hm_get_all (req_headers r2) n = hm_get_all (req_headers r1) n) as Hother.
  { intros n Hn. rewrite Hh. repeat case_match; done. }
  split.
  - rewrite Hother by done. destruct acc as [nonce|].
    + destruct Hup as [_ ->]. cbn [req_headers set_headers]. rewrite hm_get_all_insert. reflexivity.
    + destruct Hup as (_ & _ & ->). cbn [req_headers set_headers]. by rewrite hm_get_all_insert.
  - intros p ps Hp. rewrite Hh, Hp. by rewrite decide_True.
  - destruct acc as [nonce|].
    + destruct Hup as [Hg Hk]. rewrite Hm, !Hother, !Hk by done. by split_and!.
    + destruct Hup as (Hg & Hp & _). by rewrite Hm, Hx.
Qed.

End handshake.

(** ** Examples *)
Module WebSocketExamples.
Definition defaults : WebSocketConfig :=
  {| wc_read_buffer_size := 131072; wc_write_buffer_size := 131072; wc_max_write_buffer_size := u64_max;
     wc_max_message_size := Some 67108864%Z; wc_max_frame_size := Some 16777216%Z;
     wc_accept_unmasked_frames := false |}.
Definition chat : Uri :=
  {| uri_scheme := Some (OtherScheme #"wss");
     uri_authority := Some {| auth_str := #"example.com"; auth_host := #"example.com"; auth_port := None |};
     uri_path_and_query := Some {| pq_path := #"/chat"; pq_query := None |} |}.
Definition builder : WebSocketRequestBuilder (H1:=unit) (H2:=unit) (S:=unit) (O:=unit) (Cl:=unit) :=
  ws_set_protocols [ #"v1"; #"v2"]
    (WebSocketRequestBuilder_new defaults (from_parts tt (Request_new tt GET chat))).
Definition derive (nonce : str) : str := #"accept-" ++ nonce.
Definition reply : WResponse (O:=unit) :=
  {| r_uri := chat;
     r_res := {| res_status := 101%Z; res_version := HTTP_11;
                 res_headers :=
                   hm_insert SEC_WEBSOCKET_PROTOCOL (static_value #"v2")
                     (hm_insert SEC_WEBSOCKET_ACCEPT (static_value #"accept-k")
                        (hm_insert CONNECTION (static_value #"keep-alive, Upgrade")
                           (hm_insert UPGRADE (static_value #"WebSocket") hm_empty)));
                 res_ext := {| re_request_uri := None; re_reason := None; re_http_info := None;
                               re_other := tt |};
                 res_body := [] |} |}.


Lemma messages_roundtrip_witness :
  received 3 [Ready (Some (Ok (TText #"hi"))); Pending;
              Ready (Some (Ok (TClose (Some {| cf_code := CLOSE_NORMAL; cf_reason := [] |}))))] =
  [MText #"hi"; MClose (Some {| cf_code := CLOSE_NORMAL; cf_reason := [] |})].
Proof.
  apply (messages_roundtrip (CC:=RefCloseCode)
    [inl (MText #"hi"); inr None; inl (MClose (Some {| cf_code := CLOSE_NORMAL; cf_reason := [] |}))] 3).
  - intros m [[= ->]|[[=]|[[= ->]|?%elem_of_nil]%elem_of_cons]%elem_of_cons]%elem_of_cons; done.
  - reflexivity.
Defined.
End WebSocketExamples.
